(* ===== verification/_CoqProject ===== *)
-Q . S2P
Prelude.v
RustStr.v
Extern.v
Postgres.v
Metrics.v
CodeCache.v
Limiter.v
NetGuard.v
Store.v
ResolveCache.v
RequestBody.v
Logs.v
Addr.v
Url.v
Ingress.v
WorkerPool.v
DurableRegistry.v
DurableId.v
DurableAlarms.v
D1Keys.v
D1Archive.v
Storage.v
Kv.v
Scheduler.v
Shutdown.v
Fetch.v
WebSocket.v
DurableSockets.v
Server.v
D1Sql.v
ObjectStorage.v
D1Service.v
D1Disk.v
D1Calls.v
D1Requests.v
Database.v
Ops.v
CallChain.v
Workers.v
TaskRun.v
Singleton.v
AlarmLoop.v
DurableVersions.v
Listeners.v
Instruments.v
Telemetry.v
DurableCalls.v
Startup.v
D1Limits.v
