(* ===== verification/Prelude.v ===== *)
(** * The OpenWorkers runner: verification development

    The runner answers HTTP requests with the JavaScript or WebAssembly worker
    that the request resolves to. A request comes in through the ingress, which
    gives it a route and the headers that only the runner sets. The store reads
    the worker and its bindings from PostgreSQL, behind the resolve cache. The
    worker pool gives the task a thread and a slot. The script then runs in an
    engine, and calls back into the runner for each operation: an outgoing
    fetch, KV, SQL, a Durable Object, a log line. Limiters bound these calls,
    and the egress guard refuses the addresses of the host network.

    The paths below are those of the repository, from its root.

    ** Files

    Shared by the components:

    - [Prelude]: results, machine integers, tactics, hint databases, and the
      lemmas on lists, maps and counts that the components share.
    - [RustStr]: the methods of [str] that the code calls, on UTF-8 bytes.
    - [Extern]: the crates the code keeps its state in (lru, tokio's semaphore
      and channels, http's header map, UUIDs), each a type class with its
      documented laws and an instance that the witnesses evaluate.
    - [Postgres]: a database whose statements can fail, or work and lose their
      answer.
    - [Url]: the percent decoding and the URL parser the code relies on.
    - [Addr]: the address parsers of the Rust standard library.
    - [Metrics] (src/metrics.rs): the label under which an end is counted.

    The process:

    - [Startup] (bin/main.rs): what [main] does, as a trace, with the
      configuration read by the components that own it.
      [start_and_stop_in_order]: nothing happens without the lock of the
      runner, and the lock is the last thing given back.
    - [Singleton] (src/singleton.rs): the lock that keeps a second runner out.
      [overlap_bounded]: two runners that both believe they have it do so for
      seven seconds at most.
    - [Shutdown] (bin/main.rs): the drain and its monitor. [drain_ends]: with
      its notifications in time the monitor stops the runner;
      [lost_wakeup_hangs]: the run of the code where it does not.
    - [Listeners] (src/ingress.rs): the sockets that are bound and the TLS
      configuration. [bind_one_address], [bind_unix_keeps_files]: a socket
      never replaces another file; [tls_client_roots].
    - [Instruments] (src/metrics.rs), [Telemetry] (src/telemetry.rs): what is
      measured and where it goes. [metrics_agree]: the totals, the durations
      and the errors count the same requests; [phases_cover];
      [init_installs_one]; [headers_roundtrip].

    The path of a request:

    - [Ingress] (src/ingress.rs): configuration, allowlist, accept loop and
      request preparation. [prepare_noninterference]: a client cannot set what
      only the runner sets; [prepare_routes]: who answers which host;
      [accept_serves_allowed]; [from_vars_valid].
    - [Server] (bin/main.rs): the listeners, the admin endpoints, and the way
      of a request from its worker to its answer, as a trace of effects.
      [guest_never_administers]: what a worker sends is never taken for a call
      of an administrator; [request_accounted]: a request is counted once,
      with the outcome it had; [create_pool_ends].
    - [RequestBody] (src/request_body.rs, src/utils.rs): the body limit and
      the cut of guest strings.
    - [Store] (src/store.rs): the tables, the queries, and how rows become
      environments, bindings, endpoints and resolutions. [bindings_owned]: a
      worker gets the resources of its owner only; [infos_hold_no_secret].
    - [ResolveCache] (src/resolve_cache.rs): the cache of resolutions and
      workers, its generation, and the listener. [resolve_coherent]: over all
      interleavings, what the cache holds is what the database holds, or the
      invalidation is on its way.
    - [CodeCache] (src/code_cache.rs): the LRU of compiled code with its byte
      budget. [budgets_hold]; [cache_refines_map].
    - [WorkerPool] (src/worker_pool.rs): modules [Pool] (threads, round robin),
      [PerWorker] (a semaphore per worker, pruned when no task holds it),
      [Slots] (the permit of a task, swapped when its request becomes a
      socket), [Drain] (the wait for the last task).
    - [Workers] (src/worker.rs, src/runtime.rs, src/wasm_cache.rs): which
      backend runs a worker, its bindings, and the caches of compiled code.
      [prepared_fits]: a prepared worker is one its backend runs;
      [worker_runs_deployment]: whatever the caches hold, the code that runs
      is the one of the deployment; [trusted_bytes_serialized]: only what an
      engine serialized is loaded without a check.
    - [TaskRun] (src/task_executor.rs, src/event_fetch.rs): a task from its
      slot to its end, over the threads of the pool. [slot_until_guest_ends];
      [tasks_settle]: every task ends and gives back what it holds;
      [one_isolate_per_thread]; [late_logged_once].
    - [WebSocket] (src/websocket.rs): the upgrade and the relay.
      [relay_in_order_and_bounded]: the frames in their order, and no more
      bytes in the queue than the limit.
    - [Logs] (src/log.rs, src/logs.rs): the log sink, the batches written to
      the database, and the streams of the dashboard. [lines_conserved]: each
      line sent is taken, waiting or counted as dropped; [serve_authorized].
    - [Scheduler] (src/scheduler.rs, src/event_scheduled.rs): the crons.
      [runs_at_most_once]: a run is claimed by one runner, whatever fails;
      [claim_due_exact].

    The operations of a worker:

    - [Limiter] (src/limiter.rs): the calls of a binding, in total and at once.
      [limits_hold]: for any interleaving of callers, cancellations and resets.
    - [Ops] (src/ops.rs): the handle of a task and its operations, as programs
      whose actions interleave. [ops_limited]: [Limiter]'s bounds on the calls
      of the services; [ops_confined]: an operation reaches only what the
      bindings of its worker name, and the network only behind the guard;
      [reused_handle_forgets_depth]: what a handle that passes to another
      request no longer keeps.
    - [CallChain] (src/ops.rs, bin/main.rs): [Ops] and [Server] together.
      [call_chain_bounded]: workers that call each other, each while its handle
      serves its request, stop at the limit.
    - [NetGuard] (src/services/net_guard.rs): the egress guard.
      [ip_is_public_iff]: the tests of the code are a list of networks;
      [guards_refuse_private]: what passes has public addresses only.
    - [Fetch] (src/services/fetch.rs): outgoing requests, and the ones the
      runner routes to itself.
    - [Kv] (src/services/kv.rs): [kv_put_then_get], [kv_list_exact].
    - [Database] (src/services/database.rs): [guest_pools_guarded]: a
      pool is made for a host that the resolver gave public addresses for, at
      that moment; [pool_outlives_check]: and not later;
      [platform_query_atomic]: a failed query leaves the database as it was.
    - [Storage] (src/services/storage.rs, [S3Store] of src/d1/archive.rs):
      [sanitize_confined]: a key stays under the prefix of its binding;
      [prefix_escape]: the keys the parser of URLs then moves out of it;
      [s3_backup_restores]: [S3Store] is the store [D1Archive] asks for.

    Durable Objects:

    - [DurableRegistry] (src/durable/mod.rs): the tasks that serve them.
      [one_task_per_object]: no two tasks run the code of one object at once;
      [no_event_lost]; [stop_namespace_final].
    - [DurableCalls] (src/durable/mod.rs): the callers of objects, their depths
      and their answers. [calls_answered]: no caller is forgotten, and no
      guard panics.
    - [DurableVersions] (src/durable/mod.rs): the check for new deployments.
      [versions_converge]: how long an object can serve an old one.
    - [DurableId] (src/durable/id.rs): ids and their MAC. [parse_exact].
    - [DurableAlarms] (src/durable/alarms.rs): the alarm of an object and its
      row in the index. [alarm_stays_indexed]: an alarm keeps its row, which is
      not later than the alarm or, with failures, than one retry after it, for
      deliveries that read under the lock.
    - [AlarmLoop] (src/durable/alarms.rs): modules [Locks] (the lock of each
      object) and [Loop] (the claims). [alarm_lock_exclusive];
      [alarms_prompt]: how late a due alarm is claimed; [lock_stays_in_map]
      and [failed_claim_spins]: runs where the code does what it should not.
    - [DurableSockets] (src/durable/sockets.rs): the sockets of objects.
      [open_sockets_hold_slots], [socket_frames_in_order].
    - [ObjectStorage] (src/d1/sqlite/object.rs): keys, values and the alarm of
      an object in its file. [write_then_read], [list_exact].

    D1, the SQL databases the runner keeps:

    - [D1Keys], [D1Service] (src/d1/mod.rs): the names of files; the handles of
      open databases, the queue, the limits and the snapshot pass.
      [unsaved_stays_listed]: a database with commits that no snapshot has is
      not closed; [queue_exact]; [usage_total].
    - [D1Sql] (src/d1/sqlite.rs): statements, batches, scripts and migrations
      on a connection. [batch_atomic], [migrate_once].
    - [D1Limits] (src/d1/sqlite.rs): what is set when a file is opened.
      [open_bounded]: its pages stay within the limit.
    - [D1Archive] (src/d1/archive.rs): snapshots in an object store, behind an
      index. [save_replaces_current], [restore_gives_current]: with failures
      at any call; [start_fences]: a runner that was replaced records nothing.
    - [D1Disk], [D1Calls] (src/d1/mod.rs, the copies of src/d1/archive.rs): the
      data directory, and a call as a whole on its files and its snapshots.
      [call_refines_map]: the service is a map from databases to contents,
      whatever fails; [reset_restores_snapshot]; [snapshot_pass_copies];
      [paused_database_kept]; [reset_loses_write]: a call between the halves of
      a reset.
    - [D1Requests] (src/d1/requests.rs): the management requests and the sweep.
      [requests_served]: in order, and a result is final; [purged_files_gone];
      [stuck_rows_starve]: rows that hold up the purge.

    ** How the code is modelled

    A function of the source is a definition with its name. State that the
    code mutates is passed and returned; an error is a value of [result]; a
    panic is [None] of the function's answer where the code can panic. Machine
    integers are [Z] with the wrap-around of their width written out. Maps are
    [gmap]; strings are their UTF-8 bytes. Functions that run under one lock or
    in one SQL statement are atomic; where several tasks meet at such
    functions, an inductive step relation interleaves them, and the theorems
    hold for every reachable state.

    Loops over a list are structural recursions. The others have fuel that is
    enough: the length of the text and one more in the readers of [Addr], the
    trims and splits of [RustStr], and the script of [D1Sql]
    ([script_loop_total]); the entries and one more in the eviction of
    [CodeCache]; the six tries of [Server.create_pool] ([create_pool_ends]).
    The ten rounds of [Storage.decode_rounds] are the source's own.
    [Logs.follow_next] and [Ops.run] evaluate a given number of steps in the
    examples.

    Code that is not in the repository (hyper, sqlx, rustls, the engines, the
    URL and UUID parsers, HMAC, SQLite) is a parameter of the definitions that
    use it; its documented behaviour is a class law or a named hypothesis, and
    a witness instantiates it.

    ** Not modelled

    The engines: what a script does is the result its run ends with, and the
    reuse of contexts is the engine crates'. The build of the JavaScript
    snapshot (bin/snapshot.rs), which only calls one. The clients that
    src/services/fetch.rs builds with reqwest, the runtimes of the threads of
    src/worker_pool.rs, and log lines of the runner itself. *)

From stdpp Require Export base gmap sets list strings fin_maps relations.
From Stdlib Require Export ZArith Lia.

Declare Scope runner_scope.
Delimit Scope runner_scope with runner.
Global Open Scope Z_scope.

(** ** Results

    [Result<T, E>] of the source. *)
Inductive result (A E : Type) : Type :=
| Ok (a : A)
| Err (e : E).
Arguments Ok {A E} a.
Arguments Err {A E} e.

Definition result_bind {A B E} (r : result A E) (f : A -> result B E) : result B E :=
  match r with
  | Ok a => f a
  | Err e => Err e
  end.

Definition result_map_err {A E F} (f : E -> F) (r : result A E) : result A F :=
  match r with
  | Ok a => Ok a
  | Err e => Err (f e)
  end.

Definition result_ok {A E} (r : result A E) : option A :=
  match r with
  | Ok a => Some a
  | Err _ => None
  end.

Definition is_ok {A E} (r : result A E) : bool :=
  match r with Ok _ => true | Err _ => false end.

Notation "x <-? c ; k" := (result_bind c (fun x => k))
  (at level 100, c at next level, right associativity) : runner_scope.
Open Scope runner_scope.

#[export] Instance result_eq_dec {A E} `{EqDecision A, EqDecision E} :
  EqDecision (result A E).
Proof. solve_decision. Defined.

(** ** Machine integers *)

Definition U16_MAX : Z := 2 ^ 16 - 1.
Definition U32_MAX : Z := 2 ^ 32 - 1.
Definition U64_MAX : Z := 2 ^ 64 - 1.
Definition I32_MAX : Z := 2 ^ 31 - 1.
Definition I64_MAX : Z := 2 ^ 63 - 1.
Definition I64_MIN : Z := - 2 ^ 63.

(** Wrap-around of the unsigned atomics ([fetch_add], [fetch_sub]). *)
Definition wrap_u32 (z : Z) : Z := z mod 2 ^ 32.
Definition wrap_u64 (z : Z) : Z := z mod 2 ^ 64.

(** The cast [as i64] of an unsigned 64-bit value. *)
Definition as_i64 (z : Z) : Z :=
  let w := z mod 2 ^ 64 in if w <? 2 ^ 63 then w else w - 2 ^ 64.

(** ** Automation *)

Create HintDb runner.
Create Rewrite HintDb runner.

(** Splits boolean tests of integers and strings into propositions. *)
Ltac reflect_bools :=
  repeat match goal with
  | H : (_ && _)%bool = true |- _ => apply andb_true_iff in H; destruct H
  | H : (_ || _)%bool = false |- _ => apply orb_false_iff in H; destruct H
  | H : negb _ = true |- _ => apply negb_true_iff in H
  | H : negb _ = false |- _ => apply negb_false_iff in H
  | H : (_ <? _) = true |- _ => apply Z.ltb_lt in H
  | H : (_ <? _) = false |- _ => apply Z.ltb_ge in H
  | H : (_ <=? _) = true |- _ => apply Z.leb_le in H
  | H : (_ <=? _) = false |- _ => apply Z.leb_gt in H
  | H : (_ =? _) = true |- _ => apply Z.eqb_eq in H
  | H : (_ =? _) = false |- _ => apply Z.eqb_neq in H
  | H : bool_decide _ = true |- _ => apply bool_decide_eq_true in H
  | H : bool_decide _ = false |- _ => apply bool_decide_eq_false in H
  end.

(** Case analysis on the first match or test of the goal, keeping equations. *)
Ltac case_step :=
  match goal with
  | |- context [match ?x with _ => _ end] => destruct x eqn:?
  end; simpl in *; simplify_eq.

(** The same on a hypothesis. *)
Ltac case_hyp H :=
  match type of H with
  | context [match ?x with _ => _ end] => destruct x eqn:?
  end; simpl in *; simplify_eq.

(** Evaluates the powers of two with a constant exponent, for [lia]. *)
Ltac eval_pows :=
  repeat match goal with
  | |- context [Z.pow 2 ?n] =>
    let v := eval vm_compute in (Z.pow 2 n) in progress change (Z.pow 2 n) with v
  | H : context [Z.pow 2 ?n] |- _ =>
    let v := eval vm_compute in (Z.pow 2 n) in progress change (Z.pow 2 n) with v in H
  end.

(** [lia] on goals with divisions by constants. *)
Ltac div_lia := eval_pows; Z.to_euclidean_division_equations; lia.

Ltac zify_done := solve [reflect_bools; simplify_eq/=; lia || done].

(** ** Lists: counting and sums *)

Section lists.
Context {A : Type}.

(** The number of elements of a list that satisfy a test. *)
Fixpoint countb (p : A -> bool) (l : list A) : Z :=
  match l with
  | [] => 0
  | x :: l => (if p x then 1 else 0) + countb p l
  end.

Fixpoint sumz (f : A -> Z) (l : list A) : Z :=
  match l with
  | [] => 0
  | x :: l => f x + sumz f l
  end.

Lemma countb_nonneg p l : 0 <= countb p l.
Proof. induction l as [|x l IH]; simpl; [lia|]. destruct (p x); lia. Qed.

Lemma countb_length p l : countb p l <= Z.of_nat (length l).
Proof. induction l as [|x l IH]; simpl; [lia|]. destruct (p x); lia. Qed.

Lemma countb_app p l k : countb p (l ++ k) = countb p l + countb p k.
Proof. induction l as [|x l IH]; simpl; [lia|]. rewrite IH. lia. Qed.

Lemma countb_insert p l i x y :
  l !! i = Some x ->
  countb p (<[i:=y]> l) =
  countb p l - (if p x then 1 else 0) + (if p y then 1 else 0).
Proof.
  revert i; induction l as [|z l IH]; intros [|i] Hi; simplify_eq/=; [lia|].
  rewrite (IH _ Hi). lia.
Qed.

Lemma countb_delete p l i x : l !! i = Some x ->
  countb p (delete i l) = countb p l - (if p x then 1 else 0).
Proof.
  revert i; induction l as [|y l IH]; intros [|i]; simpl; try done.
  - intros [= ->]. lia.
  - intros Hi. rewrite (IH i Hi). lia.
Qed.

Lemma countb_pos p l x : x ∈ l -> p x = true -> 1 <= countb p l.
Proof.
  induction 1 as [x l|x y l _ IH]; simpl; intros Hp.
  - rewrite Hp. pose proof (countb_nonneg p l). lia.
  - specialize (IH Hp). destruct (p y); lia.
Qed.

Lemma countb_zero p l : countb p l = 0 -> Forall (fun x => p x = false) l.
Proof.
  induction l as [|x l IH]; simpl; intros H; constructor;
    pose proof (countb_nonneg p l); destruct (p x); try done; try lia.
  - apply IH. lia.
Qed.

Lemma countb_two p l i j x y :
  i <> j -> l !! i = Some x -> l !! j = Some y -> p x = true -> p y = true ->
  2 <= countb p l.
Proof.
  revert i j; induction l as [|z l IH]; intros [|i] [|j] Hij Hi Hj Hx Hy;
    simplify_eq/=; try done.
  - rewrite Hx. apply list_elem_of_lookup_2 in Hj.
    pose proof (countb_pos p _ _ Hj Hy). lia.
  - rewrite Hy. apply list_elem_of_lookup_2 in Hi.
    pose proof (countb_pos p _ _ Hi Hx). lia.
  - assert (2 <= countb p l) by (eapply (IH i j); eauto).
    destruct (p z); lia.
Qed.

Lemma sumz_app f l k : sumz f (l ++ k) = sumz f l + sumz f k.
Proof. induction l as [|x l IH]; simpl; [lia|]. rewrite IH. lia. Qed.

Lemma sumz_nonneg f l : (forall x, 0 <= f x) -> 0 <= sumz f l.
Proof. intros Hf. induction l as [|x l IH]; simpl; [lia|]. specialize (Hf x). lia. Qed.

Lemma sumz_Permutation f l k : l ≡ₚ k -> sumz f l = sumz f k.
Proof. induction 1; simpl; lia. Qed.

Lemma countb_Permutation p l k : l ≡ₚ k -> countb p l = countb p k.
Proof. induction 1; simpl; lia. Qed.

Lemma countb_ext p q l : (forall x, x ∈ l -> p x = q x) -> countb p l = countb q l.
Proof.
  induction l as [|x l IH]; simpl; intros H; [done|].
  rewrite (H x) by set_solver. rewrite IH by set_solver. done.
Qed.

Lemma filter_all (P : A -> Prop) `{forall x, Decision (P x)} (l : list A) :
  (forall x, x ∈ l -> P x) -> filter P l = l.
Proof.
  induction l as [|x l IH]; intros HP; [done|].
  rewrite filter_cons_True by (apply HP; set_solver). f_equal. apply IH. set_solver.
Qed.

End lists.

#[export] Hint Resolve countb_nonneg : runner.

(** ** Finite maps summed as lists *)

Section map_sums.
Context `{Countable K} {V : Type}.

Definition map_sumz (f : V -> Z) (m : gmap K V) : Z :=
  sumz (fun kv => f kv.2) (map_to_list m).

Lemma map_sumz_empty f : map_sumz f ∅ = 0.
Proof. unfold map_sumz. by rewrite map_to_list_empty. Qed.

Lemma map_sumz_insert f m k v :
  m !! k = None -> map_sumz f (<[k:=v]> m) = f v + map_sumz f m.
Proof.
  intros Hk. unfold map_sumz.
  rewrite (sumz_Permutation _ _ _ (map_to_list_insert m k v Hk)). done.
Qed.

Lemma map_sumz_delete f m k v :
  m !! k = Some v -> map_sumz f (delete k m) = map_sumz f m - f v.
Proof.
  intros Hk. rewrite <- (insert_delete_id m k v Hk) at 2.
  rewrite map_sumz_insert by apply lookup_delete_eq. lia.
Qed.

Lemma map_sumz_insert_Some f m k v w :
  m !! k = Some w -> map_sumz f (<[k:=v]> m) = map_sumz f m - f w + f v.
Proof.
  intros Hk. rewrite <- (insert_delete_eq m k v).
  rewrite map_sumz_insert by apply lookup_delete_eq.
  rewrite (map_sumz_delete _ _ _ _ Hk). lia.
Qed.

Lemma map_sumz_ge f m k v :
  (forall x, 0 <= f x) -> m !! k = Some v -> f v <= map_sumz f m.
Proof.
  intros Hf Hk. pose proof (map_sumz_delete f m k v Hk) as Hd.
  assert (0 <= map_sumz f (delete k m)); [|lia].
  apply sumz_nonneg. intros [? ?]; apply Hf.
Qed.

End map_sums.

(** ** Transition systems

    Reachability by a finite sequence of steps, and the induction principle
    used for every state machine of the development. *)

Section reach.
Context {S : Type} (step : S -> S -> Prop).

Lemma rtc_invariant (I : S -> Prop) s t :
  (forall a b, I a -> step a b -> I b) -> I s -> rtc step s t -> I t.
Proof. intros Hstep Hs Hrtc. induction Hrtc; eauto. Qed.

End reach.

(** Removes one option layer from an equation produced by a match. *)
Lemma option_Some_bind {A B} (o : option A) (f : A -> option B) b :
  (a ← o; f a) = Some b -> exists a, o = Some a /\ f a = Some b.
Proof. destruct o; simpl; [eauto|done]. Qed.

(** ** State and errors

    A computation that reads and changes a state and can fail; an error keeps
    what was done before it. *)

Definition SE (S E A : Type) : Type := S -> result A E * S.

#[export] Instance SE_ret {S E} : MRet (SE S E) := fun A a s => (Ok a, s).
#[export] Instance SE_bind {S E} : MBind (SE S E) := fun A B f m s =>
  match m s with
  | (Ok a, s) => f a s
  | (Err e, s) => (Err e, s)
  end.

Definition throw {S E A} (e : E) : SE S E A := fun s => (Err e, s).
Definition lift {S E A} (r : result A E) : SE S E A := fun s => (r, s).
Definition on_fst {S T E A} (m : SE S E A) : SE (S * T) E A := fun '(s, t) =>
  let '(r, s) := m s in (r, (s, t)).
Definition on_snd {S T E A} (m : SE T E A) : SE (S * T) E A := fun '(s, t) =>
  let '(r, t) := m t in (r, (s, t)).

(** The error of [m] is only logged. *)
Definition quietly {S E F A} (m : SE S E A) : SE S F unit := fun s => (Ok tt, (m s).2).
Definition with_error {S E F A} (f : E -> F) (m : SE S E A) : SE S F A := fun s =>
  let '(r, s') := m s in (result_map_err f r, s').
Definition gets {S E A} (f : S -> A) : SE S E A := fun s => (Ok (f s), s).

Lemma SE_bind_inv {S E A B} (m : SE S E A) (f : A -> SE S E B) s r s' :
  (m ≫= f) s = (r, s') ->
  (exists a s1, m s = (Ok a, s1) /\ f a s1 = (r, s')) \/ (exists e, m s = (Err e, s') /\ r = Err e).
Proof. unfold mbind, SE_bind. destruct (m s) as [[a|e] s1]; intros; simplify_eq; eauto 6. Qed.

(** Whatever [m] answers, it moves the state along [R]. *)
Definition moves {S E A} (R : S -> S -> Prop) (m : SE S E A) : Prop := forall s r s', m s = (r, s') -> R s s'.

Lemma moves_bind {S E A B} (R : S -> S -> Prop) `{!Transitive R} (m : SE S E A) (f : A -> SE S E B) :
  moves R m -> (forall a, moves R (f a)) -> moves R (m ≫= f).
Proof.
  intros Hm Hf s r s' [(a & s1 & E1 & E2)|(e & E1 & _)]%SE_bind_inv; [|by eapply Hm].
  transitivity s1; [by eapply Hm|by eapply Hf].
Qed.

Lemma moves_ret {S E A} (R : S -> S -> Prop) `{!Reflexive R} (a : A) : moves (E := E) R (mret a).
Proof. by intros s r s' [= <- <-]. Qed.

Lemma moves_quietly {S E F A} (R : S -> S -> Prop) (m : SE S E A) : moves R m -> moves (E := F) R (quietly m).
Proof. intros Hm s r s'. unfold quietly. destruct (m s) as [r1 s1] eqn:Em. intros [= <- <-]. by eapply Hm. Qed.

Lemma on_fst_inv {S T E A} (m : SE S E A) (x : S * T) r (x' : S * T) :
  on_fst m x = (r, x') -> m x.1 = (r, x'.1) /\ x'.2 = x.2.
Proof. destruct x as [s t]. simpl. destruct (m s) as [r1 s1]. intros. by simplify_eq. Qed.

Lemma on_snd_inv {S T E A} (m : SE T E A) (x : S * T) r (x' : S * T) :
  on_snd m x = (r, x') -> m x.2 = (r, x'.2) /\ x'.1 = x.1.
Proof. destruct x as [s t]. simpl. destruct (m t) as [r1 s1]. intros. by simplify_eq. Qed.

Lemma with_error_inv {S E F A} (f : E -> F) (m : SE S E A) s r s' : with_error f m s = (r, s') ->
  exists r0, m s = (r0, s') /\ r = result_map_err f r0.
Proof. unfold with_error. destruct (m s) as [r0 s0]. intros [= <- <-]. eauto. Qed.

Lemma quietly_inv {S E F A} (m : SE S E A) s (r : result unit F) s' :
  quietly m s = (r, s') -> r = Ok tt /\ exists r', m s = (r', s').
Proof. unfold quietly. destruct (m s) as [r1 s1]. simpl. intros. simplify_eq. eauto. Qed.
