(* ===== verification/RustStr.v ===== *)
(** * Rust string operations

    A [str] of the source is its sequence of UTF-8 bytes, a Stdlib [string]
    whose characters are bytes. This file holds the methods of [str] that the
    modelled code calls, with the lemmas the components share. *)

From S2P Require Import Prelude.
From Stdlib Require Export Ascii.
From Stdlib Require Import String DecimalString DecimalZ.

Global Arguments String.append : simpl nomatch.


Local Open Scope Z_scope.

Definition str_len (s : string) : Z := Z.of_nat (String.length s).

Definition byte_of (c : ascii) : Z := Z.of_nat (nat_of_ascii c).

Definition is_ascii_digit (c : ascii) : bool := (48 <=? byte_of c) && (byte_of c <=? 57).

Definition ascii_lower (c : ascii) : ascii :=
  if (65 <=? byte_of c) && (byte_of c <=? 90)
  then ascii_of_nat (nat_of_ascii c + 32) else c.

Fixpoint to_ascii_lowercase (s : string) : string :=
  match s with
  | EmptyString => EmptyString
  | String c s => String (ascii_lower c) (to_ascii_lowercase s)
  end.

Definition eq_ignore_ascii_case (a b : string) : bool :=
  String.eqb (to_ascii_lowercase a) (to_ascii_lowercase b).

Fixpoint all_bytes (p : ascii -> bool) (s : string) : bool :=
  match s with
  | EmptyString => true
  | String c s => p c && all_bytes p s
  end.

Definition contains_char (c : ascii) (s : string) : bool :=
  negb (all_bytes (fun d => negb (Ascii.eqb c d)) s).

Definition is_empty (s : string) : bool :=
  match s with EmptyString => true | _ => false end.

Fixpoint strip_prefix (p s : string) : option string :=
  match p, s with
  | EmptyString, _ => Some s
  | String a p, String b s => if Ascii.eqb a b then strip_prefix p s else None
  | String _ _, EmptyString => None
  end.

Fixpoint strip_suffix (p s : string) : option string :=
  if String.eqb s p then Some EmptyString else
  match s with
  | EmptyString => None
  | String c s => option_map (String c) (strip_suffix p s)
  end.

Definition starts_with (p s : string) : bool :=
  match strip_prefix p s with Some _ => true | None => false end.

Definition ends_with (p s : string) : bool :=
  match strip_suffix p s with Some _ => true | None => false end.

(** [split(c)]: the pieces between the occurrences of [c], at least one. *)
Fixpoint split (c : ascii) (s : string) : list string :=
  match s with
  | EmptyString => [EmptyString]
  | String d s =>
    if Ascii.eqb c d then EmptyString :: split c s
    else match split c s with
         | [] => [String d EmptyString]
         | x :: l => String d x :: l
         end
  end.

Fixpoint split_once (c : ascii) (s : string) : option (string * string) :=
  match s with
  | EmptyString => None
  | String d s =>
    if Ascii.eqb c d then Some (EmptyString, s)
    else match split_once c s with
         | Some (a, b) => Some (String d a, b)
         | None => None
         end
  end.

(** [rsplit_once(c)]: around the last occurrence of [c]. *)
Fixpoint rsplit_once (c : ascii) (s : string) : option (string * string) :=
  match s with
  | EmptyString => None
  | String d s =>
    match rsplit_once c s with
    | Some (a, b) => Some (String d a, b)
    | None => if Ascii.eqb c d then Some (EmptyString, s) else None
    end
  end.

Fixpoint str_join (sep : string) (l : list string) : string :=
  match l with
  | [] => ""
  | [x] => x
  | x :: l => x +:+ sep +:+ str_join sep l
  end.

(** [str::lines]: pieces ended by a newline, without the newline and a
    carriage return before it; an empty last piece is no line. *)
Definition strip_cr (s : string) : string :=
  match strip_suffix (String (ascii_of_nat 13) EmptyString) s with
  | Some r => r
  | None => s
  end.

Definition lines (s : string) : list string :=
  let pieces := split (ascii_of_nat 10) s in
  match rev pieces with
  | EmptyString :: front => map strip_cr (rev front)
  | last :: front => map strip_cr (rev front) ++ [last]
  | [] => []
  end.

(** The encodings of the characters with the Unicode property White_Space,
    which [trim] removes. *)
Definition of_bytes (l : list nat) : string :=
  string_of_list_ascii (map ascii_of_nat l).

Definition WHITE_SPACE : list string :=
  map (fun n => of_bytes [n]) [9; 10; 11; 12; 13; 32]%nat ++
  map of_bytes [[194; 133]; [194; 160]; [225; 154; 128]]%nat ++
  map (fun n => of_bytes [226; 128; n]%nat)
    [128; 129; 130; 131; 132; 133; 134; 135; 136; 137; 138; 168; 169; 175]%nat ++
  map of_bytes [[226; 129; 159]; [227; 128; 128]]%nat.

Fixpoint find_map {A B} (f : A -> option B) (l : list A) : option B :=
  match l with
  | [] => None
  | x :: l => match f x with Some y => Some y | None => find_map f l end
  end.

(** Fuel: each round removes at least one byte, so the length is enough. *)
Fixpoint trim_start_fuel (n : nat) (s : string) : string :=
  match n with
  | O => s
  | S n => match find_map (fun w => strip_prefix w s) WHITE_SPACE with
           | Some r => trim_start_fuel n r
           | None => s
           end
  end.

Fixpoint trim_end_fuel (n : nat) (s : string) : string :=
  match n with
  | O => s
  | S n => match find_map (fun w => strip_suffix w s) WHITE_SPACE with
           | Some r => trim_end_fuel n r
           | None => s
           end
  end.

Definition trim_start (s : string) : string := trim_start_fuel (String.length s) s.
Definition trim_end (s : string) : string := trim_end_fuel (String.length s) s.
Definition trim (s : string) : string := trim_end (trim_start s).

(** [trim_end_matches(c)] for one ASCII character. *)
Fixpoint trim_end_matches (c : ascii) (s : string) : string :=
  match s with
  | EmptyString => EmptyString
  | String d s =>
    let r := trim_end_matches c s in
    if is_empty r && Ascii.eqb c d then EmptyString else String d r
  end.

Fixpoint trim_start_matches (c : ascii) (s : string) : string :=
  match s with
  | EmptyString => EmptyString
  | String d r => if Ascii.eqb c d then trim_start_matches c r else s
  end.

Definition trim_matches (c : ascii) (s : string) : string := trim_end_matches c (trim_start_matches c s).

(** The text before and after the first occurrence of [p]. *)
Fixpoint find_str (p s : string) : option (string * string) :=
  match strip_prefix p s with
  | Some r => Some (EmptyString, r)
  | None => match s with
            | EmptyString => None
            | String c s => match find_str p s with Some (a, b) => Some (String c a, b) | None => None end
            end
  end.

Definition contains_str (p s : string) : bool := match find_str p s with Some _ => true | None => false end.

(** [split(p)] for a pattern that is not empty: each piece takes a byte at
    least, so the length of the text is fuel enough. *)
Fixpoint split_str_fuel (n : nat) (p s : string) : list string :=
  match n with
  | O => [s]
  | S n => match find_str p s with Some (a, b) => a :: split_str_fuel n p b | None => [s] end
  end.

Definition split_str (p s : string) : list string := split_str_fuel (S (String.length s)) p s.

(** [parse] of an unsigned integer type whose largest value is [max]: an
    optional plus sign, then at least one decimal digit, without overflow. *)
Fixpoint parse_digits (acc : Z) (s : string) : option Z :=
  match s with
  | EmptyString => Some acc
  | String c s =>
    if is_ascii_digit c then parse_digits (10 * acc + (byte_of c - 48)) s else None
  end.

Definition parse_uint (max : Z) (s : string) : option Z :=
  let digits := match s with String "+" r => r | _ => s end in
  if is_empty digits then None else
  match parse_digits 0 digits with
  | Some n => if n <=? max then Some n else None
  | None => None
  end.

(** [Display] of an integer. *)
Definition show_Z (z : Z) : string :=
  DecimalString.NilZero.string_of_int (Z.to_int z).

(** ** Characters

    A byte of 128 to 191 continues a character. *)
Definition is_continuation (c : ascii) : bool := (128 <=? byte_of c) && (byte_of c <=? 191).

(** Well-formed UTF-8, as far as the boundaries go: a leading byte says how
    many continuation bytes follow it. *)
Definition width (c : ascii) : option nat :=
  let b := byte_of c in
  if b <? 128 then Some 0%nat else
  if (192 <=? b) && (b <=? 223) then Some 1%nat else
  if (224 <=? b) && (b <=? 239) then Some 2%nat else
  if (240 <=? b) && (b <=? 247) then Some 3%nat else None.

(** [utf8 k s]: [s] starts with [k] continuation bytes of a character, then
    holds whole characters. *)
Fixpoint utf8 (k : nat) (s : string) : bool :=
  match s, k with
  | EmptyString, O => true
  | EmptyString, S _ => false
  | String c s, S k => is_continuation c && utf8 k s
  | String c s, O => match width c with Some w => utf8 w s | None => false end
  end.

(** The number of characters. *)
Fixpoint char_count (s : string) : nat :=
  match s with
  | EmptyString => O
  | String c s => if is_continuation c then char_count s else S (char_count s)
  end.

(** The first [n] characters: [left(text, n)] and [substr(text, 1, n)] of the
    databases. *)
Fixpoint left_chars (n : nat) (s : string) : string :=
  match s with
  | EmptyString => EmptyString
  | String c s =>
    if is_continuation c then String c (left_chars n s) else
    match n with O => EmptyString | S n => String c (left_chars n s) end
  end.

Arguments contains_char c%_char_scope s.
Arguments split c%_char_scope s.
Arguments split_once c%_char_scope s.
Arguments rsplit_once c%_char_scope s.
Arguments trim_end_matches c%_char_scope s.

(** ** Lemmas *)

Lemma app_empty_r s : s +:+ "" = s.
Proof. induction s as [|c s IH]; simpl; [done|]. by rewrite IH. Qed.

Lemma app_assoc_str a b c : (a +:+ b) +:+ c = a +:+ b +:+ c.
Proof. induction a as [|x a IH]; simpl; [done|]. by rewrite IH. Qed.

Lemma length_app_str a b :
  String.length (a +:+ b) = (String.length a + String.length b)%nat.
Proof. induction a as [|x a IH]; simpl; [done|]. by rewrite IH. Qed.

Lemma str_len_app a b : str_len (a +:+ b) = str_len a + str_len b.
Proof. unfold str_len. rewrite length_app_str. lia. Qed.

Lemma str_len_nonneg s : 0 <= str_len s.
Proof. unfold str_len. lia. Qed.

Lemma app_inj_r a b c : a +:+ c = b +:+ c -> a = b.
Proof.
  revert b; induction a as [|x a IH]; intros [|y b] H; simpl in H.
  - done.
  - apply (f_equal String.length) in H. simpl in H.
    rewrite length_app_str in H. lia.
  - apply (f_equal String.length) in H. simpl in H.
    rewrite length_app_str in H. lia.
  - simplify_eq. f_equal. eauto.
Qed.

Lemma app_inj_l a b c : a +:+ b = a +:+ c -> b = c.
Proof. induction a as [|x a IH]; simpl; intros; simplify_eq; eauto. Qed.

Lemma strip_prefix_Some p s r : strip_prefix p s = Some r <-> s = p +:+ r.
Proof.
  revert s; induction p as [|a p IH]; intros [|b s]; simpl; split; intros H;
    simplify_eq; try done.
  - destruct (Ascii.eqb_spec a b); [|done]. subst. f_equal. by apply IH.
  - rewrite Ascii.eqb_refl. by apply IH.
Qed.

Lemma strip_suffix_cons p c s :
  strip_suffix p (String c s) =
  if String.eqb (String c s) p then Some "" else option_map (String c) (strip_suffix p s).
Proof. done. Qed.

Lemma strip_suffix_app p r : strip_suffix p (r +:+ p) = Some r.
Proof.
  induction r as [|c r IH]; [by destruct p; simpl; rewrite ?Ascii.eqb_refl, ?String.eqb_refl|].
  change (String c r +:+ p) with (String c (r +:+ p)). rewrite strip_suffix_cons, IH.
  destruct (String.eqb_spec (String c (r +:+ p)) p) as [E|_].
    + apply (f_equal String.length) in E. simpl in E.
      rewrite length_app_str in E. lia.
    + done.
Qed.

Lemma strip_suffix_Some p s r : strip_suffix p s = Some r <-> s = r +:+ p.
Proof.
  split; [|intros ->; apply strip_suffix_app].
  revert r; induction s as [|c s IH]; intros r H.
  - destruct p; simpl in H; simplify_eq; done.
  - rewrite strip_suffix_cons in H. destruct (String.eqb_spec (String c s) p) as [E|_].
    + simplify_eq. done.
    + destruct (strip_suffix p s) as [r'|] eqn:E; simplify_eq/=.
      rewrite (IH r' eq_refl). done.
Qed.

Lemma contains_char_cons c d s :
  contains_char c (String d s) = (Ascii.eqb c d || contains_char c s)%bool.
Proof. unfold contains_char. simpl. destruct (Ascii.eqb c d); done. Qed.

Lemma contains_char_app c a b :
  contains_char c (a +:+ b) = (contains_char c a || contains_char c b)%bool.
Proof.
  induction a as [|x a IH]; [done|]. simpl.
  rewrite !contains_char_cons, IH, orb_assoc. done.
Qed.

Lemma all_bytes_app p a b : all_bytes p (a +:+ b) = (all_bytes p a && all_bytes p b)%bool.
Proof. induction a as [|c a IH]; [done|]. simpl. by rewrite IH, andb_assoc. Qed.

Lemma all_bytes_impl (p q : ascii -> bool) s :
  (forall c, p c = true -> q c = true) -> all_bytes p s = true -> all_bytes q s = true.
Proof. intros H. induction s as [|c s IH]; [done|]. simpl. intros [Hc Hs]%andb_prop. by rewrite (H c Hc), IH. Qed.

Lemma all_bytes_contains p c s : all_bytes p s = true -> p c = false -> contains_char c s = false.
Proof.
  intros Hs Hc. induction s as [|d s IH]; [done|]. simpl in Hs. apply andb_prop in Hs as [Hd Hs].
  rewrite contains_char_cons, IH by done. destruct (Ascii.eqb_spec c d) as [->|]; [congruence|done].
Qed.

(** [find_str] gives the first occurrence. *)
Lemma find_str_Some p s a b : find_str p s = Some (a, b) -> s = a +:+ p +:+ b.
Proof.
  revert a. induction s as [|c s IH]; intros a; cbn [find_str].
  - destruct (strip_prefix p "") eqn:E; [|done]. apply strip_prefix_Some in E. intros; by simplify_eq/=.
  - destruct (strip_prefix p (String c s)) eqn:E.
    + apply strip_prefix_Some in E. intros; by simplify_eq/=.
    + destruct (find_str p s) as [[u v]|]; [|done]. intros; simplify_eq/=. by rewrite (IH u).
Qed.

Lemma find_str_None p s : find_str p s = None -> forall a b, s <> a +:+ p +:+ b.
Proof.
  induction s as [|c s IH]; cbn [find_str].
  - destruct (strip_prefix p "") eqn:E; [done|]. intros _ a b H. destruct a; [|done].
    symmetry in H. rewrite (proj2 (strip_prefix_Some p "" b)) in E by done. done.
  - destruct (strip_prefix p (String c s)) eqn:E; [done|]. destruct (find_str p s) as [[]|] eqn:Ef; [done|].
    intros _ a b H. destruct a as [|d a]; simpl in H; simplify_eq.
    + by rewrite (proj2 (strip_prefix_Some p _ b)) in E.
    + by apply (IH eq_refl a b).
Qed.

Lemma contains_str_spec p s : contains_str p s = true <-> exists a b, s = a +:+ p +:+ b.
Proof.
  unfold contains_str. destruct (find_str p s) as [[a b]|] eqn:E; split; try done.
  - intros _. exists a, b. by apply find_str_Some.
  - intros (a & b & H). by destruct (find_str_None p s E a b).
Qed.

Lemma contains_str_app p a b : contains_str p a = true \/ contains_str p b = true -> contains_str p (a +:+ b) = true.
Proof.
  rewrite !contains_str_spec. intros [(u & v & ->)|(u & v & ->)].
  - exists u, (v +:+ b). by rewrite !app_assoc_str.
  - exists (a +:+ u), v. by rewrite app_assoc_str.
Qed.

(** A pattern without [c] does not reach over a [c]. *)
Lemma prefix_before p v a c b : contains_char c p = false -> p +:+ v = a +:+ String c b ->
  exists v', a = p +:+ v' /\ v = v' +:+ String c b.
Proof.
  revert a. induction p as [|x p IH]; intros a Hp E; [by exists a|].
  rewrite contains_char_cons in Hp. apply orb_false_iff in Hp as [Hx Hp].
  destruct a as [|y a]; simpl in E; injection E as -> E.
  - by rewrite Ascii.eqb_refl in Hx.
  - apply IH in E as (v' & -> & ->); [|done]. by exists v'.
Qed.

Lemma contains_str_sep p a c b : contains_char c p = false -> p <> "" ->
  contains_str p (a +:+ String c b) = (contains_str p a || contains_str p b)%bool.
Proof.
  intros Hp Hne. apply eq_true_iff_eq. rewrite orb_true_iff. split.
  - rewrite !contains_str_spec. intros (u & v & E). revert u E. induction a as [|x a IH]; intros u E; simpl in E.
    + right. destruct u as [|y u]; simpl in E.
      * destruct p as [|y p]; [done|]. simpl in E. simplify_eq. rewrite contains_char_cons, Ascii.eqb_refl in Hp. done.
      * simplify_eq. by exists u, v.
    + destruct u as [|y u]; simpl in E.
      * symmetry in E. apply (prefix_before p v (String x a) c b) in E as (v' & -> & _); [|done].
        left. by exists "", v'.
      * simplify_eq. destruct (IH u) as [(u' & v' & ->)|?]; [done| |by right]. left. by exists (String y u'), v'.
  - intros [H|H]; apply contains_str_app; [by left|]. right.
    apply (contains_str_app p (String c "") b). by right.
Qed.

(** [find_str] after a text that holds no occurrence, for a pattern whose first
    character comes once. *)
Lemma find_str_first c p a b : contains_char c p = false -> contains_str (String c p) a = false ->
  find_str (String c p) (a +:+ String c p +:+ b) = Some (a, b).
Proof.
  intros Hp. induction a as [|x a IH]; intros Ha.
  - cbn [find_str String.append]. by rewrite (proj2 (strip_prefix_Some (String c p) _ b)).
  - change (String x a +:+ ?y) with (String x (a +:+ y)). cbn [find_str].
    destruct (strip_prefix (String c p) (String x (a +:+ String c p +:+ b))) as [r|] eqn:E.
    + apply strip_prefix_Some in E. simpl in E. injection E as -> E. symmetry in E.
      apply prefix_before in E as (v & -> & _); [|done].
      by rewrite (proj2 (contains_str_spec _ _)) in Ha by by exists "", v.
    + rewrite IH; [done|]. apply not_true_iff_false. intros Hc. apply not_true_iff_false in Ha. apply Ha.
      apply (contains_str_app _ (String x "")). by right.
Qed.

Lemma find_str_shorter c p s a b : find_str (String c p) s = Some (a, b) -> (String.length b < String.length s)%nat.
Proof. intros ->%find_str_Some. rewrite !length_app_str. simpl. lia. Qed.

Lemma split_str_enough c p n m s : (String.length s < n)%nat -> (String.length s < m)%nat ->
  split_str_fuel n (String c p) s = split_str_fuel m (String c p) s.
Proof.
  revert m s. induction n as [|n IH]; intros [|m] s Hn Hm; try lia. cbn [split_str_fuel].
  destruct (find_str (String c p) s) as [[a b]|] eqn:E; [|done]. apply find_str_shorter in E.
  f_equal. apply IH; lia.
Qed.

Lemma split_str_app c p a b : contains_char c p = false -> contains_str (String c p) a = false ->
  split_str (String c p) (a +:+ String c p +:+ b) = a :: split_str (String c p) b.
Proof.
  intros Hp Ha. unfold split_str at 1. cbn [split_str_fuel]. rewrite find_str_first by done. f_equal.
  apply split_str_enough; rewrite ?length_app_str; simpl; rewrite ?length_app_str; lia.
Qed.

Lemma split_str_none p s : contains_str p s = false -> split_str p s = [s].
Proof. unfold split_str, contains_str. cbn [split_str_fuel]. by destruct (find_str p s). Qed.

Lemma split_once_Some c s a b :
  split_once c s = Some (a, b) <->
  s = a +:+ String c b /\ contains_char c a = false.
Proof.
  revert a; induction s as [|d s IH]; intros a; simpl.
  - split; [done|]. intros [H _]. destruct a; simplify_eq.
  - destruct (Ascii.eqb_spec c d) as [<-|Hne].
    + split; intros H; [simplify_eq; done|].
      destruct H as [H Ha]. destruct a as [|x a]; simplify_eq/=; [done|].
      rewrite contains_char_cons, Ascii.eqb_refl in Ha. done.
    + destruct (split_once c s) as [[a' b']|] eqn:E.
      * split; intros H; simplify_eq.
        -- destruct (proj1 (IH a') eq_refl) as [-> Ha]. split; [done|].
           rewrite contains_char_cons, Ha. by destruct (Ascii.eqb_spec c d).
        -- destruct H as [H Ha]. destruct a as [|x a]; simplify_eq/=.
           rewrite contains_char_cons in Ha. apply orb_false_iff in Ha as [_ Ha].
           pose proof (proj2 (IH a) (conj eq_refl Ha)). by simplify_eq.
      * split; [done|]. intros [H Ha]. destruct a as [|x a]; simplify_eq/=.
        rewrite contains_char_cons in Ha. apply orb_false_iff in Ha as [_ Ha].
        pose proof (proj2 (IH a) (conj eq_refl Ha)). done.
Qed.

Lemma split_once_None c s : split_once c s = None <-> contains_char c s = false.
Proof.
  induction s as [|d s IH]; simpl; [done|]. rewrite contains_char_cons. destruct (Ascii.eqb c d); [done|].
  simpl. rewrite <- IH. by destruct (split_once c s) as [[]|].
Qed.

Lemma rsplit_once_None c s : rsplit_once c s = None <-> contains_char c s = false.
Proof.
  induction s as [|d s IH]; [done|]. simpl. rewrite contains_char_cons.
  destruct (rsplit_once c s) as [[a b]|]; destruct (Ascii.eqb c d); simpl;
    destruct (contains_char c s); split; intros; try done; destruct IH as [IH1 IH2];
    try (specialize (IH1 eq_refl)); try (specialize (IH2 eq_refl)); done.
Qed.

Lemma rsplit_once_Some c s a b :
  rsplit_once c s = Some (a, b) ->
  s = a +:+ String c b /\ contains_char c b = false.
Proof.
  revert a b; induction s as [|d s IH]; intros a b H; simpl in H; [done|].
  destruct (rsplit_once c s) as [[a' b']|] eqn:E.
  - simplify_eq. destruct (IH a' b eq_refl) as [-> Hb]. done.
  - destruct (Ascii.eqb_spec c d) as [<-|]; simplify_eq. split; [done|].
    by apply rsplit_once_None.
Qed.

Lemma rsplit_once_app c a b :
  contains_char c b = false -> rsplit_once c (a +:+ String c b) = Some (a, b).
Proof.
  intros Hb. induction a as [|x a IH]; simpl.
  - by rewrite (proj2 (rsplit_once_None _ _) Hb), Ascii.eqb_refl.
  - by rewrite IH.
Qed.

(** A text whose last part holds no [c] does not end with [c]. *)
Lemma ends_with_app_false c a b :
  is_empty b = false -> contains_char c b = false ->
  ends_with (String c "") (a +:+ b) = false.
Proof.
  intros He Hb. unfold ends_with. destruct (strip_suffix _ _) as [r|] eqn:E; [|done].
  apply strip_suffix_Some in E. revert r E; induction a as [|x a IH]; intros r E; simpl in E.
  - rewrite E, contains_char_app, contains_char_cons, Ascii.eqb_refl in Hb.
    by rewrite orb_true_r in Hb.
  - destruct r as [|y r]; simpl in E; injection E as _ E; [|eauto].
    apply (f_equal String.length) in E. rewrite length_app_str in E. destruct b; simpl in *; [done|lia].
Qed.

Lemma split_not_nil c s : split c s <> [].
Proof. induction s; simpl; [done|]. destruct (Ascii.eqb c a); [done|]. by destruct (split c s). Qed.

(** The pieces of a split hold no separator. *)
Lemma split_no_sep c s x : x ∈ split c s -> contains_char c x = false.
Proof.
  revert x; induction s as [|d s IH]; intros x Hx; simpl in Hx.
  - apply list_elem_of_singleton in Hx as ->. done.
  - destruct (Ascii.eqb_spec c d) as [<-|Hne].
    + apply elem_of_cons in Hx as [->|Hx]; eauto.
    + pose proof (split_not_nil c s). destruct (split c s) as [|y l]; [done|].
      apply elem_of_cons in Hx as [->|Hx].
      * rewrite contains_char_cons, (IH y) by set_solver.
        by destruct (Ascii.eqb_spec c d).
      * apply IH. set_solver.
Qed.

Lemma split_none c s : contains_char c s = false -> split c s = [s].
Proof.
  induction s as [|d s IH]; [done|]. rewrite contains_char_cons. intros [Hd Hs]%orb_false_iff.
  simpl. by rewrite Hd, IH.
Qed.

Lemma split_app c a b : contains_char c a = false -> split c (a +:+ String c b) = a :: split c b.
Proof.
  induction a as [|d a IH]; simpl; [by rewrite Ascii.eqb_refl|].
  rewrite contains_char_cons. intros [Hd Ha]%orb_false_iff. by rewrite Hd, IH.
Qed.

Lemma str_join_cons sep x l :
  l <> [] -> str_join sep (x :: l) = x +:+ sep +:+ str_join sep l.
Proof. by destruct l. Qed.

(** Joining the pieces of a split with the separator gives the text back. *)
Lemma str_join_split c s : str_join (String c "") (split c s) = s.
Proof.
  induction s as [|d s IH]; [done|]. cbn [split]. pose proof (split_not_nil c s) as Hn.
  destruct (Ascii.eqb_spec c d) as [<-|Hne].
  - rewrite str_join_cons, IH by done. done.
  - destruct (split c s) as [|y l]; [done|]. destruct l as [|z l]; simpl in *; by rewrite <- IH.
Qed.

Lemma to_ascii_lowercase_app a b :
  to_ascii_lowercase (a +:+ b) = to_ascii_lowercase a +:+ to_ascii_lowercase b.
Proof. induction a as [|x a IH]; simpl; [done|]. by rewrite IH. Qed.

Lemma ascii_lower_idemp c : ascii_lower (ascii_lower c) = ascii_lower c.
Proof. destruct c as [[] [] [] [] [] [] [] []]; reflexivity. Qed.

Lemma to_ascii_lowercase_idemp s :
  to_ascii_lowercase (to_ascii_lowercase s) = to_ascii_lowercase s.
Proof. induction s as [|c s IH]; simpl; [done|]. by rewrite ascii_lower_idemp, IH. Qed.

Lemma to_ascii_lowercase_length s :
  String.length (to_ascii_lowercase s) = String.length s.
Proof. induction s as [|c s IH]; simpl; [done|]. by rewrite IH. Qed.

Lemma eq_ignore_ascii_case_refl s : eq_ignore_ascii_case s s = true.
Proof. apply String.eqb_refl. Qed.

Lemma parse_digits_nonneg acc s n : 0 <= acc -> parse_digits acc s = Some n -> 0 <= n.
Proof.
  revert acc; induction s as [|c s IH]; simpl; intros acc Ha H; simplify_eq; [done|].
  destruct (is_ascii_digit c) eqn:E; [|done]. apply IH in H; [done|].
  unfold is_ascii_digit in E. reflect_bools. lia.
Qed.

Lemma parse_uint_bounds max s n : parse_uint max s = Some n -> 0 <= n <= max.
Proof.
  unfold parse_uint. set (d := match s with String "+" r => r | _ => s end).
  clearbody d. destruct (is_empty d); [done|].
  destruct (parse_digits 0 d) as [m|] eqn:E; [|done].
  destruct (m <=? max) eqn:Em; [|done]. intros ?; simplify_eq. reflect_bools.
  apply parse_digits_nonneg in E; lia.
Qed.

Lemma find_map_Some {A B} (f : A -> option B) l y :
  find_map f l = Some y -> exists x, x ∈ l /\ f x = Some y.
Proof.
  induction l as [|x l IH]; simpl; intros H; [done|].
  destruct (f x) eqn:E; simplify_eq.
  - exists x. split; [set_solver|done].
  - destruct (IH H) as (z & ? & ?). exists z. split; [set_solver|done].
Qed.

(** The first element that gives something. *)
Lemma find_map_first {A B} (f : A -> option B) l y :
  find_map f l = Some y <->
  exists a x b, l = a ++ x :: b /\ f x = Some y /\ Forall (fun x => f x = None) a.
Proof.
  induction l as [|x l IH]; simpl.
  - split; [done|]. intros (a & ? & ? & Ha & _). by destruct a.
  - destruct (f x) as [v|] eqn:E.
    + split.
      * intros ?; simplify_eq. by exists [], x, l.
      * intros (a & z & b & Ha & Hz & Hf). destruct a as [|w a]; simplify_eq/=; [done|].
        apply Forall_cons in Hf as [Hf _]. congruence.
    + rewrite IH. split; intros (a & z & b & Ha & Hz & Hf).
      * exists (x :: a), z, b. subst. split; [done|]. split; [done|]. by constructor.
      * destruct a as [|w a]; simplify_eq/=. apply Forall_cons in Hf as [_ Hf]. by exists a, z, b.
Qed.

Lemma find_map_None {A B} (f : A -> option B) l :
  find_map f l = None <-> forall x, x ∈ l -> f x = None.
Proof.
  induction l as [|x l IH]; simpl; [set_solver|].
  destruct (f x) eqn:E; split; intros H; try done.
  - specialize (H x). rewrite H in E by set_solver. done.
  - intros y [->|Hy]%elem_of_cons; [done|]. by apply IH.
  - apply IH. intros y Hy. apply H. set_solver.
Qed.

Lemma width_not_continuation c w : width c = Some w -> is_continuation c = false /\ (w <= 3)%nat.
Proof.
  unfold width, is_continuation. intros H.
  destruct (Z.ltb_spec (byte_of c) 128); [|destruct (Z.leb_spec 192 (byte_of c))];
    repeat case_match; simplify_eq; split; try lia; apply andb_false_iff;
    rewrite !Z.leb_gt; reflect_bools; lia.
Qed.

Lemma utf8_app k a b : utf8 k a = true -> utf8 k (a +:+ b) = true -> utf8 0 b = true.
Proof.
  revert k. induction a as [|c a IH]; intros [|k]; simpl; try done.
  - destruct (width c); [apply IH|done].
  - intros [_ Ha]%andb_prop [_ Hb]%andb_prop. by apply (IH k).
Qed.

Lemma left_chars_0 s : utf8 0 s = true -> left_chars 0 s = "".
Proof.
  destruct s as [|c s]; [done|]. simpl. destruct (width c) eqn:E; [|done].
  by apply width_not_continuation in E as [-> _].
Qed.

Lemma left_chars_prefix n s : exists r, s = left_chars n s +:+ r.
Proof.
  revert n. induction s as [|c s IH]; intros n; simpl; [by exists ""|].
  destruct (is_continuation c); [|destruct n as [|n]; [by exists (String c s)|]].
  - destruct (IH n) as [r Hr]. exists r. simpl. by f_equal.
  - destruct (IH n) as [r Hr]. exists r. simpl. by f_equal.
Qed.

Lemma left_chars_app p r : left_chars (char_count p) (p +:+ r) = p +:+ left_chars 0 r.
Proof.
  induction p as [|c p IH]; simpl; [done|]. destruct (is_continuation c) eqn:E; simpl; by rewrite IH.
Qed.

(** In well-formed text, the first characters are those of [p] exactly when
    the first bytes are. *)
Lemma left_chars_starts_with p s :
  utf8 0 p = true -> utf8 0 s = true ->
  String.eqb (left_chars (char_count p) s) p = starts_with p s.
Proof.
  intros Hp Hs. unfold starts_with. apply eq_true_iff_eq. rewrite String.eqb_eq. split.
  - intros E. destruct (left_chars_prefix (char_count p) s) as [r Hr]. rewrite E in Hr.
    apply strip_prefix_Some in Hr. by rewrite Hr.
  - destruct (strip_prefix p s) as [r|] eqn:E; [|done]. intros _. apply strip_prefix_Some in E as ->.
    rewrite left_chars_app, left_chars_0, app_empty_r; [done|]. by apply (utf8_app 0 p).
Qed.

Definition is_decimal (c : ascii) : bool := is_ascii_digit c || Ascii.eqb c "-".

Lemma uint_decimal d : all_bytes is_decimal (NilEmpty.string_of_uint d) = true.
Proof. by induction d; simpl. Qed.

Lemma show_Z_decimal z : all_bytes is_decimal (show_Z z) = true.
Proof.
  unfold show_Z, NilZero.string_of_int, NilZero.string_of_uint.
  destruct (Z.to_int z) as [d|d]; [|simpl]; destruct d; try done; apply (uint_decimal _).
Qed.

Lemma to_int_not_nil z : Z.to_int z <> Decimal.Pos Decimal.Nil /\ Z.to_int z <> Decimal.Neg Decimal.Nil.
Proof.
  split; intros E; pose proof (f_equal Z.of_int E) as Hz; rewrite DecimalZ.of_to in Hz; simpl in Hz;
    subst; done.
Qed.

Lemma show_Z_not_nil z : show_Z z <> "".
Proof.
  unfold show_Z. intros E. apply (f_equal NilZero.int_of_string) in E.
  by rewrite !NilZero.isi in E by apply to_int_not_nil.
Qed.

Lemma show_Z_inj a b : show_Z a = show_Z b -> a = b.
Proof.
  unfold show_Z. intros E. apply (f_equal NilZero.int_of_string) in E.
  rewrite !NilZero.isi in E by apply to_int_not_nil. simplify_eq. by apply DecimalZ.to_int_inj.
Qed.

(** A number that is written parses to itself. *)
Lemma parse_digits_acc d acc :
  parse_digits (Z.pos acc) (NilEmpty.string_of_uint d) = Some (Z.pos (Pos.of_uint_acc d acc)).
Proof.
  revert acc. induction d; intros acc; [done|..]; simpl; rewrite <- IHd; f_equal;
    match goal with |- context [byte_of ?c] => change (byte_of c) with ltac:(let z := eval vm_compute in (byte_of c) in exact z) end;
    lia.
Qed.

Lemma parse_digits_uint d : parse_digits 0 (NilEmpty.string_of_uint d) = Some (Z.of_N (Pos.of_uint d)).
Proof. induction d; [done|exact IHd|..]; simpl; apply parse_digits_acc. Qed.

Lemma parse_uint_show_Z max n : 0 <= n <= max -> parse_uint max (show_Z n) = Some n.
Proof.
  intros Hn. pose proof (show_Z_not_nil n) as Hne.
  assert (Hp : parse_digits 0 (show_Z n) = Some n /\ forall r, show_Z n <> String "+" r).
  { pose proof (DecimalZ.of_to n) as Hz. pose proof (to_int_not_nil n) as [Hnn _]. revert Hne Hz Hnn. unfold show_Z.
    destruct (Z.to_int n) as [d|d] eqn:E; intros Hne Hz Hnn.
    - simpl in *. destruct d; [done|..]; (split; [rewrite <- Hz; exact (parse_digits_uint _)|done]).
    - destruct n; [done|done|lia]. }
  destruct Hp as [Hp Hplus]. unfold parse_uint.
  assert (Hd : match show_Z n with String "+" r => r | _ => show_Z n end = show_Z n).
  { destruct (show_Z n) as [|c r]; [done|]. destruct (Ascii.eqb_spec c "+") as [->|Hc]; [by destruct (Hplus r)|].
    revert Hc. by destruct c as [[] [] [] [] [] [] [] []]. }
  rewrite Hd, Hp. destruct (show_Z n); [done|]. simpl. by rewrite (proj2 (Z.leb_le n max)) by lia.
Qed.

(** ** The order of strings by bytes *)

Lemma ascii_compare_spec a b : CompareSpec (a = b) (N_of_ascii a < N_of_ascii b)%N (N_of_ascii b < N_of_ascii a)%N
  (Ascii.compare a b).
Proof.
  unfold Ascii.compare. destruct (N.compare_spec (N_of_ascii a) (N_of_ascii b)); constructor; try done.
  apply (f_equal ascii_of_N) in H. by rewrite !ascii_N_embedding in H.
Qed.

Lemma str_ltb_trans a b c : String.ltb a b = true -> String.ltb b c = true -> String.ltb a c = true.
Proof.
  unfold String.ltb. revert b c. induction a as [|x a IH]; intros [|y b] [|z c]; simpl; try done.
  destruct (ascii_compare_spec x y) as [->|Hxy|Hxy]; [| |done].
  - destruct (ascii_compare_spec y z); [apply IH|done|done].
  - intros _. destruct (ascii_compare_spec y z) as [->|Hyz|Hyz]; [| |done]; intros _;
      destruct (ascii_compare_spec x z) as [->|Hxz|Hxz]; try done; lia.
Qed.

Lemma str_leb_spec a b : String.leb a b = true <-> String.ltb a b = true \/ a = b.
Proof.
  unfold String.leb, String.ltb. destruct (String.compare a b) eqn:E; split; try done; try (by left).
  - intros _. right. by apply String.compare_eq_iff.
  - intros [?| ->]; [done|]. pose proof (String.compare_antisym b b) as H. rewrite E in H. done.
Qed.

Lemma str_ltb_irrefl a : String.ltb a a = false.
Proof.
  unfold String.ltb. pose proof (String.compare_antisym a a) as H. by destruct (String.compare a a).
Qed.

#[export] Hint Rewrite str_len_app length_app_str app_assoc_str app_empty_r : runner.
#[export] Hint Resolve str_len_nonneg : runner.

Example trim_ex : trim "  a b	 " = "a b". Proof. reflexivity. Qed.
Example lines_ex : List.length (lines "a
b

c
") = 4%nat. Proof. reflexivity. Qed.
Example parse_ex : parse_uint U64_MAX "+042" = Some 42. Proof. reflexivity. Qed.
