(* ===== verification/Extern.v ===== *)
(** * Interfaces of the crates the runner links

    The runner keeps its state in types of other crates: [lru::LruCache],
    [tokio::sync::Semaphore] and [http::HeaderMap]. Each is a type class here:
    its operations, and the laws that its documentation states, told through
    an observation of the state (the entries of the cache, the free permits,
    the values of a header). The components are proved against the classes.
    Each class has an instance, which the witnesses evaluate. *)

From S2P Require Import Prelude RustStr.

(** ** [tokio::sync::Semaphore] *)

Class Semaphore (S : Type) := {
  sem_new : Z -> S;
  available_permits : S -> Z;
  try_acquire_many : Z -> S -> option S;
  (** A permit of that many goes back when it drops. *)
  release : Z -> S -> S;
  sem_new_available n : 0 <= n -> available_permits (sem_new n) = n;
  available_nonneg s : 0 <= available_permits s;
  try_acquire_many_Some n s s' :
    0 <= n -> try_acquire_many n s = Some s' ->
    n <= available_permits s /\ available_permits s' = available_permits s - n;
  try_acquire_many_None n s :
    0 <= n -> try_acquire_many n s = None -> available_permits s < n;
  release_available n s :
    0 <= n -> available_permits (release n s) = available_permits s + n;
}.

Definition try_acquire {S} `{Semaphore S} (s : S) : option S := try_acquire_many 1 s.

(** A counter of free permits. *)
#[export, refine] Instance counting_semaphore : Semaphore N := {
  sem_new := Z.to_N;
  available_permits := Z.of_N;
  try_acquire_many n s := if n <=? Z.of_N s then Some (Z.to_N (Z.of_N s - n)) else None;
  release n s := Z.to_N (Z.of_N s + n);
}.
Proof.
  - intros; lia.
  - intros; lia.
  - intros n s s' Hn H. destruct (n <=? Z.of_N s) eqn:E; simplify_eq. reflect_bools. lia.
  - intros n s Hn H. destruct (n <=? Z.of_N s) eqn:E; simplify_eq. reflect_bools. lia.
  - intros; lia.
Defined.

(** ** [lru::LruCache]

    The entries of a cache, from the most to the least recently used. *)

Section assoc.
Context {K V : Type} `{EqDecision K}.

Fixpoint assoc (k : K) (l : list (K * V)) : option V :=
  match l with
  | [] => None
  | (k', v) :: l => if decide (k = k') then Some v else assoc k l
  end.

Definition assoc_remove (k : K) (l : list (K * V)) : list (K * V) :=
  filter (fun kv => k <> kv.1) l.

(** The entry of [k] moves to the front. *)
Definition touch (k : K) (l : list (K * V)) : list (K * V) :=
  match assoc k l with
  | Some v => (k, v) :: assoc_remove k l
  | None => l
  end.

Lemma assoc_In k v l : assoc k l = Some v -> (k, v) ∈ l.
Proof.
  induction l as [|[k' v'] l IH]; simpl; intros H; [done|].
  destruct (decide (k = k')) as [->|]; simplify_eq; set_solver.
Qed.

Lemma assoc_None k l : assoc k l = None -> k ∉ l.*1.
Proof.
  induction l as [|[k' v'] l IH]; simpl; intros H; [set_solver|].
  destruct (decide (k = k')) as [->|]; simplify_eq; set_solver.
Qed.

Lemma assoc_app_Some k v l m : assoc k l = Some v -> assoc k (l ++ m) = Some v.
Proof.
  induction l as [|[k' v'] l IH]; simpl; [done|]. by destruct (decide (k = k')); [|intros; apply IH].
Qed.

Lemma assoc_remove_eq k l : assoc k (assoc_remove k l) = None.
Proof.
  induction l as [|[k' v'] l IH]; simpl; [done|]. unfold assoc_remove in *.
  rewrite filter_cons. simpl. destruct (decide (k <> k')); simpl; [|done].
  destruct (decide (k = k')); done.
Qed.

Lemma assoc_remove_ne k j l : k <> j -> assoc j (assoc_remove k l) = assoc j l.
Proof.
  intros Hkj. induction l as [|[k' v'] l IH]; simpl; [done|].
  unfold assoc_remove in *. rewrite filter_cons. simpl.
  destruct (decide (k <> k')) as [Hk|Hk]; simpl.
  - destruct (decide (j = k')); [done|]. done.
  - destruct (decide (j = k')) as [->|]; [tauto|done].
Qed.

Lemma assoc_touch k j l : assoc j (touch k l) = assoc j l.
Proof.
  unfold touch. destruct (assoc k l) as [v|] eqn:E; [|done]. simpl.
  destruct (decide (j = k)) as [->|Hne]; [by rewrite E|].
  apply assoc_remove_ne. done.
Qed.

Lemma assoc_remove_id k l : k ∉ l.*1 -> assoc_remove k l = l.
Proof.
  intros Hk. apply filter_all. intros [j w] Hj Hjk. simpl in *. subst.
  apply Hk. apply list_elem_of_fmap. exists (j, w). set_solver.
Qed.

Lemma sumz_assoc_remove (f : V -> Z) k v l :
  NoDup l.*1 -> assoc k l = Some v ->
  sumz (fun kv => f kv.2) (assoc_remove k l) = sumz (fun kv => f kv.2) l - f v.
Proof.
  induction l as [|[k' v'] l IH]; simpl; intros Hnd H; [done|].
  apply NoDup_cons in Hnd as [Hk Hnd]. unfold assoc_remove in *.
  rewrite filter_cons. simpl. destruct (decide (k = k')) as [<-|Hne].
  - simplify_eq. rewrite decide_False by tauto.
    pose proof (assoc_remove_id k l Hk) as Hid. unfold assoc_remove in Hid. rewrite Hid. lia.
  - rewrite decide_True by done. simpl. rewrite IH by done. lia.
Qed.

Lemma assoc_remove_keys k l : NoDup l.*1 -> NoDup (assoc_remove k l).*1.
Proof.
  intros Hnd. eapply sublist_NoDup; [apply Hnd|]. apply fmap_sublist, sublist_filter.
Qed.

Lemma assoc_remove_notin k l : k ∉ (assoc_remove k l).*1.
Proof. apply assoc_None, assoc_remove_eq. Qed.

Lemma touch_keys k l : NoDup l.*1 -> NoDup (touch k l).*1.
Proof.
  intros Hnd. unfold touch. destruct (assoc k l); [|done]. simpl.
  apply NoDup_cons. split; [apply assoc_remove_notin|by apply assoc_remove_keys].
Qed.

Lemma assoc_remove_perm k v l :
  NoDup l.*1 -> assoc k l = Some v -> (k, v) :: assoc_remove k l ≡ₚ l.
Proof.
  induction l as [|[k' v'] l IH]; simpl; intros Hnd H; [done|].
  apply NoDup_cons in Hnd as [Hk Hnd]. unfold assoc_remove in *.
  rewrite filter_cons. simpl. destruct (decide (k = k')) as [<-|Hne].
  - simplify_eq. rewrite decide_False by tauto.
    pose proof (assoc_remove_id k l Hk) as Hid. unfold assoc_remove in Hid. by rewrite Hid.
  - rewrite decide_True by done. rewrite Permutation_swap. by rewrite IH.
Qed.

Lemma touch_perm k l : NoDup l.*1 -> touch k l ≡ₚ l.
Proof.
  intros Hnd. unfold touch. destruct (assoc k l) eqn:E; [|done].
  by apply assoc_remove_perm.
Qed.

End assoc.

Class Lru (K V C : Type) `{EqDecision K} := {
  lru_new : nat -> C;
  lru_cap : C -> nat;
  lru_entries : C -> list (K * V);
  lru_get : K -> C -> option V * C;
  (** Stores an entry, and gives back the entry it replaced or evicted. *)
  lru_push : K -> V -> C -> option (K * V) * C;
  lru_pop_lru : C -> option (K * V) * C;
  lru_clear : C -> C;
  (** Every cache built from [lru_new] by these operations is well formed. *)
  lru_ok : C -> Prop;
  lru_new_ok n : (0 < n)%nat ->
    lru_ok (lru_new n) /\ lru_entries (lru_new n) = [] /\ lru_cap (lru_new n) = n;
  lru_ok_wf c : lru_ok c ->
    NoDup (lru_entries c).*1 /\ (length (lru_entries c) <= lru_cap c)%nat /\ (0 < lru_cap c)%nat;
  lru_get_spec k c v c' : lru_ok c -> lru_get k c = (v, c') ->
    lru_ok c' /\ lru_cap c' = lru_cap c /\
    v = assoc k (lru_entries c) /\ lru_entries c' = touch k (lru_entries c);
  lru_push_spec k v c o c' : lru_ok c -> lru_push k v c = (o, c') ->
    lru_ok c' /\ lru_cap c' = lru_cap c /\
    match assoc k (lru_entries c) with
    | Some old =>
      o = Some (k, old) /\ lru_entries c' = (k, v) :: assoc_remove k (lru_entries c)
    | None =>
      if (length (lru_entries c) <? lru_cap c)%nat
      then o = None /\ lru_entries c' = (k, v) :: lru_entries c
      else exists front e, lru_entries c = front ++ [e] /\
           o = Some e /\ lru_entries c' = (k, v) :: front
    end;
  lru_pop_spec c o c' : lru_ok c -> lru_pop_lru c = (o, c') ->
    lru_ok c' /\ lru_cap c' = lru_cap c /\
    match o with
    | Some e => lru_entries c = lru_entries c' ++ [e]
    | None => lru_entries c = [] /\ lru_entries c' = []
    end;
  lru_clear_spec c : lru_ok c ->
    lru_ok (lru_clear c) /\ lru_cap (lru_clear c) = lru_cap c /\
    lru_entries (lru_clear c) = [];
}.

(** [put]: the same store, without the entry given back. *)
Definition lru_put {K V C} `{Lru K V C} (k : K) (v : V) (c : C) : C := (lru_push k v c).2.

Section lru_facts.
Context {K V C : Type} `{Lru K V C}.

(** A store adds its own entry and keeps only entries that were there. *)
Lemma lru_put_incl k v c :
  lru_ok c -> lru_ok (lru_put k v c) /\
  forall e, e ∈ lru_entries (lru_put k v c) -> e = (k, v) \/ e ∈ lru_entries c.
Proof.
  intros Hok. unfold lru_put. destruct (lru_push k v c) as [o c'] eqn:E.
  destruct (lru_push_spec _ _ _ _ _ Hok E) as (Hok' & _ & Hs). simpl. split; [done|].
  intros e He. destruct (assoc k (lru_entries c)).
  - destruct Hs as [_ Hs]. rewrite Hs in He. apply elem_of_cons in He as [?|He]; [by left|].
    right. unfold assoc_remove in He. by apply list_elem_of_filter in He as [_ ?].
  - case_match.
    + destruct Hs as [_ Hs]. rewrite Hs in He. set_solver.
    + destruct Hs as (f & x & Hf & _ & Hs). rewrite Hs in He. rewrite Hf. set_solver.
Qed.

Lemma lru_put_assoc k v c : lru_ok c -> assoc k (lru_entries (lru_put k v c)) = Some v.
Proof.
  intros Hok. unfold lru_put. destruct (lru_push k v c) as [o c'] eqn:E.
  destruct (lru_push_spec _ _ _ _ _ Hok E) as (Hok' & _ & Hs). simpl.
  destruct (assoc k (lru_entries c)); [destruct Hs as [_ ->]|case_match; [destruct Hs as [_ ->]|
    destruct Hs as (? & ? & _ & _ & ->)]]; simpl; by rewrite decide_True.
Qed.

Lemma lru_get_incl k c v c' :
  lru_ok c -> lru_get k c = (v, c') ->
  lru_ok c' /\ v = assoc k (lru_entries c) /\
  (forall e, e ∈ lru_entries c' <-> e ∈ lru_entries c).
Proof.
  intros Hok E. destruct (lru_get_spec _ _ _ _ Hok E) as (Hok' & _ & -> & He).
  destruct (lru_ok_wf _ Hok) as (Hnd & _ & _). split; [done|]. split; [done|].
  intros e. rewrite He. by rewrite (touch_perm k _ Hnd).
Qed.

End lru_facts.

(** An instance on lists. *)
Record list_lru (K V : Type) := ListLru { ll_cap : nat; ll_entries : list (K * V) }.
Arguments ListLru {K V}.
Arguments ll_cap {K V}.
Arguments ll_entries {K V}.

Fixpoint split_last {A} (l : list A) : option (list A * A) :=
  match l with
  | [] => None
  | [x] => Some ([], x)
  | x :: l => match split_last l with
              | Some (f, e) => Some (x :: f, e)
              | None => None
              end
  end.

Lemma split_last_Some {A} (l f : list A) e : split_last l = Some (f, e) -> l = f ++ [e].
Proof.
  revert f; induction l as [|x [|y l] IH]; intros f H; [done|by simplify_eq/=|].
  change (split_last (x :: y :: l)) with
    (match split_last (y :: l) with Some (f, e) => Some (x :: f, e) | None => None end) in H.
  destruct (split_last (y :: l)) as [[f' e']|]; [|done]. simplify_eq.
  rewrite (IH f' eq_refl). done.
Qed.

Lemma split_last_None {A} (l : list A) : split_last l = None -> l = [].
Proof.
  induction l as [|x [|y l] IH]; intros H; [done|done|].
  change (split_last (x :: y :: l)) with
    (match split_last (y :: l) with Some (f, e) => Some (x :: f, e) | None => None end) in H.
  destruct (split_last (y :: l)) as [[f' e']|] eqn:E; [done|]. by specialize (IH eq_refl).
Qed.

Definition ll_push {K V} `{EqDecision K} (k : K) (v : V) (c : list_lru K V) :
  option (K * V) * list_lru K V :=
  match assoc k (ll_entries c) with
  | Some old => (Some (k, old), ListLru (ll_cap c) ((k, v) :: assoc_remove k (ll_entries c)))
  | None =>
    if (length (ll_entries c) <? ll_cap c)%nat
    then (None, ListLru (ll_cap c) ((k, v) :: ll_entries c))
    else match split_last (ll_entries c) with
         | Some (f, e) => (Some e, ListLru (ll_cap c) ((k, v) :: f))
         | None => (None, c)
         end
  end.

Definition ll_pop {K V} (c : list_lru K V) : option (K * V) * list_lru K V :=
  match split_last (ll_entries c) with
  | Some (f, e) => (Some e, ListLru (ll_cap c) f)
  | None => (None, c)
  end.

Definition ll_ok {K V} (c : list_lru K V) : Prop :=
  NoDup (ll_entries c).*1 /\ (length (ll_entries c) <= ll_cap c)%nat /\ (0 < ll_cap c)%nat.

Lemma ll_push_ok {K V} `{EqDecision K} (k : K) (v : V) c :
  ll_ok c -> ll_ok (ll_push k v c).2.
Proof.
  intros (Hnd & Hlen & Hcap). unfold ll_push, ll_ok.
  destruct (assoc k (ll_entries c)) as [old|] eqn:E; simpl.
  - pose proof (assoc_remove_perm k old _ Hnd E) as Hp.
    apply Permutation_length in Hp. simpl in Hp. repeat split; [|lia|lia].
    apply NoDup_cons. split; [apply assoc_remove_notin|by apply assoc_remove_keys].
  - destruct (Nat.ltb_spec (length (ll_entries c)) (ll_cap c)); simpl.
    + repeat split; [|lia|lia]. apply NoDup_cons. by split; [apply assoc_None|].
    + destruct (split_last (ll_entries c)) as [[f e]|] eqn:Es; simpl; [|done].
      apply split_last_Some in Es. rewrite Es in *. rewrite length_app in Hlen. simpl in Hlen.
      repeat split; [|lia|lia]. apply assoc_None in E. rewrite fmap_app in *.
      apply NoDup_app in Hnd as (? & _ & _). apply NoDup_cons. split; [set_solver|done].
Qed.

#[export, refine] Instance list_lru_Lru {K V} `{EqDecision K} : Lru K V (list_lru K V) := {
  lru_new n := ListLru n [];
  lru_cap := ll_cap;
  lru_entries := ll_entries;
  lru_get k c := (assoc k (ll_entries c), ListLru (ll_cap c) (touch k (ll_entries c)));
  lru_push := ll_push;
  lru_pop_lru := ll_pop;
  lru_clear c := ListLru (ll_cap c) [];
  lru_ok := ll_ok;
}.
Proof.
  - intros n Hn. repeat split; simpl; [constructor|lia|done].
  - done.
  - intros k c v c' (Hnd & Hlen & Hcap) ?; simplify_eq/=. repeat split; simpl; try done.
    + by apply touch_keys.
    + rewrite (Permutation_length (touch_perm k _ Hnd)). lia.
  - intros k v c o c' Hok H. pose proof (ll_push_ok k v c Hok) as Hok'. rewrite H in Hok'.
    simpl in Hok'. destruct Hok as (Hnd & Hlen & Hcap). split; [done|].
    unfold ll_push in H. destruct (assoc k (ll_entries c)) as [old|]; simplify_eq/=; [done|].
    destruct (length (ll_entries c) <? ll_cap c)%nat eqn:El; simplify_eq/=; [done|].
    apply Nat.ltb_ge in El. destruct (split_last (ll_entries c)) as [[f e]|] eqn:Es; simplify_eq/=.
    + apply split_last_Some in Es. split; [done|]. eauto.
    + apply split_last_None in Es. rewrite Es in El. simpl in El. lia.
  - intros c o c' (Hnd & Hlen & Hcap) H. unfold ll_pop in H.
    destruct (split_last (ll_entries c)) as [[f e]|] eqn:Es; simplify_eq/=.
    + apply split_last_Some in Es. unfold ll_ok. simpl. rewrite Es in *.
      rewrite length_app, fmap_app in *. simpl in *. apply NoDup_app in Hnd as (? & _ & _).
      split_and!; try done; lia.
    + by apply split_last_None in Es.
  - intros c (Hnd & Hlen & Hcap). repeat split; simpl; [constructor|lia|lia].
Defined.

(** ** [http::HeaderMap]

    A header map is known by the values of each name. Names are in lower
    case, as [HeaderName] keeps them. *)

Class HeaderMap (H : Type) := {
  hdr_empty : H;
  hdr_get_all : string -> H -> list string;
  hdr_insert : string -> string -> H -> H;
  hdr_append : string -> string -> H -> H;
  hdr_remove : string -> H -> H;
  hdr_get_all_empty n : hdr_get_all n hdr_empty = [];
  hdr_get_all_insert n v h m :
    hdr_get_all m (hdr_insert n v h) = if decide (n = m) then [v] else hdr_get_all m h;
  hdr_get_all_append n v h m :
    hdr_get_all m (hdr_append n v h) =
    if decide (n = m) then hdr_get_all m h ++ [v] else hdr_get_all m h;
  hdr_get_all_remove n h m :
    hdr_get_all m (hdr_remove n h) = if decide (n = m) then [] else hdr_get_all m h;
}.

(** [get]: the first value of the name. *)
Definition hdr_get {H} `{HeaderMap H} (n : string) (h : H) : option string :=
  head (hdr_get_all n h).

(** Two header maps that give the same values for every name. *)
Definition hdr_equiv {H} `{HeaderMap H} (a b : H) : Prop :=
  forall n, hdr_get_all n a = hdr_get_all n b.

#[export] Instance hdr_equiv_equivalence {H} `{HeaderMap H} : Equivalence hdr_equiv.
Proof.
  split.
  - by intros a n.
  - intros a b Hab n. by rewrite Hab.
  - intros a b c Hab Hbc n. by rewrite Hab, Hbc.
Qed.

#[export] Instance hdr_insert_proper {H} `{HeaderMap H} n v :
  Proper (hdr_equiv ==> hdr_equiv) (hdr_insert n v).
Proof. intros a b Hab m. rewrite !hdr_get_all_insert. case_decide; [done|apply Hab]. Qed.

#[export] Instance hdr_append_proper {H} `{HeaderMap H} n v :
  Proper (hdr_equiv ==> hdr_equiv) (hdr_append n v).
Proof. intros a b Hab m. rewrite !hdr_get_all_append. case_decide; by rewrite Hab. Qed.

#[export] Instance hdr_remove_proper {H} `{HeaderMap H} n :
  Proper (hdr_equiv ==> hdr_equiv) (hdr_remove n).
Proof. intros a b Hab m. rewrite !hdr_get_all_remove. case_decide; [done|apply Hab]. Qed.

#[export] Instance hdr_get_proper {H} `{HeaderMap H} n :
  Proper (hdr_equiv ==> eq) (hdr_get n).
Proof. intros a b Hab. unfold hdr_get. by rewrite (Hab n). Qed.

#[export, refine] Instance gmap_headers : HeaderMap (gmap string (list string)) := {
  hdr_empty := ∅;
  hdr_get_all n h := default [] (h !! n);
  hdr_insert n v h := <[n := [v]]> h;
  hdr_append n v h := <[n := default [] (h !! n) ++ [v]]> h;
  hdr_remove n h := delete n h;
}.
Proof.
  - intros n. by rewrite lookup_empty.
  - intros n v h m. rewrite lookup_insert. by case_decide.
  - intros n v h m. rewrite lookup_insert. by case_decide; subst.
  - intros n h m. rewrite lookup_delete. by case_decide.
Defined.

#[export] Hint Rewrite @hdr_get_all_insert @hdr_get_all_append @hdr_get_all_remove
  @hdr_get_all_empty : runner.

(** ** [http::HeaderValue]

    A header value is its bytes. [to_str] and [from_str] accept the values
    whose bytes are all visible ASCII. *)

Class HeaderValue := {
  hv_visible : ascii -> bool;
  hv_visible_ascii c : 33 <= byte_of c <= 126 -> hv_visible c = true;
}.

#[export, refine] Instance ascii_HeaderValue : HeaderValue := {
  hv_visible c := ((32 <=? byte_of c) && (byte_of c <? 127) || (byte_of c =? 9))%bool;
}.
Proof.
  intros c Hc. apply orb_true_iff. left. apply andb_true_iff. split; [apply Z.leb_le|apply Z.ltb_lt]; lia.
Defined.

Definition hv_ok `{HeaderValue} (s : string) : bool := all_bytes hv_visible s.

Definition hv_to_str `{HeaderValue} (v : string) : option string :=
  if hv_ok v then Some v else None.

Definition hv_from_str `{HeaderValue} (s : string) : option string :=
  if hv_ok s then Some s else None.

Lemma hv_ok_visible `{HeaderValue} s :
  all_bytes (fun c => (33 <=? byte_of c) && (byte_of c <=? 126))%bool s = true -> hv_ok s = true.
Proof.
  unfold hv_ok. induction s as [|c s IH]; simpl; [done|]. intros Hs. reflect_bools.
  rewrite hv_visible_ascii by lia. simpl. auto.
Qed.

(** ** [uuid::Uuid]

    A UUID is written with lower-case hex digits and dashes, and what is
    written parses to it. *)

Definition is_lower_hex (c : ascii) : bool :=
  is_ascii_digit c || ((97 <=? byte_of c) && (byte_of c <=? 102)).

Definition is_uuid_char (c : ascii) : bool := is_lower_hex c || Ascii.eqb c "-".

Class Uuid (U : Type) := {
  uuid_parse : string -> option U;
  uuid_string : U -> string;
  uuid_parse_string u : uuid_parse (uuid_string u) = Some u;
  uuid_string_chars u : all_bytes is_uuid_char (uuid_string u) = true;
  uuid_string_length u : String.length (uuid_string u) = 36%nat;
}.

(** The hyphenated form: 36 characters, with four dashes. *)
Definition hyphenated (s : string) : bool :=
  all_bytes is_uuid_char s &&
  bool_decide (String.length <$> split "-" s = [8; 4; 4; 4; 12]%nat).

Definition text_uuid : Type := { s : string | hyphenated s = true }.

Definition text_parse (s : string) : option text_uuid :=
  match Bool.bool_dec (hyphenated s) true with left h => Some (exist _ s h) | right _ => None end.

#[export, refine] Instance text_Uuid : Uuid text_uuid := {
  uuid_parse := text_parse;
  uuid_string u := proj1_sig u;
}.
Proof.
  - intros [s h]. unfold text_parse. simpl. destruct (Bool.bool_dec _ _) as [h'|]; [|done].
    do 2 f_equal. apply (proof_irrel h' h).
  - intros [s h]. by destruct (andb_prop _ _ h).
  - intros [s h]. simpl. apply andb_prop in h as [_ h]. apply bool_decide_eq_true in h.
    rewrite <- (str_join_split "-" s). destruct (split "-" s) as [|a [|b [|c [|d [|e []]]]]]; simplify_eq/=.
    do 6 (rewrite ?length_app_str; simpl). lia.
Defined.

(** ** [tokio::sync::mpsc]

    A bounded queue, known by the items that wait in it. *)

Inductive sent : Type := Sent | Full | Closed.

Class Mpsc (A Q : Type) := {
  mp_new : nat -> Q;
  mp_cap : Q -> nat;
  mp_items : Q -> list A;
  mp_open : Q -> bool;
  mp_try_send : A -> Q -> sent * Q;
  (** Up to [n] items; none only when none waits. *)
  mp_recv_many : nat -> Q -> list A * Q;
  mp_close : Q -> Q;
  mp_new_spec n : mp_items (mp_new n) = [] /\ mp_cap (mp_new n) = n /\ mp_open (mp_new n) = true;
  mp_try_send_spec a q r q' : mp_try_send a q = (r, q') ->
    mp_cap q' = mp_cap q /\ mp_open q' = mp_open q /\
    r = (if mp_open q then if (length (mp_items q) <? mp_cap q)%nat then Sent else Full else Closed) /\
    mp_items q' = match r with Sent => mp_items q ++ [a] | _ => mp_items q end;
  mp_recv_many_spec n q l q' : (0 < n)%nat -> mp_recv_many n q = (l, q') ->
    mp_cap q' = mp_cap q /\ mp_open q' = mp_open q /\ mp_items q = l ++ mp_items q' /\
    (length l <= n)%nat /\ (l = [] -> mp_items q = []);
  mp_close_spec q : mp_items (mp_close q) = mp_items q /\ mp_cap (mp_close q) = mp_cap q /\
    mp_open (mp_close q) = false;
}.

Record list_mpsc (A : Type) := ListMpsc { lm_cap : nat; lm_items : list A; lm_open : bool }.
Arguments ListMpsc {A}.
Arguments lm_cap {A}.
Arguments lm_items {A}.
Arguments lm_open {A}.

#[export, refine] Instance list_mpsc_Mpsc {A} : Mpsc A (list_mpsc A) := {
  mp_new n := ListMpsc n [] true;
  mp_cap := lm_cap;
  mp_items := lm_items;
  mp_open := lm_open;
  mp_try_send a q :=
    if lm_open q then
      if (length (lm_items q) <? lm_cap q)%nat
      then (Sent, ListMpsc (lm_cap q) (lm_items q ++ [a]) (lm_open q))
      else (Full, q)
    else (Closed, q);
  mp_recv_many n q := (take n (lm_items q), ListMpsc (lm_cap q) (drop n (lm_items q)) (lm_open q));
  mp_close q := ListMpsc (lm_cap q) (lm_items q) false;
}.
Proof.
  - done.
  - intros a q r q' H. destruct (lm_open q) eqn:Eo; [destruct (_ <? _)%nat|]; by simplify_eq/=.
  - intros n q l q' Hn H. simplify_eq/=. rewrite take_drop. split_and!; try done.
    + rewrite length_take. lia.
    + destruct n; [lia|]. by destruct (lm_items q).
  - done.
Defined.

(** ** [tokio::sync::broadcast]

    Each receiver has the items it has not read. A receiver with more than
    the capacity loses its oldest items and is told so by its next receive. *)

Inductive received (A : Type) : Type := Received (a : A) | Lagged | Waiting.
Arguments Received {A}.
Arguments Lagged {A}.
Arguments Waiting {A}.

Definition bc_push {A} (cap : nat) (a : A) (r : list A * bool) : list A * bool :=
  if (length r.1 <? cap)%nat then (r.1 ++ [a], r.2) else (tail r.1 ++ [a], true).

Class Broadcast (A B : Type) := {
  bc_new : nat -> B;
  bc_cap : B -> nat;
  bc_receivers : B -> gmap nat (list A * bool);
  bc_send : A -> B -> B;
  bc_subscribe : B -> nat * B;
  bc_recv : nat -> B -> received A * B;
  bc_new_spec n : bc_receivers (bc_new n) = ∅ /\ bc_cap (bc_new n) = n;
  bc_send_spec a b : bc_cap (bc_send a b) = bc_cap b /\
    bc_receivers (bc_send a b) = bc_push (bc_cap b) a <$> bc_receivers b;
  bc_subscribe_spec b i b' : bc_subscribe b = (i, b') ->
    bc_cap b' = bc_cap b /\ bc_receivers b !! i = None /\
    bc_receivers b' = <[i := ([], false)]> (bc_receivers b);
  bc_recv_spec i b r b' l (g : bool) : bc_receivers b !! i = Some (l, g) -> bc_recv i b = (r, b') ->
    bc_cap b' = bc_cap b /\
    r = (if g then Lagged else match l with x :: _ => Received x | [] => Waiting end) /\
    bc_receivers b' = <[i := (if g : bool then l else tail l, false)]> (bc_receivers b);
}.

Record map_broadcast (A : Type) := MapBroadcast { mb_cap : nat; mb_receivers : gmap nat (list A * bool) }.
Arguments MapBroadcast {A}.
Arguments mb_cap {A}.
Arguments mb_receivers {A}.

#[export, refine] Instance map_broadcast_Broadcast {A} : Broadcast A (map_broadcast A) := {
  bc_new n := MapBroadcast n (∅ : gmap nat (list A * bool));
  bc_cap := mb_cap;
  bc_receivers := mb_receivers;
  bc_send a b := MapBroadcast (mb_cap b) (bc_push (mb_cap b) a <$> mb_receivers b);
  bc_subscribe b := let i := fresh (C := gset nat) (dom (mb_receivers b)) in
                    (i, MapBroadcast (mb_cap b) (<[i := ([], false)]> (mb_receivers b)));
  bc_recv i b :=
    match mb_receivers b !! i with
    | Some (l, true) => (Lagged, MapBroadcast (mb_cap b) (<[i := (l, false)]> (mb_receivers b)))
    | Some (x :: l, false) => (Received x, MapBroadcast (mb_cap b) (<[i := (l, false)]> (mb_receivers b)))
    | Some ([], false) => (Waiting, MapBroadcast (mb_cap b) (<[i := ([], false)]> (mb_receivers b)))
    | None => (Waiting, b)
    end;
}.
Proof.
  - done.
  - done.
  - intros b i b' H. simplify_eq/=. split_and!; try done.
    apply (not_elem_of_dom (D := gset nat)), is_fresh.
  - intros i b r b' l g Hl H. rewrite Hl in H.
    destruct g, l; by simplify_eq.
Defined.
