(* ===== verification/Postgres.v ===== *)
(** * A database that can fail

    What the runner relies on of Postgres and of its client: a statement
    outside a transaction is one step, a transaction that is not committed
    changes nothing, and any call can fail. A call whose answer is lost has
    done its work. The tables are a parameter. *)

From S2P Require Import Prelude.

Inductive fault : Type := Works | Fails (e : string) | Lost (e : string).

Record Db (D : Type) := mkDb { data : D; faults : list fault }.
Arguments mkDb {D}. Arguments data {D}. Arguments faults {D}.

Section db.
Context {D : Type}.

(** One statement: [run] gives its answer and the tables after it, or the
    error of the statement. *)
Definition query {A} (run : D -> result (A * D) string) : SE (Db D) string A := fun s =>
  let rest := tail (faults s) in
  match default Works (head (faults s)) with
  | Fails e => (Err e, mkDb (data s) rest)
  | w => match run (data s), w with
         | Ok (a, d), Lost e => (Err e, mkDb d rest)
         | Ok (a, d), _ => (Ok a, mkDb d rest)
         | Err e, _ => (Err e, mkDb (data s) rest)
         end
  end.

(** [begin], the statements, and [commit]: a transaction that is dropped is
    rolled back, and so is one whose body asks for it. *)
Definition transaction {A} (body : SE (Db D) string (option A)) : SE (Db D) string (option A) := fun s =>
  match query (fun d => Ok (tt, d)) s with
  | (Err e, s1) => (Err e, s1)
  | (Ok _, s1) =>
    match body s1 with
    | (Err e, s2) => (Err e, mkDb (data s1) (faults s2))
    | (Ok None, s2) => (Ok None, mkDb (data s1) (faults s2))
    | (Ok (Some a), s2) =>
      match query (fun _ => Ok (tt, data s2)) (mkDb (data s1) (faults s2)) with
      | (Err e, s3) => (Err e, s3)
      | (Ok _, s3) => (Ok (Some a), s3)
      end
    end
  end.

Lemma query_inv {A} (run : D -> result (A * D) string) s r s' : query run s = (r, s') ->
  (data s' = data s /\ is_ok r = false) \/
  (exists a d, run (data s) = Ok (a, d) /\ data s' = d /\ (r = Ok a \/ is_ok r = false)).
Proof.
  unfold query. destruct (default Works (head (faults s))); [| |];
    try (destruct (run (data s)) as [[a d]|e']); intros; simplify_eq/=; try (by left); right; eauto 6.
Qed.

(** A statement that only reads. *)
Lemma query_read {A} (f : D -> result A string) s r s' :
  query (fun d => a <-? f d; Ok (a, d)) s = (r, s') ->
  data s' = data s /\ (forall a, r = Ok a -> f (data s) = Ok a).
Proof.
  intros [[Hd Hr]|(a & d & E & Hd & Hr)]%query_inv.
  - split; [done|]. by intros a ->.
  - destruct (f (data s)) as [a'|]; simplify_eq/=. split; [done|]. intros a' ->. naive_solver.
Qed.

(** With nothing failing, a statement does its work. *)
Lemma query_works {A} (run : D -> result (A * D) string) d : query run (mkDb d []) =
  match run d with Ok (a, d') => (Ok a, mkDb d' []) | Err e => (Err e, mkDb d []) end.
Proof. unfold query. simpl. by destruct (run d) as [[]|]. Qed.

Lemma transaction_works {A} (body : SE (Db D) string (option A)) d a d' :
  body (mkDb d []) = (Ok (Some a), mkDb d' []) -> transaction body (mkDb d []) = (Ok (Some a), mkDb d' []).
Proof. intros E. unfold transaction. rewrite query_works, E. cbn [data faults]. by rewrite query_works. Qed.
End db.
