(* ===== verification/Metrics.v ===== *)
(** * How a request or a task ended (src/src/metrics.rs)

    The label under which an end is counted. *)

From S2P Require Import Prelude.

(** Why the runtime stopped a worker. *)
Inductive TerminationReason : Type :=
| CpuTimeLimit | WallClockTimeout | MemoryLimit | MaxIterationsReached
| Exception (message : string) | InitializationError (message : string) | TTerminated | Aborted
| Other (message : string).

Inductive Outcome : Type := Success | Failed (label : string).

#[export] Instance Outcome_eq_dec : EqDecision Outcome.
Proof. solve_decision. Defined.

Definition terminated (reason : TerminationReason) : Outcome :=
  Failed match reason with
  | CpuTimeLimit => "cpu_time_limit"
  | WallClockTimeout => "wall_clock_timeout"
  | MemoryLimit => "memory_limit"
  | MaxIterationsReached => "max_iterations"
  | Exception _ => "exception"
  | InitializationError _ => "initialization_error"
  | TTerminated => "terminated"
  | Aborted => "aborted"
  | Other _ => "other"
  end.
