(* ===== verification/CodeCache.v ===== *)
(** * The compiled-code cache (src/src/code_cache.rs)

    An LRU of compiled code blobs, bounded by a number of entries (the
    [lru] crate) and by a total number of bytes (this code). *)

From S2P Require Import Prelude RustStr Extern.

(** Cache key: (worker_id, version) *)
Abbreviation CacheKey := (string * Z)%type.

Section code_cache.

Context {C : Type} `{!Lru (string * Z) string C}.

Record CodeCache := mkCodeCache {
  entries : C;
  cc_bytes : Z;
  max_bytes : Z;
}.

Definition cc_new (max_entries : nat) (max : Z) : CodeCache :=
  mkCodeCache (lru_new max_entries) 0 max.

Definition cc_get (key : CacheKey) (c : CodeCache) : option string * CodeCache :=
  let '(v, e) := lru_get key (entries c) in
  (v, mkCodeCache e (cc_bytes c) (max_bytes c)).

(** The loop that evicts until the bytes fit. Each round removes an entry, so
    the number of entries bounds the rounds. *)
Fixpoint evict (fuel : nat) (e : C) (b max : Z) : C * Z :=
  match fuel with
  | O => (e, b)
  | S fuel =>
    if max <? b then
      match lru_pop_lru e with
      | (Some (_, evicted), e') => evict fuel e' (b - str_len evicted) max
      | (None, e') => (e', b)
      end
    else (e, b)
  end.

Definition cc_put (key : CacheKey) (blob : string) (c : CodeCache) : CodeCache :=
  if max_bytes c <? str_len blob then c
  else
    let b := cc_bytes c + str_len blob in
    let '(o, e) := lru_push key blob (entries c) in
    let b := match o with
             | Some (_, dropped) => b - str_len dropped
             | None => b
             end in
    let '(e, b) := evict (S (length (lru_entries e))) e b (max_bytes c) in
    mkCodeCache e b (max_bytes c).

(** The public operations, on the one cache of the process. *)
Definition get (worker_id : string) (version : Z) (c : CodeCache) : option string * CodeCache :=
  cc_get (worker_id, version) c.

Definition put (worker_id : string) (version : Z) (snapshot : string) (c : CodeCache) : CodeCache :=
  cc_put (worker_id, version) snapshot c.

Definition wasm_id (worker_id engine_key : string) : string :=
  "wasm:" +:+ engine_key +:+ ":" +:+ worker_id.

Definition get_wasm (worker_id : string) (version : Z) (engine_key : string) (c : CodeCache) :
  option string * CodeCache :=
  cc_get (wasm_id worker_id engine_key, version) c.

Definition put_wasm (worker_id : string) (version : Z) (engine_key component : string)
  (c : CodeCache) : CodeCache :=
  cc_put (wasm_id worker_id engine_key, version) component c.

(** The settings of the cache, from the environment. *)
Definition DEFAULT_MAX_ENTRIES : Z := 5000.
Definition DEFAULT_MAX_BYTES : Z := 512 * 1024 * 1024.

Definition parse_env (env : string -> option string) (name : string) : option Z :=
  v ← env name; parse_uint U64_MAX v.

Definition read_env (env : string -> option string) (name fallback : string) : option Z :=
  match parse_env env name with
  | Some value => Some value
  | None => parse_env env fallback
  end.

Definition CODE_CACHE (env : string -> option string) : CodeCache :=
  let max_entries :=
    match read_env env "CODE_CACHE_MAX" "SNAPSHOT_CACHE_MAX" with
    | Some n => if n =? 0 then DEFAULT_MAX_ENTRIES else n
    | None => DEFAULT_MAX_ENTRIES
    end in
  let max := default DEFAULT_MAX_BYTES
    (read_env env "CODE_CACHE_MAX_BYTES" "SNAPSHOT_CACHE_MAX_BYTES") in
  cc_new (Z.to_nat max_entries) max.

(** ** Lemmas *)

Definition total (l : list (CacheKey * string)) : Z := sumz (fun kv => str_len kv.2) l.

(** The byte count is the sum of the blobs, and both bounds hold. *)
Definition cache_inv (c : CodeCache) : Prop :=
  lru_ok (entries c) /\ cc_bytes c = total (lru_entries (entries c)) /\
  0 <= max_bytes c /\ cc_bytes c <= max_bytes c.

Lemma total_nonneg l : 0 <= total l.
Proof. apply sumz_nonneg. intros; apply str_len_nonneg. Qed.

(** [evict] drops from the least recently used end, only while the bytes do
    not fit, and the fuel is enough for them to fit. *)
Lemma evict_spec fuel e b max e' b' :
  lru_ok e -> b = total (lru_entries e) -> 0 <= max ->
  (length (lru_entries e) < fuel)%nat ->
  evict fuel e b max = (e', b') ->
  lru_ok e' /\ lru_cap e' = lru_cap e /\ b' = total (lru_entries e') /\ b' <= max /\
  exists dropped, lru_entries e = lru_entries e' ++ dropped /\
    (dropped = [] \/ exists k v rest, dropped = (k, v) :: rest /\
                     max < b' + str_len v).
Proof.
  revert e b; induction fuel as [|fuel IH]; intros e b Hok Hb Hmax Hlen H; [lia|].
  simpl in H. destruct (max <? b) eqn:E; reflect_bools.
  - destruct (lru_pop_lru e) as [[[k ev]|] e1] eqn:Hpop;
      destruct (lru_pop_spec _ _ _ Hok Hpop) as (Hok1 & Hcap1 & He).
    + rewrite He in Hb, Hlen |- *. rewrite length_app in Hlen. simpl in Hlen.
      unfold total in Hb. rewrite sumz_app in Hb. simpl in Hb.
      destruct (IH e1 (b - str_len ev)) as (? & ? & ? & ? & d & Hd & Hmin);
        [done|unfold total; lia|done|lia|done|].
      split_and!; try done; [congruence|]. exists (d ++ [((k, ev))]).
      rewrite Hd, <- app_assoc. split; [done|]. right.
      destruct Hmin as [->|(k' & v' & rest & -> & ?)].
      * exists k, ev, []. split; [done|]. rewrite app_nil_r in Hd.
        assert (b' = b - str_len ev) by (unfold total in *; rewrite Hd in *; lia). lia.
      * exists k', v', (rest ++ [(k, ev)]). done.
    + destruct He as [He ?]. rewrite He in Hb. unfold total in Hb. simpl in Hb. lia.
  - simplify_eq. split_and!; try done. exists []. rewrite app_nil_r. eauto.
Qed.

(** The bytes counted after a push, before the loop: the sum of the entries. *)
Lemma push_total key blob c o e :
  cache_inv c -> lru_push key blob (entries c) = (o, e) ->
  lru_ok e /\ lru_cap e = lru_cap (entries c) /\
  (match o with
   | Some (_, dropped) => cc_bytes c + str_len blob - str_len dropped
   | None => cc_bytes c + str_len blob
   end = total (lru_entries e)) /\
  exists rest, lru_entries e = (key, blob) :: rest /\
    (forall j, j <> key -> forall v, assoc j rest = Some v -> assoc j (lru_entries (entries c)) = Some v).
Proof.
  intros (Hok & Hb & Hmax & Hle) Hp.
  destruct (lru_push_spec _ _ _ _ _ Hok Hp) as (Hok' & Hcap & Hspec).
  destruct (lru_ok_wf _ Hok) as (Hnd & _ & _).
  split; [done|]. split; [done|]. unfold total in *.
  destruct (assoc key (lru_entries (entries c))) as [old|] eqn:E.
  - destruct Hspec as [-> He]. rewrite He. simpl.
    rewrite (sumz_assoc_remove str_len key old _ Hnd E). split; [lia|].
    eexists. split; [done|]. intros j Hj v. by rewrite assoc_remove_ne by done.
  - case_match.
    + destruct Hspec as [-> He]. rewrite He. simpl. split; [lia|]. eexists; split; [done|]. done.
    + destruct Hspec as (front & ev & Hf & -> & He). destruct ev as [k' v']. rewrite He, Hf in *.
      simpl. rewrite sumz_app in Hb. simpl in Hb. split; [lia|]. eexists; split; [done|].
      intros j Hj v Hv. by apply assoc_app_Some.
Qed.

(** What a put that fits leaves: the new entry first, then entries that were
    there before. *)
Lemma put_entries key blob c :
  cache_inv c -> str_len blob <= max_bytes c ->
  cache_inv (cc_put key blob c) /\ max_bytes (cc_put key blob c) = max_bytes c /\
  lru_cap (entries (cc_put key blob c)) = lru_cap (entries c) /\
  exists rest, lru_entries (entries (cc_put key blob c)) = (key, blob) :: rest /\
    forall j, j <> key -> forall v, assoc j rest = Some v ->
              assoc j (lru_entries (entries c)) = Some v.
Proof.
  intros Hinv Hfit. unfold cc_put. rewrite (proj2 (Z.ltb_ge _ _)) by lia.
  destruct (lru_push key blob (entries c)) as [o e] eqn:Hp.
  destruct (push_total _ _ _ _ _ Hinv Hp) as (Hok & Hcap & Hb & rest & He & Hrest).
  destruct Hinv as (_ & _ & Hmax & _).
  set (b := match o with Some _ => _ | None => _ end).
  assert (Hb' : b = total (lru_entries e)) by (subst b; destruct o as [[? ?]|]; done).
  destruct (evict (S (length (lru_entries e))) e b (max_bytes c)) as [e' b'] eqn:Hev.
  destruct (evict_spec _ _ _ _ _ _ Hok Hb' Hmax (Nat.lt_succ_diag_r _) Hev)
    as (Hok' & Hcap' & Hbe & Hle & d & Hd & Hmin).
  simpl. split; [done|]. split; [done|]. split; [congruence|]. rewrite He in Hd.
  destruct (lru_entries e') as [|kv rest'] eqn:He'.
  - exfalso. unfold total in Hbe. simpl in Hd, Hbe. subst d.
    destruct Hmin as [?|(k & v & r & Hkv & ?)]; simplify_eq. lia.
  - simplify_eq/=. exists rest'. split; [done|]. intros j Hj v Hv. apply Hrest; [done|].
    by apply assoc_app_Some.
Qed.

(** A blob over the budget changes nothing. *)
Lemma put_over_budget key blob c :
  max_bytes c < str_len blob -> cc_put key blob c = c.
Proof. intros H. unfold cc_put. by rewrite (proj2 (Z.ltb_lt _ _)). Qed.

Lemma get_entries key c v c' :
  cache_inv c -> cc_get key c = (v, c') ->
  cache_inv c' /\ max_bytes c' = max_bytes c /\ lru_cap (entries c') = lru_cap (entries c) /\
  v = assoc key (lru_entries (entries c)) /\
  forall j, assoc j (lru_entries (entries c')) = assoc j (lru_entries (entries c)).
Proof.
  intros (Hok & Hb & Hmax & Hle) H. unfold cc_get in H.
  destruct (lru_get key (entries c)) as [v1 e] eqn:Hg. simplify_eq/=.
  destruct (lru_get_spec _ _ _ _ Hok Hg) as (Hok' & Hcap & -> & He).
  destruct (lru_ok_wf _ Hok) as (Hnd & _ & _). unfold cache_inv. simpl. split_and!; try done.
  - rewrite He, Hb. symmetry. apply sumz_Permutation. by apply touch_perm.
  - intros j. rewrite He. apply assoc_touch.
Qed.

(** ** The cache as a map

    [abs]: the blob of the last put of each key that the budget took. *)
Definition put_abs (max : Z) (key : CacheKey) (blob : string) (m : gmap CacheKey string) :=
  if max <? str_len blob then m else <[key := blob]> m.

Definition refines (c : CodeCache) (m : gmap CacheKey string) : Prop :=
  cache_inv c /\
  forall k v, assoc k (lru_entries (entries c)) = Some v -> m !! k = Some v.

Inductive cache_op : Type :=
| OpGet (key : CacheKey)
| OpPut (key : CacheKey) (blob : string).

Definition run_op (op : cache_op) (c : CodeCache) : CodeCache :=
  match op with
  | OpGet key => (cc_get key c).2
  | OpPut key blob => cc_put key blob c
  end.

Definition run_abs (max : Z) (op : cache_op) (m : gmap CacheKey string) : gmap CacheKey string :=
  match op with
  | OpGet _ => m
  | OpPut key blob => put_abs max key blob m
  end.

Lemma run_op_refines op c m :
  refines c m -> refines (run_op op c) (run_abs (max_bytes c) op m) /\
  max_bytes (run_op op c) = max_bytes c /\
  lru_cap (entries (run_op op c)) = lru_cap (entries c).
Proof.
  intros [Hinv Hm]. destruct op as [key|key blob]; simpl.
  - destruct (cc_get key c) as [v c'] eqn:Hg.
    destruct (get_entries _ _ _ _ Hinv Hg) as (? & ? & ? & _ & Ha). simpl.
    split; [|done]. split; [done|]. intros k w. rewrite Ha. apply Hm.
  - unfold put_abs. destruct (max_bytes c <? str_len blob) eqn:E; reflect_bools.
    + rewrite put_over_budget by done. done.
    + destruct (put_entries key blob c Hinv E) as (? & ? & ? & rest & He & Hr).
      split; [|done]. split; [done|]. intros k v. rewrite He. simpl.
      destruct (decide (k = key)) as [->|Hne]; intros Hk.
      * simplify_eq. apply lookup_insert_eq.
      * rewrite lookup_insert_ne by done. eauto.
Qed.

Lemma run_ops_refines ops c m :
  refines c m ->
  refines (foldl (fun c op => run_op op c) c ops)
          (foldl (fun m op => run_abs (max_bytes c) op m) m ops) /\
  max_bytes (foldl (fun c op => run_op op c) c ops) = max_bytes c /\
  lru_cap (entries (foldl (fun c op => run_op op c) c ops)) = lru_cap (entries c).
Proof.
  revert c m; induction ops as [|op ops IH]; intros c m Hr; simpl; [done|].
  destruct (run_op_refines op c m Hr) as (Hr' & Hmax & Hcap).
  destruct (IH _ _ Hr') as (H1 & H2 & H3). rewrite Hmax in H1, H2. rewrite Hcap in H3. done.
Qed.

Lemma new_refines max_entries max :
  (0 < max_entries)%nat -> 0 <= max -> refines (cc_new max_entries max) ∅.
Proof.
  intros Hn Hm. destruct (lru_new_ok max_entries Hn) as (Hok & He & Hcap).
  split; [split_and!; simpl; try done|].
  - simpl. by rewrite He.
  - simpl. intros k v. by rewrite He.
Qed.

End code_cache.

Arguments CodeCache C : clear implicits.
Arguments mkCodeCache {C}.

#[export] Hint Resolve put_entries get_entries : runner.

(** ** Properties *)

Section properties.
Context {C : Type} `{!Lru (string * Z) string C}.

(** After any sequence of lookups and stores from a new cache, the byte
    count is the sum of the stored blobs, it is within the byte budget, and
    the number of entries is within the entry budget. *)
Theorem budgets_hold (max_entries : nat) (max : Z) (ops : list cache_op) :
  (0 < max_entries)%nat -> 0 <= max ->
  let c := foldl (fun c op => run_op op c) (cc_new (C := C) max_entries max) ops in
  cc_bytes c = total (lru_entries (entries c)) /\ 0 <= cc_bytes c <= max /\
  (length (lru_entries (entries c)) <= max_entries)%nat.
Proof.
  intros Hn Hm c.
  destruct (run_ops_refines ops _ _ (new_refines (C := C) max_entries max Hn Hm))
    as ([(Hok & Hb & _ & Hle) _] & Hmax & Hcap).
  destruct (lru_new_ok (C := C) max_entries Hn) as (_ & _ & Hc).
  destruct (lru_ok_wf _ Hok) as (_ & Hlen & _).
  fold c in Hok, Hb, Hle, Hmax, Hcap, Hlen. simpl in Hmax, Hcap.
  pose proof (total_nonneg (lru_entries (entries c))).
  split; [done|]. split; [lia|]. rewrite Hcap, Hc in Hlen. done.
Qed.

(** A blob that fits the byte budget is what the next lookup of its key
    gives, whatever the cache held; a blob over the budget leaves the cache
    as it was. *)
Theorem put_then_get (key : CacheKey) (blob : string) (c : CodeCache C) :
  cache_inv c ->
  if max_bytes c <? str_len blob then cc_put key blob c = c
  else (cc_get key (cc_put key blob c)).1 = Some blob.
Proof.
  intros Hinv. destruct (max_bytes c <? str_len blob) eqn:E; reflect_bools.
  - by apply put_over_budget.
  - destruct (put_entries key blob c Hinv E) as (Hinv' & _ & _ & rest & He & _).
    destruct (cc_get key (cc_put key blob c)) as [v c'] eqn:Hg.
    destruct (get_entries _ _ _ _ Hinv' Hg) as (_ & _ & _ & -> & _). simpl.
    rewrite He. simpl. by rewrite decide_True.
Qed.

(** The cache refines a map: after any sequence of operations, a lookup
    gives nothing or the blob of the last accepted put of its key. *)
Theorem cache_refines_map (max_entries : nat) (max : Z) (ops : list cache_op) (key : CacheKey) (v : string) :
  (0 < max_entries)%nat -> 0 <= max ->
  (cc_get key (foldl (fun c op => run_op op c) (cc_new (C := C) max_entries max) ops)).1 = Some v ->
  foldl (fun m op => run_abs max op m) ∅ ops !! key = Some v.
Proof.
  intros Hn Hm Hget.
  destruct (run_ops_refines ops _ _ (new_refines (C := C) max_entries max Hn Hm))
    as ([Hinv Href] & _ & _). simpl in Href.
  destruct (cc_get key _) as [v' c'] eqn:Hg in Hget. simpl in Hget. subst.
  destruct (get_entries _ _ _ _ Hinv Hg) as (_ & _ & _ & Hv & _). eauto.
Qed.

End properties.

(** A component is stored under a key of its own: for worker ids without
    a colon the key gives back its two parts, and no worker id is the key of
    a component. *)
Theorem wasm_id_injective (w1 w2 k1 k2 : string) :
  contains_char ":" w1 = false -> contains_char ":" w2 = false ->
  (wasm_id w1 k1 = wasm_id w2 k2 -> w1 = w2 /\ k1 = k2) /\ w1 <> wasm_id w2 k2.
Proof.
  intros H1 H2. split.
  - unfold wasm_id. intros H. apply app_inj_l in H.
    pose proof (rsplit_once_app ":" k1 w1 H1) as R1. simpl in H. rewrite H in R1.
    rewrite (rsplit_once_app ":" k2 w2 H2) in R1. by simplify_eq.
  - intros ->. unfold wasm_id in H1. rewrite contains_char_app in H1. done.
Qed.

Definition test_cache : CodeCache (list_lru (string * Z) string) :=
  foldl (fun c op => run_op op c) (cc_new 2 5)
    [OpPut ("a", 1) "xxx"; OpPut ("b", 1) "yy"; OpGet ("a", 1); OpPut ("c", 1) "z"].

Lemma budgets_hold_witness :
  cc_bytes test_cache = 4 /\ 0 <= cc_bytes test_cache <= 5 /\
  (length (lru_entries (entries test_cache)) <= 2)%nat.
Proof.
  split; [vm_compute; reflexivity|].
  apply (budgets_hold (C := list_lru (string * Z) string) 2 5
    [OpPut ("a", 1) "xxx"; OpPut ("b", 1) "yy"; OpGet ("a", 1); OpPut ("c", 1) "z"]); lia.
Defined.

Lemma put_then_get_witness :
  cache_inv test_cache /\ (cc_get ("d", 2) (cc_put ("d", 2) "hello" test_cache)).1 = Some "hello".
Proof.
  assert (Hinv : cache_inv test_cache).
  { split; [|vm_compute; intuition congruence]. unfold test_cache.
    split_and!; [|vm_compute; lia|vm_compute; lia].
    vm_compute. repeat constructor; set_solver. }
  split; [done|]. exact (put_then_get ("d", 2) "hello" test_cache Hinv).
Defined.

Lemma cache_refines_map_witness :
  foldl (fun m op => run_abs 5 op m) ∅
    [OpPut ("a", 1) "xxx"; OpPut ("b", 1) "yy"; OpGet ("a", 1); OpPut ("c", 1) "z"] !! ("a", 1)
  = Some "xxx".
Proof.
  apply (cache_refines_map (C := list_lru (string * Z) string) 2 5); [lia|lia|].
  vm_compute. reflexivity.
Defined.

Lemma wasm_id_injective_witness : "w" <> wasm_id "v" "engine".
Proof. apply (wasm_id_injective "w" "v" "k" "engine"); reflexivity. Defined.
