(* ===== verification/Limiter.v ===== *)
(** * Binding limiters (src/src/limiter.rs)

    A limiter counts the calls of a binding and holds a semaphore for the
    calls under way. The sequential model gives what one [acquire] answers;
    the step relation interleaves the atomic operations of any number of
    callers, with guards dropped, futures cancelled and resets. *)

From S2P Require Import Prelude RustStr Extern.

(** [openworkers_core::BindingLimit] and the fields of [RuntimeLimits] that
    the limiters read. *)
Record BindingLimit := mkLimit { bl_max_total : Z; bl_max_concurrent : Z }.

Record RuntimeLimits := mkLimits {
  fetch_limit : BindingLimit;
  kv_limit : BindingLimit;
  database_limit : BindingLimit;
  storage_limit : BindingLimit;
}.

Inductive LimitError : Type :=
| TotalExceeded (binding : string) (limit current : Z)
| SemaphoreClosed (binding : string).

(** [Display] of [LimitError]. *)
Definition LimitError_fmt (e : LimitError) : string :=
  match e with
  | TotalExceeded binding limit current =>
    "Binding limit exceeded: " +:+ binding +:+ " (" +:+ show_Z current +:+ "/" +:+
    show_Z limit +:+ " total calls per request)"
  | SemaphoreClosed binding => "Binding limiter closed: " +:+ binding
  end.

Section limiter.
Context {Sem : Type} `{!Semaphore Sem}.

Record BindingLimiter := mkLimiter {
  semaphore : option Sem;
  total_count : Z;
  max_total : Z;
  lim_name : string;
}.

Definition limiter_new (limit : BindingLimit) (name : string) : BindingLimiter :=
  mkLimiter
    (if 0 <? bl_max_concurrent limit then Some (sem_new (bl_max_concurrent limit)) else None)
    0 (bl_max_total limit) name.

Definition limiter_unlimited (name : string) : BindingLimiter := mkLimiter None 0 0 name.

(** [LimiterGuard]: whether it holds a permit. *)
Record LimiterGuard := mkGuard { has_permit : bool }.

Definition set_count (z : Z) (l : BindingLimiter) : BindingLimiter :=
  mkLimiter (semaphore l) z (max_total l) (lim_name l).
Definition set_sem (s : option Sem) (l : BindingLimiter) : BindingLimiter :=
  mkLimiter s (total_count l) (max_total l) (lim_name l).

(** The first part of [acquire]: one [fetch_add], which answers the count
    before it. The caller goes on, or it has to undo the increment. *)
Definition acquire_count (l : BindingLimiter) : BindingLimiter * option Z :=
  if 0 <? max_total l then
    let current := total_count l in
    let l := set_count (wrap_u32 (current + 1)) l in
    if max_total l <=? current then (l, Some current) else (l, None)
  else (l, None).

(** The undo of the increment, and the error: [current + 1] is computed on
    [u32]. *)
Definition acquire_undo (current : Z) (l : BindingLimiter) : BindingLimiter * LimitError :=
  (set_count (wrap_u32 (total_count l - 1)) l,
   TotalExceeded (lim_name l) (max_total l) (current + 1)).

(** The second part: a permit of the semaphore, if there is one. [None]: the
    caller waits. *)
Definition acquire_permit (l : BindingLimiter) : option (BindingLimiter * LimiterGuard) :=
  match semaphore l with
  | Some s =>
    match try_acquire s with
    | Some s' => Some (set_sem (Some s') l, mkGuard true)
    | None => None
    end
  | None => Some (l, mkGuard false)
  end.

(** [acquire] by one caller at a time; [None]: it waits for a slot. *)
Definition acquire (l : BindingLimiter) :
  BindingLimiter * option (result LimiterGuard LimitError) :=
  match acquire_count l with
  | (l, Some current) => let '(l, e) := acquire_undo current l in (l, Some (Err e))
  | (l, None) =>
    match acquire_permit l with
    | Some (l, g) => (l, Some (Ok g))
    | None => (l, None)
    end
  end.

Definition drop_guard (g : LimiterGuard) (l : BindingLimiter) : BindingLimiter :=
  match semaphore l with
  | Some s => if has_permit g then set_sem (Some (release 1 s)) l else l
  | None => l
  end.

Definition lim_count (l : BindingLimiter) : Z := total_count l.

Definition lim_available_permits (l : BindingLimiter) : Z :=
  match semaphore l with Some s => available_permits s | None => U64_MAX end.

Definition lim_reset (l : BindingLimiter) : BindingLimiter := set_count 0 l.

Record BindingLimiters := mkLimiters {
  l_fetch : BindingLimiter;
  l_kv : BindingLimiter;
  l_database : BindingLimiter;
  l_storage : BindingLimiter;
}.

Definition limiters_new (limits : RuntimeLimits) : BindingLimiters :=
  mkLimiters (limiter_new (fetch_limit limits) "fetch") (limiter_new (kv_limit limits) "kv")
    (limiter_new (database_limit limits) "database") (limiter_new (storage_limit limits) "storage").

Definition limiters_for_object (limits : RuntimeLimits) : BindingLimiters :=
  let concurrent limit := mkLimit 0 (bl_max_concurrent limit) in
  mkLimiters (limiter_unlimited "fetch") (limiter_new (concurrent (kv_limit limits)) "kv")
    (limiter_new (concurrent (database_limit limits)) "database")
    (limiter_new (concurrent (storage_limit limits)) "storage").

Definition limiters_unlimited : BindingLimiters :=
  mkLimiters (limiter_unlimited "fetch") (limiter_unlimited "kv")
    (limiter_unlimited "database") (limiter_unlimited "storage").

Definition reset_all (l : BindingLimiters) : BindingLimiters :=
  mkLimiters (lim_reset (l_fetch l)) (lim_reset (l_kv l))
    (lim_reset (l_database l)) (lim_reset (l_storage l)).

(** ** Interleavings

    A caller is idle, about to undo its increment, waiting for a permit, or
    holding its guard. [admitted] counts, since the last reset, the callers
    that passed the total limit. *)
Inductive caller : Type :=
| Idle
| Undoing (current : Z)
| Waiting
| Holding (g : LimiterGuard).

Record sys := mkSys { sys_lim : BindingLimiter; callers : list caller; passed : Z }.

Inductive step : sys -> sys -> Prop :=
| step_pass s i l :
    callers s !! i = Some Idle -> acquire_count (sys_lim s) = (l, None) ->
    step s (mkSys l (<[i := Waiting]> (callers s)) (passed s + 1))
| step_exceed s i l current :
    callers s !! i = Some Idle -> acquire_count (sys_lim s) = (l, Some current) ->
    step s (mkSys l (<[i := Undoing current]> (callers s)) (passed s))
| step_undo s i current l e :
    callers s !! i = Some (Undoing current) -> acquire_undo current (sys_lim s) = (l, e) ->
    step s (mkSys l (<[i := Idle]> (callers s)) (passed s))
| step_permit s i l g :
    callers s !! i = Some Waiting -> acquire_permit (sys_lim s) = Some (l, g) ->
    step s (mkSys l (<[i := Holding g]> (callers s)) (passed s))
| step_cancel s i :
    callers s !! i = Some Waiting ->
    step s (mkSys (sys_lim s) (<[i := Idle]> (callers s)) (passed s))
| step_drop s i g :
    callers s !! i = Some (Holding g) ->
    step s (mkSys (drop_guard g (sys_lim s)) (<[i := Idle]> (callers s)) (passed s))
| step_reset s :
    (** between two requests: no caller is inside [acquire] *)
    Forall (fun c => match c with Undoing _ => False | _ => True end) (callers s) ->
    step s (mkSys (lim_reset (sys_lim s)) (callers s) 0).

Definition init (limit : BindingLimit) (name : string) (n : nat) : sys :=
  mkSys (limiter_new limit name) (replicate n Idle) 0.

Definition undoing (c : caller) : bool := match c with Undoing _ => true | _ => false end.
Definition holding (c : caller) : bool :=
  match c with Holding g => has_permit g | _ => false end.

(** The operations under way. *)
Definition under_way (c : caller) : bool := match c with Holding _ => true | _ => false end.

Definition inv (limit : BindingLimit) (s : sys) : Prop :=
  max_total (sys_lim s) = bl_max_total limit /\
  (0 < bl_max_total limit ->
    total_count (sys_lim s) = passed s + countb undoing (callers s) /\
    0 <= passed s <= bl_max_total limit) /\
  (if 0 <? bl_max_concurrent limit then
     exists sem, semaphore (sys_lim s) = Some sem /\
       available_permits sem + countb holding (callers s) = bl_max_concurrent limit /\
       Forall (fun c => match c with Holding g => has_permit g = true | _ => True end) (callers s)
   else semaphore (sys_lim s) = None).

Lemma inv_init limit name n : 0 <= bl_max_total limit -> inv limit (init limit name n).
Proof.
  intros Ht. unfold inv, init, limiter_new. simpl.
  assert (Hc : forall p, p Idle = false -> countb p (replicate n Idle) = 0).
  { intros p Hp. induction n; simpl; [done|]. rewrite Hp, IHn. done. }
  split; [done|]. split.
  - rewrite (Hc undoing eq_refl). lia.
  - destruct (0 <? bl_max_concurrent limit) eqn:E; reflect_bools; [|done].
    eexists. split; [done|]. rewrite (Hc holding eq_refl), sem_new_available by lia.
    split; [lia|]. apply Forall_replicate. done.
Qed.

Lemma acquire_count_spec l l' o :
  acquire_count l = (l', o) ->
  semaphore l' = semaphore l /\ max_total l' = max_total l /\
  (0 < max_total l -> total_count l' = wrap_u32 (total_count l + 1) /\
     (o = None <-> total_count l < max_total l)).
Proof.
  unfold acquire_count. intros H. destruct (0 <? max_total l) eqn:E; reflect_bools.
  - simpl in H. destruct (max_total l <=? total_count l) eqn:E2; reflect_bools; simplify_eq/=;
      (split; [done|]; split; [done|]; intros _; split; [done|]; split; intros; try done; lia).
  - simplify_eq. split; [done|]. split; [done|]. lia.
Qed.

Ltac count_upd Hi := rewrite ?(countb_insert _ _ _ _ _ Hi); simpl.

Lemma wrap_small z : 0 <= z < 2 ^ 32 -> wrap_u32 z = z.
Proof. intros. by apply Z.mod_small. Qed.

Lemma step_callers s s' : step s s' -> length (callers s') = length (callers s).
Proof. destruct 1; simpl; by rewrite ?length_insert. Qed.

Lemma inv_step limit s s' :
  bl_max_total limit + Z.of_nat (length (callers s)) < 2 ^ 32 ->
  inv limit s -> step s s' -> inv limit s'.
Proof.
  intros Hsmall (Hmax & Ht & Hc) Hstep.
  pose proof (countb_length undoing (callers s)) as Hlen.
  pose proof (countb_nonneg undoing (callers s)) as Hnn.
  destruct Hstep as [s i l Hi Hac|s i l current Hi Hac|s i current l e Hi Hun
    |s i l g Hi Hp|s i Hi|s i g Hi|s Hall]; unfold inv; simpl.
  - destruct (acquire_count_spec _ _ _ Hac) as (Hs & Hm & Hcnt).
    rewrite Hm, Hs, Hmax in *. split; [done|]. split.
    + intros Hpos. destruct (Ht Hpos) as [Hcount Hpass]. destruct (Hcnt Hpos) as [-> Hiff].
      pose proof (proj1 Hiff eq_refl). count_upd Hi. rewrite wrap_small by lia. lia.
    + case_match; [|done]. destruct Hc as (sem & ? & ? & ?). exists sem. split; [done|].
      count_upd Hi. split; [lia|]. by apply Forall_insert.
  - destruct (acquire_count_spec _ _ _ Hac) as (Hs & Hm & Hcnt).
    rewrite Hm, Hs, Hmax in *. split; [done|]. split.
    + intros Hpos. destruct (Ht Hpos) as [Hcount Hpass]. destruct (Hcnt Hpos) as [-> _].
      pose proof (countb_length undoing (<[i:=Undoing current]> (callers s))) as Hlen'.
      rewrite length_insert in Hlen'. revert Hlen'. count_upd Hi. intros Hlen'. rewrite wrap_small by lia. lia.
    + case_match; [|done]. destruct Hc as (sem & ? & ? & ?). exists sem. split; [done|].
      count_upd Hi. split; [lia|]. by apply Forall_insert.
  - unfold acquire_undo in Hun. simplify_eq/=. split; [done|]. split.
    + intros Hpos. destruct (Ht Hpos) as [Hcount Hpass]. count_upd Hi.
      pose proof (countb_pos undoing _ _ (list_elem_of_lookup_2 _ _ _ Hi) eq_refl).
      rewrite wrap_small by lia. lia.
    + case_match; [|done]. destruct Hc as (sem & ? & ? & ?). exists sem. split; [done|].
      count_upd Hi. split; [lia|]. by apply Forall_insert.
  - unfold acquire_permit in Hp. destruct (semaphore (sys_lim s)) as [sem|] eqn:Hsem.
    + destruct (try_acquire sem) as [sem'|] eqn:Hta; simplify_eq/=.
      destruct (try_acquire_many_Some 1 sem sem' ltac:(lia) Hta).
      split; [done|]. split; [count_upd Hi; intros Hpos; specialize (Ht Hpos); lia|].
      case_match; [|done]. destruct Hc as (sem0 & ? & ? & ?). simplify_eq. exists sem'.
      split; [done|]. count_upd Hi. split; [lia|]. by apply Forall_insert.
    + simplify_eq/=. split; [done|]. split; [count_upd Hi; intros Hpos; specialize (Ht Hpos); lia|].
      case_match; [|done]. by destruct Hc as (? & ? & _).
  - split; [done|]. split; [count_upd Hi; intros Hpos; specialize (Ht Hpos); lia|].
    case_match; [|done]. destruct Hc as (sem & ? & ? & ?). exists sem. split; [done|].
    count_upd Hi. split; [lia|]. by apply Forall_insert.
  - unfold drop_guard. destruct (0 <? bl_max_concurrent limit) eqn:E.
    + destruct Hc as (sem & Hsem & Hav & Hall). rewrite Hsem.
      pose proof (Forall_lookup_1 _ _ _ _ Hall Hi) as Hg. simpl in Hg. rewrite Hg. simpl.
      split; [done|]. split; [count_upd Hi; intros Hpos; specialize (Ht Hpos); lia|].
      exists (release 1 sem). split; [done|]. count_upd Hi. rewrite Hg, release_available by lia.
      split; [lia|]. by apply Forall_insert.
    + rewrite Hc. split; [done|]. split; [count_upd Hi; intros Hpos; specialize (Ht Hpos); lia|]. done.
  - split; [done|]. split; [|done]. intros Hpos.
    assert (countb undoing (callers s) = 0) as ->; [|lia].
    clear -Hall. induction Hall as [|c l Hc _ IH]; simpl; [done|]. rewrite IH. by destruct c.
Qed.

Lemma inv_reachable limit name n s :
  0 <= bl_max_total limit -> bl_max_total limit + Z.of_nat n < 2 ^ 32 ->
  rtc step (init limit name n) s -> inv limit s.
Proof.
  intros Ht Hn Hr.
  assert (H : inv limit s /\ length (callers s) = n); [|apply H].
  eapply (rtc_invariant _ (fun s => inv limit s /\ length (callers s) = n)); [| |exact Hr].
  - intros a b [Ha Hl] Hab. rewrite (step_callers _ _ Hab). split; [|done].
    eapply inv_step; [|done|done]. by rewrite Hl.
  - split; [by apply inv_init|]. simpl. apply length_replicate.
Qed.

(** Calls made one after the other, each guard kept. *)
Fixpoint acquire_n (n : nat) (l : BindingLimiter) :
  BindingLimiter * list (option (result LimiterGuard LimitError)) :=
  match n with
  | O => (l, [])
  | S n => let '(l, r) := acquire l in
           let '(l, rs) := acquire_n n l in (l, r :: rs)
  end.

Definition granted (r : option (result LimiterGuard LimitError)) : bool :=
  match r with Some (Ok _) => true | _ => false end.

(** [acquire] without a semaphore, on every branch. *)
Lemma acquire_no_semaphore l :
  semaphore l = None -> 0 < max_total l < 2 ^ 32 - 1 -> 0 <= total_count l <= max_total l ->
  acquire l =
  if total_count l <? max_total l
  then (set_count (total_count l + 1) l, Some (Ok (mkGuard false)))
  else (set_count (total_count l) l,
        Some (Err (TotalExceeded (lim_name l) (max_total l) (total_count l + 1)))).
Proof.
  intros Hs Hm Hc. unfold acquire, acquire_count.
  rewrite (proj2 (Z.ltb_lt 0 _)) by lia. cbn.
  rewrite (wrap_small (total_count l + 1)) by lia.
  destruct (Z.leb_spec (max_total l) (total_count l)).
  - rewrite (proj2 (Z.ltb_ge (total_count l) _)) by lia. cbn.
    replace (total_count l + 1 - 1) with (total_count l) by lia. by rewrite wrap_small by lia.
  - rewrite (proj2 (Z.ltb_lt (total_count l) _)) by lia. unfold acquire_permit. cbn. by rewrite Hs.
Qed.

Lemma acquire_n_counts n l :
  semaphore l = None -> 0 < max_total l < 2 ^ 32 - 1 -> 0 <= total_count l <= max_total l ->
  let '(l', rs) := acquire_n n l in
  semaphore l' = None /\ max_total l' = max_total l /\
  total_count l' = Z.min (max_total l) (total_count l + Z.of_nat n) /\
  countb granted rs = total_count l' - total_count l.
Proof.
  revert l; induction n as [|n IH]; intros l Hs Hm Hc; cbn [acquire_n].
  { split; [done|]. split; [done|]. simpl. lia. }
  rewrite acquire_no_semaphore by done.
  destruct (Z.ltb_spec (total_count l) (max_total l)); set (l1 := set_count _ _);
    (pose proof (IH l1 Hs Hm ltac:(simpl; lia)) as H1;
     destruct (acquire_n n l1) as [l' rs]; simpl in *; intuition lia).
Qed.

End limiter.

Arguments BindingLimiter Sem : clear implicits.
Arguments sys Sem : clear implicits.

(** ** Properties *)

Section properties.
Context {Sem : Type} `{!Semaphore Sem}.

(** Whatever the interleaving of the callers, the calls that pass the
    total limit since the last reset never exceed [max_total], and the
    operations under way never exceed [max_concurrent]; each operation under
    way holds one permit of the semaphore. *)
Theorem limits_hold (limit : BindingLimit) (name : string) (n : nat) (s : sys Sem) :
  0 <= bl_max_total limit -> bl_max_total limit + Z.of_nat n < 2 ^ 32 ->
  rtc step (init limit name n) s ->
  (0 < bl_max_total limit -> 0 <= passed s <= bl_max_total limit) /\
  (0 < bl_max_concurrent limit ->
     countb under_way (callers s) <= bl_max_concurrent limit /\
     lim_available_permits (sys_lim s) =
       bl_max_concurrent limit - countb under_way (callers s)).
Proof.
  intros Ht Hn Hr. destruct (inv_reachable _ _ _ _ Ht Hn Hr) as (Hmax & Htot & Hc).
  split; [intros Hpos; apply Htot; done|]. intros Hpos.
  rewrite (proj2 (Z.ltb_lt _ _)) in Hc by lia. destruct Hc as (sem & Hsem & Hav & Hall).
  assert (Heq : countb under_way (callers s) = countb holding (callers s)).
  { apply countb_ext. intros c Hin. rewrite Forall_forall in Hall. specialize (Hall c Hin).
    by destruct c.  }
  unfold lim_available_permits. rewrite Hsem. pose proof (available_nonneg sem). lia.
Qed.

(** One caller after the other: of [n] calls on a fresh limiter with a
    total limit and no concurrency limit, exactly the first [max_total] are
    granted, and the count stays at the limit; a reset lets as many again. *)
Theorem sequential_total (limit : BindingLimit) (name : string) (n : nat) :
  0 < bl_max_total limit < 2 ^ 32 - 1 -> bl_max_concurrent limit = 0 ->
  let '(l, rs) := acquire_n n (limiter_new (Sem := Sem) limit name) in
  countb granted rs = Z.min (bl_max_total limit) (Z.of_nat n) /\
  lim_count l = Z.min (bl_max_total limit) (Z.of_nat n) /\
  countb granted (acquire_n n (lim_reset l)).2 = Z.min (bl_max_total limit) (Z.of_nat n).
Proof.
  intros Ht Hc. unfold limiter_new. rewrite Hc. simpl.
  set (l0 := mkLimiter None 0 (bl_max_total limit) name).
  pose proof (acquire_n_counts n l0 eq_refl Ht ltac:(simpl; lia)) as H.
  destruct (acquire_n n l0) as [l rs]. simpl in H. destruct H as (Hs & Hm & H).
  pose proof (acquire_n_counts n (lim_reset l)) as H2. simpl in H2. rewrite Hm in H2.
  specialize (H2 Hs Ht ltac:(lia)).
  destruct (acquire_n n (lim_reset l)) as [l2 rs2]. unfold lim_count. simpl. lia.
Qed.

End properties.

(** Two callers on one slot: the first holds its guard, the second waits,
    and a third call is over the total limit. *)
Definition run_two : sys N :=
  mkSys (mkLimiter (Some 0%N) 2 2 "kv") [Holding (mkGuard true); Waiting] 2.

Lemma run_two_reachable : rtc step (init (mkLimit 2 1) "kv" 2) run_two.
Proof.
  eapply rtc_l; [apply (step_pass _ 0 (mkLimiter (Some 1%N) 1 2 "kv")); reflexivity|].
  eapply rtc_l; [apply (step_permit _ 0 (mkLimiter (Some 0%N) 1 2 "kv") (mkGuard true)); reflexivity|].
  eapply rtc_l; [apply (step_pass _ 1 (mkLimiter (Some 0%N) 2 2 "kv")); reflexivity|].
  apply rtc_refl.
Qed.

Lemma limits_hold_witness :
  rtc step (init (mkLimit 2 1) "kv" 2) run_two /\ passed run_two = 2 /\
  countb under_way (callers run_two) <= 1 /\ lim_available_permits (sys_lim run_two) = 0.
Proof.
  split; [exact run_two_reachable|]. split; [reflexivity|].
  destruct (limits_hold (mkLimit 2 1) "kv" 2 run_two) as [_ H];
    [simpl; lia|simpl; lia|exact run_two_reachable|].
  apply H. simpl. lia.
Defined.

Lemma sequential_total_witness :
  (countb granted (acquire_n 5 (limiter_new (Sem := N) (mkLimit 3 0) "fetch")).2 = 3).
Proof.
  pose proof (sequential_total (Sem := N) (mkLimit 3 0) "fetch" 5) as H.
  specialize (H ltac:(simpl; lia) eq_refl).
  destruct (acquire_n 5 _) as [l rs]. simpl in *. lia.
Defined.
