(* ===== verification/NetGuard.v ===== *)
(** * The egress guard (src/src/services/net_guard.rs)

    An IPv4 address is a number below 2^32 and an IPv6 address a number below
    2^128, in network order. The URL parser, the resolver and the text form
    of an address are parameters. *)

From S2P Require Import Prelude RustStr.

Inductive IpAddr : Type :=
| V4 (ip : Z)
| V6 (ip : Z).

#[export] Instance IpAddr_eq_dec : EqDecision IpAddr.
Proof. solve_decision. Defined.

Definition ip_wf (ip : IpAddr) : Prop :=
  match ip with
  | V4 a => 0 <= a < 2 ^ 32
  | V6 a => 0 <= a < 2 ^ 128
  end.

(** ** [std::net] *)

(** [octets()[i]] and [segments()[i]] *)
Definition octet (i ip : Z) : Z := (ip / 2 ^ (24 - 8 * i)) mod 256.
Definition segment (i ip : Z) : Z := (ip / 2 ^ (112 - 16 * i)) mod 65536.

Definition v4_is_unspecified (ip : Z) : bool := ip =? 0.
Definition v4_is_loopback (ip : Z) : bool := octet 0 ip =? 127.
Definition v4_is_private (ip : Z) : bool :=
  (octet 0 ip =? 10) ||
  ((octet 0 ip =? 172) && (16 <=? octet 1 ip) && (octet 1 ip <=? 31)) ||
  ((octet 0 ip =? 192) && (octet 1 ip =? 168)).
Definition v4_is_link_local (ip : Z) : bool := (octet 0 ip =? 169) && (octet 1 ip =? 254).
Definition v4_is_broadcast (ip : Z) : bool := ip =? 2 ^ 32 - 1.
Definition v4_is_documentation (ip : Z) : bool :=
  ((octet 0 ip =? 192) && (octet 1 ip =? 0) && (octet 2 ip =? 2)) ||
  ((octet 0 ip =? 198) && (octet 1 ip =? 51) && (octet 2 ip =? 100)) ||
  ((octet 0 ip =? 203) && (octet 1 ip =? 0) && (octet 2 ip =? 113)).

Definition v6_is_unspecified (ip : Z) : bool := ip =? 0.
Definition v6_is_loopback (ip : Z) : bool := ip =? 1.
Definition v6_is_multicast (ip : Z) : bool := Z.land (segment 0 ip) 65280 =? 65280.

(** [to_ipv4_mapped]: the address of [::ffff:a.b.c.d]. *)
Definition to_ipv4_mapped (ip : Z) : option Z :=
  if ip / 2 ^ 32 =? 65535 then Some (ip mod 2 ^ 32) else None.

Definition to_canonical (ip : IpAddr) : IpAddr :=
  match ip with
  | V4 a => V4 a
  | V6 a => match to_ipv4_mapped a with Some b => V4 b | None => V6 a end
  end.

(** ** The guard *)

Definition ALLOW_PRIVATE_NETWORK (env : string -> option string) : bool :=
  match env "FETCH_ALLOW_PRIVATE_NETWORK" with
  | Some v => String.eqb v "1" || eq_ignore_ascii_case v "true"
  | None => false
  end.

Inductive EgressPolicy : Type := Unrestricted | PublicOnly.

Definition ipv4_is_public (ip : Z) : bool :=
  if v4_is_unspecified ip || v4_is_loopback ip || v4_is_private ip || v4_is_link_local ip
     || v4_is_broadcast ip || v4_is_documentation ip
  then false
  else
    let a := octet 0 ip in
    let b := octet 1 ip in
    if (a =? 100) && (64 <=? b) && (b <=? 127) then false
    else if (a =? 192) && (b =? 0) && (octet 2 ip =? 0) then false
    else if (a =? 198) && ((b =? 18) || (b =? 19)) then false
    else if 240 <=? a then false
    else true.

Definition ipv6_is_public (ip : Z) : bool :=
  if v6_is_unspecified ip || v6_is_loopback ip || v6_is_multicast ip then false
  else
    let first := segment 0 ip in
    if Z.land first 65024 =? 64512 then false
    else if Z.land first 65472 =? 65152 then false
    else if (first =? 8193) && (segment 1 ip =? 3512) then false
    else true.

Definition ip_is_public (ip : IpAddr) : bool :=
  match ip with
  | V4 v4 => ipv4_is_public v4
  | V6 v6 =>
    match to_ipv4_mapped v6 with
    | Some v4 => ipv4_is_public v4
    | None => ipv6_is_public v6
    end
  end.

Definition blocked_msg (host : string) : string :=
  "fetch to non-public address is not allowed: " +:+ host.

(** [url::Host] *)
Inductive Host : Type :=
| HDomain (d : string)
| HIpv4 (ip : Z)
| HIpv6 (ip : Z).

Section guard.
Variable ip_to_string : IpAddr -> string.
(** [url::Url::parse], and the host of what it gives *)
Variable url_parse : string -> result (option Host) string.
(** [tokio::net::lookup_host] *)
Variable lookup_host : string -> Z -> result (list IpAddr) string.

Definition guard_url_host (env : string -> option string) (url : string) : result unit string :=
  if ALLOW_PRIVATE_NETWORK env then Ok tt else
  parsed <-? result_map_err (fun e => "invalid URL: " +:+ e) (url_parse url);
  match parsed with
  | Some (HIpv4 ip) =>
    if negb (ip_is_public (V4 ip)) then Err (blocked_msg (ip_to_string (V4 ip))) else Ok tt
  | Some (HIpv6 ip) =>
    if negb (ip_is_public (V6 ip)) then Err (blocked_msg (ip_to_string (V6 ip))) else Ok tt
  | Some (HDomain _) => Ok tt
  | None => Err "URL has no host"
  end.

(** The loop over the addresses: the first one that is not public refuses. *)
Fixpoint check_addrs (addrs : list IpAddr) : result unit string :=
  match addrs with
  | [] => Ok tt
  | a :: addrs =>
    if negb (ip_is_public a) then Err (blocked_msg (ip_to_string a)) else check_addrs addrs
  end.

Definition guard_tcp_host (env : string -> option string) (host : string) (port : Z) :
  result unit string :=
  if ALLOW_PRIVATE_NETWORK env then Ok tt else
  addrs <-? result_map_err (fun e => "cannot resolve " +:+ host +:+ ": " +:+ e)
              (lookup_host host port);
  check_addrs addrs.

(** [FilteringResolver::resolve] *)
Definition resolve (host : string) : result (list IpAddr) string :=
  addrs <-? lookup_host host 0;
  _ <-? check_addrs addrs;
  Ok addrs.

Lemma check_addrs_Ok addrs :
  check_addrs addrs = Ok tt <-> Forall (fun a => ip_is_public a = true) addrs.
Proof.
  induction addrs as [|a l IH]; simpl; [done|].
  rewrite Forall_cons. destruct (ip_is_public a); simpl; naive_solver.
Qed.

End guard.

(** ** Reference: networks in CIDR form *)

Record net := mkNet { net_base : Z; net_len : Z }.

Definition in_net (w : Z) (n : net) (ip : Z) : bool :=
  ip / 2 ^ (w - net_len n) =? net_base n / 2 ^ (w - net_len n).

Definition v4_net (a b c d len : Z) : net :=
  mkNet (a * 2 ^ 24 + b * 2 ^ 16 + c * 2 ^ 8 + d) len.

Definition BLOCKED_V4 : list net :=
  [v4_net 0 0 0 0 32; v4_net 127 0 0 0 8;
   v4_net 10 0 0 0 8; v4_net 172 16 0 0 12; v4_net 192 168 0 0 16;
   v4_net 169 254 0 0 16; v4_net 255 255 255 255 32;
   v4_net 192 0 2 0 24; v4_net 198 51 100 0 24; v4_net 203 0 113 0 24;
   v4_net 100 64 0 0 10; v4_net 192 0 0 0 24; v4_net 198 18 0 0 15; v4_net 240 0 0 0 4].

(** The first two segments and the prefix length. *)
Definition v6_net (s0 s1 len : Z) : net := mkNet (s0 * 2 ^ 112 + s1 * 2 ^ 96) len.

Definition BLOCKED_V6 : list net :=
  [mkNet 0 128; mkNet 1 128; v6_net 65280 0 8; v6_net 64512 0 7; v6_net 65152 0 10;
   v6_net 8193 3512 32].

(** A mask that keeps the high bits of a 16-bit segment compares a quotient. *)
Lemma land_high x k : 0 <= x < 2 ^ 16 -> 0 <= k <= 16 ->
  Z.land x (2 ^ 16 - 2 ^ k) = x / 2 ^ k * 2 ^ k.
Proof.
  intros Hx Hk. rewrite <- Z.shiftr_div_pow2, <- Z.shiftl_mul_pow2 by lia.
  assert (Hm : 2 ^ 16 - 2 ^ k = Z.shiftl (Z.ones (16 - k)) k).
  { rewrite Z.shiftl_mul_pow2, Z.ones_equiv by lia.
    replace (2 ^ 16) with (2 ^ (16 - k) * 2 ^ k) by (rewrite <- Z.pow_add_r by lia; f_equal; lia).
    lia. }
  rewrite Hm. apply Z.bits_inj'. intros n Hn.
  rewrite Z.land_spec, !Z.shiftl_spec by lia.
  destruct (Z.ltb_spec n k).
  - rewrite !(Z.testbit_neg_r _ (n - k)) by lia. apply andb_false_r.
  - rewrite Z.shiftr_spec by lia. replace (n - k + k) with n by lia.
    destruct (Z.ltb_spec n 16).
    + rewrite Z.ones_spec_low by lia. apply andb_true_r.
    + rewrite Z.ones_spec_high by lia. rewrite andb_false_r. symmetry.
      destruct (Z.eq_dec x 0) as [->|]; [apply Z.bits_0|].
      apply Z.bits_above_log2; [lia|].
      assert (Z.log2 x < 16) by (apply Z.log2_lt_pow2; lia). lia.
Qed.

Lemma segment_range i ip : 0 <= segment i ip < 2 ^ 16.
Proof. apply Z.mod_pos_bound. lia. Qed.

Lemma bool_iff (a b : bool) : (a = true <-> b = true) -> a = b.
Proof. destruct a, b; naive_solver. Qed.

Lemma negb_if_false (p q : bool) : negb (if p then false else q) = (p || negb q)%bool.
Proof. by destruct p. Qed.

Ltac to_prop :=
  rewrite ?orb_true_iff, ?andb_true_iff, ?Z.eqb_eq, ?Z.leb_le, ?Z.ltb_lt.

(** A network is an interval. *)
Lemma in_net_interval w n ip :
  0 <= net_len n <= w -> (net_base n) mod 2 ^ (w - net_len n) = 0 ->
  in_net w n ip = ((net_base n <=? ip) && (ip <? net_base n + 2 ^ (w - net_len n))).
Proof.
  intros Hl Hb. unfold in_net. set (m := 2 ^ (w - net_len n)) in *.
  assert (0 < m) by (apply Z.pow_pos_nonneg; lia).
  apply bool_iff. to_prop. apply Z.div_exact in Hb; [|lia].
  rewrite Hb. rewrite (Z.mul_comm m), Z.div_mul by lia. split; intros Hi.
  - rewrite <- Hi. pose proof (Z.div_mod ip m). pose proof (Z.mod_pos_bound ip m). lia.
  - symmetry. apply (Z.div_unique _ _ _ (ip - net_base n / m * m)); lia.
Qed.

(** The octets of an address. *)
Lemma octets_of ip : 0 <= ip < 2 ^ 32 ->
  exists a b c d, ip = a * 16777216 + b * 65536 + c * 256 + d /\
    0 <= a < 256 /\ 0 <= b < 256 /\ 0 <= c < 256 /\ 0 <= d < 256 /\
    octet 0 ip = a /\ octet 1 ip = b /\ octet 2 ip = c.
Proof.
  intros Hip. exists (octet 0 ip), (octet 1 ip), (octet 2 ip), (ip mod 256). unfold octet.
  change (24 - 8 * 0) with 24. change (24 - 8 * 1) with 16. change (24 - 8 * 2) with 8.
  split_and!; try done; div_lia.
Qed.

(** One test of the code against networks: both sides as linear constraints
    on the octets. *)
Ltac octet_net Hip :=
  apply bool_iff; rewrite !in_net_interval by (vm_compute; intuition congruence);
  let a := fresh "a" in let b := fresh "b" in let c := fresh "c" in let d := fresh "d" in
  destruct (octets_of _ Hip) as (a & b & c & d & -> & ? & ? & ? & ? & Ea & Eb & Ec);
  unfold v4_is_unspecified, v4_is_loopback, v4_is_private, v4_is_link_local, v4_is_broadcast,
    v4_is_documentation;
  rewrite ?Ea, ?Eb, ?Ec; clear Ea Eb Ec; simpl net_base; simpl net_len; to_prop;
  eval_pows; lia.

Lemma v4_std_blocked ip : 0 <= ip < 2 ^ 32 ->
  v4_is_unspecified ip = in_net 32 (v4_net 0 0 0 0 32) ip /\
  v4_is_loopback ip = in_net 32 (v4_net 127 0 0 0 8) ip /\
  v4_is_private ip = (in_net 32 (v4_net 10 0 0 0 8) ip || in_net 32 (v4_net 172 16 0 0 12) ip
                      || in_net 32 (v4_net 192 168 0 0 16) ip) /\
  v4_is_link_local ip = in_net 32 (v4_net 169 254 0 0 16) ip /\
  v4_is_broadcast ip = in_net 32 (v4_net 255 255 255 255 32) ip /\
  v4_is_documentation ip =
    (in_net 32 (v4_net 192 0 2 0 24) ip || in_net 32 (v4_net 198 51 100 0 24) ip
     || in_net 32 (v4_net 203 0 113 0 24) ip).
Proof. intros Hip. split_and!; octet_net Hip. Qed.

Lemma v4_own_blocked ip : 0 <= ip < 2 ^ 32 ->
  ((octet 0 ip =? 100) && (64 <=? octet 1 ip) && (octet 1 ip <=? 127)) =
    in_net 32 (v4_net 100 64 0 0 10) ip /\
  ((octet 0 ip =? 192) && (octet 1 ip =? 0) && (octet 2 ip =? 0)) =
    in_net 32 (v4_net 192 0 0 0 24) ip /\
  ((octet 0 ip =? 198) && ((octet 1 ip =? 18) || (octet 1 ip =? 19))) =
    in_net 32 (v4_net 198 18 0 0 15) ip /\
  (240 <=? octet 0 ip) = in_net 32 (v4_net 240 0 0 0 4) ip.
Proof. intros Hip. split_and!; octet_net Hip. Qed.

Lemma v4_blocked ip : 0 <= ip < 2 ^ 32 ->
  negb (ipv4_is_public ip) = existsb (fun n => in_net 32 n ip) BLOCKED_V4.
Proof.
  intros Hip. destruct (v4_std_blocked ip Hip) as (E1 & E2 & E3 & E4 & E5 & E6).
  destruct (v4_own_blocked ip Hip) as (E7 & E8 & E9 & E10).
  unfold ipv4_is_public. cbv zeta. rewrite E1, E2, E3, E4, E5, E6, E7, E8, E9, E10.
  cbv zeta. rewrite !negb_if_false. unfold BLOCKED_V4, existsb. by rewrite !orb_assoc.
Qed.

Lemma v6_own_blocked ip : 0 <= ip < 2 ^ 128 ->
  v6_is_unspecified ip = in_net 128 (mkNet 0 128) ip /\
  v6_is_loopback ip = in_net 128 (mkNet 1 128) ip /\
  v6_is_multicast ip = in_net 128 (v6_net 65280 0 8) ip /\
  (Z.land (segment 0 ip) 65024 =? 64512) = in_net 128 (v6_net 64512 0 7) ip /\
  (Z.land (segment 0 ip) 65472 =? 65152) = in_net 128 (v6_net 65152 0 10) ip /\
  ((segment 0 ip =? 8193) && (segment 1 ip =? 3512)) = in_net 128 (v6_net 8193 3512 32) ip.
Proof.
  intros Hip. pose proof (segment_range 0 ip) as Hs. unfold v6_is_multicast.
  change 65280 with (2 ^ 16 - 2 ^ 8) at 1 2. change 65024 with (2 ^ 16 - 2 ^ 9).
  change 65472 with (2 ^ 16 - 2 ^ 6). rewrite !land_high by lia.
  unfold v6_is_unspecified, v6_is_loopback, segment in *.
  change (112 - 16 * 0) with 112 in *. change (112 - 16 * 1) with 96.
  assert (H : (ip / 2 ^ 112) mod 65536 = ip / 2 ^ 112) by (apply Z.mod_small; div_lia).
  rewrite H. clear H Hs.
  split_and!; apply bool_iff; rewrite in_net_interval by (vm_compute; intuition congruence);
    simpl net_base; simpl net_len; to_prop; div_lia.
Qed.

Lemma v6_blocked ip : 0 <= ip < 2 ^ 128 ->
  negb (ipv6_is_public ip) = existsb (fun n => in_net 128 n ip) BLOCKED_V6.
Proof.
  intros Hip. destruct (v6_own_blocked ip Hip) as (E1 & E2 & E3 & E4 & E5 & E6).
  unfold ipv6_is_public. cbv zeta. rewrite E1, E2, E3, E4, E5, E6.
  cbv zeta. rewrite !negb_if_false. unfold BLOCKED_V6, existsb. by rewrite !orb_assoc.
Qed.

(** The two kinds of address that keep their own kind. *)
Lemma v4_public a : 0 <= a < 2 ^ 32 ->
  ip_is_public (V4 a) = negb (existsb (fun n => in_net 32 n a) BLOCKED_V4).
Proof. intros Ha. rewrite <- v4_blocked by done. by rewrite negb_involutive. Qed.

Lemma v6_public a : 0 <= a < 2 ^ 128 -> to_ipv4_mapped a = None ->
  ip_is_public (V6 a) = negb (existsb (fun n => in_net 128 n a) BLOCKED_V6).
Proof. intros Ha Hn. unfold ip_is_public. rewrite Hn, <- v6_blocked by done. by rewrite negb_involutive. Qed.

(** ** Properties *)

(** C30. An address is public exactly when it is in none of the networks of
    the two lists: an IPv4-mapped IPv6 address is judged by its IPv4 address,
    any other address by its own. *)
Theorem ip_is_public_iff (ip : IpAddr) :
  ip_wf ip ->
  ip_is_public ip =
  match to_canonical ip with
  | V4 a => negb (existsb (fun n => in_net 32 n a) BLOCKED_V4)
  | V6 a => negb (existsb (fun n => in_net 128 n a) BLOCKED_V6)
  end.
Proof.
  destruct ip as [a|a]; intros Hw; [exact (v4_public a Hw)|]. unfold to_canonical.
  destruct (to_ipv4_mapped a) as [b|] eqn:E; [|exact (v6_public a Hw E)].
  rewrite <- v4_public.
  - simpl. by rewrite E.
  - unfold to_ipv4_mapped in E. case_match; simplify_eq. apply Z.mod_pos_bound. lia.
Qed.

Lemma ip_is_public_iff_witness :
  ip_is_public (V6 (65535 * 2 ^ 32 + 127 * 2 ^ 24 + 1)) = false.
Proof.
  rewrite (ip_is_public_iff (V6 (65535 * 2 ^ 32 + 127 * 2 ^ 24 + 1))) by (simpl; lia).
  vm_compute. reflexivity.
Defined.

(** The resolver gives out addresses only when all of them are public,
    and then gives the whole answer of the lookup; one address that is not
    public refuses the whole answer, naming the first such address. *)
Theorem resolve_all_or_nothing
  (ip_to_string : IpAddr -> string) (lookup_host : string -> Z -> result (list IpAddr) string)
  (host : string) :
  match lookup_host host 0 with
  | Err e => resolve ip_to_string lookup_host host = Err e
  | Ok addrs =>
    (Forall (fun a => ip_is_public a = true) addrs /\
     resolve ip_to_string lookup_host host = Ok addrs) \/
    (exists front a rest, addrs = front ++ a :: rest /\
      Forall (fun a => ip_is_public a = true) front /\ ip_is_public a = false /\
      resolve ip_to_string lookup_host host = Err (blocked_msg (ip_to_string a)))
  end.
Proof.
  unfold resolve. destruct (lookup_host host 0) as [addrs|e]; [|done]. simpl.
  induction addrs as [|a l IH]; simpl.
  - left. by split; [constructor|].
  - destruct (ip_is_public a) eqn:E; simpl.
    + destruct IH as [[Hall Hr]|(front & b & rest & -> & Hf & Hb & Hr)].
      * left. split; [by constructor|]. rewrite (proj2 (check_addrs_Ok _ _) Hall). done.
      * right. exists (a :: front), b, rest. split; [done|]. split; [by constructor|].
        split; [done|]. destruct (check_addrs ip_to_string (front ++ b :: rest)); simplify_eq/=. done.
    + right. exists [], a, l. by split_and!.
Qed.

(** With the guard on, a URL whose host is a literal address passes only
    if the address is public, and a TCP target passes only if all its
    addresses are. *)
Theorem guards_refuse_private
  (ip_to_string : IpAddr -> string) (url_parse : string -> result (option Host) string)
  (lookup_host : string -> Z -> result (list IpAddr) string)
  (env : string -> option string) (url host : string) (port : Z) :
  ALLOW_PRIVATE_NETWORK env = false ->
  (guard_url_host ip_to_string url_parse env url = Ok tt <->
   exists h, url_parse url = Ok (Some h) /\
     match h with
     | HDomain _ => True
     | HIpv4 ip => ip_is_public (V4 ip) = true
     | HIpv6 ip => ip_is_public (V6 ip) = true
     end) /\
  (guard_tcp_host ip_to_string lookup_host env host port = Ok tt <->
   exists addrs, lookup_host host port = Ok addrs /\
     Forall (fun a => ip_is_public a = true) addrs).
Proof.
  intros Henv. split.
  - unfold guard_url_host. rewrite Henv.
    destruct (url_parse url) as [[[d|ip|ip]|]|e]; cbn [result_map_err result_bind];
      [split; [intros _; by eexists|done]| | |split; [done|naive_solver]|split; [done|naive_solver]].
    + destruct (ip_is_public (V4 ip)) eqn:E; cbn [negb]; (split; [intros H; try done; by eexists|]); [done|].
      intros (h & Hh & Hp). simplify_eq. congruence.
    + destruct (ip_is_public (V6 ip)) eqn:E; cbn [negb]; (split; [intros H; try done; by eexists|]); [done|].
      intros (h & Hh & Hp). simplify_eq. congruence.
  - unfold guard_tcp_host. rewrite Henv. destruct (lookup_host host port) as [addrs|e]; simpl.
    + rewrite check_addrs_Ok. naive_solver.
    + naive_solver.
Qed.

Lemma guards_refuse_private_witness :
  guard_url_host (fun _ => "10.0.0.1") (fun _ => Ok (Some (HIpv4 (10 * 2 ^ 24 + 1))))
    (fun _ => None) "http://10.0.0.1/" <> Ok tt.
Proof.
  rewrite (proj1 (guards_refuse_private (fun _ => "10.0.0.1")
    (fun _ => Ok (Some (HIpv4 (10 * 2 ^ 24 + 1)))) (fun _ _ => Err "") (fun _ => None)
    "http://10.0.0.1/" "" 0 eq_refl)).
  intros (h & Hh & Hp). injection Hh as <-. vm_compute in Hp. discriminate.
Defined.

(** The address is outside every network of the list. *)
Ltac blocked_none :=
  apply negb_true_iff, not_true_iff_false; rewrite existsb_exists;
  let n := fresh "n" in let Hin := fresh "Hin" in let Hm := fresh "Hm" in
  intros (n & Hin & Hm); simpl in Hin;
  repeat (destruct Hin as [<-|Hin];
    [rewrite in_net_interval in Hm by (vm_compute; intuition congruence);
     simpl net_base in *; simpl net_len in *; revert Hm; to_prop; eval_pows; lia|]);
  done.

(** The predicate lets through ranges that are not globally routable:
    every IPv4 multicast address, every address of 0.0.0.0/8 but the first,
    and every IPv4 address embedded under the NAT64 prefix 64:ff9b::/96, a
    loopback or private one included. *)
Theorem not_routable_but_public (a : Z) :
  0 <= a ->
  (in_net 32 (v4_net 224 0 0 0 4) a = true -> a < 2 ^ 32 -> ip_is_public (V4 a) = true) /\
  (0 < a < 2 ^ 24 -> ip_is_public (V4 a) = true) /\
  (a < 2 ^ 32 -> ip_is_public (V6 (100 * 2 ^ 112 + 65435 * 2 ^ 96 + a)) = true).
Proof.
  intros Ha. split_and!.
  - rewrite in_net_interval by (vm_compute; intuition congruence). simpl net_base. to_prop.
    intros Hn Hlt. rewrite v4_public by lia. blocked_none.
  - intros Hlt. rewrite v4_public by lia. blocked_none.
  - intros Hlt. rewrite v6_public; [|lia|].
    + blocked_none.
    + unfold to_ipv4_mapped. by rewrite (proj2 (Z.eqb_neq _ _)) by div_lia.
Qed.

Lemma not_routable_but_public_witness :
  ip_is_public (V4 (224 * 2 ^ 24 + 1)) = true /\
  ip_is_public (V6 (100 * 2 ^ 112 + 65435 * 2 ^ 96 + (127 * 2 ^ 24 + 1))) = true.
Proof.
  split.
  - apply (proj1 (not_routable_but_public (224 * 2 ^ 24 + 1) ltac:(lia))); vm_compute; reflexivity.
  - apply (proj2 (proj2 (not_routable_but_public (127 * 2 ^ 24 + 1) ltac:(lia)))). lia.
Defined.
