(* ===== verification/Store.v ===== *)
(** * The platform database (src/src/store.rs)

    The rows the runner reads, as tables of records, and the functions that
    turn them into workers, bindings, endpoints and resolutions. A query is
    its WHERE clause and joins over the tables; [fetch_one] takes the first
    row. Each query can fail ([broken] names the tables whose queries do).
    The PL/SQL function [resolve_worker_from_request] is not in this
    repository: its answer is a parameter. *)

From S2P Require Import Prelude RustStr Extern CodeCache.

Inductive WorkerIdentifier : Type := Id (id : string) | Name (name : string).

Inductive CodeType : Type := Javascript | Typescript | Wasm | Snapshot.

Definition CodeType_fmt (t : CodeType) : string :=
  match t with
  | Javascript => "javascript" | Typescript => "typescript"
  | Wasm => "wasm" | Snapshot => "snapshot"
  end.

Inductive BindingType : Type :=
| TVar | TSecret | TAssets | TStorage | TKv | TDatabase | TWorker | TD1 | TDurableObject.

Inductive DatabaseProvider : Type := Platform | Postgres.

Record StorageConfig := mkStorageConfig {
  sc_id : string; sc_bucket : string; sc_prefix : option string;
  sc_access_key_id : string; sc_secret_access_key : string; sc_endpoint : string;
  sc_region : option string; sc_public_url : option string }.

Record KvConfig := mkKvConfig { kc_id : string; kc_name : string }.

Record DatabaseConfig := mkDatabaseConfig {
  dc_id : string; dc_name : string; dc_provider : DatabaseProvider;
  dc_connection_string : option string; dc_schema_name : option string;
  dc_max_rows : Z; dc_timeout_seconds : Z }.

Record WorkerBindingConfig := mkWorkerBindingConfig { wc_id : string; wc_name : option string }.

(** src/src/durable/mod.rs: a namespace, with the key of its ids. *)
Record NamespaceConfig := mkNamespaceConfig {
  ns_id : string; ns_user_id : string; ns_worker_id : string;
  ns_class_name : string; ns_key : string }.

Inductive Binding : Type :=
| BVar (key value : string)
| BSecret (key value : string)
| BAssets (key : string) (config : StorageConfig)
| BStorage (key : string) (config : StorageConfig)
| BKv (key : string) (config : KvConfig)
| BDatabase (key : string) (config : DatabaseConfig)
| BD1 (key database_id : string)
| BWorker (key : string) (config : WorkerBindingConfig)
| BDurableObject (key : string) (namespace : NamespaceConfig).

(** [openworkers_core::BindingInfo]: a name and a type. *)
Inductive BindingKind : Type := KAssets | KStorage | KKv | KDatabase | KD1 | KWorker | KImages | KDurableObject.
Record BindingInfo := mkBindingInfo { bi_name : string; bi_kind : BindingKind }.

Definition to_binding_info (b : Binding) : option BindingInfo :=
  match b with
  | BVar _ _ | BSecret _ _ => None
  | BAssets key _ => Some (mkBindingInfo key KAssets)
  | BStorage key _ => Some (mkBindingInfo key KStorage)
  | BKv key _ => Some (mkBindingInfo key KKv)
  | BDatabase key _ => Some (mkBindingInfo key KDatabase)
  | BD1 key _ => Some (mkBindingInfo key KD1)
  | BWorker key _ => Some (mkBindingInfo key KWorker)
  | BDurableObject key _ => Some (mkBindingInfo key KDurableObject)
  end.

Definition bindings_to_infos (bindings : list Binding) : list BindingInfo :=
  omap to_binding_info bindings.

Record WorkerData := mkWorkerData {
  wd_id : string; wd_name : option string; wd_user_id : string;
  wd_env : option (gmap string string); wd_code : string;
  wd_code_type : CodeType; wd_version : Z }.

Inductive WorkerSource : Type := SBytes (b : string) | SCached (b : string).

Definition source_bytes (s : WorkerSource) : string :=
  match s with SBytes b | SCached b => b end.

Record WorkerWithBindings := mkWorkerWithBindings {
  wb_id : string; wb_name : option string; wb_user_id : string;
  wb_code : WorkerSource; wb_code_type : CodeType; wb_version : Z;
  wb_env : gmap string string; wb_bindings : list Binding; wb_env_updated_at : option Z }.

Record WorkerMeta := mkWorkerMeta {
  wm_id : string; wm_name : option string; wm_user_id : string;
  wm_code_type : CodeType; wm_version : Z; wm_env : gmap string string;
  wm_bindings : list Binding; wm_env_updated_at : option Z }.

(** ** Tables *)

Record WorkerRow := mkWorkerRow {
  w_id : string; w_name : option string; w_user_id : string; w_current_version : option Z;
  w_environment_id : option string; w_project_id : option string }.
Record DeploymentRow := mkDeploymentRow {
  d_worker_id : string; d_version : Z; d_code_type : CodeType; d_code : string }.
Record ProjectRow := mkProjectRow { p_id : string; p_environment_id : option string }.
Record ValueRow := mkValueRow {
  v_environment_id : string; v_user_id : string; v_key : string;
  v_value : option string; v_type : BindingType; v_updated_at : option Z }.
Record D1Row := mkD1Row { d1_id : string; d1_user_id : string; d1_deleted : bool }.
Record NamespaceRow := mkNamespaceRow {
  n_id : string; n_user_id : string; n_worker_id : option string;
  n_class_name : string; n_key : string; n_deleted : bool }.
Record EndpointRow := mkEndpointRow {
  e_name : string; e_is_project : bool; e_worker_id : option string; e_project_id : option string }.
Record DomainRow := mkDomainRow {
  dm_name : string; dm_worker_id : option string; dm_project_id : option string }.

Record Db := mkDb {
  workers : list WorkerRow;
  worker_deployments : list DeploymentRow;
  projects : list ProjectRow;
  environment_values : list ValueRow;
  storage_configs : list StorageConfig;
  kv_configs : list KvConfig;
  database_configs : list DatabaseConfig;
  d1_databases : list D1Row;
  durable_object_namespaces : list NamespaceRow;
  endpoints : list EndpointRow;
  domains : list DomainRow;
  broken : string -> bool;
}.

(** A query on a table: its rows, unless the query fails. *)
Definition query {A} (db : Db) (table : string) (rows : list A) : result (list A) unit :=
  if broken db table then Err tt else Ok rows.

Definition fetch_one {A} (r : result (list A) unit) : option A :=
  match r with Ok (x :: _) => Some x | _ => None end.

Definition selectb {A} (p : A -> bool) (l : list A) : list A := List.filter p l.

(** ** Configurations of the bindings *)

Definition fetch_storage_config (db : Db) (config_id : string) : option StorageConfig :=
  fetch_one (query db "storage_configs"
    (selectb (fun r => String.eqb (sc_id r) config_id) (storage_configs db))).

Definition fetch_kv_config (db : Db) (config_id : string) : option KvConfig :=
  fetch_one (query db "kv_configs"
    (selectb (fun r => String.eqb (kc_id r) config_id) (kv_configs db))).

Definition fetch_database_config (db : Db) (config_id : string) : option DatabaseConfig :=
  fetch_one (query db "database_configs"
    (selectb (fun r => String.eqb (dc_id r) config_id) (database_configs db))).

Definition fetch_worker_binding_config (db : Db) (worker_id : string) : option WorkerBindingConfig :=
  r ← fetch_one (query db "workers"
    (selectb (fun r => String.eqb (w_id r) worker_id) (workers db)));
  Some (mkWorkerBindingConfig (w_id r) (w_name r)).

Definition fetch_d1_database (db : Db) (database_id user_id : string) : option string :=
  r ← fetch_one (query db "d1_databases"
    (selectb (fun r => String.eqb (d1_id r) database_id && String.eqb (d1_user_id r) user_id
                       && negb (d1_deleted r)) (d1_databases db)));
  Some (d1_id r).

(** [Err] when the query fails; the key of a row must hold 32 bytes. *)
Definition fetch_durable_object_namespace (db : Db) (namespace_id : string) (user_id : option string) :
  result (option NamespaceConfig) unit :=
  rows <-? query db "durable_object_namespaces"
    (selectb (fun r => String.eqb (n_id r) namespace_id
                       && match user_id with None => true | Some u => String.eqb (n_user_id r) u end
                       && negb (n_deleted r)
                       && match n_worker_id r with Some _ => true | None => false end)
       (durable_object_namespaces db));
  Ok (match rows with
      | [] => None
      | r :: _ =>
        w ← n_worker_id r;
        if str_len (n_key r) =? 32
        then Some (mkNamespaceConfig (n_id r) (n_user_id r) w (n_class_name r) (n_key r))
        else None
      end).

(** ** A worker and its bindings *)

(** The join of the worker with its current deployment. *)
Definition basic_rows (db : Db) (identifier : WorkerIdentifier) : list (WorkerRow * DeploymentRow) :=
  w ← selectb (fun w => match identifier with
                        | Id id => String.eqb (w_id w) id
                        | Name name => bool_decide (w_name w = Some name)
                        end) (workers db);
  d ← selectb (fun d => String.eqb (d_worker_id d) (w_id w)
                        && bool_decide (w_current_version w = Some (d_version d)))
        (worker_deployments db);
  [(w, d)].

(** The rows of the environment of a worker: of its project if it has one
    with an environment, else its own; only rows of the worker's owner. *)
Definition binding_rows (db : Db) (worker_id : string) : list ValueRow :=
  w ← selectb (fun w => String.eqb (w_id w) worker_id) (workers db);
  let project := p ← w_project_id w; List.find (fun r => String.eqb (p_id r) p) (projects db) in
  let environment :=
    match project ≫= p_environment_id with
    | Some e => Some e
    | None => w_environment_id w
    end in
  selectb (fun v => bool_decide (environment = Some (v_environment_id v))
                    && String.eqb (v_user_id v) (w_user_id w)) (environment_values db).

Record acc := mkAcc { a_env : gmap string string; a_bindings : list Binding; a_updated : option Z }.

Definition push (b : Binding) (a : acc) : acc :=
  mkAcc (a_env a) (a_bindings a ++ [b]) (a_updated a).

(** One turn of the loop over the binding rows. *)
Definition convert_row (db : Db) (user_id : string) (a : acc) (row : ValueRow) : acc :=
  let a := match v_updated_at row with
           | Some epoch =>
             mkAcc (a_env a) (a_bindings a)
               (Some (match a_updated a with None => epoch | Some prev => Z.max prev epoch end))
           | None => a
           end in
  match v_value row with
  | None => a
  | Some value =>
    match v_type row with
    | TVar =>
      push (BVar (v_key row) value) (mkAcc (<[v_key row := value]> (a_env a)) (a_bindings a) (a_updated a))
    | TSecret =>
      push (BSecret (v_key row) value) (mkAcc (<[v_key row := value]> (a_env a)) (a_bindings a) (a_updated a))
    | TAssets =>
      match fetch_storage_config db value with
      | Some config => push (BAssets (v_key row) config) a | None => a end
    | TStorage =>
      match fetch_storage_config db value with
      | Some config => push (BStorage (v_key row) config) a | None => a end
    | TKv =>
      match fetch_kv_config db value with
      | Some config => push (BKv (v_key row) config) a | None => a end
    | TDatabase =>
      match fetch_database_config db value with
      | Some config => push (BDatabase (v_key row) config) a | None => a end
    | TD1 =>
      match fetch_d1_database db value user_id with
      | Some id => push (BD1 (v_key row) id) a | None => a end
    | TDurableObject =>
      match fetch_durable_object_namespace db value (Some user_id) with
      | Ok (Some namespace) => push (BDurableObject (v_key row) namespace) a
      | _ => a end
    | TWorker =>
      match fetch_worker_binding_config db value with
      | Some config => push (BWorker (v_key row) config) a | None => a end
    end
  end.

Definition convert_rows (db : Db) (user_id : string) (rows : list ValueRow) : acc :=
  foldl (convert_row db user_id) (mkAcc ∅ [] None) rows.

Definition get_worker_meta (db : Db) (identifier : WorkerIdentifier) : option WorkerMeta :=
  '(w, d) ← fetch_one (query db "workers" (basic_rows db identifier));
  let rows := match query db "environment_values" (binding_rows db (w_id w)) with
              | Ok rows => rows
              | Err _ => []
              end in
  let a := convert_rows db (w_user_id w) rows in
  Some (mkWorkerMeta (w_id w) (w_name w) (w_user_id w) (d_code_type d) (d_version d)
          (a_env a) (a_bindings a) (a_updated a)).

Section code.
Context {C : Type} `{!Lru (string * Z) string C}.

(** The entry of the code cache, for a JavaScript worker only. *)
Definition cached_code (id : string) (version : Z) (code_type : CodeType) (cache : CodeCache C) :
  option string * CodeCache C :=
  match code_type with
  | Javascript | Typescript => CodeCache.get id version cache
  | _ => (None, cache)
  end.

Definition meta_cached_code (m : WorkerMeta) (cache : CodeCache C) :
  option WorkerSource * CodeCache C :=
  let '(o, cache) := cached_code (wm_id m) (wm_version m) (wm_code_type m) cache in
  (SCached <$> o, cache).

Definition fetch_deployment_code (db : Db) (worker_id : string) (version : Z) : option string :=
  r ← fetch_one (query db "worker_deployments"
    (selectb (fun d => String.eqb (d_worker_id d) worker_id && (d_version d =? version))
       (worker_deployments db)));
  Some (d_code r).

Definition into_worker (m : WorkerMeta) (code : WorkerSource) : WorkerWithBindings :=
  mkWorkerWithBindings (wm_id m) (wm_name m) (wm_user_id m) code (wm_code_type m) (wm_version m)
    (wm_env m) (wm_bindings m) (wm_env_updated_at m).

Definition with_code (db : Db) (m : WorkerMeta) (cache : CodeCache C) :
  option WorkerWithBindings * CodeCache C :=
  match meta_cached_code m cache with
  | (Some code, cache) => (Some (into_worker m code), cache)
  | (None, cache) =>
    (code ← fetch_deployment_code db (wm_id m) (wm_version m); Some (into_worker m (SBytes code)), cache)
  end.

Definition get_worker_with_bindings (db : Db) (identifier : WorkerIdentifier) (cache : CodeCache C) :
  option WorkerWithBindings * CodeCache C :=
  match get_worker_meta db identifier with
  | Some m => with_code db m cache
  | None => (None, cache)
  end.

(** [From<WorkerData>]: the variables become bindings. *)
Definition from_worker_data (data : WorkerData) (cache : CodeCache C) :
  WorkerWithBindings * CodeCache C :=
  let env := default ∅ (wd_env data) in
  let bindings := (fun kv => BVar kv.1 kv.2) <$> map_to_list env in
  let '(o, cache) := cached_code (wd_id data) (wd_version data) (wd_code_type data) cache in
  let code := match o with Some blob => SCached blob | None => SBytes (wd_code data) end in
  (mkWorkerWithBindings (wd_id data) (wd_name data) (wd_user_id data) code (wd_code_type data)
     (wd_version data) env bindings None, cache).

End code.

(** ** Endpoints and resolutions *)

Inductive Endpoint : Type := EWorker (worker_id : string) | EProject (project_id : string).

Definition get_endpoint_by_name (db : Db) (name : string) : option Endpoint :=
  r ← fetch_one (query db "endpoints"
    (selectb (fun r => String.eqb (e_name r) name) (endpoints db)));
  if e_is_project r then EProject <$> e_project_id r else EWorker <$> e_worker_id r.

Definition get_endpoint_from_domain (db : Db) (domain : string) : option Endpoint :=
  r ← fetch_one (query db "domains"
    (selectb (fun r => String.eqb (dm_name r) domain) (domains db)));
  match dm_worker_id r with
  | Some w => Some (EWorker w)
  | None => EProject <$> dm_project_id r
  end.

Definition get_worker_id_from_domain (db : Db) (domain : string) : option string :=
  match get_endpoint_from_domain db domain with
  | Some (EWorker w) => Some w
  | _ => None
  end.

Inductive BackendType : Type := BackendWorker | BackendStorage.

Inductive AssetType : Type := Immutable | Static | Prerendered.

#[export] Instance AssetType_eq_dec : EqDecision AssetType.
Proof. solve_decision. Defined.
#[export] Instance BackendType_eq_dec : EqDecision BackendType.
Proof. solve_decision. Defined.

Definition from_priority (priority : Z) : option AssetType :=
  if priority =? 3 then Some Immutable
  else if priority =? 2 then Some Static
  else if priority =? 1 then Some Prerendered
  else None.

Definition IMMUTABLE_CACHE : string := "public, max-age=31536000, immutable".

Definition set_cache_control {H} `{HeaderMap H} (self : AssetType) (status : Z) (headers : H) : H :=
  if negb (bool_decide (self = Immutable)) || negb ((200 <=? status) && (status <? 300)) then headers
  else match hdr_get_all "cache-control" headers with
       | [] => hdr_insert "cache-control" IMMUTABLE_CACHE headers
       | _ => headers
       end.

Definition storage_path (self : AssetType) (path : string) : string :=
  if negb (bool_decide (self = Prerendered)) then path
  else if is_empty path then "/index.html"
  else if ends_with "/" path then path +:+ "index.html"
  else
    let name := match rsplit_once "/" path with Some (_, name) => name | None => path end in
    if contains_char "." name then path else path +:+ ".html".

Record RequestResolution := mkResolution {
  rr_worker_id : option string; rr_project_id : option string;
  rr_backend_type : option BackendType; rr_assets_storage_id : option string;
  rr_asset_type : option AssetType }.

#[export] Instance RequestResolution_eq_dec : EqDecision RequestResolution.
Proof. solve_decision. Defined.

(** The row of the PL/SQL function, and the errors of [sqlx]. *)
Record ResolutionRow := mkResolutionRow {
  row_worker_id : option string; row_project_id : option string;
  row_backend_type : option BackendType; row_assets_storage_id : option string;
  row_priority : option Z }.

Inductive SqlxError : Type :=
| RowNotFound
| DatabaseError (code : option string)
| OtherError (what : string).

Definition NOT_A_UUID : string := "22P02".

Definition resolution_from (r : result ResolutionRow SqlxError) :
  result (option RequestResolution) SqlxError :=
  match r with
  | Ok row =>
    Ok (Some (mkResolution (row_worker_id row) (row_project_id row) (row_backend_type row)
                (row_assets_storage_id row) (row_priority row ≫= from_priority)))
  | Err RowNotFound => Ok None
  | Err (DatabaseError code) =>
    if bool_decide (code = Some NOT_A_UUID) then Ok None else Err (DatabaseError code)
  | Err err => Err err
  end.

(** The PL/SQL function is a parameter: it answers with a row, or fails. *)
Definition resolve_worker_from_request
  (function : option string -> option string -> option string -> string -> result ResolutionRow SqlxError)
  (domain worker_id worker_name : option string) (path : string) : result (option RequestResolution) SqlxError :=
  resolution_from (function domain worker_id worker_name path).

(** [uuid] is the cast of PostgreSQL: the text of the id it reads. *)
Definition get_storage_config (uuid : string -> option string) (db : Db) (storage_config_id : string) : option StorageConfig :=
  id ← uuid storage_config_id;
  fetch_one (query db "storage_configs" (selectb (fun r => String.eqb (sc_id r) id) (storage_configs db))).

(** [get_worker] aggregates the values of the worker's own environment that
    have no null column, of any type; no such row gives no object. *)
Definition value_rows (db : Db) (w : WorkerRow) : list (string * string) :=
  omap (fun v => value ← v_value v; _ ← v_updated_at v; Some (v_key v, value))
    (selectb (fun v => bool_decide (w_environment_id w = Some (v_environment_id v))
                       && String.eqb (v_user_id v) (w_user_id w)) (environment_values db)).

Definition get_worker (db : Db) (identifier : WorkerIdentifier) : option WorkerData :=
  '(w, d) ← fetch_one (query db "workers" (basic_rows db identifier));
  let env := match value_rows db w with
             | [] => None
             | rows => Some (foldl (fun m kv => <[kv.1 := kv.2]> m) ∅ rows)
             end in
  Some (mkWorkerData (w_id w) (w_name w) (w_user_id w) env (d_code d) (d_code_type d) (d_version d)).

(** ** Lemmas *)

Lemma fetch_one_query {A} db table (rows : list A) x :
  fetch_one (query db table rows) = Some x -> x ∈ rows.
Proof.
  unfold query. destruct (broken db table); [done|]. destruct rows; simpl; intros; simplify_eq.
  set_solver.
Qed.

Lemma elem_of_selectb {A} (p : A -> bool) l x : x ∈ selectb p l <-> x ∈ l /\ p x = true.
Proof. unfold selectb. rewrite !list_elem_of_In. apply filter_In. Qed.

Lemma fetch_selected {A} db table (p : A -> bool) l x :
  fetch_one (query db table (selectb p l)) = Some x -> x ∈ l /\ p x = true.
Proof. intros H%fetch_one_query. by apply elem_of_selectb. Qed.

(** What a binding of a worker of [user_id] is allowed to name. *)
Definition owned (db : Db) (user_id : string) (b : Binding) : Prop :=
  match b with
  | BD1 _ id => exists r, r ∈ d1_databases db /\ d1_id r = id /\ d1_user_id r = user_id /\
                          d1_deleted r = false
  | BDurableObject _ n =>
    ns_user_id n = user_id /\ str_len (ns_key n) = 32 /\
    exists r, r ∈ durable_object_namespaces db /\ n_id r = ns_id n /\ n_deleted r = false /\
              n_worker_id r = Some (ns_worker_id n)
  | _ => True
  end.

Lemma fetch_d1_owned db key id user_id r :
  fetch_d1_database db id user_id = Some r -> owned db user_id (BD1 key r).
Proof.
  unfold fetch_d1_database. intros (row & Hr & ?)%option_Some_bind. simplify_eq.
  apply fetch_selected in Hr as [Hin Hp]. reflect_bools. simpl.
  exists row. apply String.eqb_eq in H1. done.
Qed.

Lemma fetch_namespace_owned db key id user_id n :
  fetch_durable_object_namespace db id (Some user_id) = Ok (Some n) ->
  owned db user_id (BDurableObject key n).
Proof.
  unfold fetch_durable_object_namespace, query.
  destruct (broken db _); [done|]. simpl. destruct (selectb _ _) as [|r rows'] eqn:Er; [done|].
  intros H. simplify_eq.
  apply option_Some_bind in H as (w & Hw & H). case_match; simplify_eq.
  assert (Hr : r ∈ r :: rows') by set_solver. rewrite <- Er in Hr.
  apply elem_of_selectb in Hr as [Hin Hp]. reflect_bools.
  repeat match goal with E : String.eqb _ _ = true |- _ => apply String.eqb_eq in E end.
  simpl. split_and!; [done|done|]. by exists r.
Qed.

Lemma convert_row_owned db user_id a row :
  Forall (owned db user_id) (a_bindings a) ->
  Forall (owned db user_id) (a_bindings (convert_row db user_id a row)).
Proof.
  intros Ha. unfold convert_row. set (a' := match v_updated_at row with Some _ => _ | None => _ end).
  assert (Ha' : a_bindings a' = a_bindings a) by (subst a'; by case_match).
  rewrite <- Ha' in Ha. clearbody a'. clear Ha'.
  destruct (v_value row) as [value|]; [|done].
  destruct (v_type row); try (case_match; [|done]); simpl;
    try (apply Forall_app; split; [done|]; apply Forall_singleton; done).
  - apply Forall_app; split; [done|]. apply Forall_singleton. by eapply fetch_d1_owned.
  - case_match; [|done]. simpl. apply Forall_app; split; [done|]. apply Forall_singleton.
    by eapply fetch_namespace_owned.
Qed.

Lemma convert_rows_owned db user_id rows :
  Forall (owned db user_id) (a_bindings (convert_rows db user_id rows)).
Proof.
  unfold convert_rows. set (a := mkAcc ∅ [] None).
  assert (Ha : Forall (owned db user_id) (a_bindings a)) by constructor. clearbody a.
  revert a Ha; induction rows as [|r rows IH]; intros a Ha; simpl; [done|].
  apply IH. by apply convert_row_owned.
Qed.

(** The value that the rows give to a variable: the last row of the key that
    holds a variable or a secret. *)
Definition row_env (row : ValueRow) : option (string * string) :=
  match v_type row, v_value row with
  | TVar, Some v | TSecret, Some v => Some (v_key row, v)
  | _, _ => None
  end.

Definition env_spec (rows : list ValueRow) : gmap string string :=
  foldl (fun m kv => <[kv.1 := kv.2]> m) ∅ (omap row_env rows).

(** The most recent change of the rows. *)
Definition updated_spec (rows : list ValueRow) : option Z :=
  foldl (fun m t => Some (match m with None => t | Some p => Z.max p t end)) None
    (omap v_updated_at rows).

Definition binding_key (b : Binding) : string :=
  match b with
  | BVar k _ | BSecret k _ | BAssets k _ | BStorage k _ | BKv k _ | BDatabase k _
  | BD1 k _ | BWorker k _ | BDurableObject k _ => k
  end.

Lemma convert_row_env db user_id a row :
  a_env (convert_row db user_id a row) =
  match row_env row with Some kv => <[kv.1 := kv.2]> (a_env a) | None => a_env a end /\
  a_updated (convert_row db user_id a row) =
  match v_updated_at row with
  | Some t => Some (match a_updated a with None => t | Some p => Z.max p t end)
  | None => a_updated a
  end.
Proof.
  unfold convert_row, row_env.
  destruct (v_updated_at row), (v_value row), (v_type row); simpl;
    repeat (case_match; simpl); done.
Qed.

Lemma foldl_convert db user_id rows a :
  a_env (foldl (convert_row db user_id) a rows) =
    foldl (fun m kv => <[kv.1 := kv.2]> m) (a_env a) (omap row_env rows) /\
  a_updated (foldl (convert_row db user_id) a rows) =
    foldl (fun m t => Some (match m with None => t | Some p => Z.max p t end)) (a_updated a)
      (omap v_updated_at rows).
Proof.
  revert a; induction rows as [|r rows IH]; intros a; [done|]. cbn [foldl].
  destruct (IH (convert_row db user_id a r)) as [-> ->].
  destruct (convert_row_env db user_id a r) as [-> ->].
  split; simpl; [by destruct (row_env r)|by destruct (v_updated_at r)].
Qed.

Lemma convert_rows_env db user_id rows :
  a_env (convert_rows db user_id rows) = env_spec rows /\
  a_updated (convert_rows db user_id rows) = updated_spec rows.
Proof. apply (foldl_convert db user_id rows (mkAcc ∅ [] None)). Qed.

Lemma get_worker_meta_inv db identifier m :
  get_worker_meta db identifier = Some m ->
  exists rows, m.(wm_bindings) = a_bindings (convert_rows db (wm_user_id m) rows) /\
    m.(wm_env) = a_env (convert_rows db (wm_user_id m) rows) /\
    m.(wm_env_updated_at) = a_updated (convert_rows db (wm_user_id m) rows) /\
    (rows = if broken db "environment_values" then [] else binding_rows db (wm_id m)) /\
    exists w, w ∈ workers db /\ w_id w = wm_id m /\ w_user_id w = wm_user_id m.
Proof.
  unfold get_worker_meta. intros ([w d] & Hf & H)%option_Some_bind. simplify_eq/=.
  eexists. split; [done|]. split; [done|]. split; [done|]. split; [unfold query; simpl; by destruct (broken db _)|].
  exists w. split; [|done]. apply fetch_one_query in Hf. unfold basic_rows in Hf.
  apply list_elem_of_bind in Hf as (w' & Hf & Hw').
  apply list_elem_of_bind in Hf as (d' & Hf & _). apply list_elem_of_singleton in Hf.
  simplify_eq. by apply elem_of_selectb in Hw' as [? _].
Qed.

(** A path is a directory part, empty or ended by a slash, and a name. *)
Lemma path_parts path :
  exists dir name, path = dir +:+ name /\ contains_char "/" name = false /\
    (dir = "" \/ exists d, dir = d +:+ "/") /\
    match rsplit_once "/" path with Some (_, n) => n | None => path end = name.
Proof.
  destruct (rsplit_once "/" path) as [[d n]|] eqn:E.
  - apply rsplit_once_Some in E as [-> Hn]. exists (d +:+ "/"), n.
    rewrite app_assoc_str. eauto 6.
  - apply rsplit_once_None in E. exists "", path. eauto 6.
Qed.

(** A key that names a file is kept. *)
Lemma storage_path_file dir name :
  contains_char "." name = true -> contains_char "/" name = false ->
  (dir = "" \/ exists d, dir = d +:+ "/") ->
  storage_path Prerendered (dir +:+ name) = dir +:+ name.
Proof.
  intros Hdot Hslash Hdir. unfold storage_path. simpl negb. cbv iota.
  assert (He : is_empty name = false) by (by destruct name).
  assert (is_empty (dir +:+ name) = false) as -> by (by destruct dir, name).
  rewrite (ends_with_app_false "/" dir name He Hslash).
  assert (Hn : match rsplit_once "/" (dir +:+ name) with Some (_, n) => n | None => dir +:+ name end
               = name).
  { destruct Hdir as [->|[d ->]].
    - simpl. by rewrite (proj2 (rsplit_once_None _ _) Hslash).
    - rewrite app_assoc_str. simpl. by rewrite rsplit_once_app. }
  rewrite Hn, Hdot. done.
Qed.

Lemma storage_path_parts path :
  exists dir name, storage_path Prerendered path = dir +:+ name /\
    contains_char "." name = true /\ contains_char "/" name = false /\
    (dir = "" \/ exists d, dir = d +:+ "/").
Proof.
  unfold storage_path. simpl negb. cbv iota.
  destruct (is_empty path); [exists "/", "index.html"; split_and!; try done; right; by exists ""|].
  destruct (ends_with "/" path) eqn:Ee.
  { unfold ends_with in Ee. destruct (strip_suffix "/" path) as [d|] eqn:E; [|done].
    apply strip_suffix_Some in E as ->. exists (d +:+ "/"), "index.html".
    split_and!; try done. right. by exists d. }
  destruct (path_parts path) as (dir & name & -> & Hs & Hd & Hn). rewrite Hn.
  destruct (contains_char "." name) eqn:Edot; [by exists dir, name|].
  exists dir, (name +:+ ".html"). rewrite app_assoc_str, !contains_char_app, Hs.
  split_and!; try done. by rewrite orb_true_r.
Qed.

(** ** Properties *)

(** C27. Account isolation: each D1 and Durable Object binding of a worker
    names a database or a namespace that the owner of the worker holds and
    has not deleted, whatever the environment values say. *)
Theorem bindings_owned (db : Db) (identifier : WorkerIdentifier) (m : WorkerMeta) :
  get_worker_meta db identifier = Some m -> Forall (owned db (wm_user_id m)) (wm_bindings m).
Proof.
  intros (rows & -> & _)%get_worker_meta_inv. apply convert_rows_owned.
Qed.

(** The environment of a worker is what its Var and Secret rows say, the
    last row of a key first, and nothing of another account: the rows are of
    its owner. Its change date is the latest of its rows. *)
Theorem env_of_rows (db : Db) (identifier : WorkerIdentifier) (m : WorkerMeta) :
  get_worker_meta db identifier = Some m ->
  exists rows,
    (rows = if broken db "environment_values" then [] else binding_rows db (wm_id m)) /\
    wm_env m = env_spec rows /\ wm_env_updated_at m = updated_spec rows.
Proof.
  intros (rows & _ & He & Hu & Hrows & _)%get_worker_meta_inv. exists rows.
  destruct (convert_rows_env db (wm_user_id m) rows) as [E1 E2].
  split; [done|]. rewrite He, Hu. done.
Qed.

(** No variable and no secret reaches the binding infos of a script: each
    info is the name and type of a resource binding, in order. *)
Theorem infos_hold_no_secret (bindings : list Binding) :
  bindings_to_infos bindings =
    omap to_binding_info (List.filter (fun b => match b with BVar _ _ | BSecret _ _ => false
                                                | _ => true end) bindings) /\
  (forall i, i ∈ bindings_to_infos bindings ->
     exists b, b ∈ bindings /\ bi_name i = binding_key b /\
       match b with BVar _ _ | BSecret _ _ => False | _ => True end).
Proof.
  split.
  - induction bindings as [|b l IH]; [done|]. destruct b; simpl; first [exact IH|f_equal; exact IH].
  - intros i Hi. apply list_elem_of_omap in Hi as (b & Hb & Hi). exists b. split; [done|].
    destruct b; simplify_eq/=; done.
Qed.

(** The storage key of a prerendered page names a file: a key with a dot
    after its last slash. Asking for the key itself gives the same key, and
    the other asset types keep the path as it is. *)
Theorem storage_path_names_file (path : string) :
  (exists dir name, storage_path Prerendered path = dir +:+ name /\
     contains_char "." name = true /\ contains_char "/" name = false) /\
  storage_path Prerendered (storage_path Prerendered path) = storage_path Prerendered path /\
  storage_path Static path = path /\ storage_path Immutable path = path.
Proof.
  destruct (storage_path_parts path) as (dir & name & -> & Hdot & Hslash & Hdir).
  split_and!; [by exists dir, name|by apply storage_path_file|done|done].
Qed.

(** The two ways to read a worker agree on which worker and which deployment
    an identifier names, and the code that comes with the first is the code
    that is fetched apart for the second. *)
Theorem get_worker_same_deployment (db : Db) (identifier : WorkerIdentifier) (data : WorkerData) :
  get_worker db identifier = Some data -> broken db "worker_deployments" = false ->
  exists m, get_worker_meta db identifier = Some m /\
    wm_id m = wd_id data /\ wm_name m = wd_name data /\ wm_user_id m = wd_user_id data /\
    wm_version m = wd_version data /\ wm_code_type m = wd_code_type data /\
    fetch_deployment_code db (wm_id m) (wm_version m) = Some (wd_code data).
Proof.
  unfold get_worker, get_worker_meta. intros H Hb.
  destruct (fetch_one (query db "workers" (basic_rows db identifier))) as [[w d]|] eqn:E; [|done].
  simpl in H. injection H as <-. eexists. split; [reflexivity|]. simpl. split_and!; try done.
  unfold fetch_deployment_code, query in *. rewrite Hb. destruct (broken db "workers"); [done|].
  unfold basic_rows in E. induction (selectb _ (workers db)) as [|w' l IH]; [done|]. simpl in E.
  destruct (selectb (fun d => String.eqb (d_worker_id d) (w_id w') && _) (worker_deployments db)) as [|d' l'] eqn:Ed; [by apply IH|].
  simpl in E. injection E as -> ->.
  assert (Hv : w_current_version w = Some (d_version d)).
  { assert (Hd : d ∈ d :: l') by set_solver. rewrite <- Ed in Hd. apply elem_of_selectb in Hd as [_ Hd].
    by apply andb_true_iff in Hd as [_ Hd%bool_decide_eq_true]. }
  replace (selectb (fun r => String.eqb (d_worker_id r) (w_id w) && (d_version r =? d_version d)) (worker_deployments db))
    with (d :: l'); [done|]. rewrite <- Ed. unfold selectb. apply filter_ext. intros r. f_equal. rewrite Hv.
  destruct (Z.eqb_spec (d_version r) (d_version d)) as [->|Hne];
    [by apply bool_decide_eq_true_2|apply bool_decide_eq_false_2; congruence].
Qed.

(** ** Witnesses *)

Definition test_db : Db := mkDb
  [mkWorkerRow "w1" (Some "hello") "alice" (Some 2) (Some "env1") None]
  [mkDeploymentRow "w1" 1 Javascript "old"; mkDeploymentRow "w1" 2 Javascript "new"] []
  [mkValueRow "env1" "alice" "TOKEN" (Some "s3cret") TSecret (Some 10);
   mkValueRow "env1" "alice" "DB" (Some "d-alice") TD1 (Some 30);
   mkValueRow "env1" "alice" "OTHER" (Some "d-bob") TD1 (Some 20);
   mkValueRow "env1" "bob" "X" (Some "1") TVar (Some 99)]
  [] [] [] [mkD1Row "d-alice" "alice" false; mkD1Row "d-bob" "bob" false] [] [] [] (fun _ => false).

Definition test_meta : WorkerMeta :=
  mkWorkerMeta "w1" (Some "hello") "alice" Javascript 2 {["TOKEN" := "s3cret"]}
    [BSecret "TOKEN" "s3cret"; BD1 "DB" "d-alice"] (Some 30).

Lemma bindings_owned_witness :
  get_worker_meta test_db (Name "hello") = Some test_meta /\
  owned test_db "alice" (BD1 "DB" "d-alice").
Proof.
  assert (H : get_worker_meta test_db (Name "hello") = Some test_meta) by (vm_compute; reflexivity).
  split; [exact H|]. pose proof (bindings_owned test_db (Name "hello") test_meta H) as Hall.
  inversion Hall as [|? ? _ Hall']; subst. inversion Hall'; subst. assumption.
Defined.

Lemma env_of_rows_witness :
  exists rows, rows = binding_rows test_db "w1" /\ wm_env test_meta = env_spec rows /\
    wm_env_updated_at test_meta = updated_spec rows.
Proof. apply (env_of_rows test_db (Id "w1") test_meta). vm_compute. reflexivity. Defined.
