(* ===== verification/ResolveCache.v ===== *)
(** * The resolve cache (src/src/resolve_cache.rs)

    The worker a request resolves to, and the workers themselves, kept in
    memory. A lookup reads the generation, asks the cache, else the database,
    and stores what it read unless an invalidation came in between. The
    listener of the database clears the cache when a row changes.

    The sequential model gives each function. The step relation interleaves
    the atomic operations of any number of lookups with the listener and with
    changes of the database. *)

From S2P Require Import Prelude RustStr Extern CodeCache Store.

Definition SECOND : Z := 1000000000.
Definition TTL : Z := 60 * SECOND.
Definition RESOLUTIONS : nat := Z.to_nat 10000.
Definition WORKERS : nat := Z.to_nat 2000.

Record Key := mkKey {
  k_host : option string; k_worker_id : option string; k_worker_name : option string;
  k_path : option string }.

#[export] Instance Key_eq_dec : EqDecision Key.
Proof. solve_decision. Defined.

Definition with_path (p : option string) (k : Key) : Key :=
  mkKey (k_host k) (k_worker_id k) (k_worker_name k) p.

Record Entry (T : Type) := mkEntry { e_value : T; e_at : Z }.
Arguments mkEntry {T}.
Arguments e_value {T}.
Arguments e_at {T}.

(** [now.duration_since(at) < TTL]: the difference is 0 for a later [at]. *)
Definition alive {T} (now : Z) (e : Entry T) : bool := Z.max 0 (now - e_at e) <? TTL.

Section resolve_cache.
Context {CR CW : Type} `{!Lru Key (Entry (option RequestResolution)) CR}
  `{!Lru string (Entry WorkerMeta) CW}.

Record Cache := mkCache { c_resolutions : CR; c_workers : CW }.

Definition cache_new (resolutions workers : nat) : Cache :=
  mkCache (lru_new resolutions) (lru_new workers).

(** One key of the search: the entry, if it is alive. *)
Definition lookup_one (now : Z) (key : Key) (c : CR) : option (option RequestResolution) * CR :=
  match lru_get key c with
  | (Some e, c) => (if alive now e then Some (e_value e) else None, c)
  | (None, c) => (None, c)
  end.

Definition resolution (key : Key) (now : Z) (c : Cache) :
  option (option RequestResolution) * Cache :=
  let pathless := with_path None key in
  match lookup_one now pathless (c_resolutions c) with
  | (Some v, r) => (Some v, mkCache r (c_workers c))
  | (None, r) =>
    let '(v, r) := lookup_one now key r in (v, mkCache r (c_workers c))
  end.

(** A resolution that does not read the path. *)
Definition standalone (value : option RequestResolution) : bool :=
  match value with
  | Some r => match rr_project_id r, rr_worker_id r with None, Some _ => true | _, _ => false end
  | None => false
  end.

Definition put_resolution (key : Key) (value : option RequestResolution) (now : Z) (c : Cache) : Cache :=
  let key := if standalone value then with_path None key else key in
  mkCache (lru_put key (mkEntry value now) (c_resolutions c)) (c_workers c).

Definition cache_worker (worker_id : string) (now : Z) (c : Cache) : option WorkerMeta * Cache :=
  match lru_get worker_id (c_workers c) with
  | (Some e, w) => (if alive now e then Some (e_value e) else None, mkCache (c_resolutions c) w)
  | (None, w) => (None, mkCache (c_resolutions c) w)
  end.

Definition put_worker (meta : WorkerMeta) (now : Z) (c : Cache) : Cache :=
  mkCache (c_resolutions c) (lru_put (wm_id meta) (mkEntry meta now) (c_workers c)).

Definition cache_clear (c : Cache) : Cache :=
  mkCache (lru_clear (c_resolutions c)) (lru_clear (c_workers c)).

(** The statics [ENABLED], [GENERATION] and [CACHE]. *)
Record globals := mkGlobals { enabled : bool; generation : Z; g_cache : Cache }.

Definition begin (g : globals) : option Z := if enabled g then Some (generation g) else None.

Definition still (gen : option Z) (g : globals) : bool :=
  match gen with Some n => enabled g && (generation g =? n) | None => false end.

Definition store_resolution (gen : option Z) (key : Key) (value : option RequestResolution) (now : Z)
  (g : globals) : globals :=
  if still gen g then mkGlobals (enabled g) (generation g) (put_resolution key value now (g_cache g))
  else g.

Definition store_worker (gen : option Z) (meta : WorkerMeta) (now : Z) (g : globals) : globals :=
  if still gen g then mkGlobals (enabled g) (generation g) (put_worker meta now (g_cache g))
  else g.

(** The two halves of [invalidate]: the generation first, then the cache. *)
Definition bump (g : globals) : globals :=
  mkGlobals (enabled g) (wrap_u64 (generation g + 1)) (g_cache g).
Definition clear_all (g : globals) : globals :=
  mkGlobals (enabled g) (generation g) (cache_clear (g_cache g)).
Definition invalidate (g : globals) : globals := clear_all (bump g).

Definition set_enabled (b : bool) (g : globals) : globals :=
  mkGlobals b (generation g) (g_cache g).
Definition set_cache (c : Cache) (g : globals) : globals :=
  mkGlobals (enabled g) (generation g) c.

(** [resolve] with nothing in between its steps. [pool]: the answer of the
    database, with the connection of the pool or the error. *)
Definition resolve (pool : Key -> result (option RequestResolution) SqlxError)
  (host worker_id worker_name : option string) (path : string) (now : Z) (g : globals) :
  result (option RequestResolution) SqlxError * globals :=
  let key := mkKey host worker_id worker_name (Some path) in
  let gen := begin g in
  let '(hit, g) := match gen with
                   | Some _ => let '(v, c) := resolution key now (g_cache g) in (v, set_cache c g)
                   | None => (None, g)
                   end in
  match hit with
  | Some v => (Ok v, g)
  | None =>
    match pool key with
    | Ok v => (Ok v, store_resolution gen key v now g)
    | Err e => (Err e, g)
    end
  end.

(** [worker]: the worker and its bindings from memory or the database, then
    its code. [conn]: whether the pool gives a connection. *)
Definition worker {C} `{!Lru (string * Z) string C} (db : Db) (conn : result unit SqlxError)
  (worker_id : string) (now : Z) (g : globals) (code : CodeCache C) :
  result (option WorkerWithBindings) SqlxError * globals * CodeCache C :=
  let gen := begin g in
  let '(cached, g) := match gen with
                      | Some _ => let '(v, c) := cache_worker worker_id now (g_cache g) in (v, set_cache c g)
                      | None => (None, g)
                      end in
  let finish m g :=
    match meta_cached_code m code with
    | (Some src, code) => (Ok (Some (into_worker m src)), g, code)
    | (None, code) =>
      match conn with
      | Err e => (Err e, g, code)
      | Ok _ => let '(w, code) := with_code db m code in (Ok w, g, code)
      end
    end in
  match cached with
  | Some m => finish m g
  | None =>
    match conn with
    | Err e => (Err e, g, code)
    | Ok _ =>
      match get_worker_meta db (Id worker_id) with
      | None => (Ok None, g, code)
      | Some m => finish m (store_worker gen m now g)
      end
    end
  end.

(** ** Lookups, changes and the listener, interleaved *)

(** A database state, and what it answers: the PL/SQL function, and the
    worker of an id. *)
Variable D : Type.
Variable resolve_db : D -> Key -> option RequestResolution.
Variable meta_db : D -> string -> option WorkerMeta.

Inductive question : Type := QRes (key : Key) | QWorker (id : string).

Inductive lookup_pc : Type :=
| LIdle
| LEnabled (q : question)
| LBegun (q : question) (gen : option Z)
| LMissed (q : question) (gen : option Z)
| LReadRes (key : Key) (gen : option Z) (v : option RequestResolution)
| LReadWorker (id : string) (gen : option Z) (m : WorkerMeta).

(** Where [listen] and [listen_once] stand. From [Listening] on, the
    connection takes notifications; from [Lost] on, it is gone. *)
Inductive listener_pc : Type :=
| Start | Connecting | Listening | OnBumped | OnCleared | On | NotifyBumped
| Lost | LostBumped | Sleeping.

Definition connected (l : listener_pc) : bool :=
  match l with Listening | OnBumped | OnCleared | On | NotifyBumped => true | _ => false end.

Record state := mkState {
  gl : globals; db : D; listener : listener_pc; pending : Z; now : Z; lookups : list lookup_pc }.

Definition upd (g : globals) (l : listener_pc) (s : state) : state :=
  mkState g (db s) l (pending s) (now s) (lookups s).
Definition set_lookup (i : nat) (pc : lookup_pc) (g : globals) (s : state) : state :=
  mkState g (db s) (listener s) (pending s) (now s) (<[i := pc]> (lookups s)).

Definition ask (d : D) (q : question) (gen : option Z) : lookup_pc :=
  match q with
  | QRes key => LReadRes key gen (resolve_db d key)
  | QWorker id => match meta_db d id with
                  | Some m => LReadWorker id gen m
                  | None => LIdle
                  end
  end.

(** The cache check of a lookup: whether it hits, and the cache after. *)
Definition check (q : question) (n : Z) (c : Cache) : bool * Cache :=
  match q with
  | QRes key => let '(v, c) := resolution key n c in (bool_decide (is_Some v), c)
  | QWorker id => let '(v, c) := cache_worker id n c in (match v with Some _ => true | None => false end, c)
  end.

(** [begin] reads [ENABLED] and [GENERATION] one after the other. A store
    holds the lock of the cache, so a bump between its test and its put is
    followed by the clear of that bump: the two commute. *)
Inductive step : state -> state -> Prop :=
| s_enabled s i q :
    lookups s !! i = Some LIdle ->
    (forall key, q = QRes key -> is_Some (k_path key)) ->
    step s (set_lookup i (if enabled (gl s) then LEnabled q else LBegun q None) (gl s) s)
| s_generation s i q :
    lookups s !! i = Some (LEnabled q) ->
    step s (set_lookup i (LBegun q (Some (generation (gl s)))) (gl s) s)
| s_check s i q n hit c :
    lookups s !! i = Some (LBegun q (Some n)) ->
    check q (now s) (g_cache (gl s)) = (hit, c) ->
    step s (set_lookup i (if hit : bool then LIdle else LMissed q (Some n)) (set_cache c (gl s)) s)
| s_off s i q :
    lookups s !! i = Some (LBegun q None) ->
    step s (set_lookup i (LMissed q None) (gl s) s)
| s_read s i q gen :
    lookups s !! i = Some (LMissed q gen) ->
    step s (set_lookup i (ask (db s) q gen) (gl s) s)
| s_store_res s i key gen v :
    lookups s !! i = Some (LReadRes key gen v) ->
    step s (set_lookup i LIdle (store_resolution gen key v (now s) (gl s)) s)
| s_store_worker s i id gen m :
    lookups s !! i = Some (LReadWorker id gen m) ->
    step s (set_lookup i LIdle (store_worker gen m (now s) (gl s)) s)
| s_tick s d : 0 <= d ->
    step s (mkState (gl s) (db s) (listener s) (pending s) (now s + d) (lookups s))
| s_change s d :
    step s (mkState (gl s) d (listener s)
              (if connected (listener s) then pending s + 1 else pending s) (now s) (lookups s))
| s_start s : listener s = Start -> step s (upd (set_enabled false (gl s)) Connecting s)
| s_refused s : listener s = Connecting -> step s (upd (gl s) Lost s)
| s_connect s : listener s = Connecting ->
    step s (mkState (gl s) (db s) Listening 0 (now s) (lookups s))
| s_no_triggers s : listener s = Listening -> step s (upd (gl s) Lost s)
| s_on_bump s : listener s = Listening -> step s (upd (bump (gl s)) OnBumped s)
| s_on_clear s : listener s = OnBumped -> step s (upd (clear_all (gl s)) OnCleared s)
| s_on s : listener s = OnCleared -> step s (upd (set_enabled true (gl s)) On s)
| s_notify s : listener s = On -> 0 < pending s -> step s (upd (bump (gl s)) NotifyBumped s)
| s_notify_clear s : listener s = NotifyBumped ->
    step s (mkState (clear_all (gl s)) (db s) On (pending s - 1) (now s) (lookups s))
| s_lost s : connected (listener s) = true -> listener s <> NotifyBumped ->
    step s (mkState (gl s) (db s) Lost 0 (now s) (lookups s))
| s_lost_bump s : listener s = Lost -> step s (upd (bump (gl s)) LostBumped s)
| s_lost_clear s : listener s = LostBumped -> step s (upd (clear_all (gl s)) Sleeping s)
| s_again s : listener s = Sleeping -> step s (upd (gl s) Start s).

Definition init (d : D) (n : nat) : state :=
  mkState (mkGlobals false 0 (cache_new RESOLUTIONS WORKERS)) d Start 0 0 (replicate n LIdle).

(** ** Coherence *)

(** What the comment of [put_resolution] says of the database: only a project
    reads the path. *)
Hypothesis path_independent : forall d key p,
  standalone (resolve_db d key) = true -> resolve_db d (with_path p key) = resolve_db d key.
(** The worker of an id has that id. *)
Hypothesis meta_id : forall d id m, meta_db d id = Some m -> wm_id m = id.

Definition coherent_res (d : D) (kv : Key * Entry (option RequestResolution)) : Prop :=
  match k_path kv.1 with
  | Some _ => resolve_db d kv.1 = e_value kv.2
  | None => forall p, resolve_db d (with_path (Some p) kv.1) = e_value kv.2
  end.

Definition coherent_worker (d : D) (kv : string * Entry WorkerMeta) : Prop :=
  meta_db d kv.1 = Some (e_value kv.2).

Definition coherent (d : D) (c : Cache) : Prop :=
  (forall kv, kv ∈ lru_entries (c_resolutions c) -> coherent_res d kv) /\
  (forall kv, kv ∈ lru_entries (c_workers c) -> coherent_worker d kv).

Definition cache_ok (c : Cache) : Prop := lru_ok (c_resolutions c) /\ lru_ok (c_workers c).

(** A value read by a lookup that can still store it agrees with the
    database. *)
Definition fresh_lookup (s : state) (pc : lookup_pc) : Prop :=
  match pc with
  | LReadRes key (Some n) v => n = generation (gl s) -> resolve_db (db s) key = v
  | LReadWorker id (Some n) m => n = generation (gl s) -> meta_db (db s) id = Some m
  | _ => True
  end.

Definition gen_of (pc : lookup_pc) : option Z :=
  match pc with
  | LIdle | LEnabled _ => None
  | LBegun _ g | LMissed _ g | LReadRes _ g _ | LReadWorker _ g _ => g
  end.

Definition key_ok (pc : lookup_pc) : Prop :=
  match pc with
  | LEnabled (QRes key) | LBegun (QRes key) _ | LMissed (QRes key) _ | LReadRes key _ _ => is_Some (k_path key)
  | LReadWorker id _ m => wm_id m = id
  | _ => True
  end.

(** ** Lemmas on the cache *)

Definition same_entries (c c' : Cache) : Prop :=
  (forall kv, kv ∈ lru_entries (c_resolutions c') <-> kv ∈ lru_entries (c_resolutions c)) /\
  (forall kv, kv ∈ lru_entries (c_workers c') <-> kv ∈ lru_entries (c_workers c)).

Lemma lookup_one_spec n key c v c' :
  lru_ok c -> lookup_one n key c = (v, c') ->
  lru_ok c' /\ (forall kv, kv ∈ lru_entries c' <-> kv ∈ lru_entries c) /\
  (forall w, v = Some w -> exists e, (key, e) ∈ lru_entries c /\ e_value e = w /\ alive n e = true).
Proof.
  intros Hok H. unfold lookup_one in H. destruct (lru_get key c) as [[e|] c1] eqn:E.
  - destruct (lru_get_incl _ _ _ _ Hok E) as (? & He & ?).
    destruct (alive n e) eqn:Ea; simplify_eq; split_and!; try done.
    intros w ?; simplify_eq. exists e. split; [|done]. symmetry in He. by apply assoc_In in He.
  - destruct (lru_get_incl _ _ _ _ Hok E) as (? & He & ?). simplify_eq. split_and!; done.
Qed.

(** A hit comes from an entry of the key, with or without its path, that is
    younger than the TTL. *)
Lemma resolution_spec key n c v c' :
  cache_ok c -> resolution key n c = (v, c') ->
  cache_ok c' /\ same_entries c c' /\
  (forall w, v = Some w -> exists k e,
     (k = with_path None key \/ k = key) /\ (k, e) ∈ lru_entries (c_resolutions c) /\
     e_value e = w /\ alive n e = true).
Proof.
  intros [Hr Hw] H. unfold resolution in H.
  destruct (lookup_one n (with_path None key) (c_resolutions c)) as [[v1|] r1] eqn:E1;
    destruct (lookup_one_spec _ _ _ _ _ Hr E1) as (Hok1 & Hs1 & Hv1).
  - simplify_eq. split; [done|]. split; [done|]. intros w ?; simplify_eq.
    destruct (Hv1 w eq_refl) as (e & ? & ? & ?). exists (with_path None key), e. eauto.
  - destruct (lookup_one n key r1) as [v2 r2] eqn:E2.
    destruct (lookup_one_spec _ _ _ _ _ Hok1 E2) as (Hok2 & Hs2 & Hv2). simplify_eq.
    split; [done|]. split.
    + split; [|done]. intros kv. simpl. by rewrite Hs2, Hs1.
    + intros w ?; simplify_eq. destruct (Hv2 w eq_refl) as (e & He & ? & ?).
      exists key, e. rewrite <- Hs1. eauto.
Qed.

Lemma cache_worker_spec id n c v c' :
  cache_ok c -> cache_worker id n c = (v, c') ->
  cache_ok c' /\ same_entries c c' /\
  (forall m, v = Some m -> exists e, (id, e) ∈ lru_entries (c_workers c) /\ e_value e = m /\ alive n e = true).
Proof.
  intros [Hr Hw] H. unfold cache_worker in H.
  destruct (lru_get id (c_workers c)) as [[e|] w] eqn:E;
    destruct (lru_get_incl _ _ _ _ Hw E) as (? & He & ?).
  - destruct (alive n e) eqn:Ea; simplify_eq; (split; [done|]; split; [done|]); [|done].
    intros m ?; simplify_eq. exists e. split; [|done]. symmetry in He. by apply assoc_In in He.
  - simplify_eq. by split_and!.
Qed.

Lemma check_spec q n c hit c' :
  cache_ok c -> check q n c = (hit, c') -> cache_ok c' /\ same_entries c c'.
Proof.
  intros Hok H. destruct q as [key|id]; simpl in H.
  - destruct (resolution key n c) as [v c1] eqn:E. simplify_eq.
    by destruct (resolution_spec _ _ _ _ _ Hok E) as (? & ? & _).
  - destruct (cache_worker id n c) as [v c1] eqn:E. simplify_eq.
    by destruct (cache_worker_spec _ _ _ _ _ Hok E) as (? & ? & _).
Qed.

Lemma coherent_same d c c' : same_entries c c' -> coherent d c -> coherent d c'.
Proof. intros [H1 H2] [C1 C2]. split; intros kv Hkv; [apply C1, H1, Hkv|apply C2, H2, Hkv]. Qed.

Lemma cache_clear_ok c : cache_ok c ->
  cache_ok (cache_clear c) /\ lru_entries (c_resolutions (cache_clear c)) = [] /\
  lru_entries (c_workers (cache_clear c)) = [].
Proof.
  intros [Hr Hw]. destruct (lru_clear_spec _ Hr) as (? & _ & ?).
  destruct (lru_clear_spec _ Hw) as (? & _ & ?). done.
Qed.

Lemma coherent_empty d c :
  lru_entries (c_resolutions c) = [] -> lru_entries (c_workers c) = [] -> coherent d c.
Proof. intros H1 H2. split; intros kv; rewrite ?H1, ?H2; set_solver. Qed.

Lemma with_path_same key p : k_path key = p -> with_path p key = key.
Proof. intros <-. by destruct key. Qed.

Lemma put_resolution_ok key v n c : cache_ok c -> cache_ok (put_resolution key v n c).
Proof. intros [Hr Hw]. split; [|done]. simpl. by apply lru_put_incl. Qed.

Lemma put_worker_ok m n c : cache_ok c -> cache_ok (put_worker m n c).
Proof. intros [Hr Hw]. split; [done|]. simpl. by apply lru_put_incl. Qed.

Lemma put_resolution_coherent d key v n c :
  cache_ok c -> is_Some (k_path key) -> resolve_db d key = v -> coherent d c ->
  coherent d (put_resolution key v n c).
Proof.
  intros [Hr Hw] Hp Hv [C1 C2]. split; [|done]. intros kv Hkv. simpl in Hkv.
  apply lru_put_incl in Hkv as [->|Hkv]; [|by apply C1|done].
  unfold coherent_res. simpl. destruct (standalone v) eqn:Es; simpl.
  - intros p. rewrite <- Hv in *. rewrite <- (path_independent d key (Some p) Es). done.
  - destruct Hp as [p ->]. done.
Qed.

Lemma put_worker_coherent d m n c :
  cache_ok c -> meta_db d (wm_id m) = Some m -> coherent d c -> coherent d (put_worker m n c).
Proof.
  intros [Hr Hw] Hm [C1 C2]. split; [done|]. intros kv Hkv. simpl in Hkv.
  apply lru_put_incl in Hkv as [->|Hkv]; [done|by apply C2|done].
Qed.

(** ** The invariant of the interleavings *)

Definition waits (s : state) : Z :=
  match listener s with NotifyBumped => pending s - 1 | _ => pending s end.

(** The listener takes notifications and has invalidated once. *)
Definition synced (l : listener_pc) : bool :=
  match l with OnBumped | OnCleared | On | NotifyBumped => true | _ => false end.
Definition served (l : listener_pc) : bool :=
  match l with OnCleared | On | NotifyBumped => true | _ => false end.

Definition lookups_ok (s : state) : Prop :=
  forall i pc, lookups s !! i = Some pc ->
    key_ok pc /\ (forall g, gen_of pc = Some g -> g <= generation (gl s)) /\
    (synced (listener s) = true -> waits s = 0 -> fresh_lookup s pc).

Record inv (s : state) : Prop := mkInv {
  inv_cache : cache_ok (g_cache (gl s));
  inv_generation : 0 <= generation (gl s);
  inv_lookups : lookups_ok s;
  inv_pending : 0 <= pending s;
  inv_notify : listener s = NotifyBumped -> 0 < pending s;
  inv_coherent : served (listener s) = true -> pending s = 0 -> coherent (db s) (g_cache (gl s)) }.

Lemma inv_waits s : inv s -> 0 <= waits s <= pending s.
Proof.
  intros H. pose proof (inv_pending s H). pose proof (inv_notify s H).
  unfold waits. destruct (listener s); try lia. specialize (H1 eq_refl). lia.
Qed.

Lemma fresh_lookup_gen s pc :
  (forall g, gen_of pc = Some g -> g < generation (gl s)) -> fresh_lookup s pc.
Proof. destruct pc as [| |? ?|? ?|? [?|] ?|? [?|] ?]; simpl; try done; intros H Hg; specialize (H _ eq_refl); lia. Qed.

(** One lookup moves, the listener and the database do not. *)
Lemma lookups_ok_set i pc g s :
  lookups_ok s -> generation g = generation (gl s) -> key_ok pc ->
  (forall n, gen_of pc = Some n -> n <= generation (gl s)) ->
  (synced (listener s) = true -> waits s = 0 -> fresh_lookup s pc) ->
  lookups_ok (set_lookup i pc g s).
Proof.
  intros Hl Hg Hk Hn Hf j pc' Hj. simpl in *.
  apply list_lookup_insert_Some in Hj as [(-> & -> & _)|(_ & Hj)].
  - rewrite Hg. split_and!; [done..|]. intros H1 H2. specialize (Hf H1 H2).
    destruct pc' as [| |? ?|? ?|? [?|] ?|? [?|] ?]; simpl in *; try done; by rewrite Hg.
  - destruct (Hl _ _ Hj) as (? & ? & Hf'). rewrite Hg. split_and!; [done..|].
    intros H1 H2. specialize (Hf' H1 H2).
    destruct pc' as [| |? ?|? ?|? [?|] ?|? [?|] ?]; simpl in *; try done; by rewrite Hg.
Qed.

Lemma inv_set_lookup i pc g s :
  inv s -> generation g = generation (gl s) -> cache_ok (g_cache g) ->
  (served (listener s) = true -> pending s = 0 -> coherent (db s) (g_cache g)) -> key_ok pc ->
  (forall n, gen_of pc = Some n -> n <= generation (gl s)) ->
  (synced (listener s) = true -> waits s = 0 -> fresh_lookup s pc) ->
  inv (set_lookup i pc g s).
Proof.
  intros Hi Hg Hc Hco Hk Hn Hf. destruct Hi. constructor; simpl; try done.
  - by rewrite Hg.
  - by apply lookups_ok_set.
Qed.

(** A bump makes every lookup in flight too old to store. *)
Lemma lookups_ok_bump l s :
  lookups_ok s -> 0 <= generation (gl s) -> generation (gl s) + 1 < 2 ^ 64 ->
  lookups_ok (upd (bump (gl s)) l s).
Proof.
  intros Hl H0 Hg i pc Hpc. destruct (Hl i pc Hpc) as (Hk & Hn & _).
  assert (generation (bump (gl s)) = generation (gl s) + 1) as Hb
    by (simpl; unfold wrap_u64; apply Z.mod_small; lia).
  split_and!; [done| |]; simpl in *.
  - intros g Hgen. rewrite Hb. specialize (Hn g Hgen). lia.
  - intros _ _. apply fresh_lookup_gen. simpl. intros g Hgen. rewrite Hb. specialize (Hn g Hgen). lia.
Qed.

Lemma inv_bump l s :
  inv s -> generation (gl s) + 1 < 2 ^ 64 -> served l = false \/ l = NotifyBumped /\ 0 < pending s ->
  inv (upd (bump (gl s)) l s).
Proof.
  intros Hi Hg Hl. destruct Hi. constructor; simpl; try done.
  - unfold wrap_u64. apply Z.mod_pos_bound. lia.
  - by apply lookups_ok_bump.
  - intros ->. by destruct Hl as [?|[_ ?]].
  - intros Hsv Hp. destruct Hl as [?|[_ ?]]; [congruence|lia].
Qed.

Lemma served_synced l : served l = true -> synced l = true.
Proof. by destruct l. Qed.

(** The listener moves and leaves the generation. *)
Lemma inv_listener g d l p t s :
  inv s -> generation g = generation (gl s) -> cache_ok (g_cache g) -> 0 <= p ->
  l <> NotifyBumped -> (synced l = true -> synced (listener s) = true /\ d = db s /\ (p = 0 -> waits s = 0)) ->
  (served l = true -> p = 0 -> coherent d (g_cache g)) ->
  inv (mkState g d l p t (lookups s)).
Proof.
  intros Hi Hg Hc Hp Hl Hsy Hco. destruct Hi as [? ? Hlk ? ? ?]. constructor; simpl; try done.
  - by rewrite Hg.
  - intros i pc Hpc. destruct (Hlk i pc Hpc) as (? & ? & Hf). simpl. rewrite Hg. split_and!; [done..|].
    intros Hs Hw. destruct (Hsy Hs) as (Hs' & -> & Hp0).
    assert (waits s = 0) as Hw0 by (apply Hp0; unfold waits in Hw; simpl in Hw; by destruct l).
    specialize (Hf Hs' Hw0).
    destruct pc as [| |? ?|? ?|? [?|] ?|? [?|] ?]; simpl in *; try done; by rewrite Hg.
Qed.

Lemma clear_all_ok g : cache_ok (g_cache g) -> cache_ok (g_cache (clear_all g)).
Proof. intros H. by destruct (cache_clear_ok _ H) as (? & ? & ?). Qed.

Lemma clear_all_coherent g d : cache_ok (g_cache g) -> coherent d (g_cache (clear_all g)).
Proof. intros H. destruct (cache_clear_ok _ H) as (? & ? & ?). by apply coherent_empty. Qed.

Lemma inv_change d s :
  inv s ->
  inv (mkState (gl s) d (listener s)
         (if connected (listener s) then pending s + 1 else pending s) (now s) (lookups s)).
Proof.
  intros Hi. pose proof (inv_waits s Hi) as Hw. destruct Hi as [? ? Hlk ? Hn ?].
  constructor; simpl; try done.
  - intros i pc Hpc. destruct (Hlk i pc Hpc) as (? & ? & _). split_and!; [done..|].
    unfold waits in *. simpl. destruct (listener s); simpl; try done; lia.
  - destruct (connected _); lia.
  - intros Hl. rewrite Hl. simpl. specialize (Hn Hl). lia.
  - destruct (listener s); simpl; try done; lia.
Qed.

(** A lookup that stores what it read stores a value that agrees with the
    database, when no notification waits. *)
Lemma inv_store_resolution i key gen v s :
  inv s -> lookups s !! i = Some (LReadRes key gen v) ->
  inv (set_lookup i LIdle (store_resolution gen key v (now s) (gl s)) s).
Proof.
  intros Hi Hpc. destruct (inv_lookups s Hi _ _ Hpc) as (Hk & Hn & Hf).
  pose proof (inv_waits s Hi) as Hw.
  unfold store_resolution. destruct (still gen (gl s)) eqn:Es;
    apply inv_set_lookup; simpl; try done; try apply Hi.
  - apply put_resolution_ok, Hi.
  - intros Hsv Hp. destruct gen as [n|]; [|done]. simpl in *. reflect_bools.
    apply put_resolution_coherent; [apply Hi|done| |by apply Hi].
    apply Hf; [by apply served_synced|lia|done].
Qed.

Lemma inv_store_worker i id gen m s :
  inv s -> lookups s !! i = Some (LReadWorker id gen m) ->
  inv (set_lookup i LIdle (store_worker gen m (now s) (gl s)) s).
Proof.
  intros Hi Hpc. destruct (inv_lookups s Hi _ _ Hpc) as (Hk & Hn & Hf).
  pose proof (inv_waits s Hi) as Hw.
  unfold store_worker. destruct (still gen (gl s)) eqn:Es;
    apply inv_set_lookup; simpl; try done; try apply Hi.
  - apply put_worker_ok, Hi.
  - intros Hsv Hp. destruct gen as [n|]; [|done]. simpl in *. reflect_bools.
    apply put_worker_coherent; [apply Hi| |by apply Hi]. rewrite Hk.
    apply Hf; [by apply served_synced|lia|done].
Qed.

Lemma key_ok_ask d q gen : key_ok (LMissed q gen) -> key_ok (ask d q gen).
Proof. destruct q as [key|id]; simpl; [done|]. destruct (meta_db d id) eqn:E; simpl; [|done]. eauto. Qed.

Lemma gen_of_ask d q gen n : gen_of (ask d q gen) = Some n -> gen = Some n.
Proof. destruct q as [key|id]; simpl; [done|]. by destruct (meta_db d id). Qed.

Lemma fresh_ask s q gen : fresh_lookup s (ask (db s) q gen).
Proof.
  destruct q as [key|id]; simpl; [by destruct gen|].
  destruct (meta_db (db s) id) eqn:E; simpl; [by destruct gen|done].
Qed.

Lemma rc_inv_step s s' : inv s -> generation (gl s) + 1 < 2 ^ 64 -> step s s' -> inv s'.
Proof.
  intros Hi Hg Hstep. pose proof (inv_waits s Hi) as Hw.
  destruct Hstep as [s i q Hpc Hk|s i q Hpc|s i q n hit c Hpc Hc|s i q Hpc|s i q gen Hpc|s i key gen v Hpc
    |s i id gen m Hpc|s d Hd|s d|s Hl|s Hl|s Hl|s Hl|s Hl|s Hl|s Hl|s Hl Hp|s Hl|s Hl Hn|s Hl|s Hl|s Hl].
  - apply inv_set_lookup; try done; try apply Hi; destruct (enabled (gl s)), q; simpl; eauto; done.
  - destruct (inv_lookups s Hi _ _ Hpc) as (Hk & _ & _).
    apply inv_set_lookup; try done; try apply Hi. simpl. intros; simplify_eq; lia.
  - destruct (inv_lookups s Hi _ _ Hpc) as (Hk & Hn & _).
    destruct (check_spec _ _ _ _ _ (inv_cache s Hi) Hc) as [? Hs].
    apply inv_set_lookup; try done; destruct hit; try done.
    all: intros ? ?; eapply coherent_same; [exact Hs|by apply Hi].
  - destruct (inv_lookups s Hi _ _ Hpc) as (Hk & Hn & _).
    apply inv_set_lookup; try done; apply Hi.
  - destruct (inv_lookups s Hi _ _ Hpc) as (Hk & Hn & _).
    apply inv_set_lookup; try done; try apply Hi.
    + by apply key_ok_ask.
    + intros n Hask. apply Hn. by apply gen_of_ask in Hask.
    + intros _ _. apply fresh_ask.
  - by apply inv_store_resolution.
  - eapply inv_store_worker; eauto.
  - destruct Hi as [? ? ? ? ? ?]. by constructor.
  - by apply inv_change.
  - apply inv_listener; try done; apply Hi.
  - apply inv_listener; try done; apply Hi.
  - apply inv_listener; try done; apply Hi.
  - apply inv_listener; try done; apply Hi.
  - apply inv_bump; try done; eauto.
  - apply inv_listener; try done; try (by apply clear_all_ok, Hi);
    try (intros _ _; by apply clear_all_coherent, Hi); try (by apply Hi).
    intros _. unfold waits. by rewrite Hl.
  - apply inv_listener; try done; try (by apply Hi); try (by rewrite Hl; apply Hi; rewrite Hl).
    + intros _. unfold waits. by rewrite Hl.
    + intros _ Hp. apply Hi; [by rewrite Hl|done].
  - apply inv_bump; try done; eauto.
  - apply inv_listener; try done; try (by apply clear_all_ok, Hi);
    try (intros _ _; by apply clear_all_coherent, Hi).
    + pose proof (inv_notify s Hi Hl). lia.
    + intros _. unfold waits. by rewrite Hl.
  - apply inv_listener; try done; apply Hi.
  - apply inv_bump; try done; eauto.
  - apply inv_listener; try done; try (by apply clear_all_ok, Hi);
    try (intros _ _; by apply clear_all_coherent, Hi); apply Hi.
  - apply inv_listener; try done; apply Hi.
Qed.

Lemma step_generation s s' :
  0 <= generation (gl s) -> step s s' -> generation (gl s') <= generation (gl s) + 1.
Proof.
  intros H0 Hstep. destruct Hstep; simpl; try lia;
    try (unfold store_resolution; destruct (still _ _); simpl; lia);
    try (unfold store_worker; destruct (still _ _); simpl; lia);
    unfold wrap_u64; apply Z.mod_le; lia.
Qed.

Lemma rc_inv_init d k : inv (init d k).
Proof.
  constructor; simpl; try done; [split; apply lru_new_ok; vm_compute; lia|].
  intros i pc Hpc. apply lookup_replicate in Hpc as [-> _]. done.
Qed.

Lemma rc_inv_reachable d k n s :
  Z.of_nat n < 2 ^ 64 -> nsteps step n (init d k) s ->
  inv s /\ generation (gl s) <= Z.of_nat n.
Proof.
  revert s. induction n as [|n IH]; intros s Hn Hs.
  - inversion Hs; subst. split; [apply rc_inv_init|done].
  - apply nsteps_inv_r in Hs as (t & Ht & Hstep). destruct (IH t) as [Hi Hg]; [lia|done|].
    split; [eapply rc_inv_step; eauto; lia|].
    pose proof (step_generation _ _ (inv_generation t Hi) Hstep). lia.
Qed.

(** ** What a cache answers *)

Definition live (now : Z) (o : option (Entry (option RequestResolution))) :
  option (option RequestResolution) :=
  match o with Some e => if alive now e then Some (e_value e) else None | None => None end.

Lemma lookup_one_value n key c :
  lru_ok c -> (lookup_one n key c).1 = live n (assoc key (lru_entries c)) /\
  lru_ok (lookup_one n key c).2 /\
  (forall k, assoc k (lru_entries (lookup_one n key c).2) = assoc k (lru_entries c)).
Proof.
  intros Hok. unfold lookup_one. destruct (lru_get key c) as [o c1] eqn:E.
  destruct (lru_get_spec _ _ _ _ Hok E) as (? & _ & -> & He).
  destruct (assoc key (lru_entries c)); simpl; (split; [done|]; split; [done|]);
    intros k; rewrite He; apply assoc_touch.
Qed.

Lemma resolution_value key n c :
  cache_ok c ->
  (resolution key n c).1 =
  match live n (assoc (with_path None key) (lru_entries (c_resolutions c))) with
  | Some v => Some v
  | None => live n (assoc key (lru_entries (c_resolutions c)))
  end.
Proof.
  intros [Hr Hw]. unfold resolution.
  destruct (lookup_one_value n (with_path None key) _ Hr) as (H1 & Hok1 & Ha).
  destruct (lookup_one n (with_path None key) (c_resolutions c)) as [v1 r1]. simpl in *.
  rewrite <- H1. destruct v1; [done|].
  destruct (lookup_one_value n key _ Hok1) as (H2 & _ & _).
  destruct (lookup_one n key r1) as [v2 r2]. simpl in *. by rewrite H2, Ha.
Qed.

Lemma lru_put_clear_assoc {K V C} `{Lru K V C} (k : K) (v : V) (c : C) j :
  lru_ok c -> assoc j (lru_entries (lru_put k v (lru_clear c))) = if decide (j = k) then Some v else None.
Proof.
  intros Hok. destruct (lru_clear_spec _ Hok) as (Hok' & _ & He).
  unfold lru_put. destruct (lru_push k v (lru_clear c)) as [o c'] eqn:E.
  destruct (lru_push_spec _ _ _ _ _ Hok' E) as (_ & _ & Hs). rewrite He in Hs. simpl in *.
  case_match.
  - by destruct Hs as [_ ->].
  - destruct (lru_ok_wf _ Hok') as (_ & _ & Hc). simpl in *.
    match goal with H : (0 <? _)%nat = false |- _ => apply Nat.ltb_ge in H end. lia.
Qed.

(** After an invalidation, what a lookup stores is what the cache answers
    for the next 60 seconds: for every path of the same host and headers when
    it is a standalone worker, for the same path only otherwise; nothing else
    is answered. *)
Theorem resolution_after_put key key' v t n c :
  cache_ok c -> is_Some (k_path key) -> is_Some (k_path key') ->
  (resolution key' n (put_resolution key v t (cache_clear c))).1 =
  if (n - t <? TTL) &&
     (bool_decide (key' = key) ||
      standalone v && bool_decide (with_path None key' = with_path None key))%bool
  then Some v else None.
Proof.
  intros [Hr Hw] [p Hp] [p' Hp'].
  rewrite resolution_value by (apply put_resolution_ok; by apply cache_clear_ok).
  unfold put_resolution. cbn [c_resolutions cache_clear]. rewrite !lru_put_clear_assoc by done.
  replace (n - t <? TTL) with (alive n (mkEntry v t))
    by (unfold alive; simpl; apply eq_true_iff_eq; rewrite !Z.ltb_lt; unfold TTL, SECOND; lia).
  destruct key as [h w m q], key' as [h' w' m' q']. unfold with_path. simpl in *. subst.
  destruct (standalone v); simpl; repeat case_decide; simplify_eq/=;
    repeat case_bool_decide; simplify_eq/=; try done; by destruct (alive n _).
Qed.

(** C3. While the listener is connected and has no notification left to
    handle, a lookup answers what the database holds: [resolve] returns the
    answer of the database for every request, and a worker found in memory is
    the worker of the database. This holds for every interleaving of lookups,
    database changes and listener restarts of fewer than 2^64 steps. *)
Theorem resolve_coherent d k n s host id name path :
  Z.of_nat n < 2 ^ 64 -> nsteps step n (init d k) s -> listener s = On -> pending s = 0 ->
  (resolve (fun key => Ok (resolve_db (db s) key)) host id name path (now s) (gl s)).1 =
    Ok (resolve_db (db s) (mkKey host id name (Some path))) /\
  (forall w m, (cache_worker w (now s) (g_cache (gl s))).1 = Some m -> meta_db (db s) w = Some m).
Proof.
  intros Hn Hs Hl Hp. destruct (rc_inv_reachable _ _ _ _ Hn Hs) as [Hi _].
  destruct (inv_coherent s Hi) as [C1 C2]; [by rewrite Hl|done|].
  pose proof (inv_cache s Hi) as Hok. split.
  - unfold resolve. set (key := mkKey host id name (Some path)).
    destruct (begin (gl s)) as [g|]; [|done].
    destruct (resolution key (now s) (g_cache (gl s))) as [v c] eqn:E.
    destruct (resolution_spec _ _ _ _ _ Hok E) as (_ & _ & Hv).
    destruct v as [v|]; [|done]. simpl. f_equal.
    destruct (Hv v eq_refl) as (k' & e & Hk & He & <- & _).
    specialize (C1 _ He). unfold coherent_res in C1. simpl in C1.
    destruct Hk as [->| ->]; simpl in C1; [by rewrite <- (C1 path)|done].
  - intros w m Hm. destruct (cache_worker w (now s) (g_cache (gl s))) as [v c] eqn:E.
    destruct (cache_worker_spec _ _ _ _ _ Hok E) as (_ & _ & Hv). simpl in Hm. subst.
    destruct (Hv m eq_refl) as (e & He & <- & _). apply (C2 _ He).
Qed.
End resolve_cache.

(** ** A database of one standalone worker *)

Arguments mkState {CR CW D}.
Arguments gl {CR CW D}.
Arguments db {CR CW D}.
Arguments listener {CR CW D}.
Arguments pending {CR CW D}.
Arguments now {CR CW D}.
Arguments lookups {CR CW D}.

Section witnesses.
Abbreviation CR := (list_lru Key (Entry (option RequestResolution))).
Abbreviation CW := (list_lru string (Entry WorkerMeta)).

Definition one_worker (id : string) : RequestResolution :=
  mkResolution (Some id) None None None None.

(** The state of the database is the id its only host resolves to. *)
Definition ex_resolve (d : string) (key : Key) : option RequestResolution :=
  match k_host key with Some _ => Some (one_worker d) | None => None end.
Definition ex_meta (d : string) (id : string) : option WorkerMeta := None.
Definition ex_key : Key := mkKey (Some "a.example") None None (Some "/").


Definition ex_state : Type := @state CR CW string.
Abbreviation ex_step := (@step CR CW _ _ string ex_resolve ex_meta).
Abbreviation ex_init := (@init CR CW _ _ string).

Definition ex_cache (es : list (Key * Entry (option RequestResolution))) : @Cache CR CW :=
  mkCache (ListLru RESOLUTIONS es) (ListLru WORKERS []).

(** A state with one idle lookup. *)
Definition ex (en : bool) (gen : Z) es (d : string) (l : listener_pc) (pc : lookup_pc) : ex_state :=
  mkState (mkGlobals en gen (ex_cache es)) d l 0 0 [pc].

(** The listener starts and turns the cache on. *)
Lemma ex_on d : nsteps ex_step 5 (ex_init d 1) (ex true 1 [] d On LIdle).
Proof.
  eapply nsteps_l; [by apply s_start|]. eapply nsteps_l; [by apply s_connect|].
  eapply nsteps_l; [by apply s_on_bump|]. eapply nsteps_l; [by apply s_on_clear|].
  eapply nsteps_l; [by apply s_on|]. apply nsteps_O.
Qed.

(** A lookup that misses and stores, with the listener anywhere. *)
Lemma ex_lookup gen d l :
  nsteps ex_step 5 (ex true gen [] d l LIdle)
    (ex true gen [(with_path None ex_key, mkEntry (Some (one_worker d)) 0)] d l LIdle).
Proof.
  eapply nsteps_l; [by apply (s_enabled _ _ _ _ 0%nat (QRes ex_key)); [|intros ? [= <-]; eexists]|].
  eapply nsteps_l; [by apply (s_generation _ _ _ _ 0%nat (QRes ex_key))|].
  eapply nsteps_l; [by apply (s_check _ _ _ _ 0%nat (QRes ex_key) gen false (ex_cache []))|].
  eapply nsteps_l; [by apply (s_read _ _ _ _ 0%nat (QRes ex_key) (Some gen))|].
  eapply nsteps_l; [by apply (s_store_res _ _ _ _ 0%nat ex_key (Some gen) (Some (one_worker d)))|].
  unfold store_resolution, set_lookup, still. cbn. rewrite Z.eqb_refl. apply nsteps_O.
Qed.

(** The connection is lost: the cache is cleared and the listener sleeps,
    with [ENABLED] still set. *)
Lemma ex_lose gen d : 0 <= gen -> gen + 1 < 2 ^ 64 ->
  nsteps ex_step 3 (ex true gen [] d On LIdle) (ex true (gen + 1) [] d Sleeping LIdle).
Proof.
  intros H0 H1. eapply nsteps_l; [by apply s_lost|]. eapply nsteps_l; [by apply s_lost_bump|].
  eapply nsteps_l; [by apply s_lost_clear|].
  unfold upd, clear_all, bump. cbn. unfold wrap_u64. rewrite Z.mod_small by lia. apply nsteps_O.
Qed.

Lemma resolution_after_put_witness :
  (resolution ex_key 59 (put_resolution ex_key None 0 (cache_clear (ex_cache [])))).1 = Some None.
Proof.
  rewrite (resolution_after_put ex_key ex_key None 0 59 (ex_cache []));
    [vm_compute; reflexivity| |by eexists|by eexists].
  split; (split; [constructor|]); vm_compute; split; lia.
Defined.

Lemma resolve_coherent_witness :
  (resolve (fun key => Ok (ex_resolve "w1" key)) (Some "a.example") None None "/"
     0 (mkGlobals true 1 (ex_cache [(with_path None ex_key, mkEntry (Some (one_worker "w1")) 0)]))).1
  = Ok (Some (one_worker "w1")).
Proof.
  refine (proj1 (resolve_coherent string ex_resolve ex_meta _ _ "w1" 1 10
    (ex true 1 [(with_path None ex_key, mkEntry (Some (one_worker "w1")) 0)] "w1" On LIdle)
    (Some "a.example") None None "/" _ _ eq_refl eq_refl)).
  - done.
  - done.
  - vm_compute. done.
  - apply (nsteps_trans 5 5 _ _ _ (ex_on "w1") (ex_lookup 1 "w1" On)).
Defined.

(** While the listener is not connected the cache can serve, and serve
    what the database no longer holds: [listen] leaves [ENABLED] set for the
    second it sleeps after a lost connection. A lookup of that second stores
    its answer, a change is not notified, and the next lookup is answered
    from memory with the old worker. *)
Theorem serves_stale_while_disconnected :
  exists n s v c, nsteps ex_step n (ex_init "w1" 1) s /\
    connected (listener s) = false /\ begin (gl s) = Some 2 /\
    resolution ex_key (now s) (g_cache (gl s)) = (Some v, c) /\ v <> ex_resolve (db s) ex_key.
Proof.
  exists 14%nat. eexists. eexists. eexists. split.
  - apply (nsteps_trans 5 9 _ _ _ (ex_on "w1")).
    apply (nsteps_trans 3 6 _ _ _ (ex_lose 1 "w1" ltac:(lia) ltac:(lia))).
    apply (nsteps_trans 5 1 _ _ _ (ex_lookup 2 "w1" Sleeping)).
    eapply nsteps_l; [apply (s_change _ _ _ _ "w2")|]. apply nsteps_O.
  - split; [done|]. split; [done|]. split; [vm_compute; reflexivity|]. vm_compute. congruence.
Qed.

End witnesses.
