(* ===== verification/RequestBody.v ===== *)
(** * Request bodies and guest strings (src/src/request_body.rs, src/src/utils.rs)

    The size limit of a request body, and the cut of the strings a guest
    supplies. A string is its UTF-8 bytes. *)

From S2P Require Import Prelude RustStr Extern.

Definition DEFAULT_MAX_REQUEST_BODY_BYTES : Z := 10 * 1024 * 1024.
Definition UPLOAD_MAX_BODY_BYTES : Z := 30 * 1024 * 1024.

(** The extension of a request that raises its limit. *)
Record BodyLimit := mkBodyLimit { body_limit : Z }.

Definition limit_from (value : option string) : result Z string :=
  match value with
  | None => Ok DEFAULT_MAX_REQUEST_BODY_BYTES
  | Some value =>
    let error := Err ("MAX_REQUEST_BODY_BYTES is not a count of bytes above 0: '" +:+ value +:+ "'") in
    match parse_uint U64_MAX (trim value) with
    | Some limit => if 0 <? limit then Ok limit else error
    | None => error
    end
  end.

(** [MAX_REQUEST_BODY_BYTES]: [None] when the static panics. *)
Definition MAX_REQUEST_BODY_BYTES (env : string -> option string) : option Z :=
  result_ok (limit_from (env "MAX_REQUEST_BODY_BYTES")).

Inductive BodyError : Type := TooLarge | ReadError (message : string).

Definition announces_more_than {H} `{HeaderMap H, HeaderValue} (headers : H) (limit : Z) : bool :=
  match hdr_get "content-length" headers with
  | Some value =>
    match hv_to_str value with
    | Some value =>
      match parse_uint U64_MAX value with
      | Some length => limit <? length
      | None => false
      end
    | None => false
    end
  | None => false
  end.

(** [collect] of [http_body_util::Limited] gives the bytes of the body, or
    the error of the limit, or the error of the body. *)
Inductive CollectError : Type := LengthLimit | BodyFailed (message : string).

Definition read {B} (collect : B -> Z -> result string CollectError) (body : B) (limit : Z) :
  result string BodyError :=
  match collect body limit with
  | Ok bytes => Ok bytes
  | Err LengthLimit => Err TooLarge
  | Err (BodyFailed m) => Err (ReadError m)
  end.

(** ** Guest strings *)

(** [is_char_boundary]: the ends, and any byte that does not continue a
    character. *)
Definition is_char_boundary (s : string) (i : nat) : bool :=
  match String.get i s with
  | Some c => negb (is_continuation c)
  | None => (i =? String.length s)%nat
  end.

(** A slice panics off a character boundary. *)
Definition slice_to (s : string) (i : nat) : option string :=
  if is_char_boundary s i then Some (String.substring 0 i s) else None.

Definition short_id (id : string) : option string := slice_to id (Nat.min 8 (String.length id)).

Definition TRUNCATE_LIMIT : nat := Z.to_nat 2048.

(** The loop that steps back to a boundary; offset 0 is always one. *)
Fixpoint boundary_before (s : string) (i : nat) : nat :=
  if is_char_boundary s i then i else match i with O => O | S i => boundary_before s i end.

Definition truncated (text : string) : option string :=
  if (String.length text <=? TRUNCATE_LIMIT)%nat then Some text else
  match slice_to text (boundary_before text TRUNCATE_LIMIT) with
  | Some cut => Some (cut +:+ "... [" +:+ show_Z (str_len text) +:+ " bytes]")
  | None => None
  end.

(** ** Lemmas *)

Lemma boundary_before_spec s i :
  (boundary_before s i <= i)%nat /\
  (is_char_boundary s (boundary_before s i) = true \/ boundary_before s i = 0%nat).
Proof.
  induction i as [|i [IH1 IH2]]; unfold boundary_before; fold boundary_before.
  - destruct (is_char_boundary s 0) eqn:E; auto.
  - destruct (is_char_boundary s (S i)) eqn:E; (split; [lia|]); auto.
Qed.

Lemma boundary_zero s : utf8 0 s = true -> is_char_boundary s 0 = true.
Proof.
  destruct s as [|c s]; [done|]. unfold is_char_boundary. simpl. intros H.
  destruct (width c) eqn:E; [|done]. apply width_not_continuation in E as [-> _]. done.
Qed.

Lemma is_char_boundary_S c s i : is_char_boundary (String c s) (S i) = is_char_boundary s i.
Proof. done. Qed.

(** In well-formed text a boundary is at most 3 bytes back. *)
Lemma boundary_near k s i :
  utf8 k s = true -> (i <= String.length s)%nat -> (k <= 3)%nat ->
  (forall j, (j <= i)%nat -> (i < j + 4)%nat -> is_char_boundary s j = false) -> (i < k)%nat.
Proof.
  revert k i. induction s as [|c s IH]; intros k i Hu Hi Hk Hb.
  - simpl in Hi. assert (i = 0%nat) as -> by lia. destruct k; [|lia].
    by specialize (Hb 0%nat ltac:(lia) ltac:(lia)).
  - destruct i as [|i].
    + destruct k as [|k]; [|lia]. specialize (Hb 0%nat ltac:(lia) ltac:(lia)).
      by rewrite boundary_zero in Hb.
    + assert (forall j, (j <= i)%nat -> (i < j + 4)%nat -> is_char_boundary s j = false) as Hb'.
      { intros j H1 H2. rewrite <- (is_char_boundary_S c). apply Hb; lia. }
      simpl in Hi. destruct k as [|k]; simpl in Hu.
      * destruct (width c) as [w|] eqn:E; [|done].
        pose proof (width_not_continuation _ _ E) as [Hc Hw].
        specialize (IH w i Hu ltac:(lia) Hw Hb').
        destruct (decide (i <= 2)%nat) as [Hle|]; [|lia].
        specialize (Hb 0%nat ltac:(lia) ltac:(lia)). unfold is_char_boundary in Hb. simpl in Hb.
        by rewrite Hc in Hb.
      * reflect_bools. specialize (IH k i ltac:(done) ltac:(lia) ltac:(lia) Hb'). lia.
Qed.

Lemma boundary_before_ge s i j :
  (j <= i)%nat -> is_char_boundary s j = true -> (j <= boundary_before s i)%nat.
Proof.
  induction i as [|i IH]; intros Hj Hb; simpl; [destruct (is_char_boundary s 0); lia|].
  destruct (is_char_boundary s (S i)) eqn:E; [done|].
  destruct (decide (j = S i)) as [->|]; [congruence|]. apply IH; [lia|done].
Qed.

Lemma boundary_before_near s i :
  utf8 0 s = true -> (i <= String.length s)%nat -> (i <= boundary_before s i + 3)%nat.
Proof.
  intros Hu Hi. destruct (decide (i <= boundary_before s i + 3)%nat) as [|Hn]; [done|].
  enough (i < 0)%nat by lia.
  apply (boundary_near 0 s i Hu Hi ltac:(lia)). intros j H1 H2.
  destruct (is_char_boundary s j) eqn:E; [|done].
  pose proof (boundary_before_ge s i j H1 E). lia.
Qed.

Lemma substring_prefix n s : (n <= String.length s)%nat ->
  String.length (String.substring 0 n s) = n /\ exists r, s = String.substring 0 n s +:+ r.
Proof.
  revert n. induction s as [|c s IH]; intros [|n] Hn; simpl in *; try lia; [eauto..|].
  destruct (IH n ltac:(lia)) as [-> [r Hr]]. split; [done|]. exists r. simpl. by rewrite <- Hr.
Qed.

(** ** Properties *)

(** A guest string that is well-formed UTF-8 is never cut inside a
    character and never panics: one of at most 2048 bytes is kept whole, a
    longer one keeps a prefix of 2045 to 2048 bytes that ends on a character
    boundary, followed by its full length. *)
Theorem truncated_at_boundary (text : string) :
  utf8 0 text = true ->
  if (String.length text <=? TRUNCATE_LIMIT)%nat then truncated text = Some text
  else exists cut rest, text = cut +:+ rest /\ 2045 <= str_len cut <= 2048 /\
       is_char_boundary text (String.length cut) = true /\
       truncated text = Some (cut +:+ "... [" +:+ show_Z (str_len text) +:+ " bytes]").
Proof.
  intros Hu. unfold truncated. destruct (Nat.leb_spec (String.length text) TRUNCATE_LIMIT) as [|Hlt]; [done|].
  pose proof (boundary_before_near text TRUNCATE_LIMIT Hu ltac:(lia)) as Hnear.
  destruct (boundary_before_spec text TRUNCATE_LIMIT) as [Hle Hb].
  set (e := boundary_before text TRUNCATE_LIMIT) in *.
  assert (Z.of_nat TRUNCATE_LIMIT = 2048) as HL by done.
  assert (is_char_boundary text e = true) as He
    by (destruct Hb as [?|He]; [done|rewrite He; by apply boundary_zero]).
  destruct (substring_prefix e text ltac:(lia)) as [Hlen [r Hr]].
  exists (String.substring 0 e text), r. unfold slice_to. rewrite He.
  split; [done|]. split; [unfold str_len; rewrite Hlen; lia|]. by rewrite Hlen.
Qed.

Definition long_text : string := Nat.iter (Z.to_nat 1100) (fun s => of_bytes [195; 169]%nat +:+ s) "".

Lemma truncated_at_boundary_witness :
  exists cut rest, long_text = cut +:+ rest /\ 2045 <= str_len cut <= 2048 /\
    is_char_boundary long_text (String.length cut) = true /\
    truncated long_text = Some (cut +:+ "... [" +:+ show_Z (str_len long_text) +:+ " bytes]").
Proof.
  exact (truncated_at_boundary long_text ltac:(vm_compute; reflexivity)).
Defined.
