(* ===== verification/Logs.v ===== *)
(** * Worker logs (src/src/log.rs, src/src/logs.rs)

    The sink that takes the console lines of all workers, the task that
    writes them to the logs table, and the log streams of the dashboard. The
    channels are the interfaces of [Extern]; the table is a list of rows. *)

From stdpp Require Import sorting.
From S2P Require Import Prelude RustStr Extern.

Definition LIVE_CAPACITY : nat := Z.to_nat 1024.
Definition STORE_CAPACITY : nat := Z.to_nat 10000.

Inductive LogLevel : Type := LError | LWarn | LInfo | LLog | LDebug | LTrace.

#[export] Instance LogLevel_eq_dec : EqDecision LogLevel.
Proof. solve_decision. Defined.

(** A date is a count of microseconds. *)
Record LogEntry := mkEntry {
  le_date : Z; le_worker_id : string; le_level : LogLevel; le_message : string }.

#[export] Instance LogEntry_eq_dec : EqDecision LogEntry.
Proof. solve_decision. Defined.

Definition level_name (level : LogLevel) : string :=
  match level with
  | LError => "error" | LWarn => "warn" | LInfo => "info"
  | LLog => "log" | LDebug => "debug" | LTrace => "trace"
  end.

Record Row := mkRow { row_date : Z; row_worker : Z; row_message : string; row_level : string }.

(** Newest first, as [ORDER BY date DESC]. *)
Definition newer (a b : Row) : Prop := row_date b <= row_date a.

#[export] Instance newer_dec a b : Decision (newer a b).
Proof. unfold newer. apply _. Defined.

Section sink.
Context {B Q : Type} `{!Broadcast LogEntry B} `{!Mpsc LogEntry Q}.

(** [LogSink] and its [LogStore]: they share the queue and the counter. *)
Record LogSink := mkSink { live : B; lines : Q; dropped : Z; last_date : Z }.

Definition sink_new : LogSink := mkSink (bc_new LIVE_CAPACITY) (mp_new STORE_CAPACITY) 0 0.

Definition set_live (b : B) (s : LogSink) : LogSink := mkSink b (lines s) (dropped s) (last_date s).
Definition set_lines (q : Q) (s : LogSink) : LogSink := mkSink (live s) q (dropped s) (last_date s).
Definition set_dropped (n : Z) (s : LogSink) : LogSink := mkSink (live s) (lines s) n (last_date s).
Definition set_last_date (d : Z) (s : LogSink) : LogSink := mkSink (live s) (lines s) (dropped s) d.

(** One round of the loop of [next_date]: the date it tries to store. *)
Definition next_try (now last : Z) : Z := Z.max now (last + 1).

Definition receiver_count (b : B) : Z := Z.of_nat (size (bc_receivers b)).

(** A thread in [send], between two accesses of what the threads share: before
    it loads the last date; in the loop of [next_date], with the clock it read
    and the date it found; with its line, before it counts the receivers,
    sends to them, puts the line in the queue, and counts a full queue. *)
Inductive sending : Type :=
| SLoad (worker_id : string) (level : LogLevel) (message : string)
| STry (now last : Z) (worker_id : string) (level : LogLevel) (message : string)
| SDated (entry : LogEntry)
| SCounted (entry : LogEntry) (streams : bool)
| SStore (entry : LogEntry)
| SFull
| SEnd.

(** [now]: the clock, near enough to 1970 for a date of chrono; [weak]: the
    exchange fails although the date is the one it expects. *)
Definition send_step (now : Z) (weak : bool) (p : sending) (s : LogSink) : sending * LogSink :=
  match p with
  | SLoad w l m => (STry now (last_date s) w l m, s)
  | STry now last w l m =>
    if (last_date s =? last) && negb weak
    then (SDated (mkEntry (next_try now last) w l m), set_last_date (next_try now last) s)
    else (STry now (last_date s) w l m, s)
  | SDated entry => (SCounted entry (0 <? receiver_count (live s)), s)
  | SCounted entry streams => (SStore entry, if streams then set_live (bc_send entry (live s)) s else s)
  | SStore entry =>
    match mp_try_send entry (lines s) with
    | (Full, q) => (SFull, set_lines q s)
    | (_, q) => (SEnd, set_lines q s)
    end
  | SFull => (SEnd, set_dropped (wrap_u64 (dropped s + 1)) s)
  | SEnd => (SEnd, s)
  end.

(** A call of [LogSink::send] is a thread at its first access. *)
Definition send (worker_id : string) (level : LogLevel) (message : string) : sending := SLoad worker_id level message.

Definition subscribe (s : LogSink) : nat * LogSink :=
  let '(i, b) := bc_subscribe (live s) in (i, set_live b s).

(** [LogSender]: a worker id with the sink, which its clones share. *)
Record LogSender := mkSender { ls_worker_id : string }.
Definition sender_send (level : LogLevel) (message : string) (s : LogSender) : sending :=
  send (ls_worker_id s) level message.
Definition for_worker (worker_id : string) (s : LogSender) : LogSender := mkSender worker_id.

(** ** The logs table *)

Definition STORE_BATCH : nat := Z.to_nat 500.
Definition HISTORY_LINES : nat := 10.
Definition MESSAGE_CHARS : nat := Z.to_nat 255.

(** [Uuid::parse_str], [Uuid::to_string] and the parser of level names. *)
Context (uuid_parse : string -> option Z) (uuid_string : Z -> string)
  (level_parse : string -> option LogLevel).

(** The rows [insert] adds: [workers] holds the ids of the workers table. *)
Definition insert_rows (workers : gset Z) (batch : list LogEntry) : list Row :=
  omap (fun line =>
    match uuid_parse (le_worker_id line) with
    | Some id => if bool_decide (id ∈ workers)
                 then Some (mkRow (le_date line) id (left_chars MESSAGE_CHARS (le_message line))
                              (level_name (le_level line)))
                 else None
    | None => None
    end) batch.

(** Where the task of [store] is: it waits for lines or for the stop, inserts a
    batch, or swaps the counter of the drops. *)
Inductive store_at : Type := AtSelect | AtInsert | AtSwap | AtEnd.
#[local] Instance store_at_eq_dec : EqDecision store_at.
Proof. solve_decision. Defined.

(** The state of [store]: the table, the lines whose insert failed, the drops
    it has reported, its batch. *)
Record Store := mkStore {
  st_sink : LogSink; st_table : list Row; st_failed : list LogEntry; st_reported : Z;
  st_batch : list LogEntry; st_at : store_at; stopping : bool }.

(** The branch of [recv_many]. An empty queue that is open makes the task
    wait. *)
Definition store_received (s : Store) : Store :=
  let '(batch, q) := mp_recv_many STORE_BATCH (lines (st_sink s)) in
  match st_at s, batch with
  | AtSelect, [] =>
    if mp_open q then s else
    mkStore (set_lines q (st_sink s)) (st_table s) (st_failed s) (st_reported s) (st_batch s) AtEnd (stopping s)
  | AtSelect, _ =>
    mkStore (set_lines q (st_sink s)) (st_table s) (st_failed s) (st_reported s) batch AtInsert (stopping s)
  | _, _ => s
  end.

(** The branch of the stop signal, once. *)
Definition store_stop (s : Store) : Store :=
  match st_at s, stopping s with
  | AtSelect, false =>
    mkStore (set_lines (mp_close (lines (st_sink s))) (st_sink s)) (st_table s) (st_failed s)
      (st_reported s) (st_batch s) AtSelect true
  | _, _ => s
  end.

(** [insert_ok]: whether the INSERT succeeded. *)
Definition store_inserted (workers : gset Z) (insert_ok : bool) (s : Store) : Store :=
  match st_at s with
  | AtInsert =>
    mkStore (st_sink s)
      (if insert_ok then st_table s ++ insert_rows workers (st_batch s) else st_table s)
      (if insert_ok then st_failed s else st_failed s ++ st_batch s)
      (st_reported s) [] AtSwap (stopping s)
  | _ => s
  end.

Definition store_swapped (s : Store) : Store :=
  match st_at s with
  | AtSwap =>
    mkStore (set_dropped 0 (st_sink s)) (st_table s) (st_failed s)
      (st_reported s + dropped (st_sink s)) (st_batch s) AtSelect (stopping s)
  | _ => s
  end.

Definition history (worker_id : Z) (table : list Row) : list LogEntry :=
  let rows := take HISTORY_LINES
    (merge_sort newer (List.filter (fun r => row_worker r =? worker_id) table)) in
  map (fun r => mkEntry (row_date r) (uuid_string worker_id)
                  (default LInfo (level_parse (row_level r))) (row_message r)) (rev rows).

(** ** Following the live lines *)

Inductive next_line : Type := Line (e : LogEntry) | Close | Wait.

(** [Follow::next]: [stop n] says whether round [n] takes the stop signal.
    Fuel: a round reads one line, so the unread lines and one more round are
    enough. *)
Fixpoint follow_next (fuel : nat) (stop : nat -> bool) (worker_id : string) (i : nat) (b : B) :
  option (next_line * B) :=
  match fuel with
  | O => None
  | S fuel =>
    if stop fuel then Some (Close, b) else
    match bc_recv i b with
    | (Received e, b) =>
      if String.eqb (le_worker_id e) worker_id then Some (Line e, b)
      else follow_next fuel stop worker_id i b
    | (Lagged, b) => Some (Close, b)
    | (Waiting, b) => Some (Wait, b)
    end
  end.
End sink.

(** ** The log streams *)

Inductive Stream : Type := Sse | WebSocket.

(** [route]: the log stream a path names. *)
Definition route (uuid_parse : string -> option Z) (path : string) : option (Z * Stream) :=
  rest ← strip_prefix "/api/v1/workers/" path;
  '(id, endpoint) ← split_once "/" rest;
  stream ← (if String.eqb endpoint "logs" then Some Sse
            else if String.eqb endpoint "ws-logs" then Some WebSocket else None);
  id ← uuid_parse id;
  Some (id, stream).

Section streams.
Context {H : Type} `{!HeaderMap H, !HeaderValue}.

Definition header_str (name : string) (headers : H) : option string :=
  v ← hdr_get name headers; hv_to_str v.

Definition same_origin (headers : H) : bool :=
  match hdr_get "origin" headers with
  | None => true
  | Some origin =>
    let scheme := default "http" (header_str "x-forwarded-proto" headers) in
    match hv_to_str origin, header_str "host" headers with
    | Some origin, Some host => eq_ignore_ascii_case origin (scheme +:+ "://" +:+ host)
    | _, _ => false
    end
  end.

Definition has_token (headers : H) (name token : string) : bool :=
  existsb (fun value => eq_ignore_ascii_case (trim value) token)
    (mjoin (map (split ",") (omap hv_to_str (hdr_get_all name headers)))).

(** The base64 decoder and the handshake digest are parameters. *)
Context (base64_decode : string -> option string) (derive_accept_key : string -> string).

Definition websocket_accept (headers : H) : result string string :=
  if negb (has_token headers "upgrade" "websocket") || negb (has_token headers "connection" "upgrade")
  then Err "Invalid WebSocket upgrade" else
  if negb (bool_decide (hdr_get "sec-websocket-version" headers = Some "13"))
  then Err "Unsupported WebSocket version" else
  match hdr_get "sec-websocket-key" headers with
  | None => Err "Missing WebSocket key"
  | Some key =>
    match base64_decode key with
    | Some bytes => if str_len bytes =? 16 then Ok (derive_accept_key key) else Err "Invalid WebSocket key"
    | None => Err "Invalid WebSocket key"
    end
  end.

(** The headers of the request to the API worker, in order: the runner's,
    then those of the client. *)
Definition check_headers (api_worker request_id : string) (headers : H) : list (string * string) :=
  [("x-worker-name", api_worker); ("x-openworkers-internal", "1"); ("x-request-id", request_id)] ++
  omap (fun name => match hdr_get name headers with Some v => Some (name, v) | None => None end)
    ["authorization"; "cookie"; "host"; "x-forwarded-proto"].

(** [answer]: the status and the headers of the API worker, or [None] when
    the request failed. *)
Definition authorize (answer : option (Z * H)) : result (list string) (Z * string) :=
  match answer with
  | None => Err (503, "Log authorization unavailable")
  | Some (status, headers) =>
    if (200 <=? status) && (status <=? 299) then Ok (hdr_get_all "set-cookie" headers) else
    if status =? 401 then Err (401, "Unauthorized") else
    if (status =? 403) || (status =? 404) then Err (404, "Not found") else
    Err (503, "Log authorization unavailable")
  end.

Inductive Served : Type :=
| Text (status : Z) (body : string)
| SseStream (history : list LogEntry) (cookies : list string)
| Upgrade (accept : string) (history : list LogEntry) (cookies : list string).

(** [Logs::serve]. [api]: the API worker, asked with a list of headers.
    [read_history]: the query, after the subscription; [None] when it fails. *)
Definition serve (api : list (string * string) -> option (Z * H)) (api_worker request_id : string)
  (read_history : option (list LogEntry)) (method : string) (headers : H) (stream : Stream) : Served :=
  if negb (String.eqb method "GET") then Text 405 "GET required" else
  let websocket_key : result (option string) (Z * string) :=
    match stream with
    | Sse => Ok None
    | WebSocket =>
      if negb (same_origin headers) then Err (403, "Invalid WebSocket origin") else
      match websocket_accept headers with
      | Ok accept => Ok (Some accept)
      | Err reason => Err (400, reason)
      end
    end in
  match websocket_key with
  | Err (status, reason) => Text status reason
  | Ok key =>
    match authorize (api (check_headers api_worker request_id headers)) with
    | Err (status, reason) => Text status reason
    | Ok cookies =>
      match read_history with
      | None => Text 503 "Log history unavailable"
      | Some h => match key with
                  | None => SseStream h cookies
                  | Some accept => Upgrade accept h cookies
                  end
      end
    end
  end.
End streams.

(** ** The SSE and WebSocket tasks

    [sends n] says whether send [n] reaches the client in time. *)

Section tasks.
Context (entry_json : LogEntry -> string).

Definition nl : string := String (ascii_of_nat 10) "".
Definition sse_event (id : Z) (entry : LogEntry) : string :=
  "event: log" +:+ nl +:+ "id: " +:+ show_Z id +:+ nl +:+ "data: " +:+ entry_json entry +:+ nl +:+ nl.
Definition KEEPALIVE : string := ": keepalive" +:+ nl +:+ nl.

(** What the loop of [sse] takes next. *)
Inductive sse_input : Type := ClientClosed | Tick | Next (e : option LogEntry).

Fixpoint sse_history (sends : nat -> bool) (n : nat) (id : Z) (history : list LogEntry) :
  list string * bool * nat * Z :=
  match history with
  | [] => ([], true, n, id)
  | e :: history =>
    if sends n then
      let '(out, ok, n, id') := sse_history sends (S n) (id + 1) history in
      (sse_event id e :: out, ok, n, id')
    else ([sse_event id e], false, n, id)
  end.

Fixpoint sse_loop (sends : nat -> bool) (n : nat) (id : Z) (inputs : list sse_input) : list string :=
  match inputs with
  | [] => []
  | ClientClosed :: _ => []
  | Next None :: _ => []
  | Tick :: inputs =>
    KEEPALIVE :: (if sends n then sse_loop sends (S n) id inputs else [])
  | Next (Some e) :: inputs =>
    sse_event id e :: (if sends n then sse_loop sends (S n) (id + 1) inputs else [])
  end.

(** What the task tries to send, in order. *)
Definition sse (sends : nat -> bool) (history : list LogEntry) (inputs : list sse_input) : list string :=
  let '(out, ok, n, id) := sse_history sends 0 0 history in
  if ok : bool then out ++ sse_loop sends n id inputs else out.

Inductive Message : Type := MText (s : string) | MPing | MPong (p : string).
Inductive ws_input : Type :=
| WTick | WNext (e : option LogEntry) | WPing (p : string) | WOther | WClosed.

Fixpoint ws_history (sends : nat -> bool) (n : nat) (history : list LogEntry) : list Message * bool * nat :=
  match history with
  | [] => ([], true, n)
  | e :: history =>
    if sends n then
      let '(out, ok, n) := ws_history sends (S n) history in (MText (entry_json e) :: out, ok, n)
    else ([MText (entry_json e)], false, n)
  end.

Fixpoint ws_loop (sends : nat -> bool) (n : nat) (inputs : list ws_input) : list Message :=
  match inputs with
  | [] => []
  | WNext None :: _ | WClosed :: _ => []
  | WOther :: inputs => ws_loop sends n inputs
  | WTick :: inputs => MPing :: (if sends n then ws_loop sends (S n) inputs else [])
  | WPing p :: inputs => MPong p :: (if sends n then ws_loop sends (S n) inputs else [])
  | WNext (Some e) :: inputs =>
    MText (entry_json e) :: (if sends n then ws_loop sends (S n) inputs else [])
  end.

Definition websocket (sends : nat -> bool) (history : list LogEntry) (inputs : list ws_input) : list Message :=
  let '(out, ok, n) := ws_history sends 0 history in
  if ok : bool then out ++ ws_loop sends n inputs else out.
End tasks.

(** ** Sorted lists *)

Lemma sorted_snoc {A} (R : A -> A -> Prop) l x :
  StronglySorted R l -> Forall (fun y => R y x) l -> StronglySorted R (l ++ [x]).
Proof.
  induction 1 as [|y l Hl IH Hy]; simpl; intros Hx; [repeat constructor|].
  apply Forall_cons in Hx as [Hyx Hx]. constructor; [by apply IH|].
  apply Forall_app. by repeat constructor.
Qed.

Lemma sorted_lt_NoDup (l : list Z) : StronglySorted Z.lt l -> NoDup l.
Proof.
  induction 1 as [|x l _ IH Hx]; constructor; [|done]. intros Hin. rewrite Forall_forall in Hx. specialize (Hx x Hin). lia.
Qed.

(** ** The lines from the sink to the table *)

(** The line a thread carries, once it has its date. *)
Definition carried (p : sending) : option LogEntry :=
  match p with SDated e | SCounted e _ | SStore e => Some e | _ => None end.
Definition ended (p : sending) : bool := match p with SEnd => true | _ => false end.
Definition carried_dates (l : list sending) : list Z := le_date <$> omap carried l.

Lemma carried_dates_insert l i p p' : l !! i = Some p ->
  exists rest, carried_dates l ≡ₚ option_list (le_date <$> carried p) ++ rest /\
    carried_dates (<[i := p']> l) ≡ₚ option_list (le_date <$> carried p') ++ rest.
Proof.
  intros Hi. exists (carried_dates (take i l) ++ carried_dates (drop (S i) l)).
  assert (Hc : forall q, carried_dates (q :: drop (S i) l) = option_list (le_date <$> carried q) ++ carried_dates (drop (S i) l))
    by (intros q; unfold carried_dates; simpl; by destruct (carried q)).
  assert (Happ : forall k k', carried_dates (k ++ k') = carried_dates k ++ carried_dates k')
    by (intros k k'; unfold carried_dates; by rewrite omap_app, fmap_app).
  split.
  - rewrite <- (take_drop_middle l i p Hi) at 1. rewrite Happ, Hc. solve_Permutation.
  - rewrite insert_take_drop by (by eapply lookup_lt_Some). rewrite Happ, Hc. solve_Permutation.
Qed.

Section lines.
Context {B Q : Type} `{!Broadcast LogEntry B} `{!Mpsc LogEntry Q}.
Context (uuid_parse : string -> option Z) (workers : gset Z).

(** What happens to the sink and its store: a worker writes a line, a thread
    that sends goes on, a stream subscribes and reads, the task of the store
    goes on or takes the stop signal. *)
Inductive log_op : Type :=
| OSend (worker_id : string) (level : LogLevel) (message : string)
| OThread (i : nat) (now : Z) (weak : bool)
| OSubscribe
| ORecv (i : nat)
| OTake
| OInsert (insert_ok : bool)
| OSwap
| OStop.

(** The state, with the threads, the dates in the order they were given out,
    what was accepted by the queue, what the store took from it, and how many
    lines came after the close. *)
Record trace := mkTrace {
  tr : @Store B Q; threads : list sending; given : list Z;
  accepted : list LogEntry; handled : list LogEntry; refused : Z }.

Definition trace_init : trace := mkTrace (mkStore sink_new [] [] 0 [] AtSelect false) [] [] [] [] 0.

Definition on_sink (f : @LogSink B Q -> @LogSink B Q) (s : @Store B Q) : @Store B Q :=
  mkStore (f (st_sink s)) (st_table s) (st_failed s) (st_reported s) (st_batch s) (st_at s) (stopping s).

Definition on_store (f : @Store B Q -> @Store B Q) (t : trace) : trace :=
  mkTrace (f (tr t)) (threads t) (given t) (accepted t) (handled t) (refused t).

Definition run_thread (i : nat) (now : Z) (weak : bool) (t : trace) : trace :=
  match threads t !! i with
  | None => t
  | Some p =>
    let k := st_sink (tr t) in
    let '(p', k') := send_step now weak p k in
    let went := match p with SStore e => Some (e, (mp_try_send e (lines k)).1) | _ => None end in
    mkTrace (on_sink (fun _ => k') (tr t)) (<[i := p']> (threads t))
      (match p, p' with STry _ _ _ _ _, SDated e => given t ++ [le_date e] | _, _ => given t end)
      (match went with Some (e, Sent) => accepted t ++ [e] | _ => accepted t end) (handled t)
      (match went with Some (_, Closed) => refused t + 1 | _ => refused t end)
  end.

Definition run_op (t : trace) (op : log_op) : trace :=
  match op with
  | OSend w l m => mkTrace (tr t) (threads t ++ [send w l m]) (given t) (accepted t) (handled t) (refused t)
  | OThread i now weak => run_thread i now weak t
  | OSubscribe => on_store (on_sink (fun k => (subscribe k).2)) t
  | ORecv i => on_store (on_sink (fun k => set_live (bc_recv i (live k)).2 k)) t
  | OTake =>
    mkTrace (store_received (tr t)) (threads t) (given t) (accepted t)
      (match st_at (tr t) with AtSelect => handled t ++ (mp_recv_many STORE_BATCH (lines (st_sink (tr t)))).1 | _ => handled t end)
      (refused t)
  | OInsert ok => on_store (store_inserted uuid_parse workers ok) t
  | OSwap => on_store store_swapped t
  | OStop => on_store store_stop t
  end.

Record lines_inv (t : trace) : Prop := {
  li_order : accepted t = handled t ++ mp_items (lines (st_sink (tr t)));
  li_cap : mp_cap (lines (st_sink (tr t))) = STORE_CAPACITY;
  li_bound : (length (mp_items (lines (st_sink (tr t)))) <= STORE_CAPACITY)%nat;
  li_count : countb ended (threads t) =
    Z.of_nat (length (accepted t)) + dropped (st_sink (tr t)) + st_reported (tr t) + refused t;
  li_nonneg : 0 <= dropped (st_sink (tr t)) /\ 0 <= st_reported (tr t) /\ 0 <= refused t;
  li_given : StronglySorted Z.lt (given t) /\ Forall (fun d => d <= last_date (st_sink (tr t))) (given t);
  li_dates : (le_date <$> accepted t) ++ carried_dates (threads t) ⊆+ given t;
  li_returned : st_at (tr t) = AtEnd ->
    mp_items (lines (st_sink (tr t))) = [] /\ mp_open (lines (st_sink (tr t))) = false }.
Lemma lines_inv_init : lines_inv trace_init.
Proof.
  destruct (mp_new_spec (A := LogEntry) (Q := Q) STORE_CAPACITY) as (H1 & H2 & H3).
  constructor; simpl; rewrite ?H1; try done.
  - apply Nat.le_0_l.
  - split; constructor.
Qed.

(** A thread that goes on without the queue, the counter and a new date. *)
Lemma lines_inv_goes_on t i p p' k' : lines_inv t -> threads t !! i = Some p ->
  ended p' = ended p -> carried p' = carried p ->
  lines k' = lines (st_sink (tr t)) -> dropped k' = dropped (st_sink (tr t)) -> last_date k' = last_date (st_sink (tr t)) ->
  lines_inv (mkTrace (on_sink (fun _ => k') (tr t)) (<[i := p']> (threads t)) (given t) (accepted t) (handled t) (refused t)).
Proof.
  intros Hi Hp He Hc El Ed Ey. destruct Hi. constructor; simpl; rewrite ?El, ?Ed, ?Ey; try done.
  - rewrite (countb_insert _ _ _ _ _ Hp), He. lia.
  - destruct (carried_dates_insert (threads t) i p p' Hp) as (rest & H1 & H2).
    rewrite H2, Hc, <- H1. done.
Qed.

Lemma lines_inv_dated t i now last w l m : lines_inv t -> threads t !! i = Some (STry now last w l m) ->
  last_date (st_sink (tr t)) = last ->
  lines_inv (mkTrace (on_sink (fun _ => set_last_date (next_try now last) (st_sink (tr t))) (tr t))
    (<[i := SDated (mkEntry (next_try now last) w l m)]> (threads t)) (given t ++ [next_try now last])
    (accepted t) (handled t) (refused t)).
Proof.
  intros Hi Hp Hl. destruct Hi as [Ho Hc Hb Hk Hn [Hs Hle] Hd Hret]. constructor; simpl; try done.
  - rewrite (countb_insert _ _ _ _ _ Hp). simpl. lia.
  - split.
    + apply sorted_snoc; [done|]. eapply Forall_impl; [exact Hle|]. unfold next_try. simpl. lia.
    + apply Forall_app. split; [|repeat constructor; lia].
      eapply Forall_impl; [exact Hle|]. unfold next_try. simpl. lia.
  - destruct (carried_dates_insert (threads t) i _ (SDated (mkEntry (next_try now last) w l m)) Hp) as (rest & H1 & H2).
    rewrite H2. simpl in *. rewrite H1 in Hd. rewrite Permutation_app_comm. simpl.
    rewrite (Permutation_app_comm rest), (Permutation_app_comm (given t)). by apply submseteq_skip.
Qed.

Lemma lines_inv_queued t i e r q : lines_inv t -> threads t !! i = Some (SStore e) ->
  mp_try_send e (lines (st_sink (tr t))) = (r, q) ->
  lines_inv (mkTrace (on_sink (fun _ => set_lines q (st_sink (tr t))) (tr t))
    (<[i := match r with Full => SFull | _ => SEnd end]> (threads t)) (given t)
    (match r with Sent => accepted t ++ [e] | _ => accepted t end) (handled t)
    (match r with Closed => refused t + 1 | _ => refused t end)).
Proof.
  intros Hi Hp E. destruct Hi as [Ho Hc Hb Hk (Hd & Hr & Hf) Hg Hdt Hret].
  destruct (mp_try_send_spec _ _ _ _ E) as (Hcap & Hop & Hres & Hit).
  destruct (carried_dates_insert (threads t) i _ (match r with Full => SFull | _ => SEnd end) Hp) as (rest & H1 & H2).
  pose proof (countb_insert ended _ _ _ (match r with Full => SFull | _ => SEnd end) Hp) as Hcnt.
  assert (st_at (tr t) = AtEnd -> r = Closed) as Hcl
    by (intros Hre; destruct (Hret Hre) as [_ Ho']; by rewrite Ho' in Hres).
  rewrite H1 in Hdt. simpl in Hdt.
  assert (Hdrop : (le_date <$> accepted t) ++ rest ⊆+ given t).
  { etrans; [|exact Hdt]. apply submseteq_app; [done|]. by apply submseteq_cons. }
  constructor; cbn [tr threads given accepted handled refused on_sink st_sink st_at st_reported lines dropped last_date set_lines];
    rewrite ?Hit, ?Hcap, ?Hop, ?H2; destruct r; simpl in *; try done; try lia.
  - by rewrite Ho, app_assoc.
  - rewrite length_app. simpl. destruct (mp_open (lines (st_sink (tr t)))); [|done].
    destruct (Nat.ltb_spec (length (mp_items (lines (st_sink (tr t))))) (mp_cap (lines (st_sink (tr t))))); [lia|done].
  - rewrite length_app. simpl. lia.
  - rewrite fmap_app, <- app_assoc. done.
  - intros Hre. by specialize (Hcl Hre).
Qed.

Lemma lines_inv_counted t i : lines_inv t -> threads t !! i = Some SFull -> Z.of_nat (length (threads t)) < 2 ^ 64 ->
  lines_inv (mkTrace (on_sink (fun _ => set_dropped (wrap_u64 (dropped (st_sink (tr t)) + 1)) (st_sink (tr t))) (tr t))
    (<[i := SEnd]> (threads t)) (given t) (accepted t) (handled t) (refused t)).
Proof.
  intros Hi Hp Hn. destruct Hi as [Ho Hc Hb Hk (Hd & Hr & Hf) Hg Hdt Hret].
  assert (dropped (st_sink (tr t)) + 1 < 2 ^ 64) as Hsmall.
  { pose proof (countb_insert ended _ _ _ SEnd Hp) as Hcnt. simpl in Hcnt.
    pose proof (countb_length ended (<[i := SEnd]> (threads t))) as Hlen. rewrite length_insert in Hlen. lia. }
  constructor; simpl; try done.
  - rewrite (countb_insert _ _ _ _ _ Hp). unfold wrap_u64. rewrite Z.mod_small by lia. simpl. lia.
  - split_and!; try done. unfold wrap_u64. apply Z.mod_pos_bound. lia.
  - destruct (carried_dates_insert (threads t) i _ SEnd Hp) as (rest & H1 & H2). rewrite H2. simpl in *. by rewrite H1 in Hdt.
Qed.

Lemma lines_inv_thread t i now weak : lines_inv t -> Z.of_nat (length (threads t)) < 2 ^ 64 ->
  lines_inv (run_thread i now weak t).
Proof.
  intros Hi Hn. unfold run_thread. destruct (threads t !! i) as [p|] eqn:Hp; [|done].
  destruct p as [w l m|n last w l m|e|e b|e| |]; simpl.
  - by eapply lines_inv_goes_on.
  - destruct ((last_date _ =? last) && negb weak)%bool eqn:E; simpl.
    + apply andb_true_iff in E as [E%Z.eqb_eq _]. by apply lines_inv_dated.
    + by eapply lines_inv_goes_on.
  - by eapply lines_inv_goes_on.
  - eapply lines_inv_goes_on; try done; by destruct b.
  - destruct (mp_try_send e _) as [r q] eqn:E. pose proof (lines_inv_queued t i e r q Hi Hp E) as H. by destruct r.
  - by apply lines_inv_counted.
  - by eapply lines_inv_goes_on.
Qed.

Lemma lines_inv_take t : lines_inv t -> lines_inv (run_op t OTake).
Proof.
  intros Hi. simpl. unfold store_received. destruct (st_at (tr t)) eqn:Ea;
    try (destruct (mp_recv_many _ _); destruct t; by destruct Hi; constructor).
  destruct Hi as [Ho Hc Hb Hk (Hd & Hr & Hf) Hg Hdt Hret].
  destruct (mp_recv_many STORE_BATCH (lines (st_sink (tr t)))) as [batch q] eqn:E.
  destruct (mp_recv_many_spec STORE_BATCH _ batch q ltac:(vm_compute; lia) E) as (Hcap & Hop & Hit & Hlen & Hemp).
  destruct batch as [|e batch]; simpl.
  - specialize (Hemp eq_refl). rewrite app_nil_r. simpl in Hit. destruct (mp_open q) eqn:Eq.
    + constructor; simpl; try done.
    + constructor; simpl; try done; rewrite <- ?Hit; try congruence; by intros _.
  - constructor; simpl; try done; try lia.
    + by rewrite Ho, Hit, <- app_assoc.
    + assert (length (mp_items (lines (st_sink (tr t)))) = length ((e :: batch) ++ mp_items q)) as HL by (by rewrite Hit).
      rewrite length_app in HL. lia.
Qed.

Lemma lines_inv_op t op : lines_inv t -> Z.of_nat (length (threads t)) < 2 ^ 64 -> lines_inv (run_op t op).
Proof.
  intros Hi Hn. destruct op as [w l m|i now weak| |i| |ok| |].
  - destruct Hi. constructor; simpl; try done; [rewrite countb_app; simpl; lia|].
    unfold carried_dates in *. rewrite omap_app, fmap_app. simpl. by rewrite app_nil_r.
  - by apply lines_inv_thread.
  - destruct Hi. simpl. unfold on_store, on_sink, subscribe. destruct (bc_subscribe (live (st_sink (tr t)))). by constructor.
  - destruct Hi. by constructor.
  - by apply lines_inv_take.
  - simpl. unfold on_store, store_inserted. destruct (st_at (tr t)) eqn:Ea; destruct Hi; constructor; simpl; try done; by rewrite Ea.
  - simpl. unfold on_store, store_swapped. destruct (st_at (tr t)) eqn:Ea; destruct Hi; constructor; simpl; try done;
      try (by rewrite Ea); lia.
  - simpl. unfold on_store, store_stop. destruct (mp_close_spec (lines (st_sink (tr t)))) as (H1 & H2 & H3).
    destruct (st_at (tr t)) eqn:Ea; [destruct (stopping (tr t))|..]; destruct Hi; constructor; simpl; rewrite ?H1, ?H2; try done;
      by rewrite Ea.
Qed.

Lemma run_op_threads t op : (length (threads (run_op t op)) <= S (length (threads t)))%nat.
Proof.
  destruct op; simpl; try lia.
  - rewrite length_app. simpl. lia.
  - unfold run_thread. destruct (_ !! i); [|lia]. destruct (send_step _ _ _ _). simpl. rewrite length_insert. lia.
Qed.

Lemma lines_inv_run ops t :
  lines_inv t -> Z.of_nat (length (threads t)) + Z.of_nat (length ops) < 2 ^ 64 -> lines_inv (foldl run_op t ops).
Proof.
  revert t. induction ops as [|op ops IH]; simpl; intros t Hi Hn; [done|].
  pose proof (run_op_threads t op). apply IH; [apply lines_inv_op; [done|lia]|lia].
Qed.

(** C36. No console line is lost in silence. After any interleaving of the
    threads that send with subscriptions, reads, the task of the store and a
    stop, each at the accesses of what they share: the lines the queue took
    are, in order, those the store took and those that wait; every line whose
    send has ended was taken, or counted as dropped, or came after the close;
    at most 10000 lines wait; each date given out is later than those given
    before, and no two of the lines taken have one date, in whatever order the
    queue took them; and once the store has returned, it has taken every line
    the queue took. *)
Theorem lines_conserved (ops : list log_op) :
  Z.of_nat (length ops) < 2 ^ 64 ->
  let t := foldl run_op trace_init ops in
  let k := st_sink (tr t) in
  accepted t = handled t ++ mp_items (lines k) /\
  countb ended (threads t) = Z.of_nat (length (accepted t)) + dropped k + st_reported (tr t) + refused t /\
  (length (mp_items (lines k)) <= STORE_CAPACITY)%nat /\
  StronglySorted Z.lt (given t) /\ (le_date <$> accepted t) ⊆+ given t /\ NoDup (le_date <$> accepted t) /\
  (st_at (tr t) = AtEnd -> handled t = accepted t).
Proof.
  intros Hn t k. assert (lines_inv t) as Hi by (apply lines_inv_run; [apply lines_inv_init|simpl; lia]).
  destruct Hi as [Ho Hc Hb Hk _ [Hs _] Hd Hret].
  assert (Hsub : (le_date <$> accepted t) ⊆+ given t) by (etrans; [apply submseteq_inserts_r|exact Hd]; done).
  split_and!; try done.
  - destruct (submseteq_Permutation _ _ Hsub) as [rest Hp]. apply sorted_lt_NoDup in Hs. rewrite Hp in Hs.
    by apply NoDup_app in Hs as [? _].
  - intros Hr. rewrite Ho. destruct (Hret Hr) as [-> _]. by rewrite app_nil_r.
Qed.
End lines.

(** ** History *)

#[export] Instance newer_trans : Transitive newer.
Proof. intros a b c. unfold newer. lia. Qed.
#[export] Instance newer_total : Total newer.
Proof. intros a b. unfold newer. lia. Qed.

Lemma sorted_take_drop (l : list Row) n :
  StronglySorted newer l ->
  StronglySorted newer (take n l) /\
  forall r x, r ∈ drop n l -> x ∈ take n l -> row_date r <= row_date x.
Proof.
  intros Hs. rewrite <- (take_drop n l) in Hs. apply StronglySorted_app in Hs as (H & ? & _).
  split; [done|]. intros r x Hr Hx. apply (H x r Hx Hr).
Qed.

Lemma sorted_rev (l : list Row) :
  StronglySorted newer l -> StronglySorted Z.le (map row_date (rev l)).
Proof.
  induction 1 as [|x l Hs IH Hf]; simpl; [constructor|].
  rewrite map_app. apply sorted_snoc; [done|]. apply Forall_fmap.
  rewrite Forall_forall in Hf |- *. intros y Hy. apply (Hf y).
  by apply list_elem_of_In, in_rev, list_elem_of_In.
Qed.

(** The history of a stream is the last lines of the worker, oldest
    first: ten of its rows, or all of them when there are fewer, in the order
    of their dates, and no row of the worker left out is newer than one of
    them. *)
Theorem history_last_lines uuid_string level_parse (worker_id : Z) (table : list Row) :
  exists shown rest,
    List.filter (fun r => row_worker r =? worker_id) table ≡ₚ shown ++ rest /\
    StronglySorted Z.le (map row_date shown) /\
    Z.of_nat (length shown) = Z.min 10 (countb (fun r => row_worker r =? worker_id) table) /\
    (forall r x, r ∈ rest -> x ∈ shown -> row_date r <= row_date x) /\
    history uuid_string level_parse worker_id table =
      map (fun r => mkEntry (row_date r) (uuid_string worker_id)
                      (default LInfo (level_parse (row_level r))) (row_message r)) shown.
Proof.
  unfold history. set (rows := List.filter _ table).
  set (sorted := merge_sort newer rows).
  assert (StronglySorted newer sorted) as Hs by (apply StronglySorted_merge_sort; apply _).
  assert (sorted ≡ₚ rows) as Hp by apply merge_sort_Permutation.
  exists (rev (take HISTORY_LINES sorted)), (drop HISTORY_LINES sorted). split_and!.
  - rewrite <- Hp, <- Permutation_rev. by rewrite take_drop.
  - apply sorted_rev. by apply sorted_take_drop.
  - rewrite length_rev, length_take.
    assert (countb (fun r => row_worker r =? worker_id) table = Z.of_nat (length rows)) as ->.
    { subst rows. clear. induction table as [|r l IH]; simpl; [done|].
      rewrite IH. destruct (row_worker r =? worker_id); simpl; lia. }
    rewrite (Permutation_length Hp). unfold HISTORY_LINES. lia.
  - intros r x Hr Hx. eapply (proj2 (sorted_take_drop _ HISTORY_LINES Hs)); [exact Hr|].
    by apply list_elem_of_In, in_rev, list_elem_of_In.
  - done.
Qed.

(** ** Who gets a stream *)

Section serve_props.
Context {H : Type} `{!HeaderMap H, !HeaderValue}.

Lemma authorize_ok (answer : option (Z * H)) cookies :
  authorize answer = Ok cookies ->
  exists status headers, answer = Some (status, headers) /\ 200 <= status <= 299 /\
    cookies = hdr_get_all "set-cookie" headers.
Proof.
  unfold authorize. intros Ha. destruct answer as [[status headers]|]; [|done].
  destruct ((200 <=? status) && (status <=? 299))%bool eqn:E.
  - simplify_eq. reflect_bools. eauto 10 with lia.
  - by repeat case_match.
Qed.

(** A log stream goes only to a client the API worker lets read the
    worker: the request is a GET, the API worker answered with a 2xx status,
    asked with the client's own credentials and nothing else of its headers,
    and a WebSocket client is of the same origin with a valid upgrade. A
    worker of another user and a worker that does not exist give the same
    answer. *)
Theorem serve_authorized base64_decode derive_accept_key
  (api : list (string * string) -> option (Z * H)) api_worker request_id read_history method
  (headers : H) (stream : Stream) :
  let asked := check_headers api_worker request_id headers in
  let served := serve base64_decode derive_accept_key api api_worker request_id read_history
                  method headers stream in
  let authorized h cookies :=
    method = "GET" /\ read_history = Some h /\
    exists status answer, api asked = Some (status, answer) /\ 200 <= status <= 299 /\
      cookies = hdr_get_all "set-cookie" answer in
  match served with
  | SseStream h cookies => stream = Sse /\ authorized h cookies
  | Upgrade accept h cookies =>
    stream = WebSocket /\ same_origin headers = true /\
    websocket_accept base64_decode derive_accept_key headers = Ok accept /\ authorized h cookies
  | Text status _ => status ∈ [400; 401; 403; 404; 405; 503]
  end /\
  (forall n v, (n, v) ∈ asked ->
     (n, v) ∈ [("x-worker-name", api_worker); ("x-openworkers-internal", "1"); ("x-request-id", request_id)] \/
     n ∈ ["authorization"; "cookie"; "host"; "x-forwarded-proto"] /\ hdr_get n headers = Some v) /\
  (forall a1 a2 : H, authorize (Some (403, a1)) = authorize (Some (404, a2))).
Proof.
  intros asked served authorized. split; [|split; [|done]].
  - subst served. unfold serve. fold asked.
    destruct (String.eqb_spec method "GET") as [->|]; simpl; [|set_solver].
    destruct stream; simpl.
    + destruct (authorize (api asked)) as [cookies|[status reason]] eqn:Ea.
      * apply authorize_ok in Ea as (st & an & Hap & Hst & Hc).
        destruct read_history as [h|] eqn:Eh; [|set_solver]. split; [done|]. split_and!; [done..|]. by exists st, an.
      * unfold authorize in Ea. repeat case_match; simplify_eq; set_solver.
    + destruct (same_origin headers) eqn:Eo; simpl; [|set_solver].
      destruct (websocket_accept _ _ headers) as [accept|] eqn:Ew; [|set_solver].
      destruct (authorize (api asked)) as [cookies|[status reason]] eqn:Ea.
      * apply authorize_ok in Ea as (st & an & Hap & Hst & Hc).
        destruct read_history as [h|] eqn:Eh; [|set_solver]. split_and!; try done. split_and!; try done. by exists st, an.
      * unfold authorize in Ea. repeat case_match; simplify_eq; set_solver.
  - intros n v Hnv. subst asked. unfold check_headers in Hnv.
    apply elem_of_app in Hnv as [Hnv|Hnv]; [by left|right].
    apply list_elem_of_omap in Hnv as (n' & Hn & Hv).
    destruct (hdr_get n' headers) eqn:E; simplify_eq. done.
Qed.
End serve_props.

(** ** Numbering of the events *)

Section numbering.
Context (entry_json : LogEntry -> string).

Definition log_event (s : string) : bool := negb (String.eqb s KEEPALIVE).

(** The lines a stream is given before it closes. *)
Fixpoint lines_of (inputs : list sse_input) : list LogEntry :=
  match inputs with
  | [] | ClientClosed :: _ | Next None :: _ => []
  | Tick :: inputs => lines_of inputs
  | Next (Some e) :: inputs => e :: lines_of inputs
  end.

Fixpoint numbered (id : Z) (l : list LogEntry) : list string :=
  match l with [] => [] | e :: l => sse_event entry_json id e :: numbered (id + 1) l end.

Lemma log_event_keepalive : log_event KEEPALIVE = false.
Proof. done. Qed.

Lemma log_event_sse id e : log_event (sse_event entry_json id e) = true.
Proof. done. Qed.

Opaque log_event sse_event KEEPALIVE.

Lemma numbered_length id l : length (numbered id l) = length l.
Proof. revert id. induction l as [|e l IH]; intros id; simpl; [done|]. by rewrite IH. Qed.

Lemma numbered_app id l k :
  numbered id (l ++ k) = numbered id l ++ numbered (id + Z.of_nat (length l)) k.
Proof.
  revert id. induction l as [|e l IH]; intros id; simpl; [f_equal; lia|].
  rewrite IH. by replace (id + 1 + Z.of_nat (length l)) with (id + Z.of_nat (S (length l))) by lia.
Qed.

Lemma sse_loop_numbered sends n id inputs :
  exists k, List.filter log_event (sse_loop entry_json sends n id inputs) = take k (numbered id (lines_of inputs)) /\
    ((forall n, sends n = true) -> (length (lines_of inputs) <= k)%nat).
Proof.
  revert n id. induction inputs as [|[| |[e|]] inputs IH]; intros n id; simpl; try (exists 0%nat; split; [done|simpl; lia]).
  - rewrite log_event_keepalive. destruct (sends n) eqn:Es; [apply IH|]. exists 0%nat. split; [done|]. intros H. by rewrite H in Es.
  - rewrite log_event_sse. destruct (sends n) eqn:Es.
    + destruct (IH (S n) (id + 1)) as (k & Hk & Hl). exists (S k). simpl. rewrite Hk. split; [done|].
      intros H. specialize (Hl H). lia.
    + exists 1%nat. simpl. rewrite take_0. split; [done|]. intros H. by rewrite H in Es.
Qed.

Lemma sse_history_numbered sends n id history :
  let '(out, ok, n', id') := sse_history entry_json sends n id history in
  List.filter log_event out = out /\
  (exists k, out = take k (numbered id history)) /\
  (if ok : bool then out = numbered id history /\ id' = id + Z.of_nat (length history)
   else exists n, sends n = false).
Proof.
  revert n id. induction history as [|e history IH]; intros n id; simpl.
  - split_and!; try done; [by exists 0%nat|simpl; lia].
  - destruct (sends n) eqn:Es.
    + specialize (IH (S n) (id + 1)).
      destruct (sse_history entry_json sends (S n) (id + 1) history) as [[[out ok] n'] id'].
      destruct IH as (Hf & (k & Hk) & Hok). simpl. rewrite log_event_sse, Hf. split_and!; [done| |].
      * exists (S k). simpl. by rewrite <- Hk.
      * destruct ok; [|done]. destruct Hok as [-> ->]. split; [done|lia].
    + simpl. rewrite log_event_sse. split_and!; [done| |by exists n]. exists 1%nat. simpl. by rewrite take_0.
Qed.

(** The log events of an SSE stream are the history, then the live
    lines, each once, in order and numbered from 0 without a gap, whatever
    keepalives come between: the events sent are a prefix of that sequence,
    and all of it when every send succeeds. *)
Theorem sse_numbered sends history inputs :
  exists k, List.filter log_event (sse entry_json sends history inputs) =
              take k (numbered 0 (history ++ lines_of inputs)) /\
    ((forall n, sends n = true) -> (length (history ++ lines_of inputs) <= k)%nat).
Proof.
  unfold sse. pose proof (sse_history_numbered sends 0 0 history) as Hh.
  destruct (sse_history entry_json sends 0 0 history) as [[[out ok] n] id].
  destruct Hh as (Hf & (k & Hk) & Hok). destruct ok.
  - destruct Hok as [Hout ->]. destruct (sse_loop_numbered sends n (0 + Z.of_nat (length history)) inputs) as (j & Hj & Hl).
    assert (length out = length history) as Hlen by (by rewrite Hout, numbered_length).
    exists (length history + j)%nat. rewrite List.filter_app, Hf, Hj, numbered_app, <- Hout.
    rewrite take_app, Hlen. split.
    + f_equal; [symmetry; apply take_ge; lia|]. f_equal. lia.
    + intros H. specialize (Hl H). rewrite length_app. lia.
  - exists (Nat.min k (length history)). rewrite Hf, numbered_app. split.
    + rewrite Hk.
      pose proof (numbered_length 0 history) as Hlen.
      rewrite take_app_le by lia. rewrite <- Hlen, <- (take_ge (numbered 0 history) (length (numbered 0 history))) at 1 by done.
      by rewrite take_take.
    + intros H. destruct Hok as [m Hm]. by rewrite H in Hm.
Qed.
Transparent log_event sse_event KEEPALIVE.
End numbering.

(** ** Following a worker *)

Section follow_props.
Context {B : Type} `{!Broadcast LogEntry B}.

(** Enough fuel: a receiver with [l] unread gives its first line of the
    worker, or waits, or closes when it lost lines. *)
Lemma follow_next_total fuel worker_id i (b : B) l g :
  bc_receivers b !! i = Some (l, g) -> (length l < fuel)%nat ->
  exists r b', follow_next fuel (fun _ => false) worker_id i b = Some (r, b') /\
    match r with
    | Close => g = true
    | Wait => g = false /\ Forall (fun e => le_worker_id e <> worker_id) l
    | Line e => g = false /\ le_worker_id e = worker_id /\
        exists pre post, l = pre ++ e :: post /\ Forall (fun e => le_worker_id e <> worker_id) pre /\
          bc_receivers b' !! i = Some (post, false)
    end.
Proof.
  revert b l g. induction fuel as [|fuel IH]; intros b l g Hb Hf; [lia|]. simpl.
  destruct (bc_recv i b) as [r b1] eqn:E. destruct (bc_recv_spec _ _ _ _ _ _ Hb E) as (_ & Hr & Hb1).
  destruct g; [subst; by eexists _, _|]. destruct l as [|e l]; subst; [by eexists _, _|].
  assert (bc_receivers b1 !! i = Some (l, false)) as Hl by (rewrite Hb1; apply lookup_insert_eq).
  destruct (String.eqb_spec (le_worker_id e) worker_id) as [He|He].
  - eexists _, _. split; [done|]. split; [done|]. split; [done|]. by exists [], l.
  - destruct (IH b1 l false Hl ltac:(simpl in Hf; lia)) as (r & b2 & Hn & Hm). exists r, b2. split; [done|].
    destruct r; [|done|].
    + destruct Hm as (_ & Hw & pre & post & -> & Hp & Hb2). split; [done|]. split; [done|].
      exists (e :: pre), post. split; [done|]. split; [by constructor|done].
    + destruct Hm as [_ Hm]. split; [done|]. by constructor.
Qed.
End follow_props.

(** ** A line that a new stream misses *)

Section gap.
Abbreviation gap_trace := (@trace (map_broadcast LogEntry) (list_mpsc LogEntry)).

(** One worker, whose id is "w". *)
Definition one_uuid (s : string) : option Z := if String.eqb s "w" then Some 1 else None.
Definition run_gap (ops : list log_op) : gap_trace :=
  foldl (run_op one_uuid {[1]}) trace_init ops.
Definition stored_lines (t : gap_trace) : list LogEntry :=
  history (fun _ => "w") (fun _ => Some LInfo) 1 (st_table (tr t)).

(** A send by thread [i] with no other in between, and a round of the store. *)
Definition alone (i : nat) (now : Z) (message : string) : list log_op :=
  OSend "w" LInfo message :: replicate 5 (OThread i now false).
Definition round : list log_op := [OTake; OInsert true; OSwap].

Definition stop_run : list log_op := alone 0 5 "a" ++ [OStop] ++ round ++ alone 1 6 "b" ++ [OTake].

Lemma lines_conserved_witness : accepted (run_gap stop_run) = handled (run_gap stop_run) /\
  (le_message <$> accepted (run_gap stop_run)) = ["a"] /\ refused (run_gap stop_run) = 1.
Proof.
  split; [|split; vm_compute; reflexivity].
  symmetry. refine (proj2 (proj2 (proj2 (proj2 (proj2 (proj2 (lines_conserved one_uuid {[1]} stop_run _)))))) _).
  - vm_compute. reflexivity.
  - vm_compute. reflexivity.
Defined.

(** Two threads at once: the line dated first is queued last, so the queue is
    not in the order of the dates. *)
Example queue_not_by_date :
  (le_date <$> accepted (run_gap ([OSend "w" LInfo "a"; OSend "w" LInfo "b"; OThread 0 5 false; OThread 0 5 false] ++
    replicate 5 (OThread 1 5 false) ++ replicate 3 (OThread 0 5 false)))) = [6; 5].
Proof. vm_compute. reflexivity. Qed.

(** A line can reach neither the history nor the live lines of a new
    stream: a line waits in the queue when the client subscribes and when the
    history is read, so the table does not hold it yet and the subscription
    came too late. The line is stored afterwards, and the stream never gets
    it. *)
Theorem line_between_history_and_live :
  exists e before after,
    let t : gap_trace := run_gap (before ++ [OSubscribe]) in
    let t' : gap_trace := run_gap (before ++ [OSubscribe] ++ after) in
    (e ∈ accepted (run_gap before)) /\ (e ∉ stored_lines t) /\ (e ∈ stored_lines t') /\
    (forall i l g, bc_receivers (live (st_sink (tr t'))) !! i = Some (l, g) -> e ∉ l /\ g = false).
Proof.
  exists (mkEntry 5 "w" LInfo "a"), (alone 0 5 "a"), round. cbv zeta.
  assert (E : bc_receivers (live (st_sink (tr (run_gap (alone 0 5 "a" ++ [OSubscribe] ++ round))))) = {[0%nat := ([], false)]})
    by (vm_compute; reflexivity).
  split_and!; [by apply (bool_decide_unpack _); vm_compute..|].
  intros i l g Hi. rewrite E in Hi. apply lookup_singleton_Some in Hi as [_ [= <- <-]]. split; [by intros ?%elem_of_nil|done].
Qed.
End gap.
