(* ===== verification/Addr.v ===== *)
(** * Address parsers

    [FromStr] of [IpAddr] and [SocketAddr]: the recursive descent of the Rust
    standard library, on the bytes of the text. Each reader gives its value
    and the rest of the text. *)

From S2P Require Import Prelude RustStr NetGuard.

Definition digit_of (radix : Z) (c : ascii) : option Z :=
  let b := byte_of c in
  let d := if (48 <=? b) && (b <=? 57) then b - 48
           else if (97 <=? b) && (b <=? 122) then b - 87
           else if (65 <=? b) && (b <=? 90) then b - 55 else 99 in
  if d <? radix then Some d else None.

(** The longest run of digits: its value, its length, the rest. *)
Fixpoint read_digits (radix acc : Z) (n : nat) (s : string) : Z * nat * string :=
  match s with
  | EmptyString => (acc, n, s)
  | String c r => match digit_of radix c with
                  | Some d => read_digits radix (acc * radix + d) (S n) r
                  | None => (acc, n, s)
                  end
  end.

Definition read_number (radix : Z) (max_digits : option nat) (zero_prefix : bool) (max : Z) (s : string) :
  option (Z * string) :=
  let '(v, n, rest) := read_digits radix 0 0 s in
  let leading_zero := starts_with "0" s in
  if (n =? 0)%nat then None else
  if match max_digits with Some m => (m <? n)%nat | None => false end then None else
  if negb zero_prefix && leading_zero && (1 <? n)%nat then None else
  if v <=? max then Some (v, rest) else None.

(** [read_separator]: every group but the first follows the separator. *)
Definition after {A} (sep : string) (first : bool) (read : string -> option (A * string)) (s : string) :
  option (A * string) :=
  if first then read s else match strip_prefix sep s with Some r => read r | None => None end.

Definition read_octet : string -> option (Z * string) := read_number 10 (Some 3%nat) false 255.

Definition read_ipv4 (s : string) : option (Z * string) :=
  '(a, s) ← read_octet s;
  '(b, s) ← after "." false read_octet s;
  '(c, s) ← after "." false read_octet s;
  '(d, s) ← after "." false read_octet s;
  Some (((a * 256 + b) * 256 + c) * 256 + d, s).

(** [read_groups] with room for [k] groups: the groups, whether the last two
    came from an IPv4 address, the rest. *)
Fixpoint read_groups (k : nat) (first : bool) (s : string) : list Z * bool * string :=
  match k with
  | O => ([], false, s)
  | S k =>
    let v4 := if (0 <? k)%nat then after ":" first read_ipv4 s else None in
    match v4 with
    | Some (ip, rest) => ([ip / 65536; ip mod 65536], true, rest)
    | None =>
      match after ":" first (read_number 16 (Some 4%nat) true 65535) s with
      | Some (g, rest) => let '(gs, v4, rest) := read_groups k false rest in (g :: gs, v4, rest)
      | None => ([], false, s)
      end
    end
  end.

Definition of_segments (l : list Z) : Z := foldl (fun acc g => acc * 65536 + g) 0 l.

Definition read_ipv6 (s : string) : option (Z * string) :=
  let '(head, head_v4, s) := read_groups 8 true s in
  if (length head =? 8)%nat then Some (of_segments head, s) else
  if head_v4 then None else
  s ← strip_prefix "::" s;
  let '(tail, _, s) := read_groups (8 - (length head + 1)) true s in
  Some (of_segments (head ++ replicate (8 - length head - length tail) 0 ++ tail), s).

Definition finish {A} (r : option (A * string)) : option A :=
  match r with Some (a, EmptyString) => Some a | _ => None end.

Definition parse_ip (s : string) : option IpAddr :=
  finish (match read_ipv4 s with
          | Some (ip, r) => Some (V4 ip, r)
          | None => match read_ipv6 s with Some (ip, r) => Some (V6 ip, r) | None => None end
          end).

Record SocketAddr := mkSocketAddr { sa_ip : IpAddr; sa_port : Z }.

Definition read_port (s : string) : option (Z * string) :=
  s ← strip_prefix ":" s; read_number 10 None true U16_MAX s.

Definition read_socket_v4 (s : string) : option (SocketAddr * string) :=
  '(ip, s) ← read_ipv4 s; '(port, s) ← read_port s; Some (mkSocketAddr (V4 ip) port, s).

(** The scope after a percent sign, which the address does not keep here. *)
Definition read_scope (s : string) : string :=
  match strip_prefix "%" s with
  | Some r => match read_number 10 None true U32_MAX r with Some (_, r) => r | None => s end
  | None => s
  end.

Definition read_socket_v6 (s : string) : option (SocketAddr * string) :=
  s ← strip_prefix "[" s;
  '(ip, s) ← read_ipv6 s;
  s ← strip_prefix "]" (read_scope s);
  '(port, s) ← read_port s;
  Some (mkSocketAddr (V6 ip) port, s).

Definition parse_socket_addr (s : string) : option SocketAddr :=
  finish (match read_socket_v4 s with Some r => Some r | None => read_socket_v6 s end).

Example parse_ip_v4 : parse_ip "10.0.0.255" = Some (V4 (10 * 2 ^ 24 + 255)).
Proof. vm_compute. reflexivity. Qed.
Example parse_ip_mapped : parse_ip "::ffff:1.2.3.4" = Some (V6 (65535 * 2 ^ 32 + 16909060)).
Proof. vm_compute. reflexivity. Qed.
Example parse_ip_leading_zero : parse_ip "10.0.0.01" = None /\ parse_ip "1:2:3:4:5:6:7::8" = None.
Proof. vm_compute. split; reflexivity. Qed.
Example parse_socket_v6 : parse_socket_addr "[::1]:8443" = Some (mkSocketAddr (V6 1) 8443).
Proof. vm_compute. reflexivity. Qed.

(** ** Bounds *)

Lemma read_number_bound radix m z max s v r :
  0 <= radix -> read_number radix m z max s = Some (v, r) -> 0 <= v <= max.
Proof.
  intros Hr. unfold read_number. destruct (read_digits radix 0 0 s) as [[w n] rest] eqn:E.
  assert (forall s acc n, 0 <= acc -> 0 <= (read_digits radix acc n s).1.1) as Hd.
  { clear. intros s. induction s as [|c s IH]; intros acc n Ha; simpl; [done|].
    destruct (digit_of radix c) as [d|] eqn:Ed; [|done]. apply IH.
    unfold digit_of in Ed. repeat case_match; simplify_eq; reflect_bools; nia. }
  specialize (Hd s 0 0%nat ltac:(lia)). rewrite E in Hd. simpl in Hd.
  repeat case_match; intros; simplify_eq; reflect_bools; lia.
Qed.

Lemma option_bind_pair {A B C} (o : option (A * B)) (f : A -> B -> option C) c :
  ('(a, b) ← o; f a b) = Some c -> exists a b, o = Some (a, b) /\ f a b = Some c.
Proof. destruct o as [[a b]|]; simpl; [eauto|done]. Qed.

Lemma read_octet_bound s v r : read_octet s = Some (v, r) -> 0 <= v < 256.
Proof. intros Hv. apply read_number_bound in Hv; lia. Qed.

Lemma after_octet_bound s v r : after "." false read_octet s = Some (v, r) -> 0 <= v < 256.
Proof. unfold after. case_match; [apply read_octet_bound|done]. Qed.

Lemma read_ipv4_bound s v r : read_ipv4 s = Some (v, r) -> 0 <= v < 2 ^ 32.
Proof.
  unfold read_ipv4. intros (a & s1 & Ha & H)%option_bind_pair.
  apply option_bind_pair in H as (b & s2 & Hb & H).
  apply option_bind_pair in H as (c & s3 & Hc & H).
  apply option_bind_pair in H as (d & s4 & Hd & H). simplify_eq.
  apply read_octet_bound in Ha. apply after_octet_bound in Hb, Hc, Hd. lia.
Qed.

Lemma read_groups_bound k first s :
  Forall (fun g => 0 <= g < 65536) (read_groups k first s).1.1 /\
  (length (read_groups k first s).1.1 <= k)%nat.
Proof.
  revert first s. induction k as [|k IH]; intros first s; simpl; [split; [constructor|done]|].
  destruct (if (0 <? k)%nat then after ":" first read_ipv4 s else None) as [[ip rest]|] eqn:E.
  - simpl. destruct (Nat.ltb_spec 0 k); [|done].
    assert (0 <= ip < 2 ^ 32) as Hip.
    { unfold after in E. destruct first; [by apply read_ipv4_bound in E|].
      destruct (strip_prefix ":" s); [by apply read_ipv4_bound in E|done]. }
    split; [|lia]. repeat constructor; div_lia.
  - clear E. destruct (after ":" first (read_number _ _ _ _) s) as [[g rest]|] eqn:Eg; [|split; [constructor|simpl; lia]].
    assert (0 <= g <= 65535) as Hg.
    { unfold after in Eg. destruct first; [by apply read_number_bound in Eg|].
      destruct (strip_prefix ":" s); [by apply read_number_bound in Eg|done]. }
    destruct (IH false rest) as [Hf Hl]. destruct (read_groups k false rest) as [[gs v4] r].
    simpl in *. split; [constructor; [lia|done]|lia].
Qed.

Lemma of_segments_bound l : Forall (fun g => 0 <= g < 65536) l ->
  0 <= of_segments l < 65536 ^ Z.of_nat (length l).
Proof.
  unfold of_segments. assert (forall l acc, 0 <= acc -> Forall (fun g => 0 <= g < 65536) l ->
    0 <= foldl (fun acc g => acc * 65536 + g) acc l < (acc + 1) * 65536 ^ Z.of_nat (length l)) as H.
  { clear. intros l. induction l as [|g l IH]; intros acc Ha Hf; cbn [foldl length]; [lia|].
    apply Forall_cons in Hf as [Hg Hf]. specialize (IH (acc * 65536 + g) ltac:(lia) Hf).
    rewrite Nat2Z.inj_succ, Z.pow_succ_r by lia.
    pose proof (Z.pow_pos_nonneg 65536 (Z.of_nat (length l))). nia. }
  intros Hf. specialize (H l 0 ltac:(lia) Hf). lia.
Qed.

Lemma read_ipv6_bound s v r : read_ipv6 s = Some (v, r) -> 0 <= v < 2 ^ 128.
Proof.
  unfold read_ipv6. pose proof (read_groups_bound 8 true s) as [Hf Hl].
  destruct (read_groups 8 true s) as [[head v4] s1]. simpl in Hf, Hl.
  destruct (Nat.eqb_spec (length head) 8) as [H8|H8].
  - intros ?; simplify_eq. pose proof (of_segments_bound head Hf) as Hb. rewrite H8 in Hb. lia.
  - destruct v4; [done|]. destruct (strip_prefix "::" s1) as [s2|]; [|done]. simpl.
    pose proof (read_groups_bound (8 - (length head + 1)) true s2) as [Hf' Hl'].
    destruct (read_groups (8 - (length head + 1)) true s2) as [[tl v4'] s3]. simpl in *.
    intros ?; simplify_eq. set (l := head ++ _).
    assert (length l = 8%nat) as H8' by (subst l; rewrite !length_app, length_replicate; lia).
    pose proof (of_segments_bound l) as Hb. rewrite H8' in Hb. apply Hb.
    subst l. rewrite !Forall_app. split_and!; try done. by apply Forall_replicate.
Qed.

(** A parsed address is an address of its width. *)
Lemma parse_ip_wf s ip : parse_ip s = Some ip -> ip_wf ip.
Proof.
  unfold parse_ip, finish. intros H.
  destruct (read_ipv4 s) as [[a r]|] eqn:E4; [|destruct (read_ipv6 s) as [[a r]|] eqn:E6; [|done]];
    destruct r; simplify_eq; simpl; [by apply read_ipv4_bound in E4|by apply read_ipv6_bound in E6].
Qed.
