(* ===== verification/Url.v ===== *)
(** * URLs

    Interfaces of the [percent_encoding] and [url] crates, with the parts of
    the URL Standard the runner relies on. *)

From S2P Require Import Prelude RustStr Addr.

(** ** Percent decoding

    Every percent sign followed by two hex digits stands for a byte, any other
    byte for itself. *)

Definition hex_byte (c d : ascii) : option ascii :=
  match digit_of 16 c, digit_of 16 d with
  | Some a, Some b => Some (ascii_of_nat (Z.to_nat (16 * a + b)))
  | _, _ => None
  end.

Fixpoint percent_bytes (s : string) : string :=
  match s with
  | EmptyString => EmptyString
  | String "%" (String c (String d r) as t) =>
    match hex_byte c d with
    | Some b => String b (percent_bytes r)
    | None => String "%" (percent_bytes t)
    end
  | String c r => String c (percent_bytes r)
  end.

Definition is_ascii (c : ascii) : bool := byte_of c <? 128.

(** [percent_decode_str] and [decode_utf8], whose argument is valid text. *)
Class Percent := {
  decode_utf8 : string -> option string;
  decode_utf8_bytes s t : decode_utf8 s = Some t -> t = percent_bytes s;
  decode_utf8_stable s : percent_bytes s = s -> decode_utf8 s = Some s;
  decode_utf8_ascii s : all_bytes is_ascii (percent_bytes s) = true -> decode_utf8 s = Some (percent_bytes s);
}.

(** The text has no escape left. *)
Definition stable (s : string) : Prop := percent_bytes s = s.

(** ** URLs *)

Definition is_tab_or_newline (c : ascii) : bool := (byte_of c =? 9) || (byte_of c =? 10) || (byte_of c =? 13).

Fixpoint remove_tabs (s : string) : string :=
  match s with
  | EmptyString => EmptyString
  | String c s => if is_tab_or_newline c then remove_tabs s else String c (remove_tabs s)
  end.

(** The segments that climb a directory, in any case. *)
Definition double_dot (s : string) : bool :=
  bool_decide (to_ascii_lowercase s ∈ [".."; ".%2e"; "%2e."; "%2e%2e"]).

(** Letters, digits and [- . _ ~], which a parser leaves as they are. *)
Definition is_unreserved (c : ascii) : bool :=
  is_ascii_digit c || ((97 <=? byte_of (ascii_lower c)) && (byte_of (ascii_lower c) <=? 122))
  || bool_decide (c ∈ ["-"; "."; "_"; "~"]%char).

Definition plain_segment (s : string) : bool :=
  all_bytes is_unreserved s && negb (is_empty s) && negb (String.eqb s ".") && negb (contains_str ".." s).

(** A path of plain segments. *)
Definition plain_path (p : string) : Prop := Forall (fun s => plain_segment s = true) (split "/" p).

(** The scheme and the host of a web server, without anything after. *)
Definition http_origin (e : string) : Prop :=
  exists h, e = "https://" +:+ h /\ plain_segment h = true.

(** [url::Url], whose parser is the one of the URL Standard: it drops tabs and
    newlines anywhere in the text, and a double-dot segment takes the segment
    before it away. *)
Class UrlLib (U : Type) := {
  url_parse : string -> result U string;
  host_str : U -> option string;
  url_path : U -> string;
  url_query : U -> option string;
  parse_tabs s : url_parse (remove_tabs s) = url_parse s;
  parse_double_dot e p seg dots rest : http_origin e -> plain_path p -> plain_segment seg = true ->
    double_dot dots = true ->
    url_parse (e +:+ "/" +:+ p +:+ "/" +:+ seg +:+ "/" +:+ dots +:+ "/" +:+ rest) =
    url_parse (e +:+ "/" +:+ p +:+ "/" +:+ rest);
  parse_plain e p u : http_origin e -> plain_path p -> url_parse e = Ok u ->
    exists v, url_parse (e +:+ "/" +:+ p) = Ok v /\ host_str v = host_str u /\ url_path v = "/" +:+ p /\
      url_query v = None;
}.

(** ** Facts on percent decoding *)

(** Induction on the length of a text. *)
Lemma string_len_ind (P : string -> Prop) :
  (forall s, (forall t, (String.length t < String.length s)%nat -> P t) -> P s) -> forall s, P s.
Proof.
  intros H s. remember (String.length s) as n eqn:E. revert s E.
  induction n as [n IH] using lt_wf_ind. intros s ->. apply H. intros t Ht. by apply (IH (String.length t)).
Qed.

(** One step of the decoder. *)
Lemma percent_bytes_cases s : match s with
  | EmptyString => percent_bytes s = ""
  | String c r =>
    percent_bytes s = String c (percent_bytes r) \/
    exists x y b t, s = String "%" (String x (String y t)) /\ hex_byte x y = Some b /\
      percent_bytes s = String b (percent_bytes t)
  end.
Proof.
  destruct s as [|c r]; [done|].
  destruct (Ascii.eqb_spec c "%") as [->|Hc].
  - destruct r as [|x [|y t]]; [by left..|]. simpl. destruct (hex_byte x y) as [b|] eqn:E; [|by left].
    right. by exists x, y, b, t.
  - left. revert Hc. clear. destruct c as [[] [] [] [] [] [] [] []]; done.
Qed.

Lemma percent_bytes_length s : percent_bytes s = s \/ (String.length (percent_bytes s) + 2 <= String.length s)%nat.
Proof.
  induction s as [s IH] using string_len_ind. pose proof (percent_bytes_cases s) as H.
  destruct s as [|c r]; [by left|]. destruct H as [->|(x & y & b & t & E & _ & ->)].
  - destruct (IH r) as [->|]; simpl in *; [lia|by left|right; lia].
  - right. rewrite E in *. simpl in *. destruct (IH t) as [->|]; lia.
Qed.

Lemma percent_bytes_le s : (String.length (percent_bytes s) <= String.length s)%nat.
Proof. destruct (percent_bytes_length s) as [->|]; lia. Qed.

Lemma short_stable s : (String.length s <= 2)%nat -> stable s.
Proof.
  intros Hs. destruct (percent_bytes_length s) as [|Hl]; [done|].
  pose proof (percent_bytes_cases s) as H. destruct s as [|c r]; [done|].
  destruct H as [E|(? & ? & ? & ? & _ & _ & E)]; rewrite E in Hl; simpl in *; lia.
Qed.

Lemma no_percent_stable s : contains_char "%" s = false -> stable s.
Proof.
  unfold stable. induction s as [|c r IH]; [done|]. rewrite contains_char_cons. intros [Hc Hr]%orb_false_iff.
  pose proof (percent_bytes_cases (String c r)) as [->|(x & y & b & t & E & _)]; [by rewrite IH|].
  by simplify_eq.
Qed.

(** An escape does not reach over a slash. *)
Lemma percent_bytes_slash a b :
  percent_bytes (a +:+ String "/" b) = percent_bytes a +:+ String "/" (percent_bytes b).
Proof.
  induction a as [a IH] using string_len_ind. destruct a as [|c a]; [done|].
  destruct (Ascii.eqb_spec c "%") as [->|Hc].
  - destruct a as [|x [|y t]].
    + destruct b as [|y b]; [done|]. done.
    + assert (Hx := IH (String x "")). assert (Hh : hex_byte x "/" = None)
        by (unfold hex_byte; by destruct (digit_of 16 x)).
      cbn -[hex_byte] in Hx |- *. rewrite Hh. f_equal. apply Hx. lia.
    + assert (Ht := IH t). assert (Hx := IH (String x (String y t))).
      simpl in Ht, Hx |- *. destruct (hex_byte x y); simpl; [rewrite Ht by lia; done|]. f_equal. by rewrite Hx by lia.
  - simpl in *. specialize (IH a). revert Hc IH. simpl. intros Hc IH.
    destruct c as [[] [] [] [] [] [] [] []]; (done || (simpl; rewrite IH by lia; done)).
Qed.

Lemma app_inj_len (a b c d : string) :
  String.length a = String.length c -> a +:+ b = c +:+ d -> a = c /\ b = d.
Proof.
  revert c. induction a as [|x a IH]; intros [|y c]; simpl; try done. intros Hl E. simplify_eq.
  by destruct (IH c) as [-> ->].
Qed.

Lemma stable_slash a b : stable (a +:+ String "/" b) <-> stable a /\ stable b.
Proof.
  unfold stable. rewrite percent_bytes_slash. split; [|by intros [-> ->]]. intros E.
  pose proof (percent_bytes_le a). pose proof (percent_bytes_le b).
  assert (El := f_equal String.length E). rewrite !length_app_str in El. simpl in El.
  apply app_inj_len in E as [-> E]; [by simplify_eq|lia].
Qed.

(** A predicate that holds of a path when it holds of its segments. *)
Lemma join_iff (P : string -> Prop) l : (forall a b, P (a +:+ String "/" b) <-> P a /\ P b) -> l <> [] ->
  P (str_join "/" l) <-> Forall P l.
Proof.
  intros HP. induction l as [|x l IH]; [done|]. intros _. destruct (decide (l = [])) as [->|Hl].
  - by rewrite Forall_singleton.
  - rewrite str_join_cons by done. rewrite Forall_cons, <- IH by done. apply (HP x).
Qed.

Lemma split_iff (P : string -> Prop) s : (forall a b, P (a +:+ String "/" b) <-> P a /\ P b) ->
  P s <-> Forall P (split "/" s).
Proof. intros HP. rewrite <- (join_iff P _ HP) by apply split_not_nil. by rewrite str_join_split. Qed.

Lemma no_char_slash c a b : c <> "/"%char ->
  contains_char c (a +:+ String "/" b) = false <-> contains_char c a = false /\ contains_char c b = false.
Proof.
  intros Hc. rewrite contains_char_app, contains_char_cons. destruct (Ascii.eqb_spec c "/"); [done|].
  apply orb_false_iff.
Qed.

Lemma no_dots_slash a b :
  contains_str ".." (a +:+ String "/" b) = false <-> contains_str ".." a = false /\ contains_str ".." b = false.
Proof. rewrite contains_str_sep by done. apply orb_false_iff. Qed.

Lemma split_join l : l <> [] -> Forall (fun x => contains_char "/" x = false) l -> split "/" (str_join "/" l) = l.
Proof.
  induction l as [|x l IH]; [done|]. intros _ [Hx Hl]%Forall_cons. destruct (decide (l = [])) as [->|Hne].
  - by apply split_none.
  - rewrite str_join_cons by done. change ("/" +:+ ?y) with (String "/" y). by rewrite split_app, IH.
Qed.

(** ** Facts on plain segments *)

Lemma unreserved_no c s : is_unreserved c = false -> all_bytes is_unreserved s = true -> contains_char c s = false.
Proof. intros Hc Hs. by apply (all_bytes_contains is_unreserved). Qed.

Lemma plain_segment_spec s : plain_segment s = true <->
  all_bytes is_unreserved s = true /\ s <> "" /\ s <> "." /\ contains_str ".." s = false.
Proof.
  unfold plain_segment. rewrite !andb_true_iff, !negb_true_iff.
  split; [intros [[[? H] H'] ?]|intros (? & ? & ? & ?)]; split_and!; try done.
  - by intros ->.
  - by intros ->.
  - by destruct s.
  - by destruct (String.eqb_spec s ".").
Qed.

Lemma lower_unreserved c : is_unreserved c = true -> is_unreserved (ascii_lower c) = true.
Proof. by destruct c as [[] [] [] [] [] [] [] []]. Qed.

(** What the spelling of a double dot excludes. *)
Definition separators : list ascii := ["/"; "?"; "#"; "009"; "010"; "013"]%char.

Lemma double_dot_chars c s : c ∈ separators -> double_dot s = true -> contains_char c s = false.
Proof.
  intros Hc Hs. apply bool_decide_eq_true in Hs.
  assert (Hlow : ascii_lower c = c /\ contains_char c (to_ascii_lowercase s) = false).
  { unfold separators in Hc. rewrite !elem_of_cons, elem_of_nil in Hc. rewrite !elem_of_cons, elem_of_nil in Hs. clear -Hc Hs. generalize dependent (to_ascii_lowercase s).
    intros t Hs. destruct_or! Hc; subst c; destruct_or! Hs; subst t; done. }
  destruct Hlow as [Hlow Hl]. clear Hs Hc. induction s as [|d s IH]; [done|].
  simpl in Hl. rewrite contains_char_cons in Hl |- *.
  apply orb_false_iff in Hl as [Hd Hl]. rewrite IH by done. rewrite orb_false_r.
  destruct (Ascii.eqb_spec c d) as [<-|]; [|done]. by rewrite Hlow, Ascii.eqb_refl in Hd.
Qed.

Lemma lower_dots s : to_ascii_lowercase s = ".." -> s = "..".
Proof.
  assert (Hd : forall c, ascii_lower c = "."%char -> c = "."%char)
    by (intros c; destruct c as [[] [] [] [] [] [] [] []]; done).
  intros E. destruct s as [|x [|y [|z s]]]; simpl in E; try done. injection E as Ex Ey.
  by rewrite (Hd x), (Hd y).
Qed.

Lemma plain_not_dots s : plain_segment s = true -> double_dot s = false.
Proof.
  intros (Hu & _ & _ & Hd)%plain_segment_spec. unfold double_dot. apply bool_decide_eq_false.
  assert (Hp : contains_char "%" (to_ascii_lowercase s) = false).
  { apply (all_bytes_contains is_unreserved); [|done]. clear -Hu. induction s as [|c s IH]; [done|].
    simpl in *. apply andb_prop in Hu as [Hc Hs]. by rewrite IH, lower_unreserved. }
  intros Hs. rewrite !elem_of_cons in Hs. destruct Hs as [E|[E|[E|[E|?%elem_of_nil]]]]; try (by rewrite E in Hp).
  - apply lower_dots in E as ->. done.
  - done.
Qed.

(** ** A parser of [https] URLs

    The instance the witnesses evaluate: without ports and user names. *)

Record web_url := WebUrl { w_host : string; w_segments : list string; w_query : option string }.

Fixpoint climb (st segs : list string) : list string :=
  match segs with
  | [] => rev st
  | [x] => if double_dot x then rev ("" :: tail st)
           else if String.eqb x "." then rev ("" :: st) else rev (x :: st)
  | x :: l => if double_dot x then climb (tail st) l
              else if String.eqb x "." then climb st l else climb (x :: st) l
  end.

Definition cut (c : ascii) (s : string) : string * option string :=
  match split_once c s with Some (a, b) => (a, Some b) | None => (s, None) end.

Definition web_parse (s : string) : result web_url string :=
  match strip_prefix "https://" (remove_tabs s) with
  | None => Err "relative URL without a base"
  | Some r =>
    let '(r, _) := cut "#" r in
    let '(r, q) := cut "?" r in
    match split "/" r with
    | host :: segs => if is_empty host then Err "empty host" else Ok (WebUrl host (climb [] segs) q)
    | [] => Err "empty host"
    end
  end.

Lemma remove_tabs_app a b : remove_tabs (a +:+ b) = remove_tabs a +:+ remove_tabs b.
Proof. induction a as [|c a IH]; [done|]. simpl. destruct (is_tab_or_newline c); simpl; by rewrite IH. Qed.

Lemma remove_tabs_idemp s : remove_tabs (remove_tabs s) = remove_tabs s.
Proof. induction s as [|c s IH]; [done|]. simpl. destruct (is_tab_or_newline c) eqn:E; simpl; [done|]. by rewrite E, IH. Qed.

Lemma remove_tabs_none s :
  contains_char "009" s = false -> contains_char "010" s = false -> contains_char "013" s = false -> remove_tabs s = s.
Proof.
  induction s as [|c s IH]; [done|]. rewrite !contains_char_cons. intros [H1 ?]%orb_false_iff [H2 ?]%orb_false_iff
    [H3 ?]%orb_false_iff. simpl. rewrite IH by done. revert H1 H2 H3. by destruct c as [[] [] [] [] [] [] [] []].
Qed.

Lemma cut_app c a b : contains_char c a = false -> cut c (a +:+ b) = (a +:+ (cut c b).1, (cut c b).2).
Proof.
  intros Ha. unfold cut. destruct (split_once c b) as [[u v]|] eqn:E.
  - apply split_once_Some in E as [-> Hu]. rewrite (proj2 (split_once_Some c _ (a +:+ u) v)); [done|].
    by rewrite app_assoc_str, contains_char_app, Ha, Hu.
  - apply split_once_None in E. by rewrite (proj2 (split_once_None c (a +:+ b))) by by rewrite contains_char_app, Ha, E.
Qed.

(** The characters that end a piece of a URL. *)
Definition quiet (s : string) : Prop := forall c, c ∈ tail separators -> contains_char c s = false.

Lemma quiet_app a b : quiet a -> quiet b -> quiet (a +:+ b).
Proof. intros Ha Hb c Hc. by rewrite contains_char_app, Ha, Hb. Qed.

Lemma quiet_unreserved s : all_bytes is_unreserved s = true -> quiet s.
Proof.
  intros Hs c Hc. apply (all_bytes_contains is_unreserved); [done|]. unfold separators in Hc. simpl in Hc.
  rewrite !elem_of_cons, elem_of_nil in Hc. destruct_or! Hc; subst; done.
Qed.

Lemma quiet_slash : quiet "/".
Proof.
  intros c Hc. unfold separators in Hc. simpl in Hc. rewrite !elem_of_cons, elem_of_nil in Hc.
  destruct_or! Hc; subst; done.
Qed.

Lemma quiet_plain s : plain_path s -> quiet s.
Proof.
  unfold plain_path. rewrite <- (str_join_split "/" s) at 2.
  induction 1 as [|x l [Hx _]%plain_segment_spec Hl IH]; [done|]. destruct l as [|y l]; [by apply quiet_unreserved|].
  rewrite str_join_cons by done. apply quiet_app; [by apply quiet_unreserved|].
  apply quiet_app; [apply quiet_slash|done].
Qed.

Lemma quiet_tabs s : quiet s -> remove_tabs s = s.
Proof. intros H. apply remove_tabs_none; apply H; simpl; set_solver. Qed.

(** The parser on a text whose beginning is quiet. *)
Lemma web_parse_app a rest : quiet a ->
  web_parse ("https://" +:+ a +:+ rest) =
  let '(r, q) := cut "?" (cut "#" (remove_tabs rest)).1 in
  match split "/" (a +:+ r) with
  | host :: segs => if is_empty host then Err "empty host" else Ok (WebUrl host (climb [] segs) q)
  | [] => Err "empty host"
  end.
Proof.
  intros Ha. unfold web_parse. rewrite !remove_tabs_app, (quiet_tabs a) by done.
  change (remove_tabs "https://") with "https://".
  rewrite (proj2 (strip_prefix_Some "https://" _ _) eq_refl).
  rewrite cut_app by (apply Ha; simpl; set_solver). simpl.
  rewrite cut_app by (apply Ha; simpl; set_solver). by destruct (cut "?" _).
Qed.

Lemma climb_cons st x l : l <> [] ->
  climb st (x :: l) = if double_dot x then climb (tail st) l else if String.eqb x "." then climb st l else climb (x :: st) l.
Proof. by destruct l. Qed.

Lemma climb_app st a b : b <> [] ->
  Forall (fun x => double_dot x = false /\ x <> ".") a -> climb st (a ++ b) = climb (rev a ++ st) b.
Proof.
  intros Hb Ha. revert st. induction Ha as [|x a [Hd Hs] _ IH]; intros st; [done|].
  cbn [app]. rewrite climb_cons, Hd by (intros [_ ?]%app_eq_nil; done). destruct (String.eqb_spec x "."); [done|]. rewrite IH. simpl. by rewrite <- app_assoc.
Qed.

Lemma climb_plain st l : l <> [] -> Forall (fun x => double_dot x = false /\ x <> ".") l -> climb st l = rev st ++ l.
Proof.
  intros Hl H. revert st Hl. induction H as [|x l [Hd Hs] _ IH]; intros st Hl; [done|].
  destruct (decide (l = [])) as [->|].
  - simpl. rewrite Hd. by destruct (String.eqb_spec x ".").
  - rewrite climb_cons, Hd by done. destruct (String.eqb_spec x "."); [done|]. rewrite IH by done. simpl.
    by rewrite <- app_assoc.
Qed.

Lemma plain_climbs l : Forall (fun s => plain_segment s = true) l -> Forall (fun x => double_dot x = false /\ x <> ".") l.
Proof. intros H. eapply Forall_impl; [exact H|]. intros x Hx. split; [by apply plain_not_dots|]. by apply plain_segment_spec in Hx as (_ & _ & ? & _). Qed.

Lemma split_slash_app a b : split "/" (a +:+ "/" +:+ b) = split "/" a ++ split "/" b.
Proof.
  induction a as [|c a IH]; [done|]. cbn [split String.append]. destruct (Ascii.eqb_spec "/" c) as [<-|].
  - simpl. by rewrite <- IH.
  - simpl in IH. rewrite IH. pose proof (split_not_nil "/" a). by destruct (split "/" a).
Qed.

Lemma plain_no_slash s : plain_segment s = true -> contains_char "/" s = false.
Proof. intros (Hs & _)%plain_segment_spec. by apply (all_bytes_contains is_unreserved). Qed.

#[export, refine] Instance web_UrlLib : UrlLib web_url := {
  url_parse := web_parse;
  host_str u := Some (w_host u);
  url_path u := "/" +:+ str_join "/" (w_segments u);
  url_query := w_query;
}.
Proof.
  - intros s. unfold web_parse. by rewrite remove_tabs_idemp.
  - intros e p seg dots rest (h & -> & Hh) Hp Hseg Hdots. rewrite !app_assoc_str.
    assert (Hq : quiet (h +:+ "/" +:+ p +:+ "/")).
    { repeat apply quiet_app; try apply quiet_slash; [|by apply quiet_plain].
      apply plain_segment_spec in Hh as [Hh _]. by apply quiet_unreserved. }
    assert (Hq' : quiet (seg +:+ "/" +:+ dots +:+ "/")).
    { repeat apply quiet_app; try apply quiet_slash.
      - apply plain_segment_spec in Hseg as [Hs _]. by apply quiet_unreserved.
      - intros c Hc. apply double_dot_chars; [|done]. unfold separators. simpl in Hc. set_solver. }
    pose proof (web_parse_app _ rest Hq) as E1. pose proof (web_parse_app _ rest (quiet_app _ _ Hq Hq')) as E2.
    rewrite !app_assoc_str in E1. rewrite !app_assoc_str in E2. rewrite E1, E2. clear E1 E2 Hq Hq'.
    destruct (cut "?" _) as [r q]. rewrite !app_assoc_str, !split_slash_app.
    assert (Hd : contains_char "/" dots = false) by (apply double_dot_chars; [by left|done]).
    rewrite (split_none "/" h), (split_none "/" seg), (split_none "/" dots) by (done || by apply plain_no_slash).
    simpl. rewrite (climb_app [] (split "/" p)) by (done || by apply plain_climbs).
    rewrite (climb_app [] (split "/" p) (split "/" r)) by (apply split_not_nil || by apply plain_climbs).
    pose proof (split_not_nil "/" r). destruct (split "/" r) as [|x l]; [done|].
    rewrite (climb_app _ [seg] (dots :: x :: l)); [|done|by apply plain_climbs; repeat constructor].
    by rewrite climb_cons, Hdots.
  - intros e p u (h & -> & Hh) Hp Hu.
    assert (Hq : quiet h) by (apply plain_segment_spec in Hh as [Hh _]; by apply quiet_unreserved).
    pose proof (web_parse_app h "" Hq) as E0. rewrite app_empty_r in E0. rewrite E0 in Hu. simpl in Hu.
    rewrite app_empty_r, (split_none "/" h) in Hu by by apply plain_no_slash.
    pose proof (web_parse_app (h +:+ "/" +:+ p) "") as E. rewrite app_empty_r in E. rewrite app_assoc_str, E; clear E E0.
    2: { apply quiet_app; [done|]. apply quiet_app; [apply quiet_slash|by apply quiet_plain]. }
    simpl. rewrite app_empty_r. change (String "/" p) with ("/" +:+ p).
    rewrite split_slash_app, (split_none "/" h) by by apply plain_no_slash. simpl in Hu |- *.
    destruct (is_empty h); [done|]. simplify_eq. eexists. split_and!; [done..| |done]. simpl. f_equal.
    rewrite climb_plain; [|apply split_not_nil|by apply plain_climbs]. apply str_join_split.
Defined.

Lemma ascii_utf8 s : all_bytes is_ascii s = true -> utf8 0 s = true.
Proof.
  induction s as [|c s IH]; [done|]. simpl. intros [Hc Hs]%andb_prop. specialize (IH Hs).
  assert (width c = Some 0%nat) as ->; [|done]. revert Hc. by destruct c as [[] [] [] [] [] [] [] []].
Qed.

#[export, refine] Instance web_Percent : Percent := {
  decode_utf8 s := if String.eqb (percent_bytes s) s then Some s
    else if utf8 0 (percent_bytes s) then Some (percent_bytes s) else None;
}.
Proof.
  - intros s t. destruct (String.eqb_spec (percent_bytes s) s); [congruence|]. by case_match; intros; simplify_eq.
  - intros s ->. by rewrite String.eqb_refl.
  - intros s Hs. destruct (String.eqb_spec (percent_bytes s) s) as [->|]; [done|]. by rewrite ascii_utf8.
Defined.
