(* ===== verification/Ingress.v ===== *)
(** * The public side of the runner (src/src/ingress.rs)

    The configuration, the inbound allowlist, the accept loop, and what a
    public request may ask for. Third-party parsers (networks, UUIDs,
    authorities, header names, percent decoding) and the TLS library are
    parameters. *)

From S2P Require Import Prelude RustStr Extern NetGuard Addr RequestBody Logs Url.

Definition RUNNER_HEADERS : list string :=
  ["x-worker-id"; "x-worker-name"; "x-openworkers-internal"; "x-openworkers-depth"; "x-request-id";
   "forwarded"; "x-forwarded-for"; "x-forwarded-host"; "x-forwarded-port"; "x-forwarded-proto";
   "x-real-ip"; "cf-connecting-ip"].

Inductive ClientCertMode : Type := Require_ | Log_.
Inductive HttpsAddr : Type := HttpsTcp (addr : SocketAddr) | HttpsUnix (path : string).
Inductive Peer : Type := PeerTcp (addr : SocketAddr) | PeerUnix.

#[export] Instance SocketAddr_eq_dec : EqDecision SocketAddr.
Proof. solve_decision. Defined.
#[export] Instance ClientCertMode_eq_dec : EqDecision ClientCertMode.
Proof. solve_decision. Defined.

Definition peer_ip (p : Peer) : option IpAddr :=
  match p with PeerTcp a => Some (sa_ip a) | PeerUnix => None end.

(** [ipnet::IpNet] *)
Class IpNet (N : Type) := {
  net_parse : string -> option N;
  net_from : IpAddr -> N;
  net_contains : N -> IpAddr -> bool;
  net_from_contains a b : ip_wf a -> ip_wf b -> net_contains (net_from a) b = bool_decide (a = b);
}.

(** The target of a request, by what [http::Uri] answers: the authority for
    HTTP/2 and the absolute form, the text of the path and query, and the
    path. *)
Record Uri := mkUri { u_authority : option string; u_path_and_query : option string; uri_path : string }.

(** The other libraries. *)
Class IngressLibs := {
  (** [Uri::from_str]. *)
  uri_parse : string -> option Uri;
  uuid_parse : string -> option Z;
  (** [Authority::from_str] and its [host]. *)
  authority_host : string -> option string;
  (** The host of an authority is a part of its text. *)
  authority_host_part s h : authority_host s = Some h -> exists a b, s = a +:+ h +:+ b;
  (** [HeaderName::try_from]: a name is kept in lower case. *)
  header_name : string -> option string;
  (** [percent_decode_str] and [decode_utf8_lossy]. *)
  percent_decode : string -> string;
  (** [Display] of an address. *)
  ip_to_string : IpAddr -> string;
  ip_to_string_visible ip :
    all_bytes (fun c => (33 <=? byte_of c) && (byte_of c <=? 126))%bool (ip_to_string ip) = true;
}.

Definition list_var (value : option string) (dflt : string) : list string :=
  List.filter (fun item => negb (is_empty item))
    (map (fun item => to_ascii_lowercase (trim_end_matches "." (trim item)))
       (split "," (default dflt value))).

Section ingress.
Context {N T : Type} {ipnet : IpNet N} {libs : IngressLibs}.

Record Config := mkConfig {
  internal_port : Z; http_addr : SocketAddr; https_addr : HttpsAddr; listeners : Z;
  dashboard_hosts : list string; api_worker : string; worker_domains : list string;
  allowlist : option (list N); client_ip_header : option string; tls : option T;
  client_cert : option ClientCertMode }.

Definition allowed (nets : option (list N)) (peer : IpAddr) : bool :=
  let peer := to_canonical peer in
  match nets with
  | None => true
  | Some networks => existsb (fun n => net_contains n peer) networks
  end.

Definition allows (c : Config) (peer : IpAddr) : bool := allowed (allowlist c) peer.

(** The lines from number [index] on. *)
Fixpoint parse_lines (index : Z) (l : list string) : result (list N) string :=
  match l with
  | [] => Ok []
  | line :: l =>
    let value := trim (default "" (head (split "#" line))) in
    if is_empty value then parse_lines (index + 1) l else
    match (match net_parse value with
           | Some n => Some n
           | None => option_map net_from (parse_ip value)
           end) with
    | None => Err ("allowlist line " +:+ show_Z (index + 1) +:+ ": not an address: " +:+ value)
    | Some n => ns <-? parse_lines (index + 1) l; Ok (n :: ns)
    end
  end.

Definition parse_allowlist (text : string) : result (list N) string := parse_lines 0 (RustStr.lines text).

Definition DEFAULT_INTERNAL_PORT : Z := 8080.

(** [read_file], [tls_config] and [parallelism] are the file system, the TLS
    set-up and the processor count. *)
Definition parse_addr (var : string -> option string) (name dflt : string) : result SocketAddr string :=
  let value := default dflt (var name) in
  match parse_socket_addr value with
  | Some a => Ok a
  | None => Err (name +:+ " is not an address: " +:+ value)
  end.

Definition from_vars (read_file : string -> result string string)
  (tls_config : string -> string -> option string -> result T string) (parallelism : option Z)
  (var : string -> option string) : result Config string :=
  listeners <-?
    match var "HTTP_LISTENERS" with
    | Some value =>
      match parse_uint U64_MAX value with
      | Some count => if 0 <? count then Ok count
                      else Err ("HTTP_LISTENERS is not a positive count: " +:+ value)
      | None => Err ("HTTP_LISTENERS is not a positive count: " +:+ value)
      end
    | None => Ok (default 4 parallelism)
    end;
  allowlist <-?
    match var "INBOUND_ALLOWLIST_FILE" with
    | Some path =>
      text <-? result_map_err (fun e => "INBOUND_ALLOWLIST_FILE " +:+ path +:+ ": " +:+ e) (read_file path);
      nets <-? parse_allowlist text; Ok (Some nets)
    | None => Ok None
    end;
  client_ip_header <-?
    match var "CLIENT_IP_HEADER" with
    | Some name =>
      match allowlist with
      | None => Err "CLIENT_IP_HEADER needs INBOUND_ALLOWLIST_FILE"
      | Some _ => match header_name name with
                  | Some h => Ok (Some h)
                  | None => Err ("CLIENT_IP_HEADER is not a header name: " +:+ name)
                  end
      end
    | None => Ok None
    end;
  https_addr <-?
    match var "HTTPS_ADDR", var "HTTPS_SOCKET" with
    | Some _, Some _ => Err "set HTTPS_ADDR or HTTPS_SOCKET, not both"
    | None, Some path => Ok (HttpsUnix path)
    | _, None => a <-? parse_addr var "HTTPS_ADDR" "0.0.0.0:8443"; Ok (HttpsTcp a)
    end;
  client_cert <-?
    match var "HTTPS_CLIENT_CA_FILE", var "HTTPS_CLIENT_CERT_MODE" with
    | None, None => Ok None
    | None, Some _ => Err "HTTPS_CLIENT_CERT_MODE needs HTTPS_CLIENT_CA_FILE"
    | Some _, None => Ok (Some Require_)
    | Some _, Some mode =>
      if String.eqb mode "require" then Ok (Some Require_) else
      if String.eqb mode "log" then Ok (Some Log_) else
      Err ("HTTPS_CLIENT_CERT_MODE is require or log, not " +:+ mode)
    end;
  tls <-?
    match var "HTTP_TLS_CERTIFICATE", var "HTTP_TLS_KEY" with
    | None, None =>
      match var "HTTPS_CLIENT_CA_FILE" with
      | Some _ => Err "HTTPS_CLIENT_CA_FILE needs HTTP_TLS_CERTIFICATE and HTTP_TLS_KEY"
      | None => Ok None
      end
    | Some certificate, Some key =>
      t <-? tls_config certificate key (var "HTTPS_CLIENT_CA_FILE"); Ok (Some t)
    | _, _ => Err "set both HTTP_TLS_CERTIFICATE and HTTP_TLS_KEY, or neither"
    end;
  _ <-?
    match https_addr, tls with
    | HttpsUnix _, None => Err "HTTPS_SOCKET needs HTTP_TLS_CERTIFICATE and HTTP_TLS_KEY"
    | _, _ => Ok tt
    end;
  internal_port <-?
    match var "INTERNAL_PORT" with
    | Some value =>
      match parse_uint U16_MAX value with
      | Some port => if 0 <? port then Ok port else Err ("INTERNAL_PORT is not a port: " +:+ value)
      | None => Err ("INTERNAL_PORT is not a port: " +:+ value)
      end
    | None => Ok DEFAULT_INTERNAL_PORT
    end;
  http_addr <-? parse_addr var "HTTP_ADDR" "0.0.0.0:8081";
  Ok (mkConfig internal_port http_addr https_addr listeners
        (list_var (var "DASHBOARD_HOSTS")
           "dash.openworkers.com,dash.openworkers.dev,dash.dev.localhost,dash.dev.kube")
        (default "openworkers-api" (var "API_WORKER_NAME"))
        (list_var (var "WORKER_DOMAINS") "") allowlist client_ip_header tls client_cert).

(** [from_env]: a variable that is set and not empty. *)
Definition from_env read_file tls_config parallelism (env : string -> option string) : result Config string :=
  from_vars read_file tls_config parallelism
    (fun name => match env name with
                 | Some v => if is_empty v then None else Some v
                 | None => None
                 end).

(** Whether a connection is served after its handshake: [peer_certificates]
    says whether the client sent one. *)
Definition client_cert_allowed (mode : option ClientCertMode) (peer_certificates : bool) : bool :=
  match mode with
  | None => true
  | Some mode => if peer_certificates then true else match mode with Require_ => false | Log_ => true end
  end.

(** The accept loop: the connections it serves, of those it is given. An
    accept error serves none. *)
Fixpoint accept (nets : option (list N)) (events : list (option SocketAddr)) : list SocketAddr :=
  match events with
  | [] => []
  | Some peer :: events =>
    if allowed nets (sa_ip peer) then peer :: accept nets events else accept nets events
  | None :: events => accept nets events
  end.

(** ** Requests *)

Inductive Route : Type :=
| RWorker
| RLogs (id : Z) (stream : Stream)
| RLatency
| RProbe
| RBadHost.

Context {HM : Type} {hm : HeaderMap HM} {hv : HeaderValue}.

Record Request := mkRequest { rq_uri : Uri; rq_headers : HM; rq_limit : option BodyLimit }.

Definition set_headers (h : HM) (r : Request) : Request := mkRequest (rq_uri r) h (rq_limit r).

Definition worker_upload (path : string) : bool :=
  match strip_prefix "/api/v1/workers/" path with
  | Some rest => match strip_suffix "/upload" rest with
                 | Some id => negb (is_empty id) && negb (contains_char "/" id)
                 | None => false
                 end
  | None => false
  end.

Record Forwarded := mkForwarded { f_client : option IpAddr; f_https : option bool }.
Definition no_forwarded : Forwarded := mkForwarded None None.

Definition forwarded_by_proxy (config : Config) (headers : HM) (peer : Peer) : Forwarded :=
  match client_ip_header config with
  | None => no_forwarded
  | Some header =>
    let trusted := match peer with PeerTcp addr => allows config (sa_ip addr) | PeerUnix => true end in
    if negb trusted then no_forwarded else
    let client := v ← hdr_get header headers; v ← hv_to_str v; parse_ip (trim v) in
    let https := match hdr_get "x-forwarded-proto" headers with
                 | Some v => if String.eqb v "https" then Some true
                             else if String.eqb v "http" then Some false else None
                 | None => None
                 end in
    mkForwarded client https
  end.

Definition host (headers : HM) : option string :=
  v ← hdr_get "host" headers;
  v ← hv_to_str v;
  h ← authority_host v;
  let host := to_ascii_lowercase (trim_end_matches "." h) in
  if is_empty host then None else Some host.

Definition worker_route (host : string) (domains : list string) : option (string * string) :=
  name ← find_map (fun domain => r ← strip_suffix domain host; strip_suffix "." r) domains;
  if is_empty name || contains_char "." name then None else
  match uuid_parse name with
  | Some _ => Some ("x-worker-id", name)
  | None => Some ("x-worker-name", name)
  end.

Definition PROBED_DOT_FILES : list string :=
  ["env"; "git"; "svn"; "hg"; "ssh"; "aws"; "htpasswd"; "htaccess"; "ds_store"].
Definition PROBED_KEYS : list string := ["rsa"; "dsa"; "ecdsa"; "ed25519"].

Definition str_mem (s : string) (l : list string) : bool := existsb (String.eqb s) l.

Definition probed_key (name : string) : bool :=
  match strip_prefix "id_" name with
  | Some name => str_mem (default name (strip_suffix ".pub" name)) PROBED_KEYS
  | None => false
  end.

Definition probed_segment (segment : string) : bool :=
  let dot_file := match strip_prefix "." segment with
                  | Some name => match head (split "." name) with
                                 | Some stem => str_mem stem PROBED_DOT_FILES
                                 | None => false
                                 end
                  | None => false
                  end in
  let php := match rsplit_once "." segment with
             | Some (_, extension) =>
               String.eqb extension "phtml" ||
               match strip_prefix "php" extension with
               | Some version => (str_len version <=? 1) && all_bytes is_ascii_digit version
               | None => false
               end
             | None => false
             end in
  dot_file || php.

Definition scanner_probe (path : string) : bool :=
  let path := to_ascii_lowercase (percent_decode path) in
  let segments := List.filter (fun s => negb (is_empty s)) (split "/" path) in
  match segments with
  | ["etc"; "passwd"] | ["etc"; "shadow"] => true
  | _ => match last segments with Some name => probed_key name | None => false end ||
         existsb probed_segment segments
  end.

(** The target takes precedence over the Host header. [None]: the [expect] on
    the path that is parsed again panics. *)
Definition name_host (req : Request) : option Request :=
  match u_authority (rq_uri req) with
  | Some authority =>
    let headers := match hv_from_str authority with
                   | Some value => hdr_insert "host" value (rq_headers req)
                   | None => rq_headers req
                   end in
    let path := default "/" (u_path_and_query (rq_uri req)) in
    uri ← uri_parse path;
    Some (mkRequest uri headers (rq_limit req))
  | None => Some req
  end.

(** The headers that only the runner sets. [None]: the process panics. *)
Definition runner_headers (config : Config) (request_id : string) (headers : HM) (peer : Peer) (tls : bool) : option HM :=
  let forwarded := forwarded_by_proxy config headers peer in
  let headers := foldl (fun h name => hdr_remove name h) headers RUNNER_HEADERS in
  let scheme := if default tls (f_https forwarded) then "https" else "http" in
  let headers := hdr_insert "x-request-id" request_id headers in
  let headers := hdr_insert "x-forwarded-proto" scheme headers in
  match (match f_client forwarded with Some c => Some c | None => peer_ip peer end) with
  | Some client =>
    client ← hv_from_str (ip_to_string (to_canonical client));
    Some (hdr_insert "cf-connecting-ip" client
            (hdr_insert "x-forwarded-for" client (hdr_insert "x-real-ip" client headers)))
  | None => Some headers
  end.

(** [request_id]: the fresh UUID. *)
Definition prepare (config : Config) (request_id : string) (req : Request) (peer : Peer) (tls : bool) :
  option (Route * Request) :=
  req ← name_host req;
  headers ← runner_headers config request_id (rq_headers req) peer tls;
  match host headers with
  | None => Some (RBadHost, set_headers headers req)
  | Some host =>
    value ← hv_from_str host;
    let headers := hdr_insert "x-forwarded-host" value headers in
    let path := uri_path (rq_uri req) in
    if scanner_probe path then Some (RProbe, set_headers headers req) else
    if str_mem host (dashboard_hosts config) then
      match route uuid_parse path with
      | Some (worker_id, stream) => Some (RLogs worker_id stream, set_headers headers req)
      | None =>
        if String.eqb path "/api/health/latency/proxy" then Some (RLatency, set_headers headers req) else
        let limit := if worker_upload path then Some (mkBodyLimit UPLOAD_MAX_BODY_BYTES) else rq_limit req in
        api_worker ← hv_from_str (api_worker config);
        Some (RWorker, mkRequest (rq_uri req) (hdr_insert "x-worker-name" api_worker headers) limit)
      end
    else
      match worker_route host (worker_domains config) with
      | Some (header, name) =>
        name ← hv_from_str name;
        Some (RWorker, set_headers (hdr_insert header name headers) req)
      | None => Some (RWorker, set_headers headers req)
      end
  end.
End ingress.

(** ** Bytes of hosts *)

Lemma all_bytes_trim_end p c s : all_bytes p s = true -> all_bytes p (trim_end_matches c s) = true.
Proof.
  induction s as [|d s IH]; simpl; [done|]. intros Hs. reflect_bools.
  destruct (is_empty _ && Ascii.eqb c d)%bool; simpl; [done|]. apply andb_true_iff. auto.
Qed.

Lemma ascii_lower_visible `{!HeaderValue} c : hv_visible c = true -> hv_visible (ascii_lower c) = true.
Proof.
  intros Hc. unfold ascii_lower. destruct (_ && _)%bool eqn:E; [|done]. reflect_bools.
  apply hv_visible_ascii. unfold byte_of in *. rewrite nat_ascii_embedding; lia.
Qed.

Lemma all_bytes_lower `{!HeaderValue} s :
  all_bytes hv_visible s = true -> all_bytes hv_visible (to_ascii_lowercase s) = true.
Proof.
  induction s as [|c s IH]; simpl; [done|]. intros Hs. reflect_bools.
  rewrite ascii_lower_visible by done. simpl. auto.
Qed.

Section ingress_props.
Context {N T : Type} {ipnet : IpNet N} {libs : IngressLibs}.
Context {HM : Type} {hm : HeaderMap HM} {hv : HeaderValue}.
Implicit Types (config : @Config N T) (headers : HM) (req : @Request HM).

(** ** Headers *)

Lemma hdr_remove_all names headers n :
  hdr_get_all n (foldl (fun h name => hdr_remove name h) headers names) =
  if bool_decide (n ∈ names) then [] else hdr_get_all n headers.
Proof.
  revert headers. induction names as [|m names IH]; intros headers; simpl; [done|].
  rewrite IH, hdr_get_all_remove.
  destruct (decide (m = n)) as [->|Hne].
  - rewrite (bool_decide_true (n ∈ n :: names)) by set_solver. by case_match.
  - assert (bool_decide (n ∈ m :: names) = bool_decide (n ∈ names)) as -> by (apply bool_decide_ext; set_solver).
    done.
Qed.

(** Headers that agree outside the names only the runner sets. *)
Definition agree (h1 h2 : HM) : Prop :=
  forall n, n ∉ RUNNER_HEADERS -> hdr_get_all n h1 = hdr_get_all n h2.

Lemma agree_removed h1 h2 : agree h1 h2 ->
  hdr_equiv (foldl (fun h name => hdr_remove name h) h1 RUNNER_HEADERS)
            (foldl (fun h name => hdr_remove name h) h2 RUNNER_HEADERS).
Proof.
  intros Ha n. rewrite !hdr_remove_all. case_bool_decide; [done|by apply Ha].
Qed.

#[local] Instance host_proper : Proper (hdr_equiv ==> eq) (host (hm := hm)).
Proof. intros a b Hab. unfold host. by rewrite (hdr_get_proper _ _ _ Hab). Qed.

Definition same_headers (a b : option HM) : Prop :=
  match a, b with Some a, Some b => hdr_equiv a b | None, None => True | _, _ => False end.

Lemma runner_headers_same config id h1 h2 peer t :
  agree h1 h2 -> forwarded_by_proxy config h1 peer = forwarded_by_proxy config h2 peer ->
  same_headers (runner_headers config id h1 peer t) (runner_headers config id h2 peer t).
Proof.
  intros Ha Hf. unfold runner_headers. rewrite Hf. pose proof (agree_removed _ _ Ha) as Hr.
  destruct (match f_client _ with Some c => Some c | None => peer_ip peer end) as [c|]; simpl.
  - destruct (hv_from_str _); simpl; [|done]. by rewrite Hr.
  - by rewrite Hr.
Qed.

Lemma name_host_agree req1 req2 :
  rq_uri req1 = rq_uri req2 -> agree (rq_headers req1) (rq_headers req2) ->
  match name_host req1, name_host req2 with
  | Some q1, Some q2 => rq_uri q1 = rq_uri q2 /\ agree (rq_headers q1) (rq_headers q2)
  | None, None => True
  | _, _ => False
  end.
Proof.
  intros Hu Ha. unfold name_host. rewrite Hu. destruct (u_authority (rq_uri req2)) as [a|]; [|done].
  destruct (uri_parse _) as [u|]; simpl; [|done]. split; [done|]. destruct (hv_from_str a); [|done].
  intros n Hn. rewrite !hdr_get_all_insert. case_decide; [done|by apply Ha].
Qed.

Lemma name_host_limit req q : name_host req = Some q -> rq_limit q = rq_limit req.
Proof.
  unfold name_host. destruct (u_authority _); [|by intros [= <-]].
  destruct (uri_parse _); simpl; [|done]. by intros [= <-].
Qed.

Definition same_answer (a b : option (Route * @Request HM)) : Prop :=
  match a, b with
  | Some (r1, q1), Some (r2, q2) =>
    r1 = r2 /\ rq_uri q1 = rq_uri q2 /\ rq_limit q1 = rq_limit q2 /\
    hdr_equiv (rq_headers q1) (rq_headers q2)
  | None, None => True
  | _, _ => False
  end.

Definition trusted config (peer : Peer) : bool :=
  match client_ip_header config with
  | None => false
  | Some _ => match peer with PeerTcp a => allows config (sa_ip a) | PeerUnix => true end
  end.

Lemma forwarded_untrusted config headers peer :
  trusted config peer = false -> forwarded_by_proxy config headers peer = no_forwarded.
Proof.
  unfold trusted, forwarded_by_proxy. destruct (client_ip_header config); [|done].
  by intros ->.
Qed.

Lemma prepare_same config id req1 req2 peer t :
  rq_uri req1 = rq_uri req2 -> rq_limit req1 = rq_limit req2 ->
  agree (rq_headers req1) (rq_headers req2) -> trusted config peer = false ->
  same_answer (prepare config id req1 peer t) (prepare config id req2 peer t).
Proof.
  intros Hu Hl Ha Ht. pose proof (name_host_agree _ _ Hu Ha) as Hna.
  pose proof (name_host_limit req1) as Hl1. pose proof (name_host_limit req2) as Hl2.
  unfold prepare. destruct (name_host req1) as [q1|], (name_host req2) as [q2|]; try done. simpl.
  specialize (Hl1 q1 eq_refl). specialize (Hl2 q2 eq_refl). destruct Hna as [Hu' Ha'].
  pose proof (runner_headers_same config id (rq_headers q1) (rq_headers q2) peer t Ha') as Hs.
  rewrite !forwarded_untrusted in Hs by done. specialize (Hs eq_refl).
  destruct (runner_headers config id (rq_headers q1) peer t) as [h1|],
    (runner_headers config id (rq_headers q2) peer t) as [h2|]; simpl in *; try done.
  rewrite (host_proper _ _ Hs), Hu'. destruct (host h2) as [ho|]; [|simpl; split_and!; congruence].
  destruct (hv_from_str ho) as [v|]; simpl; [|done].
  destruct (scanner_probe _); [simpl; split_and!; try congruence; by rewrite Hs|].
  destruct (str_mem ho (dashboard_hosts config)).
  - destruct (route _ _) as [[w st]|]; [simpl; split_and!; try congruence; by rewrite Hs|].
    destruct (String.eqb _ _); [simpl; split_and!; try congruence; by rewrite Hs|].
    destruct (hv_from_str (api_worker config)); simpl; [|done].
    split_and!; try congruence; [|by rewrite Hs]. destruct (worker_upload _); congruence.
  - destruct (worker_route ho (worker_domains config)) as [[hd nm]|].
    + destruct (hv_from_str nm); simpl; [|done]. split_and!; try congruence. by rewrite Hs.
    + simpl. split_and!; try congruence. by rewrite Hs.
Qed.

(** Names that only [runner_headers] could set, and does not. *)
Definition NEVER_SET : list string :=
  ["x-openworkers-internal"; "x-openworkers-depth"; "forwarded"; "x-forwarded-port"].

Ltac by_names :=
  autorewrite with runner;
  repeat match goal with
  | |- context [decide (?a = ?b)] => destruct (decide (a = b)); try done
  end.

Lemma never_set_inserted n :
  n ∈ NEVER_SET \/ n = "x-request-id" ->
  n ∈ RUNNER_HEADERS /\
  (forall m, m ∈ ["cf-connecting-ip"; "x-forwarded-for"; "x-real-ip"; "x-forwarded-proto"] -> m <> n).
Proof. intros Hn. unfold NEVER_SET, RUNNER_HEADERS in *. split; [|intros m Hm ->]; set_unfold; naive_solver. Qed.

Lemma runner_headers_values config id headers peer t out n :
  runner_headers config id headers peer t = Some out ->
  n ∈ NEVER_SET \/ n = "x-request-id" ->
  hdr_get_all n out = if bool_decide (n = "x-request-id") then [id] else [].
Proof.
  unfold runner_headers. cbv zeta. intros Ho Hn. apply never_set_inserted in Hn as [Hr Hm].
  pose proof (hdr_remove_all RUNNER_HEADERS headers n) as Hrm. rewrite bool_decide_true in Hrm by done.
  revert Ho Hrm. generalize (foldl (fun h name => hdr_remove name h) headers RUNNER_HEADERS).
  intros h0 Ho Hrm.
  destruct (match f_client _ with Some c => Some c | None => peer_ip peer end) as [c|]; simpl in Ho;
    [destruct (hv_from_str _); simpl in Ho; [|done]|]; simplify_eq;
    rewrite !hdr_get_all_insert, Hrm; rewrite ?(decide_False (P := _ = n)) by (apply Hm; set_solver);
    destruct (decide ("x-request-id" = n)) as [<-|]; [by rewrite bool_decide_true|by rewrite bool_decide_false|
      by rewrite bool_decide_true|by rewrite bool_decide_false].
Qed.

Lemma worker_route_header ho domains header name :
  worker_route ho domains = Some (header, name) -> header = "x-worker-id" \/ header = "x-worker-name".
Proof.
  unfold worker_route. destruct (find_map _ domains); simpl; [|done].
  repeat case_match; intros; simplify_eq; auto.
Qed.

Lemma insert_other m v h n :
  n ∈ NEVER_SET \/ n = "x-request-id" ->
  m ∈ ["x-worker-id"; "x-worker-name"; "x-forwarded-host"] ->
  hdr_get_all n (hdr_insert m v h : HM) = hdr_get_all n h.
Proof.
  intros Hn Hm. rewrite hdr_get_all_insert. case_decide; [|done]. subst. set_unfold. naive_solver.
Qed.

Lemma prepare_values config id req peer t r q n :
  prepare config id req peer t = Some (r, q) -> n ∈ NEVER_SET \/ n = "x-request-id" ->
  hdr_get_all n (rq_headers q) = if bool_decide (n = "x-request-id") then [id] else [].
Proof.
  unfold prepare. intros Hp Hn. destruct (name_host req) as [req'|]; simpl in Hp; [|done].
  destruct (runner_headers config id (rq_headers req') peer t) as [h|] eqn:Eh; simpl in Hp; [|done].
  rewrite <- (runner_headers_values _ _ _ _ _ _ _ Eh Hn).
  destruct (host h) as [ho|]; [|by simplify_eq].
  destruct (hv_from_str ho) as [v|]; simpl in Hp; [|done].
  assert (hdr_get_all n (hdr_insert "x-forwarded-host" v h) = hdr_get_all n h) as Hv
    by (apply insert_other; [done|set_solver]).
  destruct (scanner_probe _); [by simplify_eq|].
  destruct (str_mem ho _).
  - destruct (route _ _) as [[w st]|]; [by simplify_eq|].
    destruct (String.eqb _ _); [by simplify_eq|].
    destruct (hv_from_str (api_worker config)); simpl in Hp; [|done]. simplify_eq. simpl.
    rewrite insert_other; [done..|set_solver].
  - destruct (worker_route ho _) as [[hd nm]|] eqn:Ew; [|by simplify_eq].
    destruct (hv_from_str nm); simpl in Hp; [|done]. simplify_eq. simpl.
    rewrite insert_other; [done..|]. apply worker_route_header in Ew as [->| ->]; set_solver.
Qed.

(** C6. A public client cannot speak for the runner. When no proxy is trusted
    to give the client address, two requests that differ only in the headers
    the runner sets are prepared alike: the same route, the same target, the
    same body limit and the same headers. Whoever the peer is, a prepared
    request has the fresh request id and none of the internal route, the call
    depth, Forwarded or X-Forwarded-Port. *)
Theorem prepare_noninterference config id req1 req2 peer t :
  rq_uri req1 = rq_uri req2 -> rq_limit req1 = rq_limit req2 ->
  (forall n, n ∉ RUNNER_HEADERS -> hdr_get_all n (rq_headers req1) = hdr_get_all n (rq_headers req2)) ->
  (trusted config peer = false ->
     same_answer (prepare config id req1 peer t) (prepare config id req2 peer t)) /\
  (forall r q, prepare config id req1 peer t = Some (r, q) ->
     hdr_get_all "x-request-id" (rq_headers q) = [id] /\
     forall n, n ∈ NEVER_SET -> hdr_get_all n (rq_headers q) = []).
Proof.
  intros Hu Hl Ha. split; [by apply prepare_same|]. intros r q Hp. split.
  - by rewrite (prepare_values _ _ _ _ _ _ _ _ Hp) by auto.
  - intros n Hn. rewrite (prepare_values _ _ _ _ _ _ _ _ Hp) by auto.
    rewrite bool_decide_false; [done|]. intros ->. set_solver.
Qed.

(** ** Hosts and routes *)

Lemma host_visible headers ho : host headers = Some ho -> hv_ok ho = true /\ is_empty ho = false.
Proof.
  unfold host, hv_to_str. intros Hh. destruct (hdr_get "host" headers) as [v|]; simpl in Hh; [|done].
  destruct (hv_ok v) eqn:Ev; simpl in Hh; [|done].
  destruct (authority_host v) as [a|] eqn:Ea; simpl in Hh; [|done].
  destruct (is_empty _) eqn:Ee; [done|]. simplify_eq. split; [|done].
  apply all_bytes_lower, all_bytes_trim_end. apply authority_host_part in Ea as (x & y & ->).
  unfold hv_ok in Ev. rewrite !all_bytes_app in Ev. by reflect_bools.
Qed.

Lemma hv_from_str_ok s : hv_ok s = true -> hv_from_str s = Some s.
Proof. unfold hv_from_str. by intros ->. Qed.

(** The worker of a host: under the first of the domains that the host
    ends in after a dot, what precedes is the worker, by id when it is a UUID
    and by name otherwise; a host with no such domain, with nothing before it
    or with a further dot names no worker. *)
Theorem worker_route_spec ho domains header name :
  worker_route ho domains = Some (header, name) <->
  (exists l d r, domains = l ++ d :: r /\ ho = name +:+ "." +:+ d /\
     (forall e, e ∈ l -> forall m, ho <> m +:+ "." +:+ e)) /\
  name <> "" /\ contains_char "." name = false /\
  header = match uuid_parse name with Some _ => "x-worker-id" | None => "x-worker-name" end.
Proof.
  assert (forall d m, (r ← strip_suffix d ho; strip_suffix "." r) = Some m <-> ho = m +:+ "." +:+ d) as Hd.
  { intros d m. split.
    - intros (r & Hr & Hm)%option_Some_bind. apply strip_suffix_Some in Hr, Hm. subst. by rewrite app_assoc_str.
    - intros ->. rewrite <- app_assoc_str, strip_suffix_app. simpl. apply strip_suffix_app. }
  unfold worker_route. split.
  - intros (m & Hm & H)%option_Some_bind. destruct (is_empty m || contains_char "." m)%bool eqn:E; [done|].
    reflect_bools. assert (m = name) as -> by (destruct (uuid_parse m); by simplify_eq).
    split_and!; [| |done|by destruct (uuid_parse name); simplify_eq].
    + apply find_map_first in Hm as (l & d & r & -> & Hd1 & Hl). exists l, d, r. split; [done|].
      split; [by apply Hd|]. intros e He x Hx. apply Hd in Hx.
      rewrite Forall_forall in Hl. by rewrite (Hl e He) in Hx.
    + by intros ->.
  - intros ((l & d & r & -> & Hho & Hl) & Hne & Hdot & ->).
    assert (find_map (fun domain => r ← strip_suffix domain ho; strip_suffix "." r) (l ++ d :: r) = Some name) as ->.
    { apply find_map_first. exists l, d, r. split; [done|]. split; [by apply Hd|].
      apply Forall_forall. intros e He. destruct (r0 ← strip_suffix e ho; strip_suffix "." r0) as [m|] eqn:E; [|done].
      apply Hd in E. by apply Hl in E. }
    simpl. rewrite Hdot. destruct name; [done|]. simpl. by destruct (uuid_parse _).
Qed.

Lemma runner_headers_total config id headers peer t : is_Some (runner_headers config id headers peer t).
Proof.
  unfold runner_headers. cbv zeta. generalize (foldl (fun h name => hdr_remove name h) headers RUNNER_HEADERS).
  intros h. destruct (match f_client _ with Some c => Some c | None => peer_ip peer end) as [c|]; simpl; [|by eexists].
  rewrite hv_from_str_ok by apply hv_ok_visible, ip_to_string_visible. simpl. by eexists.
Qed.

Lemma worker_route_visible ho domains header name :
  hv_ok ho = true -> worker_route ho domains = Some (header, name) -> hv_ok name = true.
Proof.
  unfold worker_route. intros Hv (m & Hm & H)%option_Some_bind. apply find_map_Some in Hm as (d & _ & Hm).
  apply option_Some_bind in Hm as (r & Hr & Hm). apply strip_suffix_Some in Hr, Hm. subst.
  unfold hv_ok in *. rewrite !all_bytes_app in Hv. reflect_bools.
  repeat case_match; by simplify_eq.
Qed.

(** What each route says of a request: [ho] is its host, [path] its path. *)
Definition route_reason config (ho : option string) (path : string) (r : Route) : Prop :=
  match r with
  | RBadHost => ho = None
  | RProbe => is_Some ho /\ scanner_probe path = true
  | RLogs id stream =>
    exists h, ho = Some h /\ h ∈ dashboard_hosts config /\ scanner_probe path = false /\
      route uuid_parse path = Some (id, stream)
  | RLatency =>
    exists h, ho = Some h /\ h ∈ dashboard_hosts config /\ path = "/api/health/latency/proxy"
  | RWorker => is_Some ho /\ scanner_probe path = false
  end.

Lemma str_mem_elem x l : str_mem x l = true <-> x ∈ l.
Proof.
  unfold str_mem. rewrite existsb_exists. split.
  - intros (y & Hy & ->%String.eqb_eq). by apply list_elem_of_In.
  - intros Hx. exists x. split; [by apply list_elem_of_In|apply String.eqb_refl].
Qed.

Lemma name_host_panics req : name_host req = None <->
  is_Some (u_authority (rq_uri req)) /\ uri_parse (default "/" (u_path_and_query (rq_uri req))) = None.
Proof.
  unfold name_host. destruct (u_authority _) as [a|]; [|by split; [|intros [[? ?] _]]].
  destruct (uri_parse _); simpl; [by split; [|intros [_ ?]]|by split; [split; [eexists|]|]].
Qed.

Lemma prepare_named config id req peer t req' :
  hv_ok (api_worker config) = true -> name_host req = Some req' ->
  exists r q h, prepare config id req peer t = Some (r, q) /\
    runner_headers config id (rq_headers req') peer t = Some h /\
    let path := uri_path (rq_uri req') in
    route_reason config (host h) path r /\
    (rq_limit q = rq_limit req \/
     r = RWorker /\ rq_limit q = Some (mkBodyLimit UPLOAD_MAX_BODY_BYTES) /\ worker_upload path = true /\
     exists ho, host h = Some ho /\ ho ∈ dashboard_hosts config) /\
    (forall ho, r = RWorker -> host h = Some ho -> ho ∈ dashboard_hosts config ->
       hdr_get_all "x-worker-name" (rq_headers q) = [api_worker config]).
Proof.
  intros Hapi En. destruct (runner_headers_total config id (rq_headers req') peer t) as [h Eh].
  unfold prepare. rewrite En. simpl. rewrite Eh. simpl. pose proof (name_host_limit _ _ En) as Hl.
  set (path := uri_path (rq_uri req')).
  destruct (host h) as [ho|] eqn:Eho; [|by eexists _, _, h; split_and!; [done..|left; simpl; congruence|]].
  destruct (host_visible h ho Eho) as [Hv _]. rewrite (hv_from_str_ok ho Hv). simpl. fold path.
  destruct (scanner_probe path) eqn:Es.
  { eexists _, _, h. split_and!; [done..|by split|left; simpl; congruence|done]. }
  destruct (str_mem ho (dashboard_hosts config)) eqn:Ed.
  - apply str_mem_elem in Ed. destruct (route uuid_parse path) as [[w st]|] eqn:Er.
    { eexists _, _, h. split_and!; [done..|by exists ho|left; simpl; congruence|done]. }
    destruct (String.eqb_spec path "/api/health/latency/proxy") as [Ep|].
    { eexists _, _, h. split_and!; [done..|by exists ho|left; simpl; congruence|done]. }
    rewrite (hv_from_str_ok _ Hapi). simpl. eexists _, _, h. split_and!; [done..|by split| |].
    + simpl. destruct (worker_upload path); [right; split_and!; try done; by exists ho|left; congruence].
    + intros ho' _ _ _. simpl. rewrite hdr_get_all_insert. by case_decide.
  - assert (ho ∉ dashboard_hosts config) as Hnd by (rewrite <- str_mem_elem; congruence).
    destruct (worker_route ho (worker_domains config)) as [[hd nm]|] eqn:Ew.
    + rewrite (hv_from_str_ok nm) by (eapply worker_route_visible; eauto). simpl.
      eexists _, _, h. split_and!; [done..|by split|left; simpl; congruence|]. intros; by simplify_eq.
    + eexists _, _, h. split_and!; [done..|by split|left; simpl; congruence|]. intros; by simplify_eq.
Qed.

(** C29. Every public request gets a route, when the configured API worker is a
    header value: preparing it panics exactly when its target names an
    authority and the URI library does not take the path and query of the
    target as a target of their own. The log streams, the latency probe and the
    larger upload limit are for dashboard hosts only; a request without a valid
    host or of a scanner runs no worker; a worker request to a dashboard host
    goes to the API worker. *)
Theorem prepare_routes config id req peer t :
  hv_ok (api_worker config) = true ->
  (prepare config id req peer t = None <->
   is_Some (u_authority (rq_uri req)) /\ uri_parse (default "/" (u_path_and_query (rq_uri req))) = None) /\
  forall req', name_host req = Some req' ->
  exists r q h, prepare config id req peer t = Some (r, q) /\
    runner_headers config id (rq_headers req') peer t = Some h /\
    let path := uri_path (rq_uri req') in
    route_reason config (host h) path r /\
    (rq_limit q = rq_limit req \/
     r = RWorker /\ rq_limit q = Some (mkBodyLimit UPLOAD_MAX_BODY_BYTES) /\ worker_upload path = true /\
     exists ho, host h = Some ho /\ ho ∈ dashboard_hosts config) /\
    (forall ho, r = RWorker -> host h = Some ho -> ho ∈ dashboard_hosts config ->
       hdr_get_all "x-worker-name" (rq_headers q) = [api_worker config]).
Proof.
  intros Hapi. assert (Hr := fun q => prepare_named config id req peer t q Hapi). split; [|exact Hr].
  rewrite <- name_host_panics. destruct (name_host req) as [q|] eqn:E; [|unfold prepare; by rewrite E].
  destruct (Hr q eq_refl) as (r & q' & h & Ep & _). by rewrite Ep.
Qed.

(** ** The allowlist and the configuration *)

(** The accept loop serves exactly the connections whose peer, an
    IPv4-mapped address taken as IPv4, is in a network of the allowlist, in
    the order they came; without an allowlist it serves all. *)
Theorem accept_serves_allowed (nets : option (list N)) (events : list (option SocketAddr)) :
  accept nets events = List.filter (fun p => allowed nets (sa_ip p)) (omap id events) /\
  (forall p, p ∈ accept nets events ->
     match nets with
     | None => True
     | Some l => exists n, n ∈ l /\ net_contains n (to_canonical (sa_ip p)) = true
     end).
Proof.
  assert (accept nets events = List.filter (fun p => allowed nets (sa_ip p)) (omap id events)) as Heq.
  { induction events as [|[p|] events IH]; simpl; [done| |done].
    rewrite IH. by destruct (allowed nets (sa_ip p)). }
  split; [done|]. intros p Hp. rewrite Heq in Hp. apply list_elem_of_In, filter_In in Hp as [_ Hp].
  unfold allowed in Hp. destruct nets as [l|]; [|done]. apply existsb_exists in Hp as (n & Hn & Hc).
  exists n. split; [by apply list_elem_of_In|done].
Qed.

Definition config_valid config : Prop :=
  (is_Some (client_ip_header config) -> is_Some (allowlist config)) /\
  (is_Some (client_cert config) -> is_Some (tls config)) /\
  (forall path, https_addr config = HttpsUnix path -> is_Some (tls config)) /\
  0 < listeners config <= U64_MAX /\ 0 < internal_port config <= U16_MAX /\
  Forall (fun d => d <> "") (dashboard_hosts config) /\ Forall (fun d => d <> "") (worker_domains config).

Lemma list_var_nonempty value dflt : Forall (fun d => d <> "") (list_var value dflt).
Proof.
  apply Forall_forall. intros d Hd. unfold list_var in Hd. apply list_elem_of_In, filter_In in Hd as [_ Hd].
  by intros ->.
Qed.

Lemma result_bind_Ok {A B E} (r : result A E) (f : A -> result B E) b :
  result_bind r f = Ok b -> exists a, r = Ok a /\ f a = Ok b.
Proof. destruct r; simpl; [eauto|done]. Qed.

Lemma parse_positive max value n (msg : string) :
  match parse_uint max value with
  | Some count => if 0 <? count then Ok count else Err msg
  | None => Err msg
  end = Ok n -> 0 < n <= max.
Proof.
  destruct (parse_uint max value) as [c|] eqn:E; [|done]. apply parse_uint_bounds in E.
  destruct (Z.ltb_spec 0 c); intros; simplify_eq. lia.
Qed.

(** A configuration that loads is safe to serve with: a client address
    header needs an allowlist, a client certificate check and a Unix socket
    need TLS, the listener count and the internal port are positive and fit
    their types, and no dashboard host or worker domain is empty. *)
Theorem from_vars_valid read_file tls_config parallelism var config :
  (forall n, parallelism = Some n -> 0 < n <= U64_MAX) ->
  from_vars read_file tls_config parallelism var = Ok config -> config_valid config.
Proof.
  intros Hpar H. unfold from_vars in H.
  apply result_bind_Ok in H as (ls & Hls & H). apply result_bind_Ok in H as (al & Hal & H).
  apply result_bind_Ok in H as (ch & Hch & H). apply result_bind_Ok in H as (ha & Hha & H).
  apply result_bind_Ok in H as (cc & Hcc & H). apply result_bind_Ok in H as (tl & Htl & H).
  apply result_bind_Ok in H as ([] & Hun & H). apply result_bind_Ok in H as (ip & Hip & H).
  apply result_bind_Ok in H as (ad & Had & H). simplify_eq.
  assert (0 < ls <= U64_MAX) as Hlp.
  { destruct (var "HTTP_LISTENERS") as [v|]; [by apply (parse_positive U64_MAX) in Hls|].
    destruct parallelism as [n|]; simplify_eq/=; [by apply Hpar|done]. }
  assert (0 < ip <= U16_MAX) as Hpp.
  { destruct (var "INTERNAL_PORT") as [v|]; [by apply (parse_positive U16_MAX) in Hip|by simplify_eq]. }
  unfold config_valid. simpl. split_and!.
  - intros [h ->]. destruct (var "CLIENT_IP_HEADER"); [|done]. destruct al; [by eexists|done].
  - intros [m ->]. destruct (var "HTTPS_CLIENT_CA_FILE") as [ca|]; [|by destruct (var "HTTPS_CLIENT_CERT_MODE")].
    destruct (var "HTTP_TLS_CERTIFICATE"), (var "HTTP_TLS_KEY"); try done.
    apply result_bind_Ok in Htl as (c & _ & ?). simplify_eq. by eexists.
  - intros path ->. destruct tl; [by eexists|done].
  - apply Hlp.
  - apply Hlp.
  - apply Hpp.
  - apply Hpp.
  - apply list_var_nonempty.
  - apply list_var_nonempty.
Qed.
End ingress_props.

(** ** An instance of the libraries, and concrete requests *)

(** An authority without user information, ended by the port. *)
Definition before_port (s : string) : option string :=
  if is_empty s then None else
  match split_once ":" s with Some (h, _) => Some h | None => Some s end.

Lemma before_port_part s h : before_port s = Some h -> exists a b, s = a +:+ h +:+ b.
Proof.
  unfold before_port. destruct (is_empty s); [done|].
  destruct (split_once ":" s) as [[a b]|] eqn:E; intros ?; simplify_eq.
  - apply split_once_Some in E as [-> _]. by exists "", (String ":" b).
  - exists "", "". by rewrite app_empty_r.
Qed.

(** The origin form only. *)
Definition origin_form (s : string) : option Uri :=
  if starts_with "/" s
  then Some (mkUri None (Some s) (match split_once "?" s with Some (p, _) => p | None => s end))
  else None.

#[export, refine] Instance test_libs : IngressLibs := {
  uri_parse := origin_form;
  uuid_parse s := if str_len s =? 36 then Some 1 else None;
  authority_host := before_port;
  header_name s := Some (to_ascii_lowercase s);
  percent_decode := percent_bytes;
  ip_to_string ip := "192.0.2.1";
}.
Proof.
  - apply before_port_part.
  - reflexivity.
Defined.

#[export, refine] Instance test_nets : IpNet IpAddr := {
  net_parse := parse_ip; net_from ip := ip; net_contains n a := bool_decide (n = a) }.
Proof. done. Defined.

Definition test_config : @Config IpAddr unit :=
  mkConfig 8080 (mkSocketAddr (V4 0) 8081) (HttpsTcp (mkSocketAddr (V4 0) 8443)) 4
    ["dash.example"] "openworkers-api" ["workers.rocks"] None None None None.

Definition test_request (authority : string) (path : string) (h : list (string * string)) :
  @Request (gmap string (list string)) :=
  mkRequest (mkUri (Some authority) (Some path) path)
    (foldl (fun m kv => hdr_insert kv.1 kv.2 m) ∅ h) None.

Definition test_peer : Peer := PeerTcp (mkSocketAddr (V4 3221225985) 5555).

Lemma prepare_noninterference_witness :
  same_answer
    (prepare test_config "id" (test_request "hello.workers.rocks" "/" []) test_peer true)
    (prepare test_config "id" (test_request "hello.workers.rocks" "/"
       [("x-worker-name", "other"); ("x-real-ip", "8.8.8.8")]) test_peer true).
Proof.
  refine (proj1 (prepare_noninterference test_config "id" (test_request "hello.workers.rocks" "/" [])
    (test_request "hello.workers.rocks" "/" [("x-worker-name", "other"); ("x-real-ip", "8.8.8.8")])
    test_peer true eq_refl eq_refl _) eq_refl).
  intros n Hn. unfold test_request. cbn [rq_headers foldl fst snd].
  rewrite !hdr_get_all_insert, !decide_False; [reflexivity| |];
    intros <-; apply Hn; unfold RUNNER_HEADERS; set_solver.
Defined.

Example upload_limit :
  option_map (fun a => rq_limit a.2)
    (prepare test_config "id" (test_request "DASH.example:443" "/api/v1/workers/a/upload" []) test_peer true)
  = Some (Some (mkBodyLimit (30 * 1024 * 1024))).
Proof. vm_compute. reflexivity. Qed.

Lemma prepare_routes_witness :
  exists r q, prepare test_config "id" (test_request "DASH.example:443" "/api/v1/workers/a/upload" []) test_peer true
    = Some (r, q) /\ rq_limit q = Some (mkBodyLimit (30 * 1024 * 1024)).
Proof.
  destruct (name_host (test_request "DASH.example:443" "/api/v1/workers/a/upload" [])) as [req'|] eqn:En; [|vm_compute in En; done].
  destruct (proj2 (prepare_routes (hv := ascii_HeaderValue) test_config "id"
    (test_request "DASH.example:443" "/api/v1/workers/a/upload" []) test_peer true eq_refl) req' En)
    as (r & q & h & Hp & _). exists r, q. split; [exact Hp|].
  pose proof upload_limit as Hu. rewrite Hp in Hu. by injection Hu.
Defined.

Lemma from_vars_valid_witness :
  exists c, from_vars (N := IpAddr) (T := unit) (fun _ => Err "none") (fun _ _ _ => Ok tt) (Some 8) (fun _ => None) = Ok c /\
    config_valid c.
Proof.
  eexists. split; [vm_compute; reflexivity|].
  refine (from_vars_valid (N := IpAddr) (T := unit) (fun _ => Err "none") (fun _ _ _ => Ok tt) (Some 8) (fun _ => None) _ _ _).
  - intros n [= <-]. done.
  - vm_compute. reflexivity.
Defined.

Lemma worker_route_spec_witness : worker_route "hello.workers.rocks" ["workers.dev"; "workers.rocks"] = Some ("x-worker-name", "hello").
Proof.
  apply (worker_route_spec "hello.workers.rocks" ["workers.dev"; "workers.rocks"] "x-worker-name" "hello").
  split; [|by split_and!]. exists ["workers.dev"], "workers.rocks", []. split; [done|]. split; [done|].
  intros e He m Hm. assert (e = "workers.dev") as -> by set_solver.
  apply (f_equal (strip_suffix ".workers.dev")) in Hm. vm_compute in Hm.
  change ("." +:+ "workers.dev") with ".workers.dev" in Hm. by rewrite strip_suffix_app in Hm.
Defined.

Example probes :
  map scanner_probe ["/.env"; "/.ENV.local"; "/%2egit/config"; "/id_ed25519.pub"; "//etc//shadow"; "/index.PHP5";
                     "/x.php/extra"; "/cgi/test.phtml"] = replicate 8 true /\
  map scanner_probe ["/"; "/.well-known/acme-challenge/token"; "/.environment"; "/php/info"; "/file.php.txt";
                     "/id_rsa_backup"; "/docs/etc/passwd"; "/x.php55"] = replicate 8 false.
Proof. vm_compute. split; reflexivity. Qed.
