(* ===== verification/WorkerPool.v ===== *)
(** * The worker pool and its slots (src/src/worker_pool.rs)

    The threads a task is sent to, the semaphores that limit the workers, the
    slot a task holds until its script ends, and the drain. Each part is a
    module with the functions of the source and, where threads meet, a step
    relation. *)

From S2P Require Import Prelude RustStr Extern.

(** ** Dispatch *)

Module Pool.
Section pool.
Context {Task : Type}.

Definition parse_env (env : string -> option string) (max : Z) (name : string) (dflt : Z) : Z :=
  match env name with
  | Some s => default dflt (parse_uint max s)
  | None => dflt
  end.

(** Outside of test builds. *)
Definition get_pool_size (env : string -> option string) (parallelism : option Z) : Z :=
  parse_env env U64_MAX "WORKER_POOL_SIZE" (default 1 parallelism).

Definition MAX_QUEUED_WORKERS (env : string -> option string) (parallelism : option Z) : Z :=
  parse_env env U64_MAX "MAX_QUEUED_WORKERS" (get_pool_size env parallelism * 10).

Definition MAX_WS_CONNECTIONS (env : string -> option string) (parallelism : option Z) : Z :=
  parse_env env U64_MAX "MAX_WS_CONNECTIONS" (MAX_QUEUED_WORKERS env parallelism).

Definition MAX_CONCURRENT_PER_WORKER (env : string -> option string) : Z :=
  parse_env env U64_MAX "MAX_CONCURRENT_PER_WORKER" 10.

Definition get_worker_wait_timeout (env : string -> option string) : Z :=
  parse_env env U64_MAX "WORKER_WAIT_TIMEOUT_MS" 10000.

(** The tasks sent to each thread, oldest first, and the round-robin counter. *)
Record SequentialWorkerPool := mkPool { senders : list (list Task); next_thread : Z }.

Definition pool_new (pool_size : nat) : SequentialWorkerPool := mkPool (replicate pool_size []) 0.

(** [None]: the index is out of range and the thread panics. *)
Definition send_to (idx : Z) (task : Task) (p : SequentialWorkerPool) : option SequentialWorkerPool :=
  q ← senders p !! Z.to_nat idx;
  Some (mkPool (<[Z.to_nat idx := q ++ [task]]> (senders p)) (next_thread p)).

Definition pool_len (p : SequentialWorkerPool) : Z := Z.of_nat (length (senders p)).

(** A remainder by 0 panics. *)
Definition spawn (task : Task) (p : SequentialWorkerPool) : option SequentialWorkerPool :=
  if pool_len p =? 0 then None else
  let idx := next_thread p mod pool_len p in
  send_to idx task (mkPool (senders p) (wrap_u64 (next_thread p + 1))).

Definition spawn_on (key : Z) (task : Task) (p : SequentialWorkerPool) : option SequentialWorkerPool :=
  if pool_len p =? 0 then None else send_to (key mod pool_len p) task p.

Fixpoint spawn_all (tasks : list Task) (p : SequentialWorkerPool) : option SequentialWorkerPool :=
  match tasks with
  | [] => Some p
  | t :: tasks => p ← spawn t p; spawn_all tasks p
  end.

(** The tasks of thread [i]. *)
Definition thread (i : nat) (p : SequentialWorkerPool) : list Task := default [] (senders p !! i).
End pool.
Arguments SequentialWorkerPool : clear implicits.

(** How many of the numbers below [m] are [i] modulo [n]. *)
Definition below (n i m : Z) : Z := (m + (n - 1 - i)) / n.

Lemma below_succ n i m : 0 <= i < n -> 0 <= m ->
  below n i (m + 1) = below n i m + (if m mod n =? i then 1 else 0).
Proof.
  intros Hi Hm. unfold below.
  pose proof (Z.div_mod m n ltac:(lia)) as Hdm. pose proof (Z.mod_pos_bound m n ltac:(lia)) as Hb.
  set (q := m / n) in *. set (r := m mod n) in *.
  destruct (Z.eqb_spec r i) as [E|E].
  - replace ((m + (n - 1 - i)) / n) with q by (apply (Z.div_unique_pos _ _ _ (n - 1)); lia).
    symmetry. rewrite Z.add_comm.
    replace ((m + 1 + (n - 1 - i)) / n) with (q + 1) by (apply (Z.div_unique_pos _ _ _ 0); lia). lia.
  - destruct (Z.lt_ge_cases r i) as [Hlt|Hge].
    + replace ((m + (n - 1 - i)) / n) with q by (apply (Z.div_unique_pos _ _ _ (r + n - 1 - i)); lia).
      replace ((m + 1 + (n - 1 - i)) / n) with q by (apply (Z.div_unique_pos _ _ _ (r + n - i)); lia). lia.
    + replace ((m + (n - 1 - i)) / n) with (q + 1) by (apply (Z.div_unique_pos _ _ _ (r - 1 - i)); lia).
      replace ((m + 1 + (n - 1 - i)) / n) with (q + 1) by (apply (Z.div_unique_pos _ _ _ (r - i)); lia). lia.
Qed.

Lemma div_shift a k n : 0 < n -> 0 <= k -> k / n <= (a + k) / n - a / n <= k / n + 1.
Proof.
  intros Hn Hk.
  pose proof (Z.div_mod a n ltac:(lia)). pose proof (Z.mod_pos_bound a n ltac:(lia)).
  pose proof (Z.div_mod k n ltac:(lia)). pose proof (Z.mod_pos_bound k n ltac:(lia)).
  pose proof (Z.div_mod (a + k) n ltac:(lia)). pose proof (Z.mod_pos_bound (a + k) n ltac:(lia)). nia.
Qed.

Section pool_facts.
Context {Task : Type}.
Implicit Type p : SequentialWorkerPool Task.

Lemma send_to_spec idx t p : 0 <= idx < pool_len p ->
  exists p', send_to idx t p = Some p' /\ pool_len p' = pool_len p /\ next_thread p' = next_thread p /\
    forall i, thread i p' = thread i p ++ (if Z.of_nat i =? idx then [t] else []).
Proof.
  intros Hidx. unfold send_to. destruct (lookup_lt_is_Some_2 (senders p) (Z.to_nat idx)) as [q Hq].
  { unfold pool_len in Hidx. lia. }
  rewrite Hq. simpl. eexists. split; [done|]. unfold pool_len. simpl. rewrite length_insert.
  split; [done|]. split; [done|]. intros i. unfold thread. simpl.
  destruct (Z.eqb_spec (Z.of_nat i) idx) as [E|E].
  - replace (Z.to_nat idx) with i in * by lia.
    rewrite list_lookup_insert_eq by (eapply lookup_lt_Some; eauto). by rewrite Hq.
  - rewrite list_lookup_insert_ne by lia. by rewrite app_nil_r.
Qed.

Lemma spawn_all_spec tasks p :
  0 < pool_len p -> 0 <= next_thread p -> next_thread p + Z.of_nat (length tasks) < 2 ^ 64 ->
  exists p', spawn_all tasks p = Some p' /\ pool_len p' = pool_len p /\
    next_thread p' = next_thread p + Z.of_nat (length tasks) /\
    forall i, (Z.of_nat i < pool_len p) ->
      Z.of_nat (length (thread i p')) = Z.of_nat (length (thread i p)) +
        (below (pool_len p) (Z.of_nat i) (next_thread p + Z.of_nat (length tasks)) -
         below (pool_len p) (Z.of_nat i) (next_thread p)).
Proof.
  revert p. induction tasks as [|t tasks IH]; intros p Hn H0 Hw; simpl in Hw.
  - exists p. simpl. split_and!; try done; [lia|]. intros i Hi. rewrite Z.add_0_r. lia.
  - simpl. unfold spawn. destruct (Z.eqb_spec (pool_len p) 0); [lia|].
    set (p1 := mkPool (senders p) (wrap_u64 (next_thread p + 1))).
    destruct (send_to_spec (next_thread p mod pool_len p) t p1) as (p2 & -> & Hl2 & Hn2 & Ht2).
    { apply Z.mod_pos_bound. done. }
    simpl. assert (next_thread p2 = next_thread p + 1) as Hnext.
    { rewrite Hn2. simpl. unfold wrap_u64. apply Z.mod_small. lia. }
    change (pool_len p1) with (pool_len p) in *.
    destruct (IH p2) as (p3 & Hs & Hl3 & Hn3 & Ht3); [lia..|]. rewrite Hl2 in *.
    exists p3. split_and!; [done|lia|lia|]. intros i Hi. rewrite (Ht3 i Hi), Ht2, length_app.
    change (thread i p1) with (thread i p). rewrite Hnext, below_succ by lia.
    replace (next_thread p + 1 + Z.of_nat (length tasks)) with (next_thread p + Z.of_nat (S (length tasks))) by lia.
    rewrite (Z.eqb_sym (Z.of_nat i)). destruct (next_thread p mod pool_len p =? Z.of_nat i); simpl; lia.
Qed.

(** Round robin is even: from a fresh pool of [n] threads, after any
    number of spawns below 2^64, every thread has been sent the tasks' share
    rounded down or up, so no thread is ahead of another by more than one;
    no spawn panics. *)
Theorem round_robin_even (n : nat) (tasks : list Task) :
  (0 < n)%nat -> Z.of_nat (length tasks) < 2 ^ 64 ->
  exists p, spawn_all tasks (pool_new n) = Some p /\
    forall i, (i < n)%nat ->
      Z.of_nat (length tasks) / Z.of_nat n <= Z.of_nat (length (thread i p))
        <= Z.of_nat (length tasks) / Z.of_nat n + 1.
Proof.
  intros Hn Hw. assert (pool_len (pool_new n : SequentialWorkerPool Task) = Z.of_nat n) as Hlen
    by (unfold pool_len; simpl; by rewrite length_replicate).
  destruct (spawn_all_spec tasks (pool_new n)) as (p & Hs & _ & _ & Ht); [lia|simpl; lia..|].
  exists p. split; [done|]. intros i Hi. specialize (Ht i ltac:(rewrite Hlen; lia)). rewrite Hlen in Ht.
  assert (thread i (pool_new n : SequentialWorkerPool Task) = []) as Hi0
    by (unfold thread; simpl; by rewrite lookup_replicate_2).
  rewrite Hi0 in Ht. simpl in Ht. unfold below in Ht. rewrite !Z.add_0_l in Ht.
  rewrite (Z.add_comm (Z.of_nat (length tasks))) in Ht.
  pose proof (div_shift (Z.of_nat n - 1 - Z.of_nat i) (Z.of_nat (length tasks)) (Z.of_nat n)). lia.
Qed.
End pool_facts.

Lemma round_robin_even_witness :
  exists p, spawn_all [10; 11; 12; 13; 14] (pool_new 2) = Some p /\
    forall i, (i < 2)%nat -> 2 <= Z.of_nat (length (thread i p)) <= 3.
Proof. apply (round_robin_even 2 [10; 11; 12; 13; 14]); simpl; lia. Defined.
End Pool.

(** ** One semaphore per worker *)

Module PerWorker.
Section per_worker.
Context {Sem : Type} `{!Semaphore Sem} (max : Z).

Definition MIN_PRUNE_AT : Z := 1024.

(** A semaphore behind an [Arc] is a cell; the map and the tasks hold cells. *)
Record WorkerLimiters := mkLimiters { semaphores : gmap string nat; prune_at : Z }.

Inductive task : Type :=
| TIdle
| TWaits (worker : string) (cell : nat)
| TRuns (worker : string) (cell : nat).

Definition holds (cell : nat) (t : task) : bool :=
  match t with TIdle => false | TWaits _ c | TRuns _ c => (c =? cell)%nat end.
Definition runs (cell : nat) (t : task) : bool :=
  match t with TRuns _ c => (c =? cell)%nat | _ => false end.
Definition runs_worker (w : string) (t : task) : bool :=
  match t with TRuns v _ => String.eqb v w | _ => false end.

Record state := mkState { limiters : WorkerLimiters; cells : list Sem; tasks : list task }.

(** [Arc::strong_count] of a cell in the map: the map itself, and the tasks
    with a clone or a permit. *)
Definition strong_count (ts : list task) (cell : nat) : Z := 1 + countb (holds cell) ts.

Definition prune (ts : list task) (l : WorkerLimiters) : WorkerLimiters :=
  if prune_at l <=? Z.of_nat (size (semaphores l)) then
    let kept := filter (fun kv : string * nat => 1 < strong_count ts kv.2) (semaphores l) in
    mkLimiters kept (Z.max (Z.of_nat (size kept) * 2) MIN_PRUNE_AT)
  else l.

Definition get_worker_semaphore (worker_id : string) (s : state) : nat * state :=
  let l := prune (tasks s) (limiters s) in
  match semaphores l !! worker_id with
  | Some cell => (cell, mkState l (cells s) (tasks s))
  | None =>
    let cell := length (cells s) in
    (cell, mkState (mkLimiters (<[worker_id := cell]> (semaphores l)) (prune_at l))
             (cells s ++ [sem_new max]) (tasks s))
  end.

(** The tasks of all threads: a task gets the semaphore of its worker, waits
    for a permit or gives up, runs with it, and ends. *)
Definition set_task (i : nat) (t : task) (cs : list Sem) (s : state) : state :=
  mkState (limiters s) cs (<[i := t]> (tasks s)).

Inductive step : state -> state -> Prop :=
| s_get s s' i w cell :
    tasks s !! i = Some TIdle -> get_worker_semaphore w s = (cell, s') ->
    step s (set_task i (TWaits w cell) (cells s') s')
| s_acquire s i w cell sem sem' :
    tasks s !! i = Some (TWaits w cell) -> cells s !! cell = Some sem -> try_acquire sem = Some sem' ->
    step s (set_task i (TRuns w cell) (<[cell := sem']> (cells s)) s)
| s_give_up s i w cell :
    tasks s !! i = Some (TWaits w cell) -> step s (set_task i TIdle (cells s) s)
| s_end s i w cell sem :
    tasks s !! i = Some (TRuns w cell) -> cells s !! cell = Some sem ->
    step s (set_task i TIdle (<[cell := release 1 sem]> (cells s)) s).

Definition init (n : nat) : state := mkState (mkLimiters ∅ MIN_PRUNE_AT) [] (replicate n TIdle).

(** A task holds the cell its worker has in the map; each cell is short of
    the permits of the tasks that run with it. *)
Record inv (s : state) : Prop := {
  inv_map : forall i t w cell, tasks s !! i = Some t -> t = TWaits w cell \/ t = TRuns w cell ->
    semaphores (limiters s) !! w = Some cell;
  inv_cells : forall w cell, semaphores (limiters s) !! w = Some cell -> (cell < length (cells s))%nat;
  inv_inj : forall w v cell, semaphores (limiters s) !! w = Some cell ->
    semaphores (limiters s) !! v = Some cell -> w = v;
  inv_permits : forall cell sem, cells s !! cell = Some sem ->
    available_permits sem = max - countb (runs cell) (tasks s);
  inv_size : Z.of_nat (size (semaphores (limiters s))) <= prune_at (limiters s);
  inv_prune : MIN_PRUNE_AT <= prune_at (limiters s) }.

Lemma prune_lookup ts l w cell :
  semaphores (prune ts l) !! w = Some cell -> semaphores l !! w = Some cell.
Proof.
  unfold prune. case_match; [|done]. simpl. intros [? _]%map_lookup_filter_Some. done.
Qed.

Lemma prune_keeps ts l w cell i t :
  semaphores l !! w = Some cell -> ts !! i = Some t -> holds cell t = true ->
  semaphores (prune ts l) !! w = Some cell.
Proof.
  intros Hl Ht Hh. unfold prune. case_match; [|done]. simpl. apply map_lookup_filter_Some. split; [done|].
  simpl. unfold strong_count. pose proof (countb_pos (holds cell) ts t) as Hc.
  specialize (Hc ltac:(by eapply list_elem_of_lookup_2) Hh). lia.
Qed.

Lemma prune_size ts l :
  Z.of_nat (size (semaphores l)) <= prune_at l -> MIN_PRUNE_AT <= prune_at l ->
  Z.of_nat (size (semaphores (prune ts l))) < prune_at (prune ts l) /\
  MIN_PRUNE_AT <= prune_at (prune ts l).
Proof.
  intros H1 H2. unfold prune. destruct (Z.leb_spec (prune_at l) (Z.of_nat (size (semaphores l)))); simpl.
  - unfold MIN_PRUNE_AT in *. lia.
  - lia.
Qed.

Lemma no_runner cell s : inv s -> (length (cells s) <= cell)%nat -> countb (runs cell) (tasks s) = 0.
Proof.
  intros Hi Hc. enough (forall t, t ∈ tasks s -> runs cell t = false) as H.
  { rewrite (countb_ext _ (fun _ => false)) by done. induction (tasks s); [done|]. simpl. set_solver. }
  intros t [i Ht]%list_elem_of_lookup. destruct t as [| |w c]; try done. simpl.
  apply Nat.eqb_neq. intros ->. pose proof (inv_map s Hi i _ w cell Ht ltac:(auto)) as Hm.
  apply (inv_cells s Hi) in Hm. lia.
Qed.

Lemma inv_get w s cell s' :
  inv s -> 0 <= max -> get_worker_semaphore w s = (cell, s') ->
  inv s' /\ tasks s' = tasks s /\ semaphores (limiters s') !! w = Some cell.
Proof.
  intros Hi Hmax Hg. pose proof (prune_size (tasks s) _ (inv_size s Hi) (inv_prune s Hi)) as [Hs Hp].
  assert (forall i t v c, tasks s !! i = Some t -> t = TWaits v c \/ t = TRuns v c ->
    semaphores (prune (tasks s) (limiters s)) !! v = Some c) as Hkeep.
  { intros i t v c Ht Hvc. eapply prune_keeps; [by eapply inv_map|exact Ht|].
    destruct Hvc as [-> | ->]; apply Nat.eqb_refl. }
  unfold get_worker_semaphore in Hg. set (l := prune (tasks s) (limiters s)) in *.
  destruct (semaphores l !! w) as [c|] eqn:E; simplify_eq; (split; [|split; [done|]]); simpl; try done.
  - constructor; simpl; try done; try lia.
    + intros v c Hv. by apply prune_lookup, (inv_cells s Hi) in Hv.
    + intros v u c Hv Hu. apply prune_lookup in Hv, Hu. by eapply (inv_inj s Hi).
    + apply (inv_permits s Hi).
  - constructor; simpl.
    + intros i t v c Ht Hvc. specialize (Hkeep i t v c Ht Hvc). rewrite lookup_insert_ne; [done|]. congruence.
    + intros v c Hv. rewrite length_app. simpl. apply lookup_insert_Some in Hv as [[_ <-]|[_ Hv]]; [lia|].
      apply prune_lookup, (inv_cells s Hi) in Hv. lia.
    + intros v u c Hv Hu. apply lookup_insert_Some in Hv as [[<- <-]|[Hv1 Hv]], Hu as [[<- Hu]|[Hu1 Hu]]; try done.
      * apply prune_lookup, (inv_cells s Hi) in Hu. lia.
      * subst. apply prune_lookup, (inv_cells s Hi) in Hv. lia.
      * apply prune_lookup in Hv, Hu. by eapply (inv_inj s Hi).
    + intros c sem Hc. apply lookup_app_Some in Hc as [Hc|[Hge Hc]]; [by apply (inv_permits s Hi)|].
      apply list_lookup_singleton_Some in Hc as [Hz <-]. rewrite sem_new_available by done.
      rewrite no_runner; [lia|done|lia].
    + rewrite map_size_insert_None by done. lia.
    + done.
  - apply lookup_insert_eq.
Qed.

Lemma inv_set i t t' cs s :
  inv s -> tasks s !! i = Some t -> length cs = length (cells s) ->
  (forall w cell, t' = TWaits w cell \/ t' = TRuns w cell -> semaphores (limiters s) !! w = Some cell) ->
  (forall c sem, cs !! c = Some sem ->
     available_permits sem = max - countb (runs c) (tasks s) + (if runs c t then 1 else 0) - (if runs c t' then 1 else 0)) ->
  inv (set_task i t' cs s).
Proof.
  intros Hi Ht Hl Hm Hc. destruct Hi. constructor; simpl; try done.
  - intros j u w c Hu Hwc. apply list_lookup_insert_Some in Hu as [(-> & <- & _)|[_ Hu]]; eauto.
  - intros w c Hw. rewrite Hl. eauto.
  - intros c sem Hcs. rewrite (countb_insert _ _ _ _ _ Ht), (Hc _ _ Hcs). lia.
Qed.

Lemma pw_inv_step s s' : 0 <= max -> inv s -> step s s' -> inv s'.
Proof.
  intros Hmax Hi Hstep. destruct Hstep as [s s' i w cell Ht Hg|s i w cell sem sem' Ht Hc Ha|s i w cell Ht|s i w cell sem Ht Hc].
  - destruct (inv_get w s cell s' Hi Hmax Hg) as (Hi' & Hts & Hw). rewrite <- Hts in Ht.
    eapply inv_set; [done|exact Ht|done| |].
    + intros v c [[= <- <-]|?]; [done|congruence].
    + intros c sem Hcs. simpl. rewrite (inv_permits s' Hi' _ _ Hcs). lia.
  - unfold try_acquire in Ha. apply try_acquire_many_Some in Ha as [Hge Hav]; [|lia].
    eapply inv_set; [done|exact Ht|apply length_insert| |].
    + intros v c [?|[= <- <-]]; [congruence|]. eapply (inv_map s Hi); eauto.
    + intros c sem0 Hcs. simpl. apply list_lookup_insert_Some in Hcs as [(<- & <- & _)|[Hne Hcs]].
      * rewrite Nat.eqb_refl, Hav, (inv_permits s Hi _ _ Hc). lia.
      * rewrite (inv_permits s Hi _ _ Hcs). rewrite (proj2 (Nat.eqb_neq cell c)) by done. lia.
  - eapply inv_set; [done|exact Ht|done| |].
    + intros v c [?|?]; congruence.
    + intros c sem Hcs. simpl. rewrite (inv_permits s Hi _ _ Hcs). lia.
  - eapply inv_set; [done|exact Ht|apply length_insert| |].
    + intros v c [?|?]; congruence.
    + intros c sem0 Hcs. simpl. apply list_lookup_insert_Some in Hcs as [(<- & <- & _)|[Hne Hcs]].
      * rewrite Nat.eqb_refl, release_available by lia. rewrite (inv_permits s Hi _ _ Hc). lia.
      * rewrite (inv_permits s Hi _ _ Hcs). rewrite (proj2 (Nat.eqb_neq cell c)) by done. lia.
Qed.

Lemma pw_inv_init n : inv (init n).
Proof.
  constructor; simpl; try done.
  - intros i t w c Ht. apply lookup_replicate in Ht as [-> _]. intros [?|?]; done.
Qed.

Lemma pw_inv_reachable n s : 0 <= max -> rtc step (init n) s -> inv s.
Proof. intros Hmax. apply (rtc_invariant step); [by intros; eapply pw_inv_step|apply pw_inv_init]. Qed.
End per_worker.

(** C15. One semaphore per worker at a time, whatever is pruned: in every
    interleaving of tasks that get, wait, run, give up and end, two tasks of
    one worker hold the same semaphore, at most [max] tasks of a worker run at
    once, and the map never holds more than its next prune size. *)
Theorem worker_concurrency_bounded {Sem : Type} `{!Semaphore Sem} (max : Z) (n : nat) (s : state (Sem := Sem)) :
  0 <= max -> rtc (step max) (init n) s ->
  (forall w, countb (runs_worker w) (tasks s) <= max) /\
  (forall i j w c d, tasks s !! i = Some (TRuns w c) \/ tasks s !! i = Some (TWaits w c) ->
     tasks s !! j = Some (TRuns w d) \/ tasks s !! j = Some (TWaits w d) -> c = d) /\
  Z.of_nat (size (semaphores (limiters s))) <= prune_at (limiters s).
Proof.
  intros Hmax Hr. pose proof (pw_inv_reachable max n s Hmax Hr) as Hi.
  assert (forall i w c, tasks s !! i = Some (TRuns w c) \/ tasks s !! i = Some (TWaits w c) ->
    semaphores (limiters s) !! w = Some c) as Hm.
  { intros i w c [Ht|Ht]; eapply (inv_map _ s Hi); eauto. }
  split_and!; [| |apply Hi].
  - intros w. destruct (semaphores (limiters s) !! w) as [c|] eqn:Ew.
    + rewrite (countb_ext _ (runs c)).
      * destruct (lookup_lt_is_Some_2 (cells s) c) as [sem Hsem]; [by eapply (inv_cells _ s Hi)|].
        pose proof (inv_permits _ s Hi _ _ Hsem). pose proof (available_nonneg sem). lia.
      * intros t [i Ht]%list_elem_of_lookup. destruct t as [| |v d]; [done..|]. simpl.
        pose proof (Hm i v d (or_introl Ht)) as Hv.
        destruct (String.eqb_spec v w) as [->|Hne]; symmetry; [apply Nat.eqb_eq; congruence|].
        apply Nat.eqb_neq. intros ->. apply Hne. by eapply (inv_inj _ s Hi).
    + rewrite (countb_ext _ (fun _ => false)).
      * transitivity 0; [|done]. clear. induction (tasks s); simpl; [done|]. lia.
      * intros t [i Ht]%list_elem_of_lookup. destruct t as [| |v d]; [done..|]. simpl.
        pose proof (Hm i v d (or_introl Ht)). apply String.eqb_neq. intros ->. congruence.
  - intros i j w c d Hc Hd. apply Hm in Hc, Hd. congruence.
Qed.

Lemma worker_concurrency_bounded_witness :
  exists s : state (Sem := N), rtc (step 1) (init 2) s /\ countb (runs_worker "a") (tasks s) <= 1.
Proof.
  eexists. assert (rtc (step 1) (init 2)
    (mkState (mkLimiters {["a" := 0%nat]} 1024) [0%N] [TRuns "a" 0; TWaits "a" 0])) as Hr.
  { eapply rtc_l; [eapply (s_get 1 _ _ 0%nat "a"); reflexivity|].
    eapply rtc_l; [eapply (s_get 1 _ _ 1%nat "a"); vm_compute; reflexivity|].
    eapply rtc_l; [eapply (s_acquire 1 _ 0%nat "a" 0%nat); vm_compute; reflexivity|]. apply rtc_refl. }
  split; [exact Hr|]. exact (proj1 (worker_concurrency_bounded 1 2 _ ltac:(lia) Hr) "a").
Defined.
End PerWorker.

(** ** The slots of tasks and sockets *)

Module Slots.
Section slots.
Context {Sem : Type} `{!Semaphore Sem} (max_queued max_ws : Z).

(** A permit of [WORKER_SEMAPHORE] or of [WS_SEMAPHORE]. *)
Inductive permit : Type := PWorker | PSocket.

(** The two semaphores; each [PermitSlot] with what it holds; the socket
    permits held outside of a slot. *)
Record state := mkState {
  worker_sem : Sem; ws_sem : Sem; slots : list (option permit); hand : nat }.

Definition give_back (p : permit) (s : state) : state :=
  match p with
  | PWorker => mkState (release 1 (worker_sem s)) (ws_sem s) (slots s) (hand s)
  | PSocket => mkState (worker_sem s) (release 1 (ws_sem s)) (slots s) (hand s)
  end.

Definition set_slot (i : nat) (o : option permit) (s : state) : state :=
  mkState (worker_sem s) (ws_sem s) (<[i := o]> (slots s)) (hand s).

(** [PermitSlot::new] with a permit of the worker semaphore. *)
Definition slot_new (s : state) : option state :=
  sem ← try_acquire (worker_sem s); Some (mkState sem (ws_sem s) (slots s ++ [Some PWorker]) (hand s)).

Definition take_socket (s : state) : option state :=
  sem ← try_acquire (ws_sem s); Some (mkState (worker_sem s) sem (slots s) (S (hand s))).

(** [trade] of a socket permit in hand; the replaced permit drops. *)
Definition trade (i : nat) (s : state) : option state :=
  match hand s, slots s !! i with
  | S h, Some held =>
    let s := mkState (worker_sem s) (ws_sem s) (slots s) h in
    Some match held with
         | Some old => give_back old (set_slot i (Some PSocket) s)
         | None => give_back PSocket s
         end
  | _, _ => None
  end.

(** The drop of a socket permit that was not traded. *)
Definition drop_socket (s : state) : option state :=
  match hand s with
  | S h => Some (give_back PSocket (mkState (worker_sem s) (ws_sem s) (slots s) h))
  | O => None
  end.

(** [TaskPermit::drop]. *)
Definition drop_task (i : nat) (s : state) : option state :=
  held ← slots s !! i;
  Some match held with Some p => give_back p (set_slot i None s) | None => s end.

(** [None]: the subtraction of [usize] underflows. *)
Definition get_active_tasks (s : state) : option Z :=
  let w := max_queued - available_permits (worker_sem s) in
  let k := max_ws - available_permits (ws_sem s) in
  if (w <? 0) || (k <? 0) then None else Some (w + k).

Inductive step : state -> state -> Prop :=
| s_new s s' : slot_new s = Some s' -> step s s'
| s_take s s' : take_socket s = Some s' -> step s s'
| s_trade s s' i : trade i s = Some s' -> step s s'
| s_drop_socket s s' : drop_socket s = Some s' -> step s s'
| s_drop_task s s' i : drop_task i s = Some s' -> step s s'.

Definition init : state := mkState (sem_new max_queued) (sem_new max_ws) [] 0.

Definition is_worker (o : option permit) : bool := match o with Some PWorker => true | _ => false end.
Definition is_socket (o : option permit) : bool := match o with Some PSocket => true | _ => false end.
Definition taken (o : option permit) : bool := match o with Some _ => true | None => false end.

Definition inv (s : state) : Prop :=
  available_permits (worker_sem s) = max_queued - countb is_worker (slots s) /\
  available_permits (ws_sem s) = max_ws - countb is_socket (slots s) - Z.of_nat (hand s).

Lemma taken_split l : countb taken l = countb is_worker l + countb is_socket l.
Proof. induction l as [|[[]|] l IH]; simpl; lia. Qed.

Lemma inv_give_back_slot i p o s :
  inv s -> slots s !! i = Some (Some p) -> is_worker o = false -> is_socket o = false ->
  inv (give_back p (set_slot i o s)).
Proof.
  intros [Hw Hk] Hi Ho1 Ho2. unfold inv.
  destruct p; simpl; rewrite ?release_available by lia; rewrite !(countb_insert _ _ _ _ _ Hi), Ho1, Ho2; simpl; lia.
Qed.

Lemma slots_inv_step s s' : inv s -> step s s' -> inv s'.
Proof.
  intros [Hw Hk] Hstep. destruct Hstep as [s s' H|s s' H|s s' i H|s s' H|s s' i H].
  - unfold slot_new, try_acquire in H. destruct (try_acquire_many 1 (worker_sem s)) as [sem|] eqn:E; simplify_eq/=.
    apply try_acquire_many_Some in E as [_ E]; [|lia]. unfold inv. simpl. rewrite !countb_app. simpl. lia.
  - unfold take_socket, try_acquire in H. destruct (try_acquire_many 1 (ws_sem s)) as [sem|] eqn:E; simplify_eq/=.
    apply try_acquire_many_Some in E as [_ E]; [|lia]. unfold inv. simpl. lia.
  - unfold trade in H. destruct (hand s) as [|h] eqn:Eh; [done|]. destruct (slots s !! i) as [held|] eqn:Ei; [|done].
    simplify_eq. unfold inv. destruct held as [[]|]; simpl; rewrite ?release_available by lia;
      rewrite ?(countb_insert _ _ _ _ _ Ei); simpl; lia.
  - unfold drop_socket in H. destruct (hand s) as [|h] eqn:Eh; simplify_eq. unfold inv. simpl.
    rewrite release_available by lia. lia.
  - unfold drop_task in H. destruct (slots s !! i) as [[p|]|] eqn:Ei; simplify_eq/=; [|done].
    by apply inv_give_back_slot.
Qed.

Lemma slots_inv_reachable s : 0 <= max_queued -> 0 <= max_ws -> rtc step init s -> inv s.
Proof.
  intros Hq Hw. apply (rtc_invariant step); [by intros; eapply slots_inv_step|].
  split; simpl; rewrite sem_new_available by done; lia.
Qed.

(** The drain monitor counts right: after any sequence of tasks that
    start, trade their slot for a socket, and end, and of sockets that take
    and drop a permit, the count of active tasks does not underflow and is
    the number of slots that hold a permit and of socket permits out of a
    slot; it is 0 exactly when nothing is left. The permits out never exceed
    the two limits. *)
Theorem active_tasks_exact (s : state) :
  0 <= max_queued -> 0 <= max_ws -> rtc step init s ->
  get_active_tasks s = Some (countb taken (slots s) + Z.of_nat (hand s)) /\
  (get_active_tasks s = Some 0 <-> Forall (fun o => o = None) (slots s) /\ hand s = 0%nat) /\
  countb is_worker (slots s) <= max_queued /\ countb is_socket (slots s) + Z.of_nat (hand s) <= max_ws.
Proof.
  intros Hq Hm Hr. destruct (slots_inv_reachable s Hq Hm Hr) as [Hw Hk].
  pose proof (countb_nonneg is_worker (slots s)). pose proof (countb_nonneg is_socket (slots s)).
  pose proof (available_nonneg (worker_sem s)). pose proof (available_nonneg (ws_sem s)).
  assert (get_active_tasks s = Some (countb taken (slots s) + Z.of_nat (hand s))) as Ha.
  { unfold get_active_tasks. rewrite taken_split.
    destruct (Z.ltb_spec (max_queued - available_permits (worker_sem s)) 0); [lia|].
    destruct (Z.ltb_spec (max_ws - available_permits (ws_sem s)) 0); [lia|]. simpl. f_equal. lia. }
  split; [done|]. split; [|lia]. rewrite Ha. pose proof (countb_nonneg taken (slots s)). split.
  - intros [= Hz]. split; [|lia]. eapply Forall_impl; [apply (countb_zero taken); lia|]. by intros [?|].
  - intros [Hf ->]. do 2 f_equal. rewrite Z.add_0_r.
    clear -Hf. induction Hf as [|o l -> _ IH]; simpl; [done|]. lia.
Qed.
End slots.

Lemma active_tasks_exact_witness :
  exists s : state (Sem := N), rtc step (init 2 2) s /\ get_active_tasks 2 2 s = Some 1.
Proof.
  assert (rtc step (init 2 2) (mkState 2%N 1%N [Some PSocket] 0)) as Hr.
  { eapply rtc_l; [apply s_new; vm_compute; reflexivity|]. eapply rtc_l; [apply s_take; vm_compute; reflexivity|].
    eapply rtc_l; [apply (s_trade _ _ 0%nat); vm_compute; reflexivity|]. apply rtc_refl. }
  eexists. split; [exact Hr|]. exact (proj1 (active_tasks_exact 2 2 _ ltac:(lia) ltac:(lia) Hr)).
Defined.
End Slots.

(** ** Draining *)

Module Drain.

(** [draining]: a waiter registers with the notify, then reads the flag, then
    waits unless the flag was set. [set_draining]: the flag, then the
    notification of those registered. *)
Inductive waiter : Type := WStart | WEnabled (woken : bool) | WAwaits (woken : bool) | WReturned.
Inductive setter : Type := SIdle | SStored (draining : bool).

Record state := mkState { is_draining : bool; setters : list setter; waiters : list waiter }.

Definition wake (w : waiter) : waiter :=
  match w with WEnabled _ => WEnabled true | WAwaits _ => WAwaits true | _ => w end.

Definition set_waiter (i : nat) (w : waiter) (s : state) : state :=
  mkState (is_draining s) (setters s) (<[i := w]> (waiters s)).

Inductive step : state -> state -> Prop :=
| s_enable s i : waiters s !! i = Some WStart -> step s (set_waiter i (WEnabled false) s)
| s_read s i woken : waiters s !! i = Some (WEnabled woken) ->
    step s (set_waiter i (if is_draining s then WReturned else WAwaits woken) s)
| s_wake s i : waiters s !! i = Some (WAwaits true) -> step s (set_waiter i WStart s)
| s_store s j d : setters s !! j = Some SIdle ->
    step s (mkState d (<[j := SStored d]> (setters s)) (waiters s))
| s_notify s j d : setters s !! j = Some (SStored d) ->
    step s (mkState (is_draining s) (<[j := SIdle]> (setters s))
              (if d then map wake (waiters s) else waiters s)).

Definition init (n m : nat) : state := mkState false (replicate m SIdle) (replicate n WStart).

(** A waiter that sleeps while the flag is set is about to be notified. *)
Definition inv (s : state) : Prop :=
  is_draining s = true -> forall i, waiters s !! i = Some (WAwaits false) ->
  exists j, setters s !! j = Some (SStored true).

Lemma drain_inv_step s s' : inv s -> step s s' -> inv s'.
Proof.
  intros Hi Hstep Hd i Hw.
  destruct Hstep as [s k Hk|s k woken Hk|s k Hk|s j d Hj|s j d Hj]; simpl in *.
  - apply list_lookup_insert_Some in Hw as [(_ & ? & _)|[_ Hw]]; [done|]. by eapply Hi.
  - rewrite Hd in Hw. apply list_lookup_insert_Some in Hw as [(_ & ? & _)|[_ Hw]]; [done|]. by eapply Hi.
  - apply list_lookup_insert_Some in Hw as [(_ & ? & _)|[_ Hw]]; [done|]. by eapply Hi.
  - subst. exists j. apply list_lookup_insert_eq. by eapply lookup_lt_Some.
  - destruct d.
    + rewrite list_lookup_fmap in Hw. destruct (waiters s !! i) as [[]|]; done.
    + destruct (Hi Hd i Hw) as [k Hk]. exists k. rewrite list_lookup_insert_ne; [done|]. intros <-. congruence.
Qed.

Lemma drain_reachable n m s : rtc step (init n m) s -> inv s.
Proof. apply (rtc_invariant step); [apply drain_inv_step|]. done. Qed.

(** No wake-up is lost: in every interleaving of waiters and setters, once
    the flag is set and no setter is between its store and its notification,
    every waiter has returned or can take its next step, and from the read of
    the flag that step returns. *)
Theorem drain_wakes_all (n m : nat) (s : state) :
  rtc step (init n m) s -> is_draining s = true ->
  (forall j d, setters s !! j = Some d -> d = SIdle) ->
  forall i w, waiters s !! i = Some w ->
    w = WReturned \/
    (exists w', step s (set_waiter i w' s) /\ (forall woken, w = WEnabled woken -> w' = WReturned)).
Proof.
  intros Hr Hd Hs i w Hw. pose proof (drain_reachable n m s Hr Hd i) as Hi.
  destruct w as [|woken|[]|]; [| | | |by left]; right.
  - exists (WEnabled false). split; [by apply s_enable|done].
  - exists WReturned. split; [|done]. pose proof (s_read s i woken Hw) as Hst. by rewrite Hd in Hst.
  - exists WStart. split; [by apply s_wake|done].
  - destruct (Hi Hw) as [j Hj]. by specialize (Hs _ _ Hj).
Qed.

Lemma drain_wakes_all_witness :
  exists w', step (mkState true [SIdle] [WAwaits true]) (set_waiter 0 w' (mkState true [SIdle] [WAwaits true])).
Proof.
  destruct (drain_wakes_all 1 1 (mkState true [SIdle] [WAwaits true])) with (i := 0%nat) (w := WAwaits true)
    as [H|(w' & H & _)]; try done.
  - eapply rtc_l; [by apply (s_enable _ 0%nat)|]. eapply rtc_l; [by apply (s_read _ 0%nat false)|].
    eapply rtc_l; [by apply (s_store _ 0%nat true)|]. eapply rtc_l; [by apply (s_notify _ 0%nat true)|]. apply rtc_refl.
  - intros [|j] d Hj; simpl in Hj; by simplify_eq.
  - by exists w'.
Defined.
End Drain.
