(* ===== verification/DurableRegistry.v ===== *)
(** * The registry of Durable Objects (src/src/durable/mod.rs)

    The tasks that serve objects, one per object, and what the registry keeps
    of them: the mailbox of an object, the counts of tasks per namespace and
    per account, the namespaces that were deleted, and the objects that stop
    for a new deployment. The functions under the lock are definitions; the
    tasks interleave at them in the step relation. *)

From S2P Require Import Prelude RustStr Extern CodeCache Store.

(** ** Call depths *)

(** [CallDepths]: the depths of the events in flight. *)
Definition deepest (depths : list Z) : Z := foldr Z.max 0 depths.

Definition enter (depth : Z) (depths : list Z) : list Z := depths ++ [depth].

(** [position] and [swap_remove]: the last depth takes the place of the
    first equal one. [None]: the guard panics. *)
Fixpoint position (d : Z) (l : list Z) : option nat :=
  match l with
  | [] => None
  | x :: l => if x =? d then Some 0%nat else option_map S (position d l)
  end.

Definition swap_remove (i : nat) (l : list Z) : list Z :=
  match last l with
  | Some x => if (S i =? length l)%nat then removelast l else removelast (<[i := x]> l)
  | None => l
  end.

Definition drop_guard (depth : Z) (depths : list Z) : option (list Z) :=
  i ← position depth depths; Some (swap_remove i depths).

(** ** Versions *)

(** [current]: the current version of each worker of the table. *)
Definition outdated (current : gmap string (option Z)) (running : list (string * Z)) : list (string * Z) :=
  List.filter (fun r => negb (bool_decide (match current !! r.1 with Some v => v | None => None end = Some r.2)))
    running.

(** ** The registry *)

Definition MAX_RESIDENT_PER_ACCOUNT : Z := 100.

(** [ObjectKey]: the namespace and the id. *)
Abbreviation ObjectKey := (string * string)%type.

(** The mailbox of an entry is the one of the task of its generation. *)
Record Entry := mkEntry { e_generation : nat; e_worker_id : string; e_version : option Z }.

Record Registry := mkRegistry {
  objects : gmap ObjectKey Entry;
  running : gmap string Z;
  accounts : gmap string Z;
  stopped : gset string;
  retiring : gmap ObjectKey nat }.

Definition registry_default : Registry := mkRegistry ∅ ∅ ∅ ∅ ∅.

Definition set_objects (o : gmap ObjectKey Entry) (r : Registry) : Registry :=
  mkRegistry o (running r) (accounts r) (stopped r) (retiring r).

(** [None]: the count is missing, or its subtraction underflows, and the task
    panics. *)
Definition release (key : string) (counts : gmap string Z) : option (gmap string Z) :=
  count ← counts !! key;
  if count <=? 0 then None else
  Some (if count - 1 =? 0 then delete key counts else <[key := count - 1]> counts).

Definition count_up (key : string) (counts : gmap string Z) : gmap string Z :=
  <[key := default 0 (counts !! key) + 1]> counts.

(** [Running::drop] *)
Definition drop_running (key : ObjectKey) (generation : nat) (account : string) (r : Registry) :
  option Registry :=
  running' ← release key.1 (running r);
  accounts' ← release account (accounts r);
  Some (mkRegistry (objects r) running' accounts' (stopped r)
          (if bool_decide (retiring r !! key = Some generation) then delete key (retiring r) else retiring r)).

Definition stop_namespace (namespace_id : string) (r : Registry) : bool * Registry :=
  (bool_decide (running r !! namespace_id = None),
   mkRegistry (filter (fun kv : ObjectKey * Entry => kv.1.1 <> namespace_id) (objects r))
     (running r) (accounts r) ({[namespace_id]} ∪ stopped r) (retiring r)).

Definition running_versions (r : Registry) : gset (string * Z) :=
  list_to_set (omap (fun kv : ObjectKey * Entry =>
    v ← e_version kv.2; Some (e_worker_id kv.2, v)) (map_to_list (objects r))).

Definition runs_version (worker_id : string) (version : Z) (e : Entry) : Prop :=
  e_worker_id e = worker_id /\ e_version e = Some version.

#[export] Instance runs_version_dec w v e : Decision (runs_version w v e).
Proof. unfold runs_version. apply _. Defined.

(** [retire]: the entries that run the version move to [retiring]. *)
Definition retire (worker_id : string) (version : Z) (r : Registry) : Registry :=
  let old := filter (fun kv : ObjectKey * Entry => runs_version worker_id version kv.2) (objects r) in
  mkRegistry (filter (fun kv : ObjectKey * Entry => ~ runs_version worker_id version kv.2) (objects r))
    (running r) (accounts r) (stopped r) ((e_generation <$> old) ∪ retiring r).

(** ** Tasks *)

(** A task waits for the task before it, loads its worker, serves, and ends.
    [Ending]: [serve] has returned and the count has not been given back. *)
Inductive phase : Type := Waiting (previous : option nat) | Loading | Serving | Ending | Gone.

Section tasks.
Context {Ev : Type}.

Record Task := mkTask {
  t_key : ObjectKey; t_account : string; t_phase : phase;
  t_mail : list Ev; t_open : bool; t_failed : bool }.

(** A generation is the number of the task. *)
Record state := mkState { reg : Registry; tasks : list Task }.

Definition set_phase (p : phase) (t : Task) : Task :=
  mkTask (t_key t) (t_account t) p (t_mail t) (t_open t) (t_failed t).
Definition set_mail (m : list Ev) (t : Task) : Task :=
  mkTask (t_key t) (t_account t) (t_phase t) m (t_open t) (t_failed t).
(** The receiver of the mailbox is closed or dropped. *)
Definition close (failed : bool) (t : Task) : Task :=
  mkTask (t_key t) (t_account t) Ending (t_mail t) false failed.

Definition new_task (ns : NamespaceConfig) (key : ObjectKey) (previous : option nat) (event : Ev) : Task :=
  mkTask key (ns_user_id ns) (Waiting previous) [event] true false.

(** The start of a task for [key]: the end of [admit]. *)
Definition start (ns : NamespaceConfig) (key : ObjectKey) (event : Ev) (s : state) : state :=
  let r := reg s in
  let generation := length (tasks s) in
  mkState
    (mkRegistry (<[key := mkEntry generation (ns_worker_id ns) None]> (objects r))
       (count_up key.1 (running r)) (count_up (ns_user_id ns) (accounts r)) (stopped r)
       (delete key (retiring r)))
    (tasks s ++ [new_task ns key (retiring r !! key) event]).

(** [admit]: the generation that has the event. *)
Definition admit_event (ns : NamespaceConfig) (id : string) (event : Ev) (s : state) :
  result nat string * state :=
  let key := (ns_id ns, id) in
  let r := reg s in
  if bool_decide (key.1 ∈ stopped r) then (Err "the Durable Object namespace was deleted", s) else
  let sent :=
    e ← objects r !! key;
    t ← tasks s !! e_generation e;
    if t_open t then Some (e_generation e, t) else None in
  match sent with
  | Some (g, t) => (Ok g, mkState r (<[g := set_mail (t_mail t ++ [event]) t]> (tasks s)))
  | None =>
    if MAX_RESIDENT_PER_ACCOUNT <=? default 0 (accounts r !! ns_user_id ns)
    then (Err "too many Durable Objects run for this account", s)
    else (Ok (length (tasks s)), start ns key event s)
  end.

(** [serve] notes the version of its entry. *)
Definition set_version (key : ObjectKey) (generation : nat) (version : Z) (r : Registry) : Registry :=
  match objects r !! key with
  | Some e => if (e_generation e =? generation)%nat
              then set_objects (<[key := mkEntry (e_generation e) (e_worker_id e) (Some version)]> (objects r)) r
              else r
  | None => r
  end.

(** [leave]: [None] when the mailbox is not empty. *)
Definition leave (g : nat) (t : Task) (s : state) : option state :=
  match t_mail t with
  | _ :: _ => None
  | [] =>
    let r := reg s in
    let objects' := match objects r !! t_key t with
                    | Some e => if (e_generation e =? g)%nat then delete (t_key t) (objects r) else objects r
                    | None => objects r
                    end in
    Some (mkState (set_objects objects' r) (<[g := close false t]> (tasks s)))
  end.

Definition gone (ts : list Task) (g : nat) : bool :=
  match ts !! g with Some t => match t_phase t with Gone => true | _ => false end | None => true end.

Definition with_task (g : nat) (t : Task) (s : state) : state := mkState (reg s) (<[g := t]> (tasks s)).

Inductive step : state -> state -> Prop :=
| r_admit s ns id event a s' : admit_event ns id event s = (a, s') -> step s s'
| r_wake s g t prev :
    tasks s !! g = Some t -> t_phase t = Waiting prev ->
    match prev with Some p => gone (tasks s) p = true | None => True end ->
    step s (with_task g (set_phase Loading t) s)
| r_loaded s g t version :
    tasks s !! g = Some t -> t_phase t = Loading ->
    step s (mkState (set_version (t_key t) g version (reg s)) (<[g := set_phase Serving t]> (tasks s)))
| r_take s g t event m :
    tasks s !! g = Some t -> t_phase t = Serving -> t_mail t = event :: m ->
    step s (with_task g (set_mail m t) s)
| r_leave s g t s' :
    tasks s !! g = Some t -> t_phase t = Serving -> leave g t s = Some s' -> step s s'
| r_fail s g t :
    tasks s !! g = Some t -> t_phase t = Loading \/ t_phase t = Serving ->
    step s (with_task g (close true t) s)
| r_end s g t r :
    tasks s !! g = Some t -> t_phase t = Ending ->
    drop_running (t_key t) g (t_account t) (reg s) = Some r ->
    step s (mkState r (<[g := set_phase Gone t]> (tasks s)))
| r_retire s worker version : step s (mkState (retire worker version (reg s)) (tasks s))
| r_stop s namespace : step s (mkState (stop_namespace namespace (reg s)).2 (tasks s)).

Definition init : state := mkState registry_default [].
End tasks.

(** ** What an object is built from *)

(** [load_worker] up to the script. [db_pool]: the pool, if there is one, and
    whether it gives a connection. *)
Definition load_worker {C} `{!Lru (string * Z) string C} (db : Db) (db_pool : option (result unit string))
  (ns : NamespaceConfig) (cache : CodeCache C) : result WorkerWithBindings string * CodeCache C :=
  match db_pool with
  | None => (Err "Durable Objects need the database", cache)
  | Some (Err e) => (Err e, cache)
  | Some (Ok _) =>
    match get_worker_with_bindings db (Id (ns_worker_id ns)) cache with
    | (None, cache) => (Err "the worker of the Durable Object class is gone", cache)
    | (Some data, cache) =>
      if negb (String.eqb (wb_user_id data) (ns_user_id ns))
      then (Err "the worker of the Durable Object class is gone", cache)
      else match wb_code_type data with
           | Wasm => (Err "a WebAssembly worker cannot export a Durable Object class", cache)
           | _ => (Ok data, cache)
           end
    end
  end.

(** ** Counts *)

Definition alive (p : phase) : bool :=
  match p with Waiting _ | Loading | Serving => true | Ending | Gone => false end.
Definition counted (p : phase) : bool := match p with Gone => false | _ => true end.

Section counts.
Context {Ev : Type}.
Implicit Types (ts : list (@Task Ev)) (t : @Task Ev).

Definition counts_of (name : @Task Ev -> string) (n : string) (t : @Task Ev) : bool :=
  String.eqb (name t) n && counted (t_phase t).

(** The map holds, for each name, the number of its tasks that are not gone. *)
Definition count_ok (name : @Task Ev -> string) (m : gmap string Z) (ts : list Task) : Prop :=
  (forall n, default 0 (m !! n) = countb (counts_of name n) ts) /\
  (forall n c, m !! n = Some c -> 0 < c).

Lemma count_ok_start name m ts t :
  counted (t_phase t) = true -> count_ok name m ts -> count_ok name (count_up (name t) m) (ts ++ [t]).
Proof.
  intros Hc [Hm Hp]. unfold count_up. split.
  - intros n. rewrite countb_app. simpl. unfold counts_of at 2. rewrite Hc, andb_true_r.
    destruct (String.eqb_spec (name t) n) as [<-|Hne].
    + rewrite lookup_insert_eq. simpl. rewrite Hm. lia.
    + rewrite lookup_insert_ne by done. rewrite Hm. lia.
  - intros n c Hn. apply lookup_insert_Some in Hn as [[<- <-]|[_ Hn]]; [|by eapply Hp].
    rewrite Hm. pose proof (countb_nonneg (counts_of name (name t)) ts). lia.
Qed.

Lemma count_ok_move name m ts g t t' :
  ts !! g = Some t -> name t' = name t -> counted (t_phase t') = counted (t_phase t) ->
  count_ok name m ts -> count_ok name m (<[g := t']> ts).
Proof.
  intros Hg Hn Hc [Hm Hp]. split; [|done]. intros n.
  rewrite (countb_insert _ _ _ _ _ Hg). unfold counts_of. rewrite Hn, Hc, Hm. unfold counts_of. lia.
Qed.

(** The release of a task that is counted does not panic. *)
Lemma count_ok_release name m ts g t t' :
  ts !! g = Some t -> counted (t_phase t) = true -> counted (t_phase t') = false ->
  count_ok name m ts ->
  exists m', release (name t) m = Some m' /\ count_ok name m' (<[g := t']> ts).
Proof.
  intros Hg Hc Hc' [Hm Hp]. pose proof (Hm (name t)) as Hk.
  assert (1 <= countb (counts_of name (name t)) ts) as H1.
  { eapply countb_pos; [by eapply list_elem_of_lookup_2|]. unfold counts_of. by rewrite String.eqb_refl, Hc. }
  unfold release. destruct (m !! name t) as [c|] eqn:E; simpl in *; [|lia].
  destruct (Z.leb_spec c 0); [lia|]. eexists. split; [done|].
  assert (forall n, countb (counts_of name n) (<[g:=t']> ts) =
    countb (counts_of name n) ts - (if String.eqb (name t) n then 1 else 0)) as Hcount.
  { intros n. rewrite (countb_insert _ _ _ _ _ Hg). unfold counts_of at 2 3.
    rewrite Hc, Hc', andb_true_r, andb_false_r. lia. }
  destruct (Z.eqb_spec (c - 1) 0) as [Hz|Hz]; split.
  - intros n. rewrite Hcount. destruct (String.eqb_spec (name t) n) as [<-|Hne].
    + rewrite lookup_delete_eq. simpl. lia.
    + rewrite lookup_delete_ne by done. rewrite Hm. lia.
  - intros n d Hn. apply lookup_delete_Some in Hn as [_ Hn]. by eapply Hp.
  - intros n. rewrite Hcount. destruct (String.eqb_spec (name t) n) as [<-|Hne].
    + rewrite lookup_insert_eq. simpl. lia.
    + rewrite lookup_insert_ne by done. rewrite Hm. lia.
  - intros n d Hn. apply lookup_insert_Some in Hn as [[<- <-]|[_ Hn]]; [lia|by eapply Hp].
Qed.
End counts.

(** ** Structure *)

Section structure.
Context {Ev : Type}.
Implicit Types (s : @state Ev) (t : @Task Ev) (r : Registry).

Definition started (p : phase) : bool :=
  match p with Serving | Ending | Gone => true | _ => false end.

Record shape r (ts : list (@Task Ev)) : Prop := mkShape {
  sh_open : forall g t, ts !! g = Some t -> t_open t = alive (t_phase t);
  sh_entry : forall k e, objects r !! k = Some e ->
    exists t, ts !! e_generation e = Some t /\ t_key t = k /\
      (is_Some (e_version e) -> started (t_phase t) = true);
  sh_retiring : forall k g, retiring r !! k = Some g ->
    exists t, ts !! g = Some t /\ t_key t = k /\ started (t_phase t) = true;
  sh_apart : forall k, is_Some (objects r !! k) -> retiring r !! k = None;
  sh_wait : forall g t p, ts !! g = Some t -> t_phase t = Waiting (Some p) ->
    (p < g)%nat /\ exists t', ts !! p = Some t' /\ t_key t' = t_key t;
  (** Of two tasks of an object that have not ended, the later waits for the
      earlier. *)
  sh_pair : forall g h t t', (g < h)%nat -> ts !! g = Some t -> ts !! h = Some t' ->
    t_key t = t_key t' -> alive (t_phase t) = true -> alive (t_phase t') = true ->
    t_phase t' = Waiting (Some g);
  (** The registry knows every task that has not ended, unless its namespace
      was deleted: by its entry, by the entry of the task that waits for it,
      or as retiring. *)
  sh_known : forall g t, ts !! g = Some t -> alive (t_phase t) = true ->
    (t_key t).1 ∉ stopped r ->
    (exists e, objects r !! t_key t = Some e /\
       (e_generation e = g \/ exists t', ts !! e_generation e = Some t' /\ t_phase t' = Waiting (Some g))) \/
    retiring r !! t_key t = Some g }.

(** The moves of a task. *)
Definition moves (p q : phase) : Prop :=
  p = q \/ (exists prev, p = Waiting prev) /\ q = Loading \/ p = Loading /\ q = Serving \/
  (p = Loading \/ p = Serving) /\ q = Ending \/ p = Ending /\ q = Gone.

Lemma moves_started p q : moves p q -> started p = true -> started q = true.
Proof. intros [->|[[[? ->] ->]|[[-> ->]|[[[->| ->] ->]|[-> ->]]]]]; done. Qed.

Lemma moves_alive p q : moves p q -> alive q = true -> alive p = true.
Proof. intros [->|[[[? ->] ->]|[[-> ->]|[[[->| ->] ->]|[-> ->]]]]]; done. Qed.

Lemma moves_waiting p prev : moves p (Waiting prev) -> p = Waiting prev.
Proof. intros [->|[[_ ?]|[[_ ?]|[[_ ?]|[_ ?]]]]]; done. Qed.

(** A lookup in the tasks after one of them moved. *)
Lemma moved_lookup (ts : list (@Task Ev)) g t t' j u :
  ts !! g = Some t -> t_key t' = t_key t -> moves (t_phase t) (t_phase t') ->
  <[g := t']> ts !! j = Some u ->
  exists u0, ts !! j = Some u0 /\ t_key u = t_key u0 /\ moves (t_phase u0) (t_phase u).
Proof.
  intros Hg Hk Hm Hj. apply list_lookup_insert_Some in Hj as [(<- & <- & _)|[_ Hj]].
  - by exists t.
  - exists u. split_and!; [done..|by left].
Qed.

Lemma moved_lookup_fwd (ts : list (@Task Ev)) g t t' j u0 :
  ts !! g = Some t -> t_key t' = t_key t -> moves (t_phase t) (t_phase t') ->
  ts !! j = Some u0 ->
  exists u, <[g := t']> ts !! j = Some u /\ t_key u = t_key u0 /\ moves (t_phase u0) (t_phase u) /\
    (j <> g -> u = u0) /\ (j = g -> u = t').
Proof.
  intros Hg Hk Hm Hj. destruct (decide (j = g)) as [->|Hne].
  - simplify_eq. exists t'. rewrite list_lookup_insert_eq by (by eapply lookup_lt_Some). done.
  - exists u0. rewrite list_lookup_insert_ne by done. split_and!; try done. by left.
Qed.

(** A task that stops waiting does so after the task before it is gone. *)
Definition may_move (ts : list (@Task Ev)) (t t' : @Task Ev) : Prop :=
  t_key t' = t_key t /\ t_open t' = alive (t_phase t') /\ moves (t_phase t) (t_phase t') /\
  (forall p, t_phase t = Waiting (Some p) -> t_phase t' = Loading ->
     exists u, ts !! p = Some u /\ alive (t_phase u) = false).

Lemma shape_move r ts g t t' :
  shape r ts -> ts !! g = Some t -> may_move ts t t' -> shape r (<[g := t']> ts).
Proof.
  intros [So Se Sr Sa Sw Sp Sk] Hg (Hk & Ho & Hm & Hw).
  pose proof (fun j u => moved_lookup ts g t t' j u Hg Hk Hm) as Hback.
  pose proof (fun j u0 => moved_lookup_fwd ts g t t' j u0 Hg Hk Hm) as Hfwd.
  constructor; [| | |done| | |].
  - intros j u Hj. apply list_lookup_insert_Some in Hj as [(_ & <- & _)|[_ Hj]]; [done|by eapply So].
  - intros k e He. destruct (Se k e He) as (u0 & Hu0 & Hk0 & Hv). destruct (Hfwd _ _ Hu0) as (u & Hu & Hku & Hmu & _).
    exists u. split; [done|]. split; [congruence|]. intros H. eapply moves_started; [done|by apply Hv].
  - intros k h Hh. destruct (Sr k h Hh) as (u0 & Hu0 & Hk0 & Hv). destruct (Hfwd _ _ Hu0) as (u & Hu & Hku & Hmu & _).
    exists u. split; [done|]. split; [congruence|]. by eapply moves_started.
  - intros j u p Hj Hp. destruct (Hback _ _ Hj) as (u0 & Hu0 & Hku & Hmu). rewrite Hp in Hmu.
    apply moves_waiting in Hmu. destruct (Sw _ _ _ Hu0 Hmu) as [Hlt (v0 & Hv0 & Hkv)]. split; [done|].
    destruct (Hfwd _ _ Hv0) as (v & Hv & Hkv' & _). exists v. split; [done|]. congruence.
  - intros j h u u' Hlt Hj Hh Hkk Ha Ha'. destruct (Hback _ _ Hj) as (u0 & Hu0 & Hku & Hmu).
    destruct (Hback _ _ Hh) as (v0 & Hv0 & Hkv & Hmv).
    assert (t_phase v0 = Waiting (Some j)) as Hwj.
    { eapply (Sp j h u0 v0); eauto using moves_alive. congruence. }
    rewrite Hwj in Hmv. destruct Hmv as [<-|[[_ Hl]|[[? _]|[[[?|?] _]|[? _]]]]]; try done.
    assert (h = g) as ->.
    { destruct (decide (h = g)) as [->|Hne]; [done|]. rewrite list_lookup_insert_ne in Hh by done. congruence. }
    rewrite list_lookup_insert_eq in Hh by (by eapply lookup_lt_Some). simplify_eq.
    destruct (Hw j Hwj Hl) as (w & Hw0 & Hd). assert (w = u0) as -> by congruence.
    rewrite (moves_alive _ _ Hmu Ha) in Hd. done.
  - intros j u Hj Ha Hs. destruct (Hback _ _ Hj) as (u0 & Hu0 & Hku & Hmu).
    rewrite Hku in *. destruct (Sk j u0 Hu0 (moves_alive _ _ Hmu Ha) Hs) as [(e & He & Hor)|?]; [left|by right].
    exists e. split; [done|]. destruct Hor as [?|(w & Hw0 & Hwp)]; [by left|right].
    destruct (Hfwd _ _ Hw0) as (w' & Hw' & _ & Hmw & Hne & Heq). exists w'. split; [done|].
    rewrite Hwp in Hmw. destruct Hmw as [<-|[[_ Hl]|[[? _]|[[[?|?] _]|[? _]]]]]; try done.
    destruct (decide (e_generation e = g)) as [Heg|Hng]; [|rewrite (Hne Hng) in Hl; congruence].
    assert (w = t) as -> by congruence. rewrite (Heq Heg) in Hl.
    destruct (Hw j Hwp Hl) as (x & Hx & Hd). assert (x = u0) as -> by congruence.
    rewrite (moves_alive _ _ Hmu Ha) in Hd. done.
Qed.

Lemma shape_set_version r ts k g t v :
  shape r ts -> ts !! g = Some t -> started (t_phase t) = true -> shape (set_version k g v r) ts.
Proof.
  intros Hs Hg Hst. unfold set_version. destruct (objects r !! k) as [e|] eqn:Ee; [|done].
  destruct (Nat.eqb_spec (e_generation e) g) as [Heg|]; [|done].
  destruct Hs as [So Se Sr Sa Sw Sp Sk]. constructor; simpl; try done.
  - intros k' e' He. apply lookup_insert_Some in He as [[<- <-]|[_ He]]; [|by apply Se].
    destruct (Se k e Ee) as (u & Hu & Hku & _). exists u. split; [done|]. split; [done|]. intros _. simpl. congruence.
  - intros k' Hk. apply Sa. destruct (decide (k = k')) as [<-|]; [by eexists|]. by rewrite lookup_insert_ne in Hk.
  - intros h u Hu Ha Hns. destruct (Sk h u Hu Ha Hns) as [(e' & He & Hor)|?]; [left|by right].
    destruct (decide (k = t_key u)) as [->|Hne].
    + rewrite Ee in He. simplify_eq. eexists. rewrite lookup_insert_eq. by split.
    + exists e'. by rewrite lookup_insert_ne.
Qed.

(** The entry of a task that has ended can go. *)
Lemma shape_delete_entry r ts k e t :
  shape r ts -> objects r !! k = Some e -> ts !! e_generation e = Some t -> alive (t_phase t) = false ->
  shape (set_objects (delete k (objects r)) r) ts.
Proof.
  intros [So Se Sr Sa Sw Sp Sk] He Ht Hd. constructor; simpl; try done.
  - intros k' e' He'. apply lookup_delete_Some in He' as [_ He']. by apply Se.
  - intros k' [e' He']. apply lookup_delete_Some in He' as [_ He']. apply Sa. by eexists.
  - intros h u Hu Ha Hns. destruct (Sk h u Hu Ha Hns) as [(e' & He' & Hor)|?]; [|by right].
    destruct (decide (k = t_key u)) as [->|Hne].
    + exfalso. assert (e' = e) as -> by congruence.
      destruct Hor as [<-|(w & Hw & Hp)]; simplify_eq; [congruence|by rewrite Hp in Hd].
    + left. exists e'. by rewrite lookup_delete_ne.
Qed.

Definition with_retiring (m : gmap ObjectKey nat) r : Registry :=
  mkRegistry (objects r) (running r) (accounts r) (stopped r) m.

Lemma shape_delete_retiring r ts k g t :
  shape r ts -> retiring r !! k = Some g -> ts !! g = Some t -> alive (t_phase t) = false ->
  shape (with_retiring (delete k (retiring r)) r) ts.
Proof.
  intros [So Se Sr Sa Sw Sp Sk] He Ht Hd. constructor; simpl; try done.
  - intros k' g' Hr. apply lookup_delete_Some in Hr as [_ Hr]. by apply Sr.
  - intros k' Hk. rewrite lookup_delete. case_decide; [done|by apply Sa].
  - intros h u Hu Ha Hns. destruct (Sk h u Hu Ha Hns) as [?|Hr]; [by left|right].
    rewrite lookup_delete_ne; [done|]. intros ->. simplify_eq. congruence.
Qed.

(** The counts do not matter for the shape. *)
Lemma shape_counts r ts n a : shape r ts ->
  shape (mkRegistry (objects r) n a (stopped r) (retiring r)) ts.
Proof. intros [So Se Sr Sa Sw Sp Sk]. by constructor. Qed.

Lemma shape_stop r ts ns : shape r ts -> shape (stop_namespace ns r).2 ts.
Proof.
  intros [So Se Sr Sa Sw Sp Sk]. constructor; simpl; try done.
  - intros k e He. apply map_lookup_filter_Some in He as [He _]. by apply Se.
  - intros k [e He]. apply map_lookup_filter_Some in He as [He _]. apply Sa. by eexists.
  - intros h u Hu Ha Hns. destruct (Sk h u Hu Ha ltac:(set_solver)) as [(e & He & Hor)|?]; [left|by right].
    exists e. split; [|done]. apply map_lookup_filter_Some. split; [done|]. simpl. set_solver.
Qed.

Lemma shape_retire r ts w v : shape r ts -> shape (retire w v r) ts.
Proof.
  intros [So Se Sr Sa Sw Sp Sk].
  assert (forall k e, objects r !! k = Some e -> runs_version w v e ->
    ((e_generation <$> filter (fun kv : ObjectKey * Entry => runs_version w v kv.2) (objects r)) ∪ retiring r) !! k
      = Some (e_generation e)) as Hold.
  { intros k e He Hv. apply lookup_union_Some_l. rewrite lookup_fmap.
    erewrite map_lookup_filter_Some_2; [done|exact He|done]. }
  assert (forall k, (forall e, objects r !! k = Some e -> ~ runs_version w v e) ->
    ((e_generation <$> filter (fun kv : ObjectKey * Entry => runs_version w v kv.2) (objects r)) ∪ retiring r) !! k
      = retiring r !! k) as Hnew.
  { intros k Hk. apply lookup_union_r. rewrite lookup_fmap.
    rewrite map_lookup_filter_None_2; [done|]. right. intros e He. by apply Hk. }
  constructor; simpl; try done.
  - intros k e He. apply map_lookup_filter_Some in He as [He _]. by apply Se.
  - intros k g Hg. destruct (objects r !! k) as [e|] eqn:Ee.
    + destruct (decide (runs_version w v e)) as [Hv|Hv].
      * rewrite (Hold _ _ Ee Hv) in Hg. simplify_eq. destruct (Se k e Ee) as (t & Ht & Hk & Hst).
        exists t. split_and!; try done. apply Hst. destruct Hv as [_ ->]. by eexists.
      * rewrite Hnew in Hg by (intros e' He'; by simplify_eq). by apply Sr.
    + rewrite Hnew in Hg by (intros e' He'; by simplify_eq). by apply Sr.
  - intros k [e He]. apply map_lookup_filter_Some in He as [He Hv]. simpl in Hv.
    rewrite Hnew by (intros e' He'; by simplify_eq). apply Sa. by eexists.
  - intros h u Hu Ha Hns. destruct (Sk h u Hu Ha Hns) as [(e & He & Hor)|Hr].
    + destruct (decide (runs_version w v e)) as [Hv|Hv].
      * destruct Hor as [<-|(x & Hx & Hp)]; [right; by apply Hold|].
        destruct (Se _ _ He) as (y & Hy & _ & Hst). simplify_eq. rewrite Hp in Hst.
        destruct Hv as [_ Hv]. rewrite Hv in Hst. by specialize (Hst ltac:(by eexists)).
      * left. exists e. split; [|done]. by apply map_lookup_filter_Some.
    + right. rewrite Hnew; [done|]. intros e He. rewrite Sa in Hr by (by eexists). done.
Qed.

(** A new task, when the entry of its object is missing or closed. *)
Lemma shape_start s ns k event :
  shape (reg s) (tasks s) -> k.1 ∉ stopped (reg s) ->
  (forall e t, objects (reg s) !! k = Some e -> tasks s !! e_generation e = Some t -> t_open t = false) ->
  shape (reg (start ns k event s)) (tasks (start ns k event s)).
Proof.
  intros [So Se Sr Sa Sw Sp Sk] Hns Hcl. set (n := length (tasks s)). set (new := new_task ns k (retiring (reg s) !! k) event).
  assert (forall g t, tasks s !! g = Some t -> (tasks s ++ [new]) !! g = Some t) as Hfwd
    by (intros g t Hg; by apply lookup_app_l_Some).
  assert ((tasks s ++ [new]) !! n = Some new) as Hnew by (by apply list_lookup_middle).
  assert (forall g t, (tasks s ++ [new]) !! g = Some t -> tasks s !! g = Some t \/ g = n /\ t = new) as Hback.
  { intros g t Hg. apply lookup_app_Some in Hg as [?|[? Hg]]; [by left|right].
    apply list_lookup_singleton_Some in Hg as [? <-]. split; [unfold n; lia|done]. }
  assert (forall g t, tasks s !! g = Some t -> t_key t = k -> alive (t_phase t) = true ->
    retiring (reg s) !! k = Some g) as Hret.
  { intros g t Hg Hk Ha. destruct (Sk g t Hg Ha ltac:(by rewrite Hk)) as [(e & He & Hor)|?]; [|by rewrite <- Hk].
    rewrite Hk in He. destruct Hor as [<-|(u & Hu & Hp)].
    - specialize (Hcl _ _ He Hg). rewrite (So _ _ Hg), Ha in Hcl. done.
    - specialize (Hcl _ _ He Hu). rewrite (So _ _ Hu), Hp in Hcl. done. }
  constructor; simpl; fold n; fold new.
  - intros g t [Hg|[-> ->]]%Hback; [by eapply So|done].
  - intros k' e He. apply lookup_insert_Some in He as [[<- <-]|[_ He]].
    + exists new. split_and!; try done. by intros [? ?].
    + destruct (Se _ _ He) as (t & Ht & ? & ?). exists t. eauto.
  - intros k' g Hg. apply lookup_delete_Some in Hg as [_ Hg]. destruct (Sr _ _ Hg) as (t & Ht & ? & ?). exists t. eauto.
  - intros k' Hk'. rewrite lookup_delete. case_decide; [done|]. apply Sa. by rewrite lookup_insert_ne in Hk'.
  - intros g t p [Hg|[-> ->]]%Hback Hp.
    + destruct (Sw _ _ _ Hg Hp) as [? (t' & Ht' & ?)]. split; [done|]. exists t'. eauto.
    + simpl in Hp. simplify_eq. destruct (Sr k p ltac:(done)) as (t & Ht & Hk & _).
      split; [by eapply lookup_lt_Some|]. exists t. eauto.
  - intros g h t t' Hlt [Hg|[-> ->]]%Hback [Hh|[-> ->]]%Hback Hkk Ha Ha'.
    + by eapply Sp.
    + simpl. f_equal. by eapply Hret.
    + apply lookup_lt_Some in Hh. unfold n in Hlt. lia.
    + lia.
  - intros g t [Hg|[-> ->]]%Hback Ha Hs.
    + destruct (decide (k = t_key t)) as [Hk|Hne].
      * left. exists (mkEntry n (ns_worker_id ns) None). rewrite <- Hk, lookup_insert_eq. split; [done|]. right.
        exists new. split; [done|]. simpl. f_equal. by eapply Hret.
      * destruct (Sk g t Hg Ha Hs) as [(e & He & Hor)|Hr].
        -- left. exists e. rewrite lookup_insert_ne by done. split; [done|].
           destruct Hor as [?|(u & Hu & ?)]; [by left|right]. exists u. eauto.
        -- right. by rewrite lookup_delete_ne.
    + left. eexists. simpl. rewrite lookup_insert_eq. split; [done|by left].
Qed.
End structure.

(** ** The invariant of the registry *)

Section invariant.
Context {Ev : Type}.
Implicit Types (s : @state Ev) (t : @Task Ev).

Definition namespace_of (t : @Task Ev) : string := (t_key t).1.

Record inv s : Prop := mkInv {
  i_shape : shape (reg s) (tasks s);
  i_running : count_ok namespace_of (running (reg s)) (tasks s);
  i_accounts : count_ok t_account (accounts (reg s)) (tasks s);
  i_bound : forall a c, accounts (reg s) !! a = Some c -> c <= MAX_RESIDENT_PER_ACCOUNT;
  i_mail : forall g t, tasks s !! g = Some t -> t_open t = false -> t_failed t = false -> t_mail t = [] }.

(** A task moves and the counts stay. *)
Lemma inv_move s g t t' :
  inv s -> tasks s !! g = Some t -> may_move (tasks s) t t' -> t_account t' = t_account t ->
  counted (t_phase t') = counted (t_phase t) ->
  (t_open t' = false -> t_failed t' = false -> t_mail t' = []) ->
  inv (with_task g t' s).
Proof.
  intros [Is Ir Ia Ib Im] Hg Hm Hac Hc Hmail. constructor; simpl; try done.
  - by eapply shape_move.
  - eapply count_ok_move; eauto. unfold namespace_of. by destruct Hm as [-> _].
  - by eapply count_ok_move.
  - intros h u Hh. apply list_lookup_insert_Some in Hh as [(_ & <- & _)|[_ Hh]]; [done|by eapply Im].
Qed.

Lemma inv_registry s r :
  inv s -> shape r (tasks s) -> running r = running (reg s) -> accounts r = accounts (reg s) ->
  inv (mkState r (tasks s)).
Proof. intros [Is Ir Ia Ib Im] Hs Hr Ha. constructor; simpl; rewrite ?Hr, ?Ha; done. Qed.

Lemma inv_start s ns k event :
  inv s -> k.1 ∉ stopped (reg s) ->
  (forall e t, objects (reg s) !! k = Some e -> tasks s !! e_generation e = Some t -> t_open t = false) ->
  default 0 (accounts (reg s) !! ns_user_id ns) < MAX_RESIDENT_PER_ACCOUNT ->
  inv (start ns k event s).
Proof.
  intros [Is Ir Ia Ib Im] Hns Hcl Hlt. constructor.
  - by apply shape_start.
  - exact (count_ok_start namespace_of _ _ (new_task ns k (retiring (reg s) !! k) event) eq_refl Ir).
  - exact (count_ok_start t_account _ _ (new_task ns k (retiring (reg s) !! k) event) eq_refl Ia).
  - simpl. intros a c Hc. unfold count_up in Hc. apply lookup_insert_Some in Hc as [[<- <-]|[_ Hc]]; [lia|by eapply Ib].
  - simpl. intros g t Hg. apply lookup_app_Some in Hg as [Hg|[_ Hg]]; [by eapply Im|].
    apply list_lookup_singleton_Some in Hg as [_ <-]. done.
Qed.

Lemma may_move_mail ts g t m : shape (Ev := Ev) g ts -> t ∈ ts -> may_move ts t (set_mail m t).
Proof.
  intros Hs [i Hi]%list_elem_of_lookup. split; [done|].
  split; [apply (sh_open _ _ Hs _ _ Hi)|]. split; [by left|]. intros p Hp Hl. simpl in Hl. congruence.
Qed.

Lemma inv_admit s ns id event a s' : inv s -> admit_event ns id event s = (a, s') -> inv s'.
Proof.
  intros Hi Ha. unfold admit_event in Ha. case_bool_decide as Hst; [by simplify_eq|].
  set (k := (ns_id ns, id)) in *.
  destruct (objects (reg s) !! k) as [e|] eqn:Ee; simpl in Ha.
  - destruct (sh_entry _ _ (i_shape s Hi) k e Ee) as (t & Ht & Hk & _). rewrite Ht in Ha. simpl in Ha.
    destruct (t_open t) eqn:Eo.
    + simplify_eq. apply inv_move with t; try done.
      * eapply may_move_mail; [apply Hi|by eapply list_elem_of_lookup_2].
      * simpl. congruence.
    + destruct (Z.leb_spec MAX_RESIDENT_PER_ACCOUNT (default 0 (accounts (reg s) !! ns_user_id ns))); simplify_eq; [done|].
      apply inv_start; try done. intros e' t' He' Ht'. simplify_eq. done.
  - destruct (Z.leb_spec MAX_RESIDENT_PER_ACCOUNT (default 0 (accounts (reg s) !! ns_user_id ns))); simplify_eq; [done|].
    apply inv_start; try done. intros e' t' He' Ht'. simplify_eq.
Qed.

Lemma may_move_to ts t p :
  moves (t_phase t) p -> t_open t = alive p -> (forall q, t_phase t = Waiting (Some q) -> p = Loading ->
    exists u, ts !! q = Some u /\ alive (t_phase u) = false) ->
  may_move ts t (set_phase p t).
Proof. intros Hm Ho Hw. by split_and!. Qed.

Lemma may_move_close ts t b :
  t_phase t = Loading \/ t_phase t = Serving -> may_move ts t (close b t).
Proof.
  intros Hp. split; [done|]. split; [done|]. split; [unfold moves; simpl; tauto|].
  intros p _ Hl. done.
Qed.

Lemma set_objects_same r : set_objects (objects r) r = r.
Proof. by destruct r. Qed.

Lemma inv_leave s g t s' :
  inv s -> tasks s !! g = Some t -> t_phase t = Serving -> leave g t s = Some s' -> inv s'.
Proof.
  intros Hi Hg Hp Hl. unfold leave in Hl. destruct (t_mail t) eqn:Em; simplify_eq.
  assert (inv (with_task g (close false t) s)) as Hi'.
  { apply inv_move with t; try done; [apply may_move_close; auto|simpl; by rewrite Hp]. }
  destruct (objects (reg s) !! t_key t) as [e|] eqn:Ee; [destruct (Nat.eqb_spec (e_generation e) g) as [Heg|]|].
  - apply (inv_registry (with_task g (close false t) s)); try done. simpl.
    eapply (shape_delete_entry (reg s) _ _ e (close false t)); [apply Hi'|done| |done].
    simpl. rewrite Heg. apply list_lookup_insert_eq. by eapply lookup_lt_Some.
  - apply (inv_registry (with_task g (close false t) s)); try done. simpl. rewrite set_objects_same. apply Hi'.
  - apply (inv_registry (with_task g (close false t) s)); try done. simpl. rewrite set_objects_same. apply Hi'.
Qed.

(** The end of a task: its counts are there to give back. *)
Lemma inv_end s g t :
  inv s -> tasks s !! g = Some t -> t_phase t = Ending ->
  exists r, drop_running (t_key t) g (t_account t) (reg s) = Some r /\
    inv (mkState r (<[g := set_phase Gone t]> (tasks s))).
Proof.
  intros [Is Ir Ia Ib Im] Hg Hp.
  assert (may_move (tasks s) t (set_phase Gone t)) as Hm.
  { apply may_move_to; [rewrite Hp; unfold moves; auto 10| |congruence].
    rewrite (sh_open _ _ Is _ _ Hg), Hp. done. }
  destruct (count_ok_release namespace_of _ _ g t (set_phase Gone t) Hg ltac:(by rewrite Hp) eq_refl Ir) as (run' & Hr & Ir').
  destruct (count_ok_release t_account _ _ g t (set_phase Gone t) Hg ltac:(by rewrite Hp) eq_refl Ia) as (acc' & Hac & Ia').
  unfold namespace_of in Hr. unfold drop_running. rewrite Hr. simpl. rewrite Hac. simpl.
  eexists. split; [done|]. pose proof (shape_move _ _ _ _ _ Is Hg Hm) as Hs.
  constructor; simpl; try done.
  - case_bool_decide as Hret; apply (shape_counts (with_retiring _ (reg s))); [|by apply shape_counts].
    eapply shape_delete_retiring; [done..| |]; [apply list_lookup_insert_eq; by eapply lookup_lt_Some|done].
  - intros a c Hc. unfold release in Hac. destruct (accounts (reg s) !! t_account t) as [c0|] eqn:E; simpl in Hac; [|done].
    pose proof (Ib _ _ E). destruct (c0 <=? 0); [done|]. destruct (c0 - 1 =? 0); simplify_eq.
    + apply lookup_delete_Some in Hc as [_ Hc]. by eapply Ib.
    + apply lookup_insert_Some in Hc as [[<- <-]|[_ Hc]]; [lia|by eapply Ib].
  - intros h u Hh. apply list_lookup_insert_Some in Hh as [(_ & <- & _)|[_ Hh]]; [|by eapply Im]. simpl. by eapply Im.
Qed.

Lemma reg_inv_step s s' : inv s -> step s s' -> inv s'.
Proof.
  intros Hi Hstep. pose proof (i_shape s Hi) as Hsh.
  destruct Hstep as [s ns id event a s' Ha|s g t prev Hg Hp Hprev|s g t v Hg Hp|s g t event m Hg Hp Hm|s g t s' Hg Hp Hl
    |s g t Hg Hp|s g t r Hg Hp Hd|s w v|s ns].
  - by eapply inv_admit.
  - apply inv_move with t; try done; [|simpl; by rewrite Hp|].
    + apply may_move_to; [rewrite Hp; right; left; eauto|rewrite (sh_open _ _ Hsh _ _ Hg), Hp; done|].
      intros q Hq _. assert (prev = Some q) as -> by congruence.
      destruct (sh_wait _ _ Hsh _ _ _ Hg Hq) as [_ (u & Hu & _)]. exists u. split; [done|].
      unfold gone in Hprev. rewrite Hu in Hprev. by destruct (t_phase u).
    + simpl. rewrite (sh_open _ _ Hsh _ _ Hg), Hp. done.
  - assert (inv (with_task g (set_phase Serving t) s)) as Hi'.
    { apply inv_move with t; try done; [|simpl; by rewrite Hp|].
      - apply may_move_to; [rewrite Hp; unfold moves; auto|rewrite (sh_open _ _ Hsh _ _ Hg), Hp; done|congruence].
      - simpl. rewrite (sh_open _ _ Hsh _ _ Hg), Hp. done. }
    apply (inv_registry (with_task g (set_phase Serving t) s)); try done.
    + eapply shape_set_version; [apply Hi'|simpl; apply list_lookup_insert_eq; by eapply lookup_lt_Some|done].
    + simpl. unfold set_version. by repeat case_match.
    + simpl. unfold set_version. by repeat case_match.
  - apply inv_move with t; try done.
    + eapply may_move_mail; [done|by eapply list_elem_of_lookup_2].
    + simpl. rewrite (sh_open _ _ Hsh _ _ Hg), Hp. done.
  - by eapply inv_leave.
  - apply inv_move with t; try done; [by apply may_move_close|]. simpl. by destruct Hp as [->| ->].
  - destruct (inv_end s g t Hi Hg Hp) as (r' & Hr & Hi'). congruence.
  - apply inv_registry; try done. by apply shape_retire.
  - apply inv_registry; try done. by apply shape_stop.
Qed.

Lemma reg_inv_init : inv init.
Proof.
  constructor; simpl; try done.
Qed.

Lemma reg_inv_reachable s : rtc step init s -> inv s.
Proof. apply (rtc_invariant step); [apply reg_inv_step|apply reg_inv_init]. Qed.
End invariant.

(** ** Properties *)

Section properties.
Context {Ev : Type}.
Implicit Types (s : @state Ev) (t : @Task Ev).

(** The code of an object runs in the load and the serve of a task. *)
Definition runs_code (p : phase) : bool := match p with Loading | Serving => true | _ => false end.

(** C5. Old and new code never run for the same object at once: in every
    interleaving of requests, starts, deployments, failures, deletions and
    ends, at most one task of an object has got past waiting and not ended. *)
Theorem one_task_per_object s g h t t' :
  rtc step init s -> tasks s !! g = Some t -> tasks s !! h = Some t' -> t_key t = t_key t' ->
  runs_code (t_phase t) = true -> runs_code (t_phase t') = true -> g = h.
Proof.
  intros Hr Hg Hh Hk Hc Hc'. pose proof (i_shape s (reg_inv_reachable s Hr)) as Hs.
  assert (alive (t_phase t) = true /\ alive (t_phase t') = true) as [Ha Ha']
    by (destruct (t_phase t), (t_phase t'); done).
  destruct (Nat.lt_trichotomy g h) as [Hlt|[?|Hlt]]; [|done|].
  - rewrite (sh_pair _ _ Hs g h t t') in Hc' by done. done.
  - rewrite (sh_pair _ _ Hs h g t' t) in Hc by done. done.
Qed.

(** The counts of the registry are exact: per namespace and per account
    they are the tasks that have not gone, so no account has more than 100,
    and a task that ends always finds its counts, so its drop never panics. *)
Theorem registry_counts s :
  rtc step init s ->
  (forall n, default 0 (running (reg s) !! n) = countb (counts_of namespace_of n) (tasks s)) /\
  (forall a, default 0 (accounts (reg s) !! a) = countb (counts_of t_account a) (tasks s) /\
     countb (counts_of t_account a) (tasks s) <= MAX_RESIDENT_PER_ACCOUNT) /\
  (forall g t, tasks s !! g = Some t -> t_phase t = Ending ->
     is_Some (drop_running (t_key t) g (t_account t) (reg s))).
Proof.
  intros Hr. pose proof (reg_inv_reachable s Hr) as Hi. destruct Hi as [Is [Ir Irp] [Ia Iap] Ib Im]. split_and!.
  - done.
  - intros a. split; [done|]. rewrite <- Ia. destruct (accounts (reg s) !! a) eqn:E; simpl; [by eapply Ib|].
    unfold MAX_RESIDENT_PER_ACCOUNT. lia.
  - intros g t Hg Hp. destruct (inv_end s g t ltac:(by constructor) Hg Hp) as (r & Hd & _). by eexists.
Qed.

(** A namespace that was deleted and has no task. *)
Definition empty_namespace (ns : string) s : Prop :=
  ns ∈ stopped (reg s) /\ forall g t, tasks s !! g = Some t -> namespace_of t = ns -> t_phase t = Gone.

Lemma step_stopped s s' : step s s' -> stopped (reg s) ⊆ stopped (reg s').
Proof.
  intros Hstep. destruct Hstep as [s ns id event a s' Ha| |s g t v| |s g t s' Hg Hp Hl| |s g t r Hg Hp Hd| |]; simpl; try done.
  - unfold admit_event, start in Ha. repeat case_match; by simplify_eq.
  - unfold set_version. by repeat case_match.
  - unfold leave in Hl. repeat case_match; by simplify_eq.
  - unfold drop_running in Hd. destruct (release _ (running _)); simpl in Hd; [|done].
    destruct (release _ (accounts _)); by simplify_eq/=.
  - set_solver.
Qed.

Lemma insert_phase (ts : list (@Task Ev)) g t t' h u :
  ts !! g = Some t -> t_phase t <> Gone -> <[g := t']> ts !! h = Some u -> t_key t' = t_key t ->
  forall ns, (forall g t, ts !! g = Some t -> namespace_of t = ns -> t_phase t = Gone) ->
  namespace_of u = ns -> t_phase u = Gone.
Proof.
  intros Hg Hp Hh Hk ns Hall Hu. apply list_lookup_insert_Some in Hh as [(<- & <- & _)|[_ Hh]]; [|by eapply Hall].
  unfold namespace_of in *. rewrite Hk in Hu. by specialize (Hall _ _ Hg Hu).
Qed.

Lemma empty_namespace_step ns s s' : inv s -> empty_namespace ns s -> step s s' -> empty_namespace ns s'.
Proof.
  intros Hi [Hst Hall] Hstep. split; [by eapply step_stopped|].
  destruct Hstep as [s nc id event a s' Ha|s g t prev Hg Hp _|s g t v Hg Hp|s g t event m Hg Hp _|s g t s' Hg Hp Hl
    |s g t Hg Hp|s g t r Hg Hp _| |]; simpl; try done;
    try (intros h u Hh; eapply (insert_phase _ _ _ _ _ _ Hg); [congruence|exact Hh|done|done]).
  - unfold admit_event in Ha. case_bool_decide as Hns; [by simplify_eq|].
    assert (ns_id nc <> ns) as Hne by (intros Heq; simpl in Hns; by rewrite Heq in Hns).
    destruct (objects (reg s) !! (ns_id nc, id)) as [e|] eqn:Ee; simpl in Ha.
    + destruct (sh_entry _ _ (i_shape s Hi) _ e Ee) as (t & Ht & Hk & _). rewrite Ht in Ha. simpl in Ha.
      destruct (t_open t) eqn:Eo.
      * simplify_eq. simpl. intros h u Hh. eapply (insert_phase _ _ _ _ _ _ Ht); [|exact Hh|done|done].
        intros Hg. rewrite (sh_open _ _ (i_shape s Hi) _ _ Ht), Hg in Eo. done.
      * destruct (_ <=? _); simplify_eq; [done|]. simpl. intros g u Hu.
        apply lookup_app_Some in Hu as [Hu|[_ Hu]]; [by apply (Hall g)|].
        apply list_lookup_singleton_Some in Hu as [_ <-]. done.
    + destruct (_ <=? _); simplify_eq; [done|]. simpl. intros g u Hu.
      apply lookup_app_Some in Hu as [Hu|[_ Hu]]; [by apply (Hall g)|].
      apply list_lookup_singleton_Some in Hu as [_ <-]. done.
  - unfold leave in Hl. destruct (t_mail t); simplify_eq. simpl.
    intros h u Hh. eapply (insert_phase _ _ _ _ _ _ Hg); [congruence|exact Hh|done|done].
  - intros h u Hh. eapply (insert_phase _ _ _ _ _ _ Hg); [destruct Hp; congruence|exact Hh|done|done].
Qed.

(** C26. When the deletion of a namespace is told that none of its objects
    runs, none runs ever again, so its files can go: in every later state
    each task of the namespace is gone, and every request to it is refused. *)
Theorem stop_namespace_final s s' ns id (nc : NamespaceConfig) (event : Ev) :
  rtc step init s -> (stop_namespace ns (reg s)).1 = true ->
  rtc step (mkState (stop_namespace ns (reg s)).2 (tasks s)) s' ->
  (forall g t, tasks s' !! g = Some t -> namespace_of t = ns -> t_phase t = Gone) /\
  (ns_id nc = ns -> admit_event nc id event s' = (Err "the Durable Object namespace was deleted", s')).
Proof.
  intros Hr Hn Hr'. pose proof (reg_inv_reachable s Hr) as Hi.
  assert (inv s' /\ empty_namespace ns s') as [Hi' [Hst Hall]].
  { eapply (rtc_invariant step (fun s => inv s /\ empty_namespace ns s)); [| |exact Hr'].
    - intros a b [Ha He] Hstep. split; [by eapply reg_inv_step|by eapply empty_namespace_step].
    - split; [eapply reg_inv_step; [exact Hi|apply r_stop]|]. split; [simpl; set_solver|]. simpl.
      intros g t Hg Ht. simpl in Hn. apply bool_decide_eq_true in Hn.
      pose proof (proj1 (i_running s Hi) ns) as Hc. rewrite Hn in Hc. simpl in Hc.
      symmetry in Hc. apply countb_zero in Hc. rewrite Forall_forall in Hc.
      specialize (Hc t ltac:(by eapply list_elem_of_lookup_2)). unfold counts_of in Hc.
      rewrite Ht, String.eqb_refl in Hc. by destruct (t_phase t). }
  split; [done|]. intros Heq. unfold admit_event. simpl. rewrite bool_decide_true; [done|by rewrite Heq].
Qed.

(** No request to an object is lost: a request that is admitted is in the
    mailbox of a task that will serve or fail it, last in the order, with the
    requests before it kept; and a task that ended without a failure has
    emptied its mailbox. *)
Theorem no_event_lost s ns id event g s' :
  rtc step init s ->
  (admit_event ns id event s = (Ok g, s') ->
     exists t, tasks s' !! g = Some t /\ t_key t = (ns_id ns, id) /\ alive (t_phase t) = true /\
       t_mail t = match tasks s !! g with Some t0 => t_mail t0 | None => [] end ++ [event]) /\
  (forall h t, tasks s !! h = Some t -> alive (t_phase t) = false -> t_failed t = false -> t_mail t = []).
Proof.
  intros Hr. pose proof (reg_inv_reachable s Hr) as Hi. split.
  - intros Ha. unfold admit_event in Ha. case_bool_decide; [done|].
    assert (forall k, (length (tasks s), start ns k event s) = (g, s') ->
      exists t, tasks s' !! g = Some t /\ t_key t = k /\ alive (t_phase t) = true /\
       t_mail t = match tasks s !! g with Some t0 => t_mail t0 | None => [] end ++ [event]) as Hstart.
    { intros k ?. simplify_eq. simpl. rewrite list_lookup_middle by done. eexists. split; [done|].
      rewrite (lookup_ge_None_2 (tasks s)) by done. done. }
    destruct (objects (reg s) !! (ns_id ns, id)) as [e|] eqn:Ee; simpl in Ha.
    + destruct (sh_entry _ _ (i_shape s Hi) _ e Ee) as (t & Ht & Hk & _). rewrite Ht in Ha. simpl in Ha.
      destruct (t_open t) eqn:Eo.
      * simplify_eq. simpl. rewrite list_lookup_insert_eq by (by eapply lookup_lt_Some). rewrite Ht.
        eexists. split; [done|]. split; [done|]. split; [|done]. simpl. by rewrite <- (sh_open _ _ (i_shape s Hi) _ _ Ht).
      * destruct (_ <=? _); [done|]. apply Hstart. congruence.
    + destruct (_ <=? _); [done|]. apply Hstart. congruence.
  - intros h t Hh Ha Hf. eapply (i_mail s Hi); eauto. by rewrite (sh_open _ _ (i_shape s Hi) _ _ Hh).
Qed.
End properties.

(** ** A run: a deployment while an object serves *)

Section witnesses.
Definition ns0 : NamespaceConfig := mkNamespaceConfig "n" "u" "w" "C" "k".

(** One request to the object "a". *)
Definition run1 : @state nat := (admit_event ns0 "a" 1%nat init).2.
Definition task0 (p : phase) (m : list nat) : @Task nat := mkTask ("n", "a") "u" p m true false.
(** Its task loads, serves and takes the request. *)
Definition run2 : @state nat := with_task 0 (task0 Loading [1%nat]) run1.
Definition run3 : @state nat :=
  mkState (set_version ("n", "a") 0 1 (reg run2)) (<[0%nat := task0 Serving [1%nat]]> (tasks run2)).
Definition run4 : @state nat := with_task 0 (task0 Serving []) run3.
(** A new deployment, and a request that starts the next task. *)
Definition run5 : @state nat := mkState (retire "w" 1 (reg run4)) (tasks run4).
Definition run6 : @state nat := (admit_event ns0 "a" 2%nat run5).2.

Lemma run6_reachable : rtc step init run6.
Proof.
  eapply rtc_l; [by apply (r_admit _ ns0 "a" 1%nat (Ok 0%nat) run1)|].
  eapply rtc_l; [by apply (r_wake run1 0%nat (task0 (Waiting None) [1%nat]) None)|].
  eapply rtc_l; [by apply (r_loaded run2 0%nat (task0 Loading [1%nat]) 1)|].
  eapply rtc_l; [by apply (r_take run3 0%nat (task0 Serving [1%nat]) 1%nat [])|].
  eapply rtc_l; [by apply (r_retire run4 "w" 1)|].
  eapply rtc_l; [by apply (r_admit run5 ns0 "a" 2%nat (Ok 1%nat) run6)|]. apply rtc_refl.
Qed.

(** The second task waits for the first. *)
Example run6_waits : map t_phase (tasks run6) = [Serving; Waiting (Some 0%nat)].
Proof. vm_compute. reflexivity. Qed.

Lemma one_task_per_object_witness : 0%nat = 0%nat.
Proof.
  exact (one_task_per_object run6 0 0 (task0 Serving []) (task0 Serving []) run6_reachable
    ltac:(vm_compute; reflexivity) ltac:(vm_compute; reflexivity) eq_refl eq_refl eq_refl).
Defined.

Lemma registry_counts_witness : default 0 (running (reg run6) !! "n") = countb (counts_of namespace_of "n") (tasks run6).
Proof. exact (proj1 (registry_counts run6 run6_reachable) "n"). Defined.

Lemma stop_namespace_final_witness :
  admit_event ns0 "a" 1%nat (mkState (stop_namespace "n" registry_default).2 []) =
  (Err "the Durable Object namespace was deleted", mkState (stop_namespace "n" registry_default).2 []).
Proof.
  exact (proj2 (stop_namespace_final init (mkState (stop_namespace "n" registry_default).2 []) "n" "a" ns0 1%nat
    (rtc_refl _ _) eq_refl (rtc_refl _ _)) eq_refl).
Defined.

Lemma no_event_lost_witness :
  exists t, tasks run6 !! 1%nat = Some t /\ t_mail t = [2%nat].
Proof.
  assert (rtc step init run5) as Hr.
  { eapply rtc_l; [by apply (r_admit _ ns0 "a" 1%nat (Ok 0%nat) run1)|].
    eapply rtc_l; [by apply (r_wake run1 0%nat (task0 (Waiting None) [1%nat]) None)|].
    eapply rtc_l; [by apply (r_loaded run2 0%nat (task0 Loading [1%nat]) 1)|].
    eapply rtc_l; [by apply (r_take run3 0%nat (task0 Serving [1%nat]) 1%nat [])|].
    eapply rtc_l; [by apply (r_retire run4 "w" 1)|]. apply rtc_refl. }
  destruct (proj1 (no_event_lost run5 ns0 "a" 2%nat 1%nat run6 Hr) ltac:(vm_compute; reflexivity))
    as (t & Ht & _ & _ & Hm). exists t. split; [exact Ht|exact Hm].
Defined.
End witnesses.

(** ** Call depths in flight *)

(** [enter] and the drops of the guards it gave, in any order: [held] are the
    depths of the guards alive. *)
Inductive depth_run : list Z -> list Z -> Prop :=
| depth_none : depth_run [] []
| depth_enter held l d : depth_run held l -> depth_run (d :: held) (enter d l)
| depth_drop held held' l l' d :
    depth_run held l -> held ≡ₚ d :: held' -> drop_guard d l = Some l' -> depth_run held' l'.

Lemma position_Some d l i : position d l = Some i -> l !! i = Some d.
Proof.
  revert i. induction l as [|x l IH]; intros i H; simpl in *; [done|].
  destruct (Z.eqb_spec x d) as [->|]; simplify_eq/=; [done|].
  destruct (position d l) eqn:E; simplify_eq/=. by apply IH.
Qed.

Lemma position_elem d l : d ∈ l -> is_Some (position d l).
Proof.
  induction 1 as [d l|d x l _ [i IH]]; simpl; [rewrite Z.eqb_refl; by eexists|].
  destruct (x =? d); [by eexists|]. rewrite IH. by eexists.
Qed.

Lemma swap_remove_perm d l i : l !! i = Some d -> d :: swap_remove i l ≡ₚ l.
Proof.
  intros Hi. unfold swap_remove. destruct (last l) as [x|] eqn:El; [|by apply last_None in El; subst].
  apply last_Some in El as [f ->]. rewrite removelast_last.
  destruct (Nat.eqb_spec (S i) (length (f ++ [x]))) as [E|E]; rewrite length_app in E; simpl in E.
  - rewrite list_lookup_middle in Hi by lia. simplify_eq. by rewrite Permutation_cons_append.
  - apply lookup_lt_Some in Hi as Hlt. rewrite length_app in Hlt. simpl in Hlt.
    rewrite insert_app_l, removelast_last by lia. rewrite lookup_app_l in Hi by lia.
    rewrite <- (take_drop_middle f i d Hi) at 2. rewrite insert_take_drop by lia.
    rewrite <- (Permutation_middle (take i f)), <- (Permutation_middle (take i f)). simpl.
    by rewrite <- Permutation_cons_append.
Qed.

Lemma depth_run_perm held l : depth_run held l -> l ≡ₚ held.
Proof.
  induction 1 as [|held l d _ IH|held held' l l' d _ IH Hp Hd]; [done| |].
  - unfold enter. by rewrite <- Permutation_cons_append, IH.
  - unfold drop_guard in Hd. destruct (position d l) as [i|] eqn:E; simplify_eq/=.
    apply position_Some, swap_remove_perm in E. apply (Permutation_cons_inv (a := d)). by rewrite E, IH.
Qed.

Lemma deepest_perm l k : l ≡ₚ k -> deepest l = deepest k.
Proof. induction 1; simpl; lia. Qed.

(** A guard always finds its depth, and the deepest event is the deepest of
    the guards alive. *)
Lemma depths_exact held l :
  depth_run held l -> deepest l = deepest held /\ forall d, d ∈ held -> is_Some (drop_guard d l).
Proof.
  intros Hr. pose proof (depth_run_perm _ _ Hr) as Hp. split; [by apply deepest_perm|].
  intros d Hd. destruct (position_elem d l) as [i Hi]; [by rewrite Hp|].
  unfold drop_guard. rewrite Hi. by eexists.
Qed.
