(* ===== verification/DurableId.v ===== *)
(** * Durable Object ids (src/src/durable/id.rs)

    An id is 32 bytes in hex: 16 bytes that name the object, and 16 bytes of
    a MAC of them under the key of the namespace. Bytes are a [string]; the
    HMAC and the hex crates are interfaces with their documented laws. *)

From S2P Require Import Prelude RustStr.

Definition PART : nat := 16.

Definition str_take (n : nat) (s : string) : string := String.substring 0 n s.
Definition str_drop (n : nat) (s : string) : string := String.substring n (String.length s - n) s.

(** [hmac::Hmac<Sha256>]: the tag of a message, of 32 bytes. *)
Class Hmac := {
  hmac : string -> string -> string;
  hmac_length key data : String.length (hmac key data) = 32%nat;
  (** True when [tag] is not empty and is a left part of the tag. *)
  verify_truncated_left : string -> string -> string -> bool;
  verify_truncated_left_spec key data tag :
    verify_truncated_left key data tag = true <->
    (0 < String.length tag <= 32)%nat /\ tag = str_take (String.length tag) (hmac key data);
}.

(** The [hex] crate: two lower case digits per byte; the decoder takes both
    cases. *)
Class Hex := {
  hex_encode : string -> string;
  hex_decode : string -> option string;
  hex_encode_length b : String.length (hex_encode b) = (2 * String.length b)%nat;
  hex_decode_encode b : hex_decode (hex_encode b) = Some b;
  hex_decode_Some s b : hex_decode s = Some b -> to_ascii_lowercase s = hex_encode b;
  hex_decode_lower s : hex_decode (to_ascii_lowercase s) = hex_decode s;
}.

Section ids.
Context `{!Hmac, !Hex}.

(** The message of [mac]: the label, a zero byte, the data. *)
Definition mac_message (label data : string) : string := label +:+ String (ascii_of_nat 0) data.
Definition mac (key label data : string) : string := hmac key (mac_message label data).

Definition with_tag (key body : string) : string := hex_encode (body +:+ str_take PART (mac key "id" body)).

Definition from_name (key name : string) : string := with_tag key (str_take PART (mac key "name" name)).

(** [uuid]: the bytes of a new random UUID. *)
Definition unique (key uuid : string) : string := with_tag key uuid.

Definition parse (key text : string) : option string :=
  if negb (String.length text =? PART * 4)%nat then None else
  bytes ← hex_decode text;
  let body := str_take PART bytes in
  let tag := str_drop PART bytes in
  if verify_truncated_left key (mac_message "id" body) tag then Some (hex_encode bytes) else None.

(** ** Lemmas *)

Lemma str_take_app a b : str_take (String.length a) (a +:+ b) = a.
Proof. unfold str_take. induction a as [|c a IH]; simpl; [by destruct b|]. by rewrite IH. Qed.

Lemma substring_all b : String.substring 0 (String.length b) b = b.
Proof. induction b as [|c b IH]; simpl; [done|]. by rewrite IH. Qed.

Lemma str_drop_app a b : str_drop (String.length a) (a +:+ b) = b.
Proof.
  unfold str_drop. rewrite length_app_str.
  replace (String.length a + String.length b - String.length a)%nat with (String.length b) by lia.
  induction a as [|c a IH]; simpl; [apply substring_all|done].
Qed.

Lemma str_take_drop n s : (n <= String.length s)%nat ->
  s = str_take n s +:+ str_drop n s /\ String.length (str_take n s) = n.
Proof.
  unfold str_take, str_drop. revert n. induction s as [|c s IH]; intros [|n] Hn; simpl in *; try lia; [done| |].
  - by rewrite substring_all.
  - destruct (IH n ltac:(lia)) as [H1 H2]. rewrite <- H1, H2. done.
Qed.

Lemma with_tag_length key body : String.length body = PART -> String.length (with_tag key body) = (PART * 4)%nat.
Proof.
  intros Hb. unfold with_tag. rewrite hex_encode_length, length_app_str.
  destruct (str_take_drop PART (mac key "id" body)) as [_ ->]; [unfold mac; rewrite hmac_length; unfold PART; lia|].
  rewrite Hb. done.
Qed.

Lemma tag_length key body : String.length (str_take PART (mac key "id" body)) = PART.
Proof. apply str_take_drop. unfold mac. rewrite hmac_length. unfold PART. lia. Qed.

Lemma parse_with_tag key key' body : String.length body = PART ->
  parse key (with_tag key' body) =
  if String.eqb (str_take PART (mac key' "id" body)) (str_take PART (mac key "id" body))
  then Some (with_tag key' body) else None.
Proof.
  intros Hb. unfold parse. rewrite with_tag_length by done. simpl. unfold with_tag at 1.
  rewrite hex_decode_encode. simpl. rewrite <- Hb, str_take_app, str_drop_app, Hb.
  pose proof (tag_length key' body) as Ht. set (tag := str_take PART (mac key' "id" body)) in *.
  destruct (verify_truncated_left key (mac_message "id" body) tag) eqn:E.
  - apply verify_truncated_left_spec in E as [_ E]. rewrite Ht in E. unfold mac. rewrite <- E, String.eqb_refl. done.
  - destruct (String.eqb_spec tag (str_take PART (mac key "id" body))) as [Et|]; [|done]. exfalso.
    enough (verify_truncated_left key (mac_message "id" body) tag = true) by congruence.
    apply verify_truncated_left_spec. rewrite Ht. split; [unfold PART; lia|]. done.
Qed.

Lemma parse_Some key text id : parse key text = Some id ->
  exists body, String.length body = PART /\ id = with_tag key body /\ to_ascii_lowercase text = id.
Proof.
  unfold parse. destruct (Nat.eqb_spec (String.length text) (PART * 4)) as [Hl|]; simpl; [|done].
  destruct (hex_decode text) as [bytes|] eqn:Ed; simpl; [|done]. apply hex_decode_Some in Ed.
  assert (String.length bytes = 2 * PART)%nat as Hb.
  { pose proof (hex_encode_length bytes) as He. rewrite <- Ed, to_ascii_lowercase_length, Hl in He. unfold PART in *. lia. }
  destruct (str_take_drop PART bytes ltac:(lia)) as [Hs Ht].
  destruct (verify_truncated_left _ _ _) eqn:Ev; [|done]. intros ?; simplify_eq.
  exists (str_take PART bytes). split; [done|]. split; [|done].
  apply verify_truncated_left_spec in Ev as [_ Ev]. unfold with_tag. f_equal. rewrite Hs at 1. f_equal. rewrite Ev.
  f_equal. pose proof (f_equal String.length Hs) as Hlen. rewrite length_app_str, Ht, Hb in Hlen. unfold PART in *. lia.
Qed.

Lemma parse_lower key text : parse key (to_ascii_lowercase text) = parse key text.
Proof. unfold parse. by rewrite to_ascii_lowercase_length, hex_decode_lower. Qed.

(** A namespace accepts exactly the ids it made, in any case of their
    letters, and gives them in lower case: a text parses to [id] iff [id] is
    the tagged form of some 16 bytes and the text in lower case is [id]. The
    id of a name always parses to itself. *)
Theorem parse_exact key text id name :
  (parse key text = Some id <->
   exists body, String.length body = PART /\ id = with_tag key body /\ to_ascii_lowercase text = id) /\
  parse key (from_name key name) = Some (from_name key name).
Proof.
  assert (forall body, String.length body = PART -> parse key (with_tag key body) = Some (with_tag key body)) as Hw
    by (intros body Hb; by rewrite parse_with_tag, String.eqb_refl).
  split; [split; [apply parse_Some|]|].
  - intros (body & Hb & -> & Ht). rewrite <- parse_lower, Ht. by apply Hw.
  - unfold from_name. apply Hw. apply str_take_drop. unfold mac. rewrite hmac_length. unfold PART. lia.
Qed.

(** A namespace refuses the ids of every other one, up to the MAC: it
    accepts an id made under another key only if the two keys give the same
    16 bytes of MAC for its body; and the messages under the MAC keep names
    and ids apart, as no name message is an id message. *)
Theorem foreign_id_is_collision key key' body name :
  String.length body = PART ->
  (is_Some (parse key (with_tag key' body)) <->
   str_take PART (hmac key' (mac_message "id" body)) = str_take PART (hmac key (mac_message "id" body))) /\
  mac_message "name" name <> mac_message "id" body.
Proof.
  intros Hb. rewrite parse_with_tag by done. split; [|done]. unfold mac.
  destruct (String.eqb_spec (str_take PART (hmac key' (mac_message "id" body)))
    (str_take PART (hmac key (mac_message "id" body)))) as [E|E].
  - split; [done|by eexists].
  - split; [by intros [? ?]|done].
Qed.
End ids.

(** ** An instance *)

Definition hex_digit (n : nat) : ascii := ascii_of_nat (if (n <? 10)%nat then 48 + n else 87 + n).
Definition hex_value (c : ascii) : option nat :=
  let b := nat_of_ascii c in
  if ((48 <=? b) && (b <=? 57))%nat then Some (b - 48)%nat else
  if ((97 <=? b) && (b <=? 102))%nat then Some (b - 87)%nat else
  if ((65 <=? b) && (b <=? 70))%nat then Some (b - 55)%nat else None.

Fixpoint encode_bytes (s : string) : string :=
  match s with
  | EmptyString => EmptyString
  | String c s => String (hex_digit (nat_of_ascii c / 16)) (String (hex_digit (nat_of_ascii c mod 16)) (encode_bytes s))
  end.

Definition byte_of_digits (x y : nat) : ascii := ascii_of_nat (16 * x + y).
Arguments byte_of_digits : simpl never.

Fixpoint decode_bytes (s : string) : option string :=
  match s with
  | EmptyString => Some EmptyString
  | String a (String b s) =>
    x ← hex_value a; y ← hex_value b; r ← decode_bytes s; Some (String (byte_of_digits x y) r)
  | String _ EmptyString => None
  end.

Definition all_ascii : list ascii := map ascii_of_nat (seq 0 256).

Lemma all_ascii_elem c : c ∈ all_ascii.
Proof.
  apply list_elem_of_fmap. exists (nat_of_ascii c). split; [by rewrite ascii_nat_embedding|].
  apply elem_of_seq. pose proof (nat_ascii_bounded c). lia.
Qed.

Lemma forall_ascii (P : ascii -> bool) : forallb P all_ascii = true -> forall c, P c = true.
Proof. intros H c. rewrite forallb_forall in H. apply H, list_elem_of_In, all_ascii_elem. Qed.

(** What holds of each byte, checked on all 256. *)
Definition byte_digits (c : ascii) : bool :=
  bool_decide (hex_value (hex_digit (nat_of_ascii c / 16)) = Some (nat_of_ascii c / 16)%nat) &&
  bool_decide (hex_value (hex_digit (nat_of_ascii c mod 16)) = Some (nat_of_ascii c mod 16)%nat) &&
  bool_decide (byte_of_digits (nat_of_ascii c / 16) (nat_of_ascii c mod 16) = c).

Definition digit_lower (c : ascii) : bool :=
  match hex_value c with
  | Some x => bool_decide (ascii_lower c = hex_digit x) && bool_decide (x < 16)%nat &&
              bool_decide (hex_value (ascii_lower c) = Some x)
  | None => bool_decide (hex_value (ascii_lower c) = None)
  end.

Lemma byte_digits_all c : byte_digits c = true.
Proof. apply forall_ascii. vm_compute. reflexivity. Qed.

Lemma digit_lower_all c : digit_lower c = true.
Proof. apply forall_ascii. vm_compute. reflexivity. Qed.

Lemma hex_digits_value c :
  hex_value (hex_digit (nat_of_ascii c / 16)) = Some (nat_of_ascii c / 16)%nat /\
  hex_value (hex_digit (nat_of_ascii c mod 16)) = Some (nat_of_ascii c mod 16)%nat /\
  byte_of_digits (nat_of_ascii c / 16) (nat_of_ascii c mod 16) = c.
Proof. pose proof (byte_digits_all c) as H. unfold byte_digits in H. by reflect_bools. Qed.

Lemma hex_value_lower c x : hex_value c = Some x ->
  ascii_lower c = hex_digit x /\ (x < 16)%nat /\ hex_value (ascii_lower c) = Some x.
Proof.
  intros Hx. pose proof (digit_lower_all c) as H. unfold digit_lower in H. rewrite Hx in H. by reflect_bools.
Qed.

Lemma hex_value_none c : hex_value c = None -> hex_value (ascii_lower c) = None.
Proof.
  intros Hx. pose proof (digit_lower_all c) as H. unfold digit_lower in H. rewrite Hx in H. by reflect_bools.
Qed.

Lemma two_digits x y : (x < 16)%nat -> (y < 16)%nat ->
  (nat_of_ascii (byte_of_digits x y) / 16 = x /\ nat_of_ascii (byte_of_digits x y) mod 16 = y)%nat.
Proof.
  intros Hx Hy. unfold byte_of_digits. rewrite nat_ascii_embedding by lia. split.
  - symmetry. apply (Nat.div_unique _ _ _ y); lia.
  - symmetry. apply (Nat.mod_unique _ _ x); lia.
Qed.

Lemma encode_length b : String.length (encode_bytes b) = (2 * String.length b)%nat.
Proof. induction b as [|c b IH]; simpl; [done|]. lia. Qed.

Lemma decode_encode b : decode_bytes (encode_bytes b) = Some b.
Proof.
  induction b as [|c b IH]; [done|]. cbn [encode_bytes decode_bytes].
  destruct (hex_digits_value c) as (-> & -> & Hc). cbn [mbind option_bind]. rewrite IH. cbn [mbind option_bind].
  by rewrite Hc.
Qed.

Lemma decode_facts n s : (String.length s < n)%nat ->
  (forall b, decode_bytes s = Some b -> to_ascii_lowercase s = encode_bytes b) /\
  decode_bytes (to_ascii_lowercase s) = decode_bytes s.
Proof.
  revert s. induction n as [|n IH]; intros s Hn; [lia|]. destruct s as [|a [|b s]]; simpl.
  - split; [|done]. by intros ? [= <-].
  - done.
  - simpl in Hn. destruct (IH s ltac:(lia)) as [IH1 IH2].
    destruct (hex_value a) as [x|] eqn:Ea; simpl; [|by rewrite (hex_value_none _ Ea)].
    destruct (hex_value_lower _ _ Ea) as (La & Hx & ->). simpl.
    destruct (hex_value b) as [y|] eqn:Eb; simpl; [|by rewrite (hex_value_none _ Eb)].
    destruct (hex_value_lower _ _ Eb) as (Lb & Hy & ->). simpl. rewrite IH2.
    split; [|done]. intros c Hc. destruct (decode_bytes s) as [r|]; [|done]. cbn [mbind option_bind] in Hc.
    injection Hc as <-. cbn [encode_bytes].
    destruct (two_digits x y Hx Hy) as [-> ->]. rewrite La, Lb. by rewrite (IH1 r).
Qed.

#[export, refine] Instance bytes_hex : Hex := { hex_encode := encode_bytes; hex_decode := decode_bytes }.
Proof.
  - apply encode_length.
  - apply decode_encode.
  - intros s. by apply (decode_facts (S (String.length s))); lia.
  - intros s. by apply (decode_facts (S (String.length s))); lia.
Defined.

(** A MAC that pads the key and the message to 32 bytes. *)
Fixpoint pad (n : nat) (s : string) : string :=
  match n, s with
  | O, _ => EmptyString
  | S n, EmptyString => String "x" (pad n EmptyString)
  | S n, String c s => String c (pad n s)
  end.

Lemma pad_length n s : String.length (pad n s) = n.
Proof. revert s. induction n as [|n IH]; intros [|c s]; simpl; [done..| |]; by rewrite IH. Qed.

#[export, refine] Instance pad_hmac : Hmac := {
  hmac key data := pad 32 (key +:+ data);
  verify_truncated_left key data tag :=
    bool_decide ((0 < String.length tag <= 32)%nat /\ tag = str_take (String.length tag) (pad 32 (key +:+ data)));
}.
Proof.
  - intros. apply pad_length.
  - intros. apply bool_decide_eq_true.
Defined.

Lemma foreign_id_is_collision_witness :
  parse "k1" (with_tag "k2" "0123456789abcdef") = None /\ mac_message "name" "a" <> mac_message "id" "0123456789abcdef".
Proof.
  destruct (foreign_id_is_collision "k1" "k2" "0123456789abcdef" "a" eq_refl) as [Hc Hm]. split; [|exact Hm].
  destruct (parse "k1" (with_tag "k2" "0123456789abcdef")) eqn:E; [|reflexivity]. exfalso.
  assert (str_take PART (hmac "k2" (mac_message "id" "0123456789abcdef")) =
    str_take PART (hmac "k1" (mac_message "id" "0123456789abcdef"))) as Hs by (apply Hc; by eexists).
  vm_compute in Hs. discriminate Hs.
Defined.

Example parse_upper : parse "k" (from_name "k" "room") = Some (from_name "k" "room").
Proof. vm_compute. reflexivity. Qed.
