(* ===== verification/DurableAlarms.v ===== *)
(** * Durable Object alarms (src/src/durable/alarms.rs)

    The alarm of an object is a row of its file; the index in PostgreSQL says
    when to look. The model follows one object: its row of the index, the
    alarm of its file, and the operations that change them, which hold the
    lock of the object. The step relation interleaves setAlarm with the steps
    of a delivery, and lets every query fail. Times are milliseconds. *)

From stdpp Require Import sorting.
From S2P Require Import Prelude RustStr.

Definition MAX_RETRIES : Z := 6.

(** A row of [durable_object_alarms]. *)
Record row := mkRow { scheduled_at : Z; retry_count : Z; delivering : bool }.

#[export] Instance row_eq_dec : EqDecision row.
Proof. solve_decision. Defined.

Inductive UnderWay : Type := Keep | End_.

(** [lower]: the insert leaves the other columns to their defaults, [fresh]. *)
Definition lower (fresh : Z -> row) (at_ : Z) (index : option row) : option row :=
  match index with
  | None => Some (fresh at_)
  | Some r => Some (mkRow (Z.min (scheduled_at r) at_) (retry_count r) (delivering r))
  end.

Definition follow (fresh : Z -> row) (alarm : option (Z * Z)) (under_way : UnderWay) (index : option row) :
  option row :=
  match alarm with
  | Some (at_, retry) =>
    match index with
    | None => Some (mkRow at_ retry (delivering (fresh at_)))
    | Some r => Some (mkRow at_ retry (delivering r && match under_way with End_ => false | Keep => true end))
    end
  | None => None
  end.

Definition retry_at (now_ms retry : Z) : Z := now_ms + 1000 * 2 ^ Z.min retry MAX_RETRIES.

Inductive Next : Type := Clear | NextKeep (at_ retry : Z).

Definition next (at_ : Z) (current : option Z) (failed_runs : option Z) (now_ms : Z) : Next :=
  match failed_runs, current with
  | failed, Some c =>
    if negb (c =? at_) then NextKeep c 0 else
    match failed with
    | Some f => if f <=? MAX_RETRIES then NextKeep (retry_at now_ms f) f else Clear
    | None => Clear
    end
  | _, None => Clear
  end.

(** [claim] on the whole index: the rows due and not under way, earliest
    first, up to the limit. *)
Abbreviation ObjectRef := (string * string)%type.

Definition earlier (a b : ObjectRef * row) : Prop := scheduled_at a.2 <= scheduled_at b.2.
#[export] Instance earlier_dec a b : Decision (earlier a b).
Proof. unfold earlier. apply _. Defined.

Definition is_due (now_ms : Z) (r : row) : bool := negb (delivering r) && (scheduled_at r <=? now_ms).

Definition due_rows (now_ms : Z) (limit : nat) (table : gmap ObjectRef row) : list (ObjectRef * row) :=
  take limit (merge_sort earlier (List.filter (fun kr => is_due now_ms kr.2) (map_to_list table))).

Definition mark (r : row) : row := mkRow (scheduled_at r) (retry_count r) true.

Definition claim (now_ms : Z) (limit : nat) (table : gmap ObjectRef row) :
  list (ObjectRef * Z) * gmap ObjectRef row :=
  let due := due_rows now_ms limit table in
  (map (fun kr => (kr.1, retry_count kr.2)) due,
   foldl (fun t kr => <[kr.1 := mark kr.2]> t) table due).

(** ** One object *)

Section object.
Variable fresh : Z -> row.

(** [d_*]: where a delivery of the object stands: claimed, with the alarm it
    read from the file, running the handler. *)
Inductive delivery : Type :=
| DClaimed (retry : Z)
| DRead (retry : Z) (alarm : option Z)
| DRunning (retry at_ : Z).

Record state := mkState {
  index : option row; file : option Z; clock : Z; deliveries : list delivery }.

Definition set_index (i : option row) (s : state) : state := mkState i (file s) (clock s) (deliveries s).
Definition set_file (f : option Z) (s : state) : state := mkState (index s) f (clock s) (deliveries s).

(** [set]: its effects in order, each of which can be the last, on an error
    or a crash. A deletion does not lower the index. *)
Definition set_effects (at_ : option Z) : list (state -> state) :=
  match at_ with Some a => [fun s => set_index (lower fresh a (index s)) s] | None => [] end ++
  [set_file at_; fun s => set_index (follow fresh (option_map (fun a => (a, 0)) at_) Keep (index s)) s].

Definition set_prefix (n : nat) (at_ : option Z) (s : state) : state :=
  foldl (fun s f => f s) s (take n (set_effects at_)).

Definition set_alarm (at_ : option Z) (s : state) : state := set_prefix 3 at_ s.

(** [settle]: the index follows and the delivery ends, if the query works. *)
Definition settle (ok : bool) (alarm : option (Z * Z)) (s : state) : state :=
  if ok then set_index (follow fresh alarm End_ (index s)) s else s.

Definition settle_later (ok : bool) (retry : Z) (s : state) : state :=
  settle ok (Some (retry_at (clock s) 0, retry)) s.

(** [clear_alarm] of the file: the alarm goes if it is still [at_]. *)
Definition clear_alarm (at_ : Z) (s : state) : state :=
  if bool_decide (file s = Some at_) then set_file None s else s.

(** The locked end of [deliver], after the handler: [read_ok], [clear_ok] and
    [settle_ok] say whether the calls work. *)
Definition finish (retry at_ : Z) (failed read_ok clear_ok settle_ok : bool) (s : state) : state :=
  let current := if read_ok then file s else Some at_ in
  match next at_ current (if failed then Some (retry + 1) else None) (clock s) with
  | NextKeep a r => settle settle_ok (Some (a, r)) s
  | Clear =>
    if clear_ok then
      let s := clear_alarm at_ s in
      settle settle_ok (option_map (fun a => (a, 0)) (file s)) s
    else settle settle_ok (Some (retry_at (clock s) retry, retry)) s
  end.

Definition end_delivery (i : nat) (s : state) : state :=
  mkState (index s) (file s) (clock s) (delete i (deliveries s)).
Definition set_delivery (i : nat) (d : delivery) (s : state) : state :=
  mkState (index s) (file s) (clock s) (<[i := d]> (deliveries s)).

(** [live]: the namespace exists and has its worker. [racy]: a setAlarm can
    come between the read of the file and the lock of the early end, as the
    code lets it. [calm]: no run fails, is refused or cannot start, and the
    file lets a finished alarm be cleared. *)
Variable live racy calm : bool.

Inductive step : state -> state -> Prop :=
| s_tick s d : 0 <= d -> step s (mkState (index s) (file s) (clock s + d) (deliveries s))
| s_set s at_ n : step s (set_prefix n at_ s)
| s_claim s r : index s = Some r -> is_due (clock s) r = true ->
    step s (mkState (Some (mark r)) (file s) (clock s) (deliveries s ++ [DClaimed (Z.max 0 (retry_count r))]))
| s_cannot_start s i retry ok : calm = false -> deliveries s !! i = Some (DClaimed retry) ->
    step s (end_delivery i (settle_later ok retry s))
| s_gone s i retry ok : live = false -> deliveries s !! i = Some (DClaimed retry) ->
    step s (end_delivery i (settle ok None s))
| s_read s i retry : deliveries s !! i = Some (DClaimed retry) ->
    step s (set_delivery i (DRead retry (file s)) s)
| s_due s i retry a : deliveries s !! i = Some (DRead retry (Some a)) -> a <= clock s ->
    step s (set_delivery i (DRunning retry a) s)
| s_early s i retry later ok : deliveries s !! i = Some (DRead retry later) ->
    (forall a, later = Some a -> clock s < a) -> racy = true \/ later = file s ->
    step s (end_delivery i (settle ok (option_map (fun a => (a, retry)) later) s))
| s_refused s i retry a ok : calm = false -> deliveries s !! i = Some (DRunning retry a) ->
    step s (end_delivery i (settle_later ok retry s))
| s_finish s i retry a failed read_ok clear_ok settle_ok : deliveries s !! i = Some (DRunning retry a) ->
    (calm = true -> failed = false /\ clear_ok = true) ->
    step s (end_delivery i (finish retry a failed read_ok clear_ok settle_ok s)).

Definition init (now_ms : Z) : state := mkState None None now_ms [].

(** A fresh row is at the time it was inserted for, and not under way. *)
Hypothesis fresh_at : forall a, scheduled_at (fresh a) = a.
Hypothesis fresh_idle : forall a, delivering (fresh a) = false.





(** The same without a failed run. *)
Definition early (s : state) : Prop :=
  forall a, file s = Some a -> exists r, index s = Some r /\ scheduled_at r <= a.


Lemma lower_bound a i : exists r, lower fresh a i = Some r /\ scheduled_at r <= a /\
  forall r0, i = Some r0 -> scheduled_at r <= scheduled_at r0.
Proof.
  destruct i as [r|]; simpl; eexists; (split; [done|]); simpl; rewrite ?fresh_at; split; try lia;
    intros r0 ?; simplify_eq; lia.
Qed.

Lemma follow_at a rc u i : exists r, follow fresh (Some (a, rc)) u i = Some r /\ scheduled_at r = a.
Proof. destruct i; simpl; by eexists. Qed.

(** [set] under a bound [b] on how late the index may be. *)
Lemma set_prefix_bound (b : Z -> Z) n at_ s :
  (forall a, a <= b a) ->
  (forall a, file s = Some a -> exists r, index s = Some r /\ scheduled_at r <= b a) ->
  forall a, file (set_prefix n at_ s) = Some a ->
    exists r, index (set_prefix n at_ s) = Some r /\ scheduled_at r <= b a.
Proof.
  intros Hb Hs. unfold set_prefix, set_effects. destruct at_ as [t|].
  - destruct (lower_bound t (index s)) as (r & Hr & Hrt & Hold).
    destruct n as [|[|[|n]]]; simpl; rewrite ?take_nil; simpl; [done|..].
    + intros a Ha. destruct (Hs a Ha) as (r0 & Hr0 & Hle). exists r. split; [done|]. specialize (Hold r0 Hr0). lia.
    + intros a [= <-]. exists r. split; [done|]. specialize (Hb t). lia.
    + intros a [= <-]. destruct (follow_at t 0 Keep (lower fresh t (index s))) as (r' & Hr' & Hat).
      exists r'. split; [done|]. rewrite Hat. apply Hb.
  - destruct n as [|[|n]]; simpl; rewrite ?take_nil; simpl; [done|..]; intros a ?; done.
Qed.









Lemma set_prefix_other n at_ s :
  clock (set_prefix n at_ s) = clock s /\ deliveries (set_prefix n at_ s) = deliveries s.
Proof.
  unfold set_prefix, set_effects. destruct at_; destruct n as [|[|[|n]]]; simpl; rewrite ?take_nil; done.
Qed.



(** The index goes down before the file changes and follows it after: at
    every point at which a setAlarm or a deleteAlarm can stop, the index is
    no later than the alarm of the file, if it was not before; when it runs
    to its end the index is exactly the alarm, with no failed runs, and a
    delivery under way stays marked. *)
Theorem set_alarm_never_late at_ s :
  early s ->
  (forall n, early (set_prefix n at_ s)) /\
  file (set_alarm at_ s) = at_ /\
  match at_, index (set_alarm at_ s) with
  | Some a, Some r => scheduled_at r = a /\ retry_count r = 0 /\
      delivering r = match index s with Some r0 => delivering r0 | None => false end
  | None, None => True
  | _, _ => False
  end.
Proof.
  intros He. split_and!.
  - intros n a. by apply (set_prefix_bound (fun a => a)).
  - by destruct at_.
  - destruct at_ as [a|]; [|done]. unfold set_alarm, set_prefix. simpl.
    destruct (index s) as [r|]; simpl; rewrite ?andb_true_r, ?fresh_idle; done.
Qed.

(** ** Failed runs *)

(** Runs that all fail, at the given times, with all the queries working:
    the count of failed runs is the one of the row. *)
Fixpoint failing (at_ : Z) (times : list Z) (retry : Z) (s : state) : state :=
  match times with
  | [] => s
  | t :: times =>
    failing at_ times (retry + 1)
      (finish retry at_ true true true true (mkState (index s) (file s) t (deliveries s)))
  end.

Lemma finish_fail retry at_ s r :
  file s = Some at_ -> index s = Some r -> 0 <= retry ->
  finish retry at_ true true true true s =
  if retry + 1 <=? MAX_RETRIES
  then mkState (Some (mkRow (retry_at (clock s) (retry + 1)) (retry + 1) false)) (Some at_) (clock s) (deliveries s)
  else mkState None None (clock s) (deliveries s).
Proof.
  intros Hf Hx Hr. unfold finish, next. rewrite Hf, Z.eqb_refl. simpl negb. cbv iota.
  destruct (retry + 1 <=? MAX_RETRIES).
  - unfold settle, set_index, follow. by rewrite Hx, Hf, andb_false_r.
  - unfold clear_alarm. rewrite bool_decide_true by done. done.
Qed.

Lemma failing_app at_ l k retry s :
  failing at_ (l ++ k) retry s = failing at_ k (retry + Z.of_nat (length l)) (failing at_ l retry s).
Proof.
  revert retry s. induction l as [|t l IH]; intros retry s; [simpl; f_equal; lia|].
  change (failing at_ ((t :: l) ++ k) retry s) with (failing at_ (l ++ k) (retry + 1)
    (finish retry at_ true true true true (mkState (index s) (file s) t (deliveries s)))).
  rewrite IH. cbn [failing length]. f_equal. lia.
Qed.

Lemma failing_keeps at_ times s r :
  file s = Some at_ -> index s = Some r -> Z.of_nat (length times) <= MAX_RETRIES ->
  file (failing at_ times 0 s) = Some at_ /\ is_Some (index (failing at_ times 0 s)).
Proof.
  intros Hf Hx. induction times as [|t times IH] using rev_ind; intros Hn; [by split|].
  rewrite length_app in Hn. simpl in Hn. destruct IH as [Hf' [r' Hx']]; [lia|].
  rewrite failing_app. simpl. rewrite (finish_fail _ _ _ r') by (try done; lia).
  destruct (_ <=? MAX_RETRIES) eqn:E; reflect_bools; [|lia]. split; [done|by eexists].
Qed.

(** A failed alarm runs again 2, 4, 8, 16, 32 and 64 seconds later, and
    is dropped after its seventh failed run: after each of the first six the
    file keeps the alarm and the index waits with the count of failures, not
    under way; after the seventh both are empty. *)
Theorem retries_then_dropped at_ s r times t :
  file s = Some at_ -> index s = Some r ->
  let k := Z.of_nat (length times) + 1 in
  let s' := failing at_ (times ++ [t]) 0 s in
  (k <= MAX_RETRIES -> file s' = Some at_ /\ index s' = Some (mkRow (t + 1000 * 2 ^ k) k false)) /\
  (k = MAX_RETRIES + 1 -> file s' = None /\ index s' = None).
Proof.
  intros Hf Hx k s'. subst s'. rewrite failing_app. cbn [failing]. rewrite Z.add_0_l.
  assert (forall n, n <= MAX_RETRIES -> retry_at t n = t + 1000 * 2 ^ n) as Hretry
    by (intros n Hn; unfold retry_at; by rewrite Z.min_l).
  split; intros Hk; destruct (failing_keeps at_ times s r Hf Hx ltac:(lia)) as [Hf' [r' Hx']];
    rewrite (finish_fail _ _ _ r') by (try done; lia); fold k;
    destruct (Z.leb_spec k MAX_RETRIES); try lia; [|done].
  by rewrite <- Hretry.
Qed.
End object.

(** ** Executions *)

Section executions.
Definition row0 (a : Z) : row := mkRow a 0 false.

Lemma set_alarm_never_late_witness :
  index (set_alarm row0 (Some 500) (init 0)) = Some (mkRow 500 0 false).
Proof.
  pose proof (set_alarm_never_late row0 (fun _ => eq_refl) (fun _ => eq_refl) (Some 500) (init 0)) as H.
  destruct H as (_ & _ & H); [by intros a Ha|]. vm_compute. reflexivity.
Defined.

Lemma retries_then_dropped_witness :
  index (failing row0 100 [100; 2100; 6100] 0 (mkState (Some (mkRow 100 0 true)) (Some 100) 100 [])) =
    Some (mkRow 14100 3 false).
Proof.
  exact (proj2 (proj1 (retries_then_dropped row0 100 (mkState (Some (mkRow 100 0 true)) (Some 100) 100 [])
    (mkRow 100 0 true) [100; 2100] 6100 eq_refl eq_refl) ltac:(vm_compute; discriminate))).
Defined.


(** An alarm can be lost: a delivery reads the file after the alarm was
    deleted, a setAlarm puts a new one in the file and the index, and the
    delivery then takes the lock and settles the index with what it read
    before. The file keeps its alarm, the index has no row for it, and no
    delivery is under way: no claim finds it again. *)
Theorem alarm_lost_by_stale_read :
  exists s a, rtc (step row0 true true false) (init 0) s /\ file s = Some a /\ a <= clock s /\
    index s = None /\ deliveries s = [].
Proof.
  eexists _, 200. split.
  - eapply rtc_l; [apply (s_set _ _ _ _ _ (Some 100) 3)|]. eapply rtc_l; [apply (s_tick _ _ _ _ _ 100); lia|].
    eapply rtc_l; [eapply s_claim; reflexivity|]. eapply rtc_l; [apply (s_set _ _ _ _ _ None 3)|].
    eapply rtc_l; [apply (s_read _ _ _ _ _ 0%nat 0); reflexivity|].
    eapply rtc_l; [apply (s_set _ _ _ _ _ (Some 200) 3)|].
    eapply rtc_l; [apply (s_early _ _ _ _ _ 0%nat 0 None true); [reflexivity|done|by left]|].
    eapply rtc_l; [apply (s_tick _ _ _ _ _ 1000); lia|]. apply rtc_refl.
  - vm_compute. split_and!; try reflexivity. discriminate.
Qed.

(** A state whose row is marked with no delivery under way. *)
Definition stuck (s : state) : Prop :=
  deliveries s = [] /\ exists r, index s = Some r /\ delivering r = true.

Lemma stuck_set a n s : stuck s -> stuck (set_prefix row0 n (Some a) s).
Proof.
  intros [Hd (r & Hr & Hm)]. split; [by rewrite (proj2 (set_prefix_other _ _ _ _))|].
  unfold set_prefix. destruct n as [|[|[|n]]]; simpl; rewrite ?take_nil; simpl; rewrite ?Hr; simpl;
    eexists; (split; [done|]); simpl; by rewrite ?Hm.
Qed.

(** A delivery whose last query fails leaves its row marked as under way,
    and nothing but a restart of the runner or a deleteAlarm clears the mark:
    the alarm that is due is not claimed, nor any alarm set after it,
    whatever setAlarm calls and time follow. *)
Theorem failed_settle_stops_alarms :
  exists s, rtc (step row0 true false false) (init 0) s /\ file s = Some 100 /\ 100 <= clock s /\ stuck s /\
    forall s', rtc (fun x y => (exists a n, y = set_prefix row0 n (Some a) x) \/
                               (exists d, 0 <= d /\ y = mkState (index x) (file x) (clock x + d) (deliveries x))) s s' ->
      forall r t, index s' = Some r -> is_due t r = false.
Proof.
  eexists. split; [|split_and!].
  - eapply rtc_l; [apply (s_set _ _ _ _ _ (Some 100) 3)|]. eapply rtc_l; [apply (s_tick _ _ _ _ _ 100); lia|].
    eapply rtc_l; [eapply s_claim; reflexivity|].
    eapply rtc_l; [apply (s_cannot_start _ _ _ _ _ 0%nat 0 false); reflexivity|]. apply rtc_refl.
  - reflexivity.
  - vm_compute. discriminate.
  - split; [reflexivity|]. eexists. split; [reflexivity|reflexivity].
  - intros s' Hs. apply (rtc_invariant _ stuck) in Hs as [_ (r0 & Hr0 & Hm)].
    + intros r t Hr. simplify_eq. unfold is_due. by rewrite Hm.
    + intros x y Hx [(a & n & ->)|(d & _ & ->)]; [by apply stuck_set|done].
    + split; [reflexivity|]. eexists. split; [reflexivity|reflexivity].
Qed.
End executions.

(** ** Claims *)

#[export] Instance earlier_trans : Transitive earlier.
Proof. intros a b c. unfold earlier. lia. Qed.
#[export] Instance earlier_total : Total earlier.
Proof. intros a b. unfold earlier. lia. Qed.

Lemma due_rows_elem now limit table k r :
  (k, r) ∈ due_rows now limit table -> table !! k = Some r /\ is_due now r = true.
Proof.
  unfold due_rows. intros H. apply subseteq_take in H. rewrite merge_sort_Permutation in H.
  apply list_elem_of_In, filter_In in H as [H Hd]. split; [|done].
  by apply elem_of_map_to_list, list_elem_of_In.
Qed.

Lemma due_rows_keys now limit table : NoDup (due_rows now limit table).*1.
Proof.
  unfold due_rows. eapply sublist_NoDup; [|apply fmap_sublist, sublist_take].
  rewrite merge_sort_Permutation.
  eapply sublist_NoDup; [apply (NoDup_fst_map_to_list table)|]. apply fmap_sublist.
  induction (map_to_list table) as [|x l IH]; simpl; [done|]. destruct (is_due now x.2); by constructor.
Qed.

Lemma mark_all (due : list (ObjectRef * row)) (table : gmap ObjectRef row) k :
  NoDup due.*1 ->
  foldl (fun t kr => <[kr.1 := mark kr.2]> t) table due !! k =
  match list_find (fun kr => kr.1 = k) due with
  | Some (_, kr) => Some (mark kr.2)
  | None => table !! k
  end.
Proof.
  revert table. induction due as [|[j r] due IH]; intros table Hnd; simpl; [done|].
  apply NoDup_cons in Hnd as [Hj Hnd]. rewrite IH by done.
  destruct (decide (j = k)) as [->|Hne].
  - destruct (list_find _ due) as [[n [k' r']]|] eqn:E; simpl; [|by rewrite lookup_insert_eq].
    apply list_find_Some in E as (Hn & Hk & _). simpl in Hk. subst. exfalso. apply Hj.
    apply list_elem_of_fmap. exists (k, r'). split; [done|]. by eapply list_elem_of_lookup_2.
  - destruct (list_find _ due) as [[n kr]|]; simpl; [done|]. by rewrite lookup_insert_ne.
Qed.

(** A due row that is left out: the batch is full of rows no later. *)
Lemma left_out now limit table k r :
  table !! k = Some r -> is_due now r = true -> (k, r) ∉ due_rows now limit table ->
  length (due_rows now limit table) = limit /\
  forall j q, (j, q) ∈ due_rows now limit table -> scheduled_at q <= scheduled_at r.
Proof.
  intros Hk Hd Hn. unfold due_rows in *. set (rows := List.filter _ _) in *. set (l := merge_sort earlier rows) in *.
  assert ((k, r) ∈ l) as Hl.
  { subst l. rewrite merge_sort_Permutation. apply list_elem_of_In, filter_In.
    split; [by apply list_elem_of_In, elem_of_map_to_list|done]. }
  assert (StronglySorted earlier l) as Hs by (apply StronglySorted_merge_sort; apply _).
  rewrite <- (take_drop limit l) in Hl, Hs. apply elem_of_app in Hl as [?|Hl]; [done|].
  apply StronglySorted_app in Hs as (Hs & _ & _). split.
  - rewrite length_take. assert (0 < length (drop limit l))%nat as Hpos by (destruct (drop limit l); [set_solver|simpl; lia]).
    rewrite length_drop in Hpos. lia.
  - intros j q Hj. apply (Hs (j, q) (k, r) Hj Hl).
Qed.

(** A claim takes each due alarm once: what it answers was due and not
    under way, at most [limit] of them, each object once, with its failed
    runs; exactly these rows are marked and no other row changes; a due row
    it leaves is no earlier than one it takes, and is left only when the
    limit is reached; and until a row is settled no later claim takes it
    again. *)
Theorem claim_takes_due (now : Z) (limit : nat) (table : gmap ObjectRef row) :
  let '(claimed, table') := claim now limit table in
  (length claimed <= limit)%nat /\ NoDup claimed.*1 /\
  (forall k rc, (k, rc) ∈ claimed -> exists r, table !! k = Some r /\ is_due now r = true /\ retry_count r = rc /\
     table' !! k = Some (mark r)) /\
  (forall k, k ∉ claimed.*1 -> table' !! k = table !! k) /\
  (forall k r j rc, table !! k = Some r -> is_due now r = true -> k ∉ claimed.*1 -> (j, rc) ∈ claimed ->
     length claimed = limit /\ exists q, table !! j = Some q /\ scheduled_at q <= scheduled_at r) /\
  (forall later limit' k rc, (k, rc) ∈ claimed -> k ∉ (claim later limit' table').1.*1).
Proof.
  unfold claim. set (due := due_rows now limit table). set (table' := foldl _ table due).
  pose proof (due_rows_keys now limit table) as Hnd. fold due in Hnd.
  assert ((map (fun kr : ObjectRef * row => (kr.1, retry_count kr.2)) due).*1 = due.*1) as Hkeys.
  { rewrite <- list_fmap_compose. by apply list_fmap_ext. }
  assert (forall k r, (k, r) ∈ due -> table' !! k = Some (mark r)) as Hmarked.
  { intros k r Hk. subst table'. rewrite mark_all by done.
    destruct (list_find (fun kr : ObjectRef * row => kr.1 = k) due) as [[n [k' r']]|] eqn:E.
    - apply list_find_Some in E as (Hn & Hk' & _). simpl in *. subst.
      apply list_elem_of_lookup_2 in Hn. destruct (due_rows_elem _ _ _ _ _ Hn) as [H1 _].
      destruct (due_rows_elem _ _ _ _ _ Hk) as [H2 _]. congruence.
    - apply list_find_None in E. rewrite Forall_forall in E. by specialize (E _ Hk). }
  assert (forall k rc, (k, rc) ∈ map (fun kr : ObjectRef * row => (kr.1, retry_count kr.2)) due ->
    exists r, (k, r) ∈ due /\ retry_count r = rc) as Hback.
  { intros k rc Hk. apply list_elem_of_fmap in Hk as ([k' r] & Heq & Hin). simplify_eq. by exists r. }
  cbv beta iota zeta. fold table'. split_and!.
  - rewrite length_map. unfold due, due_rows. rewrite length_take. lia.
  - by rewrite Hkeys.
  - intros k rc Hk. destruct (Hback _ _ Hk) as (r & Hr & Hrc). destruct (due_rows_elem _ _ _ _ _ Hr) as [H1 H2].
    exists r. split_and!; try done. by apply Hmarked.
  - intros k Hk. rewrite Hkeys in Hk. subst table'. rewrite mark_all by done.
    destruct (list_find (fun kr : ObjectRef * row => kr.1 = k) due) as [[n [k' r']]|] eqn:E; [|done].
    apply list_find_Some in E as (Hn & Hk' & _). simpl in *. subst. exfalso. apply Hk.
    apply list_elem_of_fmap. exists (k, r'). split; [done|]. by eapply list_elem_of_lookup_2.
  - intros k r j rc Hk Hdue Hnk Hj. rewrite Hkeys in Hnk. destruct (Hback _ _ Hj) as (q & Hq & _).
    destruct (left_out now limit table k r Hk Hdue) as [Hl Hle]; [fold due|]. 
    { intros Hin. apply Hnk. apply list_elem_of_fmap. by exists (k, r). }
    rewrite length_map. split; [done|]. exists q. split; [by apply due_rows_elem in Hq as [? _]|]. by apply (Hle j).
  - intros later limit' k rc Hk Hin. destruct (Hback _ _ Hk) as (r & Hr & _).
    apply list_elem_of_fmap in Hin as ([k' rc'] & -> & Hin). simpl in *.
    apply list_elem_of_fmap in Hin as ([k2 r2] & Heq & Hin). simplify_eq/=.
    apply due_rows_elem in Hin as [H1 H2]. rewrite (Hmarked _ _ Hr) in H1. by simplify_eq.
Qed.
