(* ===== verification/D1Keys.v ===== *)
(** * The names of database files (src/src/d1/mod.rs)

    A D1 database is named by its UUID, the storage of a Durable Object by
    [objects/<namespace>/<object>]. The names are paths under the data
    directory and parts of the keys of snapshots. *)

From S2P Require Import Prelude RustStr Extern.

Definition OBJECTS : string := "objects".
Definition FILES : list string := ["sqlite"; "sqlite-wal"; "sqlite-shm"].

Section keys.
Context {U : Type} `{Uuid U}.

Definition object_key (namespace_id object_id : string) : option string :=
  namespace ← uuid_parse namespace_id;
  let hex := (str_len object_id =? 64) && all_bytes is_lower_hex object_id in
  if hex then Some (OBJECTS +:+ "/" +:+ uuid_string namespace +:+ "/" +:+ object_id) else None.

Definition parse_object_key (key : string) : option (string * string) :=
  rest ← strip_prefix OBJECTS key;
  rest ← strip_prefix "/" rest;
  split_once "/" rest.

(** The file name of a database under its key. *)
Definition file_of (key suffix : string) : string := key +:+ "." +:+ suffix.

(** ** Lemmas *)

Lemma uuid_no_char u c : is_uuid_char c = false -> contains_char c (uuid_string u) = false.
Proof. apply all_bytes_contains, uuid_string_chars. Qed.

Lemma hex_no_char s c : all_bytes is_lower_hex s = true -> is_lower_hex c = false ->
  contains_char c s = false.
Proof. apply all_bytes_contains. Qed.

Lemma object_key_Some ns id key : object_key ns id = Some key <->
  exists u, uuid_parse ns = Some u /\ str_len id = 64 /\ all_bytes is_lower_hex id = true /\
    key = OBJECTS +:+ "/" +:+ uuid_string u +:+ "/" +:+ id.
Proof.
  unfold object_key. destruct (uuid_parse ns) as [u|]; simpl; [|naive_solver].
  destruct (Z.eqb_spec (str_len id) 64); simpl; [|naive_solver].
  destruct (all_bytes is_lower_hex id); naive_solver.
Qed.

Lemma parse_object_key_Some key ns id : parse_object_key key = Some (ns, id) <->
  key = OBJECTS +:+ "/" +:+ ns +:+ "/" +:+ id /\ contains_char "/" ns = false.
Proof.
  unfold parse_object_key. split.
  - intros (r & Hr & Hb)%option_Some_bind. apply option_Some_bind in Hb as (r' & Hr' & Hs).
    apply strip_prefix_Some in Hr as ->. apply strip_prefix_Some in Hr' as ->.
    apply split_once_Some in Hs as [-> Hc]. done.
  - intros [-> Hc]. rewrite (proj2 (strip_prefix_Some _ _ _) eq_refl). cbn [mbind option_bind].
    rewrite (proj2 (strip_prefix_Some _ _ _) eq_refl). cbn [mbind option_bind].
    by apply split_once_Some.
Qed.

Lemma parse_database_key u : parse_object_key (uuid_string u) = None.
Proof.
  destruct (parse_object_key (uuid_string u)) as [[ns id]|] eqn:E; [|done].
  apply parse_object_key_Some in E as [E _]. pose proof (uuid_no_char u "/" eq_refl) as Hc.
  rewrite E, !contains_char_app in Hc. done.
Qed.

(** ** Properties *)

(** The key of the storage of an object stays in the directory of its
    namespace: it is three path components, none of them a dot name, whatever
    the caller gives for the ids. The key names its namespace and its object,
    so that no two objects share a file, and a D1 database is never taken for
    an object. *)
Theorem object_key_safe ns id key u :
  object_key ns id = Some key ->
  (exists n, split "/" key = [OBJECTS; n; id] /\ contains_char "." key = false /\
     parse_object_key key = Some (n, id)) /\
  (forall ns' id', object_key ns' id' = Some key -> id' = id /\ uuid_parse ns' = uuid_parse ns) /\
  object_key ns id <> Some (uuid_string u) /\ parse_object_key (uuid_string u) = None.
Proof.
  intros Hk. pose proof Hk as (n & Hn & Hl & Hx & ->)%object_key_Some.
  assert (Hs : contains_char "/" (uuid_string n) = false) by by apply uuid_no_char.
  split_and!.
  - exists (uuid_string n). split_and!.
    + change (OBJECTS +:+ "/" +:+ ?x) with (OBJECTS +:+ String "/" x).
      rewrite split_app by done. change ("/" +:+ id) with (String "/" id).
      rewrite split_app by done. rewrite split_none; [done|]. by apply (hex_no_char id).
    + rewrite !contains_char_app, uuid_no_char, (hex_no_char id) by done. done.
    + by apply parse_object_key_Some.
  - intros ns' id' (n' & Hn' & _ & _ & E)%object_key_Some.
    assert (Hp : parse_object_key (OBJECTS +:+ "/" +:+ uuid_string n +:+ "/" +:+ id) = Some (uuid_string n', id')).
    { apply parse_object_key_Some. split; [done|]. by apply uuid_no_char. }
    rewrite (proj2 (parse_object_key_Some _ _ _) (conj eq_refl Hs)) in Hp. simplify_eq. split; [done|].
    rewrite Hn, Hn', <- uuid_parse_string, <- (uuid_parse_string n). congruence.
  - rewrite Hk. intros E. simplify_eq. pose proof (uuid_no_char u "/" eq_refl) as Hc.
    rewrite <- E, !contains_char_app in Hc. done.
  - apply parse_database_key.
Qed.

End keys.

Definition ex_ns : string := "0190b7a2-0000-7000-8000-00000000000f".
Definition ex_object : string := "00112233445566778899aabbccddeeff00112233445566778899aabbccddeeff".
Definition ex_uuid : text_uuid := exist _ ex_ns (eq_refl true).

Lemma object_key_safe_witness :
  object_key ex_ns ex_object = Some ("objects/" +:+ ex_ns +:+ "/" +:+ ex_object) /\
  parse_object_key ex_ns = None.
Proof.
  assert (H : object_key ex_ns ex_object = Some ("objects/" +:+ ex_ns +:+ "/" +:+ ex_object)) by (vm_compute; done).
  split; [exact H|]. exact (proj2 (proj2 (proj2 (object_key_safe _ _ _ ex_uuid H)))).
Defined.

Example object_key_refuses : object_key (U := text_uuid) ex_ns "../../etc/passwd" = None.
Proof. vm_compute. done. Qed.
