(* ===== verification/D1Archive.v ===== *)
(** * Snapshots of databases (src/src/d1/archive.rs)

    A snapshot is uploaded to an object store, checked, then recorded in an
    index; a restore reads the newest recorded one. The two traits of the
    source are classes: what the store and the index promise, with the errors
    they can give at any call. [save], [fetch_latest] and [forget_all] are
    proved against the classes; [PgIndex] is an instance of the index. *)

From stdpp Require Import sorting.
From S2P Require Import Prelude RustStr Extern Postgres Url D1Keys.

Record Snapshot := mkSnapshot {
  database_id : string; seq : Z; epoch : Z; key : string; checksum : string; size : Z }.

#[export] Instance snapshot_eq_dec : EqDecision Snapshot.
Proof. solve_decision. Defined.

(** The rows [forget] deletes. *)
Definition is_row (id : string) (n : Z) (r : Snapshot) : Prop := database_id r = id /\ seq r = n.

#[export] Instance is_row_dec id n r : Decision (is_row id n r).
Proof. unfold is_row. apply _. Defined.

(** A name without slashes, or the name of the storage of an object. *)
Definition simple_id (d : string) : Prop :=
  contains_char "/" d = false \/
  exists ns o, parse_object_key d = Some (ns, o) /\ contains_char "/" o = false.

(** ** The traits

    [objects]: what the store holds, by key. The keys a store takes as they
    are ([storable]) include the plain paths. A call that fails can have done
    its work. *)
Class ObjectStore (St : Type) := {
  objects : St -> gmap string string;
  store_put : string -> string -> SE St string unit;
  store_get : string -> SE St string (option string);
  store_size : string -> SE St string (option Z);
  store_delete : string -> SE St string unit;
  storable : string -> Prop;
  plain_storable k : plain_path k -> storable k;
  put_ok k b s s' : storable k -> store_put k b s = (Ok tt, s') -> objects s' !! k = Some b;
  put_other k b s r s' j : storable k -> store_put k b s = (r, s') -> j <> k -> objects s' !! j = objects s !! j;
  get_same k s r s' : storable k -> store_get k s = (r, s') -> objects s' = objects s;
  get_ok k s v s' : storable k -> store_get k s = (Ok v, s') -> v = objects s !! k;
  size_same k s r s' : storable k -> store_size k s = (r, s') -> objects s' = objects s;
  size_ok k s v s' : storable k -> store_size k s = (Ok v, s') ->
    (forall b, objects s !! k = Some b -> str_len b <= U64_MAX) -> v = str_len <$> objects s !! k;
  delete_other k s r s' j : storable k -> store_delete k s = (r, s') -> j <> k -> objects s' !! j = objects s !! j;
}.

(** [rows]: what the index holds, in any order. *)
Class Index (Ix : Type) := {
  rows : Ix -> list Snapshot;
  index_epoch : Ix -> Z;
  record : Snapshot -> SE Ix string unit;
  list_of : string -> SE Ix string (list Snapshot);
  forget : string -> Z -> SE Ix string unit;
  (** The ids of databases, which all calls are made with. *)
  named : string -> Prop;
  named_simple d : named d -> simple_id d;
  named_plain d : named d -> plain_path d;
  record_ok r x x' : named (database_id r) -> 0 <= size r < 2 ^ 64 ->
    record r x = (Ok tt, x') -> rows x' ≡ₚ r :: rows x;
  record_err r x e x' : named (database_id r) -> 0 <= size r < 2 ^ 64 ->
    record r x = (Err e, x') -> rows x' ≡ₚ rows x \/ rows x' ≡ₚ r :: rows x;
  list_same d x r x' : list_of d x = (r, x') -> rows x' = rows x;
  list_ok d x l x' : named d -> list_of d x = (Ok l, x') ->
    l ≡ₚ filter (fun r => database_id r = d) (rows x) /\ StronglySorted (fun a b => seq b <= seq a) l;
  forget_ok d n x x' : named d -> forget d n x = (Ok tt, x') ->
    rows x' ≡ₚ filter (fun r => ~ is_row d n r) (rows x);
  forget_err d n x e x' : named d -> forget d n x = (Err e, x') ->
    rows x' ≡ₚ rows x \/ rows x' ≡ₚ filter (fun r => ~ is_row d n r) (rows x);
}.

Definition snapshot_key (database_id : string) (epoch seq : Z) : string :=
  match parse_object_key database_id with
  | Some (namespace, object) =>
    "do/" +:+ namespace +:+ "/" +:+ object +:+ "/" +:+ show_Z epoch +:+ "/" +:+ show_Z seq +:+ ".sqlite.zst"
  | None => "d1/" +:+ database_id +:+ "/" +:+ show_Z epoch +:+ "/" +:+ show_Z seq +:+ ".sqlite.zst"
  end.

(** [{:?}] of the stored size. *)
Definition debug (o : option Z) : string :=
  match o with Some n => "Some(" +:+ show_Z n +:+ ")" | None => "None" end.

(** ** [Archive]

    [sha]: the hex of the SHA-256 of some bytes. [keep]: the snapshots kept
    per database. *)
Section archive.
Context {St Ix : Type} {store : ObjectStore St} {index : Index Ix} (sha : string -> string) (keep : nat).

Fixpoint drop_old (old : list Snapshot) : SE (St * Ix) string unit :=
  match old with
  | [] => mret tt
  | r :: old =>
    _ ← on_snd (forget (database_id r) (seq r));
    _ ← on_fst (store_delete (key r));
    drop_old old
  end.

(** [now]: the milliseconds of the clock. The errors of the cleanup are
    logged only. *)
Definition save (now : Z) (id bytes : string) : SE (St * Ix) string Snapshot :=
  e ← gets (fun a : St * Ix => index_epoch a.2);
  let k := snapshot_key id e now in
  let row := mkSnapshot id now e k (sha bytes) (str_len bytes) in
  _ ← on_fst (store_put k bytes);
  stored ← on_fst (store_size k);
  _ ← (if bool_decide (stored = Some (str_len bytes)) then mret tt
       else throw (k +:+ ": stored size " +:+ debug stored +:+ ", expected " +:+ show_Z (str_len bytes)));
  _ ← on_snd (record row);
  _ ← quietly (snapshots ← on_snd (list_of id); drop_old (drop keep snapshots));
  mret row.

Definition fetch_latest (id : string) : SE (St * Ix) string (option string) :=
  snapshots ← on_snd (list_of id);
  match snapshots with
  | [] => mret None
  | latest :: _ =>
    found ← on_fst (store_get (key latest));
    match found with
    | None => throw (key latest +:+ ": missing from the archive")
    | Some bytes =>
      if String.eqb (sha bytes) (checksum latest) then mret (Some bytes)
      else throw (key latest +:+ ": checksum mismatch")
    end
  end.

Definition forget_all (id : string) : SE (St * Ix) string unit :=
  snapshots ← on_snd (list_of id); drop_old snapshots.

(** ** What the archive holds

    The reference: a database has at most one current copy, the bytes of its
    newest recorded snapshot. *)

Fixpoint newest (l : list Snapshot) : option Snapshot :=
  match l with
  | [] => None
  | r :: l => match newest l with
              | Some m => if seq r <? seq m then Some m else Some r
              | None => Some r
              end
  end.

Definition newest_of (id : string) (l : list Snapshot) : option Snapshot :=
  newest (filter (fun r => database_id r = id) l).

Definition current (a : St * Ix) (id : string) : option string :=
  r ← newest_of id (rows a.2); objects a.1 !! key r.

(** Each recorded snapshot is in the store, whole, under its own key. *)
Definition row_ok (o : gmap string string) (r : Snapshot) : Prop :=
  named (database_id r) /\ key r = snapshot_key (database_id r) (epoch r) (seq r) /\
  exists bytes, o !! key r = Some bytes /\ sha bytes = checksum r /\ str_len bytes = size r.

Definition row_id (r : Snapshot) : string * Z := (database_id r, seq r).

Definition archive_ok (a : St * Ix) : Prop :=
  Forall (row_ok (objects a.1)) (rows a.2) /\ NoDup (row_id <$> rows a.2).

(** ** Keys *)

Lemma no_slash_parse d : contains_char "/" d = false -> parse_object_key d = None.
Proof.
  intros Hd. destruct (parse_object_key d) as [[ns o]|] eqn:E; [|done].
  apply parse_object_key_Some in E as [-> _]. by rewrite !contains_char_app in Hd.
Qed.

Definition key_parts (d : string) : list string :=
  match parse_object_key d with Some (ns, o) => ["do"; ns; o] | None => ["d1"; d] end.

Lemma show_Z_no_slash z : contains_char "/" (show_Z z) = false.
Proof. by apply (all_bytes_contains is_decimal); [apply show_Z_decimal|]. Qed.

Lemma snapshot_key_split d e n : simple_id d ->
  split "/" (snapshot_key d e n) = key_parts d ++ [show_Z e; show_Z n +:+ ".sqlite.zst"].
Proof.
  assert (Hl : contains_char "/" (show_Z n +:+ ".sqlite.zst") = false)
    by by rewrite contains_char_app, show_Z_no_slash.
  unfold snapshot_key, key_parts. intros [Hd|(ns & o & Hp & Ho)].
  - rewrite no_slash_parse by done.
    change ("d1/" +:+ ?x) with ("d1" +:+ String "/" x). rewrite split_app by done.
    change ("/" +:+ ?x) with (String "/" x). rewrite split_app by done.
    change ("/" +:+ ?x) with (String "/" x). rewrite split_app by apply show_Z_no_slash.
    by rewrite split_none.
  - rewrite Hp. apply parse_object_key_Some in Hp as [_ Hn].
    change ("do/" +:+ ?x) with ("do" +:+ String "/" x). rewrite split_app by done.
    change ("/" +:+ ?x) with (String "/" x). rewrite split_app by done.
    change ("/" +:+ ?x) with (String "/" x). rewrite split_app by done.
    change ("/" +:+ ?x) with (String "/" x). rewrite split_app by apply show_Z_no_slash.
    by rewrite split_none.
Qed.

Lemma snapshot_key_inj d d' e e' n n' : simple_id d -> simple_id d' ->
  snapshot_key d e n = snapshot_key d' e' n' -> d = d' /\ e = e' /\ n = n'.
Proof.
  intros Hd Hd' E. apply (f_equal (split "/")) in E. rewrite !snapshot_key_split in E by done.
  apply app_inj_2 in E as [Ek E]; [|done]. simplify_eq. split_and!.
  - unfold key_parts in Ek. destruct (parse_object_key d) as [[ns o]|] eqn:E1,
      (parse_object_key d') as [[ns' o']|] eqn:E2; simplify_eq; [|done].
    apply parse_object_key_Some in E1 as [-> _]. by apply parse_object_key_Some in E2 as [-> _].
  - by apply show_Z_inj.
  - apply show_Z_inj. by eapply app_inj_r.
Qed.

Lemma dots_cons c s : c <> "."%char -> contains_str ".." (String c s) = contains_str ".." s.
Proof.
  intros Hc. apply eq_true_iff_eq. rewrite !contains_str_spec. split; intros (a & b & E).
  - destruct a as [|x a]; simpl in E; simplify_eq. by exists a, b.
  - exists (String c a), b. by rewrite E.
Qed.

Lemma dots_decimal d s : all_bytes is_decimal d = true -> contains_str ".." (d +:+ s) = contains_str ".." s.
Proof.
  induction d as [|c d IH]; [done|]. simpl. intros [Hc Hd]%andb_prop. rewrite dots_cons; [by apply IH|]. by intros ->.
Qed.

Lemma decimal_unreserved c : is_decimal c = true -> is_unreserved c = true.
Proof. by destruct c as [[] [] [] [] [] [] [] []]. Qed.

Lemma show_Z_plain z s : all_bytes is_unreserved s = true -> contains_str ".." s = false ->
  plain_segment (show_Z z +:+ s) = true.
Proof.
  intros Hs Hd. pose proof (show_Z_decimal z) as Hz. pose proof (show_Z_not_nil z) as Hn.
  apply plain_segment_spec. split_and!.
  - by rewrite all_bytes_app, (all_bytes_impl is_decimal), Hs by (done || apply decimal_unreserved).
  - by destruct (show_Z z).
  - destruct (show_Z z) as [|c t]; [done|]. simpl in Hz |- *. intros E. by simplify_eq.
  - by rewrite dots_decimal.
Qed.

Lemma snapshot_key_plain d e n : simple_id d -> plain_path d -> plain_path (snapshot_key d e n).
Proof.
  intros Hs Hd. unfold plain_path. rewrite snapshot_key_split by done. apply Forall_app. split.
  - unfold key_parts. destruct Hs as [Hn|(ns & o & Hp & Ho)].
    + rewrite no_slash_parse by done. unfold plain_path in Hd. rewrite split_none in Hd by done. by constructor.
    + rewrite Hp. apply parse_object_key_Some in Hp as [-> Hn]. unfold plain_path in Hd.
      rewrite !split_slash_app, (split_none "/" ns), (split_none "/" o) in Hd by done.
      apply Forall_cons in Hd as [_ Hd]. by constructor.
  - repeat constructor; [|by apply show_Z_plain].
    pose proof (show_Z_plain e "" eq_refl eq_refl) as H. by rewrite app_empty_r in H.
Qed.

(** ** The newest row *)

Lemma newest_spec l : match newest l with
  | Some m => m ∈ l /\ Forall (fun r => seq r <= seq m) l
  | None => l = []
  end.
Proof.
  induction l as [|r l IH]; simpl; [done|]. destruct (newest l) as [m|].
  - destruct IH as [Hm Hl]. destruct (Z.ltb_spec (seq r) (seq m)); split; try set_solver.
    + constructor; [lia|done].
    + constructor; [lia|]. eapply Forall_impl; [done|]. simpl. lia.
  - subst. split; [set_solver|]. constructor; [lia|constructor].
Qed.

Lemma newest_of_spec d l m : newest_of d l = Some m ->
  m ∈ l /\ database_id m = d /\ forall r, r ∈ l -> database_id r = d -> seq r <= seq m.
Proof.
  unfold newest_of. intros E. pose proof (newest_spec (filter (fun r => database_id r = d) l)) as H.
  rewrite E in H. destruct H as [Hm Hl]. apply list_elem_of_filter in Hm as [Hd Hm].
  split_and!; [done..|]. intros r Hr Hrd. rewrite Forall_forall in Hl. apply Hl.
  by apply list_elem_of_filter.
Qed.

Lemma newest_of_None d l : newest_of d l = None <-> forall r, r ∈ l -> database_id r <> d.
Proof.
  unfold newest_of. pose proof (newest_spec (filter (fun r => database_id r = d) l)) as H.
  destruct (newest _) as [m|]; split; try done.
  - intros Hn. destruct H as [Hm _]. apply list_elem_of_filter in Hm as [Hd Hm]. by apply Hn in Hm.
  - intros _ r Hr Hd. assert (r ∈ filter (fun r => database_id r = d) l) as Hf
      by by apply list_elem_of_filter. rewrite H in Hf. by apply elem_of_nil in Hf.
Qed.

(** Rows that no other row shares its database and number with are found. *)
Lemma row_id_inj l a b : NoDup (row_id <$> l) -> a ∈ l -> b ∈ l ->
  database_id a = database_id b -> seq a = seq b -> a = b.
Proof.
  intros Hn [i Hi]%list_elem_of_lookup [j Hj]%list_elem_of_lookup Hd Hs.
  assert (i = j) as <-; [|congruence]. eapply (NoDup_lookup _ i j (row_id a) Hn);
    rewrite list_lookup_fmap; [by rewrite Hi|rewrite Hj]. simpl. unfold row_id. congruence.
Qed.

Lemma newest_of_unique d l m : NoDup (row_id <$> l) -> m ∈ l -> database_id m = d ->
  (forall r, r ∈ l -> database_id r = d -> seq r <= seq m) -> newest_of d l = Some m.
Proof.
  intros Hn Hm Hd Hmax. destruct (newest_of d l) as [m'|] eqn:E.
  - apply newest_of_spec in E as (Hm' & Hd' & Hmax'). f_equal. apply (row_id_inj l); try done; [congruence|].
    specialize (Hmax _ Hm' Hd'). specialize (Hmax' _ Hm Hd). lia.
  - destruct (proj1 (newest_of_None d l) E m Hm Hd).
Qed.

(** ** The operations keep the archive whole *)

Definition kept (a a' : St * Ix) : Prop :=
  forall x, x ∈ rows a'.2 -> x ∈ rows a.2 /\ objects a'.1 !! key x = objects a.1 !! key x.

Lemma archive_ok_kept a a' : archive_ok a -> kept a a' -> NoDup (row_id <$> rows a'.2) -> archive_ok a'.
Proof.
  intros [Hr Hn] Hk Hn'. split; [|done]. rewrite Forall_forall in *. intros x Hx.
  destruct (Hk x Hx) as [Hin Ho]. destruct (Hr x Hin) as (? & ? & b & ? & ?).
  split_and!; try done. exists b. by rewrite Ho.
Qed.

Lemma row_id_filter (P : Snapshot -> Prop) `{forall r, Decision (P r)} l :
  NoDup (row_id <$> l) -> NoDup (row_id <$> filter P l).
Proof. intros Hn. eapply sublist_NoDup; [exact Hn|]. apply fmap_sublist, sublist_filter. Qed.

Lemma ok_key_inj a x y : archive_ok a -> x ∈ rows a.2 -> y ∈ rows a.2 -> key x = key y -> x = y.
Proof.
  intros [Hr Hn] Hx Hy Hk. rewrite Forall_forall in Hr.
  destruct (Hr x Hx) as (Dx & Kx & _), (Hr y Hy) as (Dy & Ky & _). rewrite Kx, Ky in Hk.
  apply snapshot_key_inj in Hk as (? & ? & ?); [|by apply named_simple..]. by apply (row_id_inj _ _ _ Hn).
Qed.

Lemma key_storable d e n : named d -> storable (snapshot_key d e n).
Proof. intros Hd. apply plain_storable, snapshot_key_plain; [by apply named_simple|by apply named_plain]. Qed.

Lemma row_storable o r : row_ok o r -> storable (key r).
Proof. intros (Hd & -> & _). by apply key_storable. Qed.

Lemma forget_cases d n (x : Ix) r x' : named d -> forget d n x = (r, x') ->
  (rows x' ≡ₚ filter (fun r => ~ is_row d n r) (rows x)) \/ (is_ok r = false /\ rows x' ≡ₚ rows x).
Proof.
  intros Hd. destruct r as [[]|e]; intros E; [left; by eapply forget_ok|].
  destruct (forget_err _ _ _ _ _ Hd E); [by right|by left].
Qed.

(** One row and its object go, in this order; the call can stop in between. *)
Lemma drop_one_spec o a r a' : archive_ok a -> o ∈ rows a.2 ->
  (_ ← on_snd (forget (database_id o) (seq o)); on_fst (store_delete (key o))) a = (r, a') ->
  archive_ok a' /\ kept a a' /\ (forall x, x ∈ rows a.2 -> x <> o -> x ∈ rows a'.2) /\
  (is_ok r = true -> o ∉ rows a'.2).
Proof.
  intros Hok Ho E. pose proof Hok as [Hr Hn]. rewrite Forall_forall in Hr.
  destruct (Hr o Ho) as (Hd & _).
  assert (Hf : forall x, x ∈ filter (fun r => ~ is_row (database_id o) (seq o) r) (rows a.2) <->
    x ∈ rows a.2 /\ x <> o).
  { intros x. rewrite list_elem_of_filter. split; intros [H1 H2]; split; try done.
    - intros ->. by destruct H1.
    - intros [??]. apply H2. by apply (row_id_inj _ _ _ Hn). }
  apply SE_bind_inv in E as [(u & a1 & E1 & E2)|(e & E1 & ->)]; apply on_snd_inv in E1 as [E1 Ea1];
    apply (forget_cases _ _ _ _ _ Hd) in E1 as [Hp|[Hbad Hp]]; try done.
  - apply on_fst_inv in E2 as [E2 Ea2]. rewrite <- Ea2 in Hp.
    assert (Hk : kept a a').
    { intros x Hx. rewrite Hp, Hf in Hx. destruct Hx as [Hx Hne]. split; [done|].
      rewrite (delete_other _ _ _ _ (key x) (row_storable _ _ (Hr o Ho)) E2), Ea1; [done|]. intros Ek. apply Hne. by apply (ok_key_inj a). }
    split_and!; [|done|..].
    + apply (archive_ok_kept a); [done..|]. rewrite Hp. by apply row_id_filter.
    + intros x Hx Hne. rewrite Hp. by apply Hf.
    + intros _. rewrite Hp, Hf. naive_solver.
  - assert (Hk : kept a a') by (intros x Hx; rewrite Hp, Hf in Hx; rewrite Ea1; naive_solver).
    split_and!; [|done|..|done].
    + apply (archive_ok_kept a); [done..|]. rewrite Hp. by apply row_id_filter.
    + intros x Hx Hne. rewrite Hp. by apply Hf.
  - assert (Hk : kept a a') by (intros x Hx; rewrite Hp in Hx; by rewrite Ea1).
    split_and!; [|done|..|done].
    + apply (archive_ok_kept a); [done..|]. by rewrite Hp.
    + intros x Hx Hne. by rewrite Hp.
Qed.

Lemma kept_trans a b c : kept a b -> kept b c -> kept a c.
Proof. intros H1 H2 x Hx. destruct (H2 x Hx) as [Hb ->]. by apply H1. Qed.

Lemma drop_old_spec olds a r a' : archive_ok a -> NoDup olds -> Forall (.∈ rows a.2) olds ->
  drop_old olds a = (r, a') ->
  archive_ok a' /\ kept a a' /\ (forall x, x ∈ rows a.2 -> x ∉ olds -> x ∈ rows a'.2) /\
  (is_ok r = true -> Forall (.∉ rows a'.2) olds).
Proof.
  revert a. induction olds as [|o olds IH]; intros a Hok Hn Hin E.
  - injection E as <- <-. split_and!; [done| |done|done]. by intros x.
  - apply NoDup_cons in Hn as [Ho Hn]. apply Forall_cons in Hin as [Hoin Hin].
    change (drop_old (o :: olds)) with
      (on_snd (forget (database_id o) (seq o)) ≫= fun _ : unit =>
       on_fst (store_delete (key o)) ≫= fun _ : unit => drop_old olds) in E.
    assert (Eq : ((_ ← (_ ← on_snd (forget (database_id o) (seq o)); on_fst (store_delete (key o)));
      drop_old olds) : SE (St * Ix) string unit) a = (r, a')).
    { rewrite <- E. unfold mbind, SE_bind. by destruct (on_snd _ a) as [[[]|] ?]. }
    clear E. apply SE_bind_inv in Eq as [([] & a1 & E1 & E2)|(e & E1 & ->)].
    + destruct (drop_one_spec o a _ a1 Hok Hoin E1) as (Hok1 & Hk1 & Hm1 & Hg1).
      assert (Hin1 : Forall (.∈ rows a1.2) olds).
      { rewrite Forall_forall in *. intros x Hx. apply Hm1; [by apply Hin|]. by intros ->. }
      destruct (IH a1 Hok1 Hn Hin1 E2) as (Hok2 & Hk2 & Hm2 & Hg2). split_and!; [done|by apply (kept_trans a a1)|..].
      * intros x Hx Hni. apply not_elem_of_cons in Hni as [??]. apply Hm2; [|done]. by apply Hm1.
      * intros Hr. constructor; [|by apply Hg2]. intros Hx. apply Hk2 in Hx as [Hx _]. by apply Hg1 in Hx.
    + destruct (drop_one_spec o a _ a' Hok Hoin E1) as (Hok1 & Hk1 & Hm1 & _). split_and!; [done|done| |done].
      intros x Hx [??]%not_elem_of_cons. by apply Hm1.
Qed.

Lemma kept_refl a a' : rows a'.2 ≡ₚ rows a.2 ->
  (forall x, x ∈ rows a.2 -> objects a'.1 !! key x = objects a.1 !! key x) -> kept a a'.
Proof. intros Hp Ho x Hx. rewrite Hp in Hx. auto. Qed.

Lemma archive_ok_same a a' : archive_ok a -> rows a'.2 ≡ₚ rows a.2 ->
  (forall x, x ∈ rows a.2 -> objects a'.1 !! key x = objects a.1 !! key x) -> archive_ok a'.
Proof. intros Hok Hp Ho. apply (archive_ok_kept a); [done|by apply kept_refl|]. rewrite Hp. apply Hok. Qed.

(** The copy of a database stays the current one when its newest row does. *)
Lemma current_kept a a' d : archive_ok a -> archive_ok a' -> kept a a' ->
  (forall m, newest_of d (rows a.2) = Some m -> m ∈ rows a'.2) -> current a' d = current a d.
Proof.
  intros Hok Hok' Hk Hm. unfold current. destruct (newest_of d (rows a.2)) as [m|] eqn:E.
  - specialize (Hm m eq_refl). destruct (Hk m Hm) as [Hin Ho].
    apply newest_of_spec in E as (_ & Hd & Hmax).
    rewrite (newest_of_unique d (rows a'.2) m (proj2 Hok') Hm Hd); [exact Ho|].
    intros r Hr Hrd. apply Hmax; [|done]. by apply Hk.
  - rewrite (proj2 (newest_of_None _ _)); [done|]. intros r Hr. apply (proj1 (newest_of_None _ _) E). by apply Hk.
Qed.

Lemma current_same a a' d : archive_ok a -> rows a'.2 ≡ₚ rows a.2 ->
  (forall x, x ∈ rows a.2 -> objects a'.1 !! key x = objects a.1 !! key x) -> current a' d = current a d.
Proof.
  intros Hok Hp Ho. apply current_kept; [done|by eapply archive_ok_same|by apply kept_refl|].
  intros m Hm. rewrite Hp. by apply newest_of_spec in Hm as [? _].
Qed.

(** What [list] answers, on a whole archive. *)
Lemma list_rows d (x : Ix) l x' : named d -> NoDup (row_id <$> rows x) -> list_of d x = (Ok l, x') ->
  NoDup l /\ (forall r, r ∈ l <-> r ∈ rows x /\ database_id r = d) /\ newest_of d (rows x) = head l.
Proof.
  intros Hd Hn E. apply list_ok in E as [Hp Hs]; [|done].
  assert (Hin : forall r, r ∈ l <-> r ∈ rows x /\ database_id r = d).
  { intros r. rewrite Hp, list_elem_of_filter. naive_solver. }
  split_and!; [|done|].
  - rewrite Hp. apply NoDup_filter. by eapply NoDup_fmap_1.
  - destruct l as [|m l]; simpl.
    + apply newest_of_None. intros r Hr Hrd. assert (r ∈ []) as H by by apply Hin. by apply elem_of_nil in H.
    + destruct (proj1 (Hin m)) as [Hm Hmd]; [set_solver|]. apply newest_of_unique; [done..|].
      intros r Hr Hrd. assert (r ∈ m :: l) as H by by apply Hin.
      apply elem_of_cons in H as [->|H]; [lia|]. apply StronglySorted_inv in Hs as [_ Hs].
      rewrite Forall_forall in Hs. by apply Hs.
Qed.

Lemma head_not_dropped {A} (l : list A) m n : NoDup l -> head l = Some m -> (0 < n)%nat -> m ∉ drop n l.
Proof.
  destruct l as [|x l]; [done|]. intros [Hx _]%NoDup_cons [= ->] Hn. destruct n; [lia|]. simpl.
  intros H. apply Hx. by apply (subseteq_drop n l).
Qed.

(** ** [save] *)

Lemma cleanup_spec d a r a' : archive_ok a -> named d -> (0 < keep)%nat ->
  (snapshots ← on_snd (list_of d); drop_old (drop keep snapshots)) a = (r, a') ->
  archive_ok a' /\ (forall d', current a' d' = current a d') /\ rows a'.2 ⊆ rows a.2.
Proof.
  intros Hok Hd Hkeep E. apply SE_bind_inv in E as [(l & a1 & E1 & E2)|(e & E1 & ->)];
    apply on_snd_inv in E1 as [E1 Ea]; pose proof (list_same _ _ _ _ E1) as Hrows.
  - assert (Hp : rows a1.2 ≡ₚ rows a.2) by by rewrite Hrows.
    assert (Ho : forall x, x ∈ rows a.2 -> objects a1.1 !! key x = objects a.1 !! key x) by by rewrite Ea.
    pose proof (archive_ok_same _ _ Hok Hp Ho) as Hok1.
    destruct (list_rows _ _ _ _ Hd (proj2 Hok) E1) as (Hn & Hin & Hhd).
    assert (Hsub : Forall (.∈ rows a1.2) (drop keep l)).
    { apply Forall_forall. intros x Hx. rewrite Hp. apply (Hin x). by apply subseteq_drop in Hx. }
    destruct (drop_old_spec _ a1 r a' Hok1 (sublist_NoDup _ _ Hn (sublist_drop l keep)) Hsub E2)
      as (Hok' & Hk & Hm & _).
    split_and!; [done| |intros x Hx; rewrite <- Hp; by apply Hk].
    intros d'. rewrite <- (current_same a a1) by done. apply current_kept; [done..|].
    intros m Hnew. rewrite Hrows in Hnew. pose proof Hnew as (Hmin & Hmd & _)%newest_of_spec.
    apply Hm; [by rewrite Hp|]. destruct (decide (d' = d)) as [->|Hne].
    + apply head_not_dropped; [done| |done]. by rewrite <- Hhd.
    + intros Hx. apply subseteq_drop in Hx. apply Hin in Hx as [_ Hx]. congruence.
  - split_and!.
    + apply (archive_ok_same a); [done|by rewrite Hrows|by rewrite Ea].
    + intros d'. apply current_same; [done|by rewrite Hrows|by rewrite Ea].
    + by rewrite Hrows.
Qed.

(** A row that a later clock records next to its object is the newest. *)
Lemma added_spec d bytes now e a a' :
  let row := mkSnapshot d now e (snapshot_key d e now) (sha bytes) (str_len bytes) in
  archive_ok a -> named d -> (forall r, r ∈ rows a.2 -> database_id r = d -> seq r < now) ->
  rows a'.2 ≡ₚ row :: rows a.2 -> objects a'.1 !! key row = Some bytes ->
  (forall x, x ∈ rows a.2 -> objects a'.1 !! key x = objects a.1 !! key x) ->
  archive_ok a' /\ current a' d = Some bytes /\ forall d', d' <> d -> current a' d' = current a d'.
Proof.
  intros row [Hr Hn] Hd Hlt Hp Hk Ho.
  assert (Hok' : archive_ok a').
  { split.
    - rewrite Hp. constructor; [split_and!; [done..|]; by exists bytes|].
      rewrite Forall_forall in *. intros x Hx. destruct (Hr x Hx) as (? & ? & b & Hb & ?).
      split_and!; [done..|]. exists b. by rewrite Ho.
    - rewrite Hp. simpl. constructor; [|done]. intros (x & Ex & Hx)%list_elem_of_fmap.
      unfold row_id in Ex. simpl in Ex. injection Ex as E1 E2. specialize (Hlt x Hx (eq_sym E1)). lia. }
  split_and!; [done|..].
  - unfold current. rewrite (newest_of_unique d _ row (proj2 Hok')); [done|rewrite Hp; set_solver|done|].
    intros r Hin Hrd. rewrite Hp in Hin. apply elem_of_cons in Hin as [->|Hin]; [lia|].
    specialize (Hlt r Hin Hrd). simpl. lia.
  - intros d' Hne. unfold current. destruct (newest_of d' (rows a.2)) as [m|] eqn:E.
    + apply newest_of_spec in E as (Hm & Hmd & Hmax).
      rewrite (newest_of_unique d' _ m (proj2 Hok')); [simpl; by apply Ho|rewrite Hp; set_solver|done|].
      intros r Hin Hrd. rewrite Hp in Hin. apply elem_of_cons in Hin as [->|Hin]; [by destruct Hne|by apply Hmax].
    + rewrite (proj2 (newest_of_None _ _)); [done|]. intros r Hin. rewrite Hp in Hin.
      apply elem_of_cons in Hin as [->|Hin]; [simpl; congruence|]. by apply (proj1 (newest_of_None _ _) E).
Qed.

(** The upload and its check: the object is there when they succeed, and no
    recorded object changes. *)
Lemma upload_spec k bytes (a : St * Ix) r a' : storable k -> k ∉ key <$> rows a.2 ->
  (_ ← on_fst (store_put k bytes);
   stored ← on_fst (store_size k);
   if bool_decide (stored = Some (str_len bytes)) then mret tt
   else throw (k +:+ ": stored size " +:+ debug stored +:+ ", expected " +:+ show_Z (str_len bytes))) a = (r, a') ->
  a'.2 = a.2 /\ (is_ok r = true -> objects a'.1 !! k = Some bytes) /\
  forall x, x ∈ rows a.2 -> objects a'.1 !! key x = objects a.1 !! key x.
Proof.
  intros Hst Hk E.
  assert (Hne : forall x, x ∈ rows a.2 -> key x <> k) by (intros x Hx <-; apply Hk, list_elem_of_fmap; eauto).
  apply SE_bind_inv in E as [([] & a1 & E1 & E)|(e & E1 & ->)]; apply on_fst_inv in E1 as [E1 Ea1].
  - assert (Ho1 : forall x, x ∈ rows a.2 -> objects a1.1 !! key x = objects a.1 !! key x)
      by (intros x Hx; eapply put_other; [exact Hst|exact E1|by apply Hne]).
    apply (put_ok _ _ _ _ Hst) in E1. apply SE_bind_inv in E as [(st & a2 & E2 & E)|(e & E2 & ->)];
      apply on_fst_inv in E2 as [E2 Ea2]; apply (size_same _ _ _ _ Hst) in E2; [|by rewrite Ea2, Ea1, E2].
    assert (a' = a2) as -> by (revert E; case_bool_decide; intros; by injection E).
    by rewrite Ea2, Ea1, E2.
  - split_and!; [done|done|]. intros x Hx. eapply put_other; [exact Hst|exact E1|by apply Hne].
Qed.

Lemma unchanged a a' d (P : Prop) : archive_ok a -> rows a'.2 ≡ₚ rows a.2 ->
  (forall x, x ∈ rows a.2 -> objects a'.1 !! key x = objects a.1 !! key x) ->
  archive_ok a' /\ (forall d', d' <> d -> current a' d' = current a d') /\ (current a' d = current a d \/ P).
Proof.
  intros Hok Hp Ho. split_and!; [by apply (archive_ok_same a)| |left]; intros; by apply current_same.
Qed.

Lemma save_full_spec a d bytes now r a' :
  archive_ok a -> named d -> (0 < keep)%nat -> str_len bytes < 2 ^ 64 ->
  (forall x, x ∈ rows a.2 -> database_id x = d -> seq x < now) ->
  save now d bytes a = (r, a') ->
  archive_ok a' /\
  (forall x, x ∈ rows a'.2 -> x ∈ rows a.2 \/ database_id x = d) /\
  (forall d', d' <> d -> current a' d' = current a d') /\
  match r with
  | Ok _ => current a' d = Some bytes
  | Err _ => current a' d = current a d \/ current a' d = Some bytes
  end.
Proof.
  intros Hok Hd Hkeep Hlen Hlt E. set (e := index_epoch a.2). set (k := snapshot_key d e now).
  set (row := mkSnapshot d now e k (sha bytes) (str_len bytes)).
  assert (Hk : k ∉ key <$> rows a.2).
  { intros (x & Ex & Hx)%list_elem_of_fmap. destruct Hok as [Hr _]. rewrite Forall_forall in Hr.
    destruct (Hr x Hx) as (Hdx & Hkx & _). rewrite Hkx in Ex.
    apply snapshot_key_inj in Ex as (-> & _ & ->); [|by apply named_simple..].
    specialize (Hlt x Hx eq_refl). lia. }
  assert (Hsize : 0 <= size row < 2 ^ 64) by (split; [apply str_len_nonneg|done]).
  assert (E' : (_ ← (_ ← on_fst (store_put k bytes);
      stored ← on_fst (store_size k);
      if bool_decide (stored = Some (str_len bytes)) then mret tt
      else throw (k +:+ ": stored size " +:+ debug stored +:+ ", expected " +:+ show_Z (str_len bytes)));
    _ ← on_snd (record row);
    _ ← quietly (snapshots ← on_snd (list_of d); drop_old (drop keep snapshots));
    mret row) a = (r, a')).
  { rewrite <- E. unfold save, gets, mbind, SE_bind. fold e k row.
    destruct (on_fst (store_put k bytes) a) as [[[]|] a1]; [|done].
    by destruct (on_fst (store_size k) a1) as [[st|] a2]. }
  assert (Hst : storable k) by by apply key_storable.
  assert (and_rows : forall P Q R : Prop, R -> P /\ Q -> P /\ R /\ Q) by tauto.
  assert (Hadd : forall b : St * Ix, rows b.2 ≡ₚ row :: rows a.2 ->
    forall x, x ∈ rows b.2 -> x ∈ rows a.2 \/ database_id x = d).
  { intros b Hb x Hx. rewrite Hb in Hx. apply elem_of_cons in Hx as [->|Hx]; [by right|by left]. }
  clear E. apply SE_bind_inv in E' as [([] & a1 & E1 & E)|(err & E1 & ->)];
    apply (upload_spec _ _ _ _ _ Hst Hk) in E1 as (Ea & Hb & Ho).
  2:{ apply and_rows; [rewrite Ea; by left|]. apply unchanged; [done|by rewrite Ea|done]. }
  apply SE_bind_inv in E as [([] & a2 & E2 & E)|(err & E2 & ->)]; apply on_snd_inv in E2 as [E2 Ea2].
  - apply record_ok in E2; [|done..].
    destruct (added_spec d bytes now e a a2 Hok Hd Hlt) as (Hok2 & Hc & Ho2);
      [by rewrite E2, Ea|rewrite Ea2; by apply Hb|by rewrite Ea2|].
    apply SE_bind_inv in E as [(u & ac & Ec & E)|(err & Ec & ->)];
      apply quietly_inv in Ec as [? [rc Ec]]; [|done]. injection E as <- <-.
    destruct (cleanup_spec d a2 rc ac Hok2 Hd Hkeep Ec) as (Hok' & Hcur & Hsub).
    apply and_rows; [intros x Hx%Hsub; apply (Hadd a2); [by rewrite E2, Ea|done]|].
    split_and!; [done| |by rewrite Hcur]. intros d' Hne. rewrite Hcur. by apply Ho2.
  - apply record_err in E2 as [E2|E2]; [..|done|done].
    + apply and_rows; [intros x Hx; rewrite E2, Ea in Hx; by left|]. apply unchanged; [done|by rewrite E2, Ea|by rewrite Ea2].
    + destruct (added_spec d bytes now e a a' Hok Hd Hlt) as (Hok2 & Hc & Ho2);
        [by rewrite E2, Ea|rewrite Ea2; by apply Hb|by rewrite Ea2|]. apply and_rows; [apply Hadd; by rewrite E2, Ea|]. auto.
Qed.

Lemma save_spec a d bytes now r a' :
  archive_ok a -> named d -> (0 < keep)%nat -> str_len bytes < 2 ^ 64 ->
  (forall x, x ∈ rows a.2 -> database_id x = d -> seq x < now) ->
  save now d bytes a = (r, a') ->
  archive_ok a' /\
  (forall d', d' <> d -> current a' d' = current a d') /\
  match r with
  | Ok _ => current a' d = Some bytes
  | Err _ => current a' d = current a d \/ current a' d = Some bytes
  end.
Proof. intros. edestruct save_full_spec as (? & _ & ?); eauto. Qed.

(** C16. A save that succeeds makes its bytes the current copy of the database;
    one that fails leaves the copy that was, or has recorded the new one
    already. Either way every recorded snapshot is whole in the store and the
    other databases keep their copies, whatever calls to the store and to the
    index fail. This needs the clock to be ahead of the snapshots of the
    database. *)
Theorem save_replaces_current a d bytes now r a' :
  archive_ok a -> named d -> (0 < keep)%nat -> str_len bytes < 2 ^ 64 ->
  (forall x, x ∈ rows a.2 -> database_id x = d -> seq x < now) ->
  save now d bytes a = (r, a') ->
  archive_ok a' /\
  (forall d', d' <> d -> current a' d' = current a d') /\
  match r with
  | Ok _ => current a' d = Some bytes
  | Err _ => current a' d = current a d \/ current a' d = Some bytes
  end.
Proof. apply save_spec. Qed.

(** ** [fetch_latest] and [forget_all] *)

Lemma fetch_latest_spec a d r a' : archive_ok a -> named d -> fetch_latest d a = (r, a') ->
  archive_ok a' /\ (forall d', current a' d' = current a d') /\
  match r with
  | Ok o => o = current a d
  | Err e => (exists x, list_of d a.2 = (Err e, x)) \/ (exists k s, store_get k a.1 = (Err e, s))
  end.
Proof.
  intros Hok Hd E.
  apply SE_bind_inv in E as [(l & a1 & E1 & E)|(e & E1 & ->)]; apply on_snd_inv in E1 as [E1 Ea1];
    pose proof (list_same _ _ _ _ E1) as Hr.
  2:{ destruct (unchanged a a' d False Hok) as (? & ? & [?|[]]); [by rewrite Hr|by rewrite Ea1|].
      split_and!; [done| |eauto]. intros d'. apply current_same; [done|by rewrite Hr|by rewrite Ea1]. }
  destruct (list_rows _ _ _ _ Hd (proj2 Hok) E1) as (_ & Hin & Hhd).
  assert (Hst : forall x, objects x.1 = objects a.1 -> x.2 = a1.2 ->
    archive_ok x /\ forall d', current x d' = current a d').
  { intros x Hx Hx2. split; [apply (archive_ok_same a)|intros; apply current_same];
      rewrite ?Hx, ?Hx2, ?Hr; done. }
  destruct l as [|m l].
  { injection E as <- <-. destruct (Hst a1) as [??]; [by rewrite Ea1|done|]. split_and!; [done..|].
    unfold current. by rewrite Hhd. }
  assert (Hm : row_ok (objects a.1) m).
  { destruct Hok as [Hf _]. rewrite Forall_forall in Hf. apply Hf, Hin. set_solver. }
  pose proof (row_storable _ _ Hm) as Hsto. destruct Hm as (_ & _ & b & Hb & Hs & _).
  apply SE_bind_inv in E as [(o & a2 & E2 & E)|(e & E2 & ->)]; apply on_fst_inv in E2 as [E2 Ea2];
    pose proof (get_same _ _ _ _ Hsto E2) as Ho; rewrite Ea1 in Ho.
  + rewrite <- Ea1 in Hb. rewrite (get_ok _ _ _ _ Hsto E2), Hb, <- Hs, String.eqb_refl in E. injection E as <- <-.
    destruct (Hst a2) as [??]; [done..|]. split_and!; [done..|]. unfold current. rewrite Hhd. simpl. by rewrite <- Ea1.
  + destruct (Hst a') as [??]; [done..|]. split_and!; [done..|]. right. rewrite <- Ea1. eauto.
Qed.

Lemma forget_all_spec a d u a' : archive_ok a -> named d -> forget_all d a = (u, a') ->
  archive_ok a' /\ (forall d', d' <> d -> current a' d' = current a d') /\
  (u = Ok tt -> current a' d = None).
Proof.
  intros Hok Hd E.
  apply SE_bind_inv in E as [(l & a1 & E1 & E)|(e & E1 & ->)]; apply on_snd_inv in E1 as [E1 Ea1];
    pose proof (list_same _ _ _ _ E1) as Hr.
  2:{ destruct (unchanged a a' d False Hok) as (? & ? & [?|[]]); [by rewrite Hr|by rewrite Ea1|done]. }
  destruct (list_rows _ _ _ _ Hd (proj2 Hok) E1) as (Hn & Hin & _).
  assert (Hok1 : archive_ok a1) by (apply (archive_ok_same a); [done|by rewrite Hr|by rewrite Ea1]).
  assert (Hc1 : forall d', current a1 d' = current a d')
    by (intros; apply current_same; [done|by rewrite Hr|by rewrite Ea1]).
  apply drop_old_spec in E as (Hok' & Hk & Hm & Hg); [|done..|].
  2:{ apply Forall_forall. intros x Hx. rewrite Hr. by apply Hin. }
  split_and!; [done|..].
  + intros d' Hne. rewrite <- Hc1. apply current_kept; [done..|]. intros m (Hmi & Hmd & _)%newest_of_spec.
    apply Hm; [done|]. intros Hx. apply Hin in Hx as [_ Hx]. congruence.
  + intros ->. unfold current. rewrite (proj2 (newest_of_None _ _)); [done|]. intros x Hx Hxd.
    pose proof (Hk x Hx) as [Hx1 _]. rewrite Hr in Hx1. specialize (Hg eq_refl). rewrite Forall_forall in Hg.
    by eapply Hg; [apply Hin|].
Qed.

(** C23. A restore gets the current copy of its database, or nothing when
    there is none. On a whole archive it fails only when the index or the
    store does: no recorded snapshot is missing or altered. After all the
    snapshots of a database are forgotten it has no copy, and the others have
    theirs. *)
Theorem restore_gives_current a d r a' :
  archive_ok a -> named d ->
  (fetch_latest d a = (r, a') ->
     archive_ok a' /\ (forall d', current a' d' = current a d') /\
     match r with
     | Ok o => o = current a d
     | Err e => (exists x, list_of d a.2 = (Err e, x)) \/ (exists k s, store_get k a.1 = (Err e, s))
     end) /\
  (forall u, forget_all d a = (u, a') ->
     archive_ok a' /\ (forall d', d' <> d -> current a' d' = current a d') /\
     (u = Ok tt -> current a' d = None)).
Proof. intros Hok Hd. split; intros; [by apply fetch_latest_spec|by apply forget_all_spec]. Qed.

End archive.

(** ** [PgIndex]

    The tables of the index, shared by the runners. [faults] says what becomes
    of the next queries: a query fails, or its work is done and its answer
    lost. *)

Record ArchiveRow := mkArchiveRow {
  a_seq : Z; a_epoch : Z; a_key : string; a_checksum : string; a_size : Z }.

Section pg.
Context {U : Type} {uuid : Uuid U}.

Record Pg := mkPg {
  runner_epochs : list Z;
  d1_archives : list (U * ArchiveRow);
  durable_object_archives : list (U * string * ArchiveRow);
  faults : list fault }.

Record PgIndex := mkPgIndex { pool : Pg; pg_epoch : Z }.

Definition set_faults (f : list fault) (p : Pg) : Pg :=
  mkPg (runner_epochs p) (d1_archives p) (durable_object_archives p) f.

Definition query {A} (run : Pg -> result (A * Pg) string) : SE Pg string A := fun p =>
  let p1 := set_faults (tail (faults p)) p in
  match default Works (head (faults p)) with
  | Fails e => (Err e, p1)
  | w => match run p1, w with
         | Ok (a, p2), Lost e => (Err e, p2)
         | Ok (a, p2), _ => (Ok a, p2)
         | Err e, _ => (Err e, p1)
         end
  end.

Definition on_pool {A} (m : SE Pg string A) : SE PgIndex string A := fun x =>
  let '(r, p) := m (pool x) in (r, mkPgIndex p (pg_epoch x)).

Definition max_epoch (l : list Z) : option Z :=
  foldr (fun e m => Some (match m with Some m => Z.max e m | None => e end)) None l.

(** [start]: the epochs of the table come from a sequence. *)
Definition start (p : Pg) : result PgIndex string * Pg :=
  let '(r, p') := query (fun p =>
    let e := 1 + default 0 (max_epoch (runner_epochs p)) in
    Ok (e, mkPg (runner_epochs p ++ [e]) (d1_archives p) (durable_object_archives p) (faults p))) p in
  match r with Ok e => (Ok (mkPgIndex p' e), p') | Err e => (Err e, p') end.

(** [$1::uuid]: the text must be a UUID. *)
Definition cast_uuid (text : string) : result U string :=
  match uuid_parse text with
  | Some u => Ok u
  | None => Err ("invalid input syntax for type uuid: " +:+ text)
  end.

Definition row_of (s : Snapshot) : ArchiveRow :=
  mkArchiveRow (seq s) (epoch s) (key s) (checksum s) (as_i64 (size s)).

(** The number of inserted rows. *)
Definition insert_archive (s : Snapshot) (p : Pg) : result (nat * Pg) string :=
  let latest := bool_decide (Some (epoch s) = max_epoch (runner_epochs p)) in
  match parse_object_key (database_id s) with
  | Some (namespace, object) =>
    u <-? cast_uuid namespace;
    if latest
    then Ok (1%nat, mkPg (runner_epochs p) (d1_archives p)
               (durable_object_archives p ++ [(u, object, row_of s)]) (faults p))
    else Ok (0%nat, p)
  | None =>
    u <-? cast_uuid (database_id s);
    if latest
    then Ok (1%nat, mkPg (runner_epochs p) (d1_archives p ++ [(u, row_of s)])
               (durable_object_archives p) (faults p))
    else Ok (0%nat, p)
  end.

Definition pg_record (s : Snapshot) : SE PgIndex string unit :=
  inserted ← on_pool (query (insert_archive s));
  if (inserted =? 0)%nat
  then throw ("epoch " +:+ show_Z (epoch s) +:+ " is no longer the latest: another runner started")
  else mret tt.

Definition to_snapshot (id : string) (r : ArchiveRow) : Snapshot :=
  mkSnapshot id (a_seq r) (a_epoch r) (a_key r) (a_checksum r) (wrap_u64 (a_size r)).

Definition newer (a b : Snapshot) : Prop := seq b <= seq a.

#[export] Instance newer_dec a b : Decision (newer a b).
Proof. unfold newer. apply _. Defined.

Definition select_archives (id : string) (p : Pg) : list Snapshot :=
  match parse_object_key id with
  | Some (namespace, object) =>
    merge_sort newer (to_snapshot id ∘ snd <$>
      filter (fun r => uuid_string r.1.1 = namespace /\ r.1.2 = object) (durable_object_archives p))
  | None =>
    merge_sort newer (to_snapshot id ∘ snd <$>
      filter (fun r => uuid_string r.1 = id) (d1_archives p))
  end.

Definition pg_list (id : string) : SE PgIndex string (list Snapshot) :=
  on_pool (query (fun p => Ok (select_archives id p, p))).

Definition delete_archive (id : string) (n : Z) (p : Pg) : Pg :=
  match parse_object_key id with
  | Some (namespace, object) =>
    mkPg (runner_epochs p) (d1_archives p)
      (filter (fun r => ~ ((uuid_string r.1.1 = namespace /\ r.1.2 = object) /\ a_seq r.2 = n))
         (durable_object_archives p)) (faults p)
  | None =>
    mkPg (runner_epochs p)
      (filter (fun r => ~ (uuid_string r.1 = id /\ a_seq r.2 = n)) (d1_archives p))
      (durable_object_archives p) (faults p)
  end.

Definition pg_forget (id : string) (n : Z) : SE PgIndex string unit :=
  on_pool (query (fun p => Ok (tt, delete_archive id n p))).

Definition object_id_of (u : U) (o : string) : string := OBJECTS +:+ "/" +:+ uuid_string u +:+ "/" +:+ o.

Definition table_rows (p : Pg) : list Snapshot :=
  ((fun r => to_snapshot (uuid_string r.1) r.2) <$> d1_archives p) ++
  ((fun r => to_snapshot (object_id_of r.1.1 r.1.2) r.2) <$> durable_object_archives p).

(** The ids the runner uses. *)
Definition pg_named (d : string) : Prop :=
  (exists u, d = uuid_string u) \/ exists ns o, object_key ns o = Some d.

Lemma object_id_parse u o : parse_object_key (object_id_of u o) = Some (uuid_string u, o).
Proof. apply parse_object_key_Some. split; [done|]. by apply uuid_no_char. Qed.

Lemma named_cases d : pg_named d ->
  (exists u, d = uuid_string u /\ parse_object_key d = None) \/
  (exists u o, d = object_id_of u o /\ contains_char "/" o = false).
Proof.
  intros [[u ->]|(ns & o & (u & _ & _ & Ho & ->)%object_key_Some)].
  - left. exists u. split; [done|]. apply parse_database_key.
  - right. exists u, o. split; [done|]. by apply (all_bytes_contains is_lower_hex).
Qed.

Lemma pg_named_simple d : pg_named d -> simple_id d.
Proof.
  intros [(u & -> & _)|(u & o & -> & Ho)]%named_cases.
  - left. by apply uuid_no_char.
  - right. exists (uuid_string u), o. by rewrite object_id_parse.
Qed.

Lemma hex_segment p s : (forall c, p c = true -> is_uuid_char c = true) -> all_bytes p s = true -> s <> "" ->
  plain_segment s = true.
Proof.
  intros Hp Hs Hne. assert (Hu : all_bytes is_uuid_char s = true) by by eapply all_bytes_impl.
  assert (Hd : contains_char "." s = false) by by apply (all_bytes_contains is_uuid_char).
  apply plain_segment_spec. split_and!; [|done|by intros ->|].
  - apply (all_bytes_impl is_uuid_char); [|done]. intros c. by destruct c as [[] [] [] [] [] [] [] []].
  - apply not_true_iff_false. rewrite contains_str_spec. intros (a & b & ->).
    by rewrite !contains_char_app, orb_true_r in Hd.
Qed.

Lemma pg_named_plain d : pg_named d -> plain_path d.
Proof.
  assert (Hu : forall u, plain_segment (uuid_string u) = true).
  { intros u. apply (hex_segment is_uuid_char); [done|apply uuid_string_chars|].
    intros E. pose proof (uuid_string_length u) as H. by rewrite E in H. }
  intros [[u ->]|(ns & o & (u & _ & Hl & Ho & ->)%object_key_Some)]; unfold plain_path.
  - rewrite split_none by by apply uuid_no_char. by repeat constructor.
  - assert (Hs : contains_char "/" o = false) by by apply (all_bytes_contains is_lower_hex).
    rewrite !split_slash_app, (split_none "/" o), (split_none "/" (uuid_string u))
      by (done || by apply uuid_no_char).
    repeat constructor; [done|]. apply (hex_segment is_lower_hex); [|done|].
    + intros c Hc. unfold is_uuid_char. by rewrite Hc.
    + by intros ->.
Qed.

Lemma object_id_inj u o u' o' : object_id_of u o = object_id_of u' o' -> uuid_string u = uuid_string u' /\ o = o'.
Proof. intros E. apply (f_equal parse_object_key) in E. rewrite !object_id_parse in E. by simplify_eq. Qed.

Lemma database_not_object u u' o : uuid_string u <> object_id_of u' o.
Proof. intros E. apply (f_equal parse_object_key) in E. by rewrite parse_database_key, object_id_parse in E. Qed.

(** A query that is answered did its work; one that is not may have. *)
Lemma pg_query_inv {A} (run : Pg -> result (A * Pg) string) p r p' : query run p = (r, p') ->
  let p1 := set_faults (tail (faults p)) p in
  (is_ok r = false /\ p' = p1) \/
  (exists a, run p1 = Ok (a, p') /\ (r = Ok a \/ is_ok r = false)).
Proof.
  unfold query. destruct (default Works (head (faults p))) as [|e|e]; intros E.
  - destruct (run _) as [[a p2]|e]; simplify_eq; eauto 6.
  - simplify_eq. by left.
  - destruct (run _) as [[a p2]|e']; simplify_eq; eauto 6.
Qed.

Lemma row_of_snapshot s : 0 <= size s < 2 ^ 64 -> to_snapshot (database_id s) (row_of s) = s.
Proof.
  intros Hs. unfold to_snapshot, row_of. destruct s as [d n e k c z]. simpl in *. f_equal.
  unfold wrap_u64, as_i64. case_match; reflect_bools; div_lia.
Qed.

Lemma insert_rows_spec s p n p' : pg_named (database_id s) -> 0 <= size s < 2 ^ 64 ->
  insert_archive s p = Ok (n, p') ->
  (n = 0%nat /\ p' = p) \/
  (n = 1%nat /\ max_epoch (runner_epochs p) = Some (epoch s) /\ table_rows p' ≡ₚ s :: table_rows p).
Proof.
  intros Hd Hs. unfold insert_archive, cast_uuid.
  destruct (named_cases _ Hd) as [(u & Eu & Ep)|(u & o & Eo & _)].
  - rewrite Ep, Eu, uuid_parse_string. simpl. case_bool_decide; intros; simplify_eq; [right|by left].
    split_and!; [done..|]. unfold table_rows. simpl. rewrite fmap_app. simpl.
    rewrite <- Eu, row_of_snapshot by done. rewrite <- app_assoc. symmetry. apply Permutation_middle.
  - rewrite Eo, object_id_parse, uuid_parse_string. simpl. case_bool_decide; intros; simplify_eq; [right|by left].
    split_and!; [done..|]. unfold table_rows. simpl. rewrite fmap_app. simpl.
    rewrite <- Eo, row_of_snapshot by done. by rewrite app_assoc, <- Permutation_cons_append.
Qed.

Lemma filter_fmap_id {A} (f : A -> Snapshot) (P : Snapshot -> Prop) (Q : A -> Prop)
  `{forall r, Decision (P r)} `{forall r, Decision (Q r)} (l : list A) :
  (forall r, r ∈ l -> P (f r) <-> Q r) -> filter P (f <$> l) = f <$> filter Q l.
Proof.
  induction l as [|r l IH]; intros Hpq; [done|]. cbn [fmap list_fmap]. rewrite !filter_cons.
  destruct (Hpq r) as [H1 H2]; [set_solver|]. rewrite IH by (intros; apply Hpq; set_solver).
  by repeat case_decide; try tauto.
Qed.

Lemma filter_none {A} (P : A -> Prop) `{forall r, Decision (P r)} (l : list A) :
  (forall r, r ∈ l -> ~ P r) -> filter P l = [].
Proof.
  induction l as [|r l IH]; intros Hp; [done|]. rewrite filter_cons, decide_False by (apply Hp; set_solver).
  apply IH. set_solver.
Qed.

Lemma eq_Permutation {A} (l k : list A) : l = k -> l ≡ₚ k.
Proof. by intros ->. Qed.

(** The rows of a database, as the two queries select them. *)
Lemma select_spec d p : pg_named d ->
  filter (fun r => database_id r = d) (table_rows p) ≡ₚ select_archives d p /\
  StronglySorted newer (select_archives d p).
Proof.
  intros Hd.
  assert (Hs : forall l, StronglySorted newer (merge_sort newer l)).
  { intros l. apply StronglySorted_merge_sort.
    - intros a b c. unfold newer. lia.
    - intros a b. unfold newer. lia. }
  unfold select_archives, table_rows. rewrite filter_app.
  destruct (named_cases _ Hd) as [(u & -> & Ep)|(u & o & -> & _)].
  - rewrite Ep. split; [|done]. rewrite merge_sort_Permutation.
    rewrite (filter_none _ (_ <$> durable_object_archives p)), app_nil_r.
    2:{ intros r (x & -> & _)%list_elem_of_fmap E. symmetry in E. by apply database_not_object in E. }
    rewrite (filter_fmap_id _ _ (fun r => uuid_string r.1 = uuid_string u)) by done.
    apply eq_Permutation, list_fmap_ext. intros i [u' r] Hr%list_elem_of_lookup_2.
    apply list_elem_of_filter in Hr as [Hr _]. simpl in *. by rewrite Hr.
  - rewrite object_id_parse. split; [|done]. rewrite merge_sort_Permutation.
    rewrite (filter_none _ (_ <$> d1_archives p)). simpl.
    2:{ intros r (x & -> & _)%list_elem_of_fmap E. by apply database_not_object in E. }
    rewrite (filter_fmap_id _ _ (fun r => uuid_string r.1.1 = uuid_string u /\ r.1.2 = o)).
    2:{ intros [[u' o'] r] _. simpl. split; [apply object_id_inj|]. intros [E ->]. unfold object_id_of. by rewrite E. }
    apply eq_Permutation, list_fmap_ext. intros i [[u' o'] r] Hr%list_elem_of_lookup_2.
    apply list_elem_of_filter in Hr as [[Hu Ho] _]. simpl in *. unfold object_id_of. by rewrite Hu, Ho.
Qed.

Lemma delete_spec d n p : pg_named d ->
  table_rows (delete_archive d n p) = filter (fun r => ~ is_row d n r) (table_rows p).
Proof.
  intros Hd. unfold delete_archive, table_rows. rewrite filter_app.
  destruct (named_cases _ Hd) as [(u & -> & Ep)|(u & o & -> & _)].
  - rewrite Ep. simpl. f_equal; symmetry.
    + by apply filter_fmap_id.
    + apply filter_all. intros r (x & -> & _)%list_elem_of_fmap [E _]. symmetry in E. by apply database_not_object in E.
  - rewrite object_id_parse. simpl. f_equal; symmetry.
    + apply filter_all. intros r (x & -> & _)%list_elem_of_fmap [E _]. by apply database_not_object in E.
    + apply filter_fmap_id. intros [[u' o'] r] _. unfold is_row. simpl. split; intros Hn [E1 E2]; apply Hn.
      * destruct E1 as [E ->]. split; [|done]. unfold object_id_of. by rewrite E.
      * split; [by apply object_id_inj|done].
Qed.

Lemma set_faults_rows f p : table_rows (set_faults f p) = table_rows p.
Proof. done. Qed.

Lemma on_pool_inv {A} (m : SE Pg string A) x r x' : on_pool m x = (r, x') ->
  m (pool x) = (r, pool x') /\ pg_epoch x' = pg_epoch x.
Proof. unfold on_pool. destruct (m (pool x)) as [r1 p1]. intros. by simplify_eq. Qed.

Lemma pg_record_cases s x r x' : pg_named (database_id s) -> 0 <= size s < 2 ^ 64 ->
  pg_record s x = (r, x') ->
  (is_ok r = false /\ table_rows (pool x') = table_rows (pool x)) \/
  (table_rows (pool x') ≡ₚ s :: table_rows (pool x) /\ max_epoch (runner_epochs (pool x)) = Some (epoch s)).
Proof.
  intros Hd Hs E. apply SE_bind_inv in E as [(n & x1 & E1 & E)|(e & E1 & ->)];
    apply on_pool_inv in E1 as [E1 _]; apply pg_query_inv in E1 as [[? Ep]|(m & Ei & Er)]; try done.
  - apply insert_rows_spec in Ei as [[-> Ep]|(-> & He & Hp)]; [..|done|done].
    + assert (n = 0%nat) as -> by (destruct Er; [by simplify_eq|done]).
      simpl in E. injection E as <- <-. left. by rewrite Ep.
    + assert (n = 1%nat) as -> by (destruct Er; [by simplify_eq|done]).
      simpl in E. injection E as <- <-. right. by rewrite Hp.
  - left. by rewrite Ep.
  - apply insert_rows_spec in Ei as [[-> Ep]|(-> & He & Hp)]; [..|done|done].
    + left. by rewrite Ep.
    + right. by rewrite Hp.
Qed.

#[export, refine] Instance PgIndex_Index : Index PgIndex := {
  rows x := table_rows (pool x);
  index_epoch := pg_epoch;
  record := pg_record;
  list_of := pg_list;
  forget := pg_forget;
  named := pg_named;
}.
Proof.
  - apply pg_named_simple.
  - apply pg_named_plain.
  - intros r x x' Hd Hs E. by apply pg_record_cases in E as [[]|[]].
  - intros r x e x' Hd Hs E. apply pg_record_cases in E as [[_ E]|[E _]]; [left; by rewrite E|by right|done..].
  - intros d x r x' E. apply on_pool_inv in E as [E _].
    apply pg_query_inv in E as [[_ ->]|(l & El & _)]; [done|]. injection El as _ <-. done.
  - intros d x l x' Hd E. apply on_pool_inv in E as [E _].
    apply pg_query_inv in E as [[]|(l' & El & [Er|])]; [done| |done]. injection El as <- _. injection Er as ->.
    destruct (select_spec d (set_faults (tail (faults (pool x))) (pool x)) Hd) as [Hp Hs].
    split; [by rewrite <- Hp|]. apply Hs.
  - intros d n x x' Hd E. apply on_pool_inv in E as [E _].
    apply pg_query_inv in E as [[]|(u & El & _)]; [done|]. injection El as _ <-. by rewrite delete_spec.
  - intros d n x e x' Hd E. apply on_pool_inv in E as [E _].
    apply pg_query_inv in E as [[_ ->]|(u & El & _)]; [by left|]. injection El as _ <-. right. by rewrite delete_spec.
Defined.

Lemma max_epoch_ge l e : e ∈ l -> exists m, max_epoch l = Some m /\ e <= m.
Proof.
  induction l as [|x l IH]; [by intros ?%elem_of_nil|]. simpl. intros [->|He]%elem_of_cons.
  - destruct (max_epoch l) as [m|]; eexists; split; try done; lia.
  - destruct (IH He) as (m & -> & ?). eexists. split; [done|]. lia.
Qed.

(** The runner that started last owns the archive. Its epoch is above all
    the others; from then on a save of an earlier runner fails, and records
    nothing, even when the earlier runner is only paused and goes on later. *)
Theorem start_fences {St} `{!ObjectStore St} sha keep (p p' p2 : Pg) x (e now : Z) d bytes (s : St) r a' :
  start p = (Ok x, p') -> e ∈ runner_epochs p ->
  runner_epochs p' ⊆ runner_epochs p2 ->
  pg_named d -> str_len bytes < 2 ^ 64 ->
  save sha keep now d bytes (s, mkPgIndex p2 e) = (r, a') ->
  e < pg_epoch x /\ is_ok r = false /\ rows a'.2 = table_rows p2.
Proof.
  unfold start. intros Hst He Hsub Hd Hlen E.
  destruct (query _ p) as [[n|] q] eqn:Eq; simplify_eq/=.
  apply pg_query_inv in Eq as [[]|(m & Em & [Er|])]; [done| |done]. simplify_eq/=.
  destruct (max_epoch_ge _ _ He) as (top & Htop & Hle). rewrite Htop. simpl. split; [lia|].
  assert (Hmax : max_epoch (runner_epochs p2) <> Some e).
  { intros Hm. destruct (max_epoch_ge (runner_epochs p2) (1 + top)) as (m' & Hm' & ?).
    - apply Hsub. simpl. rewrite Htop. set_solver.
    - simplify_eq. lia. }
  apply SE_bind_inv in E as [(e' & a0 & E0 & E)|(? & E0 & ->)]; [|done]. injection E0 as <- <-. simpl in E.
  apply SE_bind_inv in E as [([] & a1 & E1 & E)|(err & E1 & ->)]; apply on_fst_inv in E1 as [_ Ea1];
    [|by rewrite Ea1].
  apply SE_bind_inv in E as [(st & a2 & E2 & E)|(err & E2 & ->)]; apply on_fst_inv in E2 as [_ Ea2];
    [|by rewrite Ea2, Ea1].
  apply SE_bind_inv in E as [([] & a3 & E3 & E)|(err & E3 & ->)].
  2:{ revert E3. case_bool_decide; intros [= <- <-]. by rewrite Ea2, Ea1. }
  assert (a3 = a2) as -> by (revert E3; case_bool_decide; intros E3; by injection E3).
  apply SE_bind_inv in E as [([] & a4 & E4 & E)|(err & E4 & ->)]; apply on_snd_inv in E4 as [E4 Ea4];
    apply pg_record_cases in E4; try (by split; [apply str_len_nonneg|]); try done;
    rewrite Ea2, Ea1 in E4; destruct E4 as [[Hb Hr]|[_ Hr]]; done.
Qed.

End pg.
Arguments Pg U : clear implicits.
Arguments PgIndex U : clear implicits.

(** ** A store in memory

    The instance the witnesses evaluate. *)

Record mem_store := MemStore { mem_objects : gmap string string; mem_faults : list fault }.

Definition mem_call {A} (run : gmap string string -> A * gmap string string) : SE mem_store string A := fun s =>
  let '(a, o) := run (mem_objects s) in
  match default Works (head (mem_faults s)) with
  | Works => (Ok a, MemStore o (tail (mem_faults s)))
  | Fails e => (Err e, MemStore (mem_objects s) (tail (mem_faults s)))
  | Lost e => (Err e, MemStore o (tail (mem_faults s)))
  end.

Lemma mem_call_inv {A} run s (r : result A string) s' : mem_call run s = (r, s') ->
  (mem_objects s' = mem_objects s /\ is_ok r = false) \/
  (mem_objects s' = (run (mem_objects s)).2 /\ (r = Ok (run (mem_objects s)).1 \/ is_ok r = false)).
Proof. unfold mem_call. destruct (run _) as [a o]. simpl. case_match; intros; simplify_eq; simpl; auto. Qed.

#[export, refine] Instance mem_ObjectStore : ObjectStore mem_store := {
  objects := mem_objects;
  store_put k b := mem_call (fun o => (tt, <[k := b]> o));
  store_get k := mem_call (fun o => (o !! k, o));
  store_size k := mem_call (fun o => (str_len <$> o !! k, o));
  store_delete k := mem_call (fun o => (tt, delete k o));
  storable _ := True;
}.
Proof.
  - done.
  - intros k b s s' _ E. apply mem_call_inv in E as [[]|[-> _]]; [done|]. apply lookup_insert_eq.
  - intros k b s r s' j _ E Hj. apply mem_call_inv in E as [[-> _]|[-> _]]; [done|]. by apply lookup_insert_ne.
  - intros k s r s' _ E. by apply mem_call_inv in E as [[-> _]|[-> _]].
  - intros k s v s' _ E. apply mem_call_inv in E as [[]|[_ [E|]]]; [done|by simplify_eq|done].
  - intros k s r s' _ E. by apply mem_call_inv in E as [[-> _]|[-> _]].
  - intros k s v s' _ E _. apply mem_call_inv in E as [[]|[_ [E|]]]; [done|by simplify_eq|done].
  - intros k s r s' j _ E Hj. apply mem_call_inv in E as [[-> _]|[-> _]]; [done|]. by apply lookup_delete_ne.
Defined.

Definition ex_sha (s : string) : string := s.
Definition ex_state : mem_store * PgIndex text_uuid := (MemStore ∅ [], mkPgIndex (mkPg [1] [] [] []) 1).

(** The state after saves of one-byte copies at these times. *)
Definition ex_saves (times : list Z) : mem_store * PgIndex text_uuid :=
  foldl (fun a t => (save ex_sha 3 t ex_ns (show_Z t) a).2) ex_state times.

Lemma ex_named : named (Ix := PgIndex text_uuid) ex_ns.
Proof. left. by exists ex_uuid. Qed.

Lemma ex_saves_1 : rows (ex_saves [10]).2 = [mkSnapshot ex_ns 10 1 (snapshot_key ex_ns 1 10) "10" 2] /\
  objects (ex_saves [10]).1 !! snapshot_key ex_ns 1 10 = Some "10".
Proof. split; vm_compute; reflexivity. Qed.

Lemma ex_ok : archive_ok ex_sha (ex_saves [10]).
Proof.
  destruct ex_saves_1 as [Hr Ho]. unfold archive_ok. rewrite Hr. split.
  - constructor; [|constructor]. split_and!; [apply ex_named|done|]. by exists "10".
  - apply NoDup_singleton.
Qed.

Lemma save_replaces_current_witness :
  exists s a', save ex_sha 3 20 ex_ns "20" (ex_saves [10]) = (Ok s, a') /\ current a' ex_ns = Some "20".
Proof.
  destruct (save ex_sha 3 20 ex_ns "20" (ex_saves [10])) as [r a'] eqn:E.
  assert (Hr : is_ok r = true) by (apply (f_equal fst) in E; vm_compute in E; by subst r).
  destruct r as [s|]; [|done]. exists s, a'. split; [done|].
  refine (proj2 (proj2 (save_replaces_current ex_sha 3 _ ex_ns "20" 20 _ a' ex_ok ex_named _ _ _ E))); [lia|done|].
  destruct ex_saves_1 as [-> _]. intros x ->%list_elem_of_singleton _. simpl. lia.
Defined.

Lemma restore_gives_current_witness :
  exists a', fetch_latest ex_sha ex_ns (ex_saves [10]) = (Ok (Some "10"), a') /\
    current (ex_saves [10]) ex_ns = Some "10".
Proof.
  destruct (fetch_latest ex_sha ex_ns (ex_saves [10])) as [r a'] eqn:E.
  assert (Hr : r = Ok (Some "10")) by (apply (f_equal fst) in E; vm_compute in E; by subst r).
  subst r. exists a'. split; [done|]. symmetry.
  exact (proj2 (proj2 (proj1 (restore_gives_current ex_sha _ ex_ns _ a' ex_ok ex_named) E))).
Defined.

Lemma start_fences_witness :
  exists x p' a', start (pool ex_state.2) = (Ok x, p') /\
    save ex_sha 3 20 ex_ns "20" (ex_state.1, mkPgIndex p' 1) =
      (Err "epoch 1 is no longer the latest: another runner started", a') /\ 1 < pg_epoch x.
Proof.
  destruct (start (pool ex_state.2)) as [[x|] p'] eqn:E; [|done].
  destruct (save ex_sha 3 20 ex_ns "20" (ex_state.1, mkPgIndex p' 1)) as [r a'] eqn:Es.
  assert (Hr : r = Err "epoch 1 is no longer the latest: another runner started").
  { pose proof (f_equal snd E) as Ep. vm_compute in Ep. rewrite <- Ep in Es.
    apply (f_equal fst) in Es. vm_compute in Es. by rewrite Es. }
  subst r. exists x, p', a'. split_and!; [done|exact Es|].
  refine (proj1 (start_fences ex_sha 3 _ p' p' x 1 20 ex_ns "20" _ _ a' E _ _ _ _ Es));
    [by apply list_elem_of_singleton|done|apply ex_named|done].
Defined.

(** Snapshots are ordered by the clock of the runner alone. When the clock
    steps back below the snapshots kept, a save answers that it succeeded, and
    its own cleanup has deleted what it saved: the current copy is an older
    one, and the runner counts the commits as saved. *)
Theorem clock_back_drops_snapshot :
  let a := ex_saves [10; 20; 30] in
  exists row a', save ex_sha 3 5 ex_ns "5" a = (Ok row, a') /\
    current a ex_ns = Some "30" /\ current a' ex_ns = Some "30" /\
    row ∉ rows a'.2 /\ objects a'.1 !! key row = None.
Proof.
  destruct (save ex_sha 3 5 ex_ns "5" (ex_saves [10; 20; 30])) as [r a'] eqn:E.
  assert (Hr : (match r with Ok row => bool_decide (row ∉ rows a'.2) &&
      bool_decide (objects a'.1 !! key row = None) && bool_decide (current a' ex_ns = Some "30")
    | Err _ => false end) = true).
  { replace r with (save ex_sha 3 5 ex_ns "5" (ex_saves [10; 20; 30])).1 by by rewrite E.
    replace a' with (save ex_sha 3 5 ex_ns "5" (ex_saves [10; 20; 30])).2 by by rewrite E.
    vm_compute. reflexivity. }
  destruct r as [row|]; [|done]. reflect_bools. exists row, a'. split_and!; try done.
Qed.
