(* ===== verification/Storage.v ===== *)
(** * Object storage (src/src/services/storage.rs)

    The keys a worker names are cleaned, put under the prefix of the binding
    and sent as URLs to an S3 server. [sanitize_path] and the operations are
    the source's; percent decoding, the URL parser, the request signer and the
    HTTP client are interfaces. [S3Store] of src/src/d1/archive.rs is an object
    store for the snapshots of databases. *)

From S2P Require Import Prelude RustStr Extern Url Store D1Keys D1Archive.

(** ** Paths *)

(** Decodes until nothing changes, [n] times at most. *)
Fixpoint decode_rounds {pct : Percent} (n : nat) (current : string) : option string :=
  match n with
  | O => Some current
  | S n =>
    decoded ← decode_utf8 current;
    if String.eqb decoded current then Some current else decode_rounds n decoded
  end.

Definition kept_component (p : string) : bool := negb (is_empty p) && negb (String.eqb p ".").

Definition sanitize_path {pct : Percent} (path : string) : option string :=
  current ← decode_rounds 10 path;
  if contains_char "000" current then None else
  if contains_str ".." current then None else
  Some (str_join "/" (List.filter kept_component (split "/" current))).

(** ** Operations *)

Inductive StorageOp : Type :=
  | SGet (key : string) | SFetch (key : string) | SPut (key body : string) | SHead (key : string)
  | SDelete (key : string) | SList (prefix : option string) (limit : option Z).

(** What the HTTP client gives: reading the body can fail. *)
Record Response := mkResponse { status : Z; headers : list (string * string); body : result string string }.

Record HttpResponse := mkHttpResponse { h_status : Z; h_headers : list (string * string); h_body : string }.

Inductive StorageResult : Type :=
  | SBody (body : option string) | SResponse (r : HttpResponse) | SHeadResult (size : Z) (etag : option string)
  | SKeys (keys : list string) (truncated : bool) | SError (e : string).

Record Credentials := mkCredentials { access_key_id : string; secret_access_key : string }.

(** Where signing a request fails. *)
Inductive sign_error : Type := BuildParams (e : string) | MakeSignable (e : string) | SignRequest (e : string).

Definition sign_error_text (e : sign_error) : string :=
  match e with
  | BuildParams e => "Failed to build signing params: " +:+ e
  | MakeSignable e => "Failed to create signable request: " +:+ e
  | SignRequest e => "Failed to sign request: " +:+ e
  end.

(** The signer, the HTTP client, and the encoding of text. *)
Class S3Client (U Sv : Type) := {
  sha256_hex : string -> string;
  (** The headers to add to a request, from its method, its target, the
      headers signed, the region and the body. *)
  sign : Credentials -> string -> string -> string -> list (string * string) -> string ->
    result (list (string * string)) sign_error;
  http_send : string -> U -> gmap string string -> option string -> SE Sv string Response;
  utf8_lossy : string -> string;
}.

Section storage.
Context {U Sv : Type} {pct : Percent} {url : UrlLib U} {client : S3Client U Sv} {hv : HeaderValue}.

Definition build_full_key (cfg : StorageConfig) (key : string) : result string string :=
  match sanitize_path key with
  | None => Err "Invalid key: directory traversal not allowed"
  | Some sanitized =>
    match sc_prefix cfg with
    | Some prefix => Ok (trim_end_matches "/" prefix +:+ "/" +:+ sanitized)
    | None => Ok sanitized
    end
  end.

Definition strip_config_prefix (cfg : StorageConfig) (key : string) : string :=
  match sc_prefix cfg with
  | Some prefix => default key (strip_prefix (trim_end_matches "/" prefix +:+ "/") key)
  | None => key
  end.

Definition build_s3_url (cfg : StorageConfig) (url_or_path : string) : result string string :=
  let path := if starts_with "http://" url_or_path || starts_with "https://" url_or_path
    then match url_parse url_or_path with Ok u => url_path u | Err _ => url_or_path end
    else url_or_path in
  match sanitize_path path with
  | None => Err "Invalid path: traversal not allowed"
  | Some sanitized =>
    let full_path := match sc_prefix cfg with
      | Some prefix => trim_end_matches "/" prefix +:+ "/" +:+ sanitized
      | None => trim_start_matches "/" path
      end in
    Ok (sc_endpoint cfg +:+ "/" +:+ sc_bucket cfg +:+ "/" +:+ full_path)
  end.

Definition compute_signature_headers (method uri host region : string) (credentials : Credentials) (body : string) :
  result (gmap string string * string) string :=
  let body_hash := sha256_hex body in
  instructions <-? result_map_err sign_error_text (sign credentials region method uri
    [("host", host); ("x-amz-content-sha256", body_hash)] body);
  Ok (foldl (fun m nv => <[nv.1 := nv.2]> m)
        (<["x-amz-content-sha256" := body_hash]> (<["host" := host]> (∅ : gmap string string))) instructions,
      body_hash).

Definition sign_and_execute_raw (method url host region : string) (credentials : Credentials) (body : option string) :
  SE Sv string Response :=
  parsed ← lift (url_parse url);
  let uri := url_path parsed +:+ match url_query parsed with Some q => "?" +:+ q | None => "" end in
  signed ← lift (compute_signature_headers method uri host region credentials (default "" body));
  if bool_decide (method ∈ ["GET"; "PUT"; "DELETE"; "HEAD"]) then
    with_error (fun e => "HTTP request failed: " +:+ e)
      (http_send method parsed signed.1 (if String.eqb method "PUT" then body else None))
  else throw ("Unsupported method: " +:+ method).

Definition read_body (r : Response) : result string string :=
  result_map_err (fun e => "Failed to read response body: " +:+ e) (body r).

Definition sign_and_execute (method url host region : string) (credentials : Credentials) (body : option string) :
  SE Sv string (Z * string) :=
  response ← sign_and_execute_raw method url host region credentials body;
  bytes ← lift (read_body response);
  mret (status response, bytes).

Definition sign_and_execute_response (method url host region : string) (credentials : Credentials)
  (body : option string) : SE Sv string HttpResponse :=
  response ← sign_and_execute_raw method url host region credentials body;
  bytes ← lift (read_body response);
  mret (mkHttpResponse (status response)
    (omap (fun kv => v ← hv_to_str kv.2; Some (kv.1, v)) (headers response)) bytes).

Definition sign_and_execute_head (url host region : string) (credentials : Credentials) :
  SE Sv string (Z * Z * option string) :=
  response ← sign_and_execute_raw "HEAD" url host region credentials None;
  let size := v ← assoc "content-length" (headers response); t ← hv_to_str v; parse_uint U64_MAX t in
  let etag := v ← assoc "etag" (headers response); t ← hv_to_str v;
    Some (trim_matches (ascii_of_nat 34) t) in
  mret (status response, default 0 size, etag).

(** The keys between the tags of a listing. *)
Definition parse_list_response (xml : string) : list string :=
  omap (fun part => end_ ← find_str "</Key>" part; Some end_.1) (split_str "<Key>" xml).

Definition list_prefix (cfg : StorageConfig) (prefix : option string) : string :=
  match sc_prefix cfg, prefix with
  | Some p, Some user_p => trim_end_matches "/" p +:+ (if is_empty user_p then "" else "/") +:+ user_p
  | Some p, None => p
  | None, Some user_p => user_p
  | None, None => ""
  end.

Definition list_url (cfg : StorageConfig) (prefix : option string) (limit : option Z) : string :=
  let lp := list_prefix cfg prefix in
  sc_endpoint cfg +:+ "/" +:+ sc_bucket cfg +:+ "?list-type=2" +:+
  (if is_empty lp then "" else "&prefix=" +:+ lp) +:+
  match limit with Some max => "&max-keys=" +:+ show_Z max | None => "" end.

Definition object_url (cfg : StorageConfig) (full_key : string) : string :=
  sc_endpoint cfg +:+ "/" +:+ sc_bucket cfg +:+ "/" +:+ full_key.

Definition failed (what : string) (st : Z) (b : string) : StorageResult :=
  SError ("S3 " +:+ what +:+ " failed with status " +:+ show_Z st +:+ ": " +:+ utf8_lossy b).

Definition region_of (cfg : StorageConfig) : string := default "auto" (sc_region cfg).
Definition credentials_of (cfg : StorageConfig) : Credentials :=
  mkCredentials (sc_access_key_id cfg) (sc_secret_access_key cfg).

Definition endpoint_host (cfg : StorageConfig) : result string string :=
  match url_parse (sc_endpoint cfg) with
  | Err e => Err ("Invalid endpoint URL: " +:+ e)
  | Ok u => match host_str u with Some h => Ok h | None => Err "Endpoint URL has no host" end
  end.

(** The request of one operation, whose errors all become a result. *)
Definition s3_request (cfg : StorageConfig) (op : StorageOp) : SE Sv string StorageResult :=
  let region := region_of cfg in
  let credentials := credentials_of cfg in
  host ← lift (endpoint_host cfg);
  match op with
  | SGet key =>
    full_key ← lift (build_full_key cfg key);
    r ← sign_and_execute "GET" (object_url cfg full_key) host region credentials None;
    mret (if r.1 =? 200 then SBody (Some r.2) else if r.1 =? 404 then SBody None else failed "GET" r.1 r.2)
  | SFetch key =>
    full_key ← lift (build_full_key cfg key);
    r ← sign_and_execute_response "GET" (object_url cfg full_key) host region credentials None;
    mret (SResponse r)
  | SPut key body =>
    full_key ← lift (build_full_key cfg key);
    r ← sign_and_execute "PUT" (object_url cfg full_key) host region credentials (Some body);
    mret (if (r.1 =? 200) || (r.1 =? 201) then SBody None else failed "PUT" r.1 r.2)
  | SHead key =>
    full_key ← lift (build_full_key cfg key);
    r ← sign_and_execute_head (object_url cfg full_key) host region credentials;
    mret (let '(st, size, etag) := r in
      if st =? 200 then SHeadResult size etag
      else if st =? 404 then SError "Object not found"
      else SError ("S3 HEAD failed with status " +:+ show_Z st))
  | SDelete key =>
    full_key ← lift (build_full_key cfg key);
    r ← sign_and_execute "DELETE" (object_url cfg full_key) host region credentials None;
    mret (if (r.1 =? 200) || (r.1 =? 204) then SBody None else failed "DELETE" r.1 r.2)
  | SList prefix limit =>
    r ← sign_and_execute "GET" (list_url cfg prefix limit) host region credentials None;
    mret (if r.1 =? 200 then
        let body_str := utf8_lossy r.2 in
        SKeys (map (strip_config_prefix cfg) (parse_list_response body_str))
          (contains_str "<IsTruncated>true</IsTruncated>" body_str)
      else failed "LIST" r.1 r.2)
  end.

Definition execute_s3_operation (cfg : StorageConfig) (op : StorageOp) (s : Sv) : StorageResult * Sv :=
  match s3_request cfg op s with
  | (Ok r, s') => (r, s')
  | (Err e, s') => (SError e, s')
  end.

(** ** [S3Store] *)

Definition on_result {A} (cfg : StorageConfig) (op : StorageOp) (f : StorageResult -> result A string) :
  SE Sv string A := fun s => let '(r, s') := execute_s3_operation cfg op s in (f r, s').

Definition s3_put (cfg : StorageConfig) (key bytes : string) : SE Sv string unit :=
  on_result cfg (SPut key bytes) (fun r => match r with SError e => Err e | _ => Ok tt end).

Definition s3_get (cfg : StorageConfig) (key : string) : SE Sv string (option string) :=
  on_result cfg (SGet key) (fun r => match r with
    | SBody b => Ok b | SError e => Err e | _ => Err "unexpected S3 result" end).

Definition s3_size (cfg : StorageConfig) (key : string) : SE Sv string (option Z) :=
  on_result cfg (SHead key) (fun r => match r with
    | SHeadResult size _ => Ok (Some size)
    | SError e => if String.eqb e "Object not found" then Ok None else Err e
    | _ => Err "unexpected S3 result" end).

Definition s3_delete (cfg : StorageConfig) (key : string) : SE Sv string unit :=
  on_result cfg (SDelete key) (fun r => match r with SError e => Err e | _ => Ok tt end).
End storage.

(** ** What [sanitize_path] accepts *)

(** ** The settings of the archive

    Times are seconds. *)

Record ArchiveConfig := mkArchiveConfig {
  ac_storage : StorageConfig; ac_interval : Z; ac_alert_after : Z; ac_pause_after : Z; ac_keep : nat }.

Definition env_var (env : string -> option string) (name : string) : option string :=
  v ← env name; if is_empty v then None else Some v.

Definition env_secs (env : string -> option string) (name : string) (dflt : Z) : Z :=
  default dflt (v ← env_var env name; parse_uint U64_MAX v).

Definition archive_from_env (env : string -> option string) : option ArchiveConfig :=
  endpoint ← env_var env "D1_ARCHIVE_ENDPOINT";
  bucket ← env_var env "D1_ARCHIVE_BUCKET";
  access_key_id ← env_var env "D1_ARCHIVE_ACCESS_KEY_ID";
  secret_access_key ← env_var env "D1_ARCHIVE_SECRET_ACCESS_KEY";
  Some (mkArchiveConfig
    (mkStorageConfig "d1-archive" bucket (env_var env "D1_ARCHIVE_PREFIX") access_key_id secret_access_key
       (trim_end_matches "/" endpoint) (env_var env "D1_ARCHIVE_REGION") None)
    (env_secs env "D1_SNAPSHOT_SECS" 300) (env_secs env "D1_SNAPSHOT_ALERT_SECS" (15 * 60))
    (env_secs env "D1_SNAPSHOT_PAUSE_SECS" (60 * 60)) 3).

(** Without a key the archive is off, whatever the endpoint. *)
Example archive_needs_keys :
  archive_from_env (fun name => if String.eqb name "D1_ARCHIVE_ENDPOINT" then Some "https://s3/" else
                                if String.eqb name "D1_ARCHIVE_BUCKET" then Some "b" else None) = None.
Proof. reflexivity. Qed.

Section sanitize_props.
Context {pct : Percent}.

Lemma decode_rounds_spec n s r : decode_rounds n s = Some r ->
  stable r \/ (String.length r + 2 * n <= String.length s)%nat.
Proof.
  revert s. induction n as [|n IH]; intros s; simpl.
  - intros; simplify_eq. right. lia.
  - destruct (decode_utf8 s) as [t|] eqn:E; [|done]. apply decode_utf8_bytes in E as ->. simpl.
    destruct (String.eqb_spec (percent_bytes s) s) as [Es|Es]; [intros; simplify_eq; by left|].
    intros [?|?]%IH; [by left|right]. destruct (percent_bytes_length s); [done|lia].
Qed.

Lemma decode_rounds_stable n s : stable s -> (0 < n)%nat -> decode_rounds n s = Some s.
Proof.
  intros Hs Hn. destruct n; [lia|]. simpl. rewrite decode_utf8_stable by done. simpl. by rewrite String.eqb_refl.
Qed.

Definition clean (s : string) : Prop := contains_char "000" s = false /\ contains_str ".." s = false.

Lemma clean_slash a b : clean (a +:+ String "/" b) <-> clean a /\ clean b.
Proof. unfold clean. rewrite no_char_slash, no_dots_slash by done. tauto. Qed.

Lemma sanitize_path_Some path c : sanitize_path path = Some c <-> exists cur,
  decode_rounds 10 path = Some cur /\ clean cur /\ c = str_join "/" (List.filter kept_component (split "/" cur)).
Proof.
  unfold sanitize_path, clean. destruct (decode_rounds 10 path) as [cur|]; [|split; [done|]; by intros (? & ? & _)].
  cbn [mbind option_bind]. split.
  - do 2 (case_match; [done|]). intros; simplify_eq. by exists cur.
  - intros (cur' & E & [Hn Hd] & ->). injection E as <-. by rewrite Hn, Hd.
Qed.

Lemma filter_kept l : Forall (fun x => kept_component x = true) l -> List.filter kept_component l = l.
Proof. induction 1 as [|x l Hx _ IH]; [done|]. simpl. by rewrite Hx, IH. Qed.

Lemma kept_filter (P : string -> Prop) l : Forall P l ->
  Forall (fun x => P x /\ kept_component x = true) (List.filter kept_component l).
Proof. induction 1 as [|x l Hx _ IH]; [done|]. simpl. destruct (kept_component x) eqn:E; [by constructor|done]. Qed.

(** A clean path of components, none of them to be dropped, is left alone. *)
Lemma sanitize_fixed l : Forall (fun x => stable x /\ clean x /\ contains_char "/" x = false /\ kept_component x = true) l ->
  sanitize_path (str_join "/" l) = Some (str_join "/" l).
Proof.
  intros Hl. destruct (decide (l = [])) as [->|Hne].
  { apply sanitize_path_Some. exists "". by rewrite decode_rounds_stable by (done || lia). }
  apply sanitize_path_Some. exists (str_join "/" l). split_and!.
  - apply decode_rounds_stable; [|lia]. apply join_iff; [apply stable_slash|done|].
    eapply Forall_impl; [exact Hl|naive_solver].
  - apply join_iff; [apply clean_slash|done|]. eapply Forall_impl; [exact Hl|naive_solver].
  - rewrite split_join by (done || (eapply Forall_impl; [exact Hl|naive_solver])).
    by rewrite filter_kept by (eapply Forall_impl; [exact Hl|naive_solver]).
Qed.

(** C22. A path that is accepted holds no NUL, no double dot, no empty and no
    dot component. Ten rounds of decoding are enough for a path of at most 22
    bytes: it has no escape left, and cleaning it again changes nothing. *)
Theorem sanitize_confined path c : sanitize_path path = Some c ->
  contains_char "000" c = false /\ contains_str ".." c = false /\
  (c = "" \/ Forall (fun x => x <> "" /\ x <> "." /\ x <> "..") (split "/" c)) /\
  ((String.length path <= 22)%nat -> stable c /\ sanitize_path c = Some c).
Proof.
  intros (cur & Ed & Hc & ->)%sanitize_path_Some.
  pose proof (proj1 (split_iff clean cur clean_slash) Hc) as Hp.
  assert (Hsep : Forall (fun x => contains_char "/" x = false) (split "/" cur))
    by (apply Forall_forall; intros; by eapply split_no_sep).
  pose proof (kept_filter _ _ (proj2 (Forall_and _ _) (conj Hp Hsep))) as Hk.
  set (l := List.filter kept_component (split "/" cur)) in *.
  assert (Hcl : clean (str_join "/" l)).
  { destruct (decide (l = [])) as [->|]; [done|]. apply join_iff; [apply clean_slash|done|].
    eapply Forall_impl; [exact Hk|naive_solver]. }
  split_and!; [apply Hcl|apply Hcl|..].
  - destruct (decide (l = [])) as [->|Hne]; [by left|right].
    rewrite split_join by (done || (eapply Forall_impl; [exact Hk|naive_solver])).
    eapply Forall_impl; [exact Hk|]. intros x [[[_ Hx] _] Hkx]. split_and!; by intros ->.
  - intros Hlen. assert (Hs : stable cur).
    { apply decode_rounds_spec in Ed as [?|?]; [done|]. apply short_stable. lia. }
    apply (split_iff stable cur stable_slash), kept_filter in Hs. fold l in Hs.
    pose proof (proj2 (Forall_and _ _) (conj Hk Hs)) as Ha. split.
    + destruct (decide (l = [])) as [->|]; [done|]. apply join_iff; [apply stable_slash|done|].
      eapply Forall_impl; [exact Hs|naive_solver].
    + apply sanitize_fixed. eapply Forall_impl; [exact Ha|naive_solver].
Qed.
End sanitize_props.

(** ** What an S3 server does

    [s3_objects]: the objects it holds, by bucket and key. A request that
    fails or is refused can have done its work. *)

Definition names {U} {url : UrlLib U} (u : U) (b k : string) : Prop :=
  url_path u = "/" +:+ b +:+ "/" +:+ k /\ url_query u = None /\ plain_segment b = true /\ plain_path k.

Class S3Api (U Sv : Type) {url : UrlLib U} {client : S3Client U Sv} {hv : HeaderValue} := {
  s3_objects : Sv -> gmap (string * string) string;
  send_other m u b k hs body s r s' j : names u b k -> http_send m u hs body s = (r, s') -> j <> (b, k) ->
    s3_objects s' !! j = s3_objects s !! j;
  send_read m u b k hs s r s' : names u b k -> m ∈ ["GET"; "HEAD"] -> http_send m u hs None s = (r, s') ->
    s3_objects s' = s3_objects s;
  send_put u b k hs body s r s' : names u b k -> http_send "PUT" u hs (Some body) s = (Ok r, s') ->
    status r = 200 \/ status r = 201 -> s3_objects s' !! (b, k) = Some body;
  send_get u b k hs s r s' : names u b k -> http_send "GET" u hs None s = (Ok r, s') ->
    (forall bytes, status r = 200 -> body r = Ok bytes -> s3_objects s !! (b, k) = Some bytes) /\
    (status r = 404 -> s3_objects s !! (b, k) = None);
  send_head u b k hs s r s' : names u b k -> http_send "HEAD" u hs None s = (Ok r, s') ->
    (status r = 200 -> exists bytes, s3_objects s !! (b, k) = Some bytes /\
      exists v, assoc "content-length" (headers r) = Some v /\ hv_to_str v = Some v /\ v = show_Z (str_len bytes)) /\
    (status r = 404 -> s3_objects s !! (b, k) = None);
}.

Section s3_store.
Context {U Sv : Type} {pct : Percent} {url : UrlLib U} {client : S3Client U Sv} {hv : HeaderValue}
  {api : S3Api U Sv}.

Definition full_key (cfg : StorageConfig) (key : string) : string :=
  match sc_prefix cfg with Some p => trim_end_matches "/" p +:+ "/" +:+ key | None => key end.

(** An endpoint without a path, a bucket and a prefix that need no encoding. *)
Definition config_ok (cfg : StorageConfig) : Prop :=
  http_origin (sc_endpoint cfg) /\ plain_segment (sc_bucket cfg) = true /\
  match sc_prefix cfg with Some p => plain_path (trim_end_matches "/" p) | None => True end.

Lemma plain_clean k : plain_path k -> Forall (fun x => stable x /\ clean x /\ contains_char "/" x = false /\
  kept_component x = true) (split "/" k).
Proof.
  intros Hk. eapply Forall_impl; [exact Hk|]. intros x Hx.
  pose proof Hx as (Hu & Hne & Hd & Hdd)%plain_segment_spec. split_and!.
  - apply no_percent_stable. by apply (all_bytes_contains is_unreserved).
  - split; [by apply (all_bytes_contains is_unreserved)|done].
  - by apply plain_no_slash.
  - unfold kept_component. destruct x; [done|]. by destruct (String.eqb_spec (String a x) ".").
Qed.

Lemma plain_parts k : plain_path k -> sanitize_path k = Some k.
Proof.
  intros Hk. pose proof (sanitize_fixed (split "/" k)) as H. rewrite str_join_split in H. apply H. by apply plain_clean.
Qed.

Lemma build_full_key_plain cfg k : plain_path k -> build_full_key cfg k = Ok (full_key cfg k).
Proof. intros Hk. unfold build_full_key, full_key. rewrite plain_parts by done. by destruct (sc_prefix cfg). Qed.

Lemma plain_path_app a b : plain_path a -> plain_path b -> plain_path (a +:+ "/" +:+ b).
Proof. unfold plain_path. rewrite split_slash_app. intros. by apply Forall_app. Qed.

Lemma full_key_plain cfg k : config_ok cfg -> plain_path k -> plain_path (full_key cfg k).
Proof.
  intros (_ & _ & Hp) Hk. unfold full_key. destruct (sc_prefix cfg); [by apply plain_path_app|done].
Qed.

Lemma full_key_inj cfg k k' : full_key cfg k = full_key cfg k' -> k = k'.
Proof. unfold full_key. destruct (sc_prefix cfg) as [p|]; [|done]. intros E%app_inj_l. by simplify_eq/=. Qed.

(** The URL of an object names it. *)
Lemma object_url_names cfg k h : config_ok cfg -> plain_path k -> endpoint_host cfg = Ok h ->
  exists u, url_parse (object_url cfg (full_key cfg k)) = Ok u /\ names u (sc_bucket cfg) (full_key cfg k).
Proof.
  intros Hc Hk Hh. pose proof (full_key_plain cfg k Hc Hk) as Hf. destruct Hc as (He & Hb & _).
  unfold endpoint_host in Hh. destruct (url_parse (sc_endpoint cfg)) as [u|] eqn:Eu; [|done].
  assert (Hp : plain_path (sc_bucket cfg +:+ "/" +:+ full_key cfg k)).
  { apply plain_path_app; [|done]. unfold plain_path.
    rewrite split_none by by apply plain_no_slash. by repeat constructor. }
  destruct (parse_plain _ _ _ He Hp Eu) as (v & Ev & _ & Hv & Hq). by exists v.
Qed.

(** Every request either fails before it is sent, or is sent. *)
Lemma raw_inv m target host region cred b s r s' :
  sign_and_execute_raw m target host region cred b s = (r, s') ->
  (s' = s /\ is_ok r = false) \/
  exists u hs rr, url_parse target = Ok u /\
    http_send m u hs (if String.eqb m "PUT" then b else None) s = (rr, s') /\
    r = result_map_err (fun e => "HTTP request failed: " +:+ e) rr.
Proof.
  unfold sign_and_execute_raw. intros E. apply SE_bind_inv in E as [(u & s1 & E1 & E)|(e & E1 & ->)];
    unfold lift in E1; injection E1 as Eu <-; [|by left].
  apply SE_bind_inv in E as [(sg & s1 & E1 & E)|(e & E1 & ->)]; injection E1 as _ <-; [|by left].
  case_bool_decide; [|left; unfold throw in E; by injection E as <- <-].
  unfold with_error in E. destruct (http_send _ _ _ _ _) as [rr s1] eqn:Es. injection E as <- <-.
  right. by exists u, sg.1, rr.
Qed.

(** A request for the object of a plain key. *)
Lemma s3_execute_inv cfg k m b h s r s' : config_ok cfg -> plain_path k -> endpoint_host cfg = Ok h ->
  sign_and_execute m (object_url cfg (full_key cfg k)) h (region_of cfg) (credentials_of cfg) b s = (r, s') ->
  (s' = s /\ is_ok r = false) \/
  exists u hs rr, names u (sc_bucket cfg) (full_key cfg k) /\
    http_send m u hs (if String.eqb m "PUT" then b else None) s = (rr, s') /\
    forall st bytes, r = Ok (st, bytes) -> exists resp, rr = Ok resp /\ status resp = st /\ body resp = Ok bytes.
Proof.
  intros Hc Hk Hh E. destruct (object_url_names cfg k h Hc Hk Hh) as (u & Eu & Hu).
  unfold sign_and_execute in E. apply SE_bind_inv in E as [(resp & s1 & E1 & E)|(e & E1 & ->)];
    apply raw_inv in E1 as [[-> ?]|(u' & hs & rr & Eu' & Es & Er)]; try (by left);
    try done; assert (u' = u) as -> by congruence.
  - destruct rr as [resp'|]; [|done]. injection Er as ->. right. exists u, hs, (Ok resp'). split; [done|].
    apply SE_bind_inv in E as [(bytes & s2 & E2 & E)|(e & E2 & ->)]; injection E2 as Eb <-.
    + injection E as <- <-. split; [done|]. intros st bytes' [= <- <-]. exists resp'. split_and!; [done..|].
      unfold read_body in Eb. destruct (body resp'); by simplify_eq/=.
    + done.
  - right. by exists u, hs, rr.
Qed.

Lemma keyed_inv {A} cfg k (run : string -> string -> SE Sv string A) (f : A -> StorageResult) s r s' :
  plain_path k ->
  (host ← lift (endpoint_host cfg); full ← lift (build_full_key cfg k); a ← run host full; mret (f a) : SE Sv string _)
    s = (r, s') ->
  (s' = s /\ is_ok r = false) \/
  exists h ra, endpoint_host cfg = Ok h /\ run h (full_key cfg k) s = (ra, s') /\
    r = match ra with Ok a => Ok (f a) | Err e => Err e end.
Proof.
  intros Hk E. apply SE_bind_inv in E as [(h & s1 & E1 & E)|(e & E1 & ->)]; injection E1 as Eh <-; [|by left].
  apply SE_bind_inv in E as [(full & s1 & E1 & E)|(e & E1 & ->)]; injection E1 as Ef <-; [|by left].
  rewrite build_full_key_plain in Ef by done. injection Ef as <-. right. exists h.
  apply SE_bind_inv in E as [(a & s1 & E1 & E)|(e & E1 & ->)].
  - injection E as <- <-. by exists (Ok a).
  - by exists (Err e).
Qed.

(** An operation that asks for one response and keeps its errors. *)
Lemma plain_op_inv {A} cfg k m b op (f : Z * string -> StorageResult) (g : StorageResult -> result A string) s r s' :
  config_ok cfg -> plain_path k ->
  s3_request cfg op = (host ← lift (endpoint_host cfg); full ← lift (build_full_key cfg k);
    a ← sign_and_execute m (object_url cfg full) host (region_of cfg) (credentials_of cfg) b; mret (f a)) ->
  (forall e, is_ok (g (SError e)) = false) ->
  on_result cfg op g s = (r, s') ->
  (s' = s /\ is_ok r = false) \/
  exists u hs rr, names u (sc_bucket cfg) (full_key cfg k) /\
    http_send m u hs (if String.eqb m "PUT" then b else None) s = (rr, s') /\
    (is_ok r = true -> exists resp bytes, rr = Ok resp /\ body resp = Ok bytes /\ r = g (f (status resp, bytes))).
Proof.
  intros Hc Hk Hop Hg. unfold on_result, execute_s3_operation.
  destruct (s3_request cfg op s) as [rq s1] eqn:E. rewrite Hop in E. intros Er.
  assert (s' = s1) as -> by (by destruct rq; simplify_eq/=).
  assert (Hr : (is_ok rq = false /\ is_ok r = false) \/ exists x, rq = Ok x /\ r = g x).
  { destruct rq as [x|e]; simplify_eq/=; [right; eauto|left; split; [done|apply Hg]]. }
  clear Er. apply keyed_inv in E as [[-> Hbad]|(h & ra & Hh & E & ->)]; [|..|done].
  { left. split; [done|]. destruct Hr as [[_ ?]|(x & -> & _)]; done. }
  apply s3_execute_inv in E as [[-> Hbad]|(u & hs & rr & Hu & Hs & Hrr)]; [..|done|done|done].
  { left. split; [done|]. destruct ra; [done|]. by destruct Hr as [[_ ?]|(x & ? & _)]. }
  right. exists u, hs, rr. split_and!; [done..|]. intros Hok.
  destruct Hr as [[_ Hbad]|(x & Ex & ->)]; [congruence|]. destruct ra as [[st bytes]|]; [|done]. injection Ex as <-.
  destruct (Hrr st bytes eq_refl) as (resp & -> & <- & Hb). by exists resp, bytes.
Qed.

(** What each operation of the store does to the bucket. *)
Lemma s3_put_spec cfg k b s r s' : config_ok cfg -> plain_path k -> s3_put cfg k b s = (r, s') ->
  (forall j, j <> (sc_bucket cfg, full_key cfg k) -> s3_objects s' !! j = s3_objects s !! j) /\
  (r = Ok tt -> s3_objects s' !! (sc_bucket cfg, full_key cfg k) = Some b).
Proof.
  intros Hc Hk E. eapply (plain_op_inv cfg k "PUT" (Some b)) in E
    as [[-> Hbad]|(u & hs & rr & Hu & Hs & Hok)]; [..|done|done|reflexivity|done].
  - split; [done|]. by intros ->.
  - split; [intros j Hj; by eapply send_other|]. intros ->.
    destruct (Hok eq_refl) as (resp & bytes & -> & _ & Hr). eapply send_put; [done..|]. simpl in Hr.
    destruct (Z.eqb_spec (status resp) 200); [by left|]. destruct (Z.eqb_spec (status resp) 201); [by right|done].
Qed.

Lemma s3_get_spec cfg k s r s' : config_ok cfg -> plain_path k -> s3_get cfg k s = (r, s') ->
  s3_objects s' = s3_objects s /\ forall v, r = Ok v -> v = s3_objects s !! (sc_bucket cfg, full_key cfg k).
Proof.
  intros Hc Hk E. eapply (plain_op_inv cfg k "GET" None) in E
    as [[-> Hbad]|(u & hs & rr & Hu & Hs & Hok)]; [..|done|done|reflexivity|done].
  - split; [done|]. by intros v ->.
  - split; [eapply send_read; [done| |done]; set_solver|]. intros v ->.
    destruct (Hok eq_refl) as (resp & bytes & -> & Hb & Hr). eapply send_get in Hs as [H200 H404]; [|done].
    simpl in Hr. destruct (Z.eqb_spec (status resp) 200); [simplify_eq; symmetry; by apply H200|].
    destruct (Z.eqb_spec (status resp) 404); [simplify_eq; symmetry; by apply H404|done].
Qed.

Lemma s3_delete_spec cfg k s r s' : config_ok cfg -> plain_path k -> s3_delete cfg k s = (r, s') ->
  forall j, j <> (sc_bucket cfg, full_key cfg k) -> s3_objects s' !! j = s3_objects s !! j.
Proof.
  intros Hc Hk E. eapply (plain_op_inv cfg k "DELETE" None) in E
    as [[-> Hbad]|(u & hs & rr & Hu & Hs & Hok)]; [..|done|done|reflexivity|done]; [done|].
  intros j Hj. by eapply send_other.
Qed.

(** The text of an error of the client is not the one of a missing object. *)
Definition not_missing {A} (r : result A string) : Prop := r <> Err "Object not found".

Lemma endpoint_host_error cfg : not_missing (endpoint_host cfg).
Proof. unfold endpoint_host, not_missing. destruct (url_parse _) as [u|]; [by destruct (host_str u)|done]. Qed.

Lemma raw_error m target u host region cred b s r s' : url_parse target = Ok u ->
  sign_and_execute_raw m target host region cred b s = (r, s') -> not_missing r.
Proof.
  intros Hu E. unfold sign_and_execute_raw in E.
  apply SE_bind_inv in E as [(v & s1 & E1 & E)|(e & E1 & ->)]; injection E1 as Ev <-; [|congruence].
  apply SE_bind_inv in E as [(sg & s1 & E1 & E)|(e & E1 & ->)]; injection E1 as Es <-.
  - case_bool_decide; [|unfold throw in E; by injection E as <- <-].
    unfold with_error in E. destruct (http_send _ _ _ _ _) as [[] s1]; by injection E as <- <-.
  - unfold compute_signature_headers in Es. destruct (sign _ _ _ _ _ _) as [|se]; [done|].
    simpl in Es. injection Es as <-. by destruct se.
Qed.

Lemma s3_size_spec cfg k s r s' : config_ok cfg -> plain_path k -> s3_size cfg k s = (r, s') ->
  s3_objects s' = s3_objects s /\
  forall v, r = Ok v -> (forall b, s3_objects s !! (sc_bucket cfg, full_key cfg k) = Some b -> str_len b <= U64_MAX) ->
    v = str_len <$> s3_objects s !! (sc_bucket cfg, full_key cfg k).
Proof.
  intros Hc Hk. unfold s3_size, on_result, execute_s3_operation.
  destruct (s3_request cfg (SHead k) s) as [rq s1] eqn:E. intros Er. unfold s3_request in E.
  apply SE_bind_inv in E as [(h & s2 & E1 & E)|(e & E1 & ->)]; injection E1 as Eh <-.
  2:{ simpl in Er. destruct (String.eqb_spec e "Object not found") as [->|]; [by apply endpoint_host_error in Eh|].
      by injection Er as <- <-. }
  rewrite build_full_key_plain in E by done.
  apply SE_bind_inv in E as [(full & s2 & E1 & E)|(e & E1 & ->)]; [|done]. injection E1 as <- <-.
  destruct (object_url_names cfg k h Hc Hk Eh) as (u & Eu & Hu).
  apply SE_bind_inv in E as [([[st size] etag] & s2 & E1 & E)|(e & E1 & ->)];
    unfold sign_and_execute_head in E1; apply SE_bind_inv in E1 as [(resp & s3 & E2 & E1)|(e' & E2 & Ee)]; try done;
    pose proof (raw_error _ _ _ _ _ _ _ _ _ _ Eu E2) as Hnm;
    apply raw_inv in E2 as [[-> ?]|(u' & hs & rr & Eu' & Hs & Hrr)]; try done;
    try (assert (u' = u) as -> by congruence).
  - destruct rr as [resp'|]; [|done]. injection Hrr as <-. injection E1 as <- <- <- <-. injection E as <- <-.
    assert (Ho : s3_objects s3 = s3_objects s) by (eapply send_read; [exact Hu| |exact Hs]; set_solver).
    apply (send_head _ _ _ _ _ _ _ Hu) in Hs as [H200 H404]. simpl in Er.
    destruct (Z.eqb_spec (status resp) 200) as [E200|].
    { injection Er as <- <-. split; [done|]. intros v [= <-] Hb.
      destruct (H200 E200) as (bytes & Eo & w & -> & Ht & ->). simpl. rewrite Eo in *. rewrite Ht. simpl.
      rewrite parse_uint_show_Z; [done|]. pose proof (str_len_nonneg bytes). specialize (Hb bytes eq_refl). lia. }
    destruct (Z.eqb_spec (status resp) 404) as [E404|]; simpl in Er; injection Er as <- <-; split; try done.
    intros v [= <-] _. by rewrite H404.
  - injection Ee as <-. destruct (String.eqb_spec e "Object not found") as [->|]; [done|]. by injection Er as <- <-.
  - injection Ee as <-. destruct (String.eqb_spec e "Object not found") as [->|]; [done|]. injection Er as <- <-.
    split; [eapply send_read; [done| |done]; set_solver|done].
Qed.

(** ** The store of the snapshots *)

(** The objects under the prefix of the binding, by the rest of their key. *)
Definition own_key (cfg : StorageConfig) (bk : string * string) : option string :=
  if String.eqb bk.1 (sc_bucket cfg) then
    match sc_prefix cfg with Some p => strip_prefix (trim_end_matches "/" p +:+ "/") bk.2 | None => Some bk.2 end
  else None.

Definition own_objects (cfg : StorageConfig) (m : gmap (string * string) string) : gmap string string :=
  list_to_map (omap (fun kv => k ← own_key cfg kv.1; Some (k, kv.2)) (map_to_list m)).

Lemma own_key_Some cfg bk k : own_key cfg bk = Some k <-> bk = (sc_bucket cfg, full_key cfg k).
Proof.
  unfold own_key, full_key. destruct bk as [b key]. simpl. destruct (String.eqb_spec b (sc_bucket cfg)) as [->|].
  - destruct (sc_prefix cfg) as [p|].
    + rewrite strip_prefix_Some, app_assoc_str. naive_solver.
    + naive_solver.
  - naive_solver.
Qed.

Lemma own_objects_lookup cfg m k : own_objects cfg m !! k = m !! (sc_bucket cfg, full_key cfg k).
Proof.
  assert (Hl : forall x, (k, x) ∈ omap (fun kv => k ← own_key cfg kv.1; Some (k, kv.2)) (map_to_list m) <->
    m !! (sc_bucket cfg, full_key cfg k) = Some x).
  { intros x. rewrite list_elem_of_omap. split.
    - intros ([bk y] & Hin & E). simpl in E. destruct (own_key cfg bk) as [k'|] eqn:Ek; [|done].
      injection E as -> ->. apply own_key_Some in Ek as ->. by apply elem_of_map_to_list in Hin.
    - intros Hx. exists ((sc_bucket cfg, full_key cfg k), x). split; [by apply elem_of_map_to_list|].
      simpl. by rewrite (proj2 (own_key_Some cfg _ k)). }
  unfold own_objects. destruct (m !! (sc_bucket cfg, full_key cfg k)) as [x|] eqn:E.
  - apply elem_of_list_to_map_1'; [|by apply Hl]. intros y Hy%Hl. congruence.
  - apply not_elem_of_list_to_map_1. intros ([k' y] & -> & Hin)%list_elem_of_fmap. apply Hl in Hin. congruence.
Qed.

#[local, refine] Instance S3Store (cfg : StorageConfig) (Hc : config_ok cfg) : ObjectStore Sv := {
  objects s := own_objects cfg (s3_objects s);
  store_put := s3_put cfg;
  store_get := s3_get cfg;
  store_size := s3_size cfg;
  store_delete := s3_delete cfg;
  storable := plain_path;
}.
Proof.
  - done.
  - intros k b s s' Hk [_ E]%s3_put_spec; [|done..]. rewrite own_objects_lookup. by apply E.
  - intros k b s r s' j Hk [E _]%s3_put_spec Hj; [|done..]. rewrite !own_objects_lookup. apply E.
    intros [= ?%full_key_inj]. done.
  - intros k s r s' Hk [E _]%s3_get_spec; [|done..]. by rewrite E.
  - intros k s v s' Hk [_ E]%s3_get_spec; [|done..]. rewrite own_objects_lookup. by apply E.
  - intros k s r s' Hk [E _]%s3_size_spec; [|done..]. by rewrite E.
  - intros k s v s' Hk [_ E]%s3_size_spec Hb; [|done..]. rewrite own_objects_lookup in Hb |- *. by apply E.
  - intros k s r s' j Hk E Hj. rewrite !own_objects_lookup. eapply s3_delete_spec; [done..|].
    intros [= ?%full_key_inj]. done.
Defined.
End s3_store.

(** ** Listings *)

(** The part of a listing between a key and the next one. *)
Definition listed (kr : string * string) : string := kr.1 +:+ "</Key>" +:+ kr.2.

Fixpoint listing_text (head : string) (l : list (string * string)) : string :=
  match l with
  | [] => head
  | kr :: l => head +:+ "<Key>" +:+ listing_text (listed kr) l
  end.

Lemma split_listing head l : contains_str "<Key>" head = false ->
  Forall (fun kr => contains_str "<Key>" (listed kr) = false) l ->
  split_str "<Key>" (listing_text head l) = head :: map listed l.
Proof.
  intros Hh Hl. revert head Hh. induction Hl as [|kr l Hkr _ IH]; intros head Hh.
  - by apply split_str_none.
  - cbn [listing_text map]. rewrite split_str_app by done. by rewrite IH.
Qed.

(** ** Escapes *)

Section escape.
Context {U Sv : Type} {pct : Percent} {url : UrlLib U} {client : S3Client U Sv} {hv : HeaderValue}.

Lemma raw_same m t t' host region cred b : url_parse t = url_parse t' ->
  sign_and_execute_raw m t host region cred b = sign_and_execute_raw m t' host region cred b.
Proof. intros E. unfold sign_and_execute_raw. by rewrite E. Qed.

Definition without_prefix (cfg : StorageConfig) : StorageConfig :=
  mkStorageConfig (sc_id cfg) (sc_bucket cfg) None (sc_access_key_id cfg) (sc_secret_access_key cfg)
    (sc_endpoint cfg) (sc_region cfg) (sc_public_url cfg).

(** A dot, a tab and a dot. *)
Definition dot_tab_dot : string := of_bytes [46; 9; 46]%nat.

(** Two dots, the second one escaped [n + 1] times. *)
Fixpoint escapes (n : nat) : string := match n with O => "2e" | S n => "25" +:+ escapes n end.
Definition dot_escaped (n : nat) : string := ".%" +:+ escapes n.

Lemma escapes_decode n k : percent_bytes (dot_escaped (S n) +:+ "/" +:+ k) = dot_escaped n +:+ "/" +:+ percent_bytes k.
Proof.
  change ("/" +:+ k) with (String "/" k). rewrite percent_bytes_slash. f_equal. unfold dot_escaped.
  assert (H : forall n, percent_bytes (escapes n) = escapes n).
  { clear. intros n. apply no_percent_stable. by induction n. }
  change (percent_bytes (".%" +:+ escapes (S n))) with (String "." (String "%" (percent_bytes (escapes n)))).
  by rewrite H.
Qed.

Lemma plain_ascii k : plain_path k -> all_bytes is_ascii k = true.
Proof.
  intros Hk. apply (split_iff (fun s => all_bytes is_ascii s = true)).
  - intros a b. rewrite all_bytes_app. simpl. apply andb_true_iff.
  - eapply Forall_impl; [exact Hk|]. intros x [Hx _]%plain_segment_spec.
    eapply all_bytes_impl; [|exact Hx]. intros c. by destruct c as [[] [] [] [] [] [] [] []].
Qed.

Lemma plain_stable k : plain_path k -> stable k.
Proof.
  intros Hk. apply (split_iff stable); [apply stable_slash|]. eapply Forall_impl; [exact Hk|].
  intros x [Hx _]%plain_segment_spec. apply no_percent_stable. by apply (all_bytes_contains is_unreserved).
Qed.

Lemma decode_escapes m n k : plain_path k ->
  decode_rounds m (dot_escaped (m + n) +:+ "/" +:+ k) = Some (dot_escaped n +:+ "/" +:+ k).
Proof.
  intros Hk. revert n. induction m as [|m IH]; intros n; [done|]. cbn [decode_rounds].
  change (S m + n)%nat with (S (m + n)).
  assert (Ed : percent_bytes (dot_escaped (S (m + n)) +:+ "/" +:+ k) = dot_escaped (m + n) +:+ "/" +:+ k)
    by by rewrite escapes_decode, (plain_stable k Hk).
  rewrite decode_utf8_ascii, Ed.
  2:{ rewrite Ed, !all_bytes_app, (plain_ascii k Hk), andb_true_r. unfold dot_escaped. generalize (m + n)%nat. clear.
      intros n. induction n; done. }
  cbn [mbind option_bind]. destruct (String.eqb_spec (dot_escaped (m + n) +:+ "/" +:+ k)
    (dot_escaped (S (m + n)) +:+ "/" +:+ k)) as [E|]; [|apply IH].
  apply (f_equal String.length) in E. rewrite !length_app_str in E. simpl in E. lia.
Qed.

(** Both spellings are accepted as they are. *)
Lemma spellings_accepted k : plain_path k ->
  sanitize_path (dot_tab_dot +:+ "/" +:+ k) = Some (dot_tab_dot +:+ "/" +:+ k) /\
  sanitize_path (dot_escaped 10 +:+ "/" +:+ k) = Some (dot_escaped 0 +:+ "/" +:+ k).
Proof.
  intros Hk. pose proof (plain_clean k Hk) as Hl. split.
  - pose proof (sanitize_fixed (dot_tab_dot :: split "/" k)) as H.
    rewrite str_join_cons, str_join_split in H by apply split_not_nil. apply H. by constructor.
  - apply sanitize_path_Some. exists (dot_escaped 0 +:+ "/" +:+ k). split_and!.
    + exact (decode_escapes 10 0 k Hk).
    + apply clean_slash. split; [done|]. apply (split_iff clean); [apply clean_slash|].
      eapply Forall_impl; [exact Hl|naive_solver].
    + rewrite split_slash_app, filter_kept.
      * simpl. rewrite <- (str_join_split "/" k) at 1. pose proof (split_not_nil "/" k). by destruct (split "/" k).
      * apply Forall_app. split; [by repeat constructor|]. eapply Forall_impl; [exact Hl|naive_solver].
Qed.

Lemma spellings_climb e b p k : http_origin e -> plain_segment b = true -> plain_segment p = true ->
  url_parse (e +:+ "/" +:+ b +:+ "/" +:+ p +:+ "/" +:+ dot_tab_dot +:+ "/" +:+ k) =
    url_parse (e +:+ "/" +:+ b +:+ "/" +:+ k) /\
  url_parse (e +:+ "/" +:+ b +:+ "/" +:+ p +:+ "/" +:+ dot_escaped 0 +:+ "/" +:+ k) =
    url_parse (e +:+ "/" +:+ b +:+ "/" +:+ k).
Proof.
  intros He Hb Hp. assert (Hbp : plain_path b).
  { unfold plain_path. rewrite split_none by by apply plain_no_slash. by repeat constructor. }
  split; [|by apply parse_double_dot].
  rewrite <- (parse_double_dot e b p ".." k) by done. rewrite <- (parse_tabs (e +:+ "/" +:+ b +:+ "/" +:+ p +:+ "/" +:+ dot_tab_dot +:+ _)).
  rewrite <- (parse_tabs (e +:+ "/" +:+ b +:+ "/" +:+ p +:+ "/" +:+ ".." +:+ _)). f_equal. by rewrite !remove_tabs_app.
Qed.

Lemma same_target_get cfg a x b y s :
  build_full_key cfg a = Ok x -> build_full_key (without_prefix cfg) b = Ok y ->
  url_parse (object_url cfg x) = url_parse (object_url (without_prefix cfg) y) ->
  execute_s3_operation cfg (SGet a) s = execute_s3_operation (without_prefix cfg) (SGet b) s.
Proof.
  intros Ha Hb Hu. unfold execute_s3_operation. f_equal. unfold s3_request.
  change (endpoint_host (without_prefix cfg)) with (endpoint_host cfg).
  change (region_of (without_prefix cfg)) with (region_of cfg).
  change (credentials_of (without_prefix cfg)) with (credentials_of cfg).
  rewrite Ha, Hb. unfold sign_and_execute, mbind, SE_bind, lift.
  destruct (endpoint_host cfg) as [h|]; [|done]. by rewrite (raw_same _ _ _ _ _ _ _ Hu).
Qed.

(** The prefix of a binding does not confine it. A key that starts with
    a double dot is refused, but not one spelled with a tab between the dots,
    which a URL parser drops, nor one escaped eleven times, of which ten are
    decoded: a get with either one is the get of a binding without a prefix,
    so it reads any object of the bucket. *)
Theorem prefix_escape cfg p k s :
  http_origin (sc_endpoint cfg) -> plain_segment (sc_bucket cfg) = true ->
  sc_prefix cfg = Some p -> plain_segment (trim_end_matches "/" p) = true -> plain_path k ->
  build_full_key cfg (".." +:+ "/" +:+ k) = Err "Invalid key: directory traversal not allowed" /\
  execute_s3_operation cfg (SGet (dot_tab_dot +:+ "/" +:+ k)) s =
    execute_s3_operation (without_prefix cfg) (SGet k) s /\
  execute_s3_operation cfg (SGet (dot_escaped 10 +:+ "/" +:+ k)) s =
    execute_s3_operation (without_prefix cfg) (SGet k) s.
Proof.
  intros He Hb Hp Hpp Hk. destruct (spellings_accepted k Hk) as [Ht Hx].
  destruct (spellings_climb _ _ _ k He Hb Hpp) as [Hct Hcx].
  assert (Hy : build_full_key (without_prefix cfg) k = Ok k) by by rewrite build_full_key_plain.
  split_and!.
  - unfold build_full_key, sanitize_path. rewrite decode_rounds_stable; [|by apply stable_slash, conj, plain_stable|lia].
    cbn [mbind option_bind]. destruct (contains_char "000" _); [done|].
    by rewrite (contains_str_app ".." ".." ("/" +:+ k)) by by left.
  - eapply same_target_get; [|exact Hy|exact Hct]. unfold build_full_key. by rewrite Ht, Hp.
  - eapply same_target_get; [|exact Hy|exact Hcx]. unfold build_full_key. by rewrite Hx, Hp.
Qed.
End escape.

(** The keys of a listing come out in order, as the document spells them:
    the parser finds each key of a document whose keys are followed by other
    elements, and nothing else. *)
Theorem list_keys_exact head l :
  contains_str "<Key>" head = false -> contains_str "</Key>" head = false ->
  Forall (fun kr => contains_str "<Key>" (listed kr) = false /\ contains_str "</Key>" kr.1 = false) l ->
  parse_list_response (listing_text head l) = map fst l.
Proof.
  intros Hh Hh' Hl. unfold parse_list_response.
  rewrite split_listing by (done || (eapply Forall_impl; [exact Hl|naive_solver])).
  cbn [omap list_omap]. unfold contains_str in Hh'. destruct (find_str "</Key>" head); [done|].
  cbn [mbind option_bind]. induction Hl as [|[k r] l [_ Hk] _ IH]; [done|]. cbn [map omap list_omap fst] in *.
  unfold listed at 1. cbn [fst snd]. rewrite find_str_first by done. cbn [mbind option_bind]. f_equal. apply IH.
Qed.

(** ** Snapshots on S3 *)

Section backup.
Context {U V Sv : Type} {pct : Percent} {url : UrlLib U} {client : S3Client U Sv} {hv : HeaderValue}
  {api : S3Api U Sv} {uuid : Uuid V}.

(** With a bucket as the store and the tables as the index, a database
    that was saved is restored: after a save that succeeds, a restore gives
    the bytes that were saved or fails, and never answers that there is no
    copy. *)
Theorem s3_backup_restores cfg (Hc : config_ok cfg) sha keep (a a1 a2 : Sv * PgIndex V) d bytes now row r :
  let store := S3Store cfg Hc in
  archive_ok sha a -> pg_named d -> (0 < keep)%nat -> str_len bytes < 2 ^ 64 ->
  (forall x, x ∈ rows a.2 -> database_id x = d -> seq x < now) ->
  save sha keep now d bytes a = (Ok row, a1) -> fetch_latest sha d a1 = (r, a2) ->
  match r with Ok o => o = Some bytes | Err _ => current a2 d = Some bytes end.
Proof.
  intros store Hok Hd Hk Hlen Hlt Hs Hf.
  apply save_spec in Hs as (Hok1 & _ & Hcur); [|done..].
  apply fetch_latest_spec in Hf as (_ & Hc2 & Hr); [|done..]. destruct r; by rewrite ?Hc2, ?Hr, Hcur.
Qed.
End backup.

(** ** A server in memory *)

Abbreviation bucket_store := (gmap (string * string) string).

Definition listing_of (b prefix : string) (s : bucket_store) : string :=
  listing_text "<ListBucketResult>"
    (omap (fun kv : (string * string) * string =>
       if String.eqb kv.1.1 b && starts_with prefix kv.1.2 then Some (kv.1.2, "") else None) (map_to_list s)).

Definition split_path (path : string) : option (string * string) :=
  rest ← strip_prefix "/" path; split_once "/" rest.

Definition mem_send (m : string) (u : web_url) (_ : gmap string string) (b : option string) :
  SE bucket_store string Response := fun s =>
  match w_query u, split_path (url_path u) with
  | Some q, _ =>
    (Ok (mkResponse 200 [] (Ok (listing_of (str_join "/" (w_segments u))
       (default "" (strip_prefix "list-type=2&prefix=" q)) s))), s)
  | None, None => (Ok (mkResponse 400 [] (Ok "")), s)
  | None, Some bk =>
    if String.eqb m "PUT" then (Ok (mkResponse 200 [] (Ok "")), <[bk := default "" b]> s)
    else if String.eqb m "DELETE" then (Ok (mkResponse 204 [] (Ok "")), delete bk s)
    else match s !! bk with
         | None => (Ok (mkResponse 404 [] (Ok "")), s)
         | Some bytes => (Ok (mkResponse 200 [("content-length", show_Z (str_len bytes))] (Ok bytes)), s)
         end
  end.

#[export] Instance mem_S3Client : S3Client web_url bucket_store := {
  sha256_hex s := s;
  sign _ _ _ _ _ _ := Ok [];
  http_send := mem_send;
  utf8_lossy s := s;
}.

Lemma names_split (u : web_url) b k : names u b k -> w_query u = None /\ split_path (url_path u) = Some (b, k).
Proof.
  intros (Hp & Hq & Hb & _). split; [exact Hq|]. unfold split_path. rewrite Hp.
  rewrite (proj2 (strip_prefix_Some "/" _ (b +:+ "/" +:+ k))) by done. cbn [mbind option_bind].
  apply split_once_Some. split; [done|by apply plain_no_slash].
Qed.

Lemma show_Z_visible z : hv_to_str (show_Z z) = Some (show_Z z).
Proof.
  unfold hv_to_str, hv_ok. rewrite (all_bytes_impl is_decimal); [done| |apply show_Z_decimal].
  intros c. by destruct c as [[] [] [] [] [] [] [] []].
Qed.

#[export, refine] Instance mem_S3Api : S3Api web_url bucket_store := { s3_objects s := s }.
Proof.
  - intros m u b k hs body s r s' j [Hq Hp]%names_split E Hj. cbn [http_send mem_S3Client] in E. unfold mem_send in E.
    rewrite Hq, Hp in E. repeat case_match; simplify_eq; [by apply lookup_insert_ne|by apply lookup_delete_ne|done..].
  - intros m u b k hs s r s' [Hq Hp]%names_split Hm E. cbn [http_send mem_S3Client] in E. unfold mem_send in E.
    rewrite Hq, Hp in E. apply elem_of_cons in Hm as [-> | ->%list_elem_of_singleton]; simpl in E;
      repeat case_match; by simplify_eq.
  - intros u b k hs bd s r s' [Hq Hp]%names_split E _. cbn [http_send mem_S3Client] in E. unfold mem_send in E.
    rewrite Hq, Hp in E. simpl in E. simplify_eq. apply lookup_insert_eq.
  - intros u b k hs s r s' [Hq Hp]%names_split E. cbn [http_send mem_S3Client] in E. unfold mem_send in E.
    rewrite Hq, Hp in E. simpl in E. split; intros; case_match; by simplify_eq/=.
  - intros u b k hs s r s' [Hq Hp]%names_split E. cbn [http_send mem_S3Client] in E. unfold mem_send in E.
    rewrite Hq, Hp in E. simpl in E. destruct (s !! (b, k)) as [bytes|]; simplify_eq/=; split; try done.
    intros _. exists bytes. split; [done|]. eexists. split; [done|]. by rewrite show_Z_visible.
Defined.

Definition ex_config (prefix : option string) : StorageConfig :=
  mkStorageConfig "id" "bucket" prefix "key" "secret" "https://s3.example.com" None None.

Lemma ex_config_ok : config_ok (ex_config (Some "tenant/")).
Proof. split_and!; [by exists "s3.example.com"|done|by repeat constructor]. Qed.

(** A listing without a prefix of its own asks for the keys that start
    with the prefix of the binding, without the slash that ends it, and hands
    over the keys it cannot strip: a binding under [tenant] sees the keys
    under [tenant-b]. *)
Theorem list_sees_siblings :
  let s : bucket_store := {[ ("bucket", "tenant/a") := "1"; ("bucket", "tenant-b/secret") := "2";
    ("bucket", "other/x") := "3" ]} in
  exists keys, execute_s3_operation (U := web_url) (ex_config (Some "tenant")) (SList None None) s = (SKeys keys false, s) /\
    keys ≡ₚ ["a"; "tenant-b/secret"].
Proof.
  eexists. split; [vm_compute; reflexivity|]. solve_Permutation.
Qed.

Lemma sanitize_confined_witness :
  sanitize_path "/a%2Fb/./c" = Some "a/b/c" /\ sanitize_path "a/b/c" = Some "a/b/c".
Proof.
  assert (E : sanitize_path "/a%2Fb/./c" = Some "a/b/c") by (vm_compute; reflexivity).
  destruct (sanitize_confined "/a%2Fb/./c" "a/b/c" E) as (_ & _ & _ & H). split; [done|]. apply H. simpl. lia.
Defined.

Definition ex_bucket : bucket_store := {[ ("bucket", "tenant/a") := "1"; ("bucket", "other/x") := "3" ]}.

Lemma prefix_escape_witness :
  execute_s3_operation (U := web_url) (ex_config (Some "tenant/")) (SGet (dot_tab_dot +:+ "/other/x")) ex_bucket =
    (SBody (Some "3"), ex_bucket) /\
  execute_s3_operation (U := web_url) (ex_config (Some "tenant/")) (SGet (dot_escaped 10 +:+ "/other/x")) ex_bucket =
    (SBody (Some "3"), ex_bucket).
Proof.
  assert (E : execute_s3_operation (U := web_url) (without_prefix (ex_config (Some "tenant/"))) (SGet "other/x") ex_bucket =
    (SBody (Some "3"), ex_bucket)) by (vm_compute; reflexivity).
  destruct (prefix_escape (ex_config (Some "tenant/")) "tenant/" "other/x" ex_bucket) as (_ & H1 & H2).
  - by exists "s3.example.com".
  - done.
  - done.
  - done.
  - by repeat constructor.
  - split; [exact (eq_trans H1 E)|exact (eq_trans H2 E)].
Defined.

Lemma list_keys_exact_witness :
  parse_list_response (listing_text "<ListBucketResult>" [("a", "<Size>1</Size>"); ("b/c", "")]) = ["a"; "b/c"].
Proof.
  refine (list_keys_exact "<ListBucketResult>" [("a", "<Size>1</Size>"); ("b/c", "")] _ _ _); [done..|].
  by repeat constructor.
Defined.

Definition ex_archive : bucket_store * PgIndex text_uuid := (∅, mkPgIndex (mkPg [1] [] [] []) 1).

Lemma s3_backup_restores_witness :
  let store := S3Store (U := web_url) (ex_config (Some "tenant/")) ex_config_ok in
  exists row a1 a2, save ex_sha 3 20 ex_ns "bytes" ex_archive = (Ok row, a1) /\
    fetch_latest ex_sha ex_ns a1 = (Ok (Some "bytes"), a2) /\
    s3_objects (U := web_url) a1.1 !! ("bucket", "tenant/" +:+ snapshot_key ex_ns 1 20) = Some "bytes".
Proof.
  intros store. destruct (save ex_sha 3 20 ex_ns "bytes" ex_archive) as [r a1] eqn:E.
  assert (Hr : is_ok r = true) by (apply (f_equal fst) in E; vm_compute in E; by subst r).
  destruct r as [row|]; [|done]. destruct (fetch_latest ex_sha ex_ns a1) as [r a2] eqn:Ef.
  exists row, a1, a2. split; [done|]. split.
  - assert (Ho : is_ok r = true).
    { replace a1 with (save ex_sha 3 20 ex_ns "bytes" ex_archive).2 in Ef by by rewrite E.
      apply (f_equal fst) in Ef. vm_compute in Ef. by subst r. }
    destruct r as [o|]; [|done]. enough (o = Some "bytes") as -> by done.
    refine (s3_backup_restores _ ex_config_ok ex_sha 3 ex_archive a1 a2 ex_ns "bytes" 20 row (Ok o) _ _ _ _ _ E Ef);
      [|by left; exists ex_uuid|lia|done|].
    + split; [constructor|apply NoDup_nil_2].
    + intros x Hx. by apply elem_of_nil in Hx.
  - replace a1 with (save ex_sha 3 20 ex_ns "bytes" ex_archive).2 by by rewrite E. vm_compute. reflexivity.
Defined.
