(* ===== verification/Kv.v ===== *)
(** * The key-value store of workers (src/src/services/kv.rs)

    One table of keys and values by namespace. A value can have an end; a
    value whose end has come is not there. The clock of the database, its
    collation and the JSON of a value are parameters. *)

From stdpp Require Import sorting.
From S2P Require Import Prelude RustStr Extern Postgres.

(** [LIKE]: [%] stands for any text, [_] for one character, and a backslash
    takes the next one as it is. *)
Fixpoint drop_continuation (s : string) : string :=
  match s with
  | String c r => if is_continuation c then drop_continuation r else s
  | EmptyString => EmptyString
  end.

(** What is left from each character on. *)
Fixpoint suffixes (s : string) : list string :=
  match s with
  | EmptyString => [EmptyString]
  | String c r => if is_continuation c then suffixes r else s :: suffixes r
  end.

Fixpoint like (p : string) : string -> bool :=
  match p with
  | EmptyString => fun s => is_empty s
  | String "%" p => fun s => existsb (like p) (suffixes s)
  | String "_" p => fun s => match s with EmptyString => false | String _ r => like p (drop_continuation r) end
  | String "\" (String c p) => fun s => match s with
    | EmptyString => false | String d r => Ascii.eqb c d && like p r end
  | String c p => fun s => match s with EmptyString => false | String d r => Ascii.eqb c d && like p r end
  end.

Definition MAX_VALUE_SIZE : Z := 100 * 1024.

(** [ttl * INTERVAL '1 second'] after [now], in microseconds; an interval or a
    time that is out of range is an error. *)
Definition add_seconds (now ttl : Z) : option Z :=
  if (I64_MIN <=? ttl * 10 ^ 6) && (ttl * 10 ^ 6 <=? I64_MAX) && (now + ttl * 10 ^ 6 <=? I64_MAX)
  then Some (now + ttl * 10 ^ 6) else None.

Section kv.
Context {U V : Type} {uuid : Uuid U} {U_eq : EqDecision U} {U_cnt : Countable U}.
(** [serde_json::to_string], and the order of the collation. *)
Variable json_text : V -> result string string.
Variable key_le : string -> string -> Prop.
Context {key_le_dec : forall a b, Decision (key_le a b)}.

Inductive KvResult : Type :=
  | KValue (v : option V) | KOk | KKeys (keys : list string) | KError (e : string).

Record KvRow := mkKvRow { kv_value : V; kv_expires : option Z }.
Local Abbreviation KvData := (gmap (U * string) KvRow).

(** The arguments of a statement: a namespace that is a UUID, and text, which
    holds no NUL. *)
Definition namespace_arg (namespace_id : string) : result U string :=
  match uuid_parse namespace_id with Some u => Ok u | None => Err "invalid input syntax for type uuid" end.

Definition text_arg (s : string) : result unit string :=
  if contains_char "000" s then Err "invalid byte sequence for encoding UTF8: 0x00" else Ok tt.

Definition alive (now : Z) (r : KvRow) : bool :=
  match kv_expires r with None => true | Some e => now <? e end.

Definition to_result {A} (what : string) (f : A -> KvResult) (r : result A string) : KvResult :=
  match r with Ok a => f a | Err e => KError ("KV " +:+ what +:+ " failed: " +:+ e) end.

Definition answer {A} (what : string) (f : A -> KvResult) (m : SE (Db KvData) string A) (s : Db KvData) :
  KvResult * Db KvData := let '(r, s') := m s in (to_result what f r, s').

Definition select_value (now : Z) (namespace_id key : string) (d : KvData) : result (option V) string :=
  u <-? namespace_arg namespace_id;
  _ <-? text_arg key;
  Ok (match d !! (u, key) with Some r => if alive now r then Some (kv_value r) else None | None => None end).

Definition kv_get (now : Z) (namespace_id key : string) : Db KvData -> KvResult * Db KvData :=
  answer "get" KValue (query (fun d => a <-? select_value now namespace_id key d; Ok (a, d))).

Definition upsert (now : Z) (namespace_id key : string) (value : V) (ttl : option Z) (d : KvData) :
  result (unit * KvData) string :=
  u <-? namespace_arg namespace_id;
  _ <-? text_arg key;
  expires <-? match ttl with
    | Some ttl => match add_seconds now ttl with Some e => Ok (Some e) | None => Err "interval out of range" end
    | None => Ok None
    end;
  Ok (tt, <[(u, key) := mkKvRow value expires]> d).

Definition kv_put (now : Z) (namespace_id key : string) (value : V) (expires_in : option Z) (s : Db KvData) :
  KvResult * Db KvData :=
  match json_text value with
  | Err e => (KError ("Invalid JSON value: " +:+ e), s)
  | Ok value_str =>
    if MAX_VALUE_SIZE <? str_len value_str then
      (KError ("Value too large: " +:+ show_Z (str_len value_str) +:+ " bytes (max " +:+
        show_Z MAX_VALUE_SIZE +:+ " bytes)"), s)
    else answer "put" (fun _ => KOk) (query (upsert now namespace_id key value (as_i64 <$> expires_in))) s
  end.

Definition delete_row (namespace_id key : string) (d : KvData) : result (unit * KvData) string :=
  u <-? namespace_arg namespace_id;
  _ <-? text_arg key;
  Ok (tt, delete (u, key) d).

Definition kv_delete (namespace_id key : string) : Db KvData -> KvResult * Db KvData :=
  answer "delete" (fun _ => KOk) (query (delete_row namespace_id key)).

Definition live_keys (now : Z) (u : U) (matches : string -> bool) (d : KvData) : list string :=
  omap (fun kv : (U * string) * KvRow =>
    if decide (kv.1.1 = u) then if matches kv.1.2 && alive now kv.2 then Some kv.1.2 else None else None)
    (map_to_list d).

Definition select_keys (now : Z) (namespace_id : string) (pattern : option string) (limit : Z) (d : KvData) :
  result (list string) string :=
  u <-? namespace_arg namespace_id;
  _ <-? text_arg (default "" pattern);
  Ok (take (Z.to_nat limit)
    (merge_sort key_le (live_keys now u (match pattern with Some p => like p | None => fun _ => true end) d))).

Definition kv_list (now : Z) (namespace_id : string) (prefix : option string) (limit : option Z) :
  Db KvData -> KvResult * Db KvData :=
  answer "list" KKeys (query (fun d =>
    a <-? select_keys now namespace_id ((fun p => p +:+ "%") <$> prefix) (default 1000 limit) d; Ok (a, d))).

(** ** Facts *)

Lemma answer_inv {A} what (f : A -> KvResult) m s r s' : answer what f m s = (r, s') ->
  exists ra, m s = (ra, s') /\ r = to_result what f ra.
Proof. unfold answer. destruct (m s) as [ra s1]. intros; simplify_eq. eauto. Qed.

Lemma get_spec now ns k s r s' : kv_get now ns k s = (r, s') ->
  data s' = data s /\ (forall o, r = KValue o -> select_value now ns k (data s) = Ok o).
Proof.
  unfold kv_get. intros (ra & Eq & ->)%answer_inv. apply query_read in Eq as [Hd Ho]. split; [done|].
  intros o Ev. destruct ra as [a|]; simplify_eq/=. by apply Ho.
Qed.

(** A put that answers, and one that does not. *)
Lemma put_spec now ns k v ttl s r s' : kv_put now ns k v ttl s = (r, s') ->
  (data s' = data s /\ r <> KOk) \/
  (exists d, upsert now ns k v (as_i64 <$> ttl) (data s) = Ok (tt, d) /\ data s' = d /\
    exists text, json_text v = Ok text /\ str_len text <= MAX_VALUE_SIZE).
Proof.
  unfold kv_put. destruct (json_text v) as [text|]; [|intros; simplify_eq; by left].
  destruct (Z.ltb_spec MAX_VALUE_SIZE (str_len text)); [intros; simplify_eq; by left|].
  intros (ra & Eq & ->)%answer_inv. apply query_inv in Eq as [[Hd Hr]|([] & d & Ed & Hd & Hr)].
  - left. split; [done|]. by destruct ra.
  - right. exists d. split_and!; [done..|]. by exists text.
Qed.

Lemma upsert_Ok now ns k v ttl d d' : upsert now ns k v ttl d = Ok (tt, d') ->
  exists u e, uuid_parse ns = Some u /\ contains_char "000" k = false /\
    d' = <[(u, k) := mkKvRow v e]> d /\
    match ttl with Some t => add_seconds now t = e /\ e <> None | None => e = None end.
Proof.
  unfold upsert, namespace_arg, text_arg. destruct (uuid_parse ns) as [u|]; [|done]. simpl.
  destruct (contains_char "000" k); [done|]. simpl. destruct ttl as [t|]; simpl.
  - destruct (add_seconds now t) as [e|] eqn:E; [|done]. intros; simplify_eq/=. by exists u, (Some e).
  - intros; simplify_eq/=. by exists u, None.
Qed.

(** The value another namespace or another key has does not depend on a put. *)
Lemma select_other (now : Z) (u : U) (k : string) (row : KvRow) (ns' k' : string) (d : KvData) :
  uuid_parse ns' <> Some u \/ k' <> k ->
  select_value now ns' k' (<[(u, k) := row]> d) = select_value now ns' k' d.
Proof.
  intros Hne. unfold select_value, namespace_arg. destruct (uuid_parse ns') as [u'|]; [|done]. cbn [result_bind].
  destruct (text_arg k'); [|done]. cbn [result_bind]. rewrite lookup_insert_ne; [done|]. intros [= -> ->]. by destruct Hne.
Qed.

Lemma add_seconds_Some now t e : add_seconds now t = Some e -> e = now + t * 10 ^ 6.
Proof. unfold add_seconds. case_match; intros; by simplify_eq. Qed.

Lemma as_i64_small t : 0 <= t <= I64_MAX -> as_i64 t = t.
Proof. unfold as_i64, I64_MAX. intros. rewrite Z.mod_small by lia. case_match; [done|]. reflect_bools. lia. Qed.

(** A put that answers stores its value under its namespace and key: a
    get sees it until its time to live is over, and not after. The keys of
    other namespaces and the other keys have the values they had. A put that
    answers an error changed nothing, or stored the value and lost the
    answer; a value over the limit is never stored. *)
Theorem kv_put_then_get now ns k v ttl s r s1 now' :
  kv_put now ns k v ttl s = (r, s1) ->
  (forall t, ttl = Some t -> 0 <= t <= I64_MAX) ->
  let stored := select_value now' ns k (data s1) =
    Ok (if match ttl with Some t => now' <? now + t * 10 ^ 6 | None => true end then Some v else None) in
  (r = KOk -> stored) /\ (r <> KOk -> data s1 = data s \/ stored) /\
  (forall ns' k', uuid_parse ns' <> uuid_parse ns \/ k' <> k ->
     select_value now' ns' k' (data s1) = select_value now' ns' k' (data s)) /\
  ((forall text, json_text v = Ok text -> MAX_VALUE_SIZE < str_len text) -> data s1 = data s /\ r <> KOk).
Proof.
  intros Hput Ht. apply put_spec in Hput as [[Hd Hr]|(d & Hu & Hd & text & Htx & Hlen)].
  { rewrite Hd. cbv zeta. split_and!; [done|by left|done|done]. }
  apply upsert_Ok in Hu as (u & e & Hns & Hk & -> & He). rewrite Hd. cbv zeta.
  assert (Hst : select_value now' ns k (<[(u, k) := mkKvRow v e]> (data s)) =
    Ok (if match ttl with Some t => now' <? now + t * 10 ^ 6 | None => true end then Some v else None)).
  { unfold select_value, namespace_arg, text_arg. rewrite Hns, Hk. cbn [result_bind].
    rewrite lookup_insert_eq. unfold alive. cbn [kv_expires kv_value]. destruct ttl as [t|]; simpl in He.
    - destruct He as [He Hne]. destruct e as [e|]; [|done].
      rewrite as_i64_small in He by by apply Ht. by apply add_seconds_Some in He as ->.
    - by rewrite He. }
  split_and!; [done|by right| |].
  - intros ns' k' Hne. apply select_other. by rewrite <- Hns.
  - intros Hbig. specialize (Hbig text Htx). lia.
Qed.

(** ** Listings *)

Lemma like_prefix p s : contains_char "%" p = false -> contains_char "_" p = false -> contains_char "\" p = false ->
  like (p +:+ "%") s = starts_with p s.
Proof.
  intros H1 H2 H3. revert s. induction p as [|c p IH]; intros s.
  - simpl. unfold starts_with. simpl. induction s as [|d s IH]; [done|]. simpl.
    destruct (is_continuation d); [done|]. simpl. by rewrite IH.
  - rewrite contains_char_cons in H1, H2, H3.
    apply orb_false_iff in H1 as [H1 H1'], H2 as [H2 H2'], H3 as [H3 H3'].
    assert (Hs : like (String c p +:+ "%") s = match s with
      | EmptyString => false | String d r => Ascii.eqb c d && like (p +:+ "%") r end).
    { clear -H1 H2 H3. destruct c as [[] [] [] [] [] [] [] []]; done. }
    rewrite Hs. destruct s as [|d s]; [done|]. rewrite IH by done. unfold starts_with. simpl.
    by destruct (Ascii.eqb c d).
Qed.

Lemma live_keys_elem (now : Z) (u : U) (matches : string -> bool) (d : KvData) (k : string) : k ∈ live_keys now u matches d <->
  matches k = true /\ exists row, d !! (u, k) = Some row /\ alive now row = true.
Proof.
  unfold live_keys. rewrite list_elem_of_omap. split.
  - intros ([[u' k'] row] & Hin%elem_of_map_to_list & E). cbn [fst snd] in E. case_decide; [|done]. subst u'.
    destruct (matches k') eqn:Em; [|done]. destruct (alive now row) eqn:Ea; simplify_eq/=. eauto.
  - intros (Hm & row & Hd & Ha). exists ((u, k), row). rewrite elem_of_map_to_list. split; [done|].
    cbn [fst snd]. rewrite decide_True by done. by rewrite Hm, Ha.
Qed.

(** A listing with a prefix free of the wildcards of LIKE gives live keys
    of the namespace that start with the prefix, in the order of the
    collation, at most the limit, 1000 if there is none; and when it gives
    fewer than the limit it gives all of them. *)
Theorem kv_list_exact now ns prefix limit s r s1 keys u `{!Total key_le, !Transitive key_le} :
  kv_list now ns prefix limit s = (r, s1) -> r = KKeys keys ->
  uuid_parse ns = Some u ->
  (forall p, prefix = Some p ->
     contains_char "%" p = false /\ contains_char "_" p = false /\ contains_char "\" p = false) ->
  let wanted k := (match prefix with Some p => starts_with p k | None => true end = true /\
    exists row, data s !! (u, k) = Some row /\ alive now row = true) in
  let n := Z.to_nat (default 1000 limit) in
  data s1 = data s /\ (length keys <= n)%nat /\ StronglySorted key_le keys /\
  Forall wanted keys /\ ((length keys < n)%nat -> forall k, wanted k -> k ∈ keys).
Proof.
  intros (ra & Eq & ->)%answer_inv Er Hu Hp wanted n. apply query_read in Eq as [Hd Ho].
  destruct ra as [a|]; simplify_eq/=. specialize (Ho keys eq_refl). unfold select_keys, namespace_arg in Ho.
  rewrite Hu in Ho. cbn [result_bind] in Ho. destruct (text_arg _); [|done]. cbn [result_bind] in Ho.
  injection Ho as <-. fold n. set (l := live_keys _ _ _ _).
  assert (Hl : forall k, k ∈ merge_sort key_le l <-> wanted k).
  { intros k. rewrite merge_sort_Permutation. unfold l. rewrite live_keys_elem. unfold wanted.
    destruct prefix as [p|]; [|done]. simpl. destruct (Hp p eq_refl) as (? & ? & ?). by rewrite like_prefix. }
  split_and!; [done|rewrite length_take; lia|..].
  - pose proof (StronglySorted_merge_sort key_le l) as Hs.
    rewrite <- (take_drop n (merge_sort key_le l)) in Hs. by apply StronglySorted_app_1_l in Hs.
  - apply Forall_forall. intros k Hk. apply Hl. eapply elem_of_take in Hk as (i & Hi & _).
    by eapply list_elem_of_lookup_2.
  - intros Hlt k Hk%Hl. rewrite length_take in Hlt. rewrite take_ge by lia. done.
Qed.
End kv.

(** ** Concrete runs *)

Definition ex_text : string := "0190b7a2-0000-7000-8000-00000000000f".
Definition ex_json (v : string) : result string string := Ok v.
Definition str_le (a b : string) : Prop := String.leb a b = true.

#[export] Instance str_le_dec a b : Decision (str_le a b).
Proof. unfold str_le. apply _. Defined.

#[export] Instance str_le_total : Total str_le.
Proof. intros a b. apply String.leb_total. Qed.

#[export] Instance str_le_trans : Transitive str_le.
Proof.
  intros a b c. unfold str_le. rewrite !str_leb_spec. intros [Hab| ->] [Hbc|<-]; auto.
  left. by eapply str_ltb_trans.
Qed.

Definition ex_puts (l : list (string * option Z)) : Db (gmap (text_uuid * string) (@KvRow string)) :=
  foldl (fun s kt => (kv_put ex_json 0 ex_text kt.1 "v" kt.2 s).2) (mkDb ∅ []) l.

Lemma kv_put_then_get_witness :
  exists s1, kv_put (U := text_uuid) ex_json 0 ex_text "a" "v" (Some 60) (mkDb ∅ []) = (KOk, s1) /\
    select_value 1000000 ex_text "a" (data s1) = Ok (Some "v").
Proof.
  destruct (kv_put (U := text_uuid) ex_json 0 ex_text "a" "v" (Some 60) (mkDb ∅ [])) as [r s1] eqn:E.
  assert (Hr : r = KOk) by (apply (f_equal fst) in E; vm_compute in E; by subst r). subst r.
  exists s1. split; [done|].
  refine (proj1 (kv_put_then_get ex_json 0 ex_text "a" "v" (Some 60) (mkDb ∅ []) KOk s1 1000000 E _) eq_refl).
  intros t [= <-]. unfold I64_MAX. lia.
Defined.

Lemma kv_list_exact_witness :
  exists s1, kv_list str_le 0 ex_text (Some "a") (Some 1) (ex_puts [("ab", None); ("b", None); ("aa", None)]) =
    (KKeys ["aa"], s1) /\ StronglySorted str_le ["aa"].
Proof.
  destruct (kv_list str_le 0 ex_text (Some "a") (Some 1) (ex_puts [("ab", None); ("b", None); ("aa", None)]))
    as [r s1] eqn:E.
  assert (Hr : r = KKeys ["aa"]) by (apply (f_equal fst) in E; vm_compute in E; by subst r).
  destruct (uuid_parse (U := text_uuid) ex_text) as [u|] eqn:Eu; [|by vm_compute in Eu].
  exists s1. split; [by subst r|].
  refine (proj1 (proj2 (proj2 (kv_list_exact str_le 0 ex_text (Some "a") (Some 1) _ r s1 ["aa"] u E Hr Eu _)))).
  intros p [= <-]. done.
Defined.

(** The prefix of a listing is a pattern: an underscore in it stands for
    any character and a percent sign for any text, so the listing gives keys
    that do not start with the prefix. *)
Theorem list_prefix_is_pattern :
  (kv_list str_le 0 ex_text (Some "user_") None (ex_puts [("user_1", None); ("users", None); ("user", None)])).1 =
    KKeys ["user_1"; "users"] /\ starts_with "user_" "users" = false.
Proof. split; vm_compute; reflexivity. Qed.

(** A time to live above the largest signed number wraps: a put with the
    largest one answers that it succeeded, and the value is expired at once. *)
Theorem huge_ttl_expires_at_once :
  (kv_put (U := text_uuid) ex_json 1000000 ex_text "a" "v" (Some U64_MAX) (mkDb ∅ [])).1 = KOk /\
  select_value 1000000 ex_text "a"
    (data (kv_put (U := text_uuid) ex_json 1000000 ex_text "a" "v" (Some U64_MAX) (mkDb ∅ [])).2) = Ok None.
Proof. split; vm_compute; reflexivity. Qed.
