(* ===== verification/Scheduler.v ===== *)
(** * Crons (src/src/scheduler.rs, src/src/event_scheduled.rs)

    Every second the runner claims the crons that are due: one transaction per
    cron moves its next run and records the event, and then the runs start.
    The tables can fail at any statement; the cron parser is a parameter. *)

From stdpp Require Import sorting.
From S2P Require Import Prelude RustStr Extern Postgres Metrics.

Definition CRONS_PER_TICK : nat := 100.
Definition SCHEDULED_TASK_TIMEOUT_MS : Z := 60000.

(** Times are microseconds. *)
Record Cron := mkCron {
  c_worker : string; c_value : string; c_next : option Z; c_last : option Z; c_deleted : bool }.
Record Event := mkEvent { e_id : string; e_cron : string; e_worker : string; e_scheduled : Z }.
Record Tables := mkTables { crons : gmap string Cron; scheduled_events : list Event }.

Record DueCron := mkDue { d_id : string; d_worker : string; d_value : string; d_next : Z }.
Record ScheduledData := mkScheduled { s_id : string; s_cron : string; s_time : Z; s_worker : string }.

(** ** Statements *)

Definition due_of (now : Z) (kv : string * Cron) : option DueCron :=
  next ← c_next kv.2;
  if (next <=? now) && negb (c_deleted kv.2) then Some (mkDue kv.1 (c_worker kv.2) (c_value kv.2) next) else None.

Definition sooner (a b : DueCron) : Prop := d_next a <= d_next b.

#[export] Instance sooner_dec a b : Decision (sooner a b).
Proof. unfold sooner. apply _. Defined.

Definition select_due (now : Z) (t : Tables) : list DueCron :=
  take CRONS_PER_TICK (merge_sort sooner (omap (due_of now) (map_to_list (crons t)))).

(** Whether the cron is still as it was read. *)
Definition still_due (id : string) (next : Z) (t : Tables) : option Cron :=
  c ← crons t !! id;
  if bool_decide (c_next c = Some next) && negb (c_deleted c) then Some c else None.

Definition claim_row (id : string) (old next : Z) (t : Tables) : bool * Tables :=
  match still_due id old t with
  | Some c => (true, mkTables (<[id := mkCron (c_worker c) (c_value c) (Some next) (Some old) (c_deleted c)]> (crons t))
      (scheduled_events t))
  | None => (false, t)
  end.

Definition stop_row (id : string) (old : Z) (t : Tables) : Tables :=
  match crons t !! id with
  | Some c => if bool_decide (c_next c = Some old)
    then mkTables (<[id := mkCron (c_worker c) (c_value c) None (c_last c) (c_deleted c)]> (crons t)) (scheduled_events t)
    else t
  | None => t
  end.

Definition record_event (e : Event) (t : Tables) : Tables := mkTables (crons t) (scheduled_events t ++ [e]).

(** ** Claims *)

Section scheduler.
(** The first run of a pattern after a time. *)
Variable next_run : string -> Z -> option Z.

Definition scheduled_of (event_id : string) (c : DueCron) : ScheduledData :=
  mkScheduled event_id (d_value c) (Z.max 0 (d_next c / 1000)) (d_worker c).

(** [event_id]: the new UUID of the event. *)
Definition claim_one (c : DueCron) (next : Z) (event_id : string) : SE (Db Tables) string (option ScheduledData) :=
  transaction (
    claimed ← query (fun t => Ok (claim_row (d_id c) (d_next c) next t));
    if (claimed : bool) then
      _ ← query (fun t => Ok (tt, record_event (mkEvent event_id (d_id c) (d_worker c) (d_next c)) t));
      mret (Some (scheduled_of event_id c))
    else mret None).

Fixpoint claim_loop (now : Z) (ids : nat -> string) (n : nat) (l : list DueCron) :
  SE (Db Tables) string (list ScheduledData) :=
  match l with
  | [] => mret []
  | c :: l =>
    match next_run (d_value c) now with
    | None =>
      _ ← query (fun t => Ok (tt, stop_row (d_id c) (d_next c) t));
      claim_loop now ids (S n) l
    | Some next =>
      claimed ← claim_one c next (ids n);
      rest ← claim_loop now ids (S n) l;
      mret (match claimed with Some data => data :: rest | None => rest end)
    end
  end.

Definition claim_due (now : Z) (ids : nat -> string) : SE (Db Tables) string (list ScheduledData) :=
  due ← query (fun t => Ok (select_due now t, t));
  claim_loop now ids 0 due.

(** ** The loop of the scheduler *)

(** One tick: the runs that start, or [None] when the scheduler ends. *)
Definition tick (draining : bool) (now : Z) (ids : nat -> string) (s : Db Tables) : option (list ScheduledData) * Db Tables :=
  if draining then (None, s) else
  match claim_due now ids s with
  | (Ok due, s') => (Some due, s')
  | (Err _, s') => (Some [], s')
  end.
End scheduler.

(** ** A run (event_scheduled.rs)

    What is recorded of a run. [conn]: the connection, [worker]: the worker
    with its bindings, [prepared]: its script, [slot]: whether a slot of the
    pool is free, [executed]: the end of the task, [answered]: its result, or
    none in time. *)
Definition run_scheduled {P} (prepared : result P string) (slot : bool) (executed : result unit TerminationReason)
  (answered : option (result (bool * string) string)) : bool * Outcome :=
  match prepared with
  | Err _ => (false, Failed "script_invalid")
  | Ok _ =>
    if slot then
      (true, match executed with
        | Ok _ => match answered with
                  | None => Failed "no_result"
                  | Some (Ok (true, _)) => Success
                  | Some (Ok (false, _)) => Failed "task_error"
                  | Some (Err _) => Failed "no_response"
                  end
        | Err reason => terminated reason
        end)
    else (false, Failed "overloaded")
  end.

Definition dispatch {W P} (draining : bool) (conn : result unit string) (worker : string -> option W)
  (prepare : W -> result P string) (slot : bool) (executed : result unit TerminationReason)
  (answered : option (result (bool * string) string)) (d : ScheduledData) : option (bool * Outcome) :=
  if draining then None else
  match conn with
  | Err _ => Some (false, Failed "db_unavailable")
  | Ok _ =>
    match worker (s_worker d) with
    | None => Some (false, Failed "worker_not_found")
    | Some w => Some (run_scheduled (prepare w) slot executed answered)
    end
  end.

(** ** A claim when nothing fails *)

Section claims.
Variable next_run : string -> Z -> option Z.

Definition matches_row (t : Tables) (c : DueCron) : Prop :=
  exists row, crons t !! d_id c = Some row /\ c_next row = Some (d_next c) /\ c_deleted row = false.

Definition valid (now : Z) (c : DueCron) : Prop := next_run (d_value c) now <> None.

#[local] Instance valid_dec now c : Decision (valid now c).
Proof. unfold valid. apply _. Defined.

Lemma claim_one_works c next id t row : crons t !! d_id c = Some row -> c_next row = Some (d_next c) ->
  c_deleted row = false ->
  claim_one c next id (mkDb t []) = (Ok (Some (scheduled_of id c)),
    mkDb (record_event (mkEvent id (d_id c) (d_worker c) (d_next c))
      (mkTables (<[d_id c := mkCron (c_worker row) (c_value row) (Some next) (Some (d_next c)) false]> (crons t))
        (scheduled_events t))) []).
Proof.
  intros Hr Hn Hd. apply transaction_works. unfold mbind, SE_bind. rewrite query_works.
  unfold claim_row, still_due. rewrite Hr. cbn [mbind option_bind].
  rewrite Hn, Hd, bool_decide_true by done. cbn [andb negb]. rewrite query_works. by rewrite Hd.
Qed.

Lemma stop_row_works c t row : crons t !! d_id c = Some row -> c_next row = Some (d_next c) ->
  stop_row (d_id c) (d_next c) t =
  mkTables (<[d_id c := mkCron (c_worker row) (c_value row) None (c_last row) (c_deleted row)]> (crons t)) (scheduled_events t).
Proof. intros Hr Hn. unfold stop_row. by rewrite Hr, Hn, bool_decide_true. Qed.

Lemma matches_other t c id row es : c.(d_id) <> id -> matches_row t c ->
  matches_row (mkTables (<[id := row]> (crons t)) es) c.
Proof. intros Hne (r & Hr & Hn). exists r. simpl. by rewrite lookup_insert_ne. Qed.

Lemma claim_loop_works now ids n l t : Forall (matches_row t) l -> NoDup (d_id <$> l) ->
  exists due t' new, claim_loop next_run now ids n l (mkDb t []) = (Ok due, mkDb t' []) /\
    scheduled_events t' = scheduled_events t ++ new /\
    (fun e => (e_cron e, e_scheduled e)) <$> new = (fun c => (d_id c, d_next c)) <$> filter (valid now) l /\
    (fun d => (s_cron d, s_worker d, s_time d)) <$> due =
      (fun c => (d_value c, d_worker c, Z.max 0 (d_next c / 1000))) <$> filter (valid now) l /\
    s_id <$> due = e_id <$> new /\
    (forall c, c ∈ l -> exists row, crons t' !! d_id c = Some row /\ c_next row = next_run (d_value c) now) /\
    (forall id, id ∉ d_id <$> l -> crons t' !! id = crons t !! id).
Proof.
  revert n t. induction l as [|c l IH]; intros n t Hm Hn.
  { exists [], t, []. rewrite app_nil_r. split_and!; try done. by intros c Hc%elem_of_nil. }
  apply Forall_cons in Hm as [(row & Hr & Hc & Hd) Hm]. rewrite fmap_cons in Hn. apply NoDup_cons in Hn as [Hni Hn].
  assert (Hm' : forall row' es, Forall (matches_row (mkTables (<[d_id c := row']> (crons t)) es)) l).
  { intros row' es. apply Forall_forall. intros c' Hc'. rewrite Forall_forall in Hm. apply matches_other; [|by apply Hm].
    intros E. apply Hni. rewrite <- E. by apply list_elem_of_fmap_2. }
  cbn [claim_loop]. destruct (next_run (d_value c) now) as [next|] eqn:En.
  - destruct (IH (S n) _ (Hm' (mkCron (c_worker row) (c_value row) (Some next) (Some (d_next c)) false)
      (scheduled_events t ++ [mkEvent (ids n) (d_id c) (d_worker c) (d_next c)])) Hn)
      as (due & t' & new & E & Hev & Hnew & Hdue & Hid & Hrows & Hother).
    exists (scheduled_of (ids n) c :: due), t', (mkEvent (ids n) (d_id c) (d_worker c) (d_next c) :: new).
    assert (Hv : valid now c) by (unfold valid; by rewrite En).
    rewrite !filter_cons, !decide_True by done. split_and!.
    + unfold mbind at 1, SE_bind at 1. rewrite (claim_one_works _ _ _ _ row) by done. unfold mbind, SE_bind.
      unfold record_event. cbn [scheduled_events crons]. by rewrite E.
    + rewrite Hev. simpl. by rewrite <- app_assoc.
    + rewrite !fmap_cons, Hnew. done.
    + rewrite !fmap_cons, Hdue. done.
    + rewrite !fmap_cons, Hid. done.
    + intros c' [->|Hc']%elem_of_cons; [|by apply Hrows]. rewrite Hother by done. simpl.
      rewrite lookup_insert_eq. eexists. split; [done|]. by rewrite En.
    + intros id Hid'. rewrite Hother by (intros ?; apply Hid'; rewrite fmap_cons; by right). simpl.
      apply lookup_insert_ne. intros <-. apply Hid'. rewrite fmap_cons. by left.
  - destruct (IH (S n) _ (Hm' (mkCron (c_worker row) (c_value row) None (c_last row) (c_deleted row))
      (scheduled_events t)) Hn) as (due & t' & new & E & Hev & Hnew & Hdue & Hid & Hrows & Hother).
    exists due, t', new. rewrite !filter_cons, !decide_False by (unfold valid; rewrite En; tauto). split_and!; try done.
    + unfold mbind, SE_bind. rewrite query_works. by rewrite (stop_row_works _ _ row).
    + intros c' [->|Hc']%elem_of_cons; [|by apply Hrows]. rewrite Hother by done. simpl.
      rewrite lookup_insert_eq. eexists. split; [done|]. by rewrite En.
    + intros id Hid'. rewrite Hother by (intros ?; apply Hid'; rewrite fmap_cons; by right). simpl.
      apply lookup_insert_ne. intros <-. apply Hid'. rewrite fmap_cons. by left.
Qed.

Lemma select_due_matches now t : Forall (matches_row t) (select_due now t) /\ NoDup (d_id <$> select_due now t) /\
  Forall (fun c => d_next c <= now) (select_due now t).
Proof.
  set (l := omap (due_of now) (map_to_list (crons t))).
  assert (Hl : forall c, c ∈ l -> matches_row t c /\ d_next c <= now).
  { intros c ([id row] & Hin%elem_of_map_to_list & E)%list_elem_of_omap. unfold due_of in E. simpl in E.
    destruct (c_next row) as [next|] eqn:En; [|done]. simpl in E.
    destruct (Z.leb_spec next now); [|done]. destruct (c_deleted row) eqn:Ed; simplify_eq/=.
    split; [|done]. by exists row. }
  assert (Hs : forall c, c ∈ select_due now t -> c ∈ l).
  { intros c (i & Hi & _)%elem_of_take. apply list_elem_of_lookup_2 in Hi. by rewrite merge_sort_Permutation in Hi. }
  split_and!; [apply Forall_forall; intros c Hc; by apply Hl, Hs| |apply Forall_forall; intros c Hc; by apply Hl, Hs].
  eapply sublist_NoDup; [|apply fmap_sublist, sublist_take]. rewrite merge_sort_Permutation.
  assert (Hk := NoDup_fst_map_to_list (crons t)). eapply sublist_NoDup; [exact Hk|]. unfold l. clear.
  induction (map_to_list (crons t)) as [|[id row] m IH]; [done|]. simpl. unfold due_of at 1. simpl.
  destruct (c_next row) as [next|]; simpl; [|by apply sublist_cons].
  destruct ((next <=? now) && _); simpl; [by apply sublist_skip|by apply sublist_cons].
Qed.

Lemma sooner_trans : Transitive sooner.
Proof. unfold sooner. intros a b c. lia. Qed.

Lemma sooner_total : Total sooner.
Proof. unfold sooner. intros a b. lia. Qed.

Lemma all_due_sorted now t : StronglySorted sooner (merge_sort sooner (omap (due_of now) (map_to_list (crons t)))).
Proof.
  assert (H := sooner_trans). assert (H1 := sooner_total). apply Sorted_StronglySorted; [done|]. by apply Sorted_merge_sort.
Qed.

Lemma select_due_sorted now t : StronglySorted sooner (select_due now t).
Proof.
  unfold select_due. assert (H := all_due_sorted now t). revert H.
  rewrite <- (take_drop CRONS_PER_TICK (merge_sort _ _)) at 1. apply StronglySorted_app_1_l.
Qed.

(** A due cron that is not taken comes after those that are. *)
Lemma select_due_all now t id row next : crons t !! id = Some row -> c_next row = Some next -> next <= now ->
  c_deleted row = false -> id ∈ d_id <$> select_due now t \/
  (length (select_due now t) = CRONS_PER_TICK /\ Forall (fun c => d_next c <= next) (select_due now t)).
Proof.
  intros Hr Hn Hle Hd. set (c := mkDue id (c_worker row) (c_value row) next).
  set (l := merge_sort sooner (omap (due_of now) (map_to_list (crons t)))).
  assert (Hc : c ∈ l).
  { unfold l. rewrite merge_sort_Permutation. apply list_elem_of_omap. exists (id, row).
    split; [by apply elem_of_map_to_list|]. unfold due_of. simpl. rewrite Hn. simpl. rewrite Hd.
    by rewrite (proj2 (Z.leb_le _ _) Hle). }
  assert (Hs := all_due_sorted now t). fold l in Hs. unfold select_due. fold l.
  rewrite <- (take_drop CRONS_PER_TICK l) in Hc, Hs. apply elem_of_app in Hc as [Hc|Hc].
  - left. apply list_elem_of_fmap. by exists c.
  - right. split.
    + rewrite length_take. assert (0 < length (drop CRONS_PER_TICK l))%nat by (destruct (drop _ l); [set_solver|simpl; lia]).
      rewrite length_drop in *. lia.
    + apply Forall_forall. intros c' Hc'. by apply (StronglySorted_app_1_elem_of sooner _ _ c' c Hs).
Qed.

(** When the database answers, a tick takes the crons that are due, the
    soonest first and at most [CRONS_PER_TICK]: each one whose pattern still
    has a run is recorded once, under the time it was due at, and handed over
    in that order; every one taken has its next run after it, none when its
    pattern is not valid; every other cron is as it was. *)
Theorem claim_due_exact now ids t :
  exists due t' new, claim_due next_run now ids (mkDb t []) = (Ok due, mkDb t' []) /\
    scheduled_events t' = scheduled_events t ++ new /\
    (fun e => (e_cron e, e_scheduled e)) <$> new = (fun c => (d_id c, d_next c)) <$> filter (valid now) (select_due now t) /\
    (fun d => (s_cron d, s_worker d, s_time d)) <$> due =
      (fun c => (d_value c, d_worker c, Z.max 0 (d_next c / 1000))) <$> filter (valid now) (select_due now t) /\
    s_id <$> due = e_id <$> new /\
    (forall c, c ∈ select_due now t ->
      exists row, crons t' !! d_id c = Some row /\ c_next row = next_run (d_value c) now) /\
    (forall id, id ∉ d_id <$> select_due now t -> crons t' !! id = crons t !! id) /\
    StronglySorted sooner (select_due now t) /\ (length (select_due now t) <= CRONS_PER_TICK)%nat /\
    (forall id row next, crons t !! id = Some row -> c_next row = Some next -> next <= now -> c_deleted row = false ->
      id ∈ d_id <$> select_due now t \/
      (length (select_due now t) = CRONS_PER_TICK /\ Forall (fun c => d_next c <= next) (select_due now t))).
Proof.
  destruct (select_due_matches now t) as (Hm & Hn & _).
  destruct (claim_loop_works now ids 0 _ t Hm Hn) as (due & t' & new & E & H). exists due, t', new.
  split. { unfold claim_due, mbind, SE_bind. by rewrite query_works. }
  destruct H as (H1 & H2 & H3 & H4 & H5 & H6). split_and!; try done.
  - apply select_due_sorted.
  - unfold select_due. rewrite length_take. lia.
  - intros id row next. apply select_due_all.
Qed.
End claims.

(** ** Claims that race

    Several runners claim from the same tables, each with crons it has read
    before, while the API writes crons; every statement can fail or lose its
    answer. *)

Lemma claim_one_inv c next id s r s' : claim_one c next id s = (r, s') ->
  data s' = data s \/
  exists row, crons (data s) !! d_id c = Some row /\ c_next row = Some (d_next c) /\
    data s' = mkTables (<[d_id c := mkCron (c_worker row) (c_value row) (Some next) (Some (d_next c)) (c_deleted row)]>
        (crons (data s))) (scheduled_events (data s) ++ [mkEvent id (d_id c) (d_worker c) (d_next c)]).
Proof.
  unfold claim_one, transaction.
  destruct (query (fun d => Ok (tt, d)) s) as [r0 s0] eqn:E0.
  assert (H0 : data s0 = data s) by (apply query_inv in E0; naive_solver).
  destruct r0 as [[]|]; [|naive_solver]. unfold mbind, SE_bind.
  destruct (query (fun t => Ok (claim_row _ _ _ t)) s0) as [r1 s1] eqn:E1. destruct r1 as [[]|]; [|naive_solver..].
  destruct (query _ s1) as [r2 s2] eqn:E2. destruct r2 as [[]|]; [|naive_solver]. cbn [mret SE_ret].
  destruct (query (fun _ => Ok (tt, data s2)) _) as [r3 s3] eqn:E3. intros E.
  assert (data s3 = data s') as <- by (destruct r3; naive_solver). clear E.
  apply query_inv in E3 as [[-> _]|(? & d & ? & -> & _)]; [by left|]. simplify_eq. right.
  apply query_inv in E2 as [[_ ?]|(? & d & ? & -> & _)]; [done|]. simplify_eq.
  apply query_inv in E1 as [[_ ?]|(b & d & E1 & -> & Hb)]; [done|]. destruct Hb; [|done]. simplify_eq.
  rewrite H0 in E1. unfold claim_row, still_due in E1.
  destruct (crons (data s) !! d_id c) as [row|]; cbn [mbind option_bind] in E1; [|done].
  destruct (bool_decide_reflect (c_next row = Some (d_next c))); cbn [andb] in E1; [|done].
  exists row. destruct (c_deleted row) eqn:Ed; cbn [negb] in E1; [done|]. injection E1 as <-. rewrite <- Ed. by split_and!.
Qed.

(** What a claim answers is what it recorded. *)
Lemma claim_one_ok c next id s o s' : claim_one c next id s = (Ok o, s') ->
  match o with
  | Some d => s_id d = id /\
      scheduled_events (data s') = scheduled_events (data s) ++ [mkEvent id (d_id c) (d_worker c) (d_next c)]
  | None => scheduled_events (data s') = scheduled_events (data s)
  end.
Proof.
  unfold claim_one, transaction.
  destruct (query (fun d => Ok (tt, d)) s) as [r0 s0] eqn:E0.
  assert (H0 : data s0 = data s) by (apply query_inv in E0; naive_solver).
  destruct r0 as [[]|]; [|done]. unfold mbind, SE_bind.
  destruct (query (fun t => Ok (claim_row _ _ _ t)) s0) as [r1 s1] eqn:E1. destruct r1 as [[]|]; [| |done].
  2: { cbn [mret SE_ret]. intros [= <- <-]. simpl. by rewrite H0. }
  destruct (query _ s1) as [r2 s2] eqn:E2. destruct r2 as [[]|]; [|done]. cbn [mret SE_ret].
  destruct (query (fun _ => Ok (tt, data s2)) _) as [r3 s3] eqn:E3. destruct r3; [|done]. intros [= <- <-].
  split; [done|]. apply query_inv in E3 as [[_ ?]|(? & d & [= <- <-] & -> & _)]; [done|].
  apply query_inv in E2 as [[_ ?]|(? & d & [= <- <-] & -> & _)]; [done|]. simpl. f_equal.
  apply query_inv in E1 as [[_ ?]|(b & d & E1 & -> & _)]; [done|]. rewrite H0 in E1. unfold claim_row in E1.
  destruct (still_due _ _ _); simplify_eq/=; done.
Qed.

Lemma claim_loop_ok next_run now ids n l s due s' : claim_loop next_run now ids n l s = (Ok due, s') ->
  exists new, scheduled_events (data s') = scheduled_events (data s) ++ new /\ s_id <$> due = e_id <$> new.
Proof.
  revert n s due. induction l as [|c l IH]; intros n s due E.
  { injection E as <- <-. exists []. by rewrite app_nil_r. }
  cbn [claim_loop] in E. destruct (next_run (d_value c) now) as [next|].
  - apply SE_bind_inv in E as [(o & s1 & E1%claim_one_ok & [(rest & s2 & E2 & E3)|(e & _ & [=])]%SE_bind_inv)|(e & _ & [=])].
    injection E3 as <- <-. destruct (IH _ _ _ E2) as (new & Hn & Hi). destruct o as [d|].
    + destruct E1 as [Hd E1]. exists (mkEvent (ids n) (d_id c) (d_worker c) (d_next c) :: new).
      rewrite Hn, E1, <- app_assoc. split; [done|]. rewrite !fmap_cons, Hi, Hd. done.
    + exists new. by rewrite Hn, E1.
  - apply SE_bind_inv in E as [(u & s1 & E1 & E2)|(e & _ & [=])]. destruct (IH _ _ _ E2) as (new & Hn & Hi).
    exists new. split; [|done]. rewrite Hn. f_equal.
    apply query_inv in E1 as [[_ ?]|(a & d & [= <- <-] & -> & _)]; [done|]. unfold stop_row.
    destruct (crons (data s) !! d_id c); [|done]. by case_bool_decide.
Qed.

Section racing.
Variable next_run : string -> Z -> option Z.

Inductive step : Z * Tables -> Z * Tables -> Prop :=
| Clock now now' t : now <= now' -> step (now, t) (now', t)
| Claim clock t now c next id fs r s : d_next c <= now <= clock -> next_run (d_value c) now = Some next ->
    claim_one c next id (mkDb t fs) = (r, s) -> step (clock, t) (clock, data s)
| Stop clock t c fs r s : query (fun t => Ok (tt, stop_row (d_id c) (d_next c) t)) (mkDb t fs) = (r, s) ->
    step (clock, t) (clock, data s)
| Write clock t id row : (forall next, c_next row = Some next -> clock < next) ->
    step (clock, t) (clock, mkTables (<[id := row]> (crons t)) (scheduled_events t)).

Definition start (t : Tables) : Prop := scheduled_events t = [].

(** The next run of a cron is after all its runs, and every run is past. *)
Definition runs_inv (s : Z * Tables) : Prop :=
  NoDup ((fun e => (e_cron e, e_scheduled e)) <$> scheduled_events s.2) /\
  forall e, e ∈ scheduled_events s.2 -> e_scheduled e <= s.1 /\
    forall row next, crons s.2 !! e_cron e = Some row -> c_next row = Some next -> e_scheduled e < next.

(** A tick is made of these steps. *)
Lemma claim_loop_steps now ids n l s r s' : Forall (fun c => d_next c <= now) l ->
  claim_loop next_run now ids n l s = (r, s') -> rtc step (now, data s) (now, data s').
Proof.
  revert n s r. induction l as [|c l IH]; intros n s r Hl E; [by injection E as _ <-|].
  apply Forall_cons in Hl as [Hc Hl]. destruct s as [t fs]. cbn [claim_loop] in E.
  destruct (next_run (d_value c) now) as [next|] eqn:En.
  - apply SE_bind_inv in E as [(claimed & s1 & E1 & E)|(e & E1 & ->)].
    + eapply rtc_l; [eapply (Claim now t now c); [lia|exact En|exact E1]|]. apply SE_bind_inv in E as [(rest & s2 & E2 & E)|(e & E2 & ->)].
      * injection E as _ <-. by eapply IH.
      * by eapply IH.
    + eapply rtc_once, (Claim now t now c); [lia|exact En|exact E1].
  - apply SE_bind_inv in E as [([] & s1 & E1 & E)|(e & E1 & ->)].
    + eapply rtc_l; [eapply Stop, E1|]. by eapply IH.
    + eapply rtc_once, Stop, E1.
Qed.

Lemma claim_due_steps now ids s r s' : claim_due next_run now ids s = (r, s') -> rtc step (now, data s) (now, data s').
Proof.
  intros [(due & s1 & E1 & E)|(e & E1 & ->)]%SE_bind_inv.
  - apply query_inv in E1 as [[_ ?]|(a & d & E2 & H1 & Ha)]; [done|]. destruct Ha as [Ha|]; [|done].
    injection Ha as <-. injection E2 as <- <-. rewrite <- H1.
    eapply (claim_loop_steps now ids 0), E. apply select_due_matches.
  - apply query_inv in E1 as [[-> _]|(a & d & E2 & H1 & Ha)]; [done|]. injection E2 as <- <-. by rewrite H1.
Qed.

Hypothesis next_run_after : forall p now t, next_run p now = Some t -> now < t.

Lemma step_inv s s' : step s s' -> runs_inv s -> runs_inv s'.
Proof.
  intros Hs [Hn Hr]. destruct Hs as [now now' t Hle|clock t now c next id fs r s Hc Hnext E|clock t c fs r s E|clock t id row Hrow];
    simpl in *.
  - split; [done|]. intros e He. destruct (Hr e He) as [? ?]. split; [simpl; lia|done].
  - apply claim_one_inv in E as [->|(row & Hrow & Hn' & ->)]; [done|]. simpl in *. apply next_run_after in Hnext.
    assert (Hold : forall e, e ∈ scheduled_events t -> e_cron e = d_id c -> e_scheduled e < d_next c).
    { intros e He Hid. destruct (Hr e He) as [_ H]. apply (H row); [by rewrite Hid|done]. }
    split; simpl.
    + rewrite fmap_app. apply NoDup_app. split; [done|]. split; [|by apply NoDup_singleton].
      intros x (e & -> & He)%list_elem_of_fmap Hx%list_elem_of_singleton. injection Hx as H1 H2.
      specialize (Hold e He H1). simpl in *. lia.
    + intros e [He| ->%list_elem_of_singleton]%elem_of_app; simpl.
      * destruct (Hr e He) as [? H]. split; [done|]. intros row' next'.
        destruct (decide (e_cron e = d_id c)) as [Hid|Hid]; [|by rewrite lookup_insert_ne; [apply H|done]].
        rewrite Hid, lookup_insert_eq. intros ? ?. simplify_eq/=. specialize (Hold e He Hid). lia.
      * split; [lia|]. intros row' next'. rewrite lookup_insert_eq. intros ? ?. simplify_eq/=. lia.
  - apply query_inv in E as [[-> _]|(a & d & E & -> & _)]; [done|]. simplify_eq/=. unfold stop_row.
    destruct (crons t !! d_id c) as [row|] eqn:Hrow; [|done]. case_bool_decide; [|done]. split; [done|].
    intros e He. destruct (Hr e He) as [? H']. split; [done|]. simpl. intros row' next'.
    destruct (decide (e_cron e = d_id c)) as [Hid|Hid]; [|by rewrite lookup_insert_ne; [apply H'|done]].
    rewrite Hid, lookup_insert_eq. intros ? ?. by simplify_eq/=.
  - split; [done|]. intros e He. destruct (Hr e He) as [? H']. split; [done|]. simpl. intros row' next'.
    destruct (decide (e_cron e = id)) as [Hid|Hid]; [|by rewrite lookup_insert_ne; [apply H'|done]].
    rewrite Hid, lookup_insert_eq. intros [= <-] Hn'. specialize (Hrow next' Hn'). lia.
Qed.

(** C14. A cron never runs twice for one time it was due: however many runners
    claim at once, from what they have read before, while crons are written
    with a run to come and any statement fails or loses its answer, no two
    recorded events are of one cron at one time, and a cron's next run is after
    every event it has; and what a tick starts is what it recorded in that
    tick, one run for each event. A run that was recorded can still be missed,
    when the tick fails after it. *)
Theorem runs_at_most_once clock clock' t t' : start t -> rtc step (clock, t) (clock', t') ->
  NoDup ((fun e => (e_cron e, e_scheduled e)) <$> scheduled_events t') /\
  (forall e row next, e ∈ scheduled_events t' -> crons t' !! e_cron e = Some row -> c_next row = Some next ->
    e_scheduled e < next) /\
  (forall now ids fs r s, clock' <= now -> claim_due next_run now ids (mkDb t' fs) = (r, s) ->
    NoDup ((fun e => (e_cron e, e_scheduled e)) <$> scheduled_events (data s)) /\
    forall due, r = Ok due -> exists new, scheduled_events (data s) = scheduled_events t' ++ new /\ s_id <$> due = e_id <$> new).
Proof.
  intros Ht Hs.
  assert (Hi : forall s s', rtc step s s' -> runs_inv s -> runs_inv s') by (induction 1; eauto using step_inv).
  assert (H : runs_inv (clock', t')).
  { apply (Hi _ _ Hs). unfold runs_inv, start in *. simpl. rewrite Ht. split; [constructor|]. by intros e ?%elem_of_nil. }
  split_and!; [apply H|intros e row next He; by apply (proj2 H e He)|].
  intros now ids fs r s Hle E. split.
  - apply claim_due_steps in E. simpl in E.
    assert (H1 : runs_inv (now, t')) by (eapply Hi; [|exact H]; by apply rtc_once, Clock). apply (Hi _ _ E H1).
  - intros due ->. apply SE_bind_inv in E as [(l & s1 & E1 & E2%claim_loop_ok)|(e & _ & [=])].
    apply query_inv in E1 as [[_ ?]|(a & d & [= <- <-] & Hd & _)]; [done|]. by rewrite Hd in E2.
Qed.
End racing.

(** ** Examples *)

(** Every minute, in microseconds, for the one valid pattern. *)
Definition minutely (pattern : string) (now : Z) : option Z :=
  if String.eqb pattern "* * * * *" then Some ((now / 60000000 + 1) * 60000000) else None.

Definition minute (n : Z) : Z := n * 60000000.

Definition two_crons : Tables := mkTables
  {[ "a" := mkCron "w1" "* * * * *" (Some (minute 1)) None false;
     "b" := mkCron "w2" "* * * * *" (Some (minute 2)) None false;
     "c" := mkCron "w3" "nonsense" (Some (minute 2)) None false ]} [].

Definition two_runners : Z * Tables :=
  (minute 3, data (claim_one (mkDue "a" "w1" "* * * * *" (minute 1)) (minute 4) "e2"
    (claim_one (mkDue "a" "w1" "* * * * *" (minute 1)) (minute 4) "e1" (mkDb two_crons [])).2).2).

Lemma runs_at_most_once_witness :
  start two_crons /\ rtc (step minutely) (minute 3, two_crons) two_runners /\
  length (scheduled_events two_runners.2) = 1%nat /\
  NoDup ((fun e => (e_cron e, e_scheduled e)) <$> scheduled_events two_runners.2).
Proof.
  assert (Hs : rtc (step minutely) (minute 3, two_crons) two_runners).
  { eapply rtc_l; [|eapply rtc_once].
    - eapply (Claim minutely (minute 3) two_crons (minute 3) (mkDue "a" "w1" "* * * * *" (minute 1)) (minute 4) "e1" []);
        [unfold minute; simpl; lia|by vm_compute|apply surjective_pairing].
    - unfold two_runners. set (s1 := (claim_one _ _ "e1" _).2).
      eapply (Claim minutely (minute 3) (data s1) (minute 3) (mkDue "a" "w1" "* * * * *" (minute 1)) (minute 4) "e2" []);
        [unfold minute; simpl; lia|by vm_compute|]. by apply surjective_pairing. }
  split; [done|]. split; [done|]. split; [by vm_compute|].
  refine (proj1 (runs_at_most_once minutely _ (minute 3) (minute 3) two_crons two_runners.2 eq_refl Hs)).
  intros p now t. unfold minutely. destruct (String.eqb _ _); [|done]. intros [= <-]. div_lia.
Defined.

(** A statement that fails for one cron loses the runs claimed before it:
    the first cron has moved to its next run and its event is recorded, and
    the tick starts nothing. *)
Theorem claim_error_loses_runs :
  let out := tick minutely false (minute 3) (fun n => show_Z (Z.of_nat n))
    (mkDb two_crons [Works; Works; Works; Works; Works; Fails "connection reset"]) in
  out.1 = Some [] /\ (fun e => (e_cron e, e_scheduled e)) <$> scheduled_events (data out.2) = [("a", minute 1)] /\
  c_next <$> (crons (data out.2) !! "a") = Some (Some (minute 4)) /\
  c_last <$> (crons (data out.2) !! "a") = Some (Some (minute 1)).
Proof. by vm_compute. Qed.
