(* ===== verification/Shutdown.v ===== *)
(** * Drain and shutdown (src/bin/main.rs)

    A signal, or a request to the admin endpoint, makes the runner drain: it
    refuses new requests and stops once no task is active. The count of active
    tasks is read by whoever starts the drain, and then by a monitor that
    waits for a task to end. Requests, drains and the monitor run at once;
    their steps interleave. *)

From S2P Require Import Prelude.

(** A request: before the look at the drain flag, past it, with a slot, with
    the slot given back and the notification to come, and ended. *)
Inductive request : Type := RNew | RAdmitted | RRunning | RReleased | REnded.

(** The monitor: before [notified()], waiting, woken, and ended. *)
Inductive monitor : Type := MAway | MWaiting | MWoken | MEnded.

(** Who starts a drain: before, with the flag set, and with the count read. *)
Inductive drainer : Type := DIdle | DSet | DLooked.

(** [unheard] is of the model only: since the monitor last looked at the count,
    a slot was given back whose notification the monitor did not hear, or that
    had none. A later wake-up makes the monitor look again. *)
Record state := mkState {
  draining : bool; requests : list request; mon : monitor; drainers : list drainer;
  sent : bool; unheard : bool }.

Definition active (s : state) : Z := countb (fun r => match r with RRunning => true | _ => false end) (requests s).

Definition set_request (i : nat) (r : request) (s : state) : state :=
  mkState (draining s) (<[i := r]> (requests s)) (mon s) (drainers s) (sent s) (unheard s).

(** [handle_request] looks at the flag. *)
Definition look_at_flag (i : nat) (s : state) : state :=
  set_request i (if draining s then REnded else RAdmitted) s.

(** [notify_waiters]: only a monitor that waits is woken. *)
Definition notify_task_completed (s : state) : state :=
  match mon s with
  | MWaiting => mkState (draining s) (requests s) MWoken (drainers s) (sent s) (unheard s)
  | MAway => mkState (draining s) (requests s) MAway (drainers s) (sent s) true
  | _ => s
  end.

(** [run_fetch] of a script that does not parse: the slot drops with no
    notification. *)
Definition drop_slot (i : nat) (s : state) : state :=
  mkState (draining s) (<[i := REnded]> (requests s)) (mon s) (drainers s) (sent s) true.

Definition set_draining (j : nat) (s : state) : state :=
  mkState true (requests s) (mon s) (<[j := DSet]> (drainers s)) (sent s) (unheard s).

(** [/admin/drain] and the first signal, after the flag. *)
Definition look_at_tasks (j : nat) (s : state) : state :=
  mkState (draining s) (requests s) (mon s) (<[j := DLooked]> (drainers s)) (sent s || (active s =? 0)) (unheard s).

(** A turn of the monitor. *)
Definition monitor_turn (s : state) : state :=
  if draining s && (active s =? 0)
  then mkState (draining s) (requests s) MEnded (drainers s) true false
  else mkState (draining s) (requests s) MAway (drainers s) (sent s) false.

Definition monitor_waits (s : state) : state :=
  mkState (draining s) (requests s) MWaiting (drainers s) (sent s) (unheard s).

Inductive step : state -> state -> Prop :=
| Look i s : requests s !! i = Some RNew -> step s (look_at_flag i s)
| GiveUp i s : requests s !! i = Some RAdmitted -> step s (set_request i REnded s)
| Start i s : requests s !! i = Some RAdmitted -> step s (set_request i RRunning s)
| Release i s : requests s !! i = Some RRunning -> step s (set_request i RReleased s)
| DropSlot i s : requests s !! i = Some RRunning -> step s (drop_slot i s)
| Notify i s : requests s !! i = Some RReleased -> step s (notify_task_completed (set_request i REnded s))
| SetFlag j s : drainers s !! j = Some DIdle -> step s (set_draining j s)
| LookTasks j s : drainers s !! j = Some DSet -> step s (look_at_tasks j s)
| Turn s : mon s = MWoken -> step s (monitor_turn s)
| Wait s : mon s = MAway -> step s (monitor_waits s).

Definition init (n m : nat) : state := mkState false (replicate n RNew) MAway (replicate m DIdle) false false.

(** ** The drain ends *)

(** What is left to do of a part. *)
Definition request_left (r : request) : nat :=
  match r with RNew => 6 | RAdmitted => 5 | RRunning => 4 | RReleased => 3 | REnded => 0 end.
Definition drainer_left (d : drainer) : nat := match d with DIdle => 2 | DSet => 1 | DLooked => 0 end.
Definition monitor_left (m : monitor) : nat := match m with MWoken => 2 | MAway => 1 | _ => 0 end.

Definition left (s : state) : nat :=
  sum_list_with request_left (requests s) + monitor_left (mon s) + sum_list_with drainer_left (drainers s).

Lemma sum_insert {A} (f : A -> nat) l i x y : l !! i = Some x ->
  (sum_list_with f (<[i := y]> l) + f x = sum_list_with f l + f y)%nat.
Proof.
  revert i. induction l as [|a l IH]; intros [|i] H; simplify_eq/=; [lia|].
  specialize (IH i H). lia.
Qed.

Lemma step_left s s' : step s s' -> (left s' < left s)%nat.
Proof.
  unfold left. destruct 1 as [i s H|i s H|i s H|i s H|i s H|i s H|j s H|j s H|s H|s H]; simpl;
    try (pose proof (sum_insert request_left _ i _ RAdmitted H); pose proof (sum_insert request_left _ i _ RRunning H);
         pose proof (sum_insert request_left _ i _ RReleased H); pose proof (sum_insert request_left _ i _ REnded H));
    try (pose proof (sum_insert drainer_left _ j _ DSet H); pose proof (sum_insert drainer_left _ j _ DLooked H));
    simpl in *; try lia.
  - destruct (draining s); lia.
  - unfold notify_task_completed. simpl. destruct (mon s) eqn:Em; simpl; rewrite ?Em; simpl; lia.
  - unfold monitor_turn. destruct (draining s && _); simpl; rewrite H; simpl; lia.
  - rewrite H. simpl. lia.
Qed.

(** A drain that has begun is still going on, or the shutdown was sent, or a
    wake-up was lost. *)
Definition going_on (s : state) : Prop :=
  (mon s = MEnded -> sent s = true) /\
  (draining s = true -> sent s = true \/ unheard s = true \/ 0 < active s \/ RReleased ∈ requests s \/
    DSet ∈ drainers s \/ mon s = MWoken).

Lemma elem_of_insert {A} (l : list A) i (x y z : A) : l !! i = Some x -> z ∈ l -> z <> x -> z ∈ <[i := y]> l.
Proof.
  intros Hi (k & Hk)%list_elem_of_lookup Hne. apply list_elem_of_lookup. exists k.
  rewrite list_lookup_insert_ne; [done|]. intros ->. congruence.
Qed.

Lemma elem_insert_new {A} (l : list A) i (x y : A) : l !! i = Some x -> y ∈ <[i := y]> l.
Proof. intros Hi. apply list_elem_of_lookup. exists i. apply list_lookup_insert_eq. by eapply lookup_lt_Some. Qed.

Lemma active_nonneg s : 0 <= active s.
Proof. apply countb_nonneg. Qed.

(** A request that neither runs nor is about to notify can move. *)
Lemma quiet_move s i x y : requests s !! i = Some x -> x <> RRunning -> x <> RReleased ->
  0 < active s \/ RReleased ∈ requests s ->
  0 < active (set_request i y s) \/ RReleased ∈ <[i := y]> (requests s).
Proof.
  intros Hi H1 H2 [Ha|Hr]; [left|right; by eapply elem_of_insert].
  unfold active in *. simpl. rewrite (countb_insert _ _ _ _ _ Hi). destruct x, y; simpl in *; done || lia.
Qed.

Lemma quiet_going_on s i x y : requests s !! i = Some x -> x <> RRunning -> x <> RReleased ->
  going_on s -> going_on (set_request i y s).
Proof.
  intros Hi H1 H2 [He Hg]. split; [done|]. simpl. intros Hd. pose proof (quiet_move s i x y Hi H1 H2).
  destruct (Hg Hd) as [|[|[|[|[|]]]]]; tauto.
Qed.

Lemma step_going_on s s' : step s s' -> going_on s -> going_on s'.
Proof.
  destruct 1 as [i s H|i s H|i s H|i s H|i s H|i s H|j s H|j s H|s H|s H]; intros Hg.
  - by eapply quiet_going_on.
  - by eapply quiet_going_on.
  - by eapply quiet_going_on.
  - split; [apply Hg|]. intros _. do 3 right. left. by eapply elem_insert_new.
  - split; [apply Hg|]. intros _. right. by left.
  - destruct Hg as [He Hg]. unfold notify_task_completed. simpl. destruct (mon s) eqn:Em; split; simpl; intros; try done.
    + by right; left.
    + by do 5 right.
    + congruence.
    + by do 5 right.
    + by apply He.
    + left. by apply He.
  - destruct Hg as [He _]. split; [done|]. intros _. do 4 right. left. by eapply elem_insert_new.
  - destruct Hg as [He Hg]. split; simpl; [intros Hm; by rewrite He|]. intros _.
    pose proof (active_nonneg s). destruct (Z.eqb_spec (active s) 0); [left; by rewrite orb_true_r|].
    right. right. left. change (0 < active s). lia.
  - destruct Hg as [_ Hg]. unfold monitor_turn. pose proof (active_nonneg s).
    destruct (draining s) eqn:Ed; destruct (Z.eqb_spec (active s) 0); simpl; split; simpl; try done; [by left|].
    intros _. do 2 right. left. change (0 < active s). lia.
  - destruct Hg as [He Hg]. split; [done|]. simpl. intros Hd. destruct (Hg Hd) as [|[|[|[|[|]]]]]; try tauto. congruence.
Qed.

Lemma reachable_going_on n m s : rtc step (init n m) s -> going_on s.
Proof.
  intros Hs. assert (H0 : going_on (init n m)) by (by split). revert H0. induction Hs; eauto using step_going_on.
Qed.

(** A run is no longer than what was left to do. *)
Lemma nsteps_left k s s' : nsteps step k s s' -> (k + left s' <= left s)%nat.
Proof. induction 1 as [|k s1 s2 s3 Hs _ IH]; [lia|]. apply step_left in Hs. lia. Qed.

Lemma init_left n m : left (init n m) = (6 * n + 1 + 2 * m)%nat.
Proof.
  unfold left. simpl. assert (H : forall {A} (f : A -> nat) x k, sum_list_with f (replicate k x) = (k * f x)%nat)
    by (intros A f x k; induction k; simpl; lia). rewrite !H. simpl. lia.
Qed.

(** C35. Every run of the requests, of those who drain and of the monitor ends,
    after at most six steps of each request and two of each drain, one more
    apart; once nothing is left to run and a drain has begun, the shutdown was
    sent, unless a slot was given back after the monitor's last look at the
    count, with its notification lost or never made. *)
Theorem drain_ends n m k s : nsteps step k (init n m) s ->
  (k <= 6 * n + 1 + 2 * m)%nat /\
  ((forall s', step s s' -> False) -> draining s = true -> unheard s = false ->
    sent s = true /\ active s = 0 /\ Forall (fun r => r = REnded) (requests s)).
Proof.
  intros Hs. split; [apply nsteps_left in Hs; rewrite init_left in Hs; lia|]. intros Hf Hd Hu.
  assert (He : Forall (fun r => r = REnded) (requests s)).
  { apply Forall_lookup. intros i r Hi. destruct r; [..|done]; exfalso; eapply Hf; [by eapply Look|by eapply GiveUp|
      by eapply Release|by eapply Notify]. }
  assert (Ha : active s = 0).
  { unfold active. clear -He. induction He as [|r l -> _ IH]; simpl; [done|]. lia. }
  split; [|done].
  assert (Hg : going_on s) by (apply (reachable_going_on n m), rtc_nsteps; eauto).
  destruct Hg as [_ Hg]. destruct (Hg Hd) as [?|[?|[?|[Hr|[Hj|Hm]]]]]; [done|congruence|lia|..]; exfalso.
  - rewrite Forall_forall in He. by apply He in Hr.
  - apply list_elem_of_lookup in Hj as [j Hj]. eapply Hf. by eapply LookTasks.
  - eapply Hf. by apply Turn.
Qed.

(** A notification that is lost does no harm when a later one wakes the
    monitor. *)
Example lost_then_heard : exists s, rtc step (init 2 1) s /\ unheard s = false /\ sent s = true.
Proof.
  exists (mkState true [REnded; REnded] MEnded [DLooked] true false). split; [|done].
  eapply rtc_l; [by apply (Look 0)|]. eapply rtc_l; [by apply (Look 1)|].
  eapply rtc_l; [by apply (Start 0)|]. eapply rtc_l; [by apply (Start 1)|].
  eapply rtc_l; [by apply (SetFlag 0)|]. eapply rtc_l; [by apply (LookTasks 0)|].
  eapply rtc_l; [by apply (Release 0)|]. eapply rtc_l; [by apply (Notify 0)|]. eapply rtc_l; [by apply Wait|].
  eapply rtc_l; [by apply (Release 1)|]. eapply rtc_l; [by apply (Notify 1)|]. eapply rtc_l; [by apply Turn|].
  apply rtc_refl.
Qed.

(** A drain can hang: of two tasks that end one after the other, the
    second wake-up comes while the monitor is between two waits, and is lost;
    the flag is set, no task is active, and nothing will send the shutdown. *)
Theorem lost_wakeup_hangs :
  exists s, rtc step (init 2 1) s /\ draining s = true /\ active s = 0 /\ sent s = false /\
    forall s', step s s' -> False.
Proof.
  exists (mkState true [REnded; REnded] MWaiting [DLooked] false true). split.
  - eapply rtc_l; [by apply (Look 0)|]. eapply rtc_l; [by apply (Look 1)|].
    eapply rtc_l; [by apply (Start 0)|]. eapply rtc_l; [by apply (Start 1)|]. eapply rtc_l; [by apply Wait|].
    eapply rtc_l; [by apply (SetFlag 0)|]. eapply rtc_l; [by apply (LookTasks 0)|].
    eapply rtc_l; [by apply (Release 0)|]. eapply rtc_l; [by apply (Notify 0)|]. eapply rtc_l; [by apply Turn|].
    eapply rtc_l; [by apply (Release 1)|]. eapply rtc_l; [by apply (Notify 1)|]. eapply rtc_l; [by apply Wait|].
    apply rtc_refl.
  - split_and!; [done..|]. intros s' Hs.
    inversion Hs as [i ? H|i ? H|i ? H|i ? H|i ? H|i ? H|j ? H|j ? H|? H|? H]; subst; simpl in H; try done;
      repeat (destruct i as [|i]; simpl in H; try done); repeat (destruct j as [|j]; simpl in H; try done).
Qed.

(** So does a drain whose last task is a script that does not parse: its
    slot goes back and nobody is told. *)
Theorem unparsed_script_hangs :
  exists s, rtc step (init 1 1) s /\ draining s = true /\ active s = 0 /\ sent s = false /\
    forall s', step s s' -> False.
Proof.
  exists (mkState true [REnded] MWaiting [DLooked] false true). split.
  - eapply rtc_l; [by apply (Look 0)|]. eapply rtc_l; [by apply (Start 0)|]. eapply rtc_l; [by apply Wait|].
    eapply rtc_l; [by apply (SetFlag 0)|]. eapply rtc_l; [by apply (LookTasks 0)|].
    eapply rtc_l; [by apply (DropSlot 0)|]. apply rtc_refl.
  - split_and!; [done..|]. intros s' Hs.
    inversion Hs as [i ? H|i ? H|i ? H|i ? H|i ? H|i ? H|j ? H|j ? H|? H|? H]; subst; simpl in H; try done;
      repeat (destruct i as [|i]; simpl in H; try done); repeat (destruct j as [|j]; simpl in H; try done).
Qed.

(** The shutdown can be sent while a request is on its way: it passed the
    look at the flag and holds no slot yet, so the count is 0, and it runs
    after. *)
Theorem shutdown_before_admitted :
  exists s, rtc step (init 1 1) s /\ sent s = true /\ active s = 1.
Proof.
  exists (mkState true [RRunning] MAway [DLooked] true false). split; [|done].
  eapply rtc_l; [by apply (Look 0)|]. eapply rtc_l; [by apply (SetFlag 0)|].
  eapply rtc_l; [by apply (LookTasks 0)|]. eapply rtc_l; [by apply (Start 0)|]. apply rtc_refl.
Qed.

Lemma drain_ends_witness :
  nsteps step 8 (init 1 1) (mkState true [REnded] MEnded [DLooked] true false) /\ (8 <= 6 * 1 + 1 + 2 * 1)%nat.
Proof.
  assert (H : nsteps step 8 (init 1 1) (mkState true [REnded] MEnded [DLooked] true false)).
  { eapply nsteps_l; [by apply (Look 0)|]. eapply nsteps_l; [by apply (Start 0)|]. eapply nsteps_l; [by apply Wait|].
    eapply nsteps_l; [by apply (SetFlag 0)|]. eapply nsteps_l; [by apply (LookTasks 0)|].
    eapply nsteps_l; [by apply (Release 0)|]. eapply nsteps_l; [by apply (Notify 0)|].
    eapply nsteps_l; [by apply Turn|]. apply nsteps_O. }
  split; [done|]. exact (proj1 (drain_ends 1 1 8 _ H)).
Defined.
