(* ===== verification/Fetch.v ===== *)
(** * Outgoing requests (src/src/services/fetch.rs)

    The requests a worker sends: to the network, to another worker by its
    domain, and through a service binding. The runner routes the last two to
    itself, with headers it sets on top of the worker's. [do_fetch] puts a
    request on the wire; the HTTP client is an interface. *)

From S2P Require Import Prelude RustStr Extern NetGuard Url Ingress Storage.

Inductive HttpMethod : Type := MGet | MPost | MPut | MDelete | MPatch | MHead | MOptions.
Inductive RequestBody : Type := BNone | BBytes (b : string) | BStream.

#[export] Instance HttpMethod_eq_dec : EqDecision HttpMethod.
Proof. solve_decision. Defined.

Record HttpRequest := mkHttpRequest {
  rq_method : HttpMethod; rq_url : string; rq_headers : gmap string string; rq_body : RequestBody }.

Definition WORKER_DOMAINS (env : string -> option string) : list string :=
  match env "WORKER_DOMAINS" with
  | Some s => List.filter (fun s => negb (is_empty s))
      (map (fun s => to_ascii_lowercase (trim_end_matches "." (trim s))) (split "," s))
  | None => []
  end.

Definition DEFAULT_INTERNAL_PORT : Z := 8080.

(** [port]: what [set_internal_port] stored, if it ran. *)
Definition runner_url (port : option Z) : string :=
  "http://127.0.0.1:" +:+ show_Z (default DEFAULT_INTERNAL_PORT port).

Definition INTERNAL_ROUTE_HEADER : string := "x-openworkers-internal".
Definition CALL_DEPTH_HEADER : string := "x-openworkers-depth".
Definition MAX_CALL_DEPTH : Z := 16.

Definition call_depth (headers : gmap string string) : Z :=
  match headers !! INTERNAL_ROUTE_HEADER with
  | None => 0
  | Some _ => default 0 (depth ← headers !! CALL_DEPTH_HEADER; parse_uint U32_MAX depth)
  end.

(** [uuid]: the 32 hex digits of a new UUID. *)
Definition generate_request_id (prefix uuid : string) : string :=
  prefix +:+ "_" +:+ String.substring 0 (31 - String.length prefix) uuid.

Definition path_and_query {U} {url : UrlLib U} (u : U) : string :=
  match url_query u with Some q => url_path u +:+ "?" +:+ q | None => url_path u end.

Section routes.
Context {U : Type} {url : UrlLib U} (port : option Z) (uuid : string).

Definition try_internal_worker_route (domains : list string) (request : HttpRequest) (depth : Z) : option HttpRequest :=
  u ← result_ok (url_parse (rq_url request));
  host ← host_str u;
  worker_name ← find_map (fun domain => strip_suffix ("." +:+ domain) host) domains;
  let headers := <[CALL_DEPTH_HEADER := show_Z depth]> (<[INTERNAL_ROUTE_HEADER := "1"]>
    (<["x-request-id" := generate_request_id "internal" uuid]>
    (<["x-worker-name" := worker_name]> (rq_headers request)))) in
  body ← match rq_body request with BNone => Some BNone | BBytes b => Some (BBytes b) | BStream => None end;
  Some (mkHttpRequest (rq_method request) (runner_url port +:+ path_and_query u) headers body).

Definition binding_request (worker_id : string) (request : HttpRequest) (depth : Z) : HttpRequest :=
  let pq := match url_parse (rq_url request) with
    | Ok u => path_and_query u
    | Err _ => if starts_with "/" (rq_url request) then rq_url request else "/" +:+ rq_url request
    end in
  let headers := <[CALL_DEPTH_HEADER := show_Z depth]> (<[INTERNAL_ROUTE_HEADER := "1"]>
    (<["x-request-id" := generate_request_id "binding" uuid]>
    (<["x-worker-id" := worker_id]> (rq_headers request)))) in
  mkHttpRequest (rq_method request) (runner_url port +:+ pq) headers (rq_body request).
End routes.

(** ** The wire *)

(** [HeaderName::try_from] and [HeaderValue::try_from]. *)
Class HeaderNames := {
  name_of : string -> option string;
  name_of_lower s n : name_of s = Some n -> n = to_ascii_lowercase s;
  value_ok : string -> bool;
}.

(** The names of letters, digits and dashes. *)
Definition is_name_byte (c : ascii) : bool :=
  let b := byte_of (ascii_lower c) in (97 <=? b) && (b <=? 122) || is_ascii_digit c || Ascii.eqb c "-".

#[export, refine] Instance plain_HeaderNames `{HeaderValue} : HeaderNames := {
  name_of s := if negb (is_empty s) && all_bytes is_name_byte s then Some (to_ascii_lowercase s) else None;
  value_ok := hv_ok;
}.
Proof. intros s n. by destruct (_ && _); intros; simplify_eq. Defined.

Record FetchContext := mkFetchContext { worker_id : option string; user_id : option string }.

Record Wire (H : Type) := mkWire { w_method : HttpMethod; w_url : string; w_headers : H; w_body : option string }.
Arguments mkWire {H}. Arguments w_method {H}. Arguments w_url {H}. Arguments w_headers {H}. Arguments w_body {H}.

Record OperationsStats := mkStats { fetch_count : Z; fetch_bytes_in : Z; fetch_bytes_out : Z; log_count : Z }.

(** What arrives of a response: its body comes in pieces. *)
Record Answer := mkAnswer { a_status : Z; a_headers : list (string * string); a_chunks : list (result string string) }.

(** The task that hands the pieces over stops at the first error. *)
Fixpoint pump (chunks : list (result string string)) : list (result string string) :=
  match chunks with
  | [] => []
  | Ok c :: l => Ok c :: pump l
  | Err e :: _ => [Err e]
  end.

Section do_fetch.
Context {H Sv : Type} {hm : HeaderMap H} {names : HeaderNames} {hv : HeaderValue}.
(** The client that refuses names of private addresses, and the other one. *)
Variable client_send : EgressPolicy -> Wire H -> SE Sv string Answer.
(** The check of a URL whose host is an address. *)
Variable guard : string -> result unit string.

(** [header]: a value is added to the ones of its name. *)
Definition add_header (h : option H) (kv : string * string) : option H :=
  h ← h; n ← name_of kv.1; if value_ok kv.2 then Some (hdr_append n kv.2 h) else None.

Definition context_headers (ctx : option FetchContext) : list (string * string) :=
  match ctx with
  | None => []
  | Some c => match worker_id c with Some w => [("x-fetch-worker", w)] | None => [] end ++
              match user_id c with Some u => [("x-fetch-tenant-id", u)] | None => [] end
  end.

(** The headers in the order they are added. A hash map gives its entries in
    any order: [order] are the request's, [extra] the ones of a signature. *)
Definition wire_headers (order extra : list (string * string)) (ctx : option FetchContext) : option H :=
  foldl add_header (Some hdr_empty) (order ++ extra ++ context_headers ctx).

Definition bytes_of (b : RequestBody) : option string := match b with BBytes b => Some b | _ => None end.

Definition count_out (b : RequestBody) (stats : OperationsStats) : OperationsStats :=
  mkStats (fetch_count stats) (fetch_bytes_in stats)
    (wrap_u64 (fetch_bytes_out stats + match b with BBytes b => str_len b | _ => 0 end)) (log_count stats).

Definition do_fetch (order extra : list (string * string)) (request : HttpRequest) (ctx : option FetchContext)
  (policy : EgressPolicy) : SE (OperationsStats * Sv) string Answer :=
  _ ← lift (match policy with PublicOnly => guard (rq_url request) | Unrestricted => Ok tt end);
  _ ← lift (if decide (rq_method request = MOptions) then Err "OPTIONS method not yet supported" else Ok tt);
  _ ← on_fst (fun stats => (Ok tt, count_out (rq_body request) stats));
  response ← match wire_headers order extra ctx with
    | None => throw "Request failed: builder error"
    | Some h => on_snd (with_error (fun e => "Request failed: " +:+ e)
        (client_send policy (mkWire (rq_method request) (rq_url request) h (bytes_of (rq_body request)))))
    end;
  mret (mkAnswer (a_status response)
    (omap (fun kv => v ← hv_to_str kv.2; Some (kv.1, v)) (a_headers response)) (pump (a_chunks response))).
End do_fetch.

(** ** Signed requests (src/src/services/storage.rs) *)

Definition method_name (m : HttpMethod) : string :=
  match m with
  | MGet => "GET" | MPost => "POST" | MPut => "PUT" | MDelete => "DELETE" | MPatch => "PATCH"
  | MHead => "HEAD" | MOptions => "OPTIONS"
  end.

Definition sign_s3_request {U Sv} {url : UrlLib U} {client : S3Client U Sv} (request : HttpRequest)
  (access_key_id secret_access_key : string) : result (gmap string string) string :=
  u <-? result_map_err (fun e => "Invalid URL: " +:+ e) (url_parse (rq_url request));
  host <-? match host_str u with Some h => Ok h | None => Err "URL has no host" end;
  signed <-? compute_signature_headers (method_name (rq_method request)) (rq_url request) host "auto"
    (mkCredentials access_key_id secret_access_key) (default "" (bytes_of (rq_body request)));
  Ok signed.1.

(** ** Facts *)

Section wire_props.
Context {H Sv : Type} {hm : HeaderMap H} {names : HeaderNames} {hv : HeaderValue}.

(** The values of a name on the wire, in the order they were added. *)
Definition values_of (m : string) (l : list (string * string)) : list string :=
  snd <$> filter (fun kv => to_ascii_lowercase kv.1 = m) l.

Lemma values_of_app m l k : values_of m (l ++ k) = values_of m l ++ values_of m k.
Proof. unfold values_of. by rewrite filter_app, fmap_app. Qed.

Lemma add_headers_None l : foldl add_header None l = None.
Proof. by induction l. Qed.

Lemma add_headers_get l h0 h m : foldl add_header (Some h0) l = Some h ->
  hdr_get_all m h = hdr_get_all m h0 ++ values_of m l.
Proof.
  revert h0. induction l as [|[k v] l IH]; intros h0 E; cbn [foldl] in E.
  - simplify_eq. by rewrite app_nil_r.
  - destruct (add_header (Some h0) (k, v)) as [h1|] eqn:E1; [|by rewrite add_headers_None in E].
    unfold add_header in E1. cbn [mbind option_bind fst snd] in E1.
    destruct (name_of k) as [n|] eqn:En; [|done]. cbn [mbind option_bind] in E1.
    destruct (value_ok v); simplify_eq.
    apply name_of_lower in En as ->. rewrite (IH _ E), hdr_get_all_append.
    unfold values_of. rewrite filter_cons. simpl. repeat case_decide; try done.
    by rewrite <- app_assoc.
Qed.

Lemma wire_get_all order extra ctx h m : wire_headers order extra ctx = Some h ->
  hdr_get_all m h = values_of m (order ++ extra ++ context_headers ctx).
Proof. intros E. apply add_headers_get with (m := m) in E. by rewrite hdr_get_all_empty in E. Qed.

(** A table whose names are in lower case has one value for a name. *)
Definition lower_names (hs : gmap string string) : Prop :=
  forall k v, hs !! k = Some v -> to_ascii_lowercase k = k.

Lemma values_of_order hs order m : lower_names hs -> order ≡ₚ map_to_list hs ->
  values_of m order = match hs !! m with Some v => [v] | None => [] end.
Proof.
  intros Hl Hp.
  assert (Hin : forall kv, kv ∈ filter (fun kv => to_ascii_lowercase kv.1 = m) order <->
    kv.1 = m /\ hs !! m = Some kv.2).
  { intros [k v]. rewrite list_elem_of_filter, Hp, elem_of_map_to_list. simpl. split.
    - intros [Ek Hk]. pose proof (Hl k v Hk). split; congruence.
    - intros [-> Hk]. pose proof (Hl m v Hk). done. }
  assert (Hn : NoDup (filter (fun kv => to_ascii_lowercase kv.1 = m) order))
    by (apply NoDup_filter; rewrite Hp; apply NoDup_map_to_list).
  unfold values_of. destruct (filter _ order) as [|[k v] l]; simpl.
  - destruct (hs !! m) as [v|] eqn:E; [|done]. exfalso. apply (not_elem_of_nil (m, v)), Hin. by split.
  - assert (k = m /\ hs !! m = Some v) as [Ek Ev] by (apply (Hin (k, v)); left).
    rewrite Ev. destruct l as [|[k' v'] l]; [done|]. exfalso.
    assert (k' = m /\ hs !! m = Some v') as [Ek' Ev'] by (apply (Hin (k', v')); right; left). simplify_eq/=.
    apply NoDup_cons in Hn as [Hn _]. apply Hn. left.
Qed.

Lemma values_of_none m l : Forall (fun kv => to_ascii_lowercase kv.1 <> m) l -> values_of m l = [].
Proof. unfold values_of. induction 1 as [|kv l Hkv _ IH]; [done|]. rewrite filter_cons. by case_decide. Qed.

Lemma context_no m ctx : m <> "x-fetch-worker" -> m <> "x-fetch-tenant-id" -> values_of m (context_headers ctx) = [].
Proof.
  intros H1 H2. apply values_of_none. destruct ctx as [[[w|] [u|]]|]; cbn [context_headers worker_id user_id app];
    repeat (apply Forall_cons; split; [intros E; vm_compute in E; congruence|]); apply Forall_nil_2.
Qed.
End wire_props.

(** What the receiving side makes of the headers: [HttpRequest::from_hyper_parts]
    of openworkers-core, a table by name. *)
Class HyperParts (H : Type) {hm : HeaderMap H} := {
  hyper_headers : H -> gmap string string;
  hyper_headers_one h n v : hdr_get_all n h = [v] -> hyper_headers h !! n = Some v;
  hyper_headers_none h n : hdr_get_all n h = [] -> hyper_headers h !! n = None;
}.

Section routed.
Context {U H : Type} {url : UrlLib U} {hm : HeaderMap H} {names : HeaderNames} {hv : HeaderValue}.

(** The two ways a request is routed for a worker at call depth [d]. *)
Definition routed_for (port : option Z) (uuid : string) (domains : list string) (d : Z) (request routed : HttpRequest) : Prop :=
  try_internal_worker_route port uuid domains request d = Some routed \/
  exists worker_id, binding_request port uuid worker_id request d = routed.

Lemma routed_headers port uuid domains d request routed : routed_for port uuid domains d request routed ->
  rq_headers routed !! INTERNAL_ROUTE_HEADER = Some "1" /\
  rq_headers routed !! CALL_DEPTH_HEADER = Some (show_Z d).
Proof.
  intros [E|[w <-]].
  - unfold try_internal_worker_route in E.
    destruct (result_ok _) as [u|]; [|done]. cbn [mbind option_bind] in E.
    destruct (host_str u) as [host|]; [|done]. cbn [mbind option_bind] in E.
    destruct (find_map _ _) as [name|]; [|done]. cbn [mbind option_bind] in E.
    destruct (rq_body request); simplify_eq/=; split;
      try (by rewrite lookup_insert_ne, lookup_insert_eq); by rewrite lookup_insert_eq.
  - simpl. split; [by rewrite lookup_insert_ne, lookup_insert_eq|by rewrite lookup_insert_eq].
Qed.

Lemma routed_marked port uuid domains d request routed order extra ctx h :
  routed_for port uuid domains d request routed ->
  order ≡ₚ map_to_list (rq_headers routed) -> wire_headers order extra ctx = Some h ->
  hdr_get_all INTERNAL_ROUTE_HEADER h <> [].
Proof.
  intros [Hi _]%routed_headers Hp Hw. rewrite (wire_get_all _ _ _ _ _ Hw), values_of_app.
  intros [E _]%app_eq_nil. unfold values_of in E. apply fmap_nil_inv in E.
  apply (not_elem_of_nil (INTERNAL_ROUTE_HEADER, "1")). rewrite <- E, list_elem_of_filter.
  split; [done|]. by rewrite Hp, elem_of_map_to_list.
Qed.

(** On the wire, the runner's own headers have one value each. *)
Lemma routed_values port uuid domains d request routed order ctx h :
  routed_for port uuid domains d request routed -> lower_names (rq_headers routed) ->
  order ≡ₚ map_to_list (rq_headers routed) -> wire_headers order [] ctx = Some h ->
  hdr_get_all INTERNAL_ROUTE_HEADER h = ["1"] /\ hdr_get_all CALL_DEPTH_HEADER h = [show_Z d].
Proof.
  intros [Hi Hd]%routed_headers Hl Hp Hw.
  assert (Hget : forall m, m <> "x-fetch-worker" -> m <> "x-fetch-tenant-id" ->
    hdr_get_all m h = match rq_headers routed !! m with Some v => [v] | None => [] end).
  { intros m H1 H2. rewrite (wire_get_all _ _ _ _ _ Hw), values_of_app. simpl.
    rewrite (values_of_order _ _ _ Hl Hp), context_no by done. by rewrite app_nil_r. }
  rewrite !Hget by done. by rewrite Hi, Hd.
Qed.

Lemma routed_depth {hp : HyperParts H} port uuid domains d request routed order ctx h :
  routed_for port uuid domains d request routed -> lower_names (rq_headers routed) ->
  order ≡ₚ map_to_list (rq_headers routed) -> wire_headers order [] ctx = Some h ->
  0 <= d <= U32_MAX -> call_depth (hyper_headers h) = d.
Proof.
  intros Hr Hlow Hp Hw Hd. destruct (routed_values _ _ _ _ _ _ _ _ _ Hr Hlow Hp Hw) as [Hm Hv].
  unfold call_depth. rewrite (hyper_headers_one _ _ _ Hm), (hyper_headers_one _ _ _ Hv). simpl.
  by rewrite parse_uint_show_Z.
Qed.
End routed.
