(* ===== verification/WebSocket.v ===== *)
(** * WebSockets (src/src/websocket.rs)

    The upgrade a request asks for, the 101 that answers it, and the relay that
    moves the frames of an open socket: one task counts the bytes the peer has
    not taken, one writes them, and one reads. The tasks interleave. *)

From S2P Require Import Prelude RustStr Extern Fetch.

Definition MAX_MESSAGE_BYTES : Z := Z.shiftl 1 20.
Definition MAX_QUEUED_BYTES : Z := Z.shiftl 8 20.

Definition max_idle (env : string -> option string) : Z :=
  default 100000 (ms ← env "WS_MAX_IDLE_MS"; parse_uint U64_MAX ms).

Inductive Upgrade : Type := UpNone | UpAccept (accept : string) | UpRefused (status : Z) (message : string).
Inductive Version : Type := HTTP_10 | HTTP_11 | HTTP_2.

#[export] Instance Version_eq_dec : EqDecision Version.
Proof. solve_decision. Defined.

(** [base64]'s standard engine, and the accept key of [tungstenite]. *)
Class Handshake := {
  base64_decode : string -> option string;
  derive_accept_key : string -> string;
}.

(** ** The upgrade *)

Section upgrade.
Context {H : Type} {hm : HeaderMap H} {hv : HeaderValue} {hs : Handshake} {names : HeaderNames}.

Definition lists (headers : H) (name token : string) : bool :=
  existsb (fun item => eq_ignore_ascii_case (trim item) token)
    (concat (map (split ",") (omap hv_to_str (hdr_get_all name headers)))).

Definition upgrade (version : Version) (method : string) (headers : H) : Upgrade :=
  if negb (bool_decide (version = HTTP_11)) || negb (lists headers "upgrade" "websocket") then UpNone else
  if negb (String.eqb method "GET") then UpRefused 400 "A WebSocket upgrade must be a GET" else
  if negb (lists headers "connection" "upgrade")
  then UpRefused 400 "A WebSocket upgrade must have Connection: Upgrade" else
  if match hdr_get "sec-websocket-version" headers with Some v => negb (String.eqb v "13") | None => true end
  then UpRefused 426 "The WebSocket version must be 13" else
  match hdr_get "sec-websocket-key" headers with
  | None => UpRefused 400 "A WebSocket upgrade must have a Sec-WebSocket-Key"
  | Some key =>
    if match base64_decode key with Some nonce => negb (str_len nonce =? 16) | None => true end
    then UpRefused 400 "The Sec-WebSocket-Key is not a 16-byte nonce"
    else UpAccept (derive_accept_key key)
  end.

Definition RELAY_HEADERS : list string :=
  ["connection"; "upgrade"; "sec-websocket-accept"; "content-length"; "transfer-encoding"].

(** The headers of the 101. [None]: a header the builder refuses panics. *)
Definition switch (headers : list (string * string)) (accept : string) : option H :=
  foldl add_header (Some hdr_empty)
    (filter (fun kv => to_ascii_lowercase kv.1 ∉ RELAY_HEADERS) headers ++
     [("upgrade", "websocket"); ("connection", "Upgrade"); ("sec-websocket-accept", accept)]).

(** The 101 carries the handshake of the runner alone: whatever headers the
    worker gave, it has one Upgrade, one Connection and one accept key, those of
    the upgrade, and no length and no transfer coding; every other header of
    the worker is there, its values in order. *)
Theorem switch_is_the_runners headers accept h : switch headers accept = Some h ->
  hdr_get_all "upgrade" h = ["websocket"] /\ hdr_get_all "connection" h = ["Upgrade"] /\
  hdr_get_all "sec-websocket-accept" h = [accept] /\
  hdr_get_all "content-length" h = [] /\ hdr_get_all "transfer-encoding" h = [] /\
  (forall n, n ∉ RELAY_HEADERS -> hdr_get_all n h = values_of n headers).
Proof.
  intros E. assert (Hg : forall n, hdr_get_all n h =
    values_of n (filter (fun kv => to_ascii_lowercase kv.1 ∉ RELAY_HEADERS) headers) ++
    values_of n [("upgrade", "websocket"); ("connection", "Upgrade"); ("sec-websocket-accept", accept)]).
  { intros n. by rewrite (add_headers_get _ _ _ n E), hdr_get_all_empty, values_of_app. }
  assert (Hno : forall n, n ∈ RELAY_HEADERS ->
    values_of n (filter (fun kv => to_ascii_lowercase kv.1 ∉ RELAY_HEADERS) headers) = []).
  { intros n Hn. apply values_of_none, Forall_forall. intros kv [Hk _]%list_elem_of_filter. by intros <-. }
  split_and!; try (rewrite Hg, Hno by (by apply (bool_decide_unpack _))); try done.
  intros n Hn. rewrite Hg. replace (values_of n [_; _; _]) with (@nil string).
  - rewrite app_nil_r. unfold values_of. rewrite list_filter_filter. f_equal. apply list_filter_iff.
    intros [k v]. simpl. naive_solver.
  - symmetry. apply values_of_none. unfold RELAY_HEADERS in Hn.
    repeat (apply Forall_cons; split; [intros Ek; vm_compute in Ek; set_solver|]). apply Forall_nil_2.
Qed.
End upgrade.

(** ** The relay *)

Inductive WebSocketOutgoing : Type :=
| OText (s : string) | OBinary (b : string) | OClose (code : Z) (reason : string).
Inductive WebSocketIncoming : Type :=
| IText (s : string) | IBinary (b : string) | IClosed (code : Z) (reason : string) | IError (e : string).

(** What is read of a socket: a message, a control frame, an error, the end. *)
Inductive Message : Type :=
| MText (s : string) | MBinary (b : string) | MClose (frame : option (Z * string)) | MPing | MPong | MFrame
| MTooBig | MFailed (e : string) | MEnd.

Definition bytes_out (m : WebSocketOutgoing) : Z :=
  match m with OText s => str_len s | OBinary b => str_len b | OClose _ _ => 0 end.

Definition ends (m : WebSocketIncoming) : bool := match m with IClosed _ _ | IError _ => true | _ => false end.

(** [send_q]: the channel of the worker; [write_q]: the counted queue;
    [in_flight]: the message being written; [wire]: what the peer was sent;
    [recv_q]: what the worker was given. [accepted] is of the model only: the
    messages the worker sent. *)
Record Relay := mkRelay {
  send_q : list WebSocketOutgoing; write_q : list WebSocketOutgoing; in_flight : option WebSocketOutgoing;
  queued : Z; slow : bool; wire : list WebSocketOutgoing; recv_q : list WebSocketIncoming;
  pumping : bool; writing : bool; reading : bool; accepted : list WebSocketOutgoing }.

Definition send (m : WebSocketOutgoing) (r : Relay) : Relay :=
  mkRelay (send_q r ++ [m]) (write_q r) (in_flight r) (queued r) (slow r) (wire r) (recv_q r)
    (pumping r) (writing r) (reading r) (accepted r ++ [m]).

(** JS -> queue. *)
Definition pump_one (m : WebSocketOutgoing) (rest : list WebSocketOutgoing) (r : Relay) : Relay :=
  let counted := queued r + bytes_out m in
  if MAX_QUEUED_BYTES <=? queued r
  then mkRelay rest (write_q r) (in_flight r) counted true (wire r) (recv_q r) false (writing r) (reading r) (accepted r)
  else if negb (writing r)
  then mkRelay rest (write_q r) (in_flight r) counted (slow r) (wire r) (recv_q r) false (writing r) (reading r) (accepted r)
  else mkRelay rest (write_q r ++ [m]) (in_flight r) counted (slow r) (wire r) (recv_q r)
    (pumping r) (writing r) (reading r) (accepted r).

(** queue -> WS: a message leaves the queue, and the write of it ends. *)
Definition write_start (m : WebSocketOutgoing) (rest : list WebSocketOutgoing) (r : Relay) : Relay :=
  mkRelay (send_q r) rest (Some m) (queued r) (slow r) (wire r) (recv_q r) (pumping r) (writing r) (reading r) (accepted r).

Definition write_end (m : WebSocketOutgoing) (r : Relay) : Relay :=
  mkRelay (send_q r) (write_q r) None (queued r - bytes_out m) (slow r) (wire r ++ [m]) (recv_q r)
    (pumping r) (writing r) (reading r) (accepted r).

(** The writer ends: a write failed, or the peer is too slow. *)
Definition write_stop (r : Relay) : Relay :=
  mkRelay (send_q r) [] None (queued r) (slow r) (wire r) (recv_q r) (pumping r) false (reading r) (accepted r).

(** WS -> JS. What the worker is given, the close the bridge sends to the peer,
    and whether the reader goes on. *)
Definition read_message (m : Message) : option WebSocketIncoming * option WebSocketOutgoing * bool :=
  match m with
  | MText s => (Some (IText s), None, true)
  | MBinary b => (Some (IBinary b), None, true)
  | MClose frame => let '(code, reason) := default (1000, "") frame in (Some (IClosed code reason), None, false)
  | MPing | MPong | MFrame => (None, None, true)
  | MTooBig => (Some (IClosed 1009 "Message too big"), Some (OClose 1009 "Message too big"), false)
  | MFailed e => (Some (IError ("WS error: " +:+ e)), None, false)
  | MEnd => (None, None, false)
  end.

(** [dropped]: the worker has dropped its receiver. *)
Definition deliver (given : option WebSocketIncoming) (close : option WebSocketOutgoing) (goes_on dropped : bool)
  (r : Relay) : Relay :=
  let r := match close with Some c => send c r | None => r end in
  mkRelay (send_q r) (write_q r) (in_flight r) (queued r) (slow r) (wire r)
    (recv_q r ++ match given with Some i => if dropped then [] else [i] | None => [] end)
    (pumping r) (writing r) (goes_on && negb (dropped && match given with Some _ => true | None => false end)) (accepted r).

Inductive event : Type := EMessage (m : Message) | ESlow | EDrain | EIdle.

(** The turn of the reader: the branches of the [select], in their order, with
    what ended the wait. An idle wait that a frame overtook goes on. *)
Definition read_one (e : event) (idle_over : bool) (dropped : bool) (r : Relay) : Relay :=
  match e with
  | ESlow => deliver (Some (IClosed 1008 "The client does not read fast enough")) None false dropped r
  | EDrain => deliver (Some (IClosed 1001 "The runner is going away"))
      (Some (OClose 1001 "The runner is going away")) false dropped r
  | EIdle => if idle_over then deliver (Some (IClosed 1001 "Idle for too long"))
      (Some (OClose 1001 "Idle for too long")) false dropped r else r
  | EMessage m => let '(given, close, goes_on) := read_message m in deliver given close goes_on dropped r
  end.

Section relay.
(** Whether the socket is a client's: it has an idle limit, and closes when the
    runner drains. *)
Variable limited : bool.

Inductive step : Relay -> Relay -> Prop :=
| Send m r : step r (send m r)
| Pump m rest r : pumping r = true -> send_q r = m :: rest -> step r (pump_one m rest r)
| WriteStart m rest r : writing r = true -> in_flight r = None -> write_q r = m :: rest -> step r (write_start m rest r)
| WriteEnd m r : in_flight r = Some m -> step r (write_end m r)
| WriteStop r : writing r = true -> step r (write_stop r)
| Read e idle_over dropped r : reading r = true -> (e = ESlow <-> slow r = true) ->
    (e = EDrain \/ e = EIdle -> limited = true) -> step r (read_one e idle_over dropped r).

Definition relay_new : Relay := mkRelay [] [] None 0 false [] [] true true true [].

(** The messages between the worker's channel and the wire. *)
Definition waiting (r : Relay) : list WebSocketOutgoing :=
  match in_flight r with Some m => [m] | None => [] end ++ write_q r.

Definition bytes_of_all (l : list WebSocketOutgoing) : Z := foldr (fun m n => bytes_out m + n) 0 l.

Definition held (r : Relay) : Z := bytes_of_all (waiting r).

Lemma bytes_of_all_app l k : bytes_of_all (l ++ k) = bytes_of_all l + bytes_of_all k.
Proof. induction l as [|m l IH]; simpl; [done|]. lia. Qed.

Lemma bytes_out_nonneg m : 0 <= bytes_out m.
Proof. destruct m; simpl; unfold str_len; lia. Qed.

Record relay_inv (most : Z) (r : Relay) : Prop := mkInv {
  inv_stopped : writing r = false -> waiting r = [];
  inv_order : exists tail, accepted r = wire r ++ waiting r ++ tail /\
    (pumping r = true -> writing r = true -> tail = send_q r);
  inv_count : pumping r = true -> writing r = true -> queued r = held r;
  inv_bound : held r < MAX_QUEUED_BYTES + Z.max 0 most;
  inv_recv : exists l e, recv_q r = l ++ e /\ Forall (fun i => ends i = false) l /\ (length e <= 1)%nat /\
    (reading r = true -> e = []) }.

Lemma inv_send most m r : relay_inv most r -> relay_inv most (send m r).
Proof.
  intros [H1 (tail & E & Ht) H3 H4 H5]. split; try done. exists (tail ++ [m]). simpl. rewrite E.
  split; [by rewrite <- !app_assoc|]. intros. by rewrite Ht.
Qed.

Lemma inv_pump most m rest r : pumping r = true -> send_q r = m :: rest -> bytes_out m <= most ->
  relay_inv most r -> relay_inv most (pump_one m rest r).
Proof.
  intros Hp Hq Hm [H1 (tail & E & Ht) H3 H4 H5]. unfold pump_one.
  assert (Hheld : forall l, bytes_of_all (l ++ write_q r ++ [m]) = bytes_of_all (l ++ write_q r) + bytes_out m)
    by (intros l; rewrite !bytes_of_all_app; simpl; lia).
  destruct (Z.leb_spec MAX_QUEUED_BYTES (queued r)); [|destruct (writing r) eqn:Ew]; simpl; split; simpl; try done;
    try (exists tail; split; [done|intros; congruence]).
  - exists rest. unfold waiting in *. simpl. rewrite E, Ht, Hq by done. by rewrite <- !app_assoc.
  - intros _ _. rewrite H3 by done. unfold held, waiting. cbn [in_flight write_q]. rewrite Hheld. done.
  - specialize (H3 Hp eq_refl). unfold held, waiting in *. cbn [in_flight write_q]. rewrite Hheld. lia.
Qed.

Lemma inv_write_start most m rest r : in_flight r = None -> write_q r = m :: rest -> writing r = true ->
  relay_inv most r -> relay_inv most (write_start m rest r).
Proof.
  intros Hf Hq Hw [H1 (tail & E & Ht) H3 H4 H5]. unfold held, waiting in *. rewrite Hf, Hq in *.
  split; simpl in *; try done; try congruence. by exists tail.
Qed.

Lemma inv_write_end most m r : in_flight r = Some m -> relay_inv most r -> relay_inv most (write_end m r).
Proof.
  intros Hf [H1 (tail & E & Ht) H3 H4 H5]. pose proof (bytes_out_nonneg m). unfold held, waiting in *. rewrite Hf in *.
  rewrite bytes_of_all_app in H3, H4. change (bytes_of_all [m]) with (bytes_out m + 0) in *.
  split; unfold held, waiting, write_end; cbn [in_flight write_q queued wire accepted pumping writing app send_q] in *;
    try done; [intros Hw; by specialize (H1 Hw)| | |lia].
  - exists tail. rewrite E. split; [by rewrite <- !app_assoc|done].
  - intros. rewrite H3 by done. lia.
Qed.

Lemma inv_write_stop most r : relay_inv most r -> relay_inv most (write_stop r).
Proof.
  intros [H1 (tail & E & Ht) H3 H4 H5]. split; simpl; try done.
  - exists (waiting r ++ tail). by rewrite E.
  - change (0 < 8388608 + Z.max 0 most). lia.
Qed.

Lemma inv_deliver most given close goes_on dropped r : relay_inv most r -> reading r = true ->
  (goes_on = true -> match given with Some i => ends i = false | None => True end) ->
  relay_inv most (deliver given close goes_on dropped r).
Proof.
  intros Hr Hread Hg.
  assert (Hr' : relay_inv most match close with Some c => send c r | None => r end) by (destruct close; auto using inv_send).
  assert (Hread' : reading match close with Some c => send c r | None => r end = true) by (by destruct close).
  unfold deliver. destruct Hr' as [H1 H2 H3 H4 (l & e & E & Hl & He & Hn)].
  split; try done. simpl. rewrite E. rewrite (Hn Hread') in *. rewrite app_nil_r.
  destruct goes_on; simpl.
  - exists (l ++ match given with Some i => if dropped then [] else [i] | None => [] end), [].
    rewrite app_nil_r. split; [done|]. split; [|split; [simpl; lia|done]]. apply Forall_app. split; [done|].
    destruct given as [i|]; [|done]. destruct dropped; [done|]. constructor; [by apply Hg|done].
  - exists l, match given with Some i => if dropped then [] else [i] | None => [] end.
    split; [done|]. split; [done|]. split; [by destruct given, dropped; simpl; lia|done].
Qed.

Lemma relay_inv_step most r r' : Forall (fun m => bytes_out m <= most) (accepted r) -> relay_inv most r -> step r r' ->
  relay_inv most r'.
Proof.
  intros Hm Hr Hs.
  destruct Hs as [m r|m rest r Hp Hq|m rest r Hw Hf Hq|m r Hf|r Hw|e idle_over dropped r Hread _ _].
  - by apply inv_send.
  - destruct (writing r) eqn:Ew.
    + apply inv_pump; try done. destruct Hr as [_ (tail & E & Ht) _ _ _]. rewrite Forall_forall in Hm. apply Hm.
      rewrite E, Ht, Hq by done. set_solver.
    + destruct Hr as [H1 (tail & E & Ht) H3 H4 H5]. unfold pump_one. rewrite Ew. simpl.
      destruct (_ <=? _); split; simpl; try done; first [by exists tail | intros _; by apply H1].
  - by apply inv_write_start.
  - by apply inv_write_end.
  - by apply inv_write_stop.
  - destruct e as [m| | |]; simpl; [|by apply inv_deliver| by apply inv_deliver|destruct idle_over; [by apply inv_deliver|done]].
    destruct (read_message m) as [[given close] goes_on] eqn:E. apply inv_deliver; [done..|].
    destruct m as [| |[[]|]| | | | | |]; simpl in E; by simplify_eq.
Qed.

(** What the worker sent only grows. *)
Lemma accepted_grows r r' : step r r' -> accepted r `prefix_of` accepted r'.
Proof.
  destruct 1 as [m r|m rest r| | | |e io d r]; try done; [by apply prefix_app_r| |].
  - unfold pump_one. destruct (_ <=? _); [done|]. by destruct (writing r).
  - assert (Hd : forall g c b, accepted r `prefix_of` accepted (deliver g c b d r))
      by (intros g [c|] b; simpl; [by apply prefix_app_r|done]).
    destruct e as [m| | |]; cbn [read_one]; try apply Hd.
    + destruct (read_message m) as [[g c] b]. apply Hd.
    + destruct io; [apply Hd|done].
Qed.

(** C31. The relay of a socket: however its three tasks interleave, what the
    peer was sent is the first of what the worker and the bridge sent, in order
    and with nothing left out; while none of the tasks has ended, the rest of it
    waits in the two queues, in order. The bytes that wait for a peer that does
    not read never reach the limit and one message more. The worker is given
    at most one close or error, and nothing after it. *)
Theorem relay_in_order_and_bounded most r : rtc step relay_new r ->
  Forall (fun m => bytes_out m <= most) (accepted r) ->
  wire r `prefix_of` accepted r /\
  (pumping r = true -> writing r = true -> accepted r = wire r ++ waiting r ++ send_q r) /\
  held r < MAX_QUEUED_BYTES + Z.max 0 most /\
  exists l e, recv_q r = l ++ e /\ Forall (fun i => ends i = false) l /\ (length e <= 1)%nat /\
    (reading r = true -> e = []).
Proof.
  intros Hs Hm. assert (Hi : relay_inv most r).
  { revert Hm. pattern r. eapply (rtc_ind_r _ relay_new); [| |exact Hs].
    - intros _. split; simpl; try done; [by exists []|change (0 < 8388608 + Z.max 0 most); lia|].
      exists [], []. split_and!; [done|constructor|simpl; lia|done].
    - intros y z _ Hyz IH Hz. apply relay_inv_step with y; [|apply IH|done].
      + apply accepted_grows in Hyz as [k Hk]. rewrite Hk in Hz. by apply Forall_app in Hz as [? _].
      + apply accepted_grows in Hyz as [k Hk]. rewrite Hk in Hz. by apply Forall_app in Hz as [? _]. }
  destruct Hi as [_ (tail & E & Ht) _ Hb Hr]. split_and!; [|intros; by rewrite E, Ht|done|done].
  rewrite E. by apply prefix_app_r.
Qed.
End relay.

Lemma relay_in_order_and_bounded_witness :
  let r := write_start (OText "a") [] (pump_one (OText "a") [OText "b"] (send (OText "b") (send (OText "a") relay_new))) in
  rtc (step false) relay_new r /\ held r < MAX_QUEUED_BYTES + Z.max 0 10 /\ wire r `prefix_of` accepted r.
Proof.
  intros r. assert (Hs : rtc (step false) relay_new r).
  { eapply rtc_l; [apply (Send false (OText "a"))|]. eapply rtc_l; [apply (Send false (OText "b"))|].
    eapply rtc_l; [by eapply (Pump false (OText "a") [OText "b"])|].
    eapply rtc_l; [by eapply (WriteStart false (OText "a") [])|]. apply rtc_refl. }
  destruct (relay_in_order_and_bounded false 10 r Hs) as (H1 & _ & H3 & _).
  { repeat constructor; vm_compute; congruence. }
  by split_and!.
Defined.

Definition switched : gmap string (list string) :=
  {[ "x-a" := ["1"]; "upgrade" := ["websocket"]; "connection" := ["Upgrade"]; "sec-websocket-accept" := ["key"] ]}.

Lemma switch_is_the_runners_witness :
  switch [("Connection", "close"); ("x-a", "1")] "key" = Some switched /\
  hdr_get_all "connection" switched = ["Upgrade"].
Proof.
  assert (E : switch [("Connection", "close"); ("x-a", "1")] "key" = Some switched) by (vm_compute; reflexivity).
  split; [done|]. exact (proj1 (proj2 (switch_is_the_runners _ _ _ E))).
Defined.
