(* ===== verification/DurableSockets.v ===== *)
(** * The WebSockets of Durable Objects (src/src/durable/sockets.rs)

    The table of the sockets that objects accepted, and one task per socket,
    which waits for the client and then moves frames both ways. The step
    relation interleaves the operations of the objects, the closes of the
    registry and the tasks. A socket slot of the runner is a permit that the
    task of the socket holds until it ends. *)

From S2P Require Import Prelude RustStr WebSocket.

Definition MAX_SOCKETS_PER_OBJECT : Z := 32768.

(** An object: its namespace and its id. *)
Local Abbreviation ObjectRef := (string * string)%type.

(** [s_out]: the channel to the task, by the number of the task; [s_attach]:
    the sender for the upgrade is still here. *)
Record Socket := mkSocket {
  s_out : nat; s_attach : bool; s_tags : list string; s_attachment : option string; s_hibernatable : bool }.

Definition with_attach (b : bool) (x : Socket) : Socket :=
  mkSocket (s_out x) b (s_tags x) (s_attachment x) (s_hibernatable x).
Definition with_attachment (v : option string) (x : Socket) : Socket :=
  mkSocket (s_out x) (s_attach x) (s_tags x) v (s_hibernatable x).

Local Abbreviation Table := (gmap ObjectRef (gmap Z Socket)).

(** Before the client comes, with the frames that wait for it and whether the
    response handed the socket over; with the client, and the bytes of each of
    its frames that the object did not take yet; after the end. *)
Inductive phase : Type :=
| Waiting (waiting : list WebSocketOutgoing) (waiting_bytes : Z) (handed : bool)
| Open (unread : list Z)
| Ended.

(** [t_out]: what the channel of the task holds; [t_said]: all that was put in
    it; [t_sent]: what the client was sent; [t_delivered]: what the object got
    of the client. *)
Record task := mkTask {
  t_key : ObjectRef; t_socket : Z; t_out : list WebSocketOutgoing; t_said : list WebSocketOutgoing;
  t_sent : list WebSocketOutgoing; t_delivered : list WebSocketIncoming; t_phase : phase }.

(** [slots]: the free permits of [WS_SEMAPHORE]; [others]: the ones that other
    sockets hold. *)
Record state := mkState { sockets : Table; tasks : list task; slots : Z; others : Z }.

Definition closes (m : WebSocketOutgoing) : bool := match m with OClose _ _ => true | _ => false end.
Definition alive (t : task) : bool := match t_phase t with Ended => false | _ => true end.

Definition push (m : WebSocketOutgoing) (t : task) : task :=
  mkTask (t_key t) (t_socket t) (t_out t ++ [m]) (t_said t ++ [m]) (t_sent t) (t_delivered t) (t_phase t).

Definition set_sockets (x : Table) (s : state) : state := mkState x (tasks s) (slots s) (others s).
Definition set_tasks (l : list task) (s : state) : state := mkState (sockets s) l (slots s) (others s).

(** [get_mut] of an object and of one of its sockets. *)
Definition alter_socket (f : Socket -> Socket) (key : ObjectRef) (socket : Z) (m : Table) : Table :=
  alter (alter f socket) key m.
Definition socket_of (m : Table) (key : ObjectRef) (socket : Z) : option Socket :=
  object ← m !! key; object !! socket.

(** ** Operations of the objects *)

Definition accept (key : ObjectRef) (socket : Z) (tags : list string) (hibernatable : bool) (s : state) :
  result unit string * state :=
  if slots s <=? 0 then (Err "too many WebSockets are open on this runner", s) else
  let object := default ∅ (sockets s !! key) in
  if MAX_SOCKETS_PER_OBJECT <=? Z.of_nat (size object)
  then (Err "a Durable Object has at most 32768 WebSockets", s) else
  let entry := mkSocket (length (tasks s)) true tags None hibernatable in
  (Ok tt, mkState (<[key := <[socket := entry]> object]> (sockets s))
    (tasks s ++ [mkTask key socket [] [] [] [] (Waiting [] 0 false)]) (slots s - 1) (others s)).

(** The sender for the upgrade is taken; the task gets the upgrade if it still
    waits. *)
Definition hand_over (t : task) : option task :=
  match t_phase t with
  | Waiting w b _ => Some (mkTask (t_key t) (t_socket t) (t_out t) (t_said t) (t_sent t) (t_delivered t) (Waiting w b true))
  | _ => None
  end.

Definition attach (key : ObjectRef) (socket : Z) (s : state) : bool * state :=
  match socket_of (sockets s) key socket with
  | Some x =>
    if s_attach x then
      let s := set_sockets (alter_socket (with_attach false) key socket (sockets s)) s in
      match t ← tasks s !! s_out x; hand_over t with
      | Some t => (true, set_tasks (<[s_out x := t]> (tasks s)) s)
      | None => (false, s)
      end
    else (false, s)
  | None => (false, s)
  end.

Definition send (key : ObjectRef) (socket : Z) (message : WebSocketOutgoing) (s : state) : state :=
  match sockets s !! key with
  | None => s
  | Some object =>
    let s := match object !! socket with
      | Some x => set_tasks (alter (push message) (s_out x) (tasks s)) s
      | None => s
      end in
    if closes message then set_sockets (<[key := delete socket object]> (sockets s)) s else s
  end.

Definition set_attachment (key : ObjectRef) (socket : Z) (value : option string) (s : state) : state :=
  set_sockets (alter_socket (with_attachment value) key socket (sockets s)) s.

Record ObjectSocket := mkObjectSocket { os_id : Z; os_tags : list string; os_attachment : option string }.

Definition hibernatable (key : ObjectRef) (s : state) : list ObjectSocket :=
  match sockets s !! key with
  | None => []
  | Some object =>
    map (fun e => mkObjectSocket e.1 (s_tags e.2) (s_attachment e.2))
      (List.filter (fun e => s_hibernatable e.2) (map_to_list object))
  end.

(** ** Closes of the registry *)

(** The channels of the sockets that [which] selects. *)
Definition selected (which : ObjectRef -> Socket -> bool) (m : Table) : list nat :=
  '(key, object) ← map_to_list m;
  '(_, x) ← map_to_list (object : gmap Z Socket);
  if which key x then [s_out x] else [].

Definition close_where (which : ObjectRef -> Socket -> bool) (code : Z) (reason : string) (s : state) : state :=
  let hit := selected which (sockets s) in
  let kept := map_imap (fun key object => Some (filter (fun e => negb (which key e.2)) object)) (sockets s) in
  mkState (filter (fun e => e.2 <> ∅) kept)
    (imap (fun i t => if bool_decide (i ∈ hit) then push (OClose code reason) t else t) (tasks s))
    (slots s) (others s).

Definition close_object (namespace_id object_id : string) (code : Z) (reason : string) : state -> state :=
  close_where (fun key _ => String.eqb key.1 namespace_id && String.eqb key.2 object_id) code reason.

Definition close_namespace (namespace_id : string) : state -> state :=
  close_where (fun key _ => String.eqb key.1 namespace_id) 1001 "the Durable Object namespace was deleted".

Definition instance_ended (namespace_id object_id : string) : state -> state :=
  close_where (fun key x => String.eqb key.1 namespace_id && String.eqb key.2 object_id && negb (s_hibernatable x))
    1011 "the Durable Object stopped".

(** ** The task of a socket *)

Definition forget (key : ObjectRef) (socket : Z) (m : Table) : Table :=
  match m !! key with
  | Some object =>
    let object := delete socket object in
    if bool_decide (object = ∅) then delete key m else <[key := object]> m
  | None => m
  end.

(** The task [i] ends: its socket leaves the table and its slot goes back. *)
Definition finish (i : nat) (t : task) (sent : list WebSocketOutgoing) (delivered : list WebSocketIncoming) (s : state) : state :=
  mkState (forget (t_key t) (t_socket t) (sockets s))
    (<[i := mkTask (t_key t) (t_socket t) (t_out t) (t_said t) (t_sent t ++ sent) (t_delivered t ++ delivered) Ended]> (tasks s))
    (slots s + 1) (others s).

(** What the object gets of a close that the registry may refuse. *)
Definition told (delivered : result unit string) (m : WebSocketIncoming) : list WebSocketIncoming :=
  if is_ok delivered then [m] else [].

(** A frame of the object comes before the client. [delivered]: what the
    registry answers. *)
Definition wait_one (i : nat) (t : task) (delivered : result unit string) (s : state) : option state :=
  match t_phase t, t_out t with
  | Waiting w b h, m :: out =>
    let b := b + bytes_out m in
    let t := mkTask (t_key t) (t_socket t) out (t_said t) (t_sent t) (t_delivered t) (Waiting (w ++ [m]) b h) in
    Some (if MAX_QUEUED_BYTES <? b
          then finish i t [] (told delivered (IClosed 1008 "The client does not read fast enough")) s
          else set_tasks (<[i := t]> (tasks s)) s)
  | _, _ => None
  end.

(** What is sent of a list: up to its first close, and whether it has one. *)
Fixpoint up_to_close (l : list WebSocketOutgoing) : list WebSocketOutgoing * bool :=
  match l with
  | [] => ([], false)
  | m :: l => if closes m then ([m], true) else let '(k, b) := up_to_close l in (m :: k, b)
  end.

(** The client is there: it gets the frames that waited. *)
Definition greet (i : nat) (t : task) (s : state) : option state :=
  match t_phase t with
  | Waiting w _ true =>
    let '(sent, closed) := up_to_close w in
    Some (if closed then finish i t sent [] s
          else set_tasks (<[i := mkTask (t_key t) (t_socket t) (t_out t) (t_said t) (t_sent t ++ sent)
                                  (t_delivered t) (Open [])]> (tasks s)) s)
  | _ => None
  end.

(** The upgrade failed, the response dropped it, or 30 seconds passed. *)
Definition leave (i : nat) (t : task) (s : state) : option state :=
  match t_phase t with
  | Waiting _ _ _ => Some (finish i t [] [] s)
  | _ => None
  end.

(** A message of the object with the client there. *)
Definition send_one (i : nat) (t : task) (s : state) : option state :=
  match t_phase t, t_out t with
  | Open u, m :: out =>
    let t := mkTask (t_key t) (t_socket t) out (t_said t) (t_sent t) (t_delivered t) (t_phase t) in
    Some (if closes m then finish i t [m] [] s
          else set_tasks (<[i := mkTask (t_key t) (t_socket t) out (t_said t) (t_sent t ++ [m])
                                  (t_delivered t) (Open u)]> (tasks s)) s)
  | _, _ => None
  end.

(** The channel is empty and its senders are gone. *)
Definition out_closed (i : nat) (t : task) (s : state) : option state :=
  match t_phase t, t_out t with
  | Open _, [] =>
    if bool_decide (i ∈ selected (fun _ _ => true) (sockets s)) then None else Some (finish i t [] [] s)
  | _, _ => None
  end.

Definition bytes_in (m : WebSocketIncoming) : Z :=
  match m with IText s => str_len s | IBinary b => str_len b | _ => 0 end.

(** A message of the client, or the end of the connection as [None]. *)
Definition receive (i : nat) (t : task) (incoming : option WebSocketIncoming) (delivered : result unit string) (s : state) :
  option state :=
  match t_phase t with
  | Open u =>
    let incoming := default (IClosed 1006 "") incoming in
    let bytes := wrap_u32 (bytes_in incoming) in
    if MAX_QUEUED_BYTES <? sumz (fun b => b) u + bytes then
      let reason := "The object does not take the messages fast enough" in
      Some (finish i t [OClose 1008 reason] (told delivered (IClosed 1008 reason)) s)
    else
      match delivered with
      | Err reason => Some (finish i t [OClose 1013 (left_chars 120 reason)] [] s)
      | Ok _ =>
        if ends incoming then Some (finish i t [] [incoming] s)
        else Some (set_tasks (<[i := mkTask (t_key t) (t_socket t) (t_out t) (t_said t) (t_sent t)
                                      (t_delivered t ++ [incoming]) (Open (bytes :: u))]> (tasks s)) s)
      end
  | _ => None
  end.

(** The object takes a message: its bytes can come again. *)
Definition take_one (i : nat) (t : task) (n : nat) (s : state) : option state :=
  match t_phase t with
  | Open u => Some (set_tasks (<[i := mkTask (t_key t) (t_socket t) (t_out t) (t_said t) (t_sent t)
                                       (t_delivered t) (Open (delete n u))]> (tasks s)) s)
  | _ => None
  end.

(** ** Interleavings *)

Inductive action : Type :=
| AWait (delivered : result unit string) | AGreet | AGiveUp | ASend | AOutClosed
| AReceive (incoming : option WebSocketIncoming) (delivered : result unit string) | ATake (n : nat).

Definition act (a : action) (i : nat) (t : task) (s : state) : option state :=
  match a with
  | AWait d => wait_one i t d s
  | AGreet => greet i t s
  | AGiveUp => leave i t s
  | ASend => send_one i t s
  | AOutClosed => out_closed i t s
  | AReceive m d => receive i t m d s
  | ATake n => take_one i t n s
  end.

(** The engine never gives a number to two sockets of an object. *)
Inductive step : state -> state -> Prop :=
| step_accept key socket tags h s :
    Forall (fun t => (t_key t, t_socket t) <> (key, socket)) (tasks s) ->
    step s (accept key socket tags h s).2
| step_attach key socket s : step s (attach key socket s).2
| step_send key socket m s : step s (send key socket m s)
| step_attachment key socket v s : step s (set_attachment key socket v s)
| step_close which code reason s : step s (close_where which code reason s)
| step_task a i t s s' : tasks s !! i = Some t -> act a i t s = Some s' -> step s s'
| step_others n s : n <= slots s -> 0 <= others s + n ->
    step s (mkState (sockets s) (tasks s) (slots s - n) (others s + n)).

Definition init (limit : Z) : state := mkState ∅ [] limit 0.

(** ** Invariant *)

Definition no_close (l : list WebSocketOutgoing) : Prop := Forall (fun m => closes m = false) l.
Definition closes_last (l : list WebSocketOutgoing) : Prop :=
  exists f c, l = f ++ c /\ no_close f /\ (c = [] \/ exists code r, c = [OClose code r]).

(** The client is sent a part of what the object said, from its start, then
    at most one close of the runner. *)
Definition sent_ok (t : task) : Prop :=
  match t_phase t with
  | Waiting w b _ => t_sent t = [] /\ t_said t = w ++ t_out t /\ b = sumz bytes_out w /\ b <= MAX_QUEUED_BYTES
  | Open u => t_said t = t_sent t ++ t_out t /\ no_close (t_sent t) /\
      Forall (fun b => 0 <= b) u /\ sumz (fun b => b) u <= MAX_QUEUED_BYTES
  | Ended => exists p c, t_sent t = p ++ c /\ p `prefix_of` t_said t /\
      (c = [] \/ no_close p /\ exists code r, c = [OClose code r])
  end.

(** The end of the connection is the last that the object gets. *)
Definition delivered_ok (t : task) : Prop :=
  exists f c, t_delivered t = f ++ c /\ Forall (fun m => ends m = false) f /\
    (c = [] \/ alive t = false /\ exists m, c = [m]).

Definition task_ok (t : task) : Prop := closes_last (t_said t) /\ sent_ok t /\ delivered_ok t.

Definition handed (t : task) : bool := match t_phase t with Waiting _ _ h => h | _ => true end.

Record inv (limit : Z) (s : state) : Prop := mkInv {
  inv_entry key socket x : socket_of (sockets s) key socket = Some x -> exists t, tasks s !! s_out x = Some t /\
    t_key t = key /\ t_socket t = socket /\ alive t = true /\ no_close (t_said t) /\
    (s_attach x = true -> handed t = false);
  inv_size key object : sockets s !! key = Some object -> Z.of_nat (size object) <= MAX_SOCKETS_PER_OBJECT;
  inv_empty key : sockets s !! key = Some ∅ -> exists t, t ∈ tasks s /\ alive t = true /\ t_key t = key;
  inv_slots : 0 <= slots s /\ 0 <= others s /\ slots s + others s + countb alive (tasks s) = limit;
  inv_tasks : Forall task_ok (tasks s);
  inv_fresh i j t u : tasks s !! i = Some t -> tasks s !! j = Some u -> t_key t = t_key u -> t_socket t = t_socket u -> i = j;
}.

Lemma socket_of_insert key object m k j :
  socket_of (<[key := object]> m) k j = if bool_decide (k = key) then object !! j else socket_of m k j.
Proof.
  unfold socket_of. case_bool_decide; [subst; by rewrite lookup_insert_eq|]. by rewrite lookup_insert_ne.
Qed.

Lemma socket_of_forget key i m k j x :
  socket_of (forget key i m) k j = Some x <-> socket_of m k j = Some x /\ (k, j) <> (key, i).
Proof.
  unfold forget. destruct (m !! key) as [object|] eqn:E.
  - assert (H : socket_of (if bool_decide (delete i object = ∅) then delete key m else <[key:=delete i object]> m) k j =
      if bool_decide (k = key) then delete i object !! j else socket_of m k j).
    { case_bool_decide as Hd; [|apply socket_of_insert]. unfold socket_of. case_bool_decide as Hk.
      - subst. rewrite lookup_delete_eq, Hd, lookup_empty. done.
      - by rewrite lookup_delete_ne. }
    rewrite H. clear H. case_bool_decide as Hk; [|split; [|by intros [? _]]; intros Hx; split; [done|]; intros [= ? ?]; contradiction].
    subst k. unfold socket_of. rewrite E. cbn [mbind option_bind]. destruct (decide (j = i)) as [->|Hj].
    + rewrite lookup_delete_eq. split; [done|]. by intros [_ []].
    + rewrite lookup_delete_ne by done. split; [|by intros [? _]]. intros Hx. split; [done|]. by intros [= ?].
  - unfold socket_of. split; [|by intros [? _]]. intros H. split; [done|]. intros [= -> ->]. by rewrite E in H.
Qed.

Lemma socket_of_alter f key i m k j x :
  socket_of (alter_socket f key i m) k j = Some x ->
  exists y, socket_of m k j = Some y /\ x = if bool_decide ((k, j) = (key, i)) then f y else y.
Proof.
  unfold socket_of, alter_socket. destruct (decide (k = key)) as [->|Hk].
  - rewrite lookup_alter_eq. destruct (m !! key) as [object|]; [|done]. cbn [mbind option_bind fmap option_fmap option_map].
    destruct (decide (j = i)) as [->|Hj].
    + rewrite lookup_alter_eq. destruct (object !! i) as [y|]; [|done]. intros [= <-]. exists y.
      by rewrite bool_decide_true.
    + rewrite lookup_alter_ne by done. intros ->. exists x. rewrite bool_decide_false by naive_solver. done.
  - rewrite lookup_alter_ne by done. intros H. exists x. rewrite bool_decide_false by naive_solver. done.
Qed.

Lemma elem_of_selected which m i :
  i ∈ selected which m <-> exists key j x, socket_of m key j = Some x /\ which key x = true /\ s_out x = i.
Proof.
  unfold selected. rewrite list_elem_of_bind. split.
  - intros ([key object] & H & Hm%elem_of_map_to_list). apply list_elem_of_bind in H as ([j x] & H & Ho%elem_of_map_to_list).
    exists key, j, x. unfold socket_of. rewrite Hm. cbn. destruct (which key x); [|by apply not_elem_of_nil in H].
    apply list_elem_of_singleton in H. done.
  - intros (key & j & x & H & Hw & Hi). unfold socket_of in H. apply option_Some_bind in H as (object & Hm & Ho).
    exists (key, object). split; [|by apply elem_of_map_to_list]. apply list_elem_of_bind. exists (j, x).
    split; [|by apply elem_of_map_to_list]. rewrite Hw, Hi. by apply list_elem_of_singleton.
Qed.

Lemma forget_empty key i m k : forget key i m !! k = Some ∅ -> k <> key /\ m !! k = Some ∅.
Proof.
  unfold forget. destruct (m !! key) as [object|] eqn:E.
  - case_bool_decide as Hd; destruct (decide (k = key)) as [->|Hk].
    + by rewrite lookup_delete_eq.
    + by rewrite lookup_delete_ne.
    + rewrite lookup_insert_eq. naive_solver.
    + by rewrite lookup_insert_ne.
  - intros H. split; [|done]. intros ->. by rewrite E in H.
Qed.

(** Objects only lose sockets. *)
Lemma forget_size key i m k object :
  forget key i m !! k = Some object -> exists o, m !! k = Some o /\ (size object <= size o)%nat.
Proof.
  unfold forget. destruct (m !! key) as [o|] eqn:E; [|naive_solver].
  destruct (decide (k = key)) as [->|Hk].
  - case_bool_decide; [by rewrite lookup_delete_eq|]. rewrite lookup_insert_eq. intros [= <-]. exists o.
    split; [done|]. apply map_subseteq_size, delete_subseteq.
  - case_bool_decide; rewrite ?lookup_delete_ne, ?lookup_insert_ne by done; naive_solver.
Qed.

Lemma insert_owner (l : list task) i t t' n w :
  l !! i = Some t -> t_key t' = t_key t -> t_socket t' = t_socket t -> <[i := t']> l !! n = Some w ->
  exists w', l !! n = Some w' /\ t_key w' = t_key w /\ t_socket w' = t_socket w.
Proof.
  intros Hi Hk Hj Hw. destruct (decide (n = i)) as [->|Hne].
  - rewrite list_lookup_insert_eq in Hw by by eapply lookup_lt_Some. simplify_eq. by exists t.
  - rewrite list_lookup_insert_ne in Hw by done. by exists w.
Qed.

Section invariants.
Variable limit : Z.

(** A task moves on and keeps its socket. *)
Lemma inv_replace_handed i t t' s :
  inv limit s -> tasks s !! i = Some t -> t_key t' = t_key t -> t_socket t' = t_socket t -> t_said t' = t_said t ->
  alive t' = alive t ->
  (forall x, socket_of (sockets s) (t_key t) (t_socket t) = Some x -> s_attach x = true -> handed t = false -> handed t' = false) ->
  task_ok t' ->
  inv limit (set_tasks (<[i := t']> (tasks s)) s).
Proof.
  intros [He Hz Hm Hs Ht Hf] Hi Hk Hj Hsaid Ha Hh Hok.
  assert (Hlt : (i < length (tasks s))%nat) by by eapply lookup_lt_Some.
  split; cbn [sockets tasks slots others set_tasks].
  - intros key j x Hx. destruct (He key j x Hx) as (u & Hu & ? & ? & ? & ? & ?).
    destruct (decide (s_out x = i)) as [Heq|Hne].
    + rewrite Heq in *. simplify_eq. exists t'. rewrite list_lookup_insert_eq by done. rewrite Hk, Hj, Hsaid, Ha. split_and!; eauto.
    + exists u. rewrite list_lookup_insert_ne by done. done.
  - done.
  - intros key Hkey. destruct (Hm key Hkey) as (u & Hu & Hal & <-). apply list_elem_of_lookup in Hu as [n Hn].
    destruct (decide (n = i)) as [->|Hne].
    + simplify_eq. exists t'. split; [by apply list_elem_of_insert|]. by rewrite Ha, Hk.
    + exists u. split; [|done]. apply list_elem_of_lookup. exists n. by rewrite list_lookup_insert_ne.
  - rewrite (countb_insert _ _ _ _ _ Hi), Ha. lia.
  - by apply Forall_insert.
  - intros a b u v Hu Hv Hku Hju.
    destruct (insert_owner _ _ _ _ _ _ Hi Hk Hj Hu) as (u' & Hu' & E1 & E2).
    destruct (insert_owner _ _ _ _ _ _ Hi Hk Hj Hv) as (v' & Hv' & E3 & E4). apply (Hf a b u' v'); congruence.
Qed.

Lemma inv_replace i t t' s :
  inv limit s -> tasks s !! i = Some t -> t_key t' = t_key t -> t_socket t' = t_socket t -> t_said t' = t_said t ->
  alive t' = alive t -> (handed t = false -> handed t' = false) -> task_ok t' ->
  inv limit (set_tasks (<[i := t']> (tasks s)) s).
Proof. intros. eapply inv_replace_handed; eauto. Qed.

(** A task ends: the entry that points to it is the one it forgets. *)
Lemma inv_finish i t t0 sent delivered s :
  inv limit s -> tasks s !! i = Some t0 -> alive t0 = true -> t_key t = t_key t0 -> t_socket t = t_socket t0 ->
  task_ok (mkTask (t_key t) (t_socket t) (t_out t) (t_said t) (t_sent t ++ sent) (t_delivered t ++ delivered) Ended) ->
  inv limit (finish i t sent delivered s).
Proof.
  intros [He Hz Hm Hs Ht Hf] Hi Ha Hk Hj Hok. set (t' := mkTask _ _ _ _ _ _ _) in *.
  assert (Hlt : (i < length (tasks s))%nat) by by eapply lookup_lt_Some.
  split; cbn [sockets tasks slots others finish]; fold t'.
  - intros key j x [Hx Hne]%socket_of_forget. destruct (He key j x Hx) as (u & Hu & H1 & H2 & Hrest).
    exists u. rewrite list_lookup_insert_ne; [done|]. intros ->. simplify_eq. apply Hne. by rewrite Hk, Hj.
  - intros key object Hkey. apply forget_size in Hkey as (o & Ho & Hle). specialize (Hz key o Ho). lia.
  - intros key Hkey. apply forget_empty in Hkey as [Hne Hkey]. destruct (Hm key Hkey) as (u & Hu & Hal & <-).
    apply list_elem_of_lookup in Hu as [n Hn]. exists u. split; [|done]. apply list_elem_of_lookup. exists n.
    rewrite list_lookup_insert_ne; [done|]. intros ->. simplify_eq.
  - rewrite (countb_insert _ _ _ _ _ Hi), Ha. cbn. lia.
  - by apply Forall_insert.
  - intros a b u v Hu Hv Hku Hju.
    destruct (insert_owner _ _ _ t' _ _ Hi Hk Hj Hu) as (u' & Hu' & E1 & E2).
    destruct (insert_owner _ _ _ t' _ _ Hi Hk Hj Hv) as (v' & Hv' & E3 & E4). apply (Hf a b u' v'); congruence.
Qed.

(** What a task does with its frames. *)
Lemma up_to_close_spec l :
  match up_to_close l with
  | (k, false) => k = l /\ no_close l
  | (k, true) => exists f m rest, l = f ++ m :: rest /\ k = f ++ [m] /\ closes m = true
  end.
Proof.
  induction l as [|m l IH]; simpl; [by split; [|constructor]|]. destruct (closes m) eqn:E.
  - by exists [], m, l.
  - destruct (up_to_close l) as [k [|]].
    + destruct IH as (f & m' & rest & -> & -> & ?). by exists (m :: f), m', rest.
    + destruct IH as [-> ?]. split; [done|]. by constructor.
Qed.

Lemma delivered_app t out said sent l p : delivered_ok t -> alive t = true ->
  (match p with Ended => False | _ => True end -> Forall (fun m => ends m = false) l) ->
  (l = [] \/ exists m, l = [m]) ->
  delivered_ok (mkTask (t_key t) (t_socket t) out said sent (t_delivered t ++ l) p).
Proof.
  intros (f & c & Hd & Hf & Hc) Ha Hp Hl. destruct Hc as [->|[? _]]; [|congruence]. rewrite app_nil_r in Hd.
  unfold delivered_ok. cbn [t_delivered]. rewrite Hd.
  destruct p; try (exists (f ++ l), []; rewrite app_nil_r; split; [done|]; split; [|by left]; by apply Forall_app; auto).
  exists f, l. split; [done|]. split; [done|]. destruct Hl as [->|?]; [by left|]. by right.
Qed.

Lemma delivered_keep t t' : delivered_ok t -> alive t = true -> t_delivered t' = t_delivered t -> delivered_ok t'.
Proof.
  intros (f & c & Hd & Hf & Hc) Ha E. exists f, c. rewrite E. split; [done|]. split; [done|].
  destruct Hc as [?|[? _]]; [by left|congruence].
Qed.

(** A task that ends has sent a part of what the object said, and a close. *)
Lemma inv_task_end i t t1 p c sent delivered s :
  inv limit s -> tasks s !! i = Some t -> alive t = true ->
  t_key t1 = t_key t -> t_socket t1 = t_socket t -> t_said t1 = t_said t -> t_delivered t1 = t_delivered t ->
  t_sent t1 ++ sent = p ++ c -> p `prefix_of` t_said t ->
  (c = [] \/ no_close p /\ exists code r, c = [OClose code r]) ->
  (delivered = [] \/ exists m, delivered = [m]) ->
  inv limit (finish i t1 sent delivered s).
Proof.
  intros Hinv Hi Ha Hk Hj Hsaid Hdel Hsent Hp Hc Hd.
  pose proof (Forall_lookup_1 _ _ _ _ (inv_tasks _ _ Hinv) Hi) as (Hl & _ & Ho).
  apply (inv_finish i t1 t sent delivered s Hinv Hi Ha Hk Hj). split; [by rewrite <- Hsaid in Hl|]. split.
  - exists p, c. cbn. by rewrite Hsaid.
  - rewrite Hk, Hj, Hdel. by apply delivered_app.
Qed.

Lemma inv_wait i t d s s' : inv limit s -> tasks s !! i = Some t -> wait_one i t d s = Some s' -> inv limit s'.
Proof.
  intros Hinv Hi H. pose proof (Forall_lookup_1 _ _ _ _ (inv_tasks _ _ Hinv) Hi) as (Hc & Hs & Hd).
  unfold wait_one in H. unfold sent_ok in Hs. destruct (t_phase t) as [w b h|u|] eqn:Ep; try done.
  destruct (t_out t) as [|m out] eqn:Eo; [done|]. injection H as <-. destruct Hs as (Hs & Hsaid & -> & Hb).
  assert (Ha : alive t = true) by (unfold alive; by rewrite Ep).
  destruct (MAX_QUEUED_BYTES <? _) eqn:El; reflect_bools.
  - eapply (inv_task_end i t _ [] [] [] _ s); try done; [by cbn; rewrite Hs|by exists (t_said t)|by left|].
    unfold told. destruct (is_ok d); [right; by eexists|by left].
  - eapply inv_replace; try done; unfold alive, handed; rewrite ?Ep; try done.
    split; [done|]. split.
    + cbn. rewrite <- app_assoc, sumz_app. cbn. rewrite Hsaid. split_and!; try done; lia.
    + by apply (delivered_keep t).
Qed.

Lemma inv_greet i t s s' : inv limit s -> tasks s !! i = Some t -> greet i t s = Some s' -> inv limit s'.
Proof.
  intros Hinv Hi H. pose proof (Forall_lookup_1 _ _ _ _ (inv_tasks _ _ Hinv) Hi) as (Hc & Hs & Hd).
  unfold greet in H. unfold sent_ok in Hs. destruct (t_phase t) as [w b [|]|u|] eqn:Ep; try done.
  assert (Ha : alive t = true) by (unfold alive; by rewrite Ep). destruct Hs as (Hs & Hsaid & -> & Hb).
  pose proof (up_to_close_spec w) as Hw. destruct (up_to_close w) as [k [|]]; injection H as <-.
  - destruct Hw as (f & m & rest & -> & -> & Hm).
    eapply (inv_task_end i t t (f ++ [m]) [] _ _ s); try done; [by rewrite Hs, app_nil_r| |by left|by left].
    exists (rest ++ t_out t). rewrite Hsaid, <- !app_assoc. done.
  - destruct Hw as [-> Hw]. eapply inv_replace; try done; unfold alive, handed; rewrite ?Ep; try done.
    split; [done|]. split; [by cbn; rewrite Hs|].
    by apply (delivered_keep t).
Qed.

Lemma inv_client_send i t s s' : inv limit s -> tasks s !! i = Some t -> send_one i t s = Some s' -> inv limit s'.
Proof.
  intros Hinv Hi H. pose proof (Forall_lookup_1 _ _ _ _ (inv_tasks _ _ Hinv) Hi) as (Hc & Hs & Hd).
  unfold send_one in H. unfold sent_ok in Hs. destruct (t_phase t) as [w b h|u|] eqn:Ep; try done.
  assert (Ha : alive t = true) by (unfold alive; by rewrite Ep). destruct Hs as (Hsaid & Hn & Hu).
  destruct (t_out t) as [|m out] eqn:Eo; [done|]. destruct (closes m) eqn:Em; injection H as <-.
  - eapply (inv_task_end i t _ (t_sent t ++ [m]) [] _ _ s); try done; [by rewrite app_nil_r| |by left|by left].
    exists out. rewrite Hsaid, <- app_assoc. done.
  - eapply inv_replace; try done; unfold alive, handed; rewrite ?Ep; try done.
    split; [done|]. split; [cbn; rewrite <- app_assoc; split_and!; try apply Hu; try done|].
    + apply Forall_app. split; [done|]. by constructor.
    + by apply (delivered_keep t).
Qed.

Lemma inv_receive i t m d s s' : inv limit s -> tasks s !! i = Some t -> receive i t m d s = Some s' -> inv limit s'.
Proof.
  intros Hinv Hi H. pose proof (Forall_lookup_1 _ _ _ _ (inv_tasks _ _ Hinv) Hi) as (Hc & Hs & Hd).
  unfold receive in H. unfold sent_ok in Hs. destruct (t_phase t) as [w b h|u|] eqn:Ep; try done.
  assert (Ha : alive t = true) by (unfold alive; by rewrite Ep). destruct Hs as (Hsaid & Hn & Hu & Hb).
  set (x := default _ m) in H. assert (Hpre : t_sent t `prefix_of` t_said t) by (rewrite Hsaid; by eexists).
  destruct (MAX_QUEUED_BYTES <? _) eqn:El; reflect_bools.
  - injection H as <-. eapply (inv_task_end i t t (t_sent t) _ _ _ s); try done; [right; split; [done|by do 2 eexists]|].
    unfold told. destruct (is_ok d); [right; by eexists|by left].
  - destruct d as [[]|reason]; [|injection H as <-;
      eapply (inv_task_end i t t (t_sent t) _ _ _ s); try done; [right; split; [done|by do 2 eexists]|by left]].
    destruct (ends x) eqn:Ex; injection H as <-.
    + eapply (inv_task_end i t t (t_sent t) [] _ _ s); try done; [by left|right; by eexists].
    + eapply inv_replace; try done; unfold alive, handed; rewrite ?Ep; try done.
      split; [done|]. split; [cbn; split_and!; try done|].
      * constructor; [|done]. unfold wrap_u32. div_lia.
      * lia.
      * apply delivered_app; try done; [intros _; by constructor|right; by eexists].
Qed.

Lemma inv_act a i t s s' : inv limit s -> tasks s !! i = Some t -> act a i t s = Some s' -> inv limit s'.
Proof.
  intros Hinv Hi Hact. pose proof (Forall_lookup_1 _ _ _ _ (inv_tasks _ _ Hinv) Hi) as (Hc & Hs & Hd).
  destruct a as [d| | | | |m d|n]; simpl in Hact;
    [by eapply inv_wait|by eapply inv_greet| |by eapply inv_client_send| |by eapply inv_receive|];
    unfold leave, out_closed, take_one in Hact; unfold sent_ok in Hs;
    destruct (t_phase t) as [w b h|u|] eqn:Ep; try done;
    (assert (Ha : alive t = true) by (unfold alive; by rewrite Ep)).
  - injection Hact as <-. destruct Hs as (Hs & _).
    eapply (inv_task_end i t t [] [] _ _ s); try done; [by rewrite Hs|apply prefix_nil|by left|by left].
  - destruct (t_out t) eqn:Eo; [|done]. case_bool_decide; [done|]. injection Hact as <-. destruct Hs as (Hs & Hn & _).
    rewrite app_nil_r in Hs.
    eapply (inv_task_end i t t (t_sent t) [] _ _ s); try done; [by rewrite Hs|by left|by left].
  - injection Hact as <-. destruct Hs as (Hs & Hn & Hu & Hb).
    eapply inv_replace; try done; unfold alive, handed; rewrite ?Ep; try done.
    split; [done|]. split.
    + cbn. split_and!; try done; [by apply Forall_delete|]. clear -Hu Hb.
      assert (H : forall l, Forall (fun b => 0 <= b) l -> sumz (fun b => b) (delete n l) <= sumz (fun b => b) l);
        [|by etransitivity; [apply H|]].
      intros l Hl. clear -Hl. revert n. induction Hl as [|x l Hx Hl IH]; intros [|n]; simpl; try lia. specialize (IH n). lia.
    + by apply (delivered_keep t).
Qed.

(** ** The operations *)

(** A message goes to the task of a socket that is in the table; a close is
    the last one, and the socket leaves the table with it. *)
Lemma closes_last_snoc l m : no_close l -> closes_last (l ++ [m]).
Proof.
  intros Hl. destruct m as [x|x|code r]; [exists (l ++ [OText x]), []|exists (l ++ [OBinary x]), []|exists l, [OClose code r]];
    rewrite ?app_nil_r; split_and!; try done; try (by left); try (right; by do 2 eexists);
    apply Forall_app; by repeat constructor.
Qed.

Lemma push_ok m t : task_ok t -> no_close (t_said t) -> task_ok (push m t).
Proof.
  intros (_ & Hs & Hd) Hn. split; [by apply closes_last_snoc|]. split; [|exact Hd].
  unfold sent_ok in *. cbn [push t_phase t_sent t_said t_out]. destruct (t_phase t) as [w b h|u|].
  - destruct Hs as (? & -> & ? & ?). by rewrite <- app_assoc.
  - destruct Hs as (-> & ? & ?). by rewrite <- app_assoc.
  - destruct Hs as (p & c & ? & ? & ?). exists p, c. split; [done|]. split; [|done]. by apply prefix_app_r.
Qed.

(** Some tasks get a message; their sockets may leave the table. *)
Lemma inv_push (hit : nat -> bool) (m : WebSocketOutgoing) (tab : Table) s :
  inv limit s ->
  (forall i, hit i = true -> exists key j x, socket_of (sockets s) key j = Some x /\ s_out x = i) ->
  (forall key j x, socket_of tab key j = Some x -> socket_of (sockets s) key j = Some x /\
    (hit (s_out x) = true -> closes m = false)) ->
  (forall key object, tab !! key = Some object -> Z.of_nat (size object) <= MAX_SOCKETS_PER_OBJECT) ->
  (forall key, tab !! key = Some ∅ -> exists t, t ∈ tasks s /\ alive t = true /\ t_key t = key) ->
  inv limit (mkState tab (imap (fun i t => if hit i then push m t else t) (tasks s)) (slots s) (others s)).
Proof.
  intros [He Hz Hm Hs Ht Hf] Hhit Htab Hsize Hempty.
  set (f := fun i t => if hit i then push m t else t).
  assert (Hsame : forall i t, t_key (f i t) = t_key t /\ t_socket (f i t) = t_socket t /\ alive (f i t) = alive t /\
    handed (f i t) = handed t) by (intros i t; unfold f; by destruct (hit i)).
  split; cbn [sockets tasks slots others].
  - intros key j x Hx. destruct (Htab key j x Hx) as [Hx' Hcl]. destruct (He key j x Hx') as (t & Hi & Hk & Hj & Ha & Hn & Hh).
    exists (f (s_out x) t). rewrite list_lookup_imap, Hi. destruct (Hsame (s_out x) t) as (-> & -> & -> & ->).
    split_and!; try done. unfold f. destruct (hit (s_out x)); [|done].
    apply Forall_app. split; [done|]. constructor; [by apply Hcl|constructor].
  - done.
  - intros key Hkey. destruct (Hempty key Hkey) as (t & [i Hi]%list_elem_of_lookup & Ha & Hk). exists (f i t).
    destruct (Hsame i t) as (-> & _ & -> & _). split; [|done]. apply list_elem_of_lookup. exists i.
    by rewrite list_lookup_imap, Hi.
  - replace (countb alive (imap f (tasks s))) with (countb alive (tasks s)); [done|].
    clear -Hsame. clearbody f. revert f Hsame. induction (tasks s) as [|t l IH]; intros f Hsame; simpl; [done|].
    destruct (Hsame 0%nat t) as (_ & _ & -> & _). f_equal. apply IH. intros i u. apply Hsame.
  - apply Forall_lookup. intros i t'. rewrite list_lookup_imap. intros (t & Hi & ->)%fmap_Some.
    pose proof (Forall_lookup_1 _ _ _ _ Ht Hi) as Hok. unfold f. destruct (hit i) eqn:E; [|done].
    destruct (Hhit i E) as (key & j & x & Hx & <-). destruct (He key j x Hx) as (t0 & Hi0 & _ & _ & _ & Hn & _).
    simplify_eq. by apply push_ok.
  - intros i j t u. rewrite !list_lookup_imap. intros (t0 & Hi & ->)%fmap_Some (u0 & Hj & ->)%fmap_Some.
    destruct (Hsame i t0) as (-> & -> & _). destruct (Hsame j u0) as (-> & -> & _). by apply Hf.
Qed.

Lemma alter_imap {A} (f : A -> A) i (l : list A) :
  alter f i l = imap (fun j x => if bool_decide (j = i) then f x else x) l.
Proof.
  apply list_eq. intros j. rewrite list_lookup_imap. destruct (decide (j = i)) as [->|Hj].
  - rewrite list_lookup_alter_eq. destruct (l !! i); [|done]. simpl. by rewrite bool_decide_true.
  - rewrite list_lookup_alter_ne by done. destruct (l !! j); [|done]. simpl. by rewrite bool_decide_false.
Qed.

Lemma imap_same {A} (l : list A) : imap (fun _ x => x) l = l.
Proof. induction l as [|x l IH]; simpl; [done|]. f_equal. exact IH. Qed.

Lemma inv_object_send key socket m s : inv limit s -> inv limit (send key socket m s).
Proof.
  intros Hinv. unfold send. destruct (sockets s !! key) as [object|] eqn:Eo; [|done].
  set (tab := if closes m then <[key := delete socket object]> (sockets s) else sockets s).
  assert (Hsub : forall k j x, socket_of tab k j = Some x -> socket_of (sockets s) k j = Some x /\
    (closes m = true -> (k, j) <> (key, socket))).
  { intros k j x. unfold tab. destruct (closes m); [|done]. rewrite socket_of_insert. case_bool_decide as Hk.
    - subst. intros [Hj Hx]%lookup_delete_Some. unfold socket_of. rewrite Eo. split; [done|]. intros _ [= E]. done.
    - intros Hx. split; [done|]. intros _ [= ? ?]. done. }
  assert (Hsize : forall k o, tab !! k = Some o -> Z.of_nat (size o) <= MAX_SOCKETS_PER_OBJECT).
  { intros k o. unfold tab. destruct (closes m); [|apply (inv_size _ _ Hinv)]. destruct (decide (k = key)) as [->|Hk].
    - rewrite lookup_insert_eq. intros [= <-]. pose proof (inv_size _ _ Hinv _ _ Eo).
      assert ((size (delete socket object) <= size object)%nat) by apply map_subseteq_size, delete_subseteq. lia.
    - rewrite lookup_insert_ne by done. apply (inv_size _ _ Hinv). }
  assert (Hempty : forall k, tab !! k = Some ∅ -> exists t, t ∈ tasks s /\ alive t = true /\ t_key t = k).
  { intros k. unfold tab. destruct (closes m); [|apply (inv_empty _ _ Hinv)]. destruct (decide (k = key)) as [->|Hk].
    - rewrite lookup_insert_eq. intros [= Hd]. destruct (object !! socket) as [x|] eqn:Ex.
      + destruct (inv_entry _ _ Hinv key socket x) as (t & Hi & ? & _ & ? & _); [by unfold socket_of; rewrite Eo|].
        exists t. split; [by eapply list_elem_of_lookup_2|]. done.
      + rewrite delete_id in Hd by done. subst. by apply (inv_empty _ _ Hinv).
    - rewrite lookup_insert_ne by done. apply (inv_empty _ _ Hinv). }
  destruct (object !! socket) as [x|] eqn:Ex.
  - assert (Hx : socket_of (sockets s) key socket = Some x) by (unfold socket_of; by rewrite Eo).
    pose proof (inv_push (fun i => bool_decide (i = s_out x)) m tab s Hinv) as H.
    cbn beta in H. rewrite <- (alter_imap (push m) (s_out x) (tasks s)) in H. unfold tab in H. unfold set_sockets, set_tasks. cbn [sockets tasks slots others].
    destruct (closes m) eqn:Em; (apply H; [intros i ->%bool_decide_eq_true; by exists key, socket, x| |done|done]);
      intros k j y Hy; destruct (Hsub k j y Hy) as [Hy' Hne]; split; try done.
    intros Hsame%bool_decide_eq_true. destruct (inv_entry _ _ Hinv _ _ _ Hx) as (t & Ht & <- & <- & _).
    destruct (inv_entry _ _ Hinv _ _ _ Hy') as (u & Hu & <- & <- & _). rewrite Hsame in Hu. simplify_eq. by destruct Hne.
  - pose proof (inv_push (fun _ => false) m tab s Hinv) as H. rewrite imap_same in H. unfold tab in H.
    destruct (closes m); [apply H; try done; naive_solver|done].
Qed.

Lemma socket_of_closed which code reason s key j x :
  socket_of (sockets (close_where which code reason s)) key j = Some x ->
  socket_of (sockets s) key j = Some x /\ which key x = false.
Proof.
  unfold socket_of, close_where. cbn [sockets]. intros (o & Ho & Hx)%option_Some_bind.
  apply map_lookup_filter_Some in Ho as [Ho _]. rewrite map_lookup_imap in Ho. apply option_Some_bind in Ho as (o' & Ho & [= <-]).
  apply map_lookup_filter_Some in Hx as [Hx Hw]. cbn in Hw. rewrite Ho. split; [done|]. by destruct (which key x).
Qed.

Lemma inv_close which code reason s : inv limit s -> inv limit (close_where which code reason s).
Proof.
  intros Hinv. pose proof (socket_of_closed which code reason s) as Hsub. unfold close_where in *. cbn [sockets] in Hsub.
  apply (inv_push (fun i => bool_decide (i ∈ selected which (sockets s)))); [done| | | |].
  - intros i (key & j & x & Hx & _ & Hi)%bool_decide_eq_true%elem_of_selected. by exists key, j, x.
  - intros key j x Hx. destruct (Hsub key j x Hx) as [Hx' Hw]. split; [done|].
    intros (key' & j' & x' & Hy & Hw' & E)%bool_decide_eq_true%elem_of_selected.
    destruct (inv_entry _ _ Hinv _ _ _ Hx') as (t & Ht & <- & <- & _).
    destruct (inv_entry _ _ Hinv _ _ _ Hy) as (u & Hu & <- & <- & _). rewrite E in Hu. simplify_eq.
    congruence.
  - intros key o [Ho _]%map_lookup_filter_Some. rewrite map_lookup_imap in Ho. apply option_Some_bind in Ho as (o' & Ho & [= <-]).
    pose proof (inv_size _ _ Hinv _ _ Ho). assert ((size (filter (fun e : Z * Socket => negb (which key e.2)) o') <= size o')%nat) by apply map_subseteq_size, map_filter_subseteq. lia.
  - intros key [_ Hne]%map_lookup_filter_Some. done.
Qed.

Lemma inv_accept key socket tags h s : inv limit s ->
  Forall (fun t => (t_key t, t_socket t) <> (key, socket)) (tasks s) -> inv limit (accept key socket tags h s).2.
Proof.
  intros Hinv Hfresh. unfold accept. destruct (slots s <=? 0) eqn:E1; [done|].
  destruct (MAX_SOCKETS_PER_OBJECT <=? _) eqn:E2; [done|]. reflect_bools. cbn [snd].
  destruct Hinv as [He Hz Hm Hs Ht Hf]. set (t := mkTask _ _ _ _ _ _ _).
  assert (Hlast : (tasks s ++ [t]) !! length (tasks s) = Some t) by by apply list_lookup_middle.
  split; cbn [sockets tasks slots others].
  - intros k j x. rewrite socket_of_insert.
    assert (Hold : forall x, socket_of (sockets s) k j = Some x -> exists t0, (tasks s ++ [t]) !! s_out x = Some t0 /\
      t_key t0 = k /\ t_socket t0 = j /\ alive t0 = true /\ no_close (t_said t0) /\ (s_attach x = true -> handed t0 = false)).
    { intros y (u & Hu & Hr)%He. exists u. split; [|done]. by apply lookup_app_l_Some. }
    case_bool_decide as Hk; [|apply Hold]. subst k. destruct (decide (j = socket)) as [->|Hj].
    + rewrite lookup_insert_eq. intros [= <-]. exists t. split_and!; try done. constructor.
    + rewrite lookup_insert_ne by done. intros Hx. apply Hold. unfold socket_of. by destruct (sockets s !! key).
  - intros k o. destruct (decide (k = key)) as [->|Hk].
    + rewrite lookup_insert_eq. intros [= <-].
      assert ((size (<[socket := mkSocket (length (tasks s)) true tags None h]> (default ∅ (sockets s !! key))) <=
        S (size (default ∅ (sockets s !! key))))%nat); [|lia].
      rewrite map_size_insert. destruct (_ !! socket); simpl; lia.
    + rewrite lookup_insert_ne by done. apply Hz.
  - intros k. destruct (decide (k = key)) as [->|Hk].
    + rewrite lookup_insert_eq. intros [= Hd]. by apply insert_non_empty in Hd.
    + rewrite lookup_insert_ne by done. intros (u & Hu & ?)%Hm. exists u. split; [|done]. apply elem_of_app. by left.
  - rewrite countb_app. cbn. lia.
  - apply Forall_app. split; [done|]. constructor; [|constructor]. split_and!.
    + exists [], []. by split_and!; [|constructor|left].
    + cbn. unfold MAX_QUEUED_BYTES. rewrite Z.shiftl_mul_pow2 by lia. by split_and!.
    + exists [], []. by split_and!; [|constructor|left].
  - assert (Hn : forall i u, (tasks s ++ [t]) !! i = Some u -> tasks s !! i = Some u \/ i = length (tasks s) /\ u = t).
    { intros i u. rewrite lookup_app. destruct (tasks s !! i) eqn:E; [naive_solver|]. intros H. right.
      apply lookup_ge_None in E. destruct (i - length (tasks s))%nat eqn:Ei; [|done]. simplify_eq/=. split; [lia|done]. }
    assert (Hnew : forall i u, tasks s !! i = Some u -> t_key u = t_key t -> t_socket u = t_socket t -> False).
    { intros i u Hu Hk Hj. apply (Forall_lookup_1 _ _ _ _ Hfresh Hu). cbn in Hk, Hj. congruence. }
    intros i j u v [Hu|[-> ->]]%Hn [Hv|[-> ->]]%Hn Hk Hj; [by eapply Hf| | |done];
      exfalso; by eapply Hnew.
Qed.

Lemma inv_alter f key socket s : inv limit s ->
  (forall x, s_out (f x) = s_out x /\ (s_attach (f x) = true -> s_attach x = true)) ->
  inv limit (set_sockets (alter_socket f key socket (sockets s)) s).
Proof.
  intros [He Hz Hm Hs Ht Hf] Hx.
  assert (Ho : forall k o, alter_socket f key socket (sockets s) !! k = Some o ->
    exists o', sockets s !! k = Some o' /\ size o = size o').
  { intros k o. unfold alter_socket. destruct (decide (k = key)) as [->|Hk]; [|rewrite lookup_alter_ne by done; naive_solver].
    rewrite lookup_alter_eq. intros (o' & Ho & ->)%fmap_Some. exists o'. split; [done|].
    rewrite <- !(size_dom (D := gset Z)). by rewrite dom_alter_L. }
  split; cbn [sockets tasks slots others set_sockets]; try done.
  - intros k j y (y' & Hy & ->)%socket_of_alter. destruct (He k j y' Hy) as (t & Hi & H1 & H2 & H3 & H4 & H5).
    destruct (Hx y') as [Eo Ea]. exists t. case_bool_decide; [rewrite Eo|]; split_and!; auto.
  - intros k o (o' & Ho' & ->)%Ho. by eapply Hz.
  - intros k (o' & Ho' & E)%Ho. rewrite map_size_empty in E. symmetry in E. apply map_size_empty_iff in E. subst. by apply Hm.
Qed.

Lemma inv_attach key socket s : inv limit s -> inv limit (attach key socket s).2.
Proof.
  intros Hinv. unfold attach. destruct (socket_of (sockets s) key socket) as [x|] eqn:Ex; [|done].
  destruct (s_attach x) eqn:Ea; [|done].
  pose proof (inv_alter (with_attach false) key socket s Hinv) as H. set (s1 := set_sockets _ s) in *.
  assert (Hinv1 : inv limit s1) by (apply H; by intros []).
  destruct (inv_entry _ _ Hinv _ _ _ Ex) as (t & Hi & Hk & Hj & _). cbn [tasks s1 set_sockets]. rewrite Hi.
  cbn [mbind option_bind]. unfold hand_over. destruct (t_phase t) as [w b h|u|] eqn:Ep; try done. cbn [snd].
  pose proof (Forall_lookup_1 _ _ _ _ (inv_tasks _ _ Hinv) Hi) as (Hc & Hs & Hd).
  change (tasks s) with (tasks s1). eapply (inv_replace_handed (s_out x) t _ s1); try done.
  - unfold alive. by rewrite Ep.
  - intros y Hy. rewrite Hk, Hj in Hy. apply socket_of_alter in Hy as (y' & Hy' & ->). by rewrite bool_decide_true.
  - split; [done|]. unfold sent_ok, delivered_ok, alive in *. by rewrite Ep in *.
Qed.

Lemma sockets_inv_step s s' : inv limit s -> step s s' -> inv limit s'.
Proof.
  intros Hinv Hstep. destruct Hstep.
  - by apply inv_accept.
  - by apply inv_attach.
  - by apply inv_object_send.
  - by apply inv_alter.
  - by apply inv_close.
  - by eapply inv_act.
  - destruct Hinv as [He Hz Hm Hs Ht Hf]. split; cbn [sockets tasks slots others]; try done. lia.
Qed.

Lemma sockets_inv_init : 0 <= limit -> inv limit (init limit).
Proof. intros. split; try done; cbn; lia. Qed.
End invariants.

Lemma sockets_inv_reachable limit s : 0 <= limit -> rtc step (init limit) s -> inv limit s.
Proof.
  intros Hl. apply rtc_invariant; [intros a b; apply sockets_inv_step|by apply sockets_inv_init].
Qed.

(** ** Properties *)

(** C34. Every socket that an object has open holds a slot of the runner. After
    any interleaving of the operations of the objects, the closes and the
    tasks, each open socket has a task of its own that still runs, the running
    tasks, the other sockets and the free slots add up to the slots of the
    runner, and no object has more than 32768 sockets. When the last task
    ended, the table is empty. *)
Theorem open_sockets_hold_slots (limit : Z) (s : state) :
  0 <= limit -> rtc step (init limit) s ->
  (forall key socket x, socket_of (sockets s) key socket = Some x ->
     exists t, tasks s !! s_out x = Some t /\ alive t = true /\ t_key t = key /\ t_socket t = socket) /\
  0 <= slots s /\ slots s + others s + countb alive (tasks s) = limit /\
  (forall key object, sockets s !! key = Some object -> Z.of_nat (size object) <= MAX_SOCKETS_PER_OBJECT) /\
  (countb alive (tasks s) = 0 -> sockets s = ∅).
Proof.
  intros Hl Hr. destruct (sockets_inv_reachable _ _ Hl Hr) as [He Hz Hm Hs Ht Hf].
  split; [|split_and!; try apply Hs; try done].
  - intros key j x (t & ? & ? & ? & ? & _)%He. by exists t.
  - intros Hno%countb_zero. apply map_empty. intros key. destruct (sockets s !! key) as [o|] eqn:Eo; [exfalso|done].
    destruct (decide (o = ∅)) as [->|(j & x & Hx)%map_choose].
    + destruct (Hm key Eo) as (t & Hin & Ha & _). rewrite Forall_forall in Hno. rewrite (Hno t Hin) in Ha. done.
    + destruct (He key j x) as (t & Hi & _ & _ & Ha & _); [by unfold socket_of; rewrite Eo|].
      pose proof (Forall_lookup_1 _ _ _ _ Hno Hi) as Hd. cbn in Hd. congruence.
Qed.

(** C33. The client of a socket is sent what the object said, in that order and
    from its start, before or after it connects, and then at most one close of
    the runner's own. A close is the last thing an object says. The object
    gets the messages of the client with the end of the connection last, and
    the messages it did not take yet are at most 8 MiB. *)
Theorem socket_frames_in_order (limit : Z) (s : state) (t : task) :
  0 <= limit -> rtc step (init limit) s -> t ∈ tasks s ->
  closes_last (t_said t) /\
  (exists p c, t_sent t = p ++ c /\ p `prefix_of` t_said t /\
     (c = [] \/ no_close p /\ exists code r, c = [OClose code r])) /\
  delivered_ok t /\
  (forall unread, t_phase t = Open unread -> sumz (fun b => b) unread <= MAX_QUEUED_BYTES) /\
  (forall w b h, t_phase t = Waiting w b h -> sumz bytes_out w <= MAX_QUEUED_BYTES).
Proof.
  intros Hl Hr Ht. pose proof (inv_tasks _ _ (sockets_inv_reachable _ _ Hl Hr)) as Hall.
  rewrite Forall_forall in Hall. destruct (Hall t Ht) as (Hc & Hs & Hd). split; [done|]. unfold sent_ok in Hs.
  destruct (t_phase t) as [w b h|u|].
  - destruct Hs as (E & Esaid & -> & Hb). split; [exists [], []; rewrite E; split_and!; [done|apply prefix_nil|by left]|].
    split; [done|]. split; [done|]. by intros w' b' h' [= <- _ _].
  - destruct Hs as (E & Hn & Hu & Hb). split; [exists (t_sent t), []; rewrite app_nil_r, E; split_and!; [done|by eexists|by left]|].
    split; [done|]. split; [|done]. by intros u' [= <-].
  - by split_and!.
Qed.

(** What an instance of an object leaves: its hibernatable sockets, with
    their tags and attachments, and a close on each other one. The sockets of
    the other objects stay as they are. *)
Lemma instance_ended_keeps ns id key j x (s : state) :
  socket_of (sockets (instance_ended ns id s)) key j = Some x <->
  socket_of (sockets s) key j = Some x /\ (key = (ns, id) -> s_hibernatable x = true).
Proof.
  assert (Hw : forall x : Socket, String.eqb key.1 ns && String.eqb key.2 id && negb (s_hibernatable x) = false <->
    (key = (ns, id) -> s_hibernatable x = true)).
  { intros y. destruct key as [a b]. cbn. destruct (String.eqb_spec a ns), (String.eqb_spec b id), (s_hibernatable y);
      simpl; split; try done; intros; try naive_solver. }
  unfold instance_ended. split.
  - intros [Hx Hn]%socket_of_closed. split; [done|]. by apply Hw.
  - intros [Hx Hn]. unfold socket_of, close_where in *. cbn [sockets].
    apply option_Some_bind in Hx as (o & Ho & Hx).
    assert (Hx' : (filter (fun e => negb (String.eqb key.1 ns && String.eqb key.2 id && negb (s_hibernatable e.2))) o : gmap Z Socket) !! j = Some x).
    { apply map_lookup_filter_Some. split; [done|]. cbn. by rewrite (proj2 (Hw x) Hn). }
    erewrite (proj2 (map_lookup_filter_Some _ _ key _)); [exact Hx'|]. split.
    + by rewrite map_lookup_imap, Ho.
    + cbn. intros E. by rewrite E in Hx'.
Qed.

(** ** Witnesses *)

Definition ex_key : ObjectRef := ("ns", "a").
Definition acts (l : list action) (s : state) : state :=
  foldl (fun s a => default s (t ← tasks s !! 0%nat; act a 0 t s)) s l.

(** An object accepts a socket and writes before the client comes; the client
    comes, and writes; the object writes again and closes. *)
Definition ex_open : state :=
  acts [AWait (Ok tt); AGreet; AReceive (Some (IText "ping")) (Ok tt)]
    (attach ex_key 7 (send ex_key 7 (OText "hello") (accept ex_key 7 ["t"] true (init 2)).2)).2.
Definition ex_closed : state := acts [ASend; ASend] (send ex_key 7 (OClose 1000 "bye") (send ex_key 7 (OText "pong") ex_open)).

Lemma acts_reachable l s s0 : rtc step s0 s -> rtc step s0 (acts l s).
Proof.
  revert s. induction l as [|a l IH]; intros s Hs; [done|]. apply IH.
  destruct (tasks s !! 0%nat) as [t|] eqn:Et; [|done]. cbn [mbind option_bind]. destruct (act a 0 t s) as [s'|] eqn:Ea; [|done].
  eapply rtc_r; [exact Hs|]. by eapply step_task.
Qed.

Lemma ex_closed_reachable : rtc step (init 2) ex_closed.
Proof.
  apply acts_reachable. eapply rtc_r; [|apply step_send]. eapply rtc_r; [|apply step_send]. apply acts_reachable.
  eapply rtc_r; [|apply step_attach]. eapply rtc_r; [|apply step_send]. eapply rtc_r; [apply rtc_refl|].
  apply step_accept. constructor.
Defined.

Lemma open_sockets_hold_slots_witness :
  slots ex_closed + others ex_closed + countb alive (tasks ex_closed) = 2 /\ sockets ex_closed = ∅.
Proof.
  destruct (open_sockets_hold_slots 2 ex_closed ltac:(lia) ex_closed_reachable) as (_ & _ & H & _ & He).
  split; [exact H|]. apply He. vm_compute. reflexivity.
Defined.

Lemma socket_frames_in_order_witness :
  exists t, tasks ex_closed = [t] /\ t_sent t = [OText "hello"; OText "pong"; OClose 1000 "bye"] /\
    t_delivered t = [IText "ping"] /\ closes_last (t_said t).
Proof.
  eexists. split; [vm_compute; reflexivity|]. split; [reflexivity|]. split; [reflexivity|].
  apply (fun H => proj1 (socket_frames_in_order 2 ex_closed _ ltac:(lia) ex_closed_reachable H)).
  vm_compute. left.
Defined.
