(* ===== verification/Server.v ===== *)
(** * The HTTP server (src/bin/main.rs)

    A request on its way through the runner: the listener it came in on, the
    admin endpoints, the worker it is for, the limits, and the run. What a
    request does is a trace of effects; an early return, and a panic, end it.
    The caches, the database, the semaphores and the runtime answer through an
    environment. *)

From S2P Require Import Prelude RustStr Extern NetGuard Addr Store RequestBody Logs Metrics Url Ingress Storage Fetch WebSocket.

Inductive Listener : Type := Internal | Public.

#[export] Instance Listener_eq_dec : EqDecision Listener.
Proof. solve_decision. Defined.

Definition is_loopback (ip : IpAddr) : bool :=
  match ip with V4 a => v4_is_loopback a | V6 a => v6_is_loopback a end.

Definition contains_key {H} `{HeaderMap H} (name : string) (headers : H) : bool :=
  match hdr_get_all name headers with [] => false | _ => true end.

Definition is_some {A} (o : option A) : bool := match o with Some _ => true | None => false end.

(** The JSON of an object whose values are numbers and booleans. *)
Definition quoted (s : string) : string := String (ascii_of_nat 34) (s +:+ String (ascii_of_nat 34) "").
Definition json_object (fields : list (string * string)) : string :=
  "{" +:+ String.concat "," (map (fun kv => quoted kv.1 +:+ ":" +:+ kv.2) fields) +:+ "}".

(** The wait for a permit. *)
Inductive Acquired : Type := Permit | Closed | TimedOut.

Inductive Effect : Type :=
| Drained | ShutdownSent
| Counted (o : Outcome)
| WorkerPermit (worker_id : string) | WorkerPermitBack (worker_id : string)
| SocketSlot | SocketSlotBack | Traded
| Slot (timeout : Z)
| Ran (worker_id : string) (depth : Z)
| Cancelled.

#[export] Instance Effect_eq_dec : EqDecision Effect.
Proof. solve_decision. Defined.

(** The text of a reason in openworkers-core. *)
Class TerminationText := {
  http_status : TerminationReason -> Z;
  reason_display : TerminationReason -> string;
  reason_debug : TerminationReason -> string;
}.

(** ** Bodies that stream *)

Inductive Frame : Type := FData (data : string) | FOther | FError (e : string) | FTimeout.

(** The pieces handed to the worker. [room]: how many of them it takes before
    it lets go of the body. *)
Fixpoint pump_body (max_body total : Z) (room : nat) (frames : list Frame) : list (result string string) :=
  match room, frames with
  | O, _ | _, [] => []
  | S _, FTimeout :: _ => []
  | S _, FError e :: _ => [Err e]
  | S _, FOther :: rest => pump_body max_body total room rest
  | S room, FData data :: rest =>
    if max_body <? total + str_len data then [Err "Request body too large"]
    else Ok data :: pump_body max_body (total + str_len data) room rest
  end.

Section server.
Context {H N T : Type} {hm : HeaderMap H} {hv : HeaderValue} {names : HeaderNames} {hp : HyperParts H} {hs : Handshake}
  {ipnet : IpNet N} {libs : IngressLibs} {text : TerminationText}.

Local Abbreviation HttpReq := (Ingress.Request (HM := H)).

Record Response := mkResponse { status : Z; headers_of : H; body_of : string }.

Definition error_response (st : Z) (message : string) : Response :=
  mkResponse st (hdr_insert "content-type" "text/plain" hdr_empty) message.

Definition json_response (body : string) : Response :=
  mkResponse 200 (hdr_insert "content-type" "application/json" hdr_empty) body.

Definition admin_allowed (listener : Listener) (peer : Peer) (headers : H) : bool :=
  bool_decide (listener = Internal) &&
  match peer_ip peer with Some ip => is_loopback ip | None => false end &&
  negb (contains_key INTERNAL_ROUTE_HEADER headers).

Definition forwarded_scheme (headers : H) : string :=
  let v := v ← hdr_get "x-forwarded-proto" headers; v ← hv_to_str v; Some (trim (default v (head (split "," v)))) in
  match v with
  | Some v => if String.eqb v "https" || String.eqb v "http" then v else "http"
  | None => "http"
  end.

(** A request ends with an answer, or in a panic. *)
Inductive Halt : Type := Return (r : Response) | Panic.

Local Abbreviation Run A := (SE (list Effect) Halt A).

Definition note (e : Effect) : Run unit := fun tr => (Ok tt, tr ++ [e]).
Definition return_ {A} (r : Response) : Run A := throw (Return r).

Definition refuse {A} (st : Z) (reason message : string) : Run A :=
  _ ← note (Counted (Failed reason)); return_ (error_response st message).

(** What is given back when its scope ends. *)
Definition scoped {A} (back : Effect) (m : Run A) : Run A := fun tr =>
  let '(r, tr) := m tr in (r, tr ++ [back]).

Definition terminated_response (r : result unit TerminationReason) : option (Response * Outcome) :=
  match r with
  | Ok _ => Some (error_response 500
      "Worker completed but did not send a response (missing fetch event listener?)", Failed "no_response")
  | Err reason =>
    let resp := error_response (http_status reason) (reason_display reason) in
    value ← hv_from_str (reason_debug reason);
    Some (mkResponse (status resp) (hdr_insert "x-termination-reason" value (headers_of resp)) (body_of resp),
      terminated reason)
  end.

(** What the worker made of the request before the deadline: an answer, its end
    with no answer (the reason, when one came), or nothing. *)
Inductive Reply : Type := Replied (r : Response) | Gone (result : option (result unit TerminationReason)) | Late.

Record Environment := mkEnvironment {
  env_resolve : option string -> option string -> option string -> string ->
    result (option RequestResolution) SqlxError;
  env_worker : string -> result (option WorkerWithBindings) SqlxError;
  env_conn : result unit SqlxError;
  env_storage_config : string -> option StorageConfig;
  env_asset : StorageConfig -> string -> result Response string;
  env_worker_permit : string -> Acquired;
  env_socket_slot : bool;
  env_body : Z -> result string BodyError;
  env_slot : Z -> Acquired;
  env_switch : Response -> string -> Response;
  env_reply : WorkerWithBindings -> Reply }.

(** A request as it comes in. *)
Record Req := mkReq { r_version : Version; r_method : string; r_request : HttpReq }.

Definition header_str (name : string) (headers : H) : option string := v ← hdr_get name headers; hv_to_str v.

Section request.
Variable env : Environment.

Definition load_worker (worker_id missing : string) : Run WorkerWithBindings :=
  match env_worker env worker_id with
  | Ok (Some w) => mret w
  | Err _ => refuse 500 "db_unavailable" "Failed to load worker"
  | Ok None => refuse 500 "worker_not_found" missing
  end.

(** A file of the project, served from its storage. *)
Definition serve_asset {A} (res : RequestResolution) (path : string) : Run A :=
  id ← match rr_assets_storage_id res with
    | Some id => mret id
    | None => refuse 500 "assets_not_configured" "ASSETS storage config not found"
    end;
  _ ← match env_conn env with
    | Ok _ => mret tt
    | Err _ => refuse 500 "db_unavailable" "Failed to acquire database connection"
    end;
  config ← match env_storage_config env id with
    | Some config => mret config
    | None => refuse 500 "assets_not_configured" "Storage config not found"
    end;
  let request_path := match rr_asset_type res with Some t => storage_path t path | None => path end in
  match env_asset env config request_path with
  | Ok r =>
    let headers := match rr_asset_type res with
      | Some t => set_cache_control t (status r) (headers_of r)
      | None => headers_of r
      end in
    _ ← note (Counted Success);
    return_ (mkResponse (status r) headers (body_of r))
  | Err _ => refuse 500 "assets_fetch_failed" "Failed to fetch from storage"
  end.

Definition find_worker (headers : H) (path : string) : Run WorkerWithBindings :=
  resolution ← match env_resolve env (Ingress.host headers) (header_str "x-worker-id" headers)
      (header_str "x-worker-name" headers) path with
    | Ok r => mret r
    | Err _ => refuse 500 "db_unavailable" "Failed to resolve request"
    end;
  match resolution with
  | None => refuse 502 "no_worker" "No worker or project found for request"
  | Some res =>
    backend ← match rr_backend_type res with
      | Some bt => mret bt
      | None =>
        match rr_worker_id res, rr_project_id res with
        | None, None => refuse 502 "no_worker" "No worker or project found for request"
        | _, _ => refuse 404 "route_not_found" "Not Found"
        end
      end;
    match rr_project_id res, rr_worker_id res with
    | Some _, worker_id =>
      match backend with
      | BackendWorker =>
        match worker_id with
        | Some id => load_worker id "Route has worker backend but worker not found"
        | None => refuse 500 "route_without_worker" "Route has worker backend but no worker_id"
        end
      | BackendStorage => serve_asset res path
      end
    | None, Some id => load_worker id "Route has worker_id but worker not found"
    | None, None => refuse 500 "unresolvable" "Invalid resolution: no worker_id or project_id"
    end
  end.

(** The upgrade of the request, with a slot for its socket. *)
Definition accept_upgrade (req : Req) : Run (option string) :=
  match upgrade (r_version req) (r_method req) (Ingress.rq_headers (r_request req)) with
  | UpNone => mret None
  | UpAccept accept =>
    if env_socket_slot env then _ ← note SocketSlot; mret (Some accept)
    else refuse 503 "websocket_limit" "Too many open WebSockets"
  | UpRefused st message =>
    _ ← note (Counted (Failed "bad_upgrade"));
    let r := error_response st message in
    return_ (if st =? 426 then mkResponse (status r) (hdr_insert "sec-websocket-version" "13" (headers_of r)) (body_of r)
      else r)
  end.

(** The body; a streaming one is read while the worker runs. *)
Definition read_request (upgrading : bool) (max_body : Z) (headers : H) : Run unit :=
  if contains_key "x-request-body-stream" headers && negb upgrading then mret tt else
  match env_body env max_body with
  | Ok _ => mret tt
  | Err TooLarge => refuse 413 "body_too_large" "Request body too large"
  | Err (ReadError _) => refuse 400 "bad_request_body" "Failed to read request body"
  end.

(** The headers the worker sees. *)
Definition worker_headers (worker : WorkerWithBindings) (headers : H) : gmap string string :=
  let hs := hyper_headers headers in
  let hs := match hs !! "x-worker-id" with None => <["x-worker-id" := wb_id worker]> hs | Some _ => hs end in
  match hs !! "x-worker-name", wb_name worker with
  | None, Some name => <["x-worker-name" := name]> hs
  | _, _ => hs
  end.

Definition take_slot (wait_timeout depth : Z) : Run unit :=
  let timeout := if 0 <? depth then 0 else wait_timeout in
  match env_slot env timeout with
  | Permit => note (Slot timeout)
  | Closed => refuse 500 "semaphore_closed" "Internal server error"
  | TimedOut => refuse 503 "overloaded" "Server is overloaded, please try again later"
  end.

(** The answer, what it is counted as, and whether the socket slot was traded
    for the slot of the task. *)
Definition await_reply (worker : WorkerWithBindings) (accept : option string) : Run (Response * Outcome * bool) :=
  match env_reply env worker, accept with
  | Replied r, Some accept =>
    if status r =? 101 then _ ← note Traded; mret (env_switch env r accept, Success, true)
    else mret (r, Success, false)
  | Replied r, None => mret (r, Success, false)
  | Gone result, _ =>
    match terminated_response (default (Err (Other "Unknown error")) result) with
    | Some (r, o) => mret (r, o, false)
    | None => throw Panic
    end
  | Late, _ =>
    _ ← note Cancelled;
    match terminated_response (Err WallClockTimeout) with
    | Some (r, o) => mret (r, o, false)
    | None => throw Panic
    end
  end.

(** The socket slot goes back with the scope, unless it was traded. *)
Definition holding_socket {A} (accept : option string) (m : Run (A * bool)) : Run A := fun tr =>
  match m tr with
  | (Ok (a, traded), tr) => (Ok a, if is_some accept then if (traded : bool) then tr else tr ++ [SocketSlotBack] else tr)
  | (Err h, tr) => (Err h, if is_some accept then tr ++ [SocketSlotBack] else tr)
  end.

(** From the worker's permit on. *)
Definition run_worker (max_request_body wait_timeout : Z) (req : Req) (worker : WorkerWithBindings) : Run Response :=
  let headers := Ingress.rq_headers (r_request req) in
  let max_body := match rq_limit (r_request req) with
    | Some limit => Z.max (body_limit limit) max_request_body
    | None => max_request_body
    end in
  if announces_more_than headers max_body then refuse 413 "body_too_large" "Request body too large" else
  accept ← accept_upgrade req;
  holding_socket accept (
    _ ← read_request (is_some accept) max_body headers;
    let depth := call_depth (worker_headers worker headers) in
    if MAX_CALL_DEPTH <? depth then refuse 508 "call_depth" "Too many nested worker-to-worker calls" else
    _ ← take_slot wait_timeout depth;
    _ ← note (Ran (wb_id worker) depth);
    '(r, o, traded) ← await_reply worker accept;
    _ ← note (Counted o);
    mret (r, traded)).

Definition handle_worker_request (max_request_body wait_timeout : Z) (req : Req) : Run Response :=
  worker ← find_worker (Ingress.rq_headers (r_request req)) (uri_path (rq_uri (r_request req)));
  match env_worker_permit env (wb_id worker) with
  | Permit =>
    _ ← note (WorkerPermit (wb_id worker));
    scoped (WorkerPermitBack (wb_id worker)) (run_worker max_request_body wait_timeout req worker)
  | Closed => refuse 500 "semaphore_closed" "Internal server error"
  | TimedOut => refuse 429 "worker_concurrency_limit" "Too many concurrent requests for this worker"
  end.

(** The runner as the request finds it. [pool_stats]: the numbers of the isolate
    pool; [serve_logs]: the answer of the log endpoints. *)
Record Runner := mkRunner {
  draining : bool; active_tasks : Z; pool_stats : string;
  max_request_body : Z; wait_timeout : Z; server_header : string; serve_logs : HttpReq -> Z -> Logs.Stream -> Response }.

Variable runner : Runner.

(** The admin endpoints, or nothing. *)
Definition admin (req : Req) : Run unit :=
  let path := uri_path (rq_uri (r_request req)) in
  let get := String.eqb (r_method req) "GET" in
  if String.eqb path "/health" then return_ (mkResponse 200 hdr_empty "OK") else
  if String.eqb path "/admin/drain" && String.eqb (r_method req) "POST" then
    _ ← note Drained;
    _ ← (if active_tasks runner =? 0 then note ShutdownSent else mret tt);
    return_ (json_response (json_object [("draining", "true")]))
  else if String.eqb path "/admin/tasks" && get
  then return_ (json_response (json_object [("active_tasks", show_Z (active_tasks runner))]))
  else if String.eqb path "/admin/stats" && get
  then return_ (json_response (json_object [("active_tasks", show_Z (active_tasks runner));
    ("draining", if draining runner then "true" else "false")]))
  else if String.eqb path "/admin/pool" && get
  then return_ (json_response (pool_stats runner))
  else mret tt.

Definition handle_request (peer : Peer) (listener : Listener) (req : Req) : Run Response :=
  let headers := Ingress.rq_headers (r_request req) in
  _ ← (if admin_allowed listener peer headers then admin req else mret tt);
  if draining runner then return_ (error_response 503 "503 - Runner is draining - not accepting new requests") else
  match hdr_get "x-request-id" headers with
  | None => return_ (error_response 400 "Missing request id")
  | Some value =>
    match hv_to_str value with
    | None => return_ (error_response 400 "Invalid x-request-id header encoding")
    | Some _ => handle_worker_request (max_request_body runner) (wait_timeout runner) req
    end
  end.

(** An answer that came by a return is an answer. *)
Definition answered (m : Run Response) : SE (list Effect) Halt Response := fun tr =>
  match m tr with
  | (Err (Return r), tr) => (Ok r, tr)
  | out => out
  end.

(** [uuid]: the fresh request id. *)
Definition public_request (config : @Config N T) (uuid : string) (peer : Peer) (req : Req) (tls : bool) : Run Response :=
  match prepare config uuid (r_request req) peer tls with
  | None => throw Panic
  | Some (route, prepared) =>
    match hdr_get "x-request-id" (Ingress.rq_headers prepared) with
    | None => throw Panic
    | Some request_id =>
      response ← match route with
        | RWorker => answered (handle_request peer Public (mkReq (r_version req) (r_method req) prepared))
        | RLogs worker_id stream => mret (serve_logs runner prepared worker_id stream)
        | RLatency => mret (mkResponse 200 hdr_empty "OK")
        | RProbe => mret (error_response 404 "Not Found")
        | RBadHost => mret (error_response 400 "Invalid Host")
        end;
      mret (mkResponse (status response)
        (hdr_insert "server" (server_header runner) (hdr_insert "x-request-id" request_id (headers_of response)))
        (body_of response))
    end
  end.

(** The service of a connection. *)
Definition serve_request (config : @Config N T) (uuid : string) (listener : Listener) (peer : Peer) (tls : bool)
  (req : Req) : Run Response :=
  match listener with
  | Public => public_request config uuid peer req tls
  | Internal =>
    let q := r_request req in
    let headers := Ingress.rq_headers q in
    let headers := if contains_key "x-request-id" headers then headers else hdr_insert "x-request-id" uuid headers in
    answered (handle_request peer Internal (mkReq (r_version req) (r_method req) (set_headers headers q)))
  end.
End request.
End server.

(** ** What a request takes it gives back, and it is counted once *)

Record Tally := mkTally { t_counted : Z; t_sockets : Z; t_permits : Z; t_ran : Z }.

Definition weight (e : Effect) : Tally :=
  match e with
  | Counted _ => mkTally 1 0 0 0
  | SocketSlot => mkTally 0 1 0 0
  | SocketSlotBack | Traded => mkTally 0 (-1) 0 0
  | WorkerPermit _ => mkTally 0 0 1 0
  | WorkerPermitBack _ => mkTally 0 0 (-1) 0
  | Ran _ _ => mkTally 0 0 0 1
  | _ => mkTally 0 0 0 0
  end.

Definition tadd (a b : Tally) : Tally :=
  mkTally (t_counted a + t_counted b) (t_sockets a + t_sockets b) (t_permits a + t_permits b) (t_ran a + t_ran b).

Definition tally (base : Tally) (l : list Effect) : Tally := foldl (fun t e => tadd t (weight e)) base l.

Lemma tally_app b l k : tally b (l ++ k) = tally (tally b l) k.
Proof. apply foldl_app. Qed.

Section specs.
Context {H N T : Type} {hm : HeaderMap H} {hv : HeaderValue} {names : HeaderNames} {hp : HyperParts H} {hs : Handshake}
  {ipnet : IpNet N} {libs : IngressLibs} {text : TerminationText}.

Local Abbreviation Run A := (SE (list Effect) (@Halt H) A).

(** [m] only does what [ok] allows, and takes a tally [b] to one where [post]
    holds of its value, or [dn] of its end. *)
Definition spec {A} (ok : Effect -> Prop) (b : Tally) (post : A -> Tally -> Prop) (dn : @Halt H -> Tally -> Prop)
  (m : Run A) : Prop :=
  forall tr r tr', m tr = (r, tr') -> exists new, tr' = tr ++ new /\ Forall ok new /\
    match r with Ok a => post a (tally b new) | Err h => dn h (tally b new) end.

Lemma spec_ret {A} ok b (post : A -> Tally -> Prop) dn (a : A) : post a b -> spec ok b post dn (mret a).
Proof. intros Hp tr r tr' [= <- <-]. exists []. rewrite app_nil_r. split_and!; [done|constructor|done]. Qed.

Lemma spec_throw {A} ok b (post : A -> Tally -> Prop) dn h : dn h b -> spec ok b post dn (throw h).
Proof. intros Hp tr r tr' [= <- <-]. exists []. rewrite app_nil_r. split_and!; [done|constructor|done]. Qed.

Lemma spec_note ok b post dn e : ok e -> post tt (tadd b (weight e)) -> spec ok b post dn (note e).
Proof. intros Hok Hp tr r tr' [= <- <-]. exists [e]. split_and!; [done|by constructor|done]. Qed.

Lemma spec_bind {A B} ok b (P : A -> Tally -> Prop) (Q : B -> Tally -> Prop) dn (m : Run A) (f : A -> Run B) :
  spec ok b P dn m -> (forall a t, P a t -> spec ok t Q dn (f a)) -> spec ok b Q dn (m ≫= f).
Proof.
  intros Hm Hf tr r tr' [(a & s1 & E1 & E2)|(h & E & ->)]%SE_bind_inv.
  - destruct (Hm _ _ _ E1) as (n1 & -> & Hok1 & Hp). destruct (Hf _ _ Hp _ _ _ E2) as (n2 & -> & Hok2 & Hq).
    exists (n1 ++ n2). rewrite app_assoc, tally_app. split_and!; [done|by apply Forall_app|done].
  - destruct (Hm _ _ _ E) as (n1 & -> & Hok1 & Hp). by exists n1.
Qed.

Lemma spec_refuse {A} ok b (post : A -> Tally -> Prop) dn st reason message :
  ok (Counted (Failed reason)) -> dn (Return (error_response st message)) (tadd b (weight (Counted (Failed reason)))) ->
  spec ok b post dn (refuse st reason message).
Proof.
  intros Hok Hd. eapply spec_bind; [apply (spec_note _ _ (fun _ t => t = tadd b (weight (Counted (Failed reason))))); done|].
  intros _ t ->. by apply spec_throw.
Qed.

Lemma spec_scoped {A} ok b (post : A -> Tally -> Prop) dn back (m : Run A) : ok back ->
  spec ok b (fun a t => post a (tadd t (weight back))) (fun h t => dn h (tadd t (weight back))) m ->
  spec ok b post dn (scoped back m).
Proof.
  intros Hok Hm tr r tr'. unfold scoped. destruct (m tr) as [r1 tr1] eqn:E. intros [= <- <-].
  destruct (Hm _ _ _ E) as (new & -> & Hn & Hp). exists (new ++ [back]). rewrite app_assoc, tally_app. simpl.
  split_and!; [done|apply Forall_app; split; [done|by constructor]|]. by destruct r1.
Qed.

Lemma spec_weaken {A} ok b (P Q : A -> Tally -> Prop) (dn dn' : @Halt H -> Tally -> Prop) (m : Run A) :
  spec ok b P dn m -> (forall a t, P a t -> Q a t) -> (forall h t, dn h t -> dn' h t) -> spec ok b Q dn' m.
Proof.
  intros Hm Hpq Hd tr r tr' E. destruct (Hm _ _ _ E) as (new & -> & Hn & Hp). exists new. split_and!; [done..|].
  destruct r; eauto.
Qed.

(** Counted once when it ends, and not in a panic; the tally is otherwise as
    it was. *)
Definition ended (b : Tally) (h : @Halt H) (t : Tally) : Prop :=
  t_counted t = t_counted b + (match h with Return _ => 1 | Panic => 0 end) /\
  t_sockets t = t_sockets b /\ t_permits t = t_permits b /\ 0 <= t_ran t - t_ran b <= 1.

Definition same (b t : Tally) : Prop :=
  t_counted t = t_counted b /\ t_sockets t = t_sockets b /\ t_permits t = t_permits b /\ t_ran t = t_ran b.

Lemma same_refl b : same b b.
Proof. done. Qed.

Ltac tallies := unfold ended, same in *; simpl in *; intuition (try lia).
Ltac refused := apply spec_refuse; [done|tallies].

Variable env : @Environment H.
Variable ok : Effect -> Prop.
Hypothesis ok_counted : forall o, ok (Counted o).

Lemma load_worker_spec b id missing : spec ok b (fun _ t => same b t) (ended b) (load_worker env id missing).
Proof. unfold load_worker. destruct (env_worker env id) as [[w|]|]; [by apply spec_ret|refused..]. Qed.

Lemma serve_asset_spec {A} b res path : spec (A := A) ok b (fun _ t => same b t) (ended b) (serve_asset env res path).
Proof.
  unfold serve_asset. eapply spec_bind with (P := fun _ t => same b t).
  { destruct (rr_assets_storage_id res); [by apply spec_ret|refused]. }
  intros id t Ht. eapply spec_bind with (P := fun _ t => same b t).
  { destruct (env_conn env); [by apply spec_ret|refused]. }
  intros _ t1 Ht1. eapply spec_bind with (P := fun _ t => same b t).
  { destruct (env_storage_config env id); [by apply spec_ret|refused]. }
  intros config t2 Ht2. destruct (env_asset env config _) as [r|]; [|refused].
  eapply spec_bind; [apply (spec_note _ _ (fun _ t => t = tadd t2 (weight (Counted Success)))); done|].
  intros _ t3 ->. apply spec_throw. tallies.
Qed.

Lemma find_worker_spec b headers path : spec ok b (fun _ t => same b t) (ended b) (find_worker env headers path).
Proof.
  unfold find_worker. eapply spec_bind with (P := fun _ t => same b t).
  { destruct (env_resolve env _ _ _ path); [by apply spec_ret|refused]. }
  intros [res|] t Ht; [|refused]. eapply spec_bind with (P := fun _ t => same b t).
  { destruct (rr_backend_type res); [by apply spec_ret|].
    destruct (rr_worker_id res), (rr_project_id res); refused. }
  intros backend t1 Ht1.
  assert (Hl : forall id missing, spec ok t1 (fun _ t => same b t) (ended b) (load_worker env id missing)).
  { intros id missing. eapply spec_weaken; [apply load_worker_spec|tallies..]. }
  destruct (rr_project_id res), (rr_worker_id res); try destruct backend; try apply Hl; try refused;
    (eapply spec_weaken; [apply serve_asset_spec|tallies..]).
Qed.

Hypothesis ok_sockets : ok SocketSlot /\ ok SocketSlotBack /\ ok Traded /\ ok Cancelled.

Definition taken (b : Tally) (accept : option string) (t : Tally) : Prop :=
  t_counted t = t_counted b /\ t_sockets t = t_sockets b + (if is_some accept then 1 else 0) /\
  t_permits t = t_permits b /\ t_ran t = t_ran b.

Lemma accept_upgrade_spec b req : spec ok b (taken b) (ended b) (accept_upgrade env req).
Proof.
  unfold accept_upgrade. destruct (upgrade _ _ _) as [|accept|st message]; [apply spec_ret; unfold taken; tallies| |].
  - destruct (env_socket_slot env); [|refused].
    eapply spec_bind; [apply (spec_note _ _ (fun _ t => t = tadd b (weight SocketSlot))); [apply ok_sockets|done]|].
    intros _ t ->. apply spec_ret. unfold taken. tallies.
  - eapply spec_bind; [apply (spec_note _ _ (fun _ t => t = tadd b (weight (Counted (Failed "bad_upgrade"))))); done|].
    intros _ t ->. apply spec_throw. tallies.
Qed.

Lemma read_request_spec b upgrading max_body headers :
  spec ok b (fun _ t => same b t) (ended b) (read_request env upgrading max_body headers).
Proof.
  unfold read_request. destruct (_ && _); [by apply spec_ret|].
  destruct (env_body env max_body) as [|[]]; [by apply spec_ret|refused..].
Qed.

Lemma take_slot_spec b wait_timeout depth : ok (Slot (if 0 <? depth then 0 else wait_timeout)) ->
  spec ok b (fun _ t => same b t) (ended b) (take_slot env wait_timeout depth).
Proof.
  intros Hs. unfold take_slot. destruct (env_slot env _); [|refused..]. apply spec_note; [done|]. tallies.
Qed.

Lemma await_reply_spec b worker accept : t_ran b = 1 -> 
  spec ok b (fun '(_, _, traded) t => t_counted t = t_counted b /\ t_permits t = t_permits b /\ t_ran t = t_ran b /\
      t_sockets t = t_sockets b - (if (traded : bool) then 1 else 0) /\ (traded = true -> is_some accept = true))
    (fun h t => h = Panic /\ same b t) (await_reply env worker accept).
Proof.
  intros Hb. destruct ok_sockets as (? & ? & ? & ?).
  assert (Ht : forall t result, same b t -> spec ok t
    (fun '(_, _, traded) t => t_counted t = t_counted b /\ t_permits t = t_permits b /\ t_ran t = t_ran b /\
      t_sockets t = t_sockets b - (if (traded : bool) then 1 else 0) /\ (traded = true -> is_some accept = true))
    (fun h t => h = Panic /\ same b t)
    match terminated_response result with Some (r, o) => mret (r, o, false) | None => throw Panic end).
  { intros t result Hs. destruct (terminated_response result) as [[r o]|]; [apply spec_ret; tallies|by apply spec_throw]. }
  unfold await_reply. destruct (env_reply env worker) as [r|result|].
  - destruct accept as [accept|]; [|apply spec_ret; tallies]. destruct (status r =? 101); [|apply spec_ret; tallies].
    eapply spec_bind; [apply (spec_note _ _ (fun _ t => t = tadd b (weight Traded))); done|].
    intros _ t ->. apply spec_ret. tallies.
  - by apply Ht.
  - eapply spec_bind; [apply (spec_note _ _ (fun _ t => t = tadd b (weight Cancelled))); done|].
    intros _ t ->. apply Ht. tallies.
Qed.

Lemma holding_socket_spec {A} b (post : A -> Tally -> Prop) dn accept (m : Run (A * bool)) :
  spec ok b (fun '(a, traded) t => post a (if is_some accept && negb traded then tadd t (weight SocketSlotBack) else t))
    (fun h t => dn h (if is_some accept then tadd t (weight SocketSlotBack) else t)) m ->
  spec ok b post dn (holding_socket accept m).
Proof.
  intros Hm tr r tr'. unfold holding_socket. destruct (m tr) as [r1 tr1] eqn:E.
  destruct (Hm _ _ _ E) as (new & -> & Hn & Hp).
  assert (Hback : forall x, Forall ok (new ++ [SocketSlotBack]) /\
    (tr ++ new) ++ [SocketSlotBack] = tr ++ new ++ [SocketSlotBack] /\
    tally x (new ++ [SocketSlotBack]) = tadd (tally x new) (weight SocketSlotBack)).
  { intros x. rewrite tally_app, app_assoc. split_and!; [|done..]. apply Forall_app. split; [done|].
    constructor; [apply ok_sockets|done]. }
  destruct (Hback b) as (Hok & Ha & Hta).
  destruct r1 as [[a []]|h]; destruct (is_some accept); simpl in *; intros [= <- <-];
    try (by exists new); exists (new ++ [SocketSlotBack]); by rewrite Hta.
Qed.

(** The run of a worker that has its permit. *)
Lemma run_worker_spec b max_body wait req worker :
  let depth := call_depth (worker_headers worker (Ingress.rq_headers (r_request req))) in
  t_ran b = 0 -> (depth <= MAX_CALL_DEPTH -> ok (Ran (wb_id worker) depth)) ->
  ok (Slot (if 0 <? depth then 0 else wait)) ->
  spec ok b (fun r t => ended b (Return r) t) (ended b) (run_worker env max_body wait req worker).
Proof.
  intros depth Hb Hran Hslot. unfold run_worker. destruct (announces_more_than _ _); [refused|].
  eapply spec_bind; [apply accept_upgrade_spec|]. intros accept t Ht. apply holding_socket_spec.
  assert (Hclose : forall (h : @Halt H) t' n, t_counted t' = t_counted b + n -> t_permits t' = t_permits b ->
    t_sockets t' = t_sockets t -> 0 <= t_ran t' <= 1 -> n = (match h with Return _ => 1 | Panic => 0 end) ->
    ended b h (if is_some accept then tadd t' (weight SocketSlotBack) else t')).
  { intros h t' n. unfold taken, ended in *. destruct (is_some accept); simpl in *; intuition lia. }
  assert (Hdn : forall t1 h t', same t t1 -> ended t1 h t' ->
    ended b h (if is_some accept then tadd t' (weight SocketSlotBack) else t')).
  { intros t1 h t' Hs He. unfold taken, same, ended in Ht, Hs, He. eapply Hclose with (n := match h with Return _ => 1 | Panic => 0 end);
      intuition lia. }
  eapply spec_bind with (P := fun _ t1 => same t t1).
  { eapply spec_weaken; [apply read_request_spec|done|]. intros h t1. by apply Hdn. }
  intros _ t1 Ht1. cbv zeta. fold depth. destruct (Z.ltb_spec MAX_CALL_DEPTH depth).
  { apply spec_refuse; [done|]. apply (Hdn t1); [done|]. tallies. }
  eapply spec_bind with (P := fun _ t2 => same t t2).
  { eapply spec_weaken; [by apply take_slot_spec|tallies|]. intros h t2. by apply Hdn. }
  intros _ t2 Ht2. eapply spec_bind; [apply (spec_note _ _ (fun _ t => t = tadd t2 (weight (Ran (wb_id worker) depth)))); auto|].
  intros _ t3 ->. eapply spec_bind.
  { eapply spec_weaken; [apply await_reply_spec|intros a t' Hx; exact Hx|].
    - unfold taken, same in *. simpl. intuition lia.
    - intros h t' [-> Hs]. apply (Hclose _ _ 0); unfold taken, same in *; simpl in *; intuition lia. }
  intros [[r o] traded] t4 (H1 & H2 & H3 & H4 & H5).
  eapply spec_bind; [apply (spec_note _ _ (fun _ t => t = tadd t4 (weight (Counted o)))); done|].
  intros _ t5 ->. apply spec_ret. unfold taken, same, ended in *. simpl in *.
  destruct traded; [rewrite H5 in * by done; simpl|destruct (is_some accept); simpl]; intuition lia.
Qed.
End specs.

Section server_props.
Context {H N T : Type} {hm : HeaderMap H} {hv : HeaderValue} {names : HeaderNames} {hp : HyperParts H} {hs : Handshake}
  {ipnet : IpNet N} {libs : IngressLibs} {text : TerminationText}.
Implicit Types (env : @Environment H) (req : @Req H) (runner : @Runner H) (config : @Config N T).

Definition depth_of (req : @Req H) : Z := call_depth (hyper_headers (Ingress.rq_headers (r_request req))).

Lemma worker_headers_depth worker (headers : H) : call_depth (worker_headers worker headers) = call_depth (hyper_headers headers).
Proof.
  unfold call_depth, worker_headers. cbv zeta.
  assert (Hi : forall k v (m : gmap string string) n, k <> n -> <[k := v]> m !! n = m !! n)
    by (intros; by apply lookup_insert_ne).
  destruct (hyper_headers headers !! "x-worker-id"); destruct (_ !! "x-worker-name"), (wb_name worker);
    rewrite ?Hi by done; done.
Qed.

(** What a request for a worker may do. *)
Definition worker_effect (wait : Z) (req : @Req H) (e : Effect) : Prop :=
  match e with
  | Ran _ d => d = depth_of req /\ d <= MAX_CALL_DEPTH
  | Slot t => t = if 0 <? depth_of req then 0 else wait
  | Drained | ShutdownSent => False
  | _ => True
  end.

Definition no_tally : Tally := mkTally 0 0 0 0.

Lemma handle_worker_request_spec env max_body wait req :
  spec (worker_effect wait req) no_tally (fun r t => ended no_tally (Return r) t) (ended no_tally)
    (handle_worker_request env max_body wait req).
Proof.
  unfold handle_worker_request. eapply spec_bind; [by apply find_worker_spec|]. intros worker t Ht.
  assert (Hr : forall st reason message,
    spec (A := @Response H) (worker_effect wait req) t (fun r t => ended no_tally (Return r) t) (ended no_tally)
      (refuse st reason message)).
  { intros. apply spec_refuse; [done|]. unfold ended, same in *. simpl in *. intuition lia. }
  destruct (env_worker_permit env (wb_id worker)); [|apply Hr..].
  eapply spec_bind; [apply (spec_note _ _ (fun _ x => x = tadd t (weight (WorkerPermit (wb_id worker))))); done|].
  intros _ t1 ->. apply spec_scoped; [done|].
  eapply spec_weaken; [apply run_worker_spec|..]; try done.
  - unfold same in Ht. simpl in *. intuition lia.
  - intros Hd. split; [apply worker_headers_depth|done].
  - simpl. unfold depth_of. by rewrite worker_headers_depth.
  - intros r t2. unfold ended, same in *. simpl in *. intuition lia.
  - intros h t2. unfold ended, same in *. simpl in *. intuition lia.
Qed.

(** C7. A request for a worker is accounted for on every path: whatever the
    caches, the database, the semaphores, the body and the worker answer, it is
    counted once, unless it ends in a panic; it gives back its permit of the
    worker and the slot of its socket, or trades it; the worker runs at most
    once, at the depth of the request and never past the limit, and a call of
    another worker takes a free slot or none. *)
Theorem request_accounted env max_body wait req r tr : handle_worker_request env max_body wait req [] = (r, tr) ->
  let t := tally no_tally tr in
  t_counted t = match r with Err Panic => 0 | _ => 1 end /\ t_sockets t = 0 /\ t_permits t = 0 /\ 0 <= t_ran t <= 1 /\
  Forall (worker_effect wait req) tr.
Proof.
  intros E. destruct (handle_worker_request_spec env max_body wait req _ _ _ E) as (new & -> & Hok & Hend). simpl.
  unfold ended in Hend. destruct r as [r|[r|]]; simpl in *; intuition (try lia).
Qed.

(** ** Administration *)

Definition not_admin (e : Effect) : Prop := e <> Drained /\ e <> ShutdownSent.

Lemma spec_impl {A} (ok ok' : Effect -> Prop) b (post : A -> Tally -> Prop) dn (m : SE (list Effect) (@Halt H) A) :
  spec ok b post dn m -> (forall e, ok e -> ok' e) -> spec ok' b post dn m.
Proof.
  intros Hm Hi tr r tr' E. destruct (Hm _ _ _ E) as (new & -> & Hn & Hp). exists new. split_and!; [done| |done].
  by eapply Forall_impl.
Qed.

Lemma answered_inv (m : SE (list Effect) (@Halt H) (@Response H)) tr r tr' : answered m tr = (r, tr') -> exists r', m tr = (r', tr').
Proof. unfold answered. destruct (m tr) as [[?|[]] ?]; intros; simplify_eq; eauto. Qed.

(** A request that is refused administration is a request for a worker. *)
Lemma handle_request_no_admin env runner peer listener req tr r tr' :
  admin_allowed listener peer (Ingress.rq_headers (r_request req)) = false ->
  handle_request env runner peer listener req tr = (r, tr') ->
  exists new, tr' = tr ++ new /\ Forall (worker_effect (wait_timeout runner) req) new.
Proof.
  intros Ha. unfold handle_request. rewrite Ha. unfold mbind, SE_bind, mret, SE_ret.
  assert (H0 : forall h, throw (A := @Response H) h tr = (r, tr') -> exists new, tr' = tr ++ new /\
    Forall (worker_effect (wait_timeout runner) req) new).
  { intros h [= _ <-]. exists []. rewrite app_nil_r. by split; [|constructor]. }
  destruct (draining runner); [apply H0|]. destruct (hdr_get _ _) as [v|]; [|apply H0].
  destruct (hv_to_str v); [|apply H0]. intros E.
  destruct (handle_worker_request_spec _ _ _ _ _ _ _ E) as (new & -> & Hn & _). by exists new.
Qed.

(** The request the internal listener hands on. *)
Definition with_request_id (uuid : string) (req : @Req H) : @Req H :=
  let q := r_request req in
  let headers := Ingress.rq_headers q in
  mkReq (r_version req) (r_method req)
    (set_headers (if contains_key "x-request-id" headers then headers else hdr_insert "x-request-id" uuid headers) q).

Lemma serve_request_effects env runner config uuid listener peer tls req r tr :
  serve_request env runner config uuid listener peer tls req [] = (r, tr) ->
  (listener = Public -> tr = [] \/ exists q, prepare config uuid (r_request req) peer tls = Some (RWorker, q) /\
     Forall (worker_effect (wait_timeout runner) (mkReq (r_version req) (r_method req) q)) tr) /\
  (listener = Internal -> admin_allowed Internal peer (Ingress.rq_headers (r_request (with_request_id uuid req))) = false ->
     Forall (worker_effect (wait_timeout runner) (with_request_id uuid req)) tr).
Proof.
  intros E. split.
  - intros ->. cbn [serve_request] in E. unfold public_request in E.
    destruct (prepare config uuid (r_request req) peer tls) as [[route q]|] eqn:Ep; [|left; by injection E as _ <-].
    destruct (hdr_get _ _); [|left; by injection E as _ <-].
    apply SE_bind_inv in E as [(resp & tr1 & E1 & E2)|(h & E1 & ->)]; [injection E2 as _ <-|].
    + destruct route; try (left; by injection E1 as _ <-). right. exists q. split; [done|].
      apply answered_inv in E1 as [r1 E1]. by apply handle_request_no_admin in E1 as (new & -> & Hn).
    + destruct route; try (left; by injection E1 as _ <-). right. exists q. split; [done|].
      apply answered_inv in E1 as [r1 E1]. by apply handle_request_no_admin in E1 as (new & -> & Hn).
  - intros -> Ha. cbn [serve_request] in E. apply answered_inv in E as [r1 E].
    by apply handle_request_no_admin in E as (new & -> & Hn).
Qed.

Lemma contains_key_insert n m v (headers : H) : n <> m -> contains_key n (hdr_insert m v headers) = contains_key n headers.
Proof. intros Hne. unfold contains_key. rewrite hdr_get_all_insert. by rewrite decide_False. Qed.

Lemma with_request_id_values uuid (req : @Req H) n : n <> "x-request-id" ->
  hdr_get_all n (Ingress.rq_headers (r_request (with_request_id uuid req))) =
  hdr_get_all n (Ingress.rq_headers (r_request req)).
Proof.
  intros Hn. simpl. destruct (contains_key _ _); [done|]. rewrite hdr_get_all_insert. by rewrite decide_False.
Qed.

(** The same runner with other numbers to tell. *)
Definition with_numbers (active : Z) (stats : string) (runner : @Runner H) : @Runner H :=
  mkRunner (draining runner) active stats (max_request_body runner) (wait_timeout runner) (server_header runner)
    (serve_logs runner).

Lemma handle_request_numbers env runner peer listener req active stats :
  admin_allowed listener peer (Ingress.rq_headers (r_request req)) = false ->
  handle_request env runner peer listener req = handle_request env (with_numbers active stats runner) peer listener req.
Proof. intros Ha. unfold handle_request. by rewrite Ha. Qed.

Context {U : Type} {url : UrlLib U}.

(** C1. A worker cannot administer the runner: a request the runner routes to
    itself for a worker, with whatever headers the worker gave it, reaches no
    admin endpoint on any listener and from any peer; it neither starts a drain
    nor learns the numbers of the runner, which can be any others with the same
    outcome. *)
Theorem guest_never_administers port uuid domains d request routed order extra ctx
  env runner config request_id listener peer tls req r tr :
  routed_for port uuid domains d request routed -> order ≡ₚ map_to_list (Fetch.rq_headers routed) ->
  wire_headers order extra ctx = Some (Ingress.rq_headers (r_request req)) ->
  serve_request env runner config request_id listener peer tls req [] = (r, tr) ->
  (Drained ∉ tr) /\ (ShutdownSent ∉ tr) /\
  forall active stats,
    serve_request env (with_numbers active stats runner) config request_id listener peer tls req [] = (r, tr).
Proof.
  intros Hr Ho Hw E.
  pose proof (routed_marked _ _ _ _ _ _ _ _ _ _ Hr Ho Hw) as Hmark.
  assert (Ha : admin_allowed Internal peer (Ingress.rq_headers (r_request (with_request_id request_id req))) = false).
  { unfold admin_allowed, contains_key. rewrite with_request_id_values by done.
    destruct (hdr_get_all _ _); [done|]. by rewrite andb_false_r. }
  destruct (serve_request_effects _ _ _ _ _ _ _ _ _ _ E) as [Hp Hi].
  assert (Hn : forall e, e ∈ tr -> not_admin e).
  { assert (Hf : forall w q, Forall (worker_effect w q) tr -> forall e, e ∈ tr -> not_admin e).
    { intros w q Hf e He. rewrite Forall_forall in Hf. specialize (Hf e He). unfold not_admin. by destruct e. }
    destruct listener; [by eapply Hf, Hi|]. destruct (Hp eq_refl) as [->|(q & _ & Hq)]; [|by eapply Hf].
    by intros e ?%elem_of_nil. }
  split; [by intros [? _]%Hn|]. split; [by intros [_ ?]%Hn|]. intros active stats. rewrite <- E.
  destruct listener; cbn [serve_request].
  - unfold answered. change (mkReq _ _ _) with (with_request_id request_id req).
    by rewrite (handle_request_numbers env runner peer Internal _ active stats).
  - unfold public_request. destruct (prepare _ _ _ _ _) as [[route q]|]; [|done].
    destruct (hdr_get _ _); [|done]. by destruct route.
Qed.
Lemma call_depth_values (h1 h2 : H) d : call_depth (hyper_headers h1) = d ->
  (exists v, hdr_get_all INTERNAL_ROUTE_HEADER h1 = [v]) -> (exists v, hdr_get_all CALL_DEPTH_HEADER h1 = [v]) ->
  hdr_get_all INTERNAL_ROUTE_HEADER h2 = hdr_get_all INTERNAL_ROUTE_HEADER h1 ->
  hdr_get_all CALL_DEPTH_HEADER h2 = hdr_get_all CALL_DEPTH_HEADER h1 -> call_depth (hyper_headers h2) = d.
Proof.
  intros <- (v & Hv) (w & Hw) H1 H2. rewrite Hv in H1. rewrite Hw in H2. unfold call_depth.
  by rewrite (hyper_headers_one _ _ _ H1), (hyper_headers_one _ _ _ Hv), (hyper_headers_one _ _ _ H2), (hyper_headers_one _ _ _ Hw).
Qed.
End server_props.

(** ** Start

    The pools of the database are made with retries. An attempt fails to
    connect, or its test query fails. *)

Inductive Attempt : Type := Connected | ConnectFails | TestFails.

Definition max_retries : Z := 5.

(** The seconds before the next attempt. *)
Definition wait_time (retry_count : Z) : Z := 2 ^ Z.min retry_count 5.

(** [attempts n]: the outcome of the attempt [n]. The attempts made and the
    seconds waited; the process panics when the last one fails. [None]: out of
    fuel. *)
Fixpoint create_pool (fuel : nat) (attempts : nat -> Attempt) (n : nat) (retry_count waited : Z) :
  option (bool * nat * Z) :=
  match fuel with
  | O => None
  | S fuel =>
    match attempts n with
    | Connected => Some (true, S n, waited)
    | TestFails =>
      let retry_count := retry_count + 1 in
      if max_retries <=? retry_count then Some (false, S n, waited)
      else create_pool fuel attempts (S n) retry_count (waited + wait_time retry_count)
    | ConnectFails =>
      let retry_count := retry_count + 1 in
      if max_retries <? retry_count then Some (false, S n, waited)
      else create_pool fuel attempts (S n) retry_count (waited + wait_time retry_count)
    end
  end.

Lemma create_pool_from attempts fuel : forall n waited, (n + fuel = 6)%nat -> (n < 6)%nat ->
  (forall k, (k < n)%nat -> attempts k <> Connected) -> waited = 2 ^ (Z.of_nat n + 1) - 2 ->
  exists ok m waited', create_pool fuel attempts n (Z.of_nat n) waited = Some (ok, m, waited') /\
    (n < m <= 6)%nat /\ 0 <= waited' <= 62 /\ (ok = true <-> attempts (pred m) = Connected) /\
    (forall k, (k < pred m)%nat -> attempts k <> Connected) /\ (ok = false -> (5 <= m)%nat).
Proof.
  induction fuel as [|fuel IH]; intros n waited Hf Hn Hk Hw; [lia|]. cbn [create_pool].
  assert (Hb : 0 <= waited <= 62).
  { assert (2 ^ 1 <= 2 ^ (Z.of_nat n + 1) <= 2 ^ 6) by (split; apply Z.pow_le_mono_r; lia). simpl in *. lia. }
  assert (Hnext : (n < 5)%nat -> attempts n <> Connected ->
    exists ok m waited', create_pool fuel attempts (S n) (Z.of_nat n + 1) (waited + wait_time (Z.of_nat n + 1)) =
      Some (ok, m, waited') /\ (n < m <= 6)%nat /\ 0 <= waited' <= 62 /\ (ok = true <-> attempts (pred m) = Connected) /\
      (forall k, (k < pred m)%nat -> attempts k <> Connected) /\ (ok = false -> (5 <= m)%nat)).
  { intros Hlt Hne. replace (Z.of_nat n + 1) with (Z.of_nat (S n)) by lia.
    destruct (IH (S n) (waited + wait_time (Z.of_nat (S n)))) as (ok & m & w & E & Hm & H); [lia|lia| | |].
    - intros k Hlt'. destruct (decide (k = n)) as [->|]; [done|apply Hk; lia].
    - unfold wait_time. rewrite Z.min_l, Hw by lia. replace (Z.of_nat (S n) + 1) with (Z.succ (Z.of_nat (S n))) by lia.
      rewrite Z.pow_succ_r by lia. replace (Z.of_nat n + 1) with (Z.of_nat (S n)) by lia. lia.
    - exists ok, m, w. split; [done|]. split; [lia|done]. }
  destruct (attempts n) eqn:En.
  - exists true, (S n), waited. split_and!; try done; lia.
  - destruct (Z.ltb_spec max_retries (Z.of_nat n + 1)); [|apply Hnext; unfold max_retries in *; [lia|congruence]].
    exists false, (S n), waited. unfold max_retries in *. simpl. rewrite En. split_and!; try done; lia.
  - destruct (Z.leb_spec max_retries (Z.of_nat n + 1)); [|apply Hnext; unfold max_retries in *; [lia|congruence]].
    exists false, (S n), waited. unfold max_retries in *. simpl. rewrite En. split_and!; try done; lia.
Qed.

(** The runner connects or stops within about a minute: whatever the
    attempts give, the loop ends after at most six of them and 62 seconds of
    waits, with a pool exactly when its last attempt connected and passed the
    test, and every attempt before it failed; it does not give up before the
    fifth. *)
Theorem create_pool_ends attempts : exists ok n waited,
  create_pool 6 attempts 0 0 0 = Some (ok, n, waited) /\ (0 < n <= 6)%nat /\ 0 <= waited <= 62 /\
  (ok = true <-> attempts (pred n) = Connected) /\ (forall k, (k < pred n)%nat -> attempts k <> Connected) /\
  (ok = false -> (5 <= n)%nat).
Proof. apply (create_pool_from attempts 6 0 0); [lia..|intros; lia|done]. Qed.

(** [DATABASE_URL], or the parts of one; [None]: a part is missing and the
    process panics. *)
Definition db_url (env : string -> option string) : option string :=
  match env "DATABASE_URL" with
  | Some url => Some url
  | None =>
    host ← env "POSTGRES_HOST"; port ← env "POSTGRES_PORT"; user ← env "POSTGRES_USER";
    password ← env "POSTGRES_PASSWORD"; database ← env "POSTGRES_DB";
    Some ("postgres://" +:+ user +:+ ":" +:+ password +:+ "@" +:+ host +:+ ":" +:+ port +:+ "/" +:+ database)
  end.

Definition wall_clock_timeout_ms (env : string -> option string) : Z :=
  default 64000 (s ← env "WALL_CLOCK_TIMEOUT_MS"; parse_uint U64_MAX s).

Definition test_before_acquire (env : string -> option string) : bool :=
  match env "DB_TEST_BEFORE_ACQUIRE" with
  | Some v => negb (String.eqb v "false" || String.eqb v "0")
  | None => true
  end.

Definition internal_pool_size (env : string -> option string) : Z :=
  default 5 (s ← env "DB_POOL_INTERNAL_SIZE"; parse_uint U32_MAX s).
Definition worker_pool_size (env : string -> option string) : Z :=
  default 15 (s ← env "DB_POOL_WORKER_SIZE"; parse_uint U32_MAX s).

(** ** Listeners *)

(** A bound socket: its address, who it serves, the networks it takes, and
    whether it speaks TLS. *)
Inductive Bound (N : Type) : Type :=
| BoundTcp (addr : SocketAddr) (listener : Listener) (nets : option (list N)) (tls : bool)
| BoundUnix (path : string).
Arguments BoundTcp {N}. Arguments BoundUnix {N}.

Section serve.
Context {N T : Type}.
Variable bind_tcp : SocketAddr -> result unit string.
Variable bind_unix : string -> result unit string.

Definition LOCALHOST : IpAddr := V4 2130706433.

Definition serve (config : @Config N T) : result (list (Bound N)) string :=
  let internal_addr := mkSocketAddr LOCALHOST (internal_port config) in
  _ <-? bind_tcp internal_addr;
  _ <-? bind_tcp (http_addr config);
  let tasks := [BoundTcp internal_addr Internal None false; BoundTcp (http_addr config) Public (allowlist config) false] in
  match Ingress.tls config with
  | None => Ok tasks
  | Some _ =>
    match https_addr config with
    | HttpsTcp address => _ <-? bind_tcp address; Ok (tasks ++ [BoundTcp address Public (allowlist config) true])
    | HttpsUnix path => _ <-? bind_unix path; Ok (tasks ++ [BoundUnix path])
    end
  end.

(** [serve_tls]: whether a connection whose handshake ended is served. *)
Inductive HandshakeEnd : Type := HandshakeOk (peer_certificates : bool) | HandshakeFailed | HandshakeTimedOut.

Definition serve_tls (config : @Config N T) (handshake : HandshakeEnd) : bool :=
  match handshake with
  | HandshakeOk certs => client_cert_allowed (client_cert config) certs
  | HandshakeFailed | HandshakeTimedOut => false
  end.
End serve.

(** Only this host reaches the listener that administration needs: of the
    sockets a runner serves, the internal one is bound to 127.0.0.1 alone and
    every other one is public; a public TCP socket takes the allowlist of the
    configuration. *)
Theorem internal_listener_is_local {N T : Type} bind_tcp bind_unix (config : @Config N T) bound :
  serve bind_tcp bind_unix config = Ok bound ->
  length (List.filter (fun b => match b with BoundTcp _ Internal _ _ => true | _ => false end) bound) = 1%nat /\
  Forall (fun b => match b with
    | BoundTcp addr Internal _ tls => sa_ip addr = LOCALHOST /\ is_loopback (sa_ip addr) = true /\ tls = false
    | BoundTcp _ Public nets _ => nets = allowlist config
    | BoundUnix _ => is_Some (Ingress.tls config)
    end) bound.
Proof.
  unfold serve. destruct (bind_tcp _); [|done]. cbn. destruct (bind_tcp _); [|done]. cbn.
  destruct (Ingress.tls config) eqn:Et; [|intros [= <-]; split; [done|by repeat constructor]].
  destruct (https_addr config) as [address|path].
  - destruct (bind_tcp address); [|done]. intros [= <-]. split; [done|by repeat constructor].
  - destruct (bind_unix path); [|done]. intros [= <-]. split; [done|by repeat constructor].
Qed.

(** ** Examples *)

#[export, refine] Instance gmap_HyperParts : HyperParts (gmap string (list string)) := {
  hyper_headers h := omap head h;
}.
Proof.
  - intros h n v Hv. rewrite lookup_omap. cbn in Hv. destruct (h !! n) as [l|]; [|done]. simpl in *. by subst.
  - intros h n Hv. rewrite lookup_omap. cbn in Hv. destruct (h !! n) as [l|]; [|done]. simpl in *. by subst.
Defined.

#[export] Instance plain_Handshake : Handshake := {| base64_decode s := Some s; derive_accept_key s := s |}.

(** The derived text of a reason: a message is between quotes, as it is. *)
#[export] Instance plain_TerminationText : TerminationText := {|
  http_status _ := 500;
  reason_display _ := "terminated";
  reason_debug r := match r with
    | Exception m => "Exception(" +:+ quoted m +:+ ")"
    | InitializationError m => "InitializationError(" +:+ quoted m +:+ ")"
    | Other m => "Other(" +:+ quoted m +:+ ")"
    | CpuTimeLimit => "CpuTimeLimit" | WallClockTimeout => "WallClockTimeout" | MemoryLimit => "MemoryLimit"
    | MaxIterationsReached => "MaxIterationsReached" | TTerminated => "Terminated" | Aborted => "Aborted"
    end |}.

Definition test_worker : WorkerWithBindings :=
  mkWorkerWithBindings "w" None "u" (SBytes "code") Javascript 1 ∅ [] None.

Definition test_env (reply : @Reply (gmap string (list string))) : @Environment (gmap string (list string)) :=
  mkEnvironment (fun _ _ _ _ => Ok (Some (mkResolution (Some "w") None (Some BackendWorker) None None)))
    (fun _ => Ok (Some test_worker)) (Ok tt) (fun _ => None) (fun _ _ => Err "none") (fun _ => Permit) true
    (fun _ => Ok "") (fun _ => Permit) (fun r _ => r) (fun _ => reply).

Definition test_runner : @Runner (gmap string (list string)) :=
  mkRunner false 0 "{}" 1024 1000 "openworkers" (fun _ _ _ => mkResponse 200 ∅ "").

Definition public_req : @Req (gmap string (list string)) := mkReq HTTP_11 "GET" (test_request "hello.workers.rocks" "/" []).

Definition ok_env : @Environment (gmap string (list string)) := test_env (Replied (mkResponse 200 ∅ "hi")).

(** What the first worker sends through a binding. *)
Definition guest_request : HttpRequest :=
  mkHttpRequest MPost "http://x/admin/drain" {[ "x-openworkers-internal" := "0"; "host" := "localhost" ]} BNone.
Definition routed_request : HttpRequest :=
  binding_request (url := web_UrlLib) (Some 8080) "0123456789abcdef0123456789abcdef" "w" guest_request 1.
Definition routed_wire : gmap string (list string) :=
  default ∅ (wire_headers (map_to_list (Fetch.rq_headers routed_request)) [] None).
Definition inner_req : @Req (gmap string (list string)) :=
  mkReq HTTP_11 "POST" (mkRequest (mkUri None (Some "/admin/drain") "/admin/drain") routed_wire None).

Definition run (env : @Environment (gmap string (list string))) (listener : Listener)
  (req : @Req (gmap string (list string))) : result (@Response (gmap string (list string))) Halt * list Effect :=
  serve_request env test_runner test_config "00000000-0000-0000-0000-000000000001" listener
    (PeerTcp (mkSocketAddr LOCALHOST 5555)) false req [].

Lemma request_accounted_witness :
  let out := handle_worker_request ok_env 1024 1000 public_req [] in
  t_counted (tally no_tally out.2) = 1 /\ t_ran (tally no_tally out.2) = 1 /\ t_permits (tally no_tally out.2) = 0.
Proof.
  intros out. destruct out as [r tr] eqn:E. destruct (request_accounted ok_env 1024 1000 public_req r tr E) as (_ & _ & Hp & _).
  revert Hp. replace tr with out.2 by (by rewrite E). intros Hp. split; [by vm_compute|]. split; [by vm_compute|done].
Defined.

Lemma guest_never_administers_witness : Drained ∉ (run ok_env Internal inner_req).2.
Proof.
  destruct (run ok_env Internal inner_req) as [r tr] eqn:E.
  apply (guest_never_administers (url := web_UrlLib) (Some 8080) "0123456789abcdef0123456789abcdef" [] 1 guest_request
    routed_request (map_to_list (Fetch.rq_headers routed_request)) [] None ok_env test_runner test_config
    "00000000-0000-0000-0000-000000000001" Internal (PeerTcp (mkSocketAddr LOCALHOST 5555)) false inner_req r tr);
    [right; exists "w"; exact eq_refl|apply Permutation_refl|vm_compute; reflexivity|exact E].
Defined.

Lemma internal_listener_is_local_witness :
  exists bound, serve (fun _ => Ok tt) (fun _ => Ok tt) test_config = Ok bound /\
    length (List.filter (fun b => match b with BoundTcp _ Internal _ _ => true | _ => false end) bound) = 1%nat.
Proof.
  eexists. split; [reflexivity|].
  exact (proj1 (internal_listener_is_local (fun _ => Ok tt) (fun _ => Ok tt) test_config _ eq_refl)).
Defined.

(** A worker that ends in an exception whose message is not ASCII gets no
    answer out: its reason goes to a header value, which refuses the text, and
    the request ends in a panic, uncounted. *)
Theorem exception_text_panics :
  let out := run (test_env (Gone (Some (Err (Exception (of_bytes [195; 169]%nat)))))) Public public_req in
  out.1 = Err Panic /\ t_ran (tally no_tally out.2) = 1 /\ t_counted (tally no_tally out.2) = 0 /\
  t_permits (tally no_tally out.2) = 0.
Proof. vm_compute. by split_and!. Qed.
