(* ===== verification/D1Sql.v ===== *)
(** * One D1 database (src/src/d1/sqlite.rs)

    What the runner does with a SQLite connection: the statements a guest may
    run, the checks on its parameters and results, batches, scripts and
    migrations. SQLite is a class: how a statement compiles, what the
    authorizer is asked about it, and what running it does to the contents of
    the file. The connection around it, with its transaction, is modelled
    here. Durations and the counters of a connection are not. *)

From Stdlib Require Import SpecFloat.
From S2P Require Import Prelude RustStr.

(** ** Data of [openworkers_core] and of rusqlite *)

Inductive D1ErrorKind : Type := KSql | KType | KRange | KInterrupted | KOverloaded | KUnavailable.
Record D1Error := mkD1Error { kind : D1ErrorKind; message : string; statement : option nat }.

Inductive SqlPrimitive : Type :=
| PNull | PBool (b : bool) | PInt (z : Z) | PFloat (f : spec_float) | PString (s : string) | PBytes (s : string).

Inductive Value : Type :=
| VNull | VInteger (z : Z) | VReal (f : spec_float) | VText (s : string) | VBlob (s : string).

Record D1Statement := mkStatement { sql : string; params : list SqlPrimitive }.
Inductive D1Rows : Type := First | All.

Record D1StatementResult := mkResult {
  columns : list string; result_rows : list (list SqlPrimitive); changed_db : bool }.

Inductive D1Op : Type :=
| Query (st : D1Statement) (r : D1Rows) | Batch (l : list D1Statement) | Exec (text : string).

Inductive D1Result : Type :=
| RQuery (r : D1StatementResult) | RBatch (l : list D1StatementResult) | RExec (count : nat) | RError (e : D1Error).

Record Migration := mkMigration { m_name : string; m_sql : string; m_checksum : string }.

Inductive AuthAction : Type :=
| Attach | Detach | Transaction | Savepoint | Pragma (pragma_name : string) | Function (function_name : string) | Other.

(** [rusqlite::Error]: with a SQLite code, or another. *)
Inductive SqliteError : Type :=
| Failure (extended_code : Z) (message : option string) (text : string) | OtherError (text : string).

(** How a statement ends: with the new contents; with an error that undoes
    it; with an error that keeps what it did; or with an error that rolls the
    transaction back. *)
Inductive ended (D : Type) : Type :=
| Finished (d : D) | Aborted (e : SqliteError) | Failed (e : SqliteError) (d : D) | RolledBack (e : SqliteError).
Arguments Finished {D}. Arguments Aborted {D}. Arguments Failed {D}. Arguments RolledBack {D}.

Inductive control : Type := Begin | Commit | Rollback | OtherControl.

(** ** SQLite

    [D]: the contents of a file. [S]: a prepared statement. The first
    argument of a call counts the calls, so that any of them can fail. *)
Class Sqlite (D S : Type) := {
  compile : string -> D -> result S SqliteError;
  (** The next statement of a script and the text after it. *)
  next_statement : string -> D -> result (option (S * string)) SqliteError;
  actions : S -> list AuthAction;
  control_of : S -> option control;
  parameter_count : S -> nat;
  parameter_name : S -> nat -> option string;
  readonly : S -> bool;
  column_names : S -> list string;
  eval : nat -> S -> list Value -> D -> list (list Value) * ended D;
  (** A SAVEPOINT or a RELEASE, on the contents and the transaction. *)
  other_control : S -> D * option D -> D * option D;
  (** Why the next statement of the runner itself fails, if it does, and why
      a COMMIT does, with whether it rolls back. *)
  broken : nat -> option SqliteError;
  commit_refused : nat -> D -> option (SqliteError * bool);
  (** The ledger of migrations. *)
  has_ledger : D -> bool;
  create_ledger : D -> D;
  ledger_get : string -> D -> result (option string) SqliteError;
  ledger_add : string -> string -> D -> result D SqliteError;
  (** The authorizer is asked about each statement that controls the
      transaction. *)
  control_asked s c : control_of s = Some c -> Transaction ∈ actions s \/ Savepoint ∈ actions s;
  next_shorter text d s rest :
    next_statement text d = Ok (Some (s, rest)) -> (String.length rest < String.length text)%nat;
  readonly_keeps n s l d : readonly s = true -> control_of s = None ->
    match (eval n s l d).2 with Finished d' | Failed _ d' => d' = d | _ => True end;
  create_has d : has_ledger (create_ledger d) = true;
  create_noop d : has_ledger d = true -> create_ledger d = d;
  add_has name c d d' : ledger_add name c d = Ok d' -> has_ledger d' = true;
  add_get name c d d' : ledger_add name c d = Ok d' -> ledger_get name d' = Ok (Some c);
}.

(** ** Errors and values *)

Definition error (k : D1ErrorKind) (m : string) : D1Error := mkD1Error k m None.

Fixpoint assoc_code (code : Z) (l : list (Z * string)) : option string :=
  match l with [] => None | (c, s) :: l => if code =? c then Some s else assoc_code code l end.

Definition code_name (code : Z) : string :=
  default "SQLITE_ERROR" (assoc_code code
    [(1, "SQLITE_ERROR"); (2, "SQLITE_INTERNAL"); (3, "SQLITE_PERM"); (4, "SQLITE_ABORT"); (5, "SQLITE_BUSY");
     (6, "SQLITE_LOCKED"); (7, "SQLITE_NOMEM"); (8, "SQLITE_READONLY"); (9, "SQLITE_INTERRUPT");
     (10, "SQLITE_IOERR"); (11, "SQLITE_CORRUPT"); (13, "SQLITE_FULL"); (14, "SQLITE_CANTOPEN");
     (17, "SQLITE_SCHEMA"); (18, "SQLITE_TOOBIG"); (19, "SQLITE_CONSTRAINT"); (20, "SQLITE_MISMATCH");
     (21, "SQLITE_MISUSE"); (23, "SQLITE_AUTH"); (25, "SQLITE_RANGE"); (26, "SQLITE_NOTADB")]).

Definition SQLITE_INTERRUPT : Z := 9.
Definition SQLITE_FULL : Z := 13.

Definition sql_error (e : SqliteError) : D1Error :=
  match e with
  | OtherError text => error KSql text
  | Failure extended_code message text =>
    let code := Z.land extended_code 255 in
    let k := if code =? SQLITE_INTERRUPT then KInterrupted
             else if code =? SQLITE_FULL then KOverloaded else KSql in
    error k (default text message +:+ ": " +:+ code_name code)
  end.

(** The error of [check_writes]. *)
Definition paused_error (reason : string) : D1Error := error KOverloaded ("writes are paused: " +:+ reason).

Definition MAX_SAFE_INTEGER : Z := 9007199254740991.

(** The value of a float that is a whole number. *)
Definition whole (f : spec_float) : option Z :=
  match f with
  | S754_zero _ => Some 0
  | S754_finite s m e =>
    let v := if s then Zneg m else Zpos m in
    if 0 <=? e then Some (v * 2 ^ e)
    else if v mod 2 ^ (- e) =? 0 then Some (v / 2 ^ (- e)) else None
  | _ => None
  end.

Definition to_value (p : SqlPrimitive) : Value :=
  match p with
  | PNull => VNull
  | PBool b => VInteger (if b then 1 else 0)
  | PInt z => VInteger z
  | PFloat f =>
    match whole f with
    | Some z => if Z.abs z <=? MAX_SAFE_INTEGER then VInteger z else VReal f
    | None => VReal f
    end
  | PString s => VText s
  | PBytes s => VBlob s
  end.

(** [lossy]: [String::from_utf8_lossy]. *)
Definition to_primitive (lossy : string -> string) (v : Value) : SqlPrimitive :=
  match v with
  | VNull => PNull
  | VInteger z => PInt z
  | VReal f => PFloat f
  | VText s => PString (lossy s)
  | VBlob s => PBytes s
  end.

Definition value_size (v : Value) : Z :=
  match v with
  | VNull => 1
  | VInteger _ | VReal _ => 8
  | VText s | VBlob s => str_len s
  end.

(** ** Guest restrictions *)

Definition GUEST_PRAGMAS : list string :=
  ["defer_foreign_keys"; "foreign_key_check"; "foreign_key_list"; "index_info"; "index_list"; "index_xinfo";
   "quick_check"; "table_info"; "table_list"; "table_xinfo"].

(** [true]: allow. *)
Definition authorize_guest (action : AuthAction) : bool :=
  match action with
  | Attach | Detach | Transaction | Savepoint => false
  | Pragma name => existsb (String.eqb (to_ascii_lowercase name)) GUEST_PRAGMAS
  | Function name => negb (eq_ignore_ascii_case name "load_extension")
  | Other => true
  end.

(** The closure that [open] installs. *)
Definition authorize (guest : bool) (action : AuthAction) : bool :=
  if guest then authorize_guest action else true.

Definition not_authorized : SqliteError := Failure 23 (Some "not authorized") "not authorized".

(** ** The connection and the database

    [committed]: what the file holds for good. [txn]: the contents inside the
    open transaction; SQLite is in autocommit mode when there is none.
    [commits] counts the transactions that commit, as the hook of [open]
    does. *)
Section database.
Context {D S : Type} {engine : Sqlite D S} (lossy : string -> string).

Record Database := mkDatabase {
  committed : D; txn : option D; commits : Z; calls : nat;
  guest : bool; result_bytes : Z; paused : option string }.

Definition contents (db : Database) : D := default (committed db) (txn db).
Definition is_autocommit (db : Database) : bool := match txn db with Some _ => false | None => true end.

Definition set_conn (c : D) (t : option D) (n : Z) (db : Database) : Database :=
  mkDatabase c t n (calls db) (guest db) (result_bytes db) (paused db).
Definition set_guest (g : bool) (db : Database) : Database :=
  mkDatabase (committed db) (txn db) (commits db) (calls db) g (result_bytes db) (paused db).
Definition tick (db : Database) : Database :=
  mkDatabase (committed db) (txn db) (commits db) (Datatypes.S (calls db)) (guest db) (result_bytes db) (paused db).

(** The contents after a statement: part of the transaction, or committed on
    its own. *)
Definition write (s : S) (d : D) (db : Database) : Database :=
  match txn db with
  | Some _ => set_conn (committed db) (Some d) (commits db) db
  | None => if readonly s then db else set_conn d None (commits db + 1) db
  end.

Definition begin_txn (db : Database) : Database := set_conn (committed db) (Some (contents db)) (commits db) db.
Definition rollback_txn (db : Database) : Database := set_conn (committed db) None (commits db) db.
Definition commit_txn (db : Database) : Database := set_conn (contents db) None (commits db + 1) db.

Definition settle (s : S) (e : ended D) (db : Database) : Database :=
  match e with
  | Finished d | Failed _ d => write s d db
  | Aborted _ => db
  | RolledBack _ => rollback_txn db
  end.

Definition end_error (e : ended D) : option SqliteError :=
  match e with Finished _ => None | Aborted e | Failed e _ | RolledBack e => Some e end.

(** A statement that is dropped before its end: an error it would meet later
    does not happen. *)
Definition settle_early (s : S) (e : ended D) (db : Database) : Database :=
  match e with
  | Finished d | Failed _ d => write s d db
  | Aborted _ | RolledBack _ => db
  end.

(** Running a prepared statement: [consume] takes its rows, to the last or
    not. *)
Definition step_statement {X} (s : S) (values : list Value) (consume : list (list Value) -> result (X * bool) D1Error) :
  SE Database D1Error X := fun db =>
  let n := calls db in
  let db := tick db in
  let done := result_bind (consume []) (fun x => Ok x.1) in
  match control_of s with
  | Some Begin => (done, begin_txn db)
  | Some Commit => (done, commit_txn db)
  | Some Rollback => (done, rollback_txn db)
  | Some OtherControl =>
    let '(c, t) := other_control s (committed db, txn db) in (done, set_conn c t (commits db) db)
  | None =>
    let '(rows, e) := eval n s values (contents db) in
    match consume rows with
    | Err err => (Err err, settle_early s e db)
    | Ok (x, false) => (Ok x, settle_early s e db)
    | Ok (x, true) =>
      (match end_error e with Some err => Err (sql_error err) | None => Ok x end, settle s e db)
    end
  end.

(** The authorizer is asked while a statement is compiled. *)
Definition authorized (s : S) : SE Database D1Error unit := fun db =>
  if forallb (authorize (guest db)) (actions s) then (Ok tt, db) else (Err (sql_error not_authorized), db).

Definition prepare (text : string) : SE Database D1Error S := fun db =>
  match compile text (contents db) with
  | Ok s => (_ ← authorized s; mret s) db
  | Err e => (Err (sql_error e), db)
  end.

Definition named_parameter (s : S) : option string :=
  find_map (fun i => name ← parameter_name s i;
    if starts_with ":" name || starts_with "@" name || starts_with "$" name then Some name else None)
    (seq 1 (parameter_count s)).

Definition bind (s : S) (ps : list SqlPrimitive) : result (list Value) D1Error :=
  match named_parameter s with
  | Some name => Err (error KSql ("named parameter " +:+ name +:+ " is not supported, use ?NNN"))
  | None =>
    if negb (length ps =? parameter_count s)%nat
    then Err (error KRange ("Wrong number of parameter bindings for SQL query: " +:+
               show_Z (Z.of_nat (parameter_count s)) +:+ " expected, " +:+ show_Z (Z.of_nat (length ps)) +:+ " given"))
    else Ok (to_value <$> ps)
  end.

Definition check_writes : SE Database D1Error unit := fun db =>
  match paused db with
  | Some reason => (Err (paused_error reason), db)
  | None => (Ok tt, db)
  end.

Definition too_large (limit : Z) : D1Error :=
  error KOverloaded ("result larger than " +:+ show_Z limit +:+ " bytes").

(** The loop over the rows: what it keeps, and whether it reached the end. *)
Fixpoint collect (first ro : bool) (limit bytes : Z) (kept : list (list SqlPrimitive)) (rows : list (list Value)) :
  result (list (list SqlPrimitive) * bool) D1Error :=
  match rows with
  | [] => Ok (kept, true)
  | row :: rows =>
    if first && negb (length kept =? 0)%nat
    then if ro then Ok (kept, false) else collect first ro limit bytes kept rows
    else
      let bytes := bytes + sumz value_size row in
      if limit <? bytes then Err (too_large limit)
      else collect first ro limit bytes (kept ++ [to_primitive lossy <$> row]) rows
  end.

Definition query (st : D1Statement) (rows : D1Rows) : SE Database D1Error D1StatementResult :=
  s ← prepare (sql st);
  values ← lift (bind s (params st));
  _ ← (if readonly s then mret tt else check_writes);
  limit ← gets result_bytes;
  kept ← step_statement s values
    (collect (match rows with First => true | All => false end) (readonly s) limit 0 []);
  mret (mkResult (column_names s) kept (negb (readonly s))).

(** ** Statements of the runner *)

(** [trusted], around a statement given by what it does. *)
Definition trusted (run : SE Database D1Error unit) : SE Database D1Error unit := fun db =>
  let '(r, db) := run (set_guest false db) in (r, set_guest true db).

Definition runner_statement (effect : Database -> Database) : SE Database D1Error unit := fun db =>
  match broken (calls db) with
  | Some e => (Err (sql_error e), tick db)
  | None => (Ok tt, effect (tick db))
  end.

Definition begin_immediate : SE Database D1Error unit := trusted (runner_statement begin_txn).

Definition commit : SE Database D1Error unit := trusted (fun db =>
  match commit_refused (calls db) (contents db) with
  | Some (e, true) => (Err (sql_error e), rollback_txn (tick db))
  | Some (e, false) => (Err (sql_error e), tick db)
  | None => (Ok tt, commit_txn (tick db))
  end).

(** The answer of ROLLBACK is ignored. Of SQLite: the statement is refused
    outside a transaction only, which the test of autocommit excludes, and
    inside one it ends the transaction whatever it answers. *)
Definition rollback (db : Database) : Database :=
  if is_autocommit db then db else (trusted (fun db => (Ok tt, rollback_txn (tick db))) db).2.

(** ** Jobs *)

Fixpoint batch_loop (index : nat) (sts : list D1Statement) : SE Database D1Error (list D1StatementResult) :=
  match sts with
  | [] => mret []
  | st :: sts => fun db =>
    match query st All db with
    | (Ok r, db) => (rs ← batch_loop (Datatypes.S index) sts; mret (r :: rs)) db
    | (Err e, db) => (Err (mkD1Error (kind e) (message e) (Some index)), db)
    end
  end.

Definition batch (sts : list D1Statement) (db : Database) : D1Result * Database :=
  match begin_immediate db with
  | (Err e, db) => (RError e, db)
  | (Ok _, db) =>
    match batch_loop 0 sts db with
    | (Err e, db) => (RError e, rollback db)
    | (Ok results, db) =>
      match commit db with
      | (Err e, db) => (RError e, rollback db)
      | (Ok _, db) => (RBatch results, db)
      end
    end
  end.

Definition at_statement (count : nat) (e : D1Error) : D1Error := mkD1Error (kind e) (message e) (Some count).

(** One turn of the loop of [script]: [None] at the end of the text. *)
Definition script_step (count : nat) (text : string) : SE Database D1Error (option string) := fun db =>
  match next_statement text (contents db) with
  | Err e => (Err (at_statement count (sql_error e)), db)
  | Ok None => (Ok None, db)
  | Ok (Some (s, rest)) =>
    let '(r, db) :=
      (_ ← authorized s;
       _ ← (if (0 <? parameter_count s)%nat then throw (error KSql "exec() does not take parameters") else mret tt);
       _ ← (if readonly s then mret tt else check_writes);
       _ ← step_statement s [] (fun _ => Ok (tt, true));
       mret (Some rest)) db in
    (result_map_err (at_statement count) r, db)
  end.

(** [None]: the fuel is out, which it never is for the fuel of [script]. *)
Fixpoint script_loop (fuel count : nat) (text : string) : Database -> option (result nat D1Error) * Database := fun db =>
  match fuel with
  | O => (None, db)
  | Datatypes.S fuel =>
    match script_step count text db with
    | (Err e, db) => (Some (Err e), db)
    | (Ok None, db) => (Some (Ok count), db)
    | (Ok (Some rest), db) => script_loop fuel (Datatypes.S count) rest db
    end
  end.

Definition script (text : string) : SE Database D1Error nat := fun db =>
  let '(r, db) := script_loop (Datatypes.S (String.length text)) 0 text db in
  (default (Err (error KSql "")) r, db).

Definition exec (text : string) (db : Database) : D1Result * Database :=
  match script text db with
  | (Ok count, db) => (RExec count, db)
  | (Err e, db) => (RError e, db)
  end.

(** A read or a write of the ledger. *)
Definition ledger_read (name : string) : SE Database D1Error (option string) := fun db =>
  match broken (calls db) with
  | Some e => (Err (sql_error e), tick db)
  | None => (result_map_err sql_error (ledger_get name (contents db)), tick db)
  end.

Definition ledger_write (name checksum : string) : SE Database D1Error unit := fun db =>
  match broken (calls db), ledger_add name checksum (contents db) with
  | Some e, _ => (Err (sql_error e), tick db)
  | None, Ok d => (Ok tt, match txn db with
                          | Some _ => set_conn (committed db) (Some d) (commits db) (tick db)
                          | None => set_conn d None (commits db + 1) (tick db) end)
  | None, Err e => (Err (sql_error e), tick db)
  end.

(** CREATE TABLE IF NOT EXISTS. *)
Definition make_ledger (db : Database) : Database :=
  match txn db with
  | Some d => set_conn (committed db) (Some (create_ledger d)) (commits db) db
  | None => if has_ledger (committed db) then db else set_conn (create_ledger (committed db)) None (commits db + 1) db
  end.

Definition migrate_in_transaction (m : Migration) : SE Database D1Error nat :=
  _ ← trusted (runner_statement make_ledger);
  applied ← ledger_read (m_name m);
  match applied with
  | Some checksum =>
    if String.eqb checksum (m_checksum m) then mret 0%nat
    else throw (error KSql ("migration " +:+ m_name m +:+ " was applied with another checksum"))
  | None =>
    count ← script (m_sql m);
    _ ← ledger_write (m_name m) (m_checksum m);
    mret count
  end.

Definition migrate (m : Migration) (db : Database) : D1Result * Database :=
  match (_ ← check_writes; begin_immediate) db with
  | (Err e, db) => (RError e, db)
  | (Ok _, db) =>
    match migrate_in_transaction m db with
    | (Err e, db) => (RError e, rollback db)
    | (Ok count, db) =>
      match commit db with
      | (Err e, db) => (RError e, rollback db)
      | (Ok _, db) => (RExec count, db)
      end
    end
  end.

(** [run] of a D1 job; [reason]: why writes are paused, if they are. *)
Inductive Job : Type := JOp (op : D1Op) | JMigrate (m : Migration).

Definition set_paused (reason : option string) (db : Database) : Database :=
  mkDatabase (committed db) (txn db) (commits db) (calls db) (guest db) (result_bytes db) reason.

Definition run (job : Job) (reason : option string) (db : Database) : D1Result * Database :=
  let db := set_paused reason db in
  match job with
  | JMigrate m => migrate m db
  | JOp (Query st rows) =>
    match query st rows db with (Ok r, db) => (RQuery r, db) | (Err e, db) => (RError e, db) end
  | JOp (Batch sts) => batch sts db
  | JOp (Exec text) => exec text db
  end.

(** ** What a statement of a guest can do

    [frame]: a transaction of the runner is not left and nothing of it is
    committed; outside one, a change of the file is counted; paused, the file
    does not change. *)

Definition same_settings (a b : Database) : Prop :=
  guest b = guest a /\ result_bytes b = result_bytes a /\ paused b = paused a.

Record frame (a b : Database) : Prop := {
  frame_settings : same_settings a b;
  frame_auto : txn a = None -> txn b = None;
  frame_txn : txn a <> None -> committed b = committed a /\ commits b = commits a;
  frame_count : commits a <= commits b /\ (commits b = commits a -> committed b = committed a);
  frame_paused : paused a <> None -> committed b = committed a }.

(** One that succeeds leaves the transaction open, and its contents as they
    are when writes are paused. *)
Definition stays (a b : Database) : Prop :=
  (txn a <> None -> txn b <> None) /\ (paused a <> None -> contents b = contents a).

Definition safe {A} (m : SE Database D1Error A) : Prop := forall a r b,
  guest a = true -> m a = (r, b) -> frame a b /\ (is_ok r = true -> stays a b).

Lemma frame_refl a : frame a a.
Proof. by split; [split_and!|..]. Qed.

Lemma frame_trans a b c : frame a b -> (txn a <> None -> txn b <> None) -> frame b c -> frame a c.
Proof.
  intros [(G1 & R1 & P1) A1 T1 [C1 C1'] Z1] Hs [(G2 & R2 & P2) A2 T2 [C2 C2'] Z2]. split.
  - split_and!; congruence.
  - auto.
  - intros Ht. destruct (T1 Ht), (T2 (Hs Ht)). split; congruence.
  - split; [lia|]. intros E. rewrite C2', C1' by lia. done.
  - intros Hp. rewrite Z2, Z1 by congruence. done.
Qed.

Lemma safe_ret {A} (x : A) : safe (mret x).
Proof. intros a r b _ [= <- <-]. split; [apply frame_refl|done]. Qed.

Lemma safe_throw {A} e : safe (throw (A := A) e).
Proof. intros a r b _ [= <- <-]. split; [apply frame_refl|done]. Qed.

Lemma safe_lift {A} (x : result A D1Error) : safe (lift x).
Proof. intros a r b _ [= <- <-]. split; [apply frame_refl|done]. Qed.

Lemma safe_gets {A} (f : Database -> A) : safe (gets f).
Proof. intros a r b _ [= <- <-]. split; [apply frame_refl|done]. Qed.

Lemma safe_bind {A B} (m : SE Database D1Error A) (f : A -> SE Database D1Error B) :
  safe m -> (forall x, safe (f x)) -> safe (m ≫= f).
Proof.
  intros Hm Hf a r b Hg E. apply SE_bind_inv in E as [(x & c & E1 & E2)|(e & E1 & ->)].
  - destruct (Hm _ _ _ Hg E1) as [F1 S1]. destruct (S1 eq_refl) as [T1 P1].
    assert (Hgc : guest c = true) by (destruct F1 as [(G & _) _ _ _ _]; congruence).
    destruct (Hf x _ _ _ Hgc E2) as [F2 S2]. split; [by apply (frame_trans a c)|].
    intros Hr. destruct (S2 Hr) as [T2 P2]. split; [auto|]. intros Hp.
    rewrite P2, P1; [done..|]. destruct F1 as [(_ & _ & Pp) _ _ _ _]. congruence.
  - destruct (Hm _ _ _ Hg E1) as [F1 _]. done.
Qed.

Lemma authorized_inv s a r b : authorized s a = (r, b) ->
  b = a /\ (is_ok r = true -> forallb (authorize (guest a)) (actions s) = true).
Proof. unfold authorized. case_match; intros; by simplify_eq. Qed.

Lemma prepare_inv text a r b : prepare text a = (r, b) ->
  b = a /\ forall s, r = Ok s -> compile text (contents a) = Ok s /\ forallb (authorize (guest a)) (actions s) = true.
Proof.
  unfold prepare. destruct (compile text (contents a)) as [s|e]; [|intros; by simplify_eq].
  intros E. apply SE_bind_inv in E as [([] & c & E1 & [= <- <-])|(e & E1 & ->)];
    apply authorized_inv in E1 as [-> Ha]; (split; [done|]); [|done].
  intros s' [= <-]. auto.
Qed.

Lemma guarded_inv (s : S) a r b : (if readonly s then mret tt else check_writes) a = (r, b) ->
  b = a /\ (is_ok r = true -> readonly s = false -> paused a = None).
Proof.
  destruct (readonly s); [intros [= <- <-]; done|]. unfold check_writes.
  destruct (paused a) eqn:E; intros [= <- <-]; done.
Qed.

Lemma unless_inv (c : bool) e (a : Database) r b :
  (if c then throw e else mret tt : SE Database D1Error unit) a = (r, b) -> b = a.
Proof. destruct c; by intros [= <- <-]. Qed.

(** The restrictions keep a guest from controlling the transaction. *)
Lemma guest_no_control s : forallb (authorize true) (actions s) = true -> control_of s = None.
Proof.
  intros Ha. destruct (control_of s) as [c|] eqn:E; [|done]. rewrite forallb_forall in Ha.
  destruct (control_asked _ _ E) as [Hi|Hi]; apply list_elem_of_In, Ha in Hi; done.
Qed.

Lemma frame_tick a : frame a (tick a).
Proof. by split; [split_and!|..]. Qed.

Lemma write_spec s d a : (readonly s = true -> d = contents a) -> (readonly s = false -> paused a = None) ->
  frame a (write s d a) /\ stays a (write s d a).
Proof.
  intros Hr Hp. unfold write, stays. destruct (txn a) as [d0|] eqn:Et.
  - split; [by split; simpl; [split_and!|congruence|..]|split; [done|]]. intros Hpa. change (d = contents a).
    destruct (readonly s); [auto|]. by rewrite Hp in Hpa.
  - destruct (readonly s).
    + rewrite Et. split; [apply frame_refl|done].
    + split; [split; simpl; [by split_and!|done|congruence|lia|by rewrite Hp]|split; [done|by rewrite Hp]].
Qed.

Lemma rollback_frame a : frame a (rollback_txn a).
Proof. by split; [split_and!|..]. Qed.

Lemma step_safe {X} s vals (consume : list (list Value) -> result (X * bool) D1Error) a r b :
  control_of s = None -> (readonly s = false -> paused a = None) ->
  step_statement s vals consume a = (r, b) -> frame a b /\ (is_ok r = true -> stays a b).
Proof.
  intros Hc Hp. unfold step_statement. rewrite Hc.
  pose proof (readonly_keeps (calls a) s vals (contents (tick a))) as Hk.
  destruct (eval (calls a) s vals (contents (tick a))) as [rows e]. simpl in Hk.
  assert (Hw : forall d, (readonly s = true -> d = contents (tick a)) ->
    frame a (write s d (tick a)) /\ stays a (write s d (tick a))).
  { intros d Hd. destruct (write_spec s d (tick a) Hd Hp) as [F T].
    split; [|done]. apply (frame_trans a (tick a)); [apply frame_tick|done|done]. }
  assert (Hs : stays a (tick a)) by done.
  assert (Hr : frame a (rollback_txn (tick a))) by by split; [split_and!|..].
  destruct (consume rows) as [[x []]|err]; intros E; injection E as <- <-;
    destruct e as [d|e|e d|e]; simpl in *; try (by split; [apply frame_tick|]); try (by split);
    destruct (Hw d) as [F T]; try (by split); intros Hro; by apply Hk.
Qed.

Lemma safe_query st rows : safe (query st rows).
Proof.
  intros a r b Hg E.
  assert (Hid : forall (e : D1Error), frame a a /\ (is_ok (Err (A := D1StatementResult) e) = true -> stays a a))
    by (intros; split; [apply frame_refl|done]).
  apply SE_bind_inv in E as [(s & c & E1 & E)|(e & E1 & ->)]; apply prepare_inv in E1 as [-> Hs]; [|done].
  destruct (Hs s eq_refl) as [_ Ha]. rewrite Hg in Ha. apply guest_no_control in Ha. clear Hs.
  apply SE_bind_inv in E as [(v & c & E1 & E)|(e & E1 & ->)]; injection E1 as E1 <-; [|done].
  apply SE_bind_inv in E as [([] & c & E2 & E)|(e & E2 & ->)]; apply guarded_inv in E2 as [-> Hw]; [|done].
  apply SE_bind_inv in E as [(l & c & E3 & E)|(e & E3 & ->)]; [|done]. injection E3 as <- <-.
  apply SE_bind_inv in E as [(k & c & E4 & E)|(e & E4 & ->)]; apply step_safe in E4; auto.
  injection E as <- <-. destruct E4 as [F T]. split; [done|]. intros _. by apply T.
Qed.

Lemma safe_script_step count text : safe (script_step count text).
Proof.
  intros a r b Hg. unfold script_step.
  destruct (next_statement text (contents a)) as [[[s rest]|]|e]; [|intros [= <- <-]; split; [apply frame_refl|done]..].
  destruct ((_ ← authorized s; _ ← _; _ ← _; _ ← _; _) a) as [r1 b1] eqn:E. intros [= <- <-].
  assert (Hr : is_ok (result_map_err (at_statement count) r1) = is_ok r1) by by destruct r1. rewrite Hr. clear Hr.
  apply SE_bind_inv in E as [([] & c & E1 & E)|(e & E1 & ->)]; apply authorized_inv in E1 as [-> Ha];
    [|split; [apply frame_refl|done]].
  specialize (Ha eq_refl). rewrite Hg in Ha. apply guest_no_control in Ha.
  apply SE_bind_inv in E as [([] & c & E2 & E)|(e & E2 & ->)]; apply unless_inv in E2 as ->;
    [|split; [apply frame_refl|done]].
  apply SE_bind_inv in E as [([] & c' & E3 & E)|(e & E3 & ->)]; apply guarded_inv in E3 as [-> Hw];
    [|split; [apply frame_refl|done]].
  apply SE_bind_inv in E as [([] & c' & E4 & E)|(e & E4 & ->)]; apply step_safe in E4; auto.
  injection E as <- <-. destruct E4 as [F T]. split; [done|]. intros _. by apply T.
Qed.

Lemma script_step_rest count text a rest b : script_step count text a = (Ok (Some rest), b) ->
  (String.length rest < String.length text)%nat.
Proof.
  unfold script_step. destruct (next_statement text (contents a)) as [[[s rest']|]|e] eqn:En; [|done..].
  destruct ((_ ← authorized s; _ ← _; _ ← _; _ ← _; _) a) as [r1 b1] eqn:E. intros [= Hr _].
  destruct r1 as [o|]; simplify_eq/=.
  repeat (apply SE_bind_inv in E as [(? & ? & _ & E)|(? & _ & ?)]; [|done]). injection E as ? ?. subst.
  by eapply next_shorter.
Qed.

Lemma script_loop_total fuel count text a : (String.length text < fuel)%nat ->
  is_Some (script_loop fuel count text a).1.
Proof.
  revert count text a. induction fuel as [|fuel IH]; intros count text a Hl; [lia|]. simpl.
  destruct (script_step count text a) as [[[rest|]|e] b] eqn:E; simpl; eauto.
  apply IH. apply script_step_rest in E. lia.
Qed.

Lemma safe_script_loop fuel count text a r b : guest a = true -> script_loop fuel count text a = (r, b) ->
  frame a b /\ (match r with Some (Ok _) => True | _ => False end -> stays a b).
Proof.
  revert count text a. induction fuel as [|fuel IH]; intros count text a Hg.
  - intros [= <- <-]. split; [apply frame_refl|done].
  - simpl. destruct (script_step count text a) as [o c] eqn:E. intros El.
    destruct (safe_script_step count text a o c Hg E) as [F T].
    destruct o as [[rest|]|e]; [|injection El as <- <-; by split; [|intros; apply T]|by injection El as <- <-].
    destruct (T eq_refl) as [T1 P1]. pose proof (frame_settings _ _ F) as (Hgc & _ & Hpc).
    destruct (IH _ _ c (eq_trans Hgc Hg) El) as [F2 T2]. split; [by apply (frame_trans a c)|].
    intros Hr. destruct (T2 Hr) as [T3 P3]. split; [auto|]. intros Hp. rewrite P3, P1; congruence.
Qed.

Lemma safe_script text : safe (script text).
Proof.
  intros a r b Hg. unfold script.
  pose proof (script_loop_total (Datatypes.S (String.length text)) 0 text a ltac:(lia)) as [o Ho].
  destruct (script_loop (Datatypes.S (String.length text)) 0 text a) as [x c] eqn:E.
  cbn [fst] in Ho. subst x. intros H. assert (r = o /\ b = c) as [-> ->] by (by injection H).
  apply safe_script_loop in E as [F T]; [|done]. split; [done|]. intros Hr. apply T. by destruct o.
Qed.

(** ** Batches *)

(** The statements ran one after the other on the contents, each to its end
    and within the limits. *)
Inductive ran (limit : Z) : nat -> list D1Statement -> D -> list D1StatementResult -> D -> Prop :=
| ran_nil n d : ran limit n [] d [] d
| ran_cons n st sts s vals out kept d d' d'' results :
    compile (sql st) d = Ok s -> forallb authorize_guest (actions s) = true ->
    bind s (params st) = Ok vals ->
    eval n s vals d = (out, Finished d') ->
    collect false (readonly s) limit 0 [] out = Ok (kept, true) ->
    ran limit (Datatypes.S n) sts d' results d'' ->
    ran limit n (st :: sts) d (mkResult (column_names s) kept (negb (readonly s)) :: results) d''.

Lemma collect_all ro limit bytes kept rows k e : collect false ro limit bytes kept rows = Ok (k, e) -> e = true.
Proof.
  revert bytes kept. induction rows as [|row rows IH]; intros bytes kept; simpl; [congruence|].
  case_match; [done|]. apply IH.
Qed.

Lemma query_ran st a r b d limit : guest a = true -> txn a = Some d -> result_bytes a = limit ->
  query st All a = (Ok r, b) ->
  exists d', txn b = Some d' /\ calls b = Datatypes.S (calls a) /\
    forall sts results d'', ran limit (calls b) sts d' results d'' -> ran limit (calls a) (st :: sts) d (r :: results) d''.
Proof.
  intros Hg Ht Hl E. assert (Hd : contents a = d) by (unfold contents; by rewrite Ht).
  apply SE_bind_inv in E as [(s & c & E1 & E)|(e & E1 & ?)]; [|done]. apply prepare_inv in E1 as [-> Hs].
  destruct (Hs s eq_refl) as [Hc Ha]. rewrite Hg in Ha. pose proof (guest_no_control _ Ha) as Hn. rewrite Hd in Hc.
  apply SE_bind_inv in E as [(v & c & E1 & E)|(e & E1 & ?)]; [|done]. injection E1 as Hb <-.
  apply SE_bind_inv in E as [([] & c & E2 & E)|(e & E2 & ?)]; [|done]. apply guarded_inv in E2 as [-> _].
  apply SE_bind_inv in E as [(l & c & E3 & E)|(e & E3 & ?)]; [|done]. injection E3 as <- <-.
  apply SE_bind_inv in E as [(k & c & E4 & E)|(e & E4 & ?)]; [|done]. injection E as <- <-.
  unfold step_statement in E4. rewrite Hn in E4. change (contents (tick a)) with (contents a) in E4. rewrite Hd in E4.
  destruct (eval (calls a) s v d) as [rows e] eqn:Ee.
  destruct (collect _ _ _ _ _ rows) as [[x end_]|] eqn:Ek; [|done].
  pose proof (collect_all _ _ _ _ _ _ _ Ek). subst end_. destruct e as [d'|e|e d'|e]; try done.
  injection E4 as <- <-. exists d'. unfold settle, write. simpl. rewrite Ht. split_and!; [done..|].
  intros sts results d'' Hran. eapply ran_cons; try done. by rewrite <- Hl.
Qed.

Lemma batch_loop_ran i sts a results b d : guest a = true -> txn a = Some d ->
  batch_loop i sts a = (Ok results, b) ->
  exists d', txn b = Some d' /\ ran (result_bytes a) (calls a) sts d results d'.
Proof.
  revert i a results d. induction sts as [|st sts IH]; intros i a results d Hg Ht E.
  - injection E as <- <-. exists d. split; [done|constructor].
  - simpl in E. destruct (query st All a) as [[r|e] c] eqn:Eq; [|done].
    destruct (query_ran st a r c d _ Hg Ht eq_refl Eq) as (d1 & Ht1 & Hc1 & Hran).
    destruct (safe_query st All a _ c Hg Eq) as [F _]. destruct (frame_settings _ _ F) as (Hgc & Hrc & _).
    apply SE_bind_inv in E as [(rs & c' & E1 & E)|(e & E1 & ?)]; [|done]. injection E as <- <-.
    destruct (IH _ c rs d1 (eq_trans Hgc Hg) Ht1 E1) as (d' & Hd' & Hr). exists d'. split; [done|].
    apply Hran. by rewrite <- Hrc.
Qed.

Lemma safe_batch_loop i sts : safe (batch_loop i sts).
Proof.
  revert i. induction sts as [|st sts IH]; intros i; [apply safe_ret|]. intros a r b Hg. simpl.
  destruct (query st All a) as [[x|e] c] eqn:Eq.
  - intros E. apply (safe_bind (query st All) (fun x => rs ← batch_loop (Datatypes.S i) sts; mret (x :: rs)))
      with (a := a); [apply safe_query| |done|].
    + intros y. apply safe_bind; [apply IH|intros; apply safe_ret].
    + unfold mbind at 1, SE_bind. by rewrite Eq.
  - intros [= <- <-]. by destruct (safe_query st All a _ c Hg Eq).
Qed.

(** ** Transactions of the runner *)

(** A database between two jobs. *)
Definition clean (a : Database) : Prop := guest a = true /\ txn a = None.

Lemma begin_spec a r b : guest a = true -> txn a = None -> begin_immediate a = (r, b) ->
  same_settings a b /\ committed b = committed a /\ commits b = commits a /\
  (is_ok r = true -> txn b = Some (committed a) /\ calls b = Datatypes.S (calls a)) /\ (is_ok r = false -> txn b = None).
Proof.
  intros Hg Ht. unfold begin_immediate, trusted, runner_statement. simpl.
  destruct (broken (calls a)); intros [= <- <-]; unfold same_settings; simpl; rewrite ?Ht, ?Hg;
    split_and!; intros; try done; unfold contents; simpl; by rewrite ?Ht.
Qed.

Lemma commit_spec a r b d : guest a = true -> txn a = Some d -> commit a = (r, b) ->
  same_settings a b /\
  (is_ok r = true -> txn b = None /\ committed b = d /\ commits b = commits a + 1) /\
  (is_ok r = false -> committed b = committed a /\ commits b = commits a).
Proof.
  intros Hg Ht. unfold commit, trusted. simpl.
  destruct (commit_refused _ _) as [[e []]|]; intros [= <- <-]; unfold same_settings; simpl;
    rewrite ?Hg; split_and!; intros; try done; unfold contents; simpl; by rewrite ?Ht.
Qed.

Lemma rollback_spec a : guest a = true ->
  same_settings a (rollback a) /\ txn (rollback a) = None /\ committed (rollback a) = committed a /\
  commits (rollback a) = commits a.
Proof.
  intros Hg. unfold rollback, is_autocommit, same_settings. destruct (txn a) eqn:E; simpl; rewrite ?Hg; naive_solver.
Qed.

(** The shape of [batch] and [migrate]: [body] inside a transaction. *)
Definition in_transaction {A} (body : SE Database D1Error A) : SE Database D1Error A := fun db =>
  match begin_immediate db with
  | (Err e, db) => (Err e, db)
  | (Ok _, db) =>
    match body db with
    | (Err e, db) => (Err e, rollback db)
    | (Ok x, db) =>
      match commit db with
      | (Err e, db) => (Err e, rollback db)
      | (Ok _, db) => (Ok x, db)
      end
    end
  end.

(** It is done as a whole or not at all. *)
Lemma transaction_spec {A} (body : SE Database D1Error A) a r b :
  (forall a1 r b1, guest a1 = true -> paused a1 = paused a -> txn a1 <> None -> body a1 = (r, b1) ->
     frame a1 b1 /\ (is_ok r = true -> stays a1 b1)) ->
  clean a -> in_transaction body a = (r, b) ->
  clean b /\ same_settings a b /\
  match r with
  | Err _ => committed b = committed a /\ commits b = commits a
  | Ok x => commits b = commits a + 1 /\ (paused a <> None -> committed b = committed a) /\
            exists a1 b1, begin_immediate a = (Ok tt, a1) /\ body a1 = (Ok x, b1) /\ txn b1 = Some (committed b)
  end.
Proof.
  intros Hs [Hg Ht]. unfold in_transaction. destruct (begin_immediate a) as [[[]|e] a1] eqn:E1; pose proof (begin_spec a _ _ Hg Ht E1) as
    ((G1 & R1 & P1) & C1 & N1 & Ho & He).
  2:{ intros [= <- <-]. unfold clean, same_settings. rewrite G1, He by done. done. }
  destruct (Ho eq_refl) as [T1 K1]. clear Ho He. assert (Hg1 : guest a1 = true) by congruence.
  destruct (body a1) as [[x|e] b1] eqn:E2; destruct (Hs _ _ _ Hg1 P1 ltac:(congruence) E2) as [F T];
    destruct (frame_settings _ _ F) as (G2 & R2 & P2); destruct (frame_txn _ _ F) as [C2 N2]; try congruence.
  2:{ intros [= <- <-]. destruct (rollback_spec b1) as ((G & R & P) & Tr & Cr & Nr); [congruence|].
      unfold clean, same_settings. split_and!; congruence. }
  destruct (T eq_refl) as [Ts Ps]. destruct (txn b1) as [d|] eqn:Td; [|by destruct Ts; [congruence|]].
  destruct (commit b1) as [[[]|e] b2] eqn:E3; pose proof (commit_spec b1 _ _ d ltac:(congruence) Td E3) as
    ((G3 & R3 & P3) & Ho & He).
  - intros [= <- <-]. destruct (Ho eq_refl) as (Tc & Cc & Nc). unfold clean, same_settings.
    split_and!; try congruence.
    + intros Hp. rewrite Cc. assert (contents b1 = contents a1) as Hc by (apply Ps; congruence).
      unfold contents in Hc. rewrite Td, T1 in Hc. simpl in Hc. congruence.
    + exists a1, b1. split_and!; [done..|]. congruence.
  - intros [= <- <-]. destruct (He eq_refl) as [Cc Nc].
    destruct (rollback_spec b2) as ((G & R & P) & Tr & Cr & Nr); [congruence|].
    unfold clean, same_settings. split_and!; congruence.
Qed.

Lemma batch_as_transaction sts a : batch sts a =
  let '(r, b) := in_transaction (batch_loop 0 sts) a in (match r with Ok x => RBatch x | Err e => RError e end, b).
Proof. unfold batch, in_transaction. repeat case_match; by simplify_eq. Qed.

(** C10. A batch is one transaction. When it answers its results, the
    statements ran in order, each allowed to a guest and within the limits,
    and the file holds what they made of it. When it answers an error, the
    file is as it was, whichever statement failed and however, and when the
    commit failed too. No statement of a guest can end the transaction, and
    the connection is ready for the next job. *)
Theorem batch_atomic sts a r b :
  clean a -> batch sts a = (r, b) ->
  clean b /\
  match r with
  | RBatch results => ran (result_bytes a) (Datatypes.S (calls a)) sts (committed a) results (committed b)
  | RError _ => committed b = committed a
  | _ => False
  end.
Proof.
  intros Hc E. rewrite batch_as_transaction in E. destruct (in_transaction _ a) as [x c] eqn:Et.
  injection E as <- <-.
  destruct (transaction_spec _ a x c (fun a1 r b1 G _ _ => safe_batch_loop 0 sts a1 r b1 G) Hc Et) as (Hb & _ & Hx).
  split; [done|]. destruct x as [results|e]; [|by destruct Hx].
  destruct Hx as (_ & _ & a1 & b1 & E1 & E2 & Ht). destruct Hc as [Hg Hn].
  destruct (begin_spec a _ _ Hg Hn E1) as ((G1 & R1 & _) & _ & _ & Ho & _). destruct (Ho eq_refl) as [T1 K1].
  destruct (batch_loop_ran 0 sts a1 results b1 _ ltac:(congruence) T1 E2) as (d' & Hd & Hr).
  assert (d' = committed c) as -> by congruence. by rewrite <- K1, <- R1.
Qed.

(** ** Migrations *)

Lemma make_ledger_spec a d r b : guest a = true -> txn a = Some d ->
  trusted (runner_statement make_ledger) a = (r, b) ->
  frame a b /\ guest b = true /\ (is_ok r = true -> txn b = Some (create_ledger d)).
Proof.
  intros Hg Ht. unfold trusted, runner_statement. simpl.
  destruct (broken (calls a)) as [e|]; intros [= <- <-].
  - split_and!; [|done..]. by split; unfold same_settings; simpl; [rewrite Hg|..].
  - unfold make_ledger. simpl. rewrite Ht. split_and!; [|done..].
    by split; unfold same_settings; simpl; [rewrite Hg|congruence|..].
Qed.

Lemma ledger_read_spec name a r b : ledger_read name a = (r, b) ->
  b = tick a /\ forall o, r = Ok o -> ledger_get name (contents a) = Ok o.
Proof.
  unfold ledger_read. destruct (broken (calls a)); intros [= <- <-]; (split; [done|]); [done|].
  intros o. destruct (ledger_get name (contents a)); simpl; congruence.
Qed.

Lemma ledger_write_spec name c a d r b : txn a = Some d -> ledger_write name c a = (r, b) ->
  frame a b /\ (is_ok r = true -> exists d', ledger_add name c d = Ok d' /\ txn b = Some d').
Proof.
  intros Ht. unfold ledger_write, contents. rewrite Ht. simpl.
  destruct (broken (calls a)), (ledger_add name c d) as [d'|]; intros [= <- <-];
    try (split; [apply frame_tick|done]).
  split; [by split; unfold same_settings; simpl; [|congruence|..]|eauto].
Qed.

(** [migrate_in_transaction], with writes allowed: what it leaves in the
    transaction. *)
Lemma migrate_body m a d r b : guest a = true -> paused a = None -> txn a = Some d ->
  migrate_in_transaction m a = (r, b) ->
  frame a b /\
  forall n, r = Ok n -> exists d', txn b = Some d' /\ has_ledger d' = true /\
    ledger_get (m_name m) d' = Ok (Some (m_checksum m)) /\
    forall c, ledger_get (m_name m) (create_ledger d) = Ok (Some c) ->
      c = m_checksum m /\ n = 0%nat /\ d' = create_ledger d.
Proof.
  intros Hg Hp Ht E.
  apply SE_bind_inv in E as [([] & a1 & E1 & E)|(e & E1 & ->)];
    destruct (make_ledger_spec a d _ _ Hg Ht E1) as (F1 & Hg1 & Ht1); [|by split].
  specialize (Ht1 eq_refl). assert (Hc1 : contents a1 = create_ledger d) by (unfold contents; by rewrite Ht1).
  assert (F2 : frame a (tick a1)) by (apply (frame_trans a a1); [done|congruence|apply frame_tick]).
  apply SE_bind_inv in E as [(o & c & E2 & E)|(e & E2 & ->)]; apply ledger_read_spec in E2 as [-> El]; [|by split].
  specialize (El o eq_refl). rewrite Hc1 in El. destruct o as [cs|].
  - destruct (String.eqb_spec cs (m_checksum m)) as [->|Hne]; injection E as <- <-; (split; [done|]); [|done].
    intros n [= <-]. exists (create_ledger d). split_and!; [done|apply create_has|done|].
    intros c Hc. rewrite El in Hc. by simplify_eq.
  - apply SE_bind_inv in E as [(count & c & E3 & E)|(e & E3 & ->)];
      destruct (safe_script (m_sql m) (tick a1) _ _ Hg1 E3) as [F3 T3];
      pose proof (frame_trans a (tick a1) _ F2 ltac:(by simpl; rewrite Ht1) F3) as F4; [|by split].
    destruct (T3 eq_refl) as [Tc _]. simpl in Tc. rewrite Ht1 in Tc.
    destruct (txn c) as [dc|] eqn:Tdc; [|by destruct Tc].
    apply SE_bind_inv in E as [([] & c' & E4 & E)|(e & E4 & ->)];
      destruct (ledger_write_spec _ _ c dc _ _ Tdc E4) as [F5 Hw].
    + injection E as <- <-. destruct (Hw eq_refl) as (d' & Ha & Hd').
      split; [by apply (frame_trans a c); [|rewrite Tdc|]|]. intros n [= <-]. exists d'.
      split_and!; [done|by eapply add_has|by eapply add_get|]. intros cs Hcs. congruence.
    + split; [by apply (frame_trans a c); [|rewrite Tdc|]|done].
Qed.

Lemma migrate_as_transaction m a : paused a = None -> migrate m a =
  let '(r, b) := in_transaction (migrate_in_transaction m) a in (match r with Ok n => RExec n | Err e => RError e end, b).
Proof.
  intros Hp. unfold migrate, in_transaction. unfold mbind at 1, SE_bind, check_writes. rewrite Hp.
  repeat case_match; by simplify_eq.
Qed.

Lemma migrate_paused m a reason : paused a = Some reason -> exists e, migrate m a = (RError e, a).
Proof. intros Hp. unfold migrate, mbind, SE_bind, check_writes. rewrite Hp. eauto. Qed.

Lemma migrate_body_safe m a : paused a = None -> forall a1 r b1,
  guest a1 = true -> paused a1 = paused a -> txn a1 <> None -> migrate_in_transaction m a1 = (r, b1) ->
  frame a1 b1 /\ (is_ok r = true -> stays a1 b1).
Proof.
  intros Hp a1 r b1 Hg Hpa Ht Hm. destruct (txn a1) as [d1|] eqn:Et1; [|done].
  destruct (migrate_body m a1 d1 r b1 Hg ltac:(congruence) Et1 Hm) as [F Hd]. split; [done|].
  intros Hr. destruct r as [n|]; [|done]. destruct (Hd n eq_refl) as (d' & Hd' & _).
  split; [by rewrite Hd'|congruence].
Qed.

(** A migration runs once. When it answers a count, the ledger of the file
    has its name and checksum. From then on the same migration answers 0 and
    leaves the file as it is, and another text under that name is refused.
    When it answers an error the file is as it was, so a migration is never
    half applied, nor applied without its ledger row. *)
Theorem migrate_once m a r b :
  clean a -> paused a = None -> migrate m a = (r, b) ->
  clean b /\
  match r with
  | RExec n => has_ledger (committed b) = true /\
      ledger_get (m_name m) (committed b) = Ok (Some (m_checksum m))
  | RError _ => committed b = committed a
  | _ => False
  end /\
  (forall c, has_ledger (committed a) = true -> ledger_get (m_name m) (committed a) = Ok (Some c) ->
     committed b = committed a /\ forall n, r = RExec n -> n = 0%nat /\ c = m_checksum m).
Proof.
  intros Hc Hp E. rewrite migrate_as_transaction in E by done.
  destruct (in_transaction _ a) as [x d] eqn:Et. injection E as <- <-.
  destruct (transaction_spec _ a x d (migrate_body_safe m a Hp) Hc Et) as (Hb & _ & Hx).
  split; [done|]. destruct x as [n|e]; [|by split; [apply Hx|split; [apply Hx|]]].
  destruct Hx as (_ & _ & a1 & b1 & E1 & E2 & Ht). destruct Hc as [Hg Hn].
  destruct (begin_spec a _ _ Hg Hn E1) as ((G1 & _ & P1) & _ & _ & Ho & _). destruct (Ho eq_refl) as [T1 _].
  destruct (migrate_body m a1 _ _ b1 ltac:(congruence) ltac:(congruence) T1 E2) as [_ Hm].
  destruct (Hm n eq_refl) as (d' & Hd' & Hl & Hget & Hagain). assert (d' = committed d) as -> by congruence.
  split; [done|]. intros c Hla Hga. rewrite create_noop in Hagain by done.
  destruct (Hagain c Hga) as (-> & -> & ->). split; [done|]. by intros n [= <-].
Qed.

(** Every job leaves the connection outside a transaction, with the guest
    restrictions on. A job that changes the file counts a commit, which is how
    the archive knows that a snapshot is due. While writes are paused no job
    changes the file. *)
Theorem jobs_end_clean job reason a r b :
  clean a -> run job reason a = (r, b) ->
  clean b /\ commits a <= commits b /\
  (commits b = commits a -> committed b = committed a) /\
  (reason <> None -> committed b = committed a).
Proof.
  set (a0 := set_paused reason a). intros Hc E. assert (Hc0 : clean a0) by done.
  assert (Hfr : forall c, frame a0 c -> clean c /\ commits a <= commits c /\
    (commits c = commits a -> committed c = committed a) /\ (reason <> None -> committed c = committed a)).
  { intros c [(G & _) A _ [N1 N2] P]. destruct Hc0. split_and!; [by split; [congruence|auto]|done..]. }
  unfold run in E. fold a0 in E. destruct job as [[st rows|sts|text]|m].
  - destruct (query st rows a0) as [x c] eqn:Eq. apply Hfr.
    assert (b = c) as -> by (destruct x; by injection E). by destruct (safe_query st rows a0 x c (proj1 Hc0) Eq).
  - rewrite batch_as_transaction in E. destruct (in_transaction _ a0) as [x c] eqn:Et. injection E as <- <-.
    destruct (transaction_spec _ a0 x c (fun a1 r b1 G _ _ => safe_batch_loop 0 sts a1 r b1 G) Hc0 Et)
      as (Hb & _ & Hx).
    split; [done|]. destruct x as [l|e]; [destruct Hx as (Hn & Hp & _)|destruct Hx as (Hx & Hn)]; simpl in *;
      split_and!; try done; try lia; intros; lia.
  - unfold exec in E. destruct (script text a0) as [x c] eqn:Es. apply Hfr.
    assert (b = c) as -> by (destruct x; by injection E). by destruct (safe_script text a0 x c (proj1 Hc0) Es).
  - destruct reason as [why|].
    + destruct (migrate_paused m a0 why eq_refl) as [e Em]. rewrite Em in E. injection E as <- <-.
      apply Hfr, frame_refl.
    + rewrite migrate_as_transaction in E by done. destruct (in_transaction _ a0) as [x c] eqn:Et. injection E as <- <-.
      destruct (transaction_spec _ a0 x c (migrate_body_safe m a0 eq_refl) Hc0 Et) as (Hb & _ & Hx).
      split; [done|]. destruct x as [l|e]; [destruct Hx as (Hn & _)|destruct Hx as (Hx & Hn)]; simpl in *;
        split_and!; try done; try lia; intros; lia.
Qed.

End database.
Arguments Database D : clear implicits.

(** ** A small engine

    The instance the witnesses evaluate: a table of keys, and statements of
    words. *)

Inductive tiny : Type := TPut (k v : string) | TGet (k : string) | TCommit | TFail.

Definition tiny_data : Type := gmap string string * option (gmap string string).

Definition tiny_error : SqliteError := Failure 1 (Some "syntax error") "error".

Definition tiny_compile (text : string) : result tiny SqliteError :=
  match split " " text with
  | ["put"; k; v] => Ok (TPut k v)
  | ["get"; k] => Ok (TGet k)
  | ["commit"] => Ok TCommit
  | ["fail"] => Ok TFail
  | _ => Err tiny_error
  end.

Definition tiny_next (text : string) : result (option (tiny * string)) SqliteError :=
  if is_empty text then Ok None else
  let '(st, rest) := default (text, "") (split_once ";" text) in
  result_bind (tiny_compile st) (fun s => Ok (Some (s, rest))).

Definition tiny_eval (s : tiny) (d : tiny_data) : list (list Value) * ended tiny_data :=
  match s with
  | TPut k v => ([], Finished (<[k := v]> d.1, d.2))
  | TGet k => (match d.1 !! k with Some v => [[VText v]] | None => [] end, Finished d)
  | TCommit => ([], Finished d)
  | TFail => ([], Aborted (Failure 19 (Some "constraint failed") "error"))
  end.

Lemma tiny_next_shorter text s rest : tiny_next text = Ok (Some (s, rest)) ->
  (String.length rest < String.length text)%nat.
Proof.
  unfold tiny_next. destruct text as [|c text]; [done|]. cbn [is_empty].
  destruct (split_once ";" (String c text)) as [[a b]|] eqn:E; simpl.
  - destruct (tiny_compile a); intros [= <- <-]. apply split_once_Some in E as [E _].
    apply (f_equal String.length) in E. rewrite length_app_str in E. simpl in E. simpl. lia.
  - destruct (tiny_compile (String c text)); intros [= <- <-]. simpl. lia.
Qed.

#[export, refine] Instance tiny_sqlite : Sqlite tiny_data tiny := {
  compile text _ := tiny_compile text;
  next_statement text _ := tiny_next text;
  actions s := match s with TCommit => [Transaction] | _ => [Other] end;
  control_of s := match s with TCommit => Some Commit | _ => None end;
  parameter_count _ := 0%nat;
  parameter_name _ _ := None;
  readonly s := match s with TPut _ _ | TFail => false | _ => true end;
  column_names s := match s with TGet _ => ["v"] | _ => [] end;
  eval _ s _ d := tiny_eval s d;
  other_control _ x := x;
  broken _ := None;
  commit_refused _ _ := None;
  has_ledger d := match d.2 with Some _ => true | None => false end;
  create_ledger d := (d.1, Some (default ∅ d.2));
  ledger_get name d := match d.2 with Some l => Ok (l !! name) | None => Err tiny_error end;
  ledger_add name c d := match d.2 with Some l => Ok (d.1, Some (<[name := c]> l)) | None => Err tiny_error end;
}.
Proof.
  - intros [] c; try done. intros _. left. set_solver.
  - intros text _ s rest. apply tiny_next_shorter.
  - by intros _ [] _ d.
  - done.
  - by intros [t [l|]].
  - intros name c [t [l|]] d' [= <-]. done.
  - intros name c [t [l|]] d' [= <-]. simpl. by rewrite lookup_insert_eq.
Defined.

Definition ex_db : Database tiny_data := mkDatabase (∅, None) None 0 0 true 1000 None.
Definition ex_batch : list D1Statement := [mkStatement "put a 1" []; mkStatement "get a" []].
Definition ex_bad : list D1Statement := [mkStatement "put a 1" []; mkStatement "commit" []].
Definition ex_migration : Migration := mkMigration "0001_init" "put a 1;put b 2" "abc".

Lemma ex_clean : clean ex_db.
Proof. done. Qed.

Example ex_batch_runs :
  match batch (engine := tiny_sqlite) id ex_batch ex_db with
  | (RBatch rs, db) => (result_rows <$> rs, committed db) = ([[]; [[PString "1"]]], ({["a" := "1"]}, None))
  | _ => False
  end.
Proof. vm_compute. reflexivity. Qed.

(** A guest that writes and then tries to commit gets the refusal of the
    authorizer, and its write is gone. *)
Lemma batch_atomic_witness :
  exists e b, batch (engine := tiny_sqlite) id ex_bad ex_db = (RError e, b) /\
    message e = "not authorized: SQLITE_AUTH" /\ committed b = (∅, None).
Proof.
  destruct (batch id ex_bad ex_db) as [r b] eqn:E.
  assert (Hr : match r with RError e => message e = "not authorized: SQLITE_AUTH" | _ => False end)
    by (apply (f_equal fst) in E; vm_compute in E; by subst r).
  destruct r as [| | |e]; try done. exists e, b. split_and!; [done..|].
  exact (proj2 (batch_atomic id ex_bad ex_db _ b ex_clean E)).
Defined.

Lemma migrate_once_witness :
  exists b, migrate (engine := tiny_sqlite) ex_migration ex_db = (RExec 2, b) /\
    ledger_get "0001_init" (committed b) = Ok (Some "abc").
Proof.
  destruct (migrate ex_migration ex_db) as [r b] eqn:E.
  assert (Hr : r = RExec 2) by (apply (f_equal fst) in E; vm_compute in E; by subst r).
  subst r. exists b. split; [done|].
  exact (proj2 (proj1 (proj2 (migrate_once ex_migration ex_db _ b ex_clean eq_refl E)))).
Defined.

Example ex_migrate_twice :
  let db := (migrate (engine := tiny_sqlite) ex_migration ex_db).2 in
  (migrate (engine := tiny_sqlite) ex_migration db).1 = RExec 0 /\
  (committed (migrate (engine := tiny_sqlite) ex_migration db).2).1 = {["a" := "1"; "b" := "2"]}.
Proof. vm_compute. split; reflexivity. Qed.

Lemma jobs_end_clean_witness :
  exists r b, run (engine := tiny_sqlite) id (JOp (Exec "put a 1;put b 2")) (Some "the data volume is almost full") ex_db = (r, b) /\
    clean b /\ committed b = committed ex_db.
Proof.
  destruct (run id (JOp (Exec "put a 1;put b 2")) (Some "the data volume is almost full") ex_db) as [r b] eqn:E.
  exists r, b. destruct (jobs_end_clean id _ _ ex_db r b ex_clean E) as (Hc & _ & _ & Hp). split_and!; [done..|].
  by apply Hp.
Defined.
