(* ===== verification/ObjectStorage.v ===== *)
(** * The storage of a Durable Object (src/src/d1/sqlite/object.rs)

    The file of an object has a table of keys and values and a table with its
    alarm. Keys compare by their bytes. Each statement of the runner can fail;
    a failed transaction leaves the tables as they were. *)

From stdpp Require Import sorting.
From S2P Require Import Prelude RustStr D1Sql.

Definition MAX_KEY_BYTES : Z := 2048.
Definition MAX_VALUE_BYTES : Z := 128 * 1024.
Definition MAX_KEYS : Z := 128.

(** [openworkers_core] *)
Inductive ObjectStorageOp : Type :=
| GetAlarm
| SetAlarm (at_ : option Z)
| Get (keys : list string)
| List_ (start start_after end_ prefix : option string) (reverse : bool) (limit : option Z)
| Write (puts : list (string * string)) (deletes : list string) (delete_all : bool).

Inductive ObjectStorageResult : Type :=
| Alarm (at_ : option Z)
| Values (values : list (option string))
| Entries (entries : list (string * string))
| Written (deleted : Z)
| Error (message : string).

(** The tables: [None] before they are created. The alarm table has one row
    at most. *)
Record tables := mkTables { kv : option (gmap string string); alarm_row : option (option Z) }.

(** A connection: [faults] says which of the next statements fail. *)
Record conn := mkConn { data : tables; faults : list (option string) }.

(** The settings of the current job. *)
Record settings := mkSettings { result_bytes : Z; paused : option string; full : option string }.

Abbreviation Sql A := (SE conn string A).

Definition execute {A} (run : tables -> result (A * tables) string) : Sql A := fun c =>
  match head (faults c) with
  | Some (Some e) => (Err e, mkConn (data c) (tail (faults c)))
  | _ => match run (data c) with
         | Ok (a, t) => (Ok a, mkConn t (tail (faults c)))
         | Err e => (Err e, mkConn (data c) (tail (faults c)))
         end
  end.

(** A step of a cursor. *)
Definition next_row : Sql unit := execute (fun t => Ok (tt, t)).

(** A transaction that is dropped without a commit rolls back. *)
Definition transaction {A} (body : Sql A) : Sql A := fun c =>
  match (_ ← next_row; a ← body; _ ← next_row; mret a) c with
  | (Ok a, c') => (Ok a, c')
  | (Err e, c') => (Err e, mkConn (data c) (faults c'))
  end.

(** ** Statements *)

Definition with_kv {A} (f : gmap string string -> A * gmap string string) : Sql A := execute (fun t =>
  match kv t with
  | Some m => let '(a, m) := f m in Ok (a, mkTables (Some m) (alarm_row t))
  | None => Err "no such table: kv"
  end).

Definition with_alarm {A} (f : option Z -> A * option Z) : Sql A := execute (fun t =>
  match alarm_row t with
  | Some r => let '(a, r) := f r in Ok (a, mkTables (kv t) (Some r))
  | None => Err "no such table: alarm"
  end).

Definition TABLE : Sql unit := execute (fun t => Ok (tt, mkTables (Some (default ∅ (kv t))) (alarm_row t))).
Definition ALARM_TABLE : Sql unit := execute (fun t => Ok (tt, mkTables (kv t) (Some (default None (alarm_row t))))).

Definition select_alarm : Sql (option Z) := with_alarm (fun r => (r, r)).
Definition select_value (key : string) : Sql (option string) := with_kv (fun m => (m !! key, m)).

(** [length] of SQLite: the characters before the first NUL; [substr] ends
    there too. *)
Fixpoint before_nul (s : string) : string :=
  match s with
  | EmptyString => EmptyString
  | String c s => if byte_of c =? 0 then EmptyString else String c (before_nul s)
  end.

Definition sqlite_length (s : string) : nat := char_count (before_nul s).
Definition sqlite_left (s : string) (n : nat) : string := left_chars n (before_nul s).

(** The clauses of the listing. *)
Definition in_listing (start start_after end_ prefix : option string) (key : string) : bool :=
  match start with Some s => String.leb s key | None => true end &&
  match start_after with Some s => String.ltb s key | None => true end &&
  match end_ with Some s => String.ltb key s | None => true end &&
  match prefix with Some p => String.eqb (sqlite_left key (sqlite_length p)) p | None => true end.

Definition key_le (a b : string * string) : Prop := String.leb a.1 b.1 = true.

#[export] Instance key_le_dec a b : Decision (key_le a b).
Proof. unfold key_le. apply _. Defined.

(** LIMIT: a negative one is none. *)
Fixpoint take_z {A} (n : Z) (l : list A) : list A :=
  match l with
  | [] => []
  | x :: l => if 0 <? n then x :: take_z (n - 1) l else []
  end.

Definition sql_limit {A} (limit : option Z) (l : list A) : list A :=
  match limit with Some n => if n <? 0 then l else take_z n l | None => l end.

(** The rows of the WHERE clause in the order of the ORDER BY. *)
Definition listing (start start_after end_ prefix : option string) (reverse_ : bool) (m : gmap string string) :
  list (string * string) :=
  let rows := merge_sort key_le
    (filter (fun r => in_listing start start_after end_ prefix r.1 = true) (map_to_list m)) in
  if reverse_ then reverse rows else rows.

Definition select_entries (start start_after end_ prefix : option string) (reverse_ : bool) (limit : option Z) :
  Sql (list (string * string)) :=
  with_kv (fun m => (sql_limit limit (listing start start_after end_ prefix reverse_ m), m)).

(** ** Operations *)

Definition check_key (key : string) : result unit string :=
  if MAX_KEY_BYTES <? str_len key then Err ("a key is at most " +:+ show_Z MAX_KEY_BYTES +:+ " bytes") else Ok tt.

Fixpoint each_ok {A} (f : A -> result unit string) (l : list A) : result unit string :=
  match l with [] => Ok tt | x :: l => _ <-? f x; each_ok f l end.

Definition check_keys (keys : list string) : result unit string :=
  if MAX_KEYS <? Z.of_nat (length keys) then Err ("a call takes at most " +:+ show_Z MAX_KEYS +:+ " keys")
  else each_ok check_key keys.

Definition check_put (put : string * string) : result unit string :=
  _ <-? check_key put.1;
  if MAX_VALUE_BYTES <? str_len put.2
  then Err ("the value of '" +:+ put.1 +:+ "' is over " +:+ show_Z MAX_VALUE_BYTES +:+ " bytes") else Ok tt.

Definition check_writes (st : settings) : result unit string :=
  match paused st with Some reason => Err (message (paused_error reason)) | None => Ok tt end.

Fixpoint read_values (keys : list string) : Sql (list (option string)) :=
  match keys with
  | [] => mret []
  | key :: keys => v ← select_value key; vs ← read_values keys; mret (v :: vs)
  end.

Fixpoint read_entries (limit bytes : Z) (rows : list (string * string)) : Sql (list (string * string)) :=
  _ ← next_row;
  match rows with
  | [] => mret []
  | (key, value) :: rows =>
    let bytes := bytes + (str_len key + str_len value) in
    if limit <? bytes then throw "the list is too large; list with a limit"
    else rest ← read_entries limit bytes rows; mret ((key, value) :: rest)
  end.

Fixpoint delete_keys (keys : list string) (deleted : Z) : Sql Z :=
  match keys with
  | [] => mret deleted
  | key :: keys =>
    n ← with_kv (fun m => (match m !! key with Some _ => 1 | None => 0 end, delete key m));
    delete_keys keys (deleted + n)
  end.

Fixpoint put_keys (puts : list (string * string)) : Sql unit :=
  match puts with
  | [] => mret tt
  | (key, value) :: puts => _ ← with_kv (fun m => (tt, <[key := value]> m)); put_keys puts
  end.

Definition write_body (puts : list (string * string)) (deletes : list string) (delete_all : bool) :
  Sql ObjectStorageResult :=
  _ ← (if delete_all then with_kv (fun m => (tt, ∅)) else mret tt);
  deleted ← delete_keys deletes 0;
  _ ← put_keys puts;
  mret (Written deleted).

Definition write_op (st : settings) (puts : list (string * string)) (deletes : list string) (delete_all : bool) :
  Sql ObjectStorageResult :=
  _ ← lift (check_keys deletes);
  _ ← lift (if MAX_KEYS <? Z.of_nat (length puts)
            then Err ("a put takes at most " +:+ show_Z MAX_KEYS +:+ " keys") else Ok tt);
  _ ← lift (each_ok check_put puts);
  _ ← lift (check_writes st);
  _ ← lift (match full st, puts with
            | Some reason, _ :: _ => Err ("the storage is full: " +:+ reason)
            | _, _ => Ok tt end);
  transaction (write_body puts deletes delete_all).

Definition object_op (st : settings) (op : ObjectStorageOp) : Sql ObjectStorageResult :=
  _ ← TABLE;
  _ ← ALARM_TABLE;
  match op with
  | GetAlarm => at_ ← select_alarm; mret (Alarm at_)
  | SetAlarm at_ =>
    _ ← lift (check_writes st);
    _ ← with_alarm (fun _ => (tt, at_));
    mret (Alarm at_)
  | Get keys =>
    _ ← lift (check_keys keys);
    _ ← next_row;
    values ← read_values keys;
    mret (Values values)
  | List_ start start_after end_ prefix reverse_ limit =>
    rows ← select_entries start start_after end_ prefix reverse_ ((fun n => Z.min n I64_MAX) <$> limit);
    entries ← read_entries (result_bytes st) 0 rows;
    mret (Entries entries)
  | Write puts deletes delete_all => write_op st puts deletes delete_all
  end.

Definition or_error (r : result ObjectStorageResult string * conn) : ObjectStorageResult * conn :=
  match r with (Ok a, c) => (a, c) | (Err e, c) => (Error e, c) end.

Definition object (st : settings) (op : ObjectStorageOp) (c : conn) : ObjectStorageResult * conn :=
  or_error (object_op st op c).

Definition clear_alarm (st : settings) (at_ : Z) (c : conn) : ObjectStorageResult * conn :=
  or_error ((_ ← lift (check_writes st);
             _ ← ALARM_TABLE;
             _ ← with_alarm (fun r => (tt, if decide (r = Some at_) then None else r));
             left_ ← select_alarm;
             mret (Alarm left_)) c).

(** ** What the tables hold *)

Definition keys_of (c : conn) : gmap string string := default ∅ (kv (data c)).
Definition alarm_of (c : conn) : option Z := default None (alarm_row (data c)).

Definition ready (c : conn) (m : gmap string string) (a : option Z) : Prop :=
  data c = mkTables (Some m) (Some a).

Lemma ready_keys c m a : ready c m a -> keys_of c = m /\ alarm_of c = a.
Proof. unfold ready, keys_of, alarm_of. by intros ->. Qed.

Lemma execute_inv {A} (run : tables -> result (A * tables) string) c r c' : execute run c = (r, c') ->
  (is_ok r = false /\ data c' = data c) \/ (exists a, r = Ok a /\ run (data c) = Ok (a, data c')).
Proof.
  unfold execute. intros E.
  destruct (head (faults c)) as [[e|]|]; [by injection E as <- <-; left|..];
    (destruct (run (data c)) as [[a t]|e]; injection E as <- <-; [right; by exists a|by left]).
Qed.

Lemma next_row_ready c m a r c' : ready c m a -> next_row c = (r, c') -> ready c' m a.
Proof.
  unfold ready. intros Hc E. apply execute_inv in E as [[_ ->]|([] & _ & [= <-])]; done.
Qed.

Lemma with_kv_ready {A} (f : gmap string string -> A * gmap string string) c m a r c' :
  ready c m a -> with_kv f c = (r, c') ->
  (is_ok r = false /\ ready c' m a) \/ (r = Ok (f m).1 /\ ready c' (f m).2 a).
Proof.
  unfold ready. intros Hc E. apply execute_inv in E as [[He ->]|(x & -> & E)]; [by left|right].
  rewrite Hc in E. simpl in E. destruct (f m) as [y m']. injection E as <- <-. done.
Qed.

Lemma with_alarm_ready {A} (f : option Z -> A * option Z) c m a r c' :
  ready c m a -> with_alarm f c = (r, c') ->
  (is_ok r = false /\ ready c' m a) \/ (r = Ok (f a).1 /\ ready c' m (f a).2).
Proof.
  unfold ready. intros Hc E. apply execute_inv in E as [[He ->]|(x & -> & E)]; [by left|right].
  rewrite Hc in E. simpl in E. destruct (f a) as [y a']. injection E as <- <-. done.
Qed.

(** The tables are there, whatever they held, once both are created. *)
Lemma created c r c' : (_ ← TABLE; ALARM_TABLE) c = (r, c') ->
  keys_of c' = keys_of c /\ alarm_of c' = alarm_of c /\ (is_ok r = true -> ready c' (keys_of c) (alarm_of c)).
Proof.
  intros E. apply SE_bind_inv in E as [([] & c1 & E1 & E)|(e & E1 & ->)].
  - apply execute_inv in E1 as [[]|([] & _ & [= E1])]; [done|]. unfold keys_of, alarm_of, ready.
    apply execute_inv in E as [[He E2]|([] & -> & [= E2])]; rewrite <- ?E2, <- ?E1; simpl;
      [rewrite E2, <- E1; simpl; by destruct r|].
    split_and!; try done; by destruct (alarm_row (data c)).
  - apply execute_inv in E1 as [[_ E1]|([] & ? & _)]; [|done]. unfold keys_of, alarm_of. by rewrite E1.
Qed.

Definition body_of (st : settings) (op : ObjectStorageOp) : Sql ObjectStorageResult :=
  match op with
  | GetAlarm => at_ ← select_alarm; mret (Alarm at_)
  | SetAlarm at_ =>
    _ ← lift (check_writes st);
    _ ← with_alarm (fun _ => (tt, at_));
    mret (Alarm at_)
  | Get keys =>
    _ ← lift (check_keys keys);
    _ ← next_row;
    values ← read_values keys;
    mret (Values values)
  | List_ start start_after end_ prefix reverse_ limit =>
    rows ← select_entries start start_after end_ prefix reverse_ ((fun n => Z.min n I64_MAX) <$> limit);
    entries ← read_entries (result_bytes st) 0 rows;
    mret (Entries entries)
  | Write puts deletes delete_all => write_op st puts deletes delete_all
  end.

(** An operation answers an error and changes nothing, or runs on the tables. *)
Lemma object_inv st op c r c' : object st op c = (r, c') ->
  (exists e, r = Error e /\ keys_of c' = keys_of c /\ alarm_of c' = alarm_of c) \/
  (exists c1, ready c1 (keys_of c) (alarm_of c) /\ or_error (body_of st op c1) = (r, c')).
Proof.
  unfold object. intros E.
  assert (Eo : object_op st op c = (_ ← (_ ← TABLE; ALARM_TABLE); body_of st op) c).
  { unfold object_op, body_of, mbind, SE_bind. by destruct (TABLE c) as [[[]|] c1]. }
  rewrite Eo in E. clear Eo.
  destruct ((_ ← (_ ← TABLE; ALARM_TABLE); body_of st op) c) as [x cx] eqn:Ex.
  apply SE_bind_inv in Ex as [([] & c1 & E1 & E2)|(e & E1 & ->)].
  - right. exists c1. apply created in E1 as (_ & _ & Hr). split; [by apply Hr|]. by rewrite E2.
  - left. exists e. apply created in E1 as (Hk & Ha & _). simpl in E. by injection E as <- <-.
Qed.

(** ** Reads *)

Lemma read_values_ready keys c m a r c' : ready c m a -> read_values keys c = (r, c') ->
  ready c' m a /\ forall vs, r = Ok vs -> vs = (fun k => m !! k) <$> keys.
Proof.
  revert c r c'. induction keys as [|key keys IH]; intros c r c' Hc E; simpl in E.
  - injection E as <- <-. split; [done|]. by intros vs [= <-].
  - apply SE_bind_inv in E as [(v & c1 & E1 & E)|(e & E1 & ->)];
      apply (with_kv_ready _ _ m a) in E1 as [[? H1]|[Hv H1]]; try done.
    apply SE_bind_inv in E as [(vs & c2 & E2 & E)|(e & E2 & ->)]; apply IH in E2 as [H2 Hvs]; try done.
    injection E as <- <-. split; [done|]. intros l [= <-]. injection Hv as ->. by rewrite (Hvs _ eq_refl).
Qed.

Lemma read_entries_ready limit bytes rows c m a r c' : ready c m a -> read_entries limit bytes rows c = (r, c') ->
  ready c' m a /\
  forall es, r = Ok es -> es = rows /\ (bytes <= limit -> bytes + sumz (fun e => str_len e.1 + str_len e.2) es <= limit).
Proof.
  revert bytes c r c'. induction rows as [|[key value] rows IH]; intros bytes c r c' Hc E; cbn [read_entries] in E;
    (apply SE_bind_inv in E as [([] & c1 & E1 & E)|(e & E1 & ->)];
     apply (next_row_ready _ m a) in E1; [|done|by split|done]).
  - injection E as <- <-. split; [done|]. intros es [= <-]. split; [done|]. simpl. lia.
  - destruct (Z.ltb_spec limit (bytes + (str_len key + str_len value))); [by injection E as <- <-|].
    apply SE_bind_inv in E as [(rest & c2 & E2 & E)|(e & E2 & ->)]; apply IH in E2 as [H2 Hes]; try done.
    injection E as <- <-. split; [done|]. intros es [= <-]. destruct (Hes _ eq_refl) as [-> Hs].
    split; [done|]. intros _. simpl. specialize (Hs ltac:(lia)). lia.
Qed.

(** ** Writes *)

Fixpoint last_put (k : string) (puts : list (string * string)) : option string :=
  match puts with
  | [] => None
  | (j, v) :: puts => match last_put k puts with
                      | Some w => Some w
                      | None => if String.eqb k j then Some v else None
                      end
  end.

Lemma delete_keys_ready keys n c m a r c' : ready c m a -> delete_keys keys n c = (r, c') ->
  exists m', ready c' m' a /\
  forall d, r = Ok d ->
    (forall k, m' !! k = if decide (k ∈ keys) then None else m !! k) /\
    d = n + (Z.of_nat (size m) - Z.of_nat (size m')).
Proof.
  revert n c m. induction keys as [|key keys IH]; intros n c m Hc E; simpl in E.
  - injection E as <- <-. exists m. split; [done|]. intros d [= <-]. split; [done|lia].
  - apply SE_bind_inv in E as [(x & c1 & E1 & E)|(e & E1 & ->)];
      apply (with_kv_ready _ _ m a) in E1 as [[? H1]|[Hx H1]]; try done; [|by exists m].
    injection Hx as ->. simpl in H1. apply (IH _ _ _ H1) in E as (m' & H2 & Hd). exists m'. split; [done|].
    intros d Hr. destruct (Hd d Hr) as [Hl ->]. split.
    + intros k. rewrite Hl. destruct (decide (k = key)) as [->|].
      * rewrite (decide_True (P := key ∈ key :: keys)) by set_solver. case_decide; [done|by rewrite lookup_delete_eq].
      * rewrite lookup_delete_ne by done. repeat case_decide; set_solver.
    + destruct (m !! key) as [v|] eqn:Em.
      * pose proof (map_size_delete_Some key m (mk_is_Some _ _ Em)). assert (size m <> 0%nat).
        { intros Hz%map_size_empty_inv. by rewrite Hz in Em. } lia.
      * rewrite delete_id by done. lia.
Qed.

Lemma put_keys_ready puts c m a r c' : ready c m a -> put_keys puts c = (r, c') ->
  exists m', ready c' m' a /\
  (is_ok r = true -> forall k, m' !! k = match last_put k puts with Some v => Some v | None => m !! k end).
Proof.
  revert c m. induction puts as [|[key value] puts IH]; intros c m Hc E; simpl in E.
  - injection E as <- <-. by exists m.
  - apply SE_bind_inv in E as [([] & c1 & E1 & E)|(e & E1 & ->)];
      apply (with_kv_ready _ _ m a) in E1 as [[? H1]|[Hx H1]]; try done; [|by exists m].
    simpl in H1. apply (IH _ _ H1) in E as (m' & H2 & Hl). exists m'. split; [done|].
    intros Hr k. rewrite (Hl Hr k). simpl. destruct (last_put k puts); [done|].
    destruct (String.eqb_spec k key) as [->|]; [by rewrite lookup_insert_eq|by rewrite lookup_insert_ne].
Qed.

(** The body of a write: the keys after it, when it gets to its end. *)
Lemma write_body_ready puts deletes delete_all c m a r c' : ready c m a ->
  write_body puts deletes delete_all c = (r, c') ->
  forall x, r = Ok x -> exists m1 m' : gmap string string, ready c' m' a /\
    x = Written (Z.of_nat (size (if delete_all then ∅ else m)) - Z.of_nat (size m1)) /\
    (forall k, m1 !! k = if delete_all || bool_decide (k ∈ deletes) then None else m !! k) /\
    (forall k, m' !! k = match last_put k puts with Some v => Some v | None => m1 !! k end).
Proof.
  intros Hc E x ->. set (m0 := if delete_all then ∅ else m).
  apply SE_bind_inv in E as [([] & c1 & E1 & E)|(e & E1 & ?)]; [|done].
  assert (H1 : ready c1 m0 a).
  { unfold m0. destruct delete_all; [|by injection E1 as <-].
    apply (with_kv_ready _ _ m a) in E1 as [[? _]|[_ H1]]; done. }
  apply SE_bind_inv in E as [(d & c2 & E2 & E)|(e & E2 & ?)]; [|done].
  apply (delete_keys_ready _ _ _ m0 a) in E2 as (m1 & H2 & Hd); [|done]. destruct (Hd d eq_refl) as [Hl ->].
  apply SE_bind_inv in E as [([] & c3 & E3 & E)|(e & E3 & ?)]; [|done].
  apply (put_keys_ready _ _ m1 a) in E3 as (m' & H3 & Hp); [|done]. injection E as <- <-.
  exists m1, m'. split_and!; [done|f_equal; lia| |by apply Hp].
  intros k. rewrite Hl. unfold m0. destruct delete_all; simpl; [by case_decide|by case_decide; case_bool_decide].
Qed.

Lemma transaction_ready {A} (body : Sql A) c m a r c' : ready c m a -> transaction body c = (r, c') ->
  match r with
  | Err _ => ready c' m a
  | Ok x => exists c1 c2, ready c1 m a /\ body c1 = (Ok x, c2) /\ forall m' a', ready c2 m' a' -> ready c' m' a'
  end.
Proof.
  intros Hc. unfold transaction. destruct ((_ ← next_row; a ← body; _ ← next_row; mret a) c) as [x cx] eqn:E.
  destruct x as [x|e]; intros [= <- <-]; [|done].
  apply SE_bind_inv in E as [([] & c1 & E1 & E)|(e & _ & ?)]; [|done]. apply (next_row_ready _ m a) in E1; [|done].
  apply SE_bind_inv in E as [(y & c2 & E2 & E)|(e & _ & ?)]; [|done].
  apply SE_bind_inv in E as [([] & c3 & E3 & E)|(e & _ & ?)]; [|done]. injection E as <- <-.
  exists c1, c2. split_and!; [done..|]. intros m' a' H2. by eapply next_row_ready.
Qed.

Lemma lift_inv {A} (x : result A string) (c : conn) r c' : lift x c = (r, c') -> c' = c /\ r = x.
Proof. by intros [= <- <-]. Qed.

(** The checks of a write, and its transaction. *)
Lemma write_op_ready st puts deletes delete_all c m a r c' : ready c m a ->
  write_op st puts deletes delete_all c = (r, c') ->
  match r with
  | Err _ => ready c' m a
  | Ok x => paused st = None /\ (full st = None \/ puts = []) /\
      check_keys deletes = Ok tt /\ (length puts <= Z.to_nat MAX_KEYS)%nat /\ each_ok check_put puts = Ok tt /\
      exists m1 m' : gmap string string, ready c' m' a /\
        x = Written (Z.of_nat (size (if delete_all then ∅ else m)) - Z.of_nat (size m1)) /\
        (forall k, m1 !! k = if delete_all || bool_decide (k ∈ deletes) then None else m !! k) /\
        (forall k, m' !! k = match last_put k puts with Some v => Some v | None => m1 !! k end)
  end.
Proof.
  intros Hc E. unfold write_op in E.
  apply SE_bind_inv in E as [([] & c1 & E1 & E)|(e & E1 & ->)]; apply lift_inv in E1 as [-> E1]; [|done].
  apply SE_bind_inv in E as [([] & c1 & E2 & E)|(e & E2 & ->)]; apply lift_inv in E2 as [-> E2]; [|done].
  apply SE_bind_inv in E as [([] & c1 & E3 & E)|(e & E3 & ->)]; apply lift_inv in E3 as [-> E3]; [|done].
  apply SE_bind_inv in E as [([] & c1 & E4 & E)|(e & E4 & ->)]; apply lift_inv in E4 as [-> E4]; [|done].
  apply SE_bind_inv in E as [([] & c1 & E5 & E)|(e & E5 & ->)]; apply lift_inv in E5 as [-> E5]; [|done].
  pose proof (transaction_ready _ c m a r c' Hc E) as Ht. destruct r as [x|]; [|done].
  destruct Ht as (c1 & c2 & H1 & Hb & H2). split_and!; try done.
  - unfold check_writes in E4. by destruct (paused st).
  - destruct (full st), puts; try done; auto.
  - destruct (Z.ltb_spec MAX_KEYS (Z.of_nat (length puts))); [done|lia].
  - destruct (write_body_ready _ _ _ _ _ _ _ _ H1 Hb x eq_refl) as (m1 & m' & Hr & ?). exists m1, m'.
    split; [by apply H2|done].
Qed.

(** ** Listings *)

Lemma utf8_before_nul w s : utf8 w s = true -> utf8 w (before_nul s) = true.
Proof.
  revert w. induction s as [|c s IH]; intros [|w]; simpl; try done.
  - destruct (Z.eqb_spec (byte_of c) 0); [done|]. simpl. destruct (width c); [apply IH|done].
  - intros [Hc Hs]%andb_prop. destruct (Z.eqb_spec (byte_of c) 0) as [E|].
    + unfold is_continuation in Hc. by rewrite E in Hc.
    + simpl. rewrite Hc. by apply IH.
Qed.

Lemma starts_with_before_nul p s : before_nul p = p -> starts_with p (before_nul s) = starts_with p s.
Proof.
  unfold starts_with. revert s. induction p as [|c p IH]; [by intros []|]. intros s. simpl.
  destruct (Z.eqb_spec (byte_of c) 0) as [|Hc]; [done|]. intros [= Hp]. destruct s as [|d s]; [done|]. simpl.
  destruct (Z.eqb_spec (byte_of d) 0) as [Hd|Hd].
  - destruct (Ascii.eqb_spec c d) as [->|]; done.
  - simpl. destruct (Ascii.eqb c d); [by apply IH|done].
Qed.

(** The prefix clause of SQLite, on text without NUL. *)
Lemma prefix_clause p key : before_nul p = p -> utf8 0 p = true -> utf8 0 key = true ->
  String.eqb (sqlite_left key (sqlite_length p)) p = starts_with p key.
Proof.
  intros Hn Hp Hk. unfold sqlite_left, sqlite_length. rewrite Hn, left_chars_starts_with.
  - by apply starts_with_before_nul.
  - done.
  - by apply utf8_before_nul.
Qed.

(** The keys a listing asks for. *)
Definition wanted (start start_after end_ prefix : option string) (key : string) : bool :=
  match start with Some s => String.leb s key | None => true end &&
  match start_after with Some s => String.ltb s key | None => true end &&
  match end_ with Some s => String.ltb key s | None => true end &&
  match prefix with Some p => starts_with p key | None => true end.

Definition before (reverse_ : bool) (a b : string * string) : Prop :=
  String.ltb (if reverse_ then b.1 else a.1) (if reverse_ then a.1 else b.1) = true.

#[local] Instance key_le_total : Total key_le.
Proof. intros a b. apply String.leb_total. Qed.

#[local] Instance key_le_trans : Transitive key_le.
Proof.
  intros a b c. unfold key_le. rewrite !str_leb_spec. intros [Hab| ->] [Hbc|<-]; auto.
  left. by eapply str_ltb_trans.
Qed.

Lemma sorted_before l : NoDup l.*1 -> StronglySorted key_le l -> StronglySorted (before false) l.
Proof.
  induction l as [|x l IH]; simpl; [constructor|]. intros [Hx Hn]%NoDup_cons [Hs Hf]%StronglySorted_inv.
  constructor; [by apply IH|]. rewrite Forall_forall in *. intros y Hy.
  apply Hf in Hy as Hle. unfold key_le in Hle. apply str_leb_spec in Hle as [?|E]; [done|].
  destruct Hx. rewrite E. by apply list_elem_of_fmap_2.
Qed.

Lemma sorted_app_r {A} (R : A -> A -> Prop) l x : StronglySorted R l -> Forall (fun y => R y x) l ->
  StronglySorted R (l ++ [x]).
Proof.
  induction l as [|y l IH]; simpl; [repeat constructor|]. intros [Hs Hf]%StronglySorted_inv [Hy Hl]%Forall_cons.
  constructor; [by apply IH|]. apply Forall_app. split; [done|by repeat constructor].
Qed.

Lemma sorted_reverse l : StronglySorted (before false) l -> StronglySorted (before true) (reverse l).
Proof.
  induction l as [|x l IH]; [constructor|]. intros [Hs Hf]%StronglySorted_inv. rewrite reverse_cons.
  apply sorted_app_r; [by apply IH|]. apply Forall_reverse. eapply Forall_impl; [exact Hf|]. done.
Qed.

Lemma take_z_spec {A} n (l : list A) : 0 <= n -> exists rest, l = take_z n l ++ rest /\
  (rest = [] \/ Z.of_nat (length (take_z n l)) = n).
Proof.
  revert n. induction l as [|x l IH]; intros n Hn; simpl; [by exists []; auto|].
  destruct (Z.ltb_spec 0 n).
  - destruct (IH (n - 1)) as (rest & Hl & Hr); [lia|]. exists rest. simpl. split; [by f_equal|].
    destruct Hr; [auto|right; lia].
  - exists (x :: l). split; [done|right; simpl; lia].
Qed.

Lemma listing_spec start start_after end_ prefix reverse_ (m : gmap string string) :
  (forall p, prefix = Some p -> before_nul p = p /\ utf8 0 p = true) ->
  (forall k v, m !! k = Some v -> utf8 0 k = true) ->
  (forall k v, (k, v) ∈ listing start start_after end_ prefix reverse_ m <->
     m !! k = Some v /\ wanted start start_after end_ prefix k = true) /\
  StronglySorted (before reverse_) (listing start start_after end_ prefix reverse_ m).
Proof.
  intros Hpre Hutf. unfold listing. set (rows := merge_sort key_le _).
  assert (Hr : forall k v, (k, v) ∈ rows <-> m !! k = Some v /\ wanted start start_after end_ prefix k = true).
  { intros k v. unfold rows. rewrite merge_sort_Permutation, list_elem_of_filter, elem_of_map_to_list. simpl.
    unfold in_listing, wanted. destruct prefix as [p|]; [|tauto]. destruct (Hpre p eq_refl).
    split; intros [H1 H2]; split; try done; rewrite prefix_clause in *; eauto. }
  assert (Hs : StronglySorted (before false) rows).
  { apply sorted_before; [|apply (StronglySorted_merge_sort key_le)]. unfold rows. rewrite merge_sort_Permutation.
    apply (sublist_NoDup _ _ (NoDup_fst_map_to_list m)). apply fmap_sublist, sublist_filter. }
  destruct reverse_; [|done]. split; [|by apply sorted_reverse]. intros k v. by rewrite elem_of_reverse.
Qed.

(** ** Properties *)

(** A write of an object is one step. When it answers, the keys it deleted
    are gone, the keys it put have the last value put, the other keys are as
    they were, and the count is the number of keys the deletes removed. When
    it answers an error, whichever statement failed, nothing changed. It is
    refused while writes are paused, and when the namespace is full unless it
    only deletes. Reads then see exactly these keys, and the alarm is never
    touched. *)
Theorem write_then_read st puts deletes delete_all c r c' keys st' vs c'' :
  object st (Write puts deletes delete_all) c = (r, c') ->
  object st' (Get keys) c' = (Values vs, c'') ->
  vs = (fun k => keys_of c' !! k) <$> keys /\ keys_of c'' = keys_of c' /\
  alarm_of c' = alarm_of c /\
  match r with
  | Written n =>
    paused st = None /\ (full st = None \/ puts = []) /\
    (forall k, keys_of c' !! k =
       match last_put k puts with
       | Some v => Some v
       | None => if delete_all || bool_decide (k ∈ deletes) then None else keys_of c !! k
       end) /\
    exists m1 : gmap string string, (forall k, m1 !! k = if delete_all || bool_decide (k ∈ deletes) then None else keys_of c !! k) /\
      n = Z.of_nat (size (if delete_all then ∅ else keys_of c)) - Z.of_nat (size m1)
  | Error _ => keys_of c' = keys_of c
  | _ => False
  end.
Proof.
  intros Ew Eg.
  assert (Hw : alarm_of c' = alarm_of c /\ match r with
    | Written n => paused st = None /\ (full st = None \/ puts = []) /\
        (forall k, keys_of c' !! k = match last_put k puts with
          | Some v => Some v
          | None => if delete_all || bool_decide (k ∈ deletes) then None else keys_of c !! k
          end) /\
        exists m1 : gmap string string, (forall k, m1 !! k = if delete_all || bool_decide (k ∈ deletes) then None else keys_of c !! k) /\
          n = Z.of_nat (size (if delete_all then ∅ else keys_of c)) - Z.of_nat (size m1)
    | Error _ => keys_of c' = keys_of c
    | _ => False
    end).
  { apply object_inv in Ew as [(e & -> & ? & ?)|(c1 & H1 & Eb)]; [done|]. simpl in Eb.
    destruct (write_op st puts deletes delete_all c1) as [x cx] eqn:Ex. apply (write_op_ready _ _ _ _ _ _ _ _ _ H1) in Ex.
    destruct x as [x|e]; injection Eb as <- <-.
    - destruct Ex as (Hp & Hf & _ & _ & _ & m1 & m' & [Hk Ha]%ready_keys & -> & Hm1 & Hm').
      split; [done|]. split_and!; [done..| |by exists m1]. intros k. rewrite Hk, Hm', Hm1. done.
    - apply ready_keys in Ex as [??]. done. }
  destruct Hw as [Ha Hw]. apply object_inv in Eg as [(e & ? & _)|(c1 & H1 & Eb)]; [done|].
  destruct (body_of st' (Get keys) c1) as [x cx] eqn:Ex. destruct x as [x|]; [|done]. injection Eb as -> <-.
  apply SE_bind_inv in Ex as [([] & d1 & E1 & E)|(e & _ & ?)]; [|done]. apply lift_inv in E1 as [-> _].
  apply SE_bind_inv in E as [([] & d2 & E2 & E)|(e & _ & ?)]; [|done]. apply (next_row_ready _ _ _ _ _ H1) in E2.
  apply SE_bind_inv in E as [(l & d3 & E3 & E)|(e & _ & ?)]; [|done].
  apply (read_values_ready _ _ _ _ _ _ E2) in E3 as [H3 Hl]. injection E as <- <-.
  apply ready_keys in H3 as [Hk _]. split_and!; [by apply Hl|done..].
Qed.

(** A listing answers the keys of the object that are in the range and
    have the prefix, in byte order or in its reverse, with their values: all
    of them, or as many of the first ones as the limit says. It answers an
    error rather than more bytes than a result may have, and changes nothing.
    The prefix must not hold a NUL, where the text functions of SQLite stop. *)
Theorem list_exact st start start_after end_ prefix reverse_ limit c es c' :
  (forall p, prefix = Some p -> before_nul p = p /\ utf8 0 p = true) ->
  (forall k v, keys_of c !! k = Some v -> utf8 0 k = true) ->
  (forall n, limit = Some n -> 0 <= n) -> 0 <= result_bytes st ->
  object st (List_ start start_after end_ prefix reverse_ limit) c = (Entries es, c') ->
  keys_of c' = keys_of c /\
  sumz (fun e => str_len e.1 + str_len e.2) es <= result_bytes st /\
  exists rest, StronglySorted (before reverse_) (es ++ rest) /\
    (forall k v, (k, v) ∈ es ++ rest <->
       keys_of c !! k = Some v /\ wanted start start_after end_ prefix k = true) /\
    (rest = [] \/ exists n, limit = Some n /\ Z.of_nat (length es) = Z.min n I64_MAX).
Proof.
  intros Hpre Hutf Hlim Hres E. apply object_inv in E as [(e & ? & _)|(c1 & H1 & Eb)]; [done|].
  destruct (body_of st _ c1) as [x cx] eqn:Ex. destruct x as [x|]; [|done]. injection Eb as -> <-.
  apply SE_bind_inv in Ex as [(rows & c2 & E1 & E)|(e & _ & ?)]; [|done].
  apply (with_kv_ready _ _ _ _ _ _ H1) in E1 as [[? _]|[Er H2]]; [done|].
  cbn [fst] in Er. injection Er as ->.
  apply SE_bind_inv in E as [(l & c3 & E2 & E)|(e & _ & ?)]; [|done]. injection E as -> <-.
  apply (read_entries_ready _ _ _ _ _ _ _ _ H2) in E2 as [H3 Hes]. destruct (Hes es eq_refl) as [-> Hsum].
  apply ready_keys in H3 as [Hk _]. split_and!; [done|by apply Hsum|].
  destruct (listing_spec start start_after end_ prefix reverse_ (keys_of c) Hpre Hutf) as [Hall Hsort].
  revert Hall Hsort. generalize (listing start start_after end_ prefix reverse_ (keys_of c)). intros l Hall Hsort.
  destruct limit as [n|]; simpl.
  - specialize (Hlim n eq_refl). assert (0 <= Z.min n I64_MAX) as Hn by (unfold I64_MAX; lia).
    destruct (Z.ltb_spec (Z.min n I64_MAX) 0); [lia|].
    destruct (take_z_spec (Z.min n I64_MAX) l Hn) as (rest & Hr & Hl). exists rest. rewrite <- Hr.
    split_and!; [done..|]. destruct Hl; [by left|right; by exists n].
  - exists []. rewrite app_nil_r. auto.
Qed.

(** The alarm: what [SetAlarm], [GetAlarm] and [clear_alarm] do to it. A
    [clear_alarm] whose last read fails has cleared the alarm already. *)
Theorem alarm_ops st c r c' :
  (forall at_, object st (SetAlarm at_) c = (r, c') ->
     keys_of c' = keys_of c /\
     ((r = Alarm at_ /\ alarm_of c' = at_) \/ (exists e, r = Error e) /\ alarm_of c' = alarm_of c)) /\
  (object st GetAlarm c = (r, c') ->
     alarm_of c' = alarm_of c /\ (r = Alarm (alarm_of c) \/ exists e, r = Error e)).
Proof.
  split.
  - intros at_ E. apply object_inv in E as [(e & -> & ? & ?)|(c1 & H1 & Eb)]; [by split; [|right; eauto]|].
    destruct (body_of st (SetAlarm at_) c1) as [x cx] eqn:Ex.
    apply SE_bind_inv in Ex as [([] & c2 & E1 & E)|(e & E1 & ->)]; apply lift_inv in E1 as [-> _].
    2:{ injection Eb as <- <-. apply ready_keys in H1 as [??]. split; [done|right; eauto]. }
    apply SE_bind_inv in E as [([] & c2 & E2 & E)|(e & E2 & ->)];
      apply (with_alarm_ready _ _ _ _ _ _ H1) in E2 as [[? H2]|[? H2]]; try done; apply ready_keys in H2 as [??].
    + injection E as <- <-. injection Eb as <- <-. auto.
    + injection Eb as <- <-. split; [done|right; eauto].
  - intros E. apply object_inv in E as [(e & -> & ? & ?)|(c1 & H1 & Eb)]; [by split; [|right; eauto]|].
    destruct (body_of st GetAlarm c1) as [x cx] eqn:Ex.
    apply SE_bind_inv in Ex as [(a & c2 & E1 & E)|(e & E1 & ->)];
      apply (with_alarm_ready _ _ _ _ _ _ H1) in E1 as [[? H2]|[Ha H2]]; try done; apply ready_keys in H2 as [??].
    + injection Ha as ->. injection E as <- <-. injection Eb as <- <-. auto.
    + injection Eb as <- <-. split; [done|right; eauto].
Qed.

(** ** Witnesses *)

Definition ex_settings : settings := mkSettings 100 None None.
Definition ex_conn : conn := mkConn (mkTables None None) [].
Definition ex_write : ObjectStorageOp := Write [("b", "2"); ("a", "1"); ("b", "3")] ["zz"] false.
Definition ex_written : conn := (object ex_settings ex_write ex_conn).2.

Lemma write_then_read_witness :
  exists c' c'', object ex_settings ex_write ex_conn = (Written 0, c') /\
    object ex_settings (Get ["a"; "b"; "c"]) c' = (Values [Some "1"; Some "3"; None], c'') /\
    keys_of c' !! "b" = Some "3".
Proof.
  destruct (object ex_settings ex_write ex_conn) as [r c'] eqn:E.
  destruct (object ex_settings (Get ["a"; "b"; "c"]) c') as [r2 c''] eqn:E2.
  assert (Hr : r = Written 0) by (apply (f_equal fst) in E; vm_compute in E; done).
  assert (Hr2 : r2 = Values [Some "1"; Some "3"; None]).
  { replace c' with ex_written in E2 by (unfold ex_written; by rewrite E). apply (f_equal fst) in E2. vm_compute in E2. done. }
  subst. exists c', c''. split_and!; [done..|].
  pose proof (write_then_read _ _ _ _ _ _ _ _ _ _ _ E E2) as (_ & _ & _ & _ & _ & Hk & _). exact (Hk "b").
Defined.

Lemma list_exact_witness :
  exists es c', object ex_settings (List_ None None (Some "b") (Some "") true (Some 5)) ex_written = (Entries es, c') /\
    es = [("a", "1")] /\ keys_of c' = keys_of ex_written.
Proof.
  destruct (object ex_settings (List_ None None (Some "b") (Some "") true (Some 5)) ex_written) as [r c'] eqn:E.
  assert (Hr : r = Entries [("a", "1")]) by (apply (f_equal fst) in E; vm_compute in E; done).
  subst r. exists [("a", "1")], c'. split_and!; [done..|].
  refine (proj1 (list_exact _ _ _ _ _ _ _ ex_written _ c' _ _ _ _ E)).
  - by intros p [= <-].
  - intros k v Hk. change (keys_of ex_written) with (keys_of ex_written) in Hk.
    assert (Hm : keys_of ex_written = {["a" := "1"; "b" := "3"]}) by (vm_compute; done).
    rewrite Hm in Hk. apply lookup_insert_Some in Hk as [[<- _]|[_ Hk]]; [done|].
    apply lookup_singleton_Some in Hk as [<- _]. done.
  - intros n [= <-]. lia.
  - simpl. lia.
Defined.
