(* ===== verification/D1Service.v ===== *)
(** * The D1 service (src/src/d1/mod.rs)

    One handle per open database: its connection, the calls that wait for it,
    and how far its latest snapshot reaches. The functions that run under the
    lock of the map are definitions on the map; the step relation interleaves
    them with the calls, the timer and the snapshot pass. Times are
    milliseconds. *)

From S2P Require Import Prelude RustStr Extern D1Keys D1Sql ObjectStorage.

(** ** Configuration *)

Record Config := mkConfig {
  data_dir : string; database_bytes : Z; cfg_result_bytes : Z; timeout : Z; max_queue : Z; max_open : Z;
  idle : Z; min_free_bytes : Z; namespace_bytes : Z }.

Definition DEFAULT_DATABASE_BYTES : Z := 500 * 1024 * 1024.
Definition DEFAULT_RESULT_BYTES : Z := 16 * 1024 * 1024.

Definition number (env : string -> option string) (name : string) (dflt : Z) : Z :=
  default dflt (v ← env name; parse_uint U64_MAX v).

Definition from_env (env : string -> option string) : option Config :=
  dir ← env "D1_DATA_DIR";
  Some (mkConfig dir
    (number env "D1_MAX_DATABASE_BYTES" DEFAULT_DATABASE_BYTES)
    (number env "D1_MAX_RESULT_BYTES" DEFAULT_RESULT_BYTES)
    (number env "D1_TIMEOUT_MS" 30000)
    (number env "D1_MAX_QUEUE" 64)
    (number env "D1_MAX_OPEN" 256)
    (number env "D1_IDLE_SECS" 300 * 1000)
    (number env "D1_MIN_FREE_BYTES" (2 * 1024 * 1024 * 1024))
    (number env "DO_MAX_NAMESPACE_BYTES" (1024 * 1024 * 1024))).

(** ** Handles

    [locked]: a call holds the connection. [refs]: the owners of the handle,
    the map being one. *)
Record Handle := mkHandle {
  connected : bool; locked : bool; waiting : Z; last_used : Z;
  commits : Z; saved : Z; unsaved_since : option Z; refs : Z }.

Definition unsaved (h : Handle) : bool := negb (commits h =? saved h).
Definition is_open (h : Handle) : bool := locked h || connected h.

Definition close (h : Handle) : Handle :=
  if locked h then h
  else mkHandle false false (waiting h) (last_used h) (commits h) (saved h) (unsaved_since h) (refs h).

Definition set_refs (n : Z) (h : Handle) : Handle :=
  mkHandle (connected h) (locked h) (waiting h) (last_used h) (commits h) (saved h) (unsaved_since h) n.
Definition set_waiting (n : Z) (h : Handle) : Handle :=
  mkHandle (connected h) (locked h) n (last_used h) (commits h) (saved h) (unsaved_since h) (refs h).
Definition set_lock (c l : bool) (h : Handle) : Handle :=
  mkHandle c l (waiting h) (last_used h) (commits h) (saved h) (unsaved_since h) (refs h).
Definition set_commits (n : Z) (h : Handle) : Handle :=
  mkHandle (connected h) (locked h) (waiting h) (last_used h) n (saved h) (unsaved_since h) (refs h).
Definition set_saved (n : Z) (u : option Z) (h : Handle) : Handle :=
  mkHandle (connected h) (locked h) (waiting h) (last_used h) (commits h) n u (refs h).
Definition set_used (now : Z) (h : Handle) : Handle :=
  mkHandle (connected h) (locked h) (waiting h) now (commits h) (saved h) (unsaved_since h) (refs h).

Abbreviation Databases := (gmap string Handle).

(** [min_by_key]: the first of the least. *)
Fixpoint least_used (l : list (string * Handle)) : option (string * Handle) :=
  match l with
  | [] => None
  | x :: l => match least_used l with
              | Some y => if last_used y.2 <? last_used x.2 then Some y else Some x
              | None => Some x
              end
  end.

Definition evictable (h : Handle) : bool := (refs h =? 1) && is_open h.

Section service.
Context (cfg : Config).

Definition open_count (dbs : Databases) : Z := countb (fun x : string * Handle => is_open x.2) (map_to_list dbs).

(** What [handle] does to the others when too many are open. *)
Definition make_room (dbs : Databases) : Databases :=
  if max_open cfg <=? open_count dbs then
    match least_used (filter (fun x : string * Handle => evictable x.2 = true) (map_to_list dbs)) with
    | Some (oldest, h) => if unsaved h then <[oldest := close h]> dbs else delete oldest dbs
    | None => dbs
    end
  else dbs.

Definition new_handle (now : Z) : Handle := mkHandle false false 0 now 0 0 None 1.

(** The map with one more owner of the handle of [id]. *)
Definition handle (now : Z) (id : string) (dbs : Databases) : Handle * Databases :=
  match dbs !! id with
  | Some h => let h := set_refs (refs h + 1) h in (h, <[id := h]> dbs)
  | None => let h := set_refs 2 (new_handle now) in (h, <[id := h]> (make_room dbs))
  end.

Definition too_many : D1Error := error KOverloaded "too many queries are waiting for this database".

(** The start of [submit]: the place in the queue, or the refusal. *)
Definition enter_queue (now : Z) (id : string) (dbs : Databases) : result unit D1Error * Databases :=
  let '(h, dbs) := handle now id dbs in
  if max_queue cfg <=? waiting h
  then (Err too_many, <[id := set_refs (refs h - 1) h]> dbs)
  else (Ok tt, <[id := set_waiting (waiting h + 1) h]> dbs).

(** The end of [submit]. *)
Definition leave_queue (archive : bool) (now : Z) (h : Handle) : Handle :=
  let h := set_used now (set_waiting (waiting h - 1) h) in
  let h := if archive then h else set_saved (commits h) (unsaved_since h) h in
  let h := if unsaved h then set_saved (saved h) (Some (default now (unsaved_since h))) h else h in
  set_refs (refs h - 1) h.

(** [pause_after]: of the archive, if there is one. *)
Definition paused (disk_low : bool) (pause_after : option Z) (now : Z) (h : Handle) : option string :=
  if disk_low then Some "the data volume is almost full" else
  after ← pause_after;
  since ← unsaved_since h;
  if after <=? now - since
  then Some ("no snapshot for " +:+ show_Z ((now - since) / 1000 / 60) +:+ " minutes; retry later")
  else None.

Definition close_idle_one (now : Z) (h : Handle) : option Handle :=
  if (refs h =? 1) && (idle cfg <=? now - last_used h)
  then let h := close h in if unsaved h then Some h else None
  else Some h.

Definition close_idle (now : Z) (dbs : Databases) : Databases := omap (close_idle_one now) dbs.

(** [oldest_unsaved], with an archive. *)
Definition oldest_unsaved (now : Z) (dbs : Databases) : option Z :=
  foldr (fun (x : string * Handle) m =>
    match unsaved_since x.2 with
    | Some since => Some (match m with Some m => Z.max (now - since) m | None => now - since end)
    | None => m
    end) None (map_to_list dbs).

(** The databases a snapshot pass takes. *)
Definition unsaved_ids (dbs : Databases) : list string :=
  (filter (fun x : string * Handle => unsaved x.2 = true) (map_to_list dbs)).*1.

Definition in_use (id : string) (dbs : Databases) : bool :=
  match dbs !! id with Some h => 1 <? refs h | None => false end.

Definition check_disk (free : option Z) (disk_low : bool) : bool :=
  match free with Some free => free <? min_free_bytes cfg | None => disk_low end.

End service.

(** ** The bytes of a namespace *)

Record Usage := mkUsage { objects : gmap string Z; total : Z }.

Definition usage_default : Usage := mkUsage ∅ 0.

(** On [u64]. *)
Definition usage_set (object_id : string) (bytes : Z) (u : Usage) : Usage :=
  mkUsage (<[object_id := bytes]> (objects u))
    (wrap_u64 (wrap_u64 (total u - default 0 (objects u !! object_id)) + bytes)).

(** The files of the directory of a namespace, with their sizes. *)
Definition object_of_file (name : string) : option string :=
  match strip_suffix ".sqlite" name with
  | Some id => Some id
  | None => strip_suffix ".sqlite-wal" name
  end.

Definition scan_entry (u : Usage) (entry : string * Z) : Usage :=
  match object_of_file entry.1 with
  | Some id => usage_set id (default 0 (objects u !! id) + entry.2) u
  | None => u
  end.

Definition scan (entries : list (string * Z)) : Usage := foldl scan_entry usage_default entries.

(** [dir]: the entries of the directory of each namespace on disk. *)
Definition full (limit : Z) (dir : string -> list (string * Z)) (namespace_id : string) (ns : gmap string Usage) :
  option string * gmap string Usage :=
  let usage := default (scan (dir namespace_id)) (ns !! namespace_id) in
  (if limit <=? total usage
   then Some ("the objects of the namespace hold " +:+ show_Z (Z.shiftr (total usage) 20) +:+ " of " +:+
              show_Z (Z.shiftr limit 20) +:+ " MiB")
   else None, <[namespace_id := usage]> ns).

(** After a job: the size of the object. *)
Definition measured (namespace_id object_id : string) (bytes : Z) (ns : gmap string Usage) : gmap string Usage :=
  <[namespace_id := usage_set object_id bytes (default usage_default (ns !! namespace_id))]> ns.

(** ** Opening and answering *)

Inductive Done : Type := DD1 (r : D1Result) | DObject (r : ObjectStorageResult).

Definition internal_error : D1Result := RError (error KUnavailable "internal error").
Definition unavailable_done (m : string) : Done := DD1 (RError (error KUnavailable m)).

Definition d1_result (d : Done) : D1Result := match d with DD1 r => r | DObject _ => internal_error end.

Definition object_result (d : Done) : ObjectStorageResult :=
  match d with
  | DObject r => r
  | DD1 (RError e) => Error (message e)
  | DD1 _ => Error "internal error"
  end.

Definition outcome (d : Done) : string :=
  match d with
  | DObject (Error _) => "object_error"
  | DObject _ => "ok"
  | DD1 (RError e) =>
    match kind e with
    | KSql => "sql" | KType => "type" | KRange => "range" | KInterrupted => "interrupted"
    | KOverloaded => "overloaded" | KUnavailable => "unavailable"
    end
  | DD1 _ => "ok"
  end.

Section named.
Context {U : Type} `{Uuid U}.

(** The file a call on a D1 database is for. *)
Definition database_file (database_id : string) : result string Done :=
  match uuid_parse database_id with
  | Some id => Ok (uuid_string id)
  | None => Err (unavailable_done "the binding does not name a database")
  end.

Definition object_file (namespace_id object_id : string) : result string ObjectStorageResult :=
  match object_key namespace_id object_id with
  | Some key => Ok key
  | None => Err (Error "not the storage of an object")
  end.

(** The map after [remove_files], [remove_namespace_files] and
    [reset_to_snapshot], when they go on to the files. *)
Definition remove_files (id : string) (dbs : Databases) : option Databases :=
  match uuid_parse id with
  | None => None
  | Some id => let id := uuid_string id in if in_use id dbs then None else Some (delete id dbs)
  end.

Definition namespace_prefix (u : U) : string := OBJECTS +:+ "/" +:+ uuid_string u +:+ "/".

Definition remove_namespace_files (namespace_id : string) (dbs : Databases) : option Databases :=
  match uuid_parse namespace_id with
  | None => None
  | Some u =>
    let prefix := namespace_prefix u in
    if existsb (fun x : string * Handle => starts_with prefix x.1 && (1 <? refs x.2)) (map_to_list dbs)
    then None
    else Some (filter (fun x : string * Handle => starts_with prefix x.1 = false) dbs)
  end.

Definition reset_to_snapshot (archive : bool) (id : string) (dbs : Databases) : result Databases string :=
  if negb archive then Err "snapshots are off on this runner" else
  match uuid_parse id with
  | None => Err "not a database ID"
  | Some id =>
    let id := uuid_string id in
    if in_use id dbs then Err "the database is in use; retry" else Ok (delete id dbs)
  end.

End named.

(** ** Calls, snapshots and timers, interleaved

    [files] and [archived]: how many commits the file and the latest snapshot
    of a database hold; a database whose file is missing is restored when it
    is opened. A reset is one step; [D1Calls] has its two halves. A call waits,
    runs, then leaves; the snapshot pass goes through
    its databases one by one. The steps that need [racy] are those the theorem
    about snapshots excludes: the commit hook of SQLite runs before the commit
    is in the file, a caller goes away, a snapshot is saved while the clock is
    behind the snapshots of its database, the runner restarts. *)

Inductive pc : Type := Queued | Running | Committing | Ended.
Record call := mkCall { c_id : string; c_pc : pc }.

(** [covered]: the commits when the snapshot started; [copied]: those the copy
    holds. *)
Inductive stage : Type :=
| Todo | Loaded (covered started : Z) | Copied (covered started copied : Z) | Stored (covered started : Z).

Record svc := mkSvc {
  dbs : Databases; calls : list call; pass : list (string * stage);
  files : gmap string Z; archived : gmap string Z; now : Z }.

Definition set_dbs (d : Databases) (s : svc) : svc := mkSvc d (calls s) (pass s) (files s) (archived s) (now s).
Definition set_calls (c : list call) (s : svc) : svc := mkSvc (dbs s) c (pass s) (files s) (archived s) (now s).
Definition set_pass (p : list (string * stage)) (s : svc) : svc :=
  mkSvc (dbs s) (calls s) p (files s) (archived s) (now s).
Definition set_files (f : gmap string Z) (s : svc) : svc := mkSvc (dbs s) (calls s) (pass s) f (archived s) (now s).
Definition set_archived (a : gmap string Z) (s : svc) : svc := mkSvc (dbs s) (calls s) (pass s) (files s) a (now s).

Definition put (id : string) (h : Handle) (s : svc) : svc := set_dbs (<[id := h]> (dbs s)) s.

(** The commits that the snapshot and the file of [id] hold. *)
Definition arch (s : svc) (id : string) : Z := default 0 (archived s !! id).
Definition file (s : svc) (id : string) : Z := default (arch s id) (files s !! id).

Section steps.
Context (cfg : Config) (racy : Prop).

Definition call_at (s : svc) (i : nat) (id : string) (p : pc) (h : Handle) : Prop :=
  calls s !! i = Some (mkCall id p) /\ dbs s !! id = Some h.

Definition set_call (i : nat) (id : string) (p : pc) (s : svc) : svc := set_calls (<[i := mkCall id p]> (calls s)) s.

(** One more owner for each database of the pass. *)
Definition share (ids : list string) (d : Databases) : Databases :=
  foldr (fun id d => alter (fun h => set_refs (refs h + 1) h) id d) d ids.

Inductive step (s : svc) : svc -> Prop :=
| S_submit id d : enter_queue cfg (now s) id (dbs s) = (Ok tt, d) ->
    step s (set_calls (calls s ++ [mkCall id Queued]) (set_dbs d s))
| S_refuse id d e : enter_queue cfg (now s) id (dbs s) = (Err e, d) -> step s (set_dbs d s)
| S_lock i id h : call_at s i id Queued h -> locked h = false ->
    step s (set_call i id Running (put id (set_lock true true h) (set_files (<[id := file s id]> (files s)) s)))
| S_open_fails i id h : call_at s i id Queued h -> locked h = false -> step s (set_call i id Ended s)
| S_timeout i id h : call_at s i id Queued h -> step s (set_call i id Ended s)
| S_commit i id h : call_at s i id Running h ->
    step s (put id (set_commits (commits h + 1) h) (set_files (<[id := file s id + 1]> (files s)) s))
| S_hook i id h : racy -> call_at s i id Running h ->
    step s (set_call i id Committing (put id (set_commits (commits h + 1) h) s))
| S_write i id h : call_at s i id Committing h ->
    step s (set_call i id Running (set_files (<[id := file s id + 1]> (files s)) s))
| S_end i id h : call_at s i id Running h -> step s (set_call i id Ended (put id (set_lock (connected h) false h) s))
| S_leave i id h : call_at s i id Ended h ->
    step s (set_calls (delete i (calls s)) (put id (leave_queue true (now s) h) s))
| S_cancel i id h : racy -> call_at s i id Queued h ->
    step s (set_calls (delete i (calls s)) (put id (set_refs (refs h - 1) h) s))
| S_close_idle : step s (set_dbs (close_idle cfg (now s) (dbs s)) s)
| S_tick n : 0 <= n -> step s (mkSvc (dbs s) (calls s) (pass s) (files s) (archived s) (now s + n))
| S_pass : pass s = [] ->
    step s (set_pass ((fun id => (id, Todo)) <$> unsaved_ids (dbs s)) (set_dbs (share (unsaved_ids (dbs s)) (dbs s)) s))
| S_load id h rest : pass s = (id, Todo) :: rest -> dbs s !! id = Some h ->
    step s (set_pass ((id, Loaded (commits h) (now s)) :: rest) s)
| S_copy id c t n rest : pass s = (id, Loaded c t) :: rest -> files s !! id = Some n ->
    step s (set_pass ((id, Copied c t n) :: rest) s)
| S_store id c t n rest : pass s = (id, Copied c t n) :: rest ->
    step s (set_pass ((id, Stored c t) :: rest) (set_archived (<[id := n]> (archived s)) s))
(** [Archive::save] answers as above when its clock is behind the newest row:
    the latest snapshot stays the older one ([D1Archive]). *)
| S_store_behind id c t n rest : racy -> pass s = (id, Copied c t n) :: rest ->
    step s (set_pass ((id, Stored c t) :: rest) s)
| S_fail id st h rest : pass s = (id, st) :: rest -> (match st with Stored _ _ => False | _ => True end) ->
    dbs s !! id = Some h -> step s (set_pass rest (put id (set_refs (refs h - 1) h) s))
| S_saved id c t h rest : pass s = (id, Stored c t) :: rest -> dbs s !! id = Some h ->
    step s (set_pass rest (put id
      (set_refs (refs h - 1) (set_saved c (if commits h =? c then None else Some t) h)) s))
| S_reset id : in_use id (dbs s) = false ->
    step s (set_dbs (delete id (dbs s)) (set_files (delete id (files s)) s))
| S_restart : racy -> step s (mkSvc ∅ [] [] (files s) (archived s) (now s)).

(** A runner that starts with every commit in a snapshot. *)
Definition init (s : svc) : Prop :=
  dbs s = ∅ /\ calls s = [] /\ pass s = [] /\ forall id, file s id = arch s id.

(** ** The invariant

    What holds of one database: [n] calls are in [submit] for it, [st] is the
    stage of its snapshot, [f] and [a] the commits of its file and of its
    snapshot. *)
Definition calls_of (s : svc) (id : string) : Z := countb (fun c => String.eqb (c_id c) id) (calls s).

Definition stage_ok (h : Handle) (f a : Z) (present : bool) (st : stage) : Prop :=
  match st with
  | Todo => True
  | Loaded c _ => saved h <= c <= commits h
  | Copied c _ n => saved h <= c <= commits h /\ n <= f /\ f - n <= commits h - c /\ present = true
  | Stored c _ => saved h <= c <= commits h /\ f - a <= commits h - c
  end.

Definition ok_parts (o : option Handle) (n : Z) (st : option stage) (f a : Z) (present : bool) : Prop :=
  match o with
  | Some h =>
    refs h = 1 + n + (match st with Some _ => 1 | None => 0 end) /\ waiting h = n /\ 0 <= n <= max_queue cfg /\
    saved h <= commits h /\ a <= f /\ f - a <= commits h - saved h /\
    match st with Some st => stage_ok h f a present st | None => True end
  | None => n = 0 /\ st = None /\ f = a
  end.

Definition present (s : svc) (id : string) : bool := match files s !! id with Some _ => true | None => false end.

Definition ok_at (s : svc) (id : string) : Prop :=
  ok_parts (dbs s !! id) (calls_of s id) (assoc id (pass s)) (file s id) (arch s id) (present s id).

Definition Inv (s : svc) : Prop :=
  NoDup (pass s).*1 /\ Forall (fun c => c_pc c <> Committing) (calls s) /\ forall id, ok_at s id.

Lemma calls_of_app s l id : countb (fun c => String.eqb (c_id c) id) (calls s ++ l) =
  calls_of s id + countb (fun c => String.eqb (c_id c) id) l.
Proof. apply countb_app. Qed.

Lemma calls_of_set s i id p q id' : calls s !! i = Some (mkCall id p) ->
  countb (fun c => String.eqb (c_id c) id') (<[i := mkCall id q]> (calls s)) = calls_of s id'.
Proof. intros Hi. unfold calls_of. rewrite (countb_insert _ _ _ _ _ Hi). simpl. lia. Qed.

Lemma calls_of_delete s i id p id' : calls s !! i = Some (mkCall id p) ->
  countb (fun c => String.eqb (c_id c) id') (delete i (calls s)) =
  calls_of s id' - (if String.eqb id id' then 1 else 0).
Proof. intros Hi. unfold calls_of. by rewrite (countb_delete _ _ _ _ Hi). Qed.

(** What eviction and the idle timer do to a handle. *)
Definition lighter (o o' : option Handle) : Prop :=
  o' = o \/ exists h, o = Some h /\ refs h = 1 /\ (o' = Some (close h) \/ o' = None /\ commits h = saved h).

Lemma close_fields h : refs (close h) = refs h /\ waiting (close h) = waiting h /\
  commits (close h) = commits h /\ saved (close h) = saved h.
Proof. unfold close. by destruct (locked h). Qed.

Lemma ok_lighter o o' n st f a p : ok_parts o n st f a p -> lighter o o' -> ok_parts o' n st f a p.
Proof.
  intros Ho [->|(h & -> & Hr & [->|[-> Hs]])]; [done|..]; destruct Ho as (Hrefs & Hw & Hn & Hc & Ha & Hl & Hst).
  - destruct (close_fields h) as (E1 & E2 & E3 & E4). simpl. rewrite E1, E2, E3, E4. split_and!; try done; try lia.
    destruct st as [[]|]; simpl in *; rewrite ?E3, ?E4; done.
  - destruct st; simpl; split_and!; try done; lia.
Qed.

Lemma least_used_in l x : least_used l = Some x -> x ∈ l.
Proof.
  revert x. induction l as [|y l IH]; intros x; simpl; [done|].
  destruct (least_used l) as [z|]; [|intros [= ->]; set_solver].
  destruct (last_used z.2 <? last_used y.2); intros [= ->]; [|set_solver]. apply elem_of_cons. right. by apply IH.
Qed.

Lemma unsaved_false h : unsaved h = false -> commits h = saved h.
Proof. unfold unsaved. intros E%negb_false_iff. by apply Z.eqb_eq. Qed.

Lemma make_room_lighter d id : lighter (d !! id) (make_room cfg d !! id).
Proof.
  unfold make_room. destruct (max_open cfg <=? open_count d); [|by left].
  destruct (least_used _) as [[old h]|] eqn:E; [|by left].
  apply least_used_in, list_elem_of_filter in E as [He Hin]. simpl in He.
  apply elem_of_map_to_list in Hin. unfold evictable in He. apply andb_prop in He as [Hr _].
  apply Z.eqb_eq in Hr. destruct (decide (id = old)) as [->|Hne].
  - right. exists h. split_and!; [done..|]. destruct (unsaved h) eqn:Eu.
    + left. by rewrite lookup_insert_eq.
    + right. rewrite lookup_delete_eq. split; [done|by apply unsaved_false].
  - left. destruct (unsaved h); [by rewrite lookup_insert_ne|by rewrite lookup_delete_ne].
Qed.

Lemma close_idle_lighter t d id : lighter (d !! id) (close_idle cfg t d !! id).
Proof.
  unfold close_idle. rewrite lookup_omap. destruct (d !! id) as [h|] eqn:E; simpl; [|by left].
  unfold close_idle_one. destruct ((refs h =? 1) && _) eqn:Er; [|by left].
  apply andb_prop in Er as [Hr _]. apply Z.eqb_eq in Hr. right. exists h. split_and!; [done..|].
  destruct (unsaved (close h)) eqn:Eu; [by left|right]. split; [done|].
  apply unsaved_false in Eu. destruct (close_fields h) as (_ & _ & E1 & E2). congruence.
Qed.

(** [enter_queue] at the database of the call, and at the others. *)
Lemma enter_queue_spec s id r d : 0 <= max_queue cfg -> ok_at s id -> enter_queue cfg (now s) id (dbs s) = (r, d) ->
  (forall id', id' <> id -> lighter (dbs s !! id') (d !! id')) /\
  ok_parts (d !! id) (calls_of s id + (if is_ok r then 1 else 0)) (assoc id (pass s))
    (file s id) (arch s id) (present s id).
Proof.
  unfold ok_at, enter_queue, handle. intros Hmq Hok. destruct (dbs s !! id) as [h|] eqn:Eh.
  - destruct Hok as (Hr & Hw & Hn & Hc & Ha & Hl & Hst). simpl. rewrite <- Hw in *.
    destruct (Z.leb_spec (max_queue cfg) (waiting h)) as [Hq|Hq]; intros [= <- <-]; simpl;
      (split; [intros id' Hne; left; by rewrite !lookup_insert_ne by done|]);
      rewrite lookup_insert_eq; simpl; split_and!; try done; try lia; by destruct (assoc id (pass s)) as [[]|].
  - destruct Hok as (Hn & Hst & Hf). simpl. rewrite Hn, Hst, Hf.
    assert (Hm : forall id', id' <> id -> forall x y : Handle,
      lighter (dbs s !! id') (<[id := x]> (<[id := y]> (make_room cfg (dbs s))) !! id')).
    { intros id' Hne x y. rewrite !lookup_insert_ne by done. apply make_room_lighter. }
    destruct (Z.leb_spec (max_queue cfg) 0) as [Hq|Hq]; intros [= <- <-]; simpl; (split; [intros; by apply Hm|]);
      rewrite lookup_insert_eq; simpl; split_and!; try done; lia.
Qed.

Lemma inv_update s s' id : Inv s ->
  (forall id', id' <> id -> dbs s' !! id' = dbs s !! id' /\ calls_of s' id' = calls_of s id' /\
     assoc id' (pass s') = assoc id' (pass s) /\ files s' !! id' = files s !! id' /\
     archived s' !! id' = archived s !! id') ->
  NoDup (pass s').*1 -> Forall (fun c => c_pc c <> Committing) (calls s') -> ok_at s' id -> Inv s'.
Proof.
  intros (_ & _ & Hok) Hsame Hp Hc Hid. split_and!; [done..|]. intros id'.
  destruct (decide (id' = id)) as [->|Hne]; [done|]. destruct (Hsame id' Hne) as (E1 & E2 & E3 & E4 & E5).
  specialize (Hok id'). unfold ok_at, file, arch, present in *. by rewrite E1, E2, E3, E4, E5.
Qed.

Lemma no_committing_set l i id p : Forall (fun c => c_pc c <> Committing) l -> p <> Committing ->
  Forall (fun c => c_pc c <> Committing) (<[i := mkCall id p]> l).
Proof. intros Hl Hp. by apply Forall_insert. Qed.

(** A step of one call: its place changes, the handle and the file of its
    database do. *)
Lemma inv_call s i id p q h h' f : Inv s -> call_at s i id p h -> q <> Committing ->
  refs h' = refs h -> waiting h' = waiting h -> saved h' = saved h ->
  commits h' - commits h = f - file s id -> 0 <= f - file s id ->
  Inv (set_call i id q (put id h' (set_files (<[id := f]> (files s)) s))).
Proof.
  intros HI [Hi Hh] Hq Hr Hw Hs Hcf Hpos. pose proof HI as (Hp & Hc & Hok).
  apply (inv_update s _ id HI); simpl.
  - intros id' Hne. rewrite !lookup_insert_ne by done. split_and!; try done. apply (calls_of_set s i id p q id' Hi).
  - done.
  - by apply no_committing_set.
  - specialize (Hok id). unfold ok_at, file, arch, present, calls_of in *. simpl in *.
    rewrite (calls_of_set s i id p q id Hi), !lookup_insert_eq. rewrite Hh in Hok. simpl in *.
    destruct Hok as (O1 & O2 & O3 & O4 & O5 & O6 & O7). fold (calls_of s id) in *. rewrite Hr, Hw, Hs.
    split_and!; try done; try lia. destruct (assoc id (pass s)) as [[]|]; simpl in *; rewrite ?Hs;
      (try done); (try split_and!); (try done); lia.
Qed.

(** A step of a call that leaves its handle and its file. *)
Lemma svc_inv_move s i id p q h h' : Inv s -> call_at s i id p h -> q <> Committing ->
  refs h' = refs h -> waiting h' = waiting h -> saved h' = saved h -> commits h' = commits h ->
  Inv (set_call i id q (put id h' s)).
Proof.
  intros HI [Hi Hh] Hq Hr Hw Hs Hcm. pose proof HI as (Hp & Hc & Hok). apply (inv_update s _ id HI); simpl.
  - intros id' Hne. rewrite !lookup_insert_ne by done. split_and!; try done. apply (calls_of_set s i id p q id' Hi).
  - done.
  - by apply no_committing_set.
  - specialize (Hok id). unfold ok_at, file, arch, present, calls_of in *. simpl in *.
    rewrite (calls_of_set s i id p q id Hi), lookup_insert_eq. rewrite Hh in Hok. fold (calls_of s id) in *. simpl in *.
    rewrite Hr, Hw, Hs, Hcm. destruct (assoc id (pass s)) as [[]|]; simpl in *; rewrite ?Hs, ?Hcm; done.
Qed.

Lemma put_same s id h : dbs s !! id = Some h -> put id h s = s.
Proof. intros Hh. unfold put, set_dbs. rewrite insert_id by done. by destruct s. Qed.

Lemma leave_fields t h : refs (leave_queue true t h) = refs h - 1 /\ waiting (leave_queue true t h) = waiting h - 1 /\
  saved (leave_queue true t h) = saved h /\ commits (leave_queue true t h) = commits h.
Proof. unfold leave_queue. cbn [set_waiting set_used set_refs refs waiting saved commits]. by case_match. Qed.

Lemma svc_inv_leave s i id h : Inv s -> call_at s i id Ended h ->
  Inv (set_calls (delete i (calls s)) (put id (leave_queue true (now s) h) s)).
Proof.
  intros HI [Hi Hh]. destruct (leave_fields (now s) h) as (E1 & E2 & E3 & E4). revert E1 E2 E3 E4.
  generalize (leave_queue true (now s) h). intros h' E1 E2 E3 E4.
  pose proof HI as (Hp & Hc & Hok). apply (inv_update s _ id HI); simpl.
  - intros id' Hne. rewrite lookup_insert_ne by done. split_and!; try done. unfold calls_of at 1. simpl.
    rewrite (calls_of_delete s i id Ended id' Hi). destruct (String.eqb_spec id id'); [congruence|lia].
  - done.
  - by apply Forall_delete.
  - specialize (Hok id). unfold ok_at, file, arch, present in *. unfold calls_of at 1. simpl.
    rewrite (calls_of_delete s i id Ended id Hi), String.eqb_refl, lookup_insert_eq. rewrite Hh in Hok. simpl in *.
    rewrite E1, E2, E3, E4.
    assert (1 <= calls_of s id).
    { apply (countb_pos _ _ (mkCall id Ended)); [by eapply list_elem_of_lookup_2|by apply String.eqb_refl]. }
    destruct Hok as (O1 & O2 & O3 & O4 & O5 & O6 & O7). split_and!; try done; try lia.
    destruct (assoc id (pass s)) as [[]|]; simpl in *; rewrite ?E3, ?E4; done.
Qed.

(** ** The snapshot pass *)

Lemma unsaved_ids_spec d id : id ∈ unsaved_ids d <-> exists h, d !! id = Some h /\ unsaved h = true.
Proof.
  unfold unsaved_ids. rewrite list_elem_of_fmap. split.
  - intros ([x h] & -> & [Hu Hin]%list_elem_of_filter). apply elem_of_map_to_list in Hin. by exists h.
  - intros (h & Hd & Hu). exists (id, h). split; [done|]. by rewrite list_elem_of_filter, elem_of_map_to_list.
Qed.

Lemma unsaved_ids_NoDup d : NoDup (unsaved_ids d).
Proof. eapply sublist_NoDup; [apply (NoDup_fst_map_to_list d)|]. apply fmap_sublist, sublist_filter. Qed.

Lemma share_lookup ids d id : NoDup ids ->
  share ids d !! id = if decide (id ∈ ids) then (fun h => set_refs (refs h + 1) h) <$> d !! id else d !! id.
Proof.
  induction ids as [|x ids IH]; simpl; [done|]. intros [Hx Hn]%NoDup_cons.
  destruct (decide (id = x)) as [->|Hne].
  - rewrite lookup_alter_eq, (IH Hn), (decide_False (P := x ∈ ids)) by done.
    by rewrite decide_True by set_solver.
  - rewrite lookup_alter_ne, (IH Hn) by done. repeat case_decide; set_solver.
Qed.

Lemma assoc_todo (ids : list string) id :
  assoc id ((fun id => (id, Todo)) <$> ids) = if decide (id ∈ ids) then Some Todo else None.
Proof.
  induction ids as [|x ids IH]; [done|]. csimpl. rewrite IH. repeat case_decide; set_solver.
Qed.

Lemma inv_pass s : Inv s -> pass s = [] ->
  Inv (set_pass ((fun id => (id, Todo)) <$> unsaved_ids (dbs s)) (set_dbs (share (unsaved_ids (dbs s)) (dbs s)) s)).
Proof.
  intros (Hp & Hc & Hok) Hnil. split_and!; simpl; [|done|].
  - rewrite <- list_fmap_compose. simpl. rewrite list_fmap_id. apply unsaved_ids_NoDup.
  - intros id. specialize (Hok id). unfold ok_at, file, arch, present, calls_of in *. simpl in *.
    rewrite share_lookup, assoc_todo by apply unsaved_ids_NoDup. rewrite Hnil in Hok. simpl in Hok.
    case_decide as Hin; [|done]. apply unsaved_ids_spec in Hin as (h & Hh & _). rewrite Hh in *. simpl in *.
    destruct Hok as (O1 & O2 & O3 & O4 & O5 & O6 & _). split_and!; try done; lia.
Qed.

Lemma assoc_head {A} (id : string) (st : A) rest : assoc id ((id, st) :: rest) = Some st.
Proof. simpl. by rewrite decide_True. Qed.

Lemma assoc_tail {A} (id id' : string) (st st' : A) rest : id' <> id ->
  assoc id' ((id, st) :: rest) = assoc id' ((id, st') :: rest).
Proof. intros Hne. simpl. by rewrite !decide_False by congruence. Qed.

Lemma assoc_gone {A} (id : string) (st : A) rest : NoDup ((id, st) :: rest).*1 -> assoc id rest = None.
Proof.
  simpl. intros [Hn _]%NoDup_cons. destruct (assoc id rest) eqn:E; [|done].
  apply assoc_In, (list_elem_of_fmap_2 fst) in E. done.
Qed.

(** The pass goes on with its first database. *)
Lemma inv_stage s id st st' rest m : Inv s -> pass s = (id, st) :: rest ->
  (forall id', id' <> id -> m !! id' = archived s !! id') ->
  (forall h, dbs s !! id = Some h -> ok_parts (Some h) (calls_of s id) (Some st) (file s id) (arch s id) (present s id) ->
     let a' := default 0 (m !! id) in
     ok_parts (Some h) (calls_of s id) (Some st') (default a' (files s !! id)) a' (present s id)) ->
  Inv (set_pass ((id, st') :: rest) (set_archived m s)).
Proof.
  intros HI Hp Hm Hst. pose proof HI as (Hn & Hc & Hok). apply (inv_update s _ id HI); simpl.
  - intros id' Hne. rewrite Hp, Hm by done. split_and!; try done. by apply assoc_tail.
  - by rewrite Hp in Hn.
  - done.
  - specialize (Hok id). unfold ok_at, file, arch, present, calls_of in *. simpl in *.
    rewrite Hp, assoc_head in Hok. rewrite (decide_True (P := id = id)) by done. simpl.
    destruct (dbs s !! id) as [h|] eqn:Eh; [|by destruct Hok as (_ & ? & _)]. by apply Hst.
Qed.

Lemma set_archived_same s : set_archived (archived s) s = s.
Proof. by destruct s. Qed.

Lemma set_call_same i id p s : calls s !! i = Some (mkCall id p) -> set_call i id p s = s.
Proof. intros Hi. unfold set_call, set_calls. rewrite list_insert_id by done. by destruct s. Qed.

(** A database leaves the pass. *)
Lemma inv_drop s id st rest h h' : Inv s -> pass s = (id, st) :: rest -> dbs s !! id = Some h ->
  refs h' = refs h - 1 -> waiting h' = waiting h -> commits h' = commits h -> saved h' <= commits h ->
  (stage_ok h (file s id) (arch s id) (present s id) st -> file s id - arch s id <= commits h - saved h ->
   file s id - arch s id <= commits h - saved h') ->
  Inv (set_pass rest (put id h' s)).
Proof.
  intros HI Hp Hh Hr Hw Hcm Hs Hl. pose proof HI as (Hn & Hc & Hok). apply (inv_update s _ id HI); simpl.
  - intros id' Hne. rewrite Hp, lookup_insert_ne by done. split_and!; try done. simpl. by rewrite decide_False by congruence.
  - rewrite Hp in Hn. by apply NoDup_cons in Hn as [_ ?].
  - done.
  - specialize (Hok id). unfold ok_at, file, arch, present, calls_of in *. simpl in *. rewrite Hp in Hn.
    rewrite Hp, assoc_head, Hh in Hok. rewrite lookup_insert_eq, (assoc_gone id st rest Hn). simpl in *.
    destruct Hok as (O1 & O2 & O3 & O4 & O5 & O6 & O7). rewrite Hr, Hw, Hcm. split_and!; try done; try lia.
    by apply Hl.
Qed.

Lemma svc_inv_init s : init s -> Inv s.
Proof.
  intros (Hd & Hc & Hp & Hf). unfold Inv. rewrite Hc, Hp. split_and!; [constructor|constructor|]. intros id.
  unfold ok_at, calls_of. rewrite Hd, Hc, Hp, lookup_empty. simpl. by rewrite Hf.
Qed.

Lemma inv_enter s id d r l : 0 <= max_queue cfg -> Inv s -> enter_queue cfg (now s) id (dbs s) = (r, d) ->
  l = (if is_ok r then calls s ++ [mkCall id Queued] else calls s) -> Inv (set_calls l (set_dbs d s)).
Proof.
  intros Hq (Hp & Hc & Hok) He ->. destruct (enter_queue_spec s id r d Hq (Hok id) He) as [Hl Hid].
  split_and!; simpl; [done| |].
  - destruct (is_ok r); [|done]. apply Forall_app. split; [done|by repeat constructor].
  - intros id'. specialize (Hok id'). unfold ok_at, file, arch, present in *. simpl.
    assert (Hcnt : calls_of (set_calls (if is_ok r then calls s ++ [mkCall id Queued] else calls s) (set_dbs d s)) id' =
      calls_of s id' + (if is_ok r then if String.eqb id id' then 1 else 0 else 0)).
    { unfold calls_of. simpl. destruct (is_ok r); [|lia]. rewrite countb_app. simpl. lia. }
    rewrite Hcnt. destruct (String.eqb_spec id id') as [<-|Hne]; [done|].
    replace (calls_of s id' + (if is_ok r then 0 else 0)) with (calls_of s id') by (destruct (is_ok r); lia).
    eapply ok_lighter; [done|]. by apply Hl.
Qed.

Lemma svc_inv_step s t : 0 <= max_queue cfg -> ~ racy -> Inv s -> step s t -> Inv t.
Proof.
  intros Hq Hn HI Hs. pose proof HI as (Hp & Hc & Hok). destruct Hs as
    [id d He|id d e He|i id h Hca Hl|i id h Hca Hl|i id h Hca|i id h Hca|i id h Hr Hca|i id h Hca|i id h Hca|i id h Hca
    |i id h Hr Hca| |n Hn0|Hnil|id h rest Hpa Hh|id c t n rest Hpa Hf|id c t n rest Hpa|id c t n rest Hr Hpa|id st h rest Hpa Hst Hh
    |id c t h rest Hpa Hh|id Hu|Hr]; try done.
  - by apply (inv_enter s id d (Ok tt)).
  - replace (set_dbs d s) with (set_calls (calls s) (set_dbs d s)) by by destruct s. by apply (inv_enter s id d (Err e)).
  - apply (inv_call s i id Queued Running h); simpl; try done; lia.
  - destruct Hca as [Hi Hh]. rewrite <- (put_same s id h Hh). by apply (svc_inv_move s i id Queued Ended h).
  - destruct Hca as [Hi Hh]. rewrite <- (put_same s id h Hh). by apply (svc_inv_move s i id Queued Ended h).
  - pose proof Hca as [Hi Hh].
    rewrite <- (set_call_same i id Running (put _ _ _)) by done.
    apply (inv_call s i id Running Running h); simpl; try done; lia.
  - destruct Hca as [Hi _]. rewrite Forall_lookup in Hc. by apply Hc in Hi.
  - by apply (svc_inv_move s i id Running Ended h).
  - by apply svc_inv_leave.
  - split_and!; [done..|]. intros id. specialize (Hok id). unfold ok_at in *. simpl.
    eapply ok_lighter; [exact Hok|]. apply close_idle_lighter.
  - by apply inv_pass.
  - rewrite <- (set_archived_same s). apply (inv_stage s id Todo); [done..|]. intros h' Hh' (O1 & O2 & O3 & O4 & O5 & O6 & _).
    rewrite Hh in Hh'. injection Hh' as <-. simpl. split_and!; try done; lia.
  - rewrite <- (set_archived_same s). apply (inv_stage s id (Loaded c t)); [done..|].
    unfold file, present. rewrite Hf. intros h Hh (O1 & O2 & O3 & O4 & O5 & O6 & O7). simpl in *. split_and!; try done; lia.
  - apply (inv_stage s id (Copied c t n)); [done|done|intros; by apply lookup_insert_ne|].
    intros h Hh (O1 & O2 & O3 & O4 & O5 & O6 & O7). rewrite lookup_insert_eq. simpl in *.
    destruct O7 as (O7 & O8 & O9 & Hpr). unfold file, present in *. destruct (files s !! id) as [f|]; [|done]. simpl in *.
    split_and!; try done; lia.
  - apply (inv_drop s id st rest h); simpl; try done. specialize (Hok id). unfold ok_at in Hok. rewrite Hh in Hok.
    by destruct Hok as (_ & _ & _ & ? & _).
  - specialize (Hok id). unfold ok_at in Hok. rewrite Hpa, assoc_head, Hh in Hok.
    destruct Hok as (_ & _ & _ & _ & _ & _ & [O1 O2]).
    apply (inv_drop s id (Stored c t) rest h); simpl; try done; lia.
  - apply (inv_update s _ id HI); simpl; [|done..|].
    + intros id' Hne. by rewrite !lookup_delete_ne.
    + specialize (Hok id). unfold ok_at, in_use, file, arch, present, calls_of in *. simpl.
      rewrite !lookup_delete_eq. simpl. destruct (dbs s !! id) as [h|]; [|by destruct Hok as (? & ? & _)].
      destruct Hok as (O1 & O2 & O3 & _). apply Z.ltb_ge in Hu. destruct (assoc id (pass s)); split_and!; try done; lia.
Qed.

Lemma svc_inv_reachable s t : 0 <= max_queue cfg -> ~ racy -> init s -> rtc step s t -> Inv t.
Proof. intros Hq Hn Hi Hr. eapply (rtc_invariant step Inv); [|by apply svc_inv_init|exact Hr]. intros; by eapply svc_inv_step. Qed.

(** ** Properties *)

(** C28. No commit is forgotten by the snapshots. However calls, evictions, the
    idle timer, failed and successful snapshots and resets interleave, a
    database whose file holds a commit that its snapshot lacks keeps its
    entry, and the entry says so: the next snapshot pass takes it. This holds
    of a runner that started with all commits in snapshots, as long as the
    count of a commit and the commit itself are one step, no caller goes away,
    and the clock stays ahead of the snapshots that are recorded. *)
Theorem unsaved_stays_listed s t id :
  0 <= max_queue cfg -> ~ racy -> init s -> rtc step s t ->
  arch t id < file t id ->
  id ∈ unsaved_ids (dbs t).
Proof.
  intros Hq Hn Hi Hr Hlt. destruct (svc_inv_reachable s t Hq Hn Hi Hr) as (_ & _ & Hok). specialize (Hok id).
  unfold ok_at in Hok. apply unsaved_ids_spec. destruct (dbs t !! id) as [h|]; [|by destruct Hok as (_ & _ & ?); lia].
  exists h. split; [done|]. destruct Hok as (_ & _ & _ & _ & _ & Hl & _). unfold unsaved.
  destruct (Z.eqb_spec (commits h) (saved h)); [lia|done].
Qed.

(** The queue of a database counts its calls exactly, never more than
    [max_queue] of them, and an entry has an owner for each call and for the
    snapshot under way, so neither eviction, the idle timer, a removal nor a
    reset takes the entry of a database in use. *)
Theorem queue_exact s t id h :
  0 <= max_queue cfg -> ~ racy -> init s -> rtc step s t -> dbs t !! id = Some h ->
  waiting h = calls_of t id /\ waiting h <= max_queue cfg /\
  refs h = 1 + calls_of t id + (match assoc id (pass t) with Some _ => 1 | None => 0 end) /\
  (1 <= calls_of t id -> in_use id (dbs t) = true).
Proof.
  intros Hq Hn Hi Hr Hh. destruct (svc_inv_reachable s t Hq Hn Hi Hr) as (_ & _ & Hok). specialize (Hok id).
  unfold ok_at in Hok. rewrite Hh in Hok. destruct Hok as (O1 & O2 & O3 & _). split_and!; try done; try lia.
  intros Hc. unfold in_use. rewrite Hh. apply Z.ltb_lt. destruct (assoc id (pass t)); lia.
Qed.

End steps.

(** ** Runs that the theorems exclude *)

Definition ex_cfg : Config := mkConfig "data" 0 0 30000 64 256 300000 0 0.
Definition ex_start : svc := mkSvc ∅ [] [] ∅ ∅ 0.
Definition ex_id : string := "db".

Lemma ex_init : init ex_start.
Proof. by split_and!. Qed.

Lemma rtc_via {A} (R : A -> A -> Prop) y x y' z : R x y' -> y' = y -> rtc R y z -> rtc R x z.
Proof. intros Hr <- Hz. by eapply rtc_l. Qed.

(** A call that committed once and left. *)
Definition ex_committed : svc :=
  let s1 := set_calls [mkCall ex_id Queued] (set_dbs (enter_queue ex_cfg 0 ex_id ∅).2 ex_start) in
  let h := mkHandle false false 1 0 0 0 None 2 in
  let s2 := set_call 0 ex_id Running (put ex_id (set_lock true true h) (set_files (<[ex_id := file s1 ex_id]> (files s1)) s1)) in
  put ex_id (set_commits 1 (set_lock true true h)) (set_files (<[ex_id := file s2 ex_id + 1]> (files s2)) s2).

Lemma ex_committed_reachable racy : rtc (step ex_cfg racy) ex_start ex_committed.
Proof.
  eapply rtc_l; [eapply (S_submit _ _ _ ex_id); vm_compute; reflexivity|].
  eapply rtc_l; [eapply (S_lock _ _ _ 0 ex_id); [split|]; vm_compute; reflexivity|].
  eapply rtc_l; [eapply (S_commit _ _ _ 0 ex_id); split; vm_compute; reflexivity|].
  match goal with |- rtc _ ?x ?y => assert (x = y) as ->; [vm_compute; reflexivity|apply rtc_refl] end.
Qed.

Lemma unsaved_stays_listed_witness : ex_id ∈ unsaved_ids (dbs ex_committed).
Proof.
  apply (unsaved_stays_listed ex_cfg False ex_start ex_committed ex_id);
    [done|by intros []|exact ex_init|apply ex_committed_reachable|vm_compute; reflexivity].
Defined.

Lemma queue_exact_witness : exists h, dbs ex_committed !! ex_id = Some h /\ waiting h = 1.
Proof.
  exists (mkHandle true true 1 0 1 0 None 2). split; [vm_compute; reflexivity|].
  assert (Hh : dbs ex_committed !! ex_id = Some (mkHandle true true 1 0 1 0 None 2)) by (vm_compute; reflexivity).
  exact (proj1 (queue_exact ex_cfg False ex_start ex_committed ex_id _ ltac:(done) ltac:(by intros [])
    ex_init (ex_committed_reachable False) Hh)).
Defined.

(** The hook that counts a commit runs before the commit is in the file. A
    snapshot that starts in between counts the commit as saved and copies a
    file without it: once the call has left, the file holds a commit that no
    snapshot has, and no snapshot pass will take the database until it is
    written again. *)
Theorem snapshot_misses_commit :
  exists t, rtc (step ex_cfg True) ex_start t /\
    calls t = [] /\ pass t = [] /\ arch t ex_id < file t ex_id /\ unsaved_ids (dbs t) = [].
Proof.
  pose (st h c p f a := mkSvc {[ex_id := h]} c p f a 0).
  pose (h0 := mkHandle false false 1 0 0 0 None 2). pose (h1 := mkHandle true true 1 0 0 0 None 2).
  pose (h2 := mkHandle true true 1 0 1 0 None 2). pose (h3 := mkHandle true true 1 0 1 0 None 3).
  pose (h4 := mkHandle true true 1 0 1 1 None 2). pose (h5 := mkHandle true false 1 0 1 1 None 2).
  pose (f0 := {[ex_id := 0]} : gmap string Z). pose (f1 := {[ex_id := 1]} : gmap string Z).
  exists (st (mkHandle true false 0 0 1 1 None 1) [] [] f1 f0). split; [|split_and!; vm_compute; reflexivity].
  eapply (rtc_via _ (st h0 [mkCall ex_id Queued] [] ∅ ∅)); [eapply (S_submit _ _ _ ex_id)|..]; [vm_compute; reflexivity..|].
  eapply (rtc_via _ (st h1 [mkCall ex_id Running] [] f0 ∅)); [eapply (S_lock _ _ _ 0 ex_id h0)|..]; [done..|vm_compute; reflexivity|].
  eapply (rtc_via _ (st h2 [mkCall ex_id Committing] [] f0 ∅)); [eapply (S_hook _ _ _ 0 ex_id h1)|..]; [done..|vm_compute; reflexivity|].
  eapply (rtc_via _ (st h3 [mkCall ex_id Committing] [(ex_id, Todo)] f0 ∅)); [eapply S_pass|..]; [done|vm_compute; reflexivity|].
  eapply (rtc_via _ (st h3 [mkCall ex_id Committing] [(ex_id, Loaded 1 0)] f0 ∅)); [eapply (S_load _ _ _ ex_id h3)|..]; [done..|vm_compute; reflexivity|].
  eapply (rtc_via _ (st h3 [mkCall ex_id Committing] [(ex_id, Copied 1 0 0)] f0 ∅)); [eapply (S_copy _ _ _ ex_id 1 0 0)|..]; [done..|vm_compute; reflexivity|].
  eapply (rtc_via _ (st h3 [mkCall ex_id Committing] [(ex_id, Stored 1 0)] f0 f0)); [eapply (S_store _ _ _ ex_id 1 0 0)|..]; [done..|vm_compute; reflexivity|].
  eapply (rtc_via _ (st h3 [mkCall ex_id Running] [(ex_id, Stored 1 0)] f1 f0)); [eapply (S_write _ _ _ 0 ex_id h3)|..]; [done..|vm_compute; reflexivity|].
  eapply (rtc_via _ (st h4 [mkCall ex_id Running] [] f1 f0)); [eapply (S_saved _ _ _ ex_id 1 0 h3)|..]; [done..|vm_compute; reflexivity|].
  eapply (rtc_via _ (st h5 [mkCall ex_id Ended] [] f1 f0)); [eapply (S_end _ _ _ 0 ex_id h4)|..]; [done..|vm_compute; reflexivity|].
  eapply (rtc_via _ (st _ [] [] f1 f0)); [eapply (S_leave _ _ _ 0 ex_id h5)|..]; [done..|vm_compute; reflexivity|].
  apply rtc_refl.
Qed.

(** A snapshot that is saved while the clock is behind the snapshots of its
    database is not the latest one, and the commit counts as saved all the
    same. *)
Theorem clock_back_forgets_commit :
  exists t, rtc (step ex_cfg True) ex_start t /\
    calls t = [] /\ pass t = [] /\ arch t ex_id < file t ex_id /\ unsaved_ids (dbs t) = [].
Proof.
  pose (st h c p := mkSvc {[ex_id := h]} c p {[ex_id := 1]} ∅ 0).
  pose (h2 := mkHandle true true 1 0 1 0 None 2). pose (h3 := mkHandle true false 1 0 1 0 None 2).
  pose (h4 := mkHandle true false 0 0 1 0 (Some 0) 1). pose (h5 := mkHandle true false 0 0 1 0 (Some 0) 2).
  exists (st (mkHandle true false 0 0 1 1 None 1) [] []). split; [|split_and!; vm_compute; reflexivity].
  etrans; [apply (ex_committed_reachable True)|].
  eapply (rtc_via _ (st h3 [mkCall ex_id Ended] [])); [eapply (S_end _ _ _ 0 ex_id h2); vm_compute; split; reflexivity|vm_compute; reflexivity|].
  eapply (rtc_via _ (st h4 [] [])); [eapply (S_leave _ _ _ 0 ex_id h3); vm_compute; split; reflexivity|vm_compute; reflexivity|].
  eapply (rtc_via _ (st h5 [] [(ex_id, Todo)])); [eapply S_pass; done|vm_compute; reflexivity|].
  eapply (rtc_via _ (st h5 [] [(ex_id, Loaded 1 0)])); [eapply (S_load _ _ _ ex_id h5); done|vm_compute; reflexivity|].
  eapply (rtc_via _ (st h5 [] [(ex_id, Copied 1 0 1)])); [eapply (S_copy _ _ _ ex_id 1 0 1); done|vm_compute; reflexivity|].
  eapply (rtc_via _ (st h5 [] [(ex_id, Stored 1 0)])); [eapply (S_store_behind _ _ _ ex_id 1 0 1); done|vm_compute; reflexivity|].
  eapply (rtc_via _ (st _ [] [])); [eapply (S_saved _ _ _ ex_id 1 0 h5); done|vm_compute; reflexivity|].
  apply rtc_refl.
Qed.

(** After a restart the runner does not know which files are ahead of
    their snapshots: a commit of the run before is in the file only, and the
    database has no entry for the snapshot pass to take. *)
Theorem restart_forgets_unsaved :
  exists t, rtc (step ex_cfg True) ex_start t /\ arch t ex_id < file t ex_id /\ dbs t = ∅.
Proof.
  eexists. split.
  { etrans; [apply (ex_committed_reachable True)|].
    eapply rtc_l; [by apply S_restart|]. apply rtc_refl. }
  split; [vm_compute; reflexivity|done].
Qed.

(** [n] calls whose callers went away while they waited. *)
Lemma cancelled_calls cfg n : 0 <= Z.of_nat n <= max_queue cfg -> (0 < n)%nat ->
  exists t h, rtc (step cfg True) ex_start t /\ calls t = [] /\ dbs t !! ex_id = Some h /\
    waiting h = Z.of_nat n.
Proof.
  intros Hn Hpos. induction n as [|n IH]; [lia|].
  assert (Hs : exists t h, rtc (step cfg True) ex_start t /\ calls t = [] /\ waiting h = Z.of_nat n /\
    (n = 0%nat /\ dbs t = ∅ /\ h = new_handle (now t) \/ dbs t !! ex_id = Some h)).
  { destruct n as [|n]; [exists ex_start, (new_handle 0); split_and!; [apply rtc_refl|done..|by left]|].
    destruct IH as (t & h & ? & ? & ? & ?); [lia..|]. exists t, h. auto. }
  clear IH. destruct Hs as (t & h & Hr & Hc & Hw & Hd).
  set (h1 := match dbs t !! ex_id with Some h => set_refs (refs h + 1) h | None => set_refs 2 (new_handle (now t)) end).
  set (d1 := match dbs t !! ex_id with Some _ => dbs t | None => make_room cfg (dbs t) end).
  assert (Hh : handle cfg (now t) ex_id (dbs t) = (h1, <[ex_id := h1]> d1)).
  { unfold handle, h1, d1. by destruct (dbs t !! ex_id). }
  assert (Hw1 : waiting h1 = Z.of_nat n).
  { unfold h1. destruct Hd as [(-> & -> & ->)| ->]; [done|]. done. }
  set (d2 := <[ex_id := set_waiting (waiting h1 + 1) h1]> (<[ex_id := h1]> d1)).
  set (h2 := set_refs (refs h1 - 1) (set_waiting (waiting h1 + 1) h1)).
  exists (set_calls [] (put ex_id h2 (set_calls [mkCall ex_id Queued] (set_dbs d2 t)))), h2. split_and!.
  - etrans; [exact Hr|]. eapply rtc_l.
    { apply (S_submit cfg True t ex_id d2). unfold enter_queue. rewrite Hh, Hw1.
      destruct (Z.leb_spec (max_queue cfg) (Z.of_nat n)); [lia|]. unfold d2. by rewrite Hw1. }
    rewrite Hc. eapply rtc_l; [|apply rtc_refl].
    apply (S_cancel cfg True (set_calls [mkCall ex_id Queued] (set_dbs d2 t)) 0 ex_id
      (set_waiting (waiting h1 + 1) h1)); [done|]. split; [done|]. simpl. unfold d2. by rewrite lookup_insert_eq.
  - done.
  - simpl. by rewrite lookup_insert_eq.
  - simpl. rewrite Hw1. lia.
Qed.

(** A caller that goes away while its call waits never gives its place
    back. After [max_queue] of them the queue of the database is full for
    good: the next call is refused, although no call waits or runs. *)
Theorem cancelled_calls_fill_queue cfg :
  0 < max_queue cfg ->
  exists t d, rtc (step cfg True) ex_start t /\ calls t = [] /\
    enter_queue cfg (now t) ex_id (dbs t) = (Err too_many, d).
Proof.
  intros Hq. destruct (cancelled_calls cfg (Z.to_nat (max_queue cfg))) as (t & h & Hr & Hc & Hh & Hw); [lia..|].
  rewrite Z2Nat.id in Hw by lia. exists t. eexists. split_and!; [done..|].
  unfold enter_queue, handle. rewrite Hh. simpl. rewrite Hw, Z.leb_refl. reflexivity.
Qed.

Lemma cancelled_calls_fill_queue_witness :
  exists t d, rtc (step ex_cfg True) ex_start t /\ enter_queue ex_cfg (now t) ex_id (dbs t) = (Err too_many, d).
Proof.
  destruct (cancelled_calls_fill_queue ex_cfg ltac:(done)) as (t & d & Hr & _ & He). by exists t, d.
Defined.

(** ** The bytes of a namespace *)

Definition usage_ok (u : Usage) : Prop :=
  total u = map_sumz (fun b => b) (objects u) /\ map_Forall (fun _ b => 0 <= b) (objects u).

Lemma map_sumz_nonneg (m : gmap string Z) : map_Forall (fun _ b => 0 <= b) m -> 0 <= map_sumz (fun b => b) m.
Proof.
  induction m as [|k v m Hk IH] using map_ind; [rewrite map_sumz_empty; lia|].
  intros Hm. rewrite map_sumz_insert by done. apply map_Forall_insert in Hm as [? Hm]; [|done].
  specialize (IH Hm). lia.
Qed.

Lemma usage_set_ok u object_id bytes : usage_ok u -> 0 <= bytes ->
  map_sumz (fun b => b) (<[object_id := bytes]> (objects u)) < 2 ^ 64 ->
  usage_ok (usage_set object_id bytes u) /\ default 0 (objects u !! object_id) <= total u.
Proof.
  intros [Ht Hpos] Hb Hlim.
  assert (Hsum : map_sumz (fun b => b) (<[object_id := bytes]> (objects u)) =
    total u - default 0 (objects u !! object_id) + bytes /\ default 0 (objects u !! object_id) <= total u).
  { destruct (objects u !! object_id) as [old|] eqn:E; simpl.
    - rewrite (map_sumz_insert_Some _ _ _ _ _ E), Ht. split; [done|].
      pose proof (map_sumz_delete (fun b => b) (objects u) object_id old E) as Hd.
      assert (0 <= map_sumz (fun b => b) (delete object_id (objects u))); [|simpl in *; lia].
      apply map_sumz_nonneg. by apply map_Forall_delete.
    - rewrite map_sumz_insert, Ht by done. split; [lia|]. by apply map_sumz_nonneg. }
  destruct Hsum as [Hsum Hle]. split; [|done]. split; [|by apply map_Forall_insert_2].
  unfold usage_set. simpl. rewrite Hsum in *. unfold wrap_u64.
  rewrite (Z.mod_small (total u - _)) by lia. by rewrite Z.mod_small by lia.
Qed.

(** The total of a namespace is the sum of the sizes of its objects: after
    a scan of its files, which counts a file and its log together, and after
    each job, as long as the sum fits 64 bits. The subtraction of the old size
    never wraps. So a namespace is full exactly when its objects hold the
    limit. *)
Theorem usage_total u object_id bytes :
  usage_ok u -> 0 <= bytes ->
  map_sumz (fun b => b) (<[object_id := bytes]> (objects u)) < 2 ^ 64 ->
  usage_ok (usage_set object_id bytes u) /\
  default 0 (objects u !! object_id) <= total u /\
  forall limit dir ns namespaces, namespaces !! ns = Some (usage_set object_id bytes u) ->
    is_Some (full limit dir ns namespaces).1 <-> limit <= map_sumz (fun b => b) (<[object_id := bytes]> (objects u)).
Proof.
  intros Hu Hb Hlim. destruct (usage_set_ok u object_id bytes Hu Hb Hlim) as [[Htot Hp] Hle].
  split_and!; [by split|done|]. intros limit dir ns namespaces Hn. unfold full. rewrite Hn.
  change (default _ (Some ?x)) with x. rewrite Htot. cbn [fst usage_set objects].
  destruct (Z.leb_spec limit (map_sumz (fun b => b) (<[object_id:=bytes]> (objects u)))); split.
  - done.
  - intros _. by eexists.
  - by intros [? ?].
  - lia.
Qed.

Lemma scan_entry_ok u entry : usage_ok u -> 0 <= entry.2 -> usage_ok u /\ usage_ok (scan_entry u entry) \/
  2 ^ 64 <= map_sumz (fun b => b) (objects (scan_entry u entry)).
Proof.
  intros Hu He. unfold scan_entry. destruct (object_of_file entry.1) as [object|]; [|by left].
  destruct (Z.lt_ge_cases (map_sumz (fun b => b) (<[object := default 0 (objects u !! object) + entry.2]> (objects u))) (2 ^ 64))
    as [Hlt|Hge]; [left|by right].
  split; [done|]. destruct Hu as [Ht Hp].
  assert (0 <= default 0 (objects u !! object)).
  { destruct (objects u !! object) as [b|] eqn:E; simpl; [by apply Hp in E|lia]. }
  assert (Hb : 0 <= default 0 (objects u !! object) + entry.2) by lia.
  by destruct (usage_set_ok u object _ (conj Ht Hp) Hb Hlt).
Qed.

Definition ex_usage : Usage := scan [("aa.sqlite", 100); ("aa.sqlite-wal", 50); ("aa.sqlite-shm", 32); ("bb.sqlite", 7)].

Example scan_counts_both : total ex_usage = 157 /\ objects ex_usage !! "aa" = Some 150.
Proof. vm_compute. split; reflexivity. Qed.

Lemma usage_total_witness : total (usage_set "aa" 10 (mkUsage {["aa" := 150; "bb" := 7]} 157)) = 17.
Proof.
  assert (Hm : map_sumz (fun b => b) (<["aa" := 10]> {["aa" := 150; "bb" := 7]} : gmap string Z) = 17) by (vm_compute; done).
  rewrite <- Hm. refine (proj1 (proj1 (usage_total (mkUsage {["aa" := 150; "bb" := 7]} 157) "aa" 10 _ _ _))).
  - split; [vm_compute; done|]. intros k b Hk. simpl in Hk.
    apply lookup_insert_Some in Hk as [[_ <-]|[_ Hk]]; [lia|]. apply lookup_singleton_Some in Hk as [_ <-]. lia.
  - lia.
  - simpl. rewrite Hm. lia.
Defined.
