(* ===== verification/D1Disk.v ===== *)
(** * The data directory (src/src/d1/archive.rs, src/src/d1/mod.rs)

    The files of the databases, under their names in the data directory, and
    the calls that copy and restore one. A call can fail; one that writes can
    have done a part of its work. SQLite is a class: what the three files of a
    database hold together. zstd is another. *)

From S2P Require Import Prelude RustStr Extern D1Keys.

(** ** Files

    Directories are the prefixes of the names. A look at the metadata of a file
    does not fail. *)

Inductive fs_fault : Type := FsWorks | FsFails (e : string) (part : nat).
Inductive fs_error : Type := NotFound | FsError (e : string).

Local Abbreviation Files := (gmap string string).

Record Disk := mkDisk { d_files : Files; d_faults : list fs_fault }.

Definition fs_call {A} (work : Files -> result (A * Files) fs_error) (part : nat -> Files -> Files) :
  SE Disk fs_error A := fun d =>
  let rest := tail (d_faults d) in
  match default FsWorks (head (d_faults d)) with
  | FsFails e n => (Err (FsError e), mkDisk (part n (d_files d)) rest)
  | FsWorks => match work (d_files d) with
               | Ok (a, f) => (Ok a, mkDisk f rest)
               | Err e => (Err e, mkDisk (d_files d) rest)
               end
  end.

Definition remove_file (path : string) : SE Disk fs_error unit :=
  fs_call (fun f => match f !! path with Some _ => Ok (tt, delete path f) | None => Err NotFound end) (fun _ f => f).

Definition rename (from to : string) : SE Disk fs_error unit :=
  fs_call (fun f => match f !! from with Some x => Ok (tt, <[to := x]> (delete from f)) | None => Err NotFound end)
    (fun _ f => f).

(** A write that fails leaves no file, or the first bytes. *)
Definition write_file (path bytes : string) : SE Disk fs_error unit :=
  fs_call (fun f => Ok (tt, <[path := bytes]> f))
    (fun n f => match n with O => f | Datatypes.S n => <[path := String.substring 0 n bytes]> f end).

Definition read_file (path : string) : SE Disk fs_error string :=
  fs_call (fun f => match f !! path with Some x => Ok (x, f) | None => Err NotFound end) (fun _ f => f).

Definition create_dir_all : SE Disk fs_error unit := fs_call (fun f => Ok (tt, f)) (fun _ f => f).

(** [dir] ends with a slash. A directory that is not there is one that holds
    nothing. *)
Definition remove_dir_all (dir : string) : SE Disk fs_error unit :=
  fs_call (fun f => Ok (tt, filter (fun x : string * string => starts_with dir x.1 = false) f))
    (fun n f => foldr (fun x f => delete x f) f
      (take n (filter (fun x => starts_with dir x = true) (map_to_list f).*1))).

Definition path_exists (path : string) (d : Disk) : bool := bool_decide (is_Some (d_files d !! path)).

Definition fs_text (prefix : string) (e : fs_error) : string :=
  prefix +:+ match e with NotFound => "No such file or directory" | FsError e => e end.

(** ** The files of a database *)

Record DbFiles := mkDbFiles { main : option string; wal : option string; shm : option string }.

Definition files_of (f : Files) (key : string) : DbFiles :=
  mkDbFiles (f !! file_of key "sqlite") (f !! file_of key "sqlite-wal") (f !! file_of key "sqlite-shm").

Definition put_files (key : string) (x : DbFiles) (f : Files) : Files :=
  partial_alter (fun _ => main x) (file_of key "sqlite")
    (partial_alter (fun _ => wal x) (file_of key "sqlite-wal")
       (partial_alter (fun _ => shm x) (file_of key "sqlite-shm") f)).

(** [D]: the contents of a database. *)
Class SqliteFiles (D : Type) := {
  empty_db : D;
  (** What a connection to the files sees; the third file is only an index of
      the second. *)
  read_files : string -> option string -> D;
  open_files : DbFiles -> result DbFiles string;
  write_files : D -> DbFiles -> DbFiles;
  close_files : DbFiles -> DbFiles;
  (** VACUUM INTO, and the check of a file: [ok], or why not. *)
  image : D -> string;
  integrity : string -> result unit string;
  (** [used_bytes]. *)
  used_bytes : D -> Z;
  open_ok f f' : open_files f = Ok f' -> exists m, main f' = Some m /\
    read_files m (wal f') = match main f with Some m0 => read_files m0 (wal f) | None => empty_db end;
  write_ok d f : is_Some (main f) -> exists m, main (write_files d f) = Some m /\
    read_files m (wal (write_files d f)) = d;
  close_ok f m : main f = Some m -> exists m', main (close_files f) = Some m' /\
    read_files m' (wal (close_files f)) = read_files m (wal f);
  image_ok d : read_files (image d) None = d;
}.

Class Zstd := {
  zip : string -> result string string;
  unzip : string -> result string string;
  unzip_zip x z : zip x = Ok z -> unzip z = Ok x;
  zip_fits x z : zip x = Ok z -> str_len z < 2 ^ 64;
}.

(** ** Lemmas on names *)

(** The keys of databases have no dots. *)
Definition dotless (key : string) : Prop := contains_char "." key = false.

Lemma file_of_inj k k' x x' : dotless k -> dotless k' -> file_of k x = file_of k' x' -> k = k' /\ x = x'.
Proof.
  unfold dotless, file_of. intros Hk Hk' E.
  assert (H1 : split_once "." (k +:+ "." +:+ x) = Some (k, x)) by by apply split_once_Some.
  assert (H2 : split_once "." (k' +:+ "." +:+ x') = Some (k', x')) by by apply split_once_Some.
  rewrite E in H1. by simplify_eq.
Qed.

(** Only the files of [key] with these suffixes can differ. *)
Definition touches (key : string) (xs : list string) (f f' : Files) : Prop :=
  forall p, (forall x, x ∈ xs -> p <> file_of key x) -> f' !! p = f !! p.

Lemma touches_refl key xs f : touches key xs f f.
Proof. by intros p _. Qed.

Lemma touches_trans key xs f f' f'' : touches key xs f f' -> touches key xs f' f'' -> touches key xs f f''.
Proof. intros H1 H2 p Hp. by rewrite H2, H1. Qed.

Lemma touches_weaken key xs ys f f' : touches key xs f f' -> xs ⊆ ys -> touches key ys f f'.
Proof. intros H Hs p Hp. apply H. intros x Hx. by apply Hp, Hs. Qed.

Lemma touches_insert key x b f : touches key [x] f (<[file_of key x := b]> f).
Proof. intros p Hp. apply lookup_insert_ne. intros <-. by eapply Hp; [left|]. Qed.

Lemma touches_delete key x f : touches key [x] f (delete (file_of key x) f).
Proof. intros p Hp. apply lookup_delete_ne. intros <-. by eapply Hp; [left|]. Qed.

Lemma touches_put key x f : touches key FILES f (put_files key x f).
Proof. intros p Hp. unfold put_files. rewrite !lookup_partial_alter_ne; [done|..]; intros <-;
    (eapply Hp; [|reflexivity]); set_solver.
Qed.

Lemma touches_other key xs f f' k : touches key xs f f' -> dotless key -> dotless k -> k <> key ->
  files_of f' k = files_of f k.
Proof.
  intros H Hd Hk Hne. unfold files_of. f_equal; apply H; intros x _ E; by apply file_of_inj in E as [? _].
Qed.

Lemma touches_disjoint key xs f f' k : touches key xs f f' -> dotless key -> dotless k ->
  Forall (.∉ xs) FILES -> files_of f' k = files_of f k.
Proof.
  intros H Hd Hk Hx. unfold FILES in Hx. rewrite !Forall_cons in Hx. destruct Hx as (H1 & H2 & H3 & _).
  unfold files_of. f_equal; apply H; intros x Hin E; apply file_of_inj in E as [_ <-]; done.
Qed.

Lemma file_of_ne key x y : x <> y -> file_of key x <> file_of key y.
Proof. unfold file_of. intros Hne E. apply Hne. apply app_inj_l in E. by simplify_eq. Qed.

Lemma files_of_put key x f : files_of (put_files key x f) key = x.
Proof.
  unfold files_of, put_files. destruct x as [m w s]. simpl.
  f_equal; rewrite ?lookup_partial_alter_eq; try done; rewrite ?lookup_partial_alter_ne, ?lookup_partial_alter_eq by
    (apply file_of_ne; discriminate); done.
Qed.

Lemma fs_call_inv {A} work part d (r : result A fs_error) d' : fs_call work part d = (r, d') ->
  (exists e n, r = Err (FsError e) /\ d_files d' = part n (d_files d)) \/
  match work (d_files d) with
  | Ok (a, f) => r = Ok a /\ d_files d' = f
  | Err e => r = Err e /\ d_files d' = d_files d
  end.
Proof.
  unfold fs_call. destruct (default FsWorks (head (d_faults d))); [|intros [= <- <-]; left; eauto].
  destruct (work (d_files d)) as [[a f]|e]; intros [= <- <-]; by right.
Qed.

Lemma remove_file_touches key x d r d' : remove_file (file_of key x) d = (r, d') ->
  touches key [x] (d_files d) (d_files d').
Proof.
  intros [(e & n & _ & ->)|H]%fs_call_inv; [apply touches_refl|].
  destruct (d_files d !! file_of key x); destruct H as [_ ->]; [apply touches_delete|apply touches_refl].
Qed.

Lemma write_file_touches key x b d r d' : write_file (file_of key x) b d = (r, d') ->
  touches key [x] (d_files d) (d_files d') /\ (is_ok r = true -> d_files d' = <[file_of key x := b]> (d_files d)).
Proof.
  intros [(e & [|n] & -> & ->)|[-> ->]]%fs_call_inv; (split; [|done]);
    [apply touches_refl|apply touches_insert|apply touches_insert].
Qed.

Section copies.
Context {D : Type} {sq : SqliteFiles D} {zs : Zstd}.

Definition contents_of (x : DbFiles) : option D := m ← main x; Some (read_files m (wal x)).

(** [Database::open]: a call that fails can have made the files. *)
Definition open_database (key : string) : SE Disk fs_error unit :=
  fs_call (fun f => match open_files (files_of f key) with
                    | Ok x => Ok (tt, put_files key x f)
                    | Err e => Err (FsError e)
                    end)
    (fun n f => match n, open_files (files_of f key) with
                | Datatypes.S _, Ok x => put_files key x f
                | _, _ => f
                end).

(** [take_snapshot] of the database under [key]. *)
Definition copy_database (key scratch : string) : SE Disk string string :=
  d ← (fun disk => match contents_of (files_of (d_files disk) key) with
                   | Some d => (Ok d, disk)
                   | None => (Err "open: unable to open database file", disk)
                   end);
  _ ← with_error (fs_text "VACUUM INTO: ") (write_file scratch (image d));
  copy ← with_error (fs_text "read: ") (read_file scratch);
  lift (result_map_err (String.append "compress: ") (zip copy)).

Definition take_snapshot (key scratch : string) : SE Disk string string := fun disk =>
  let '(_, disk) := remove_file scratch disk in
  let '(result, disk) := copy_database key scratch disk in
  let '(_, disk) := remove_file scratch disk in
  (result, disk).

Definition restore_snapshot (bytes path scratch : string) : SE Disk string unit :=
  copy ← lift (result_map_err (String.append "decompress: ") (unzip bytes));
  _ ← with_error (fs_text "write: ") (write_file scratch copy);
  match integrity copy with
  | Err err => _ ← quietly (remove_file scratch); throw err
  | Ok _ => with_error (fs_text "rename: ") (rename scratch path)
  end.

(** The database in a snapshot. *)
Definition unpack (bytes : string) : option D :=
  match unzip bytes with Ok copy => Some (read_files copy None) | Err _ => None end.

Lemma open_database_spec key d r d' : open_database key d = (r, d') ->
  touches key FILES (d_files d) (d_files d') /\
  let f := files_of (d_files d) key in
  let f' := files_of (d_files d') key in
  (f' = f /\ is_ok r = false \/ contents_of f' = Some (default empty_db (contents_of f))).
Proof.
  assert (Hput : forall x, open_files (files_of (d_files d) key) = Ok x ->
    contents_of (files_of (put_files key x (d_files d)) key) =
    Some (default empty_db (contents_of (files_of (d_files d) key)))).
  { intros x Hx. rewrite files_of_put. destruct (open_ok _ _ Hx) as (m & Hm & Hr). unfold contents_of.
    rewrite Hm. cbn [mbind option_bind]. rewrite Hr. by destruct (main (files_of (d_files d) key)). }
  intros [(e & n & -> & Hd)|H]%fs_call_inv.
  - destruct n as [|n]; [|destruct (open_files (files_of (d_files d) key)) as [x|] eqn:E]; rewrite Hd;
      (split; [apply touches_refl || apply touches_put|]); [by left|right; by apply Hput|by left].
  - destruct (open_files (files_of (d_files d) key)) as [x|e] eqn:E; destruct H as [-> ->];
      (split; [apply touches_refl || apply touches_put|]); [right; by apply Hput|by left].
Qed.

Lemma copy_database_spec key d r d' : dotless key ->
  copy_database key (file_of key "snapshot.scratch") d = (r, d') ->
  touches key ["snapshot.scratch"] (d_files d) (d_files d') /\
  forall z, r = Ok z -> str_len z < 2 ^ 64 /\ exists c, contents_of (files_of (d_files d) key) = Some c /\ unpack z = Some c.
Proof.
  intros Hk E. unfold copy_database in E. apply SE_bind_inv in E as [(c & d1 & Ec & E)|(e & Ec & ->)];
    destruct (contents_of (files_of (d_files d) key)) as [c'|]; simplify_eq; [|split; [apply touches_refl|done]].
  apply SE_bind_inv in E as [([] & d4 & E4 & E)|(e & E4 & ->)]; apply with_error_inv in E4 as (r4 & E4 & Hr4);
    apply write_file_touches in E4 as [Ht4 Hw]; [|done].
  destruct r4; [|done]. specialize (Hw eq_refl).
  assert (Hread : forall r5 d5, read_file (file_of key "snapshot.scratch") d4 = (r5, d5) ->
    d_files d5 = d_files d4 /\ (forall x, r5 = Ok x -> x = image c)).
  { intros r5 d5 [(e5 & n & -> & Hd5)|H5]%fs_call_inv; [done|]. rewrite Hw, lookup_insert_eq in H5.
    destruct H5 as [-> ->]. split; [done|]. by intros x [= <-]. }
  apply SE_bind_inv in E as [(x & d5 & E5 & E)|(e & E5 & ->)]; apply with_error_inv in E5 as (r5 & E5 & Hr5);
    apply Hread in E5 as [Hd5 Hx]; [|by rewrite Hd5].
  destruct r5 as [x'|]; [|done]. specialize (Hx x' eq_refl). simplify_eq/=. injection E as <- <-. rewrite Hd5. split; [done|].
  intros z Hz. destruct (zip (image c)) as [z'|] eqn:Ez; simplify_eq/=. split; [by eapply zip_fits|].
  exists c. split; [done|]. unfold unpack. by rewrite (unzip_zip _ _ Ez), image_ok.
Qed.

Lemma take_snapshot_spec key d r d' : dotless key ->
  take_snapshot key (file_of key "snapshot.scratch") d = (r, d') ->
  touches key ["snapshot.scratch"] (d_files d) (d_files d') /\
  forall z, r = Ok z -> str_len z < 2 ^ 64 /\ exists c, contents_of (files_of (d_files d) key) = Some c /\ unpack z = Some c.
Proof.
  intros Hk. unfold take_snapshot. destruct (remove_file _ d) as [r1 d1] eqn:E1.
  destruct (copy_database _ _ d1) as [r2 d2] eqn:E2. destruct (remove_file _ d2) as [r3 d3] eqn:E3.
  intros [= <- <-]. apply remove_file_touches in E1, E3.
  rewrite <- (touches_disjoint _ _ _ _ key E1 Hk Hk) by (repeat constructor; set_solver).
  apply copy_database_spec in E2 as [Ht Hz]; [|done]. split; [|done].
  eapply touches_trans; [exact E1|]. by eapply touches_trans.
Qed.

Lemma restore_snapshot_spec key bytes d r d' : dotless key ->
  restore_snapshot bytes (file_of key "sqlite") (file_of key "restore.scratch") d = (r, d') ->
  touches key ["sqlite"; "restore.scratch"] (d_files d) (d_files d') /\
  match r with
  | Ok _ => exists copy, unzip bytes = Ok copy /\ d_files d' !! file_of key "sqlite" = Some copy
  | Err _ => touches key ["restore.scratch"] (d_files d) (d_files d')
  end.
Proof.
  intros Hk E. assert (Hw : forall f f', touches key ["restore.scratch"] f f' ->
    touches key ["sqlite"; "restore.scratch"] f f') by (intros; eapply touches_weaken; [done|set_solver]).
  unfold restore_snapshot in E.
  apply SE_bind_inv in E as [(copy & d1 & Ec & E)|(e & Ec & ->)]; injection Ec as Ec <-;
    destruct (unzip bytes) as [copy'|]; simplify_eq/=; [|split; apply touches_refl].
  apply SE_bind_inv in E as [([] & d4 & E4 & E)|(e & E4 & ->)]; apply with_error_inv in E4 as (r4 & E4 & Hr4);
    apply write_file_touches in E4 as [Ht4 Hok]; [|by split; [apply Hw|]].
  destruct r4; [|done]. specialize (Hok eq_refl). destruct (integrity copy).
  - apply with_error_inv in E as (r5 & E & ->). apply fs_call_inv in E as [(e & n & -> & ->)|H5];
      [by split; [apply Hw|]|].
    rewrite Hok, lookup_insert_eq in H5. destruct H5 as [-> ->]. split; [|exists copy; split; [done|apply lookup_insert_eq]].
    eapply touches_trans; [by apply Hw|]. rewrite Hok. eapply touches_trans; [|eapply touches_weaken; [apply touches_insert|set_solver]].
    eapply touches_weaken; [apply touches_delete|set_solver].
  - apply SE_bind_inv in E as [(u & d5 & E5 & E)|(e5 & E5 & _)]; apply quietly_inv in E5 as [Hu (r5 & E5)]; [|done].
    injection E as <- <-. apply remove_file_touches in E5.
    assert (touches key ["restore.scratch"] (d_files d) (d_files d5)) by by eapply touches_trans.
    split; [by apply Hw|done].
Qed.

End copies.
