(* ===== verification/D1Calls.v ===== *)
(** * Calls on databases, one after the other (src/src/d1/mod.rs)

    [D1Service] interleaves the calls and counts commits; here a call runs
    whole, on the files of its database and on the snapshots: the place in the
    queue, the restore of a missing file, the open, the job, the snapshot pass,
    the reset and the removal. The clock stands still during a call, and a
    blocking task does not panic. *)

From S2P Require Import Prelude RustStr Extern D1Keys D1Archive D1Sql ObjectStorage D1Service D1Disk.

Section calls.
Context {D : Type} {sq : SqliteFiles D} {zs : Zstd} {St Ix : Type} {store : ObjectStore St} {index : Index Ix}.
Context {U : Type} {uuid : Uuid U}.
Context (sha : string -> string) (keep : nat) (cfg : D1Service.Config) (pause_after : Z).

(** What a job works on: the contents of the file, the count of the commit
    hook, and the number of SQLite calls so far. *)
Record Conn := mkConn { k_data : D; k_commits : Z; k_calls : nat }.

(** [Database::run], with the reasons why writes are refused. *)
Definition Work : Type := option string -> option string -> Conn -> Done * Conn.

Record world := mkWorld {
  w_now : Z; w_calls : nat; w_low : bool; w_dbs : Databases; w_ns : gmap string Usage;
  w_disk : Disk; w_archive : option (St * Ix) }.

Definition set_disk (d : Disk) (w : world) : world :=
  mkWorld (w_now w) (w_calls w) (w_low w) (w_dbs w) (w_ns w) d (w_archive w).
Definition set_archive (a : option (St * Ix)) (w : world) : world :=
  mkWorld (w_now w) (w_calls w) (w_low w) (w_dbs w) (w_ns w) (w_disk w) a.
Definition set_ns (n : gmap string Usage) (w : world) : world :=
  mkWorld (w_now w) (w_calls w) (w_low w) (w_dbs w) n (w_disk w) (w_archive w).
Definition set_handle (id : string) (h : Handle) (w : world) : world :=
  mkWorld (w_now w) (w_calls w) (w_low w) (<[id := h]> (w_dbs w)) (w_ns w) (w_disk w) (w_archive w).

Definition on_disk {E A} (m : SE Disk E A) : SE world E A := fun w =>
  let '(r, d) := m (w_disk w) in (r, set_disk d w).

(** [off]: the answer without an archive. *)
Definition on_archive {A} (off : result A string) (m : SE (St * Ix) string A) : SE world string A := fun w =>
  match w_archive w with
  | None => (off, w)
  | Some a => let '(r, a) := m a in (r, set_archive (Some a) w)
  end.

Definition handle_of (id : string) (w : world) : Handle := default (new_handle (w_now w)) (w_dbs w !! id).
Definition files_at (id : string) (w : world) : DbFiles := files_of (d_files (w_disk w)) id.
Definition archiving (w : world) : bool := match w_archive w with Some _ => true | None => false end.

(** ** Connections that close

    SQLite checkpoints the files when the last connection closes. *)

Definition connected_in (d : Databases) (id : string) : bool :=
  match d !! id with Some h => connected h | None => false end.

Definition dropped (old new : Databases) : list string :=
  filter (fun id => connected_in old id = true /\ connected_in new id = false) (map_to_list old).*1.

Definition close_one (id : string) (f : gmap string string) : gmap string string :=
  put_files id (close_files (files_of f id)) f.

Definition replace_dbs (new : Databases) (w : world) : world :=
  mkWorld (w_now w) (w_calls w) (w_low w) new (w_ns w)
    (mkDisk (foldr close_one (d_files (w_disk w)) (dropped (w_dbs w) new)) (d_faults (w_disk w))) (w_archive w).

(** ** A call *)

Definition restore_if_missing (id : string) : SE world string unit := fun w =>
  if negb (archiving w) then (Ok tt, w) else
  if path_exists (file_of id "sqlite") (w_disk w) then (Ok tt, w) else
  (found ← on_archive (Ok None) (fetch_latest sha id);
   match found with
   | None => mret tt
   | Some bytes => on_disk (restore_snapshot bytes (file_of id "sqlite") (file_of id "restore.scratch"))
   end) w.

Definition connect (id : string) : SE world Done unit := fun w =>
  (Ok tt, set_handle id (set_lock true false (handle_of id w)) w).

Definition open_closed (id : string) (full_ : option string) : SE world Done unit :=
  _ ← with_error (fun _ => unavailable_done "the database cannot be opened") (on_disk create_dir_all);
  _ ← with_error (fun _ => unavailable_done "the database cannot be restored from its last snapshot")
        (restore_if_missing id);
  there ← gets (fun w : world => path_exists (file_of id "sqlite") (w_disk w));
  _ ← match full_ with
      | Some reason => if there : bool then mret tt else throw (DObject (Error ("the storage is full: " +:+ reason)))
      | None => mret tt
      end;
  _ ← with_error (fun _ => unavailable_done "the database cannot be opened") (on_disk (open_database id));
  connect id.

(** The files of the directory of a namespace, with their sizes. *)
Definition dir_of (w : world) (namespace_id : string) : list (string * Z) :=
  omap (fun x : string * string =>
    name ← strip_prefix (OBJECTS +:+ "/" +:+ namespace_id +:+ "/") x.1; Some (name, str_len x.2))
    (map_to_list (d_files (w_disk w))).

Definition namespace_full (id : string) : SE world Done (option string) := fun w =>
  match parse_object_key id with
  | Some (namespace_id, _) =>
    let '(reason, ns) := full (namespace_bytes cfg) (dir_of w) namespace_id (w_ns w) in (Ok reason, set_ns ns w)
  | None => (Ok None, w)
  end.

Definition run_work (id : string) (work : Work) (full_ : option string) : SE world Done Done := fun w =>
  let h := handle_of id w in
  let reason := paused (w_low w) (if archiving w then Some pause_after else None) (w_now w) h in
  let f := files_at id w in
  let '(r, c) := work reason full_ (mkConn (default empty_db (contents_of f)) (commits h) (w_calls w)) in
  let ns := match parse_object_key id with
            | Some (namespace_id, object_id) => measured namespace_id object_id (used_bytes (k_data c)) (w_ns w)
            | None => w_ns w
            end in
  (Ok r, mkWorld (w_now w) (k_calls c) (w_low w) (<[id := set_commits (k_commits c) h]> (w_dbs w)) ns
           (mkDisk (put_files id (write_files (k_data c) f) (d_files (w_disk w))) (d_faults (w_disk w))) (w_archive w)).

Definition run (id : string) (work : Work) : SE world Done Done :=
  h ← gets (handle_of id);
  _ ← (if locked h then throw (DD1 (RError (error KOverloaded "timed out waiting for the database"))) else mret tt);
  full_ ← namespace_full id;
  _ ← (if connected h then mret tt else open_closed id full_);
  run_work id work full_.

Definition answer (r : result Done Done) : Done := match r with Ok d | Err d => d end.

Definition submit (key : string) (work : Work) (w : world) : Done * world :=
  let '(entered, d) := enter_queue cfg (w_now w) key (w_dbs w) in
  let w := replace_dbs d w in
  match entered with
  | Err e => (DD1 (RError e), w)
  | Ok _ =>
    let '(r, w) := run key work w in
    (answer r, set_handle key (leave_queue (archiving w) (w_now w) (handle_of key w)) w)
  end.

Definition submit_database (database_id : string) (work : Work) (w : world) : Done * world :=
  match database_file database_id with
  | Err e => (e, w)
  | Ok id => submit id work w
  end.

(** ** Snapshots *)

Definition mark_saved (id : string) (covered started : Z) : SE world string unit := fun w =>
  let h := handle_of id w in
  (Ok tt, set_handle id (set_saved covered (if commits h =? covered then None else Some started) h) w).

Definition snapshot (id : string) : SE world string unit := fun w =>
  let started := w_now w in
  let covered := commits (handle_of id w) in
  (bytes ← on_disk (take_snapshot id (file_of id "snapshot.scratch"));
   _ ← on_archive (Err "snapshots are off on this runner") (save sha keep started id bytes);
   mark_saved id covered started) w.

Definition snapshot_all (w : world) : world :=
  if archiving w then foldl (fun w id => (snapshot id w).2) w (unsaved_ids (w_dbs w)) else w.

Definition close_idle_databases (w : world) : world := replace_dbs (close_idle cfg (w_now w) (w_dbs w)) w.

(** A turn of the timer. [free]: the bytes of the volume; [due]: the interval
    of the snapshots is over. *)
Definition timer (free : option Z) (due : bool) (w : world) : world :=
  let w := close_idle_databases w in
  let w := mkWorld (w_now w) (w_calls w) (check_disk cfg free (w_low w)) (w_dbs w) (w_ns w) (w_disk w) (w_archive w) in
  if archiving w && due then snapshot_all w else w.

(** ** Reset and removal *)

Fixpoint move_aside (stamp id : string) (suffixes : list string) : SE Disk string unit :=
  match suffixes with
  | [] => mret tt
  | x :: suffixes =>
    there ← gets (path_exists (file_of id x));
    _ ← (if there : bool
         then with_error (fs_text "move aside: ") (rename (file_of id x) (file_of id (x +:+ ".replaced-" +:+ stamp)))
         else mret tt);
    move_aside stamp id suffixes
  end.

(** The lock of the map is given back before the files move: a reset has two
    halves. *)
Definition reset_take (id : string) (w : world) : result (U * world) string :=
  match D1Service.reset_to_snapshot (archiving w) id (w_dbs w), uuid_parse id with
  | Err e, _ => Err e
  | Ok d, Some u => Ok (u, replace_dbs d w)
  | Ok d, None => Err "not a database ID"
  end.

Definition reset_move (stamp : string) (u : U) : SE world string unit := on_disk (move_aside stamp (uuid_string u) FILES).

Definition reset_to_snapshot (stamp id : string) : SE world string unit := fun w =>
  match reset_take id w with
  | Err e => (Err e, w)
  | Ok (u, w) => reset_move stamp u w
  end.

(** [false]: a file cannot be removed. *)
Fixpoint remove_all (id : string) (suffixes : list string) (d : Disk) : bool * Disk :=
  match suffixes with
  | [] => (true, d)
  | x :: suffixes =>
    match remove_file (file_of id x) d with
    | (Err (FsError _), d) => (false, d)
    | (_, d) => remove_all id suffixes d
    end
  end.

Definition remove_database_files (id : string) (w : world) : bool * world :=
  match uuid_parse id, remove_files id (w_dbs w) with
  | None, _ => (true, w)
  | Some u, None => (false, w)
  | Some u, Some d =>
    let w := replace_dbs d w in
    let '(done, disk) := remove_all (uuid_string u) FILES (w_disk w) in (done, set_disk disk w)
  end.

Definition remove_objects (namespace_id : string) (w : world) : bool * world :=
  match uuid_parse namespace_id, remove_namespace_files namespace_id (w_dbs w) with
  | None, _ => (true, w)
  | Some u, None => (false, w)
  | Some u, Some d =>
    let w := replace_dbs d w in
    let w := set_ns (delete (uuid_string u) (w_ns w)) w in
    let '(r, disk) := remove_dir_all (namespace_prefix u) (w_disk w) in
    (match r with Err (FsError _) => false | _ => true end, set_disk disk w)
  end.

Definition remove_snapshot_object (key : string) : SE world string unit :=
  on_archive (Err "snapshots are off on this runner") (on_fst (store_delete key)).

Definition forget_snapshots (id : string) : SE world string unit := on_archive (Ok tt) (forget_all id).

(** ** The start of the service

    [free_lock]: no other process holds the data directory. *)

Fixpoint remove_scratch (names : list string) (d : Disk) : Disk :=
  match names with [] => d | x :: names => remove_scratch names (remove_file x d).2 end.

Definition service_new (now : Z) (free_lock : bool) (d : Disk) : result world string * Disk :=
  match with_error (fs_text "D1: cannot create the data directory: ") create_dir_all d with
  | (Err e, d) => (Err e, d)
  | (Ok _, d) =>
    match with_error (fs_text "D1: cannot create the lock file: ") (write_file ".lock" "") d with
    | (Err e, d) => (Err e, d)
    | (Ok _, d) =>
      if negb free_lock then (Err "D1: another process holds the data directory", d) else
      let entries := filter (fun x => contains_char "/" x = false /\ ends_with ".scratch" x = true) (map_to_list (d_files d)).*1 in
      let d := remove_scratch entries d in
      (Ok (mkWorld now 0 false ∅ ∅ d None), d)
    end
  end.

Definition with_archive (a : St * Ix) (w : world) : world := set_archive (Some a) w.

(** [init], with the settings of the archive, if it is set, and the epoch the
    index takes. The service is installed once. *)
Definition init (config archive_config : bool) (index : option (result (St * Ix) string)) (installed : bool)
  (now : Z) (free_lock : bool) (d : Disk) : result (option world) string * Disk :=
  if negb config then (Ok None, d) else
  match service_new now free_lock d with
  | (Err e, d) => (Err e, d)
  | (Ok service, d) =>
    let with_index := if archive_config then
        match index with
        | None => Err "D1: snapshots need the platform database"
        | Some (Err e) => Err ("D1: cannot take a runner epoch: " +:+ e)
        | Some (Ok a) => Ok (with_archive a service)
        end
      else Ok service in
    (service <-? with_index;
     if installed then Err "D1 is already initialized" else Ok (Some service), d)
  end.

(** A last pass, on a clean shutdown. *)
Definition shutdown (service : option world) : option world := snapshot_all <$> service.

(** ** Storage of objects *)

Definition object_storage (namespace_id object_id : string) (work : Work) (w : world) : ObjectStorageResult * world :=
  match object_file namespace_id object_id with
  | Err e => (e, w)
  | Ok key => let '(r, w) := submit key work w in (object_result r, w)
  end.

(** ** What a call sees

    The contents of the file, or of the latest snapshot when there is no file,
    or an empty database. *)

Definition backup (w : world) (id : string) : option string := a ← w_archive w; current a id.

Definition saved_copy (w : world) (id : string) : option D :=
  match backup w id with Some bytes => unpack bytes | None => Some empty_db end.

Definition seen (w : world) (id : string) : option D :=
  match contents_of (files_at id w) with Some d => Some d | None => saved_copy w id end.

Definition key_ok (id : string) : Prop := dotless id /\ named id.

(** The archive is whole, an open database has its file, and no log of SQLite
    lies about without its database. *)
Record wf (w : world) : Prop := {
  wf_archive a : w_archive w = Some a -> archive_ok sha a;
  wf_open id : connected_in (w_dbs w) id = true -> key_ok id /\ is_Some (main (files_at id w));
  wf_wal id : key_ok id -> main (files_at id w) = None -> wal (files_at id w) = None }.

(** Nothing a call could see changes. *)
Record kept_world (w w' : world) : Prop := {
  kw_wf : wf w';
  kw_seen k : key_ok k -> seen w' k = seen w k;
  kw_backup k : backup w' k = backup w k;
  kw_archiving : archiving w' = archiving w }.

Lemma kept_world_refl w : wf w -> kept_world w w.
Proof. by constructor. Qed.

Lemma kept_world_trans a b c : kept_world a b -> kept_world b c -> kept_world a c.
Proof.
  intros [? S1 B1 A1] [W S2 B2 A2]. constructor; [done|..]; intros; [rewrite S2, S1|rewrite B2|]; congruence || done.
Qed.

Lemma contents_None (f : DbFiles) : contents_of f = None <-> main f = None.
Proof. unfold contents_of. by destruct (main f). Qed.

Lemma contents_Some (f : DbFiles) : is_Some (contents_of f) <-> is_Some (main f).
Proof. rewrite <- !not_eq_None_Some. by rewrite contents_None. Qed.

(** ** Connections that close *)

Lemma close_one_spec id f k : dotless id -> dotless k -> is_Some (main (files_of f id)) ->
  contents_of (files_of (close_one id f) k) = contents_of (files_of f k) /\
  (k <> id -> files_of (close_one id f) k = files_of f k).
Proof.
  intros Hd Hk [m Hm]. unfold close_one. assert (k <> id -> files_of (put_files id (close_files (files_of f id)) f) k = files_of f k).
  { intros Hne. by eapply touches_other; [apply touches_put|..]. }
  split; [|done]. destruct (decide (k = id)) as [->|Hne]; [|by rewrite H].
  rewrite files_of_put. destruct (close_ok _ _ Hm) as (m' & Hm' & Hr). unfold contents_of. rewrite Hm', Hm.
  cbn [mbind option_bind]. by rewrite Hr.
Qed.

Lemma close_all_spec ids f : Forall (fun id => dotless id /\ is_Some (main (files_of f id))) ids ->
  forall k, dotless k -> contents_of (files_of (foldr close_one f ids) k) = contents_of (files_of f k) /\
    (k ∉ ids -> files_of (foldr close_one f ids) k = files_of f k).
Proof.
  induction 1 as [|id ids [Hd Hm] Hf IH]; [done|]. intros k Hk. cbn [foldr].
  assert (Hg : is_Some (main (files_of (foldr close_one f ids) id))).
  { apply contents_Some. rewrite (proj1 (IH id Hd)). by apply contents_Some. }
  destruct (IH k Hk) as [IH1 IH2]. destruct (close_one_spec id _ k Hd Hk Hg) as [C1 C2].
  split; [by rewrite C1|]. intros [Hne Hni]%not_elem_of_cons. rewrite C2 by done. by apply IH2.
Qed.

Lemma dropped_spec old new id : id ∈ dropped old new <-> connected_in old id = true /\ connected_in new id = false.
Proof.
  unfold dropped. rewrite list_elem_of_filter, list_elem_of_fmap. split; [by intros [? _]|].
  intros [H1 H2]. split; [done|]. unfold connected_in in H1. destruct (old !! id) as [h|] eqn:E; [|done].
  exists (id, h). split; [done|]. by apply elem_of_map_to_list.
Qed.

(** Databases can close, and those that stay open were open. *)
Lemma replace_dbs_kept new w : wf w ->
  (forall id, connected_in new id = true -> connected_in (w_dbs w) id = true) -> kept_world w (replace_dbs new w).
Proof.
  intros [Wa Wo Ww] Hsub.
  assert (Hall : Forall (fun id => dotless id /\ is_Some (main (files_of (d_files (w_disk w)) id))) (dropped (w_dbs w) new)).
  { apply Forall_forall. intros id [Hc _]%dropped_spec. by destruct (Wo id Hc) as [[? _] ?]. }
  pose proof (close_all_spec _ _ Hall) as Hcl.
  assert (Hc : forall k, dotless k -> contents_of (files_at k (replace_dbs new w)) = contents_of (files_at k w))
    by (intros k Hk; apply (Hcl k Hk)).
  constructor; [constructor|..]; [done|..|done|done].
  - intros id Hid. destruct (Wo id (Hsub id Hid)) as [Hk Hm]. split; [done|]. apply contents_Some.
    rewrite Hc by apply Hk. by apply contents_Some.
  - intros id Hk Hn. pose proof Hn as Hn'. apply contents_None in Hn. rewrite Hc in Hn by apply Hk. apply contents_None in Hn.
    unfold files_at, replace_dbs. cbn [w_disk d_files].
    rewrite (proj2 (Hcl id (proj1 Hk))); [by apply Ww|]. intros [Hin _]%dropped_spec.
    destruct (Wo id Hin) as [_ [m Hm]]. unfold files_at in *. congruence.
  - intros k [Hk _]. unfold seen. by rewrite Hc.
Qed.

Lemma lighter_connected o o' : lighter o o' ->
  match o' with Some h => connected h | None => false end = true -> match o with Some h => connected h | None => false end = true.
Proof.
  intros [->|(h & -> & _ & [->|[-> _]])]; [done| |done]. unfold close. by destruct (locked h).
Qed.

Lemma enter_queue_connected t key d r d' : enter_queue cfg t key d = (r, d') ->
  forall id, connected_in d' id = true -> connected_in d id = true.
Proof.
  unfold enter_queue, handle, connected_in. intros E id. destruct (d !! key) as [h|] eqn:Eh.
  - destruct (max_queue cfg <=? _); injection E as <- <-; (destruct (decide (id = key)) as [->|Hne];
      [rewrite !lookup_insert_eq, Eh|rewrite !lookup_insert_ne by done]; done).
  - destruct (max_queue cfg <=? _); injection E as <- <-; (destruct (decide (id = key)) as [->|Hne];
      [rewrite !lookup_insert_eq; simpl; done|rewrite !lookup_insert_ne by done; apply lighter_connected, make_room_lighter]).
Qed.

(** ** The parts of a call *)

(** The clock, the room on the disk and the handles stay. *)
Definition same_frame (w w' : world) : Prop :=
  w_now w' = w_now w /\ w_low w' = w_low w /\ w_calls w' = w_calls w /\ w_dbs w' = w_dbs w.

Lemma disk_kept w d : wf w -> (forall k, dotless k -> files_of (d_files d) k = files_at k w) ->
  kept_world w (set_disk d w).
Proof.
  intros [Wa Wo Ww] Hf. change (forall k, dotless k -> files_at k (set_disk d w) = files_at k w) in Hf.
  constructor; [constructor|..]; [done|..|done|done].
  - intros id Hid. destruct (Wo id Hid) as [Hk Hm]. split; [done|]. by rewrite Hf; [|apply Hk].
  - intros id Hk. rewrite Hf by apply Hk. by apply Ww.
  - intros k [Hk _]. unfold seen. by rewrite Hf.
Qed.

Lemma scratch_kept w d id x : wf w -> key_ok id -> x ∉ FILES ->
  touches id [x] (d_files (w_disk w)) (d_files d) -> kept_world w (set_disk d w).
Proof.
  intros Hw [Hd _] Hx Ht. apply disk_kept; [done|]. intros k Hk. eapply touches_disjoint; [exact Ht|done..|].
  apply Forall_forall. intros y Hy. set_solver.
Qed.

Lemma archive_kept w a a' : wf w -> w_archive w = Some a -> archive_ok sha a' ->
  (forall k, current a' k = current a k) -> kept_world w (set_archive (Some a') w).
Proof.
  intros [Wa Wo Ww] Ha Hok Hc.
  assert (Hb : forall k, backup (set_archive (Some a') w) k = backup w k)
    by (intros k; unfold backup; rewrite Ha; simpl; apply Hc).
  constructor; [constructor|..]; try done.
  - simpl. intros a2 [= <-]. done.
  - intros k _. unfold seen, saved_copy. by rewrite Hb.
  - unfold archiving. simpl. by rewrite Ha.
Qed.

Lemma handle_kept w id h : wf w -> (connected h = true -> connected_in (w_dbs w) id = true \/
    key_ok id /\ is_Some (main (files_at id w))) -> kept_world w (set_handle id h w).
Proof.
  intros [Wa Wo Ww] Hh. constructor; [constructor|..]; try done.
  intros k. unfold connected_in. simpl. destruct (decide (k = id)) as [->|Hne].
  - rewrite lookup_insert_eq. intros Hc. destruct (Hh Hc) as [?|?]; [by apply Wo|done].
  - rewrite lookup_insert_ne by done. apply Wo.
Qed.

Lemma fetch_kept w id r w' : wf w -> key_ok id -> on_archive (Ok None) (fetch_latest sha id) w = (r, w') ->
  kept_world w w' /\ same_frame w w' /\ w_disk w' = w_disk w /\ (forall o, r = Ok o -> o = backup w id).
Proof.
  intros Hw Hk. unfold on_archive, backup. destruct (w_archive w) as [a|] eqn:Ea.
  - destruct (fetch_latest sha id a) as [r1 a1] eqn:Ef. intros [= <- <-].
    destruct (fetch_latest_spec sha a id r1 a1 (wf_archive w Hw a Ea) (proj2 Hk) Ef) as (Hok & Hc & Hr).
    split; [by apply (archive_kept w a)|]. split; [done|]. split; [done|]. intros o ->. done.
  - intros [= <- <-]. split; [by apply kept_world_refl|]. split; [done|]. split; [done|]. by intros o [= <-].
Qed.

Lemma restored_kept w id bytes d : wf w -> key_ok id -> main (files_at id w) = None -> backup w id = Some bytes ->
  touches id ["sqlite"; "restore.scratch"] (d_files (w_disk w)) (d_files d) ->
  (exists copy, unzip bytes = Ok copy /\ d_files d !! file_of id "sqlite" = Some copy) ->
  kept_world w (set_disk d w).
Proof.
  intros Hw Hk Hm Hb Ht (copy & Hu & Hd). pose proof (wf_wal w Hw id Hk Hm) as Hwal. pose proof Hw as [Wa Wo Ww].
  assert (Hmain : main (files_at id (set_disk d w)) = Some copy) by done.
  assert (Hwal' : wal (files_at id (set_disk d w)) = None).
  { simpl. rewrite Ht; [exact Hwal|]. intros x Hx. apply file_of_ne. set_solver. }
  assert (Ho : forall k, dotless k -> k <> id -> files_at k (set_disk d w) = files_at k w)
    by (intros k Hd' Hne; eapply touches_other; [exact Ht|apply Hk|done..]).
  constructor; [constructor|..]; try done.
  - intros k Hc. destruct (Wo k Hc) as [Hk' Hs]. split; [done|]. destruct (decide (k = id)) as [->|Hne]; [by rewrite Hmain|].
    by rewrite Ho; [|apply Hk'|].
  - intros k Hk'. destruct (decide (k = id)) as [->|Hne]; [by rewrite Hmain|]. rewrite Ho by (apply Hk' || done). by apply Ww.
  - intros k Hk'. unfold seen. destruct (decide (k = id)) as [->|Hne]; [|by rewrite Ho by (apply Hk' || done)].
    rewrite (proj2 (contents_None (files_at id w)) Hm). unfold contents_of. rewrite Hmain, Hwal'. simpl.
    unfold saved_copy. rewrite Hb. unfold unpack. by rewrite Hu.
Qed.

Lemma restore_kept w id r w' : wf w -> key_ok id -> restore_if_missing id w = (r, w') ->
  kept_world w w' /\ same_frame w w' /\
  (is_ok r = true -> is_Some (main (files_at id w')) \/ backup w id = None).
Proof.
  intros Hw Hk. unfold restore_if_missing. destruct (archiving w) eqn:Ea; simpl.
  2:{ intros [= <- <-]. split_and!; [by apply kept_world_refl|done|]. intros _. right. unfold backup, archiving in *.
      by destruct (w_archive w). }
  unfold path_exists. case_bool_decide as Hex.
  { intros [= <- <-]. split_and!; [by apply kept_world_refl|done|]. by left. }
  intros E. apply SE_bind_inv in E as [(o & w1 & E1 & E)|(e & E1 & ->)];
    apply (fetch_kept _ _ _ _ Hw Hk) in E1 as (K1 & F1 & D1 & Hb1); [|done].
  specialize (Hb1 o eq_refl). subst o. destruct (backup w id) as [bytes|] eqn:Eb; [|injection E as <- <-; auto].
  assert (Hm : main (files_at id w1) = None) by (unfold files_at; rewrite D1; by apply eq_None_not_Some).
  unfold on_disk in E. destruct (restore_snapshot _ _ _ (w_disk w1)) as [r2 d2] eqn:E2. injection E as <- <-.
  apply restore_snapshot_spec in E2 as [Ht Hr]; [|apply Hk].
  destruct r2 as [u|e].
  - split_and!; [|exact F1|left]. 
    + eapply kept_world_trans; [exact K1|]. eapply (restored_kept w1 id bytes); try done; [apply K1|].
      by rewrite (kw_backup _ _ K1).
    + destruct Hr as (copy & _ & Hc). by exists copy.
  - split_and!; [|exact F1|done]. eapply kept_world_trans; [exact K1|].
    apply (scratch_kept _ _ id "restore.scratch"); [apply K1|done|set_solver|done].
Qed.

(** The errors of a call that has not run. *)
Definition refusal (e : Done) : Prop :=
  (exists k m, e = DD1 (RError (error k m)) /\ (k = KOverloaded \/ k = KUnavailable)) \/
  exists m, e = DObject (Error ("the storage is full: " +:+ m)).

Lemma unavailable_refusal m : refusal (unavailable_done m).
Proof. left. eauto. Qed.

Lemma opened_kept w id r d : wf w -> key_ok id -> is_Some (main (files_at id w)) \/ backup w id = None ->
  open_database id (w_disk w) = (r, d) ->
  kept_world w (set_disk d w) /\ (is_ok r = true -> is_Some (main (files_at id (set_disk d w)))).
Proof.
  intros Hw Hk Hpre E. apply open_database_spec in E as [Ht Hc]. cbv zeta in Hc.
  change (files_of (d_files (w_disk w)) id) with (files_at id w) in Hc.
  change (files_of (d_files d) id) with (files_at id (set_disk d w)) in Hc. pose proof Hw as [Wa Wo Ww].
  assert (Ho : forall k, dotless k -> k <> id -> files_at k (set_disk d w) = files_at k w)
    by (intros k Hd' Hne; eapply touches_other; [exact Ht|apply Hk|done..]).
  destruct Hc as [[Hc Hr]|Hc].
  - rewrite Hr. split; [|done]. apply disk_kept; [done|]. intros k Hd.
    destruct (decide (k = id)) as [->|Hne]; [done|by apply Ho].
  - assert (Hm : is_Some (main (files_at id (set_disk d w)))) by (apply contents_Some; by rewrite Hc).
    split; [|done]. constructor; [constructor|..]; try done.
    + intros k Hc'. destruct (Wo k Hc') as [Hk' Hs]. split; [done|].
      destruct (decide (k = id)) as [->|Hne]; [done|]. by rewrite Ho; [|apply Hk'|].
    + intros k Hk'. destruct (decide (k = id)) as [->|Hne]; [intros Hn; rewrite Hn in Hm; by destruct Hm|].
      rewrite Ho by (apply Hk' || done). by apply Ww.
    + intros k Hk'. unfold seen. destruct (decide (k = id)) as [->|Hne]; [|by rewrite Ho by (apply Hk' || done)].
      rewrite Hc. destruct (contents_of (files_at id w)) as [c|] eqn:Ec; [done|].
      destruct Hpre as [Hs|Hb]; [apply contents_Some in Hs; rewrite Ec in Hs; by destruct Hs|].
      unfold saved_copy. change (backup (set_disk d w) id) with (backup w id). by rewrite Hb.
Qed.

Lemma open_closed_kept w id full_ r w' : wf w -> key_ok id -> open_closed id full_ w = (r, w') ->
  kept_world w w' /\ (w_now w' = w_now w /\ w_low w' = w_low w /\ w_calls w' = w_calls w) /\
  match r with
  | Ok _ => is_Some (main (files_at id w')) /\
            w_dbs w' = <[id := set_lock true false (handle_of id w)]> (w_dbs w)
  | Err e => refusal e /\ w_dbs w' = w_dbs w
  end.
Proof.
  intros Hw Hk E. unfold open_closed in E.
  apply SE_bind_inv in E as [(u1 & w1 & E1 & E)|(e & E1 & ->)]; apply with_error_inv in E1 as (r1 & E1 & Hr1);
    unfold on_disk in E1; destruct (create_dir_all (w_disk w)) as [r0 d0] eqn:E0; injection E1 as <- <-;
    assert (d_files d0 = d_files (w_disk w)) as Hd0 by (apply fs_call_inv in E0 as [(? & ? & _ & ?)|[_ ?]]; done);
    assert (kept_world w (set_disk d0 w)) as K1 by (apply disk_kept; [done|]; intros; by rewrite Hd0).
  2:{ destruct r0; simplify_eq/=. split; [done|]. split; [done|]. split; [apply unavailable_refusal|done]. }
  apply SE_bind_inv in E as [(u2 & w2 & E2 & E)|(e & E2 & ->)]; apply with_error_inv in E2 as (r2 & E2 & Hr2);
    (apply restore_kept in E2 as (K2 & (F1 & F2 & F3 & F4) & Hpre); [|apply K1|done]);
    pose proof (kept_world_trans _ _ _ K1 K2) as K.
  2:{ destruct r2; simplify_eq/=. split; [done|]. split; [done|]. split; [apply unavailable_refusal|done]. }
  destruct r2; [|done]. specialize (Hpre eq_refl).
  apply SE_bind_inv in E as [(there & w3 & E3 & E)|(e & E3 & ->)]; [injection E3 as <- <-|done].
  apply SE_bind_inv in E as [(u4 & w4 & E4 & E)|(e & E4 & ->)].
  2:{ destruct full_ as [m|]; [|done]. destruct (path_exists _ _); [done|]. injection E4 as <- <-.
      split; [done|]. split; [done|]. split; [right; by exists m|done]. }
  assert (w4 = w2) as -> by (destruct full_ as [m|]; [destruct (path_exists _ _); [|done]|]; by injection E4).
  assert (Hpre' : is_Some (main (files_at id w2)) \/ backup w2 id = None)
    by (destruct Hpre as [?|Hb]; [by left|right]; by rewrite (kw_backup _ _ K2)).
  apply SE_bind_inv in E as [(u5 & w5 & E5 & E)|(e & E5 & ->)]; apply with_error_inv in E5 as (r5 & E5 & Hr5);
    unfold on_disk in E5; destruct (open_database id (w_disk w2)) as [r6 d6] eqn:E6; injection E5 as <- <-;
    (apply opened_kept in E6 as [K6 Hm]; [|apply K2|done|done]).
  - destruct r6; [|done]. specialize (Hm eq_refl). injection E as <- <-.
    split_and!; try done.
    + eapply kept_world_trans; [exact K|]. eapply kept_world_trans; [exact K6|]. apply handle_kept; [apply K6|].
      intros _. by right.
    + simpl. by rewrite F4; unfold handle_of; simpl; rewrite F1, F4.
  - destruct r6; simplify_eq/=. split; [by eapply kept_world_trans|]. split; [done|]. split; [apply unavailable_refusal|done].
Qed.

(** The database [id] holds [d] now, and nothing else changed. *)
Record changed (w : world) (id : string) (d : option D) (w' : world) : Prop := {
  ch_wf : wf w';
  ch_seen : seen w' id = d;
  ch_other k : key_ok k -> k <> id -> seen w' k = seen w k;
  ch_backup k : backup w' k = backup w k;
  ch_archiving : archiving w' = archiving w }.

Lemma changed_before a b id d c : kept_world a b -> changed b id d c -> changed a id d c.
Proof.
  intros K [H1 H2 H3 H4 H5]. constructor; try done.
  - intros k Hk Hne. rewrite H3 by done. by apply K.
  - intros k. rewrite H4. apply K.
  - rewrite H5. apply K.
Qed.

Lemma changed_after a id d b c : changed a id d b -> kept_world b c -> key_ok id -> changed a id d c.
Proof.
  intros [H1 H2 H3 H4 H5] K Hk. constructor; [apply K|..].
  - by rewrite (kw_seen _ _ K).
  - intros k Hk' Hne. rewrite (kw_seen _ _ K) by done. by apply H3.
  - intros k. rewrite (kw_backup _ _ K). apply H4.
  - rewrite (kw_archiving _ _ K). apply H5.
Qed.

Definition reason_of (w : world) (id : string) : option string :=
  paused (w_low w) (if archiving w then Some pause_after else None) (w_now w) (handle_of id w).

(** The work was done on the contents [d]. *)
Definition worked (w : world) (id : string) (reason : option string) (work : Work) (r : Done) (w' : world) : Prop :=
  exists d full_ n m c, seen w id = Some d /\ work reason full_ (mkConn d n m) = (r, c) /\
    changed w id (Some (k_data c)) w' /\ commits (handle_of id w) = n /\ commits (handle_of id w') = k_commits c.

Lemma run_work_spec w id work full_ r w' : wf w -> key_ok id -> is_Some (main (files_at id w)) ->
  run_work id work full_ w = (r, w') -> exists res, r = Ok res /\ worked w id (reason_of w id) work res w'.
Proof.
  intros Hw Hk Hm. apply contents_Some in Hm as [d Hd]. unfold run_work. rewrite Hd. simpl default.
  fold (reason_of w id).
  destruct (work _ full_ _) as [res c] eqn:Ej. intros [= <- <-]. exists res. split; [done|].
  exists d, full_, (commits (handle_of id w)), (w_calls w), c. unfold seen at 1. rewrite Hd. split_and!; [done..| |done|].
  2:{ unfold handle_of at 1. simpl. by rewrite lookup_insert_eq. }
  pose proof Hw as [Wa Wo Ww]. set (f' := put_files id (write_files (k_data c) (files_at id w)) (d_files (w_disk w))).
  assert (Ho : forall k, dotless k -> k <> id -> files_of f' k = files_at k w)
    by (intros k Hd' Hne; eapply touches_other; [apply touches_put|apply Hk|done..]).
  assert (Hi : contents_of (files_of f' id) = Some (k_data c)).
  { unfold f'. rewrite files_of_put. destruct (write_ok (k_data c) (files_at id w)) as (m & Hm & Hr).
    - apply contents_Some. by rewrite Hd.
    - unfold contents_of. rewrite Hm. cbn [mbind option_bind]. by rewrite Hr. }
  constructor; [constructor|..]; try done; unfold seen, files_at; cbn [w_disk w_dbs d_files]; fold f'.
  - intros k Hc. destruct (decide (k = id)) as [->|Hne].
    + split; [done|]. apply contents_Some. by rewrite Hi.
    + unfold connected_in in Hc. rewrite lookup_insert_ne in Hc by done. destruct (Wo k Hc) as [Hk' Hs]. split; [done|].
      by rewrite Ho; [|apply Hk'|].
  - intros k Hk' Hn. destruct (decide (k = id)) as [->|Hne].
    + apply contents_None in Hn. congruence.
    + rewrite Ho in Hn |- * by (apply Hk' || done). by apply Ww.
  - by rewrite Hi.
  - intros k Hk' Hne. by rewrite Ho by (apply Hk' || done).
Qed.

Lemma namespace_full_kept w id r w' : wf w -> namespace_full id w = (r, w') ->
  kept_world w w' /\ same_frame w w' /\ w_disk w' = w_disk w /\ exists o, r = Ok o.
Proof.
  intros Hw. unfold namespace_full. destruct (parse_object_key id) as [[ns o]|].
  - destruct (full _ _ _ _) as [reason n]. intros [= <- <-]. split; [|split; [done|eauto]].
    constructor; try done. by destruct Hw.
  - intros [= <- <-]. split; [by apply kept_world_refl|]. split; [done|eauto].
Qed.

Lemma worked_before a b id reason work r w : kept_world a b -> key_ok id ->
  commits (handle_of id b) = commits (handle_of id a) ->
  worked b id reason work r w -> worked a id reason work r w.
Proof.
  intros K Hk Hc (d & f & n & m & c & H1 & H2 & H3 & H4 & H5). exists d, f, n, m, c.
  rewrite <- (kw_seen _ _ K) by done. split_and!; try done; [by eapply changed_before|congruence].
Qed.

Lemma run_spec w id work r w' : wf w -> key_ok id -> run id work w = (r, w') ->
  w_now w' = w_now w /\
  match r with
  | Err e => refusal e /\ kept_world w w' /\ handle_of id w' = handle_of id w
  | Ok res => worked w id (reason_of w id) work res w'
  end.
Proof.
  intros Hw Hk E. unfold run in E.
  apply SE_bind_inv in E as [(h & w0 & E0 & E)|(e & E0 & ->)]; [injection E0 as <- <-|done].
  apply SE_bind_inv in E as [(u1 & w1 & E1 & E)|(e & E1 & ->)]; destruct (locked (handle_of id w)) eqn:El; try done;
    injection E1 as <- <-.
  2:{ split; [done|]. split_and!; [left; eauto|by apply kept_world_refl|done]. }
  apply SE_bind_inv in E as [(full_ & w2 & E2 & E)|(e & E2 & ->)];
    (apply namespace_full_kept in E2 as (K2 & (F1 & F2 & F3 & F4) & D2 & [o Ho]); [|done]); [|done].
  assert (Hh : handle_of id w2 = handle_of id w) by (unfold handle_of; by rewrite F1, F4).
  assert (Hrs : forall v, w_low v = w_low w2 -> archiving v = archiving w2 -> w_now v = w_now w2 ->
    unsaved_since (handle_of id v) = unsaved_since (handle_of id w2) -> reason_of v id = reason_of w id).
  { intros v H1 H2 H3 H4. unfold reason_of, paused. by rewrite H1, H2, H3, H4, Hh, F1, F2, (kw_archiving _ _ K2). }
  destruct (connected (handle_of id w)) eqn:Ec.
  - apply SE_bind_inv in E as [(u3 & w3 & E3 & E)|(e & E3 & ->)]; [injection E3 as <- <-|done].
    assert (Hm : is_Some (main (files_at id w2))).
    { apply (wf_open w2 (kw_wf _ _ K2)). unfold connected_in. unfold handle_of in Ec. rewrite F4.
      by destruct (w_dbs w !! id). }
    assert (w_now w' = w_now w2) by (unfold run_work in E; destruct (work _ _ _); by injection E as <- <-).
    apply run_work_spec in E as (res & -> & Hwk); [|apply K2|done|done]. split; [congruence|].
    rewrite Hrs in Hwk by done. eapply worked_before; [exact K2|done| |exact Hwk]. by rewrite Hh.
  - apply SE_bind_inv in E as [(u3 & w3 & E3 & E)|(e & E3 & ->)];
      (apply open_closed_kept in E3 as (K3 & (G1 & G2 & G3) & Hr); [|apply K2|done]).
    2:{ destruct Hr as [Hr Hd]. split; [congruence|]. split_and!; [done|by eapply kept_world_trans|].
        unfold handle_of. by rewrite Hd, G1, F1, F4. }
    destruct Hr as [Hm Hd]. assert (w_now w' = w_now w3) by (unfold run_work in E; destruct (work _ _ _); by injection E as <- <-).
    apply run_work_spec in E as (res & -> & Hwk); [|apply K3|done|done]. split; [congruence|].
    assert (Hh3 : handle_of id w3 = set_lock true false (handle_of id w2)) by (unfold handle_of at 1; by rewrite Hd, lookup_insert_eq).
    rewrite Hrs in Hwk; [|done|apply K3|done|by rewrite Hh3].
    eapply worked_before; [by eapply kept_world_trans|done| |exact Hwk]. by rewrite Hh3, <- Hh.
Qed.

Lemma handle_of_set id h w : handle_of id (set_handle id h w) = h.
Proof. unfold handle_of. cbn [w_dbs set_handle]. by rewrite lookup_insert_eq. Qed.

Lemma enter_queue_handle w key r d : enter_queue cfg (w_now w) key (w_dbs w) = (r, d) ->
  let h := handle_of key (replace_dbs d w) in
  commits h = commits (handle_of key w) /\ unsaved_since h = unsaved_since (handle_of key w).
Proof.
  unfold enter_queue, handle, handle_of. intros E. cbn [w_dbs w_now replace_dbs]. destruct (w_dbs w !! key) as [h|];
    destruct (max_queue cfg <=? _); injection E as <- <-; by rewrite lookup_insert_eq.
Qed.

Lemma leave_queue_fields a t h : connected (leave_queue a t h) = connected h /\ commits (leave_queue a t h) = commits h.
Proof. unfold leave_queue. destruct a; case_match; done. Qed.

Lemma submit_spec w id work r w' : wf w -> key_ok id -> submit id work w = (r, w') ->
  (refusal r /\ kept_world w w') \/ worked w id (reason_of w id) work r w'.
Proof.
  intros Hw Hk. unfold submit. destruct (enter_queue _ _ _ _) as [entered d] eqn:Eq.
  pose proof (replace_dbs_kept d w Hw (enter_queue_connected _ _ _ _ _ Eq)) as K.
  pose proof (enter_queue_handle _ _ _ _ Eq) as [Hc Hu]. set (w1 := replace_dbs d w) in *.
  destruct entered as [u|e].
  2:{ intros [= <- <-]. left. split; [|done]. unfold enter_queue in Eq. destruct (handle _ _ _) as [h dbs].
      destruct (max_queue cfg <=? _); simplify_eq. left. eauto. }
  destruct (run id work w1) as [r2 w2] eqn:E. intros [= <- <-]. apply run_spec in E as [Hn Hr]; [|apply K|done].
  set (h2 := leave_queue (archiving w2) (w_now w2) (handle_of id w2)).
  destruct (leave_queue_fields (archiving w2) (w_now w2) (handle_of id w2)) as [L1 L2]. fold h2 in L1, L2.
  assert (Hkw : wf w2 -> kept_world w2 (set_handle id h2 w2)).
  { intros Hw2. apply handle_kept; [done|]. rewrite L1. unfold handle_of, connected_in.
    destruct (w_dbs w2 !! id); [by left|done]. }
  destruct r2 as [res|e].
  - right. simpl. assert (reason_of w1 id = reason_of w id) as Hrs
      by (unfold reason_of, paused; by rewrite Hu, (kw_archiving _ _ K)).
    rewrite Hrs in Hr. apply (worked_before w w1) in Hr; [|done..].
    destruct Hr as (d0 & f & n & m & c & H1 & H2 & H3 & H4 & H5). exists d0, f, n, m, c. split_and!; try done.
    + eapply changed_after; [exact H3|apply Hkw, H3|done].
    + by rewrite handle_of_set, L2.
  - left. destruct Hr as (Hr & K2 & Hh). split; [done|]. eapply kept_world_trans; [exact K|].
    eapply kept_world_trans; [exact K2|]. apply Hkw, K2.
Qed.

(** ** Snapshots, timers and resets *)

(** The clock is ahead of the snapshots of the database. *)
Definition clock_ahead (w : world) (id : string) : Prop :=
  forall a x, w_archive w = Some a -> x ∈ rows a.2 -> database_id x = id -> seq x < w_now w.

Lemma save_kept w a id bytes r a' : wf w -> key_ok id -> (0 < keep)%nat -> w_archive w = Some a ->
  is_Some (main (files_at id w)) -> str_len bytes < 2 ^ 64 -> clock_ahead w id ->
  save sha keep (w_now w) id bytes a = (r, a') ->
  let w' := set_archive (Some a') w in
  wf w' /\ (forall k, key_ok k -> seen w' k = seen w k) /\ (forall k, k <> id -> backup w' k = backup w k) /\
  match r with
  | Ok _ => backup w' id = Some bytes
  | Err _ => backup w' id = backup w id \/ backup w' id = Some bytes
  end.
Proof.
  intros Hw Hk Hkeep Ha Hm Hlen Hclock E w'.
  destruct (save_spec sha keep a id bytes (w_now w) r a' (wf_archive w Hw a Ha) (proj2 Hk) Hkeep Hlen) as (Hok & Ho & Hr);
    [intros x; by apply Hclock|done|].
  assert (Hb : forall k, backup w' k = current a' k) by done.
  assert (Hb0 : forall k, backup w k = current a k) by (intros k; unfold backup; by rewrite Ha).
  assert (Hbo : forall k, k <> id -> backup w' k = backup w k) by (intros k Hne; rewrite Hb, Hb0; by apply Ho).
  pose proof Hw as [Wa Wo Ww]. split_and!; [constructor; try done|..|done|].
  - intros a2 [= <-]. done.
  - intros k Hk'. unfold seen. change (files_at k w') with (files_at k w).
    destruct (contents_of (files_at k w)) eqn:Ec; [done|]. unfold saved_copy. rewrite Hbo; [done|].
    intros ->. apply contents_Some in Hm. rewrite Ec in Hm. by destruct Hm.
  - rewrite Hb, Hb0. by destruct r.
Qed.

Lemma mark_saved_kept w id c t r w' : wf w -> mark_saved id c t w = (r, w') ->
  kept_world w w' /\ r = Ok tt /\ w_now w' = w_now w /\ w_archive w' = w_archive w /\
  (forall k, k <> id -> handle_of k w' = handle_of k w) /\ commits (handle_of id w') = commits (handle_of id w) /\
  saved (handle_of id w') = c.
Proof.
  intros Hw [= <- <-]. split.
  - apply handle_kept; [done|]. unfold handle_of, connected_in. simpl. destruct (w_dbs w !! id); [by left|done].
  - rewrite handle_of_set. split_and!; try done. intros k Hne. unfold handle_of. simpl. by rewrite lookup_insert_ne.
Qed.

(** A snapshot changes no database. When it succeeds, the copy of its database
    holds what the database holds. *)
Lemma snapshot_spec w id r w' : wf w -> key_ok id -> (0 < keep)%nat -> clock_ahead w id ->
  snapshot id w = (r, w') ->
  wf w' /\ (forall k, key_ok k -> seen w' k = seen w k) /\ (forall k, k <> id -> backup w' k = backup w k) /\
  archiving w' = archiving w /\ w_now w' = w_now w /\
  (forall k, k <> id -> handle_of k w' = handle_of k w) /\
  match r with
  | Ok _ => saved_copy w' id = seen w id /\ unsaved (handle_of id w') = false
  | Err _ => handle_of id w' = handle_of id w
  end.
Proof.
  intros Hw Hk Hkeep Hclock E. unfold snapshot in E.
  apply SE_bind_inv in E as [(bytes & w1 & E1 & E)|(e & E1 & ->)]; unfold on_disk in E1;
    destruct (take_snapshot _ _ (w_disk w)) as [r1 d1] eqn:Et; injection E1 as -> <-;
    apply take_snapshot_spec in Et as [Ht Hz]; try apply Hk;
    (assert (K1 : kept_world w (set_disk d1 w)) by (apply (scratch_kept _ _ id "snapshot.scratch"); [done..|set_solver|done])).
  2:{ split_and!; try done; apply K1. }
  destruct (Hz bytes eq_refl) as (Hlen & c & Hc & Hun). set (w1 := set_disk d1 w) in *.
  assert (Hseen : seen w id = Some c) by (unfold seen, files_at; by rewrite Hc).
  assert (Hm : is_Some (main (files_at id w1))).
  { change (files_at id w1) with (files_of (d_files d1) id). apply contents_Some.
    rewrite (touches_disjoint _ _ _ _ id Ht); [by rewrite Hc|apply Hk..|]. repeat constructor; set_solver. }
  apply SE_bind_inv in E as [(u & w2 & E2 & E)|(e & E2 & ->)]; unfold on_archive in E2; cbn [w_archive w1 set_disk] in E2;
    destruct (w_archive w) as [a|] eqn:Ea; try done; try (injection E2 as <- <-; split_and!; try done; apply K1);
    destruct (save sha keep (w_now w) id bytes a) as [r2 a2] eqn:Es; injection E2 as -> <-;
    (destruct (save_kept w1 a id bytes _ a2 (kw_wf _ _ K1) Hk Hkeep Ea Hm Hlen Hclock Es) as (Hw2 & Hs2 & Ho2 & Hb2)).
  - apply mark_saved_kept in E as (K3 & -> & Hn & _ & Hh & Hcm & Hsv); [|done].
    split_and!; [apply K3|..].
    + intros k Hk'. rewrite (kw_seen _ _ K3), Hs2 by done. by apply K1.
    + intros k Hne. rewrite (kw_backup _ _ K3). by apply Ho2.
    + rewrite (kw_archiving _ _ K3). unfold archiving. simpl. by rewrite Ea.
    + done.
    + intros k Hne. by rewrite Hh.
    + unfold saved_copy. rewrite (kw_backup _ _ K3), Hb2. congruence.
    + unfold unsaved. rewrite Hcm, Hsv. apply negb_false_iff, Z.eqb_refl.
  - split_and!; try done.
    + intros k Hk'. rewrite Hs2 by done. by apply K1.
    + unfold archiving. simpl. by rewrite Ea.
Qed.

Lemma snapshot_clock w id r w' k : wf w -> key_ok id -> (0 < keep)%nat -> clock_ahead w id -> clock_ahead w k ->
  k <> id -> snapshot id w = (r, w') -> clock_ahead w' k.
Proof.
  intros Hw Hk Hkeep Hc Hck Hne E. unfold snapshot in E.
  apply SE_bind_inv in E as [(bytes & w1 & E1 & E)|(e & E1 & ->)]; unfold on_disk in E1;
    destruct (take_snapshot _ _ (w_disk w)) as [r1 d1] eqn:Et; injection E1 as -> <-; [|done].
  apply take_snapshot_spec in Et as [_ Hz]; [|apply Hk]. destruct (Hz bytes eq_refl) as [Hlen _].
  assert (Hsave : forall a r2 a2, w_archive w = Some a -> save sha keep (w_now w) id bytes a = (r2, a2) ->
    forall x, x ∈ rows a2.2 -> database_id x = k -> seq x < w_now w).
  { intros a r2 a2 Ha Es x Hx Hd.
    destruct (save_full_spec sha keep a id bytes (w_now w) r2 a2 (wf_archive w Hw a Ha) (proj2 Hk) Hkeep Hlen) as (_ & Hr & _);
      [intros y; by apply Hc|done|]. destruct (Hr x Hx) as [Hin|?]; [by apply (Hck a)|congruence]. }
  apply SE_bind_inv in E as [(u & w2 & E2 & E)|(e & E2 & ->)]; unfold on_archive in E2; cbn [w_archive set_disk] in E2;
    destruct (w_archive w) as [a|] eqn:Ea; try done; try (injection E2 as <- <-; by intros a x; simpl; rewrite Ea);
    destruct (save sha keep (w_now w) id bytes a) as [r2 a2] eqn:Es; injection E2 as -> <-.
  - injection E as <- <-. intros a3 x [= <-] Hx. by eapply Hsave.
  - intros a3 x [= <-] Hx. by eapply Hsave.
Qed.

Lemma snapshots_spec ids w : wf w -> (0 < keep)%nat -> NoDup ids -> Forall (fun id => key_ok id /\ clock_ahead w id) ids ->
  let w' := foldl (fun w id => (snapshot id w).2) w ids in
  wf w' /\ (forall k, key_ok k -> seen w' k = seen w k) /\ archiving w' = archiving w /\
  (forall k, k ∉ ids -> backup w' k = backup w k /\ handle_of k w' = handle_of k w) /\
  forall id, id ∈ ids -> handle_of id w' = handle_of id w \/
    saved_copy w' id = seen w id /\ unsaved (handle_of id w') = false.
Proof.
  revert w. induction ids as [|id ids IH]; intros w Hw Hkeep Hn Hall; simpl.
  { split_and!; try done. by intros id ?%elem_of_nil. }
  apply NoDup_cons in Hn as [Hni Hn]. apply Forall_cons in Hall as [[Hk Hc] Hall].
  destruct (snapshot id w) as [r w1] eqn:E. simpl.
  destruct (snapshot_spec _ _ _ _ Hw Hk Hkeep Hc E) as (Hw1 & Hs1 & Hb1 & Ha1 & Ht1 & Hh1 & Hr).
  destruct (IH w1 Hw1 Hkeep Hn) as (Hw' & Hs & Ha & Ho & Hi).
  { rewrite Forall_forall in *. intros k Hin. destruct (Hall k Hin) as [Hk' Hc']. split; [done|].
    eapply snapshot_clock; [exact Hw|exact Hk|done|done|done| |exact E]. by intros ->. }
  split_and!; [done|intros k Hk'; by rewrite Hs, Hs1 by done|congruence|..].
  - intros k [Hne Hnik]%not_elem_of_cons. destruct (Ho k Hnik) as [-> ->]. split; [by apply Hb1|by apply Hh1].
  - intros k [->|Hin]%elem_of_cons.
    + destruct (Ho id Hni) as [Hbk Hhk]. rewrite Hhk. unfold saved_copy. rewrite Hbk.
      destruct r; [right|left]; done.
    + assert (k <> id) by (by intros ->). rewrite <- (Hh1 k) by done. rewrite <- Hs1; [by apply Hi|].
      rewrite Forall_forall in Hall. by apply Hall.
Qed.

(** ** Reset *)

Definition aside (stamp x : string) : string := x +:+ ".replaced-" +:+ stamp.

Lemma aside_not_file stamp x y : x ∈ FILES -> y ∈ FILES -> aside stamp x <> y.
Proof.
  intros Hx Hy E. apply (f_equal (contains_char ".")) in E. unfold aside in E.
  rewrite contains_char_app in E. change (contains_char "." (".replaced-" +:+ stamp)) with true in E.
  rewrite orb_true_r in E. unfold FILES in Hy. rewrite !elem_of_cons, elem_of_nil in Hy.
  destruct Hy as [->|[->|[->|[]]]]; done.
Qed.

Lemma move_one_spec stamp id x d r d' : x ∈ FILES ->
  (if path_exists (file_of id x) d
   then with_error (fs_text "move aside: ") (rename (file_of id x) (file_of id (aside stamp x))) else mret tt) d = (r, d') ->
  touches id [x; aside stamp x] (d_files d) (d_files d') /\ (r = Ok tt -> d_files d' !! file_of id x = None).
Proof.
  intros Hx. unfold path_exists. case_bool_decide as Hex.
  - intros (r2 & E2 & ->)%with_error_inv. apply fs_call_inv in E2 as [(e & n & -> & ->)|H2]; [split; [apply touches_refl|done]|].
    destruct Hex as [b Hb]. rewrite Hb in H2. destruct H2 as [-> ->]. split.
    + eapply touches_trans; [apply (touches_weaken _ [x]); [apply touches_delete|set_solver]|].
      apply (touches_weaken _ [aside stamp x]); [apply touches_insert|set_solver].
    + intros _. rewrite lookup_insert_ne, lookup_delete_eq; [done|]. apply file_of_ne. by apply aside_not_file.
  - intros [= <- <-]. split; [apply touches_refl|]. intros _. by apply eq_None_not_Some.
Qed.

Lemma move_aside_spec stamp id l d r d' : l ⊆ FILES -> move_aside stamp id l d = (r, d') ->
  touches id (l ++ (aside stamp <$> l)) (d_files d) (d_files d') /\
  (r = Ok tt -> forall x, x ∈ l -> d_files d' !! file_of id x = None).
Proof.
  revert d. induction l as [|x l IH]; intros d Hl E.
  { injection E as <- <-. split; [apply touches_refl|]. by intros _ x ?%elem_of_nil. }
  assert (x ∈ FILES /\ l ⊆ FILES) as [Hin Hl'] by (clear E; set_solver).
  apply SE_bind_inv in E as [(there & d0 & E0 & E)|(e & E0 & ->)]; [injection E0 as <- <-|done].
  assert (Hw1 : [x; aside stamp x] ⊆ (x :: l) ++ (aside stamp <$> x :: l)) by (clear; simpl; set_solver).
  assert (Hw2 : l ++ (aside stamp <$> l) ⊆ (x :: l) ++ (aside stamp <$> x :: l)) by (clear; simpl; set_solver).
  apply SE_bind_inv in E as [([] & d1 & E1 & E)|(e & E1 & ->)]; (apply move_one_spec in E1 as [Ht1 Hn1]; [|done]).
  - apply IH in E as [Ht2 Hn2]; [|done]. split.
    + eapply touches_trans; eapply touches_weaken; [exact Ht1|exact Hw1|exact Ht2|exact Hw2].
    + intros Hr y [->|Hy]%elem_of_cons; [|by apply Hn2]. destruct (decide (x ∈ l)) as [Hxl|Hxl]; [by apply Hn2|].
      rewrite Ht2; [by apply Hn1|]. intros z Hz. apply file_of_ne. rewrite elem_of_app, list_elem_of_fmap in Hz.
      destruct Hz as [Hz|(z' & -> & Hz)]; [by intros ->|]. apply not_eq_sym, aside_not_file; [by apply Hl'|done].
  - split; [|done]. by eapply touches_weaken.
Qed.

(** The files of [key] are gone from a kept world, and no connection has them. *)
Lemma gone_changed w w1 key xs d : kept_world w w1 -> key_ok key -> touches key xs (d_files (w_disk w1)) (d_files d) ->
  w_dbs w1 !! key = None ->
  (forall k, key_ok k -> k <> key -> seen (set_disk d w1) k = seen w k) /\
  (files_of (d_files d) key = mkDbFiles None None None -> changed w key (saved_copy w key) (set_disk d w1)).
Proof.
  intros K Hk Ht Hdb. pose proof (kw_wf _ _ K) as [Wa Wo Ww].
  assert (Ho : forall k, dotless k -> k <> key -> files_at k (set_disk d w1) = files_at k w1)
    by (intros k Hd' Hne; eapply touches_other; [exact Ht|apply Hk|done..]).
  assert (Hs : forall k, key_ok k -> k <> key -> seen (set_disk d w1) k = seen w k).
  { intros k Hk' Hne. rewrite <- (kw_seen _ _ K) by done. unfold seen. by rewrite Ho by (apply Hk' || done). }
  split; [done|]. intros Hg. change (files_of (d_files d) key) with (files_at key (set_disk d w1)) in Hg.
  constructor; [constructor|..]; try done; try apply K.
  - intros k Hc. destruct (decide (k = key)) as [->|Hne].
    + unfold connected_in in Hc. simpl in Hc. by rewrite Hdb in Hc.
    + destruct (Wo k Hc) as [Hk' Hm]. split; [done|]. by rewrite Ho; [|apply Hk'|].
  - intros k Hk'. destruct (decide (k = key)) as [->|Hne]; [by rewrite Hg|]. rewrite Ho by (apply Hk' || done). by apply Ww.
  - unfold seen. rewrite Hg. cbn [contents_of main mbind option_bind]. unfold saved_copy.
    by rewrite <- (kw_backup _ _ K).
Qed.

Lemma delete_connected (d : Databases) key id : connected_in (delete key d) id = true -> connected_in d id = true.
Proof.
  unfold connected_in. destruct (decide (id = key)) as [->|Hne]; [by rewrite lookup_delete_eq|by rewrite lookup_delete_ne].
Qed.

Lemma reset_spec w stamp id u r w' : wf w -> uuid_parse id = Some u -> key_ok (uuid_string u) ->
  reset_to_snapshot stamp id w = (r, w') ->
  (forall k, key_ok k -> k <> uuid_string u -> seen w' k = seen w k) /\ (forall k, backup w' k = backup w k) /\
  (r = Ok tt -> changed w (uuid_string u) (saved_copy w (uuid_string u)) w').
Proof.
  intros Hw Hu Hk. unfold reset_to_snapshot, reset_take, D1Service.reset_to_snapshot, reset_move. rewrite Hu.
  destruct (negb (archiving w)); [by intros [= <- <-]|]. destruct (in_use _ _); [by intros [= <- <-]|].
  set (key := uuid_string u) in *. set (d := delete key (w_dbs w)). unfold on_disk.
  assert (K : kept_world w (replace_dbs d w)) by (apply replace_dbs_kept; [done|]; apply delete_connected).
  destruct (move_aside _ _ _ _) as [r1 d1] eqn:E1. intros [= <- <-]. apply move_aside_spec in E1 as [Ht Hn]; [|done].
  destruct (gone_changed w _ key _ d1 K Hk Ht) as [Hs Hc]; [apply lookup_delete_eq|]. split_and!; [done|apply K|].
  intros Hr. apply Hc. unfold files_of. by rewrite !Hn by (done || set_solver).
Qed.

Lemma remove_all_spec id l d b d' : remove_all id l d = (b, d') ->
  touches id l (d_files d) (d_files d') /\ (b = true -> forall x, x ∈ l -> d_files d' !! file_of id x = None).
Proof.
  clear sha. revert d. induction l as [|x l IH]; intros d E.
  { injection E as <- <-. split; [apply touches_refl|]. by intros _ x ?%elem_of_nil. }
  simpl in E. destruct (remove_file _ d) as [r1 d1] eqn:E1. pose proof E1 as Ht1%remove_file_touches.
  assert (Hgo : remove_all id l d1 = (b, d') -> d_files d1 !! file_of id x = None ->
    touches id (x :: l) (d_files d) (d_files d') /\ (b = true -> forall y, y ∈ x :: l -> d_files d' !! file_of id y = None)).
  { intros [Ht2 Hn2]%IH Hx. split.
    - eapply touches_trans; eapply touches_weaken; [exact Ht1|set_solver|exact Ht2|set_solver].
    - intros Hb y [->|Hy]%elem_of_cons; [|by apply Hn2]. destruct (decide (x ∈ l)); [by apply Hn2|].
      rewrite Ht2; [done|]. intros z Hz. apply file_of_ne. by intros ->. }
  apply fs_call_inv in E1 as [(e & n & -> & Hd)|H1].
  - injection E as <- <-. split; [|done]. eapply touches_weaken; [exact Ht1|set_solver].
  - destruct (d_files d !! file_of id x) as [y|] eqn:Ex; destruct H1 as [-> Hd]; apply Hgo; try done; rewrite Hd;
      [apply lookup_delete_eq|done].
Qed.

(** When [remove_files] answers [true], the files are gone and the database is
    not open. *)
Lemma remove_spec w id u b w' : wf w -> uuid_parse id = Some u -> key_ok (uuid_string u) ->
  remove_database_files id w = (b, w') ->
  (forall k, key_ok k -> k <> uuid_string u -> seen w' k = seen w k) /\ (forall k, backup w' k = backup w k) /\
  (b = true -> changed w (uuid_string u) (saved_copy w (uuid_string u)) w' /\
     files_at (uuid_string u) w' = mkDbFiles None None None /\ w_dbs w' !! uuid_string u = None).
Proof.
  intros Hw Hu Hk. unfold remove_database_files, remove_files. rewrite Hu.
  destruct (in_use _ _); [by intros [= <- <-]|]. set (key := uuid_string u) in *. set (d := delete key (w_dbs w)).
  assert (K : kept_world w (replace_dbs d w)) by (apply replace_dbs_kept; [done|]; apply delete_connected).
  destruct (remove_all _ _ _) as [r1 d1] eqn:E1. intros [= <- <-]. apply remove_all_spec in E1 as [Ht Hn].
  destruct (gone_changed w _ key _ d1 K Hk Ht) as [Hs Hc]; [apply lookup_delete_eq|]. split_and!; [done|apply K|].
  intros Hr. assert (Hg : files_of (d_files d1) key = mkDbFiles None None None)
    by (unfold files_of; by rewrite !Hn by (done || set_solver)).
  split_and!; [by apply Hc|done|apply lookup_delete_eq].
Qed.

(** ** Properties *)

(** C11. A call on a database is one on a map of databases. It is refused, with
    an error that says so, and then no database has changed; or its work ran
    on what the database holds: the contents of the file, or of the latest
    snapshot when the file is missing. Then the database holds what the work
    left, and no other database and no snapshot has changed. This is so
    whatever fails, and whichever databases the call closes to make room. *)
Theorem call_refines_map w id work r w' :
  wf w -> key_ok id -> submit id work w = (r, w') ->
  wf w' /\ (forall k, backup w' k = backup w k) /\
  ((refusal r /\ forall k, key_ok k -> seen w' k = seen w k) \/
   exists d full_ n m c, seen w id = Some d /\ work (reason_of w id) full_ (mkConn d n m) = (r, c) /\
     seen w' id = Some (k_data c) /\ forall k, key_ok k -> k <> id -> seen w' k = seen w k).
Proof.
  intros Hw Hk E. destruct (submit_spec _ _ _ _ _ Hw Hk E) as [[Hr [K1 K2 K3 _]]|(d & f & n & m & c & H1 & H2 & [C1 C2 C3 C4 _] & _)].
  - split_and!; [done..|]. by left.
  - split_and!; [done..|]. right. exists d, f, n, m, c. done.
Qed.

(** Other calls and the idle timer, between two events. *)
Inductive served (w : world) : world -> Prop :=
| served_call id work : key_ok id -> served w (submit id work w).2
| served_idle : served w (close_idle_databases w)
| served_wait t : w_now w <= t -> served w (mkWorld t (w_calls w) (w_low w) (w_dbs w) (w_ns w) (w_disk w) (w_archive w)).

Lemma close_idle_kept w : wf w -> kept_world w (close_idle_databases w).
Proof.
  intros Hw. apply replace_dbs_kept; [done|]. intros id. unfold connected_in. apply lighter_connected, close_idle_lighter.
Qed.

Lemma served_backup w w' : wf w -> served w w' -> wf w' /\ forall k, backup w' k = backup w k.
Proof.
  intros Hw [id work Hk| |t _].
  - destruct (submit id work w) as [r w1] eqn:E.
    destruct (submit_spec _ _ _ _ _ Hw Hk E) as [[_ K]|(d & f & n & m & c & _ & _ & C & _)]; [by destruct K|by destruct C].
  - by destruct (close_idle_kept w Hw).
  - split; [|done]. by destruct Hw.
Qed.

Lemma served_rtc_backup w w' : wf w -> rtc served w w' -> wf w' /\ forall k, backup w' k = backup w k.
Proof.
  intros Hw Hr. induction Hr as [w|w w1 w2 H1 _ IH]; [done|]. destruct (served_backup _ _ Hw H1) as [Hw1 Hb1].
  destruct (IH Hw1) as [Hw2 Hb2]. split; [done|]. intros k. by rewrite Hb2.
Qed.

(** C24. A reset gives back what the latest snapshot holds, when snapshots are
    ordered: the clock is ahead of the snapshots of the database when one is
    taken, at least one is kept, and the service is well formed ([wf], which
    every operation keeps). Then, after a snapshot of a database succeeds, any
    number of calls change it and others, and a reset succeeds, the next call
    on the database is refused, or its work runs on the contents at the time of
    the snapshot. *)
Theorem reset_restores_snapshot w id u stamp work w1 w2 w3 r w4 :
  wf w -> uuid_parse id = Some u -> named (uuid_string u) -> (0 < keep)%nat -> clock_ahead w (uuid_string u) ->
  snapshot (uuid_string u) w = (Ok tt, w1) -> rtc served w1 w2 ->
  reset_to_snapshot stamp id w2 = (Ok tt, w3) -> submit_database id work w3 = (r, w4) ->
  refusal r \/
  exists d reason full_ n m c, seen w (uuid_string u) = Some d /\ work reason full_ (mkConn d n m) = (r, c) /\
    seen w4 (uuid_string u) = Some (k_data c).
Proof.
  intros Hw Hu Hna Hkeep Hclock Hs Hser Hres Hsub.
  assert (Hk : key_ok (uuid_string u)) by (split; [by apply uuid_no_char|done]).
  destruct (snapshot_spec _ _ _ _ Hw Hk Hkeep Hclock Hs) as (Hw1 & _ & _ & _ & _ & _ & Hcopy & _).
  destruct (served_rtc_backup _ _ Hw1 Hser) as [Hw2 Hb2].
  destruct (reset_spec _ _ _ _ _ _ Hw2 Hu Hk Hres) as (_ & _ & Hc). destruct (Hc eq_refl) as [Hw3 Hs3 _ _ _].
  unfold submit_database, database_file in Hsub. rewrite Hu in Hsub.
  destruct (submit_spec _ _ _ _ _ Hw3 Hk Hsub) as [[Hr _]|(d & f & n & m & c & H1 & H2 & [_ C2 _ _ _] & _)]; [by left|].
  right. exists d, (reason_of w3 (uuid_string u)), f, n, m, c. split_and!; [|done..].
  rewrite <- Hcopy, <- H1, Hs3. unfold saved_copy. by rewrite Hb2.
Qed.

(** A snapshot pass changes no database, and after it every database that
    was unsaved is unsaved still, or has a copy of all it holds. *)
Theorem snapshot_pass_copies w :
  wf w -> (0 < keep)%nat ->
  Forall (fun id => key_ok id /\ clock_ahead w id) (unsaved_ids (w_dbs w)) ->
  wf (snapshot_all w) /\ (forall k, key_ok k -> seen (snapshot_all w) k = seen w k) /\
  forall id, id ∈ unsaved_ids (w_dbs w) ->
    unsaved (handle_of id (snapshot_all w)) = true \/ saved_copy (snapshot_all w) id = seen w id.
Proof.
  intros Hw Hkeep Hall. assert (Hun : forall id, id ∈ unsaved_ids (w_dbs w) -> unsaved (handle_of id w) = true).
  { intros id (h & Hh & Hu)%unsaved_ids_spec. unfold handle_of. by rewrite Hh. }
  unfold snapshot_all. destruct (archiving w) eqn:Ea; [|split_and!; auto].
  destruct (snapshots_spec _ w Hw Hkeep (unsaved_ids_NoDup _) Hall) as (Hw' & Hs & _ & _ & Hi).
  split_and!; [done..|]. intros id Hid. destruct (Hi id Hid) as [Hh|[Hc _]]; [left|by right].
  rewrite Hh. by apply Hun.
Qed.

(** ** The work of D1 *)

Section d1.
Context {S : Type} {engine : Sqlite D S} (lossy : string -> string).

Definition d1_work (job : D1Sql.Job) : Work := fun reason _ c =>
  let db := mkDatabase (k_data c) None (k_commits c) (k_calls c) true (cfg_result_bytes cfg) None in
  let '(r, db) := D1Sql.run lossy job reason db in
  (DD1 r, mkConn (committed db) (D1Sql.commits db) (D1Sql.calls db)).

Definition execute (database_id : string) (op : D1Op) (w : world) : D1Result * world :=
  let '(r, w) := submit_database database_id (d1_work (JOp op)) w in (d1_result r, w).

Definition migrate (database_id : string) (m : Migration) (w : world) : D1Result * world :=
  let '(r, w) := submit_database database_id (d1_work (JMigrate m)) w in (d1_result r, w).

Lemma d1_work_keeps job reason full_ d n m r c : d1_work job reason full_ (mkConn d n m) = (r, c) ->
  n <= k_commits c /\ (k_commits c = n -> k_data c = d) /\ (reason <> None -> k_data c = d).
Proof.
  unfold d1_work. cbn [k_data k_commits k_calls]. destruct (D1Sql.run lossy job reason _) as [r1 b] eqn:E. intros [= <- <-].
  eapply jobs_end_clean in E as (_ & H1 & H2 & H3); [done|]. by split.
Qed.

(** While the volume is almost full, or a database has waited too long for
    a snapshot, no query, batch, script or migration changes what any database
    holds. *)
Theorem paused_database_kept w id job r w' k :
  wf w -> (forall u : U, named (uuid_string u)) ->
  (w_low w = true \/ exists u, uuid_parse id = Some u /\ reason_of w (uuid_string u) <> None) ->
  submit_database id (d1_work job) w = (r, w') -> key_ok k -> seen w' k = seen w k.
Proof.
  intros Hw Hna Hp. unfold submit_database, database_file. destruct (uuid_parse id) as [u|] eqn:Hu; [|by intros [= <- <-]].
  intros E Hk. assert (Hku : key_ok (uuid_string u)) by (split; [by apply uuid_no_char|done]).
  assert (Hr : reason_of w (uuid_string u) <> None).
  { destruct Hp as [Hlow|(u' & [= <-] & ?)]; [|done]. unfold reason_of, paused. by rewrite Hlow. }
  destruct (submit_spec _ _ _ _ _ Hw Hku E) as [[_ K]|(d & f & n & m & c & H1 & H2 & C & _)]; [by apply K|].
  destruct (decide (k = uuid_string u)) as [->|Hne]; [|by apply C].
  rewrite (ch_seen _ _ _ _ C), H1. f_equal. by apply (d1_work_keeps _ _ _ _ _ _ _ _ H2).
Qed.

End d1.
End calls.

(** ** Small instances

    A file holds the code of its contents. What a job writes goes to the log,
    which wins over the file until the connection closes. *)

Fixpoint bits (p : positive) : string :=
  match p with xH => "" | xO p => String "0" (bits p) | xI p => String "1" (bits p) end.
Fixpoint unbits (s : string) : positive :=
  match s with
  | EmptyString => xH
  | String c s => if Ascii.eqb c "1" then xI (unbits s) else xO (unbits s)
  end.

Lemma unbits_bits p : unbits (bits p) = p.
Proof. by induction p as [p IH|p IH|]; simpl; rewrite ?IH. Qed.

Section coded.
Context {D : Type} `{Countable D} (d0 : D).

Definition coded (s : string) : D := default d0 (decode (unbits s)).
Definition code (d : D) : string := bits (encode d).

Lemma coded_code d : coded (code d) = d.
Proof. unfold coded, code. by rewrite unbits_bits, decode_encode. Qed.

Definition coded_open (f : DbFiles) : DbFiles :=
  match main f with
  | Some m => mkDbFiles (Some m) (wal f) (Some "")
  | None => mkDbFiles (Some (code d0)) None (Some "")
  end.

Definition coded_close (f : DbFiles) : DbFiles :=
  match wal f with Some w => mkDbFiles (Some w) None None | None => mkDbFiles (main f) None None end.

#[refine] Instance coded_files : SqliteFiles D := {
  empty_db := d0;
  read_files m w := coded (default m w);
  open_files f := Ok (coded_open f);
  write_files d f := mkDbFiles (main f) (Some (code d)) (shm f);
  close_files := coded_close;
  image := code;
  integrity s := Ok tt;
  used_bytes d := str_len (code d);
}.
Proof.
  - intros [[m|] w s] f' [= <-]; unfold coded_open; simpl; [by exists m|]. exists (code d0). by rewrite coded_code.
  - intros d f [m Hm]. simpl. exists m. by rewrite coded_code.
  - intros [m' [w|] s] m Hm; unfold coded_close; simpl in *; simplify_eq; eauto.
  - intros d. simpl. apply coded_code.
Defined.

End coded.

#[export, refine] Instance no_zstd : Zstd := {
  zip x := if str_len x <? 2 ^ 64 then Ok x else Err "too large";
  unzip x := Ok x;
}.
Proof.
  - intros x z. by destruct (str_len x <? 2 ^ 64); intros [= <-].
  - intros x z. destruct (Z.ltb_spec (str_len x) (2 ^ 64)); [|done]. by intros [= <-].
Defined.

#[local] Instance tiny_files : SqliteFiles tiny_data := coded_files (∅, None).

Definition ex_world : world (St := mem_store) (Ix := PgIndex text_uuid) :=
  mkWorld 100 0 false ∅ ∅ (mkDisk ∅ []) (Some ex_state).

Definition ex_put (k v : string) : Work (D := tiny_data) := d1_work ex_cfg id (JOp (Exec ("put " +:+ k +:+ " " +:+ v))).

(** Writes, takes a snapshot, writes again, resets, and reads. *)
Definition ex_submit (work : Work (D := tiny_data)) (w : world (St := mem_store) (Ix := PgIndex text_uuid)) :
  Done * world := submit ex_sha ex_cfg 1000 ex_ns work w.
Definition ex_written : world := (ex_submit (ex_put "a" "1") ex_world).2.
Definition ex_saved : world := (snapshot (D := tiny_data) ex_sha 3 ex_ns ex_written).2.
Definition ex_again : world := (ex_submit (ex_put "a" "2") ex_saved).2.
Definition ex_reset : world := (reset_to_snapshot (D := tiny_data) "now" ex_ns ex_again).2.
Definition ex_key : string := uuid_string ex_uuid.

Example ex_runs :
  (fst <$> seen (D := tiny_data) ex_written ex_ns) = Some {["a" := "1"]} /\
  (fst <$> seen (D := tiny_data) ex_again ex_ns) = Some {["a" := "2"]} /\
  (fst <$> seen (D := tiny_data) ex_reset ex_ns) = Some {["a" := "1"]} /\
  (fst <$> seen (D := tiny_data) (ex_submit (ex_put "b" "3") ex_reset).2 ex_ns) = Some {["a" := "1"; "b" := "3"]}.
Proof. vm_compute. repeat split. Qed.

Lemma ex_key_ok : key_ok (Ix := PgIndex text_uuid) ex_ns.
Proof. split; [done|apply ex_named]. Qed.

Lemma ex_wf : wf ex_sha ex_world.
Proof.
  constructor.
  - intros a [= <-]. split; [constructor|constructor].
  - intros id. unfold connected_in. simpl. by rewrite lookup_empty.
  - done.
Qed.

Lemma call_refines_map_witness : exists r, ex_submit (ex_put "a" "1") ex_world = (r, ex_written) /\ wf ex_sha ex_written.
Proof.
  exists (ex_submit (ex_put "a" "1") ex_world).1. assert (E := surjective_pairing (ex_submit (ex_put "a" "1") ex_world)).
  split; [exact E|]. exact (proj1 (call_refines_map _ _ _ _ _ _ _ _ ex_wf ex_key_ok E)).
Defined.

Lemma ex_written_wf : wf ex_sha ex_written.
Proof.
  assert (E := surjective_pairing (ex_submit (ex_put "a" "1") ex_world)).
  destruct (submit_spec _ _ _ _ _ _ _ _ ex_wf ex_key_ok E) as [[_ K]|(? & ? & ? & ? & ? & _ & _ & C & _)]; [apply K|apply C].
Qed.

Lemma ex_clock : clock_ahead ex_written ex_ns.
Proof.
  intros a x Ha Hx. assert (Hr : (rows ∘ snd) <$> w_archive ex_written = Some []) by (vm_compute; reflexivity).
  rewrite Ha in Hr. injection Hr as Hr. change (rows a.2 = []) in Hr. rewrite Hr in Hx. by apply elem_of_nil in Hx.
Qed.

(** The write after the snapshot is gone, and the next call writes to what the
    snapshot held. *)
Lemma reset_restores_snapshot_witness : exists r w4,
  submit_database ex_sha ex_cfg 1000 ex_ns (ex_put "b" "3") ex_reset = (r, w4) /\
  (refusal r \/ exists d reason full_ n m c, seen ex_written ex_ns = Some d /\
     ex_put "b" "3" reason full_ (mkConn d n m) = (r, c) /\ seen w4 ex_ns = Some (k_data c)).
Proof.
  set (last := submit_database ex_sha ex_cfg 1000 ex_ns (ex_put "b" "3") ex_reset). exists last.1, last.2.
  split; [apply surjective_pairing|].
  assert (Hs : snapshot ex_sha 3 ex_ns ex_written = (Ok tt, ex_saved)).
  { assert ((snapshot ex_sha 3 ex_ns ex_written).1 = Ok tt) as <- by (vm_compute; reflexivity). apply surjective_pairing. }
  assert (Hr : reset_to_snapshot "now" ex_ns ex_again = (Ok tt, ex_reset)).
  { assert ((reset_to_snapshot "now" ex_ns ex_again).1 = Ok tt) as <- by (vm_compute; reflexivity). apply surjective_pairing. }
  exact (reset_restores_snapshot ex_sha 3 ex_cfg 1000 ex_written ex_ns ex_uuid "now" (ex_put "b" "3") ex_saved ex_again
    ex_reset last.1 last.2 ex_written_wf eq_refl ex_named ltac:(lia) ex_clock Hs
    (rtc_once _ _ (served_call _ _ _ _ _ _ ex_key_ok)) Hr (surjective_pairing last)).
Defined.

Lemma snapshot_pass_copies_witness : exists d, seen ex_written ex_ns = Some d /\
  (unsaved (handle_of ex_ns (snapshot_all ex_sha 3 ex_written)) = true \/
   saved_copy (snapshot_all ex_sha 3 ex_written) ex_ns = Some d).
Proof.
  assert (Hids : unsaved_ids (w_dbs ex_written) = [ex_ns]) by (vm_compute; reflexivity).
  assert (Hall : Forall (fun id => key_ok id /\ clock_ahead ex_written id) (unsaved_ids (w_dbs ex_written))).
  { rewrite Hids. constructor; [|constructor]. split; [apply ex_key_ok|apply ex_clock]. }
  destruct (seen ex_written ex_ns) as [d|] eqn:E; [|by vm_compute in E]. exists d. split; [done|]. rewrite <- E.
  apply (proj2 (proj2 (snapshot_pass_copies ex_sha 3 ex_written ex_written_wf ltac:(lia) Hall))). rewrite Hids. by left.
Defined.

Lemma text_named (u : text_uuid) : named (Ix := PgIndex text_uuid) (uuid_string u).
Proof. left. by exists u. Qed.

Definition lowered (w : world (St := mem_store) (Ix := PgIndex text_uuid)) : world :=
  mkWorld (w_now w) (w_calls w) true (w_dbs w) (w_ns w) (w_disk w) (w_archive w).

Lemma lowered_wf w : wf ex_sha w -> wf ex_sha (lowered w).
Proof. by intros []. Qed.

Lemma paused_database_kept_witness : exists r w',
  submit_database ex_sha ex_cfg 1000 ex_ns (ex_put "a" "2") (lowered ex_written) = (r, w') /\
  seen w' ex_ns = seen (lowered ex_written) ex_ns.
Proof.
  set (last := submit_database ex_sha ex_cfg 1000 ex_ns (ex_put "a" "2") (lowered ex_written)). exists last.1, last.2.
  split; [apply surjective_pairing|].
  exact (paused_database_kept ex_sha ex_cfg 1000 id (lowered ex_written) ex_ns _ last.1 last.2 ex_ns (lowered_wf _ ex_written_wf) text_named
    (or_introl eq_refl) (surjective_pairing last) ex_key_ok).
Defined.

(** ** A call between the halves of a reset *)

(** The first half of a reset, a write, and the second half. *)
Definition ex_race : result (D1Result * result unit string * world) string :=
  match reset_take ex_ns ex_saved with
  | Err e => Err e
  | Ok (u, w) =>
    let '(written, w) := execute ex_sha ex_cfg 1000 id ex_ns (Exec "put b 3") w in
    let '(moved, w) := reset_move "now" u w in
    Ok (written, moved, w)
  end.

(** A reset gives back the lock of the map before it moves the files. A
    call in between opens the file that is about to move: its write is
    answered as done, the reset succeeds, and neither the database nor any
    snapshot holds the write. *)
Theorem reset_loses_write :
  match ex_race with
  | Err _ => False
  | Ok (written, moved, w) =>
    written = RExec 1 /\ moved = Ok tt /\ connected_in (w_dbs w) ex_ns = true /\
    (fst <$> seen w ex_ns) = Some {["a" := "1"]} /\ (fst <$> saved_copy w ex_ns) = Some {["a" := "1"]}
  end.
Proof. vm_compute. repeat split. Qed.
