(* ===== verification/D1Requests.v ===== *)
(** * Management requests and clean-up (src/src/d1/requests.rs)

    Clients of the platform insert requests in a table; the runner serves them
    in the order they came and writes each result into its row. Every minute
    it also removes what deleted databases and namespaces left behind. The
    tables can fail at any statement ([Postgres]); the service is the one of
    [D1Calls]. *)

From stdpp Require Import sorting.
From S2P Require Import Prelude RustStr Extern Postgres DurableRegistry D1Keys D1Archive D1Sql ObjectStorage D1Service D1Disk D1Calls.

Section requests.
Context {D S : Type} {sq : SqliteFiles D} {engine : Sqlite D S} (lossy : string -> string) {zs : Zstd}.
Context {St Ix : Type} {store : ObjectStore St} {index : Index Ix} {U : Type} {uuid : Uuid U}.
Context (sha : string -> string) (keep : nat) (cfg : D1Service.Config) (pause_after : Z).

(** [J]: JSON. [decode]: [serde_json::from_value]. [stamp]: a time of the clock
    in the name of a file. *)
Inductive Request : Type := ROp (op : D1Op) | RMigrate (m : Migration) | RRestore.
Context {J : Type} (decode : J -> result Request string) (stamp : Z -> string).

(** ** The tables

    A row is finished when it has a result. The rows of the two purge tables
    name a database or a namespace, or the key of a snapshot. *)

Record RequestRow := mkRequestRow { q_database : string; q_request : J; q_created : Z; q_result : option D1Result }.
Record PurgeRow := mkPurgeRow { p_id : Z; p_owner : string; p_key : option string }.

Record tables := mkTables {
  t_requests : gmap string RequestRow;
  t_databases : gmap string bool;   (** whether it is deleted *)
  t_purge : gmap Z (string * option string);
  t_ns_purge : gmap Z (string * option string);
  t_namespaces : gmap string bool;
  t_archives : list (string * string) }.

Definition set_requests (r : gmap string RequestRow) (t : tables) : tables :=
  mkTables r (t_databases t) (t_purge t) (t_ns_purge t) (t_namespaces t) (t_archives t).
Definition set_purge (p : gmap Z (string * option string)) (t : tables) : tables :=
  mkTables (t_requests t) (t_databases t) p (t_ns_purge t) (t_namespaces t) (t_archives t).
Definition set_ns_purge (p : gmap Z (string * option string)) (t : tables) : tables :=
  mkTables (t_requests t) (t_databases t) (t_purge t) p (t_namespaces t) (t_archives t).

(** ** Requests *)

Record Pending := mkPending { d_id : string; d_database : string; d_request : J; d_deleted : bool; d_created : Z }.

Definition pending_of (t : tables) (x : string * RequestRow) : option Pending :=
  match q_result x.2 with
  | Some _ => None
  | None => deleted ← t_databases t !! q_database x.2;
            Some (mkPending x.1 (q_database x.2) (q_request x.2) deleted (q_created x.2))
  end.

Definition earlier (a b : Pending) : Prop := d_created a <= d_created b.

#[export] Instance earlier_dec a b : Decision (earlier a b).
Proof. unfold earlier. apply _. Defined.

Definition select_pending (t : tables) : list Pending :=
  merge_sort earlier (omap (pending_of t) (map_to_list (t_requests t))).

Definition failure (kind : D1ErrorKind) (message : string) : D1Result := RError (mkD1Error kind message None).

Local Abbreviation service := (world (St := St) (Ix := Ix)).

Definition serve (database_id : string) (request : J) (w : service) : D1Result * service :=
  match decode request with
  | Ok (ROp op) => execute sha cfg pause_after lossy database_id op w
  | Ok (RMigrate m) => migrate sha cfg pause_after lossy database_id m w
  | Ok RRestore =>
    match reset_to_snapshot (stamp (w_now w)) database_id w with
    | (Ok _, w) => (RExec 0, w)
    | (Err err, w) => (failure KUnavailable err, w)
    end
  | Err err => (failure KType ("bad request: " +:+ err), w)
  end.

(** UPDATE … WHERE id = … AND finished_at IS NULL. *)
Definition finish (id : string) (result : D1Result) (t : tables) : tables :=
  match t_requests t !! id with
  | Some (mkRequestRow database request created None) =>
    set_requests (<[id := mkRequestRow database request created (Some result)]> (t_requests t)) t
  | _ => t
  end.

Definition serve_one (p : Pending) (w : service) : D1Result * service :=
  if d_deleted p then (failure KUnavailable "the database is deleted", w) else serve (d_database p) (d_request p) w.

(** [stop i]: the runner is to stop before the request number [i]. *)
Fixpoint serve_loop (stop : nat -> bool) (i : nat) (pending : list Pending) : SE (Postgres.Db tables * service) string unit :=
  match pending with
  | [] => mret tt
  | p :: pending => fun s =>
    if stop i then (Ok tt, s) else
    let '(result, w) := serve_one p s.2 in
    (_ ← on_fst (Postgres.query (fun t => Ok (tt, finish (d_id p) result t)));
     serve_loop stop (Datatypes.S i) pending) (s.1, w)
  end.

Definition serve_pending (stop : nat -> bool) : SE (Postgres.Db tables * service) string unit :=
  pending ← on_fst (Postgres.query (fun t => Ok (select_pending t, t)));
  serve_loop stop 0 pending.

(** ** Clean-up *)

Definition PURGE_LIMIT : nat := 1000.

Definition by_id (a b : PurgeRow) : Prop := p_id a <= p_id b.

#[export] Instance by_id_dec a b : Decision (by_id a b).
Proof. unfold by_id. apply _. Defined.

Definition purge_rows (m : gmap Z (string * option string)) : list PurgeRow :=
  take PURGE_LIMIT (merge_sort by_id ((fun x : Z * (string * option string) => mkPurgeRow x.1 x.2.1 x.2.2) <$> map_to_list m)).

Definition deleted_of (m : gmap string bool) : list string := omap (fun x : string * bool => if x.2 then Some x.1 else None) (map_to_list m).

Local Abbreviation runner := (service * Registry)%type.

(** The files of an owner: of a database, or of a namespace whose objects
    stopped. *)
Definition remove_database (id : string) (x : runner) : bool * runner :=
  let '(done, w) := remove_database_files id x.1 in (done, (w, x.2)).

Definition remove_namespace (id : string) (x : runner) : bool * runner :=
  let '(stopped, r) := stop_namespace id x.2 in
  if stopped : bool then let '(done, w) := remove_objects id x.1 in (done, (w, r)) else (false, (x.1, r)).

Section purge.
Context (remove : string -> runner -> bool * runner) (drop_row : Z -> tables -> tables).

Definition purge_one (p : PurgeRow) (x : runner) : bool * runner :=
  match p_key p with
  | None => remove (p_owner p) x
  | Some key => let '(r, w) := remove_snapshot_object key x.1 in (is_ok r, (w, x.2))
  end.

Definition drop_done (done : bool) (id : Z) : SE (Postgres.Db tables * runner) string unit :=
  if done then on_fst (Postgres.query (fun t => Ok (tt, drop_row id t))) else mret tt.

Fixpoint purge_loop (l : list PurgeRow) : SE (Postgres.Db tables * runner) string unit :=
  match l with
  | [] => mret tt
  | p :: l => fun s =>
    let '(done, x) := purge_one p s.2 in
    (_ ← drop_done done (p_id p); purge_loop l) (s.1, x)
  end.

End purge.

Definition drop_purge (id : Z) (t : tables) : tables := set_purge (delete id (t_purge t)) t.
Definition drop_ns_purge (id : Z) (t : tables) : tables := set_ns_purge (delete id (t_ns_purge t)) t.

(** [trigger]: what the deletion of rows of durable_object_archives adds to the
    purge of namespaces. *)
Context (trigger : list (string * string) -> gmap Z (string * option string) -> gmap Z (string * option string)).

Definition delete_archives (t : tables) : tables :=
  let gone (x : string * string) := bool_decide (t_namespaces t !! x.1 = Some true) in
  mkTables (t_requests t) (t_databases t) (t_purge t)
    (trigger (filter (fun x => gone x = true) (t_archives t)) (t_ns_purge t))
    (t_namespaces t) (filter (fun x => gone x = false) (t_archives t)).

Definition clean_up_namespaces : SE (Postgres.Db tables * runner) string unit :=
  purge ← on_fst (Postgres.query (fun t => Ok (purge_rows (t_ns_purge t), t)));
  _ ← purge_loop remove_namespace drop_ns_purge purge;
  deleted ← on_fst (Postgres.query (fun t => Ok (deleted_of (t_namespaces t), t)));
  _ ← (fun s : Postgres.Db tables * runner => (Ok tt, (s.1, foldl (fun x id => (remove_namespace id x).2) s.2 deleted)));
  on_fst (Postgres.query (fun t => Ok (tt, delete_archives t))).

Definition forget_deleted (id : string) (x : runner) : runner :=
  let x := (remove_database id x).2 in ((forget_snapshots id x.1).2, x.2).

(** [now]: of the database, in seconds. *)
Definition clean_up (now : Z) : SE (Postgres.Db tables * runner) string unit :=
  purge ← on_fst (Postgres.query (fun t => Ok (purge_rows (t_purge t), t)));
  _ ← purge_loop remove_database drop_purge purge;
  deleted ← on_fst (Postgres.query (fun t => Ok (deleted_of (t_databases t), t)));
  _ ← (fun s : Postgres.Db tables * runner => (Ok tt, (s.1, foldl (fun x id => forget_deleted id x) s.2 deleted)));
  _ ← on_fst (Postgres.query (fun t => Ok (tt, set_requests (filter (fun x : string * RequestRow => now - 3600 <= q_created x.2) (t_requests t)) t)));
  quietly clean_up_namespaces.

(** One turn of the listener: a notification, or the tick of the sweep. *)
Definition listen_turn (notified : bool) (now : Z) (stop : nat -> bool) : SE (Postgres.Db tables * runner) string unit := fun s =>
  let '(r, (pg, w)) := serve_pending stop (s.1, s.2.1) in
  match r with
  | Err e => (Err e, (pg, (w, s.2.2)))
  | Ok _ => if notified then (Ok tt, (pg, (w, s.2.2))) else clean_up now (pg, (w, s.2.2))
  end.

(** ** What serving means *)

(** The results of a list of requests, one after the other. *)
Fixpoint serve_list (l : list Pending) (w : service) : list (Pending * D1Result) * service :=
  match l with
  | [] => ([], w)
  | p :: l => let '(r, w) := serve_one p w in let '(rs, w) := serve_list l w in ((p, r) :: rs, w)
  end.

Definition finish_list (l : list (Pending * D1Result)) (t : tables) : tables :=
  foldl (fun t x => finish (d_id x.1) x.2 t) t l.

Lemma serve_list_fst l w : (serve_list l w).1.*1 = l.
Proof.
  revert w. induction l as [|p l IH]; intros w; [done|]. simpl. destruct (serve_one p w) as [r w1].
  specialize (IH w1). destruct (serve_list l w1) as [rs w2]. cbn [fst fmap list_fmap] in *. by rewrite IH.
Qed.

Lemma serve_loop_spec stop i l s r s' : serve_loop stop i l s = (r, s') ->
  exists k j, (k <= length l)%nat /\ (j = k \/ (Datatypes.S j = k /\ is_ok r = false)) /\
    s'.2 = (serve_list (take k l) s.2).2 /\
    Postgres.data s'.1 = finish_list (take j (serve_list (take k l) s.2).1) (Postgres.data s.1) /\
    (r = Ok tt -> k = length l \/ stop (i + k)%nat = true).
Proof.
  revert i s. induction l as [|p l IH]; intros i s E.
  { injection E as <- <-. exists 0%nat, 0%nat. simpl. split_and!; auto. }
  cbn [serve_loop] in E. destruct (stop i) eqn:Es.
  { injection E as <- <-. exists 0%nat, 0%nat. rewrite Nat.add_0_r. simpl. split_and!; auto. lia. }
  destruct (serve_one p s.2) as [res w] eqn:Eo.
  apply SE_bind_inv in E as [([] & s1 & E1 & E)|(e & E1 & ->)]; apply on_fst_inv in E1 as [E1 E1'];
    cbn [fst snd] in E1, E1'.
  - apply Postgres.query_inv in E1 as [[_ ?]|(u & d & [= <- <-] & Hd & _)]; [done|].
    apply IH in E as (k & j & Hk & Hj & Hw & Hdata & Hr). exists (Datatypes.S k), (Datatypes.S j). cbn [take serve_list length]. rewrite Eo.
    rewrite E1' in Hw, Hdata. destruct (serve_list (take k l) w) as [rs w'] eqn:El. cbn [fst snd] in *.
    split_and!; [lia|destruct Hj as [->|[<- ?]]; [by left|by right]|done| |].
    + rewrite Hdata, Hd. done.
    + intros Hok. rewrite Nat.add_succ_r. destruct (Hr Hok) as [->|?]; [by left|by right].
  - apply Postgres.query_inv in E1 as [[Hd ?]|(u & d & [= <- <-] & Hd & _)].
    + exists 1%nat, 0%nat. cbn [take serve_list length]. rewrite Eo. cbn. split_and!; [lia|by right|done..].
    + exists 1%nat, 1%nat. cbn [take serve_list length]. rewrite Eo. cbn. split_and!; [lia|by left|done..].
Qed.

(** A result is final: a request that another turn has finished keeps the result
    it has. *)
Theorem result_final id res t k row : t_requests t !! k = Some row -> is_Some (q_result row) ->
  t_requests (finish id res t) !! k = Some row.
Proof.
  intros Hk [x Hx]. unfold finish. destruct (t_requests t !! id) as [[db rq cr [y|]]|] eqn:E; [done| |done].
  simpl. rewrite lookup_insert_ne; [done|]. intros ->. rewrite Hk in E. injection E as ->. done.
Qed.

(** A row that no request of the list names is not touched; the row of one gets
    that request's result. *)
Lemma finish_other id res t k : k <> id -> t_requests (finish id res t) !! k = t_requests t !! k.
Proof.
  intros Hne. unfold finish. destruct (t_requests t !! id) as [[db rq cr [x|]]|]; [done| |done].
  simpl. by rewrite lookup_insert_ne.
Qed.

Lemma finish_list_other l t k : k ∉ d_id <$> l.*1 -> t_requests (finish_list l t) !! k = t_requests t !! k.
Proof.
  revert t. induction l as [|[p res] l IH]; intros t Hn; [done|]. cbn [fmap list_fmap fst] in Hn.
  apply not_elem_of_cons in Hn as [H1 H2]. simpl. rewrite (IH _ H2). by apply finish_other.
Qed.

Definition with_result (row : RequestRow) (res : D1Result) : RequestRow :=
  mkRequestRow (q_database row) (q_request row) (q_created row) (Some res).

Lemma finish_list_result l t i p res row : NoDup (d_id <$> l.*1) -> l !! i = Some (p, res) ->
  t_requests t !! d_id p = Some row -> q_result row = None ->
  t_requests (finish_list l t) !! d_id p = Some (with_result row res).
Proof.
  revert t i. induction l as [|[p0 r0] l IH]; intros t i Hd Hi Hrow Hres; [done|].
  cbn [fmap list_fmap fst] in Hd. apply NoDup_cons in Hd as [Hn Hd]. destruct i as [|i]; simpl in Hi.
  - injection Hi as -> ->. simpl. rewrite finish_list_other by done. unfold finish. rewrite Hrow.
    destruct row as [db rq cr o]. simpl in *. subst o. simpl. by rewrite lookup_insert_eq.
  - simpl. eapply IH; [done..| |done]. rewrite finish_other; [done|]. intros E. apply Hn. rewrite <- E.
    apply list_elem_of_fmap. exists p. split; [done|]. apply list_elem_of_fmap. exists (p, res). split; [done|].
    by eapply list_elem_of_lookup_2.
Qed.

Lemma serve_list_lookup l w i p : l !! i = Some p ->
  (serve_list l w).1 !! i = Some (p, (serve_one p (serve_list (take i l) w).2).1).
Proof.
  revert w i. induction l as [|p0 l IH]; intros w [|i] Hi; simpl in Hi; [done..| |].
  - injection Hi as ->. simpl. destruct (serve_one p w) as [r w1] eqn:E. by destruct (serve_list l w1).
  - cbn [serve_list take]. destruct (serve_one p0 w) as [r w1]. specialize (IH w1 i Hi).
    destruct (serve_list l w1) as [rs w2] eqn:E1, (serve_list (take i l) w1) as [rs' w2'] eqn:E2. simpl in *.
    rewrite IH. done.
Qed.

(** The ids of the pending requests are those of their rows, each once. *)
Lemma pending_ids t l : d_id <$> omap (pending_of t) l `sublist_of` l.*1.
Proof.
  induction l as [|[id row] l IH]; [done|]. simpl. destruct (pending_of t (id, row)) as [q|] eqn:E; csimpl; [|by constructor].
  assert (d_id q = id) as ->; [|by constructor]. unfold pending_of in E. simpl in E. destruct (q_result row); [done|].
  apply option_Some_bind in E as (b & _ & [= <-]). done.
Qed.

Lemma pending_NoDup t : NoDup (d_id <$> select_pending t).
Proof.
  unfold select_pending. rewrite (merge_sort_Permutation earlier). eapply sublist_NoDup; [|apply pending_ids].
  apply NoDup_fst_map_to_list.
Qed.

Lemma pending_row t p : p ∈ select_pending t ->
  exists row, t_requests t !! d_id p = Some row /\ q_result row = None /\ q_request row = d_request p /\ q_database row = d_database p.
Proof.
  unfold select_pending. rewrite (merge_sort_Permutation earlier). intros ([id row] & Hin & E)%list_elem_of_omap.
  apply elem_of_map_to_list in Hin. unfold pending_of in E. simpl in E. destruct (q_result row) eqn:Er; [done|].
  apply option_Some_bind in E as (b & _ & [= <-]). by exists row.
Qed.

(** ** Properties of the requests *)

(** C25. The requests that are pending are served in the order they were made,
    each on the service the one before it left, and up to some request. The
    row of each of those gets the result of that request, and nothing else of
    it changes, except perhaps for the last one when the database fails. Every
    other row stays as it is, one that already had a result included, whatever
    fails. Without failures, and unless the runner stops, every pending
    request is served. *)
Theorem requests_served stop s r s' :
  serve_pending stop s = (r, s') ->
  let l := select_pending (Postgres.data s.1) in
  exists k j,
    (k <= length l)%nat /\ (j = k \/ (Datatypes.S j = k /\ is_ok r = false)) /\
    s'.2 = (serve_list (take k l) s.2).2 /\ (r = Ok tt -> k = length l \/ stop k = true) /\
    StronglySorted earlier l /\
    (forall i p, (i < j)%nat -> l !! i = Some p -> exists row,
       t_requests (Postgres.data s.1) !! d_id p = Some row /\ q_result row = None /\ q_request row = d_request p /\
       t_requests (Postgres.data s'.1) !! d_id p =
         Some (with_result row (serve_one p (serve_list (take i l) s.2).2).1)) /\
    (forall id, id ∉ d_id <$> take j l -> t_requests (Postgres.data s'.1) !! id = t_requests (Postgres.data s.1) !! id).
Proof.
  intros E l. assert (Hsorted : StronglySorted earlier l).
  { apply StronglySorted_merge_sort; [intros a b c; unfold earlier; lia|]. intros a b. unfold earlier. lia. }
  apply SE_bind_inv in E as [(l' & s1 & E1 & E)|(e & E1 & ->)]; apply on_fst_inv in E1 as [E1 Ew].
  - apply Postgres.query_inv in E1 as [[_ ?]|(u & d & [= <- <-] & Hd & [[= ->]|?])]; try done.
    apply serve_loop_spec in E as (k & j & Hk & Hj & Hw & Hdata & Hr). fold l in Hk, Hw, Hdata, Hr. exists k, j.
    rewrite Ew in Hw, Hdata. rewrite Hd in Hdata.
    assert (Hjk : (j <= k)%nat) by lia.
    assert (Hids : d_id <$> (take j (serve_list (take k l) s.2).1).*1 = d_id <$> take j l).
    { by rewrite fmap_take, serve_list_fst, take_take, Nat.min_l by lia. }
    split_and!; [done..| |].
    + intros i p Hi Hp. destruct (pending_row _ p (list_elem_of_lookup_2 _ _ _ Hp)) as (row & H1 & H2 & H3 & _).
      exists row. split_and!; [done..|]. rewrite Hdata.
      assert (Hl : take j (serve_list (take k l) s.2).1 !! i = Some (p, (serve_one p (serve_list (take i l) s.2).2).1)).
      { rewrite lookup_take_lt by done. rewrite (serve_list_lookup _ _ i p) by (by rewrite lookup_take_lt by lia).
        by rewrite take_take, Nat.min_l by lia. }
      eapply finish_list_result; [|exact Hl|exact H1|exact H2]. rewrite Hids, fmap_take.
      eapply sublist_NoDup; [apply (pending_NoDup (Postgres.data s.1))|apply sublist_take].
    + intros id Hid. rewrite Hdata. apply finish_list_other. by rewrite Hids.
  - exists 0%nat, 0%nat. split_and!; [lia|by left|done|done|done|intros; lia|]. intros id _.
    apply Postgres.query_inv in E1 as [[Hd _]|(u & d & [= <- <-] & Hd & _)]; by rewrite Hd.
Qed.

(** ** Files that stay gone *)

Definition gone (key : string) (w : service) : Prop :=
  files_at key w = mkDbFiles None None None /\ w_dbs w !! key = None.

Definition dotless_dbs (w : service) : Prop := forall id h, w_dbs w !! id = Some h -> dotless id.

(** No file comes back. *)
Definition keeps_gone (w w' : service) : Prop :=
  dotless_dbs w -> dotless_dbs w' /\ (forall key, dotless key -> gone key w -> gone key w') /\
    (w_archive w = None -> w_archive w' = None).

Lemma keeps_gone_refl w : keeps_gone w w.
Proof. by split. Qed.

Lemma keeps_gone_trans a b c : keeps_gone a b -> keeps_gone b c -> keeps_gone a c.
Proof. intros H1 H2 Ha. destruct (H1 Ha) as (Hb & G1 & A1). destruct (H2 Hb) as (Hc & G2 & A2). split_and!; auto. Qed.

Lemma keeps_gone_same w w' : w_dbs w' = w_dbs w -> w_disk w' = w_disk w -> (w_archive w = None -> w_archive w' = None) ->
  keeps_gone w w'.
Proof.
  intros Hd Hf Ha Hdot. unfold dotless_dbs, gone, files_at. rewrite Hd, Hf. by split_and!.
Qed.

Lemma replace_keeps_gone new w : (forall k, w_dbs w !! k = None -> new !! k = None) -> keeps_gone w (replace_dbs new w).
Proof.
  intros Hsub Hdot. split_and!; [|intros key Hkey [Hf Hn]|done].
  - intros id h Hh. destruct (w_dbs w !! id) as [h'|] eqn:E; [by eapply Hdot|]. simpl in Hh. by rewrite (Hsub id E) in Hh.
  - split; [|by apply Hsub]. rewrite <- Hf. unfold files_at, replace_dbs. cbn [w_disk d_files].
    assert (Hids : Forall (fun id => dotless id /\ id <> key) (dropped (w_dbs w) new)).
    { apply Forall_forall. intros id [Hc _]%dropped_spec. unfold connected_in in Hc.
      destruct (w_dbs w !! id) as [h|] eqn:E; [|done]. split; [by eapply Hdot|]. intros ->. congruence. }
    induction Hids as [|id ids [Hd Hne] _ IH]; [done|]. cbn [foldr]. rewrite <- IH.
    eapply touches_other; [apply touches_put|done..].
Qed.

(** A disk that lost files only. *)
Lemma disk_keeps_gone w d : (forall p, d_files (w_disk w) !! p = None -> d_files d !! p = None) ->
  keeps_gone w (set_disk d w).
Proof.
  intros Hd Hdot. split_and!; [done| |done]. intros key Hk [Hf Hn]. split; [|done].
  unfold files_at, files_of in *. simpl. injection Hf as H1 H2 H3. by rewrite !Hd.
Qed.

Lemma remove_file_shrinks path d r d' : remove_file path d = (r, d') ->
  forall p, d_files d !! p = None -> d_files d' !! p = None.
Proof.
  intros [(e & n & _ & ->)|H]%fs_call_inv p Hp; [done|]. destruct (d_files d !! path); destruct H as [_ ->]; [|done].
  destruct (decide (p = path)) as [->|]; [apply lookup_delete_eq|by rewrite lookup_delete_ne].
Qed.

Lemma remove_all_shrinks id l d b d' : remove_all id l d = (b, d') ->
  forall p, d_files d !! p = None -> d_files d' !! p = None.
Proof.
  revert d. induction l as [|x l IH]; intros d E p Hp; [by injection E as <- <-|]. simpl in E.
  destruct (remove_file _ d) as [r d1] eqn:E1. pose proof (remove_file_shrinks _ _ _ _ E1 p Hp) as H1.
  destruct r as [?|[|?]]; [by eapply IH|by eapply IH|by injection E as <- <-].
Qed.

Lemma remove_dir_shrinks dir d r d' : remove_dir_all dir d = (r, d') ->
  forall p, d_files d !! p = None -> d_files d' !! p = None.
Proof.
  intros [(e & n & _ & ->)|[_ ->]]%fs_call_inv p Hp.
  - induction (take n _) as [|x l IH]; [done|]. simpl.
    destruct (decide (p = x)) as [->|]; [apply lookup_delete_eq|by rewrite lookup_delete_ne].
  - apply map_lookup_filter_None. by left.
Qed.

Lemma uuid_dotless (u : U) : dotless (uuid_string u).
Proof. by apply uuid_no_char. Qed.

Lemma remove_database_gone id w b w' : remove_database_files id w = (b, w') ->
  keeps_gone w w' /\ (b = true -> forall u, uuid_parse id = Some u -> gone (uuid_string u) w').
Proof.
  clear sha lossy stamp trigger decode. unfold remove_database_files, remove_files.
  destruct (uuid_parse id) as [u|]; [|intros [= <- <-]; split; [apply keeps_gone_refl|done]].
  destruct (in_use _ _); [intros [= <- <-]; split; [apply keeps_gone_refl|done]|].
  set (d := delete (uuid_string u) (w_dbs w)). destruct (remove_all _ _ _) as [b1 d1] eqn:E. intros [= <- <-]. split.
  - eapply keeps_gone_trans; [apply (replace_keeps_gone d)|apply disk_keeps_gone; by eapply remove_all_shrinks].
    intros k Hk. unfold d. destruct (decide (k = uuid_string u)) as [->|]; [apply lookup_delete_eq|by rewrite lookup_delete_ne].
  - apply remove_all_spec in E as [_ Hn]. intros Hb u' [= <-]. split; [|apply lookup_delete_eq].
    unfold files_at, files_of. cbn [w_disk set_disk]. by rewrite !Hn by (done || set_solver).
Qed.

Lemma remove_objects_gone id w b w' : remove_objects id w = (b, w') -> keeps_gone w w'.
Proof.
  unfold remove_objects, remove_namespace_files. destruct (uuid_parse id) as [u|]; [|intros [= <- <-]; apply keeps_gone_refl].
  destruct (existsb _ _); [intros [= <- <-]; apply keeps_gone_refl|]. cbv zeta.
  match goal with |- context [replace_dbs ?x w] => set (d := x) end. set (w1 := set_ns _ (replace_dbs d w)).
  destruct (remove_dir_all _ _) as [r d1] eqn:E. intros [= <- <-].
  eapply keeps_gone_trans; [apply (replace_keeps_gone d)|].
  - intros k Hk. apply map_lookup_filter_None. by left.
  - eapply (keeps_gone_trans _ w1); [by apply keeps_gone_same|]. apply disk_keeps_gone. by eapply remove_dir_shrinks.
Qed.

Lemma archive_keeps_gone {A} off (m : SE (St * Ix) string A) w r w' : on_archive off m w = (r, w') -> keeps_gone w w'.
Proof.
  unfold on_archive. destruct (w_archive w) as [a|] eqn:E; [destruct (m a) as [r1 a1]|]; intros [= <- <-];
    [|apply keeps_gone_refl]. apply keeps_gone_same; [done..|congruence].
Qed.

Lemma remove_namespace_gone id x b x' : remove_namespace id x = (b, x') -> keeps_gone x.1 x'.1.
Proof.
  unfold remove_namespace. destruct (stop_namespace id x.2) as [[] r]; [|intros [= <- <-]; apply keeps_gone_refl].
  destruct (remove_objects id x.1) as [done w] eqn:E. intros [= <- <-]. by eapply remove_objects_gone.
Qed.

Lemma forget_deleted_gone id x : keeps_gone x.1 (forget_deleted id x).1.
Proof.
  unfold forget_deleted, remove_database, forget_snapshots. destruct (remove_database_files id x.1) as [b w] eqn:E. simpl.
  destruct (on_archive _ _ w) as [r w'] eqn:E2. simpl. eapply keeps_gone_trans; [by eapply remove_database_gone|].
  by eapply archive_keeps_gone.
Qed.

Lemma fold_gone {A} (f : runner -> A -> runner) l x : (forall x a, keeps_gone x.1 (f x a).1) -> keeps_gone x.1 (foldl f x l).1.
Proof.
  intros Hf. revert x. induction l as [|a l IH]; intros x; [apply keeps_gone_refl|].
  eapply keeps_gone_trans; [apply Hf|apply IH].
Qed.

(** ** The purge *)

Definition okay (owner : string) (w : service) : Prop := forall u, uuid_parse owner = Some u -> gone (uuid_string u) w.

Lemma okay_kept owner w w' : keeps_gone w w' -> dotless_dbs w -> okay owner w -> okay owner w'.
Proof. intros K Hd Ho u Hu. destruct (K Hd) as (_ & G & _). apply G; [apply uuid_dotless|by apply Ho]. Qed.

Lemma purge_one_gone remove p x b x' : (forall id x b x', remove id x = (b, x') -> keeps_gone x.1 x'.1) ->
  purge_one remove p x = (b, x') -> keeps_gone x.1 x'.1.
Proof.
  intros Hr. unfold purge_one, remove_snapshot_object. destruct (p_key p) as [key|]; [|by apply Hr].
  destruct (on_archive _ _ x.1) as [r w] eqn:E. intros [= <- <-]. by eapply archive_keeps_gone.
Qed.

Lemma drop_done_inv drop_row b id s r s' : drop_done drop_row b id s = (r, s') ->
  s'.2 = s.2 /\ (Postgres.data s'.1 = Postgres.data s.1 \/ b = true /\ Postgres.data s'.1 = drop_row id (Postgres.data s.1)).
Proof.
  unfold drop_done. destruct b; [|intros [= <- <-]; auto]. intros [E E2]%on_fst_inv. split; [done|].
  apply Postgres.query_inv in E as [[? _]|(u & d & [= <- <-] & ? & _)]; auto.
Qed.

Lemma purge_loop_gone remove drop_row l s r s' : (forall id x b x', remove id x = (b, x') -> keeps_gone x.1 x'.1) ->
  purge_loop remove drop_row l s = (r, s') -> keeps_gone s.2.1 s'.2.1.
Proof.
  intros Hr. revert s. induction l as [|p l IH]; intros s E; [injection E as <- <-; apply keeps_gone_refl|]. cbn [purge_loop] in E.
  destruct (purge_one remove p s.2) as [b x] eqn:E1. pose proof (purge_one_gone _ _ _ _ _ Hr E1) as K1.
  apply SE_bind_inv in E as [(u & s1 & [E2 _]%drop_done_inv & E)|(e & [E2 _]%drop_done_inv & ->)]; cbn [snd] in E2.
  - eapply keeps_gone_trans; [exact K1|]. rewrite <- E2. by apply IH.
  - by rewrite E2.
Qed.

Lemma remove_database_kept id x b x' : remove_database id x = (b, x') ->
  keeps_gone x.1 x'.1 /\ (b = true -> okay id x'.1).
Proof.
  unfold remove_database. destruct (remove_database_files id x.1) as [b1 w] eqn:E. intros [= <- <-].
  by apply remove_database_gone in E.
Qed.

(** A row that the loop drops had its files removed. *)
Lemma purge_loop_rows l s r s' id : dotless_dbs s.2.1 -> purge_loop remove_database drop_purge l s = (r, s') ->
  t_purge (Postgres.data s'.1) !! id = t_purge (Postgres.data s.1) !! id \/
  exists p, p ∈ l /\ p_id p = id /\ (p_key p = None -> okay (p_owner p) s'.2.1).
Proof.
  assert (Hrm : forall id x b x', remove_database id x = (b, x') -> keeps_gone x.1 x'.1)
    by (intros ? ? ? ? [? _]%remove_database_kept; done).
  revert s. induction l as [|p l IH]; intros s Hdot E; [injection E as <- <-; by left|]. cbn [purge_loop] in E.
  destruct (purge_one _ p s.2) as [b x] eqn:E1. pose proof (purge_one_gone _ _ _ _ _ Hrm E1) as K1. destruct (K1 Hdot) as [Hdot1 _].
  assert (Hok : b = true -> p_key p = None -> okay (p_owner p) x.1).
  { intros Hb Hk. unfold purge_one in E1. rewrite Hk in E1. by apply remove_database_kept in E1 as [_ ?]; auto. }
  assert (Hp : forall pg1, Postgres.data pg1 = Postgres.data s.1 \/ b = true /\ Postgres.data pg1 = drop_purge (p_id p) (Postgres.data s.1) ->
    t_purge (Postgres.data pg1) !! id = t_purge (Postgres.data s.1) !! id \/ b = true /\ p_id p = id).
  { intros pg1 [->|[Hb ->]]; [by left|]. simpl. destruct (decide (p_id p = id)); [by right|left]. by rewrite lookup_delete_ne. }
  apply SE_bind_inv in E as [(u & s1 & [E2 Hd]%drop_done_inv & E)|(e & [E2 Hd]%drop_done_inv & ->)]; cbn [fst snd] in E2, Hd;
    apply Hp in Hd.
  - assert (K2 : keeps_gone x.1 s'.2.1) by (rewrite <- E2; by eapply purge_loop_gone).
    destruct (IH s1 ltac:(by rewrite E2) E) as [Hsame|(q & Hq & Hrest)]; [|right; exists q; split; [by right|done]].
    rewrite Hsame. destruct Hd as [?|[Hb Hid]]; [by left|right]. exists p. split_and!; [by left|done|].
    intros Hk. eapply okay_kept; [exact K2|done|by apply Hok].
  - destruct Hd as [?|[Hb Hid]]; [by left|right]. exists p. split_and!; [by left|done|]. rewrite E2. by apply Hok.
Qed.

(** A read of the tables, and a statement that leaves the purge of databases. *)
Lemma on_fst_query {X A} (f : tables -> A * tables) (s : Postgres.Db tables * X) r s' :
  on_fst (Postgres.query (fun t => Ok (f t))) s = (r, s') ->
  s'.2 = s.2 /\ (Postgres.data s'.1 = Postgres.data s.1 \/ Postgres.data s'.1 = (f (Postgres.data s.1)).2) /\
  (forall a, r = Ok a -> a = (f (Postgres.data s.1)).1).
Proof.
  intros [E E2]%on_fst_inv. split; [done|].
  apply Postgres.query_inv in E as [[Hd Hr]|(a & d & Hf & Hd & Hr)].
  - split; [by left|]. by intros a ->.
  - injection Hf as Hf. rewrite Hf. split; [right; by rewrite Hd|]. intros a' ->. by destruct Hr as [[= ->]|].
Qed.

Lemma on_fst_read {X A} (f : tables -> A) (s : Postgres.Db tables * X) r s' :
  on_fst (Postgres.query (fun t => Ok (f t, t))) s = (r, s') ->
  s'.2 = s.2 /\ Postgres.data s'.1 = Postgres.data s.1 /\ (forall a, r = Ok a -> a = f (Postgres.data s.1)).
Proof. intros (H1 & H2 & H3)%(on_fst_query (fun t => (f t, t))). split_and!; [done|by destruct H2|exact H3]. Qed.

(** No file comes back, and the purge of databases keeps its rows. *)
Definition keeps_purge (s s' : Postgres.Db tables * runner) : Prop :=
  keeps_gone s.2.1 s'.2.1 /\ t_purge (Postgres.data s'.1) = t_purge (Postgres.data s.1).

#[local] Instance keeps_purge_trans : Transitive keeps_purge.
Proof. intros a b c [K1 P1] [K2 P2]. split; [by eapply keeps_gone_trans|congruence]. Qed.

#[local] Instance keeps_purge_refl : Reflexive keeps_purge.
Proof. split; [apply keeps_gone_refl|done]. Qed.

Lemma query_moves {A} (f : tables -> A * tables) : (forall t, t_purge (f t).2 = t_purge t) ->
  Prelude.moves keeps_purge (on_fst (Postgres.query (fun t => Ok (f t)))).
Proof.
  intros Hf s r s' (H1 & H2 & _)%on_fst_query. split; [rewrite H1; apply keeps_gone_refl|].
  destruct H2 as [->| ->]; [done|apply Hf].
Qed.

Lemma fold_moves {E A} (f : runner -> A -> runner) l : (forall x a, keeps_gone x.1 (f x a).1) ->
  Prelude.moves (E := E) keeps_purge (fun s => (Ok tt, (s.1, foldl f s.2 l))).
Proof. intros Hf s r s' [= <- <-]. split; [by apply fold_gone|done]. Qed.

Lemma ns_loop_moves l : Prelude.moves keeps_purge (purge_loop remove_namespace drop_ns_purge l).
Proof.
  induction l as [|p l IH]; [by apply moves_ret; apply _|]. intros s r s' E. cbn [purge_loop] in E.
  destruct (purge_one _ p s.2) as [b x] eqn:E1. transitivity (s.1, x).
  - split; [|done]. eapply purge_one_gone; [|exact E1]. intros ? ? ? ?. apply remove_namespace_gone.
  - revert E. apply moves_bind; [apply _| |by intros _]. unfold drop_done. destruct b; [by apply query_moves|by apply moves_ret; apply _].
Qed.

Lemma clean_up_namespaces_moves : Prelude.moves keeps_purge clean_up_namespaces.
Proof.
  unfold clean_up_namespaces.
  repeat (apply moves_bind; [apply _| |intros ?]); try by apply query_moves.
  - apply ns_loop_moves.
  - apply fold_moves. intros x id. destruct (remove_namespace id x) as [b x'] eqn:E. by eapply remove_namespace_gone.
Qed.

(** The rest of [clean_up], after the purge. *)
Lemma forget_moves now :
  Prelude.moves keeps_purge (deleted ← on_fst (Postgres.query (fun t => Ok (deleted_of (t_databases t), t)));
    _ ← (fun s : Postgres.Db tables * runner => (Ok tt, (s.1, foldl (fun x id => forget_deleted id x) s.2 deleted)));
    _ ← on_fst (Postgres.query (fun t => Ok (tt, set_requests
          (filter (fun x : string * RequestRow => now - 3600 <= q_created x.2) (t_requests t)) t)));
    quietly clean_up_namespaces : SE (Postgres.Db tables * runner) string unit).
Proof.
  repeat (apply moves_bind; [apply _| |intros ?]); try by apply query_moves.
  - apply fold_moves. intros x id. apply forget_deleted_gone.
  - apply moves_quietly, clean_up_namespaces_moves.
Qed.

Lemma purge_rows_in m p : p ∈ purge_rows m -> m !! p_id p = Some (p_owner p, p_key p).
Proof.
  unfold purge_rows. intros Hp%subseteq_take. rewrite merge_sort_Permutation in Hp.
  apply list_elem_of_fmap in Hp as ([id [o k]] & -> & Hin). by apply elem_of_map_to_list in Hin.
Qed.

(** A row of the purge is dropped only when its database is: after a
    sweep, whatever fails in it, a row that is gone names a database that is
    not open and has no file. *)
Theorem purged_files_gone now s r s' id owner u :
  dotless_dbs s.2.1 -> clean_up now s = (r, s') ->
  t_purge (Postgres.data s.1) !! id = Some (owner, None) -> t_purge (Postgres.data s'.1) !! id = None ->
  uuid_parse owner = Some u ->
  files_at (uuid_string u) s'.2.1 = mkDbFiles None None None /\ w_dbs s'.2.1 !! uuid_string u = None.
Proof.
  intros Hdot E Hrow Hgone Hu. unfold clean_up in E.
  apply SE_bind_inv in E as [(l & s1 & E1 & E)|(e & E1 & ->)]; apply on_fst_read in E1 as (W1 & D1 & L1); [|congruence].
  specialize (L1 l eq_refl). subst l.
  assert (Hloop : forall r2 s2, purge_loop remove_database drop_purge (purge_rows (t_purge (Postgres.data s.1))) s1 = (r2, s2) ->
    dotless_dbs s2.2.1 /\ (t_purge (Postgres.data s2.1) !! id = None -> okay owner s2.2.1)).
  { intros r2 s2 E2. rewrite <- W1 in Hdot. split.
    - eapply purge_loop_gone in E2 as K2; [by apply K2|]. by intros ? ? ? ? [? _]%remove_database_kept.
    - intros Hn. destruct (purge_loop_rows _ _ _ _ id Hdot E2) as [Hsame|(p & Hp & Hid & Hok)]; [congruence|].
      apply purge_rows_in in Hp. rewrite Hid, Hrow in Hp. injection Hp as -> Hk. by apply Hok. }
  apply SE_bind_inv in E as [(u2 & s2 & E2 & E)|(e & E2 & ->)]; apply Hloop in E2 as [Hdot2 Hok].
  - apply forget_moves in E as [K P]. rewrite P in Hgone. exact (okay_kept _ _ _ K Hdot2 (Hok Hgone) u Hu).
  - by apply Hok.
Qed.

(** ** Rows that block the purge *)

Lemma stuck_loop l (s : Postgres.Db tables * runner) : w_archive s.2.1 = None -> Forall (fun p => p_key p <> None) l ->
  purge_loop remove_database drop_purge l s = (Ok tt, s).
Proof.
  intros Ha Hl. induction Hl as [|p l Hp _ IH]; [done|]. cbn [purge_loop]. unfold purge_one, remove_snapshot_object, on_archive.
  destruct (p_key p) as [key|]; [|done]. rewrite Ha. destruct s as [pg [w reg]]. exact IH.
Qed.

Definition sweep (s s' : Postgres.Db tables * runner) : Prop := exists now r, clean_up now s = (r, s').

Lemma sweep_stuck s s' : dotless_dbs s.2.1 -> w_archive s.2.1 = None ->
  Forall (fun p => p_key p <> None) (purge_rows (t_purge (Postgres.data s.1))) -> sweep s s' -> keeps_purge s s'.
Proof.
  intros Hdot Ha Hl (now & r & E). unfold clean_up in E.
  apply SE_bind_inv in E as [(l & s1 & E1 & E)|(e & E1 & ->)]; apply on_fst_read in E1 as (W1 & D1 & L1).
  2:{ split; [rewrite W1; apply keeps_gone_refl|by rewrite D1]. }
  specialize (L1 l eq_refl). subst l. rewrite <- W1 in Ha.
  apply SE_bind_inv in E as [(u2 & s2 & E2 & E)|(e & E2 & ->)]; rewrite (stuck_loop _ _ Ha Hl) in E2; [|done].
  injection E2 as _ <-. transitivity s1; [split; [rewrite W1; apply keeps_gone_refl|by rewrite D1]|]. by apply forget_moves in E.
Qed.

(** The rows the purge cannot do hold up the others. On a runner without
    snapshots, once the first thousand rows of the purge each name the key of a
    snapshot, no sweep drops a row any more, those of databases whose files
    could go included. *)
Theorem stuck_rows_starve s s' :
  dotless_dbs s.2.1 -> w_archive s.2.1 = None ->
  Forall (fun p => p_key p <> None) (purge_rows (t_purge (Postgres.data s.1))) ->
  rtc sweep s s' -> t_purge (Postgres.data s'.1) = t_purge (Postgres.data s.1).
Proof.
  intros Hdot Ha Hl Hr. induction Hr as [s|s s1 s2 H1 _ IH]; [done|].
  destruct (sweep_stuck _ _ Hdot Ha Hl H1) as [K P]. destruct (K Hdot) as (Hdot1 & _ & Ha1).
  rewrite IH; [done|done|by apply Ha1|by rewrite P].
Qed.

End requests.

(** ** Examples *)

#[local] Instance request_files : SqliteFiles tiny_data := coded_files (∅, None).

(** A request is its text. *)
Definition ex_decode (j : string) : result Request string :=
  if String.eqb j "restore" then Ok RRestore else if is_empty j then Err "EOF" else Ok (ROp (Exec j)).

Definition ex_tables (rows : list (string * RequestRow (J := string))) : tables :=
  mkTables (list_to_map rows) {[ex_ns := false; "gone" := true]} ∅ ∅ ∅ [].

Definition ex_rows : list (string * RequestRow) :=
  [("r2", mkRequestRow ex_ns "put a 2" 2 None); ("r1", mkRequestRow ex_ns "put a 1" 1 None);
   ("r3", mkRequestRow "gone" "put a 3" 3 None); ("r0", mkRequestRow ex_ns "" 0 (Some (RExec 7)))].

Definition ex_serve (faults : list fault) (rows : list (string * RequestRow)) (w : world) :=
  serve_pending (D := tiny_data) (St := mem_store) (Ix := PgIndex text_uuid) id ex_sha ex_cfg 1000 ex_decode (fun _ => "now")
    (fun _ => false) (Postgres.mkDb (ex_tables rows) faults, w).

Example ex_served :
  let s := (ex_serve [] ex_rows ex_world).2 in
  (fst <$> seen s.2 ex_ns) = Some {["a" := "2"]} /\
  (q_result <$> t_requests (Postgres.data s.1) !! "r1") = Some (Some (RExec 1)) /\
  (q_result <$> t_requests (Postgres.data s.1) !! "r3") = Some (Some (failure KUnavailable "the database is deleted")) /\
  (q_result <$> t_requests (Postgres.data s.1) !! "r0") = Some (Some (RExec 7)).
Proof. vm_compute. repeat split. Qed.

Lemma requests_served_witness : exists k, (k <= 3)%nat /\
  (ex_serve [] ex_rows ex_world).2.2 = (serve_list id ex_sha ex_cfg 1000 ex_decode (fun _ => "now") (take k (select_pending (ex_tables ex_rows))) ex_world).2.
Proof.
  assert (E := surjective_pairing (ex_serve [] ex_rows ex_world)).
  destruct (requests_served _ _ _ _ _ _ _ _ _ _ E) as (k & j & Hk & _ & Hw & _).
  exists k. split; [exact Hk|exact Hw].
Defined.

(** A request can run twice: when the update of its row fails, the row is
    still pending, and the next turn runs the request again, over what was
    written in between. *)
Theorem request_runs_twice :
  let rows := [("r1", mkRequestRow ex_ns "put a 1" 1 None)] in
  let '(r1, (pg1, w1)) := ex_serve [Works; Fails "connection closed"] rows ex_world in
  let w2 := (ex_submit (ex_put "a" "2") w1).2 in
  let '(r2, (pg2, w3)) := serve_pending (D := tiny_data) id ex_sha ex_cfg 1000 ex_decode (fun _ => "now") (fun _ => false) (pg1, w2) in
  r1 = Err "connection closed" /\ (fst <$> seen w1 ex_ns) = Some {["a" := "1"]} /\ (fst <$> seen w2 ex_ns) = Some {["a" := "2"]} /\
  r2 = Ok tt /\ (fst <$> seen w3 ex_ns) = Some {["a" := "1"]}.
Proof. vm_compute. repeat split. Qed.

(** Tables with a purge, and a sweep over them. *)
Definition ex_purge (p : gmap Z (string * option string)) (w : world) :
  Postgres.Db (tables (J := string)) * (world (St := mem_store) (Ix := PgIndex text_uuid) * Registry) :=
  (Postgres.mkDb (mkTables ∅ ∅ p ∅ ∅ []) [], (w, registry_default)).

Definition ex_sweep := clean_up (D := tiny_data) (St := mem_store) (Ix := PgIndex text_uuid) (J := string) (fun _ m => m) 0.

Lemma dotless_check (w : world (St := mem_store) (Ix := PgIndex text_uuid)) :
  forallb (fun x : string * Handle => negb (contains_char "." x.1)) (map_to_list (w_dbs w)) = true -> dotless_dbs w.
Proof.
  intros Hall id h Hh. apply elem_of_map_to_list in Hh. rewrite forallb_forall in Hall.
  apply list_elem_of_In in Hh. by apply Hall, negb_true_iff in Hh.
Qed.

Lemma purged_files_gone_witness :
  files_at ex_ns (ex_sweep (ex_purge {[1 := (ex_ns, None)]} ex_written)).2.2.1 = mkDbFiles None None None.
Proof.
  refine (proj1 (purged_files_gone (fun _ m => m) 0 (ex_purge {[1 := (ex_ns, None)]} ex_written) _ _ 1 ex_ns ex_uuid
    _ (surjective_pairing _) _ _ _)).
  - apply dotless_check. vm_compute. reflexivity.
  - vm_compute. reflexivity.
  - vm_compute. reflexivity.
  - vm_compute. reflexivity.
Defined.

(** A thousand snapshots, and a database whose files could go. *)
Definition ex_stuck : gmap Z (string * option string) :=
  <[2000 := (ex_ns, None)]> (list_to_map ((fun i => (i, ("x", Some "k"))) <$> seqZ 0 1000)).

Definition ex_no_archive : world := set_archive None ex_written.

Lemma stuck_rows_starve_witness :
  t_purge (Postgres.data (ex_sweep (ex_purge ex_stuck ex_no_archive)).2.1) !! 2000 = Some (ex_ns, None).
Proof.
  assert (Hd : dotless_dbs ex_no_archive) by (apply dotless_check; vm_compute; reflexivity).
  assert (Hl : Forall (fun p => p_key p <> None) (purge_rows ex_stuck)).
  { assert (Hb : forallb (fun p => match p_key p with Some _ => true | None => false end) (purge_rows ex_stuck) = true)
      by (vm_compute; reflexivity).
    apply Forall_forall. intros p Hp. rewrite forallb_forall in Hb. apply list_elem_of_In, Hb in Hp. by destruct (p_key p). }
  assert (Hs : sweep (D := tiny_data) (J := string) (fun _ m => m) (ex_purge ex_stuck ex_no_archive) (ex_sweep (ex_purge ex_stuck ex_no_archive)).2)
    by (exists 0, (ex_sweep (ex_purge ex_stuck ex_no_archive)).1; apply surjective_pairing).
  rewrite (stuck_rows_starve (fun _ m => m) (ex_purge ex_stuck ex_no_archive) _ Hd eq_refl Hl (rtc_once _ _ Hs)).
  vm_compute. reflexivity.
Defined.
