(* ===== verification/Database.v ===== *)
(** * SQL for workers (src/src/services/database.rs)

    The pools of guest databases, the schema a query of the platform runs in,
    the JSON wrapper of a query and the binding of its parameters. The parser
    of connection strings, the resolver and what a statement does are
    parameters. *)

From Stdlib Require Import SpecFloat.
From S2P Require Import Prelude RustStr Extern Postgres NetGuard D1Sql.

Inductive QueryMode : Type := Select | ReturningMutation | Mutation.

(** [postgate::ParsedQuery]. *)
Record ParsedQuery := mkParsed { returns_rows : bool; is_select : bool }.

Definition from_parsed (p : ParsedQuery) : QueryMode :=
  if negb (returns_rows p) then Mutation else if is_select p then Select else ReturningMutation.

(** [None]: a mutation is not wrapped, the process panics. *)
Definition wrap_query_as_json (sql : string) (mode : QueryMode) : option string :=
  let trimmed := trim_end_matches ";" (trim sql) in
  match mode with
  | Select => Some ("SELECT COALESCE(jsonb_agg(row_to_json(t)), '[]'::jsonb) as result FROM (" +:+ trimmed +:+ ") t")
  | ReturningMutation => Some ("WITH t AS (" +:+ trimmed +:+
      ") SELECT COALESCE(jsonb_agg(row_to_json(t)), '[]'::jsonb) as result FROM t")
  | Mutation => None
  end.

(** ** Parameters *)

Inductive SqlParam : Type := Primitive (p : SqlPrimitive) | SqlArray (l : list SqlPrimitive).

(** What is bound to a query. *)
Inductive PgValue : Type :=
| PgText (s : option string) | PgBool (b : bool) | PgInt (z : Z) | PgFloat (f : spec_float) | PgBytes (b : string)
| PgBools (l : list (option bool)) | PgInts (l : list (option Z)) | PgFloats (l : list (option spec_float))
| PgBytesArray (l : list (option string)) | PgTexts (l : list (option string)).

Inductive ArrayType : Type := ABool | AInt | AFloat | AString | ABytes.

Section bind.
(** The decimal text of a float, a 64-bit integer as a float, the debug text of
    a primitive, and whether the parameter is cast in the query. *)
Variable float_text : spec_float -> string.
Variable int_as_float : Z -> spec_float.
Variable debug_text : SqlPrimitive -> string.
Variable has_explicit_cast : string -> nat -> bool.

Definition bind_sql_primitive (p : SqlPrimitive) (sql : string) (param_idx : nat) : PgValue :=
  match p with
  | PNull => PgText None
  | PBool b => PgBool b
  | PInt i => if has_explicit_cast sql param_idx then PgText (Some (show_Z i)) else PgInt i
  | PFloat f => if has_explicit_cast sql param_idx then PgText (Some (float_text f)) else PgFloat f
  | PString s => PgText (Some s)
  | PBytes b => PgBytes b
  end.

Definition array_type (p : SqlPrimitive) : option ArrayType :=
  match p with
  | PNull => None
  | PBool _ => Some ABool
  | PInt _ => Some AInt
  | PFloat _ => Some AFloat
  | PString _ => Some AString
  | PBytes _ => Some ABytes
  end.

Definition bind_sql_param (p : SqlParam) (sql : string) (param_idx : nat) : PgValue :=
  match p with
  | Primitive p => bind_sql_primitive p sql param_idx
  | SqlArray arr =>
    match find_map array_type arr with
    | Some ABool => PgBools (map (fun p => match p with PBool b => Some b | _ => None end) arr)
    | Some AInt => PgInts (map (fun p => match p with PInt i => Some i | _ => None end) arr)
    | Some AFloat => PgFloats (map (fun p => match p with
        | PFloat f => Some f | PInt i => Some (int_as_float i) | _ => None end) arr)
    | Some ABytes => PgBytesArray (map (fun p => match p with PBytes b => Some b | _ => None end) arr)
    | Some AString | None => PgTexts (map (fun p => match p with
        | PString s => Some s | PNull => None | p => Some (debug_text p) end) arr)
    end
  end.

(** The values bound to a query, numbered from 1. *)
Definition bind_all (sql : string) (params : list SqlParam) : list PgValue :=
  imap (fun i p => bind_sql_param p sql (S i)) params.

(** The elements of a bound array that are NULL. *)
Definition missing {A} (l : list (option A)) : nat :=
  length (List.filter (fun o => match o with None => true | Some _ => false end) l).

Definition bound_nulls (v : PgValue) : nat :=
  match v with
  | PgBools l => missing l
  | PgInts l => missing l
  | PgFloats l => missing l
  | PgBytesArray l => missing l
  | PgTexts l => missing l
  | _ => 0%nat
  end.

Definition is_null (p : SqlPrimitive) : bool := match p with PNull => true | _ => false end.

(** The elements of one type, or integers among floats. *)
Definition same_type (t : ArrayType) (p : SqlPrimitive) : Prop :=
  array_type p = None \/ array_type p = Some t \/ (t = AFloat /\ array_type p = Some AInt).

Lemma missing_map {A} (f : SqlPrimitive -> option A) arr :
  Forall (fun p => f p = None <-> is_null p = true) arr ->
  missing (map f arr) = length (List.filter is_null arr).
Proof.
  unfold missing. induction 1 as [|p arr Hp _ IH]; simpl; [done|].
  destruct (f p) eqn:E, (is_null p) eqn:En; simpl; rewrite ?IH; try done; naive_solver.
Qed.

(** An array of one type, with NULLs, is bound element by element: none is
    lost and none becomes NULL, integers among floats are bound as floats when
    a float comes first. *)
Theorem array_kept arr sql i t : find_map array_type arr = Some t -> Forall (same_type t) arr ->
  bound_nulls (bind_sql_param (SqlArray arr) sql i) = length (List.filter is_null arr) /\
  match t, bind_sql_param (SqlArray arr) sql i with
  | ABool, PgBools l => length l = length arr
  | AInt, PgInts l => length l = length arr
  | AFloat, PgFloats l => length l = length arr
  | AString, PgTexts l => length l = length arr
  | ABytes, PgBytesArray l => length l = length arr
  | _, _ => False
  end.
Proof.
  intros Ht Hs. unfold bind_sql_param. rewrite Ht.
  destruct t; simpl; rewrite length_map; (split; [|done]); apply missing_map;
    (eapply Forall_impl; [exact Hs|]); intros p Hp; unfold same_type in Hp; destruct p; simpl in *; naive_solver.
Qed.

(** An array of numbers loses those that are not whole when a whole one
    comes first: each is bound as NULL. *)
Theorem mixed_array_loses_values f z sql i :
  bind_sql_param (SqlArray [PInt z; PFloat f]) sql i = PgInts [Some z; None] /\
  bind_sql_param (SqlArray [PFloat f; PInt z]) sql i = PgFloats [Some f; Some (int_as_float z)].
Proof. by split. Qed.
End bind.

(** ** Identifiers *)

Definition dquote : ascii := ascii_of_nat 34.

(** [replace] of a quote by two. *)
Fixpoint double_quotes (s : string) : string :=
  match s with
  | EmptyString => EmptyString
  | String c s => if Ascii.eqb c dquote then String dquote (String dquote (double_quotes s)) else String c (double_quotes s)
  end.

Definition set_search_path (schema_name : string) : string :=
  "SET LOCAL search_path TO " +:+ String dquote (double_quotes schema_name +:+ String dquote "").

(** Every quote of the text is one of a pair. *)
Fixpoint quotes_paired (s : string) : bool :=
  match s with
  | EmptyString => true
  | String c rest =>
    if Ascii.eqb c dquote then
      match rest with String d rest' => Ascii.eqb d dquote && quotes_paired rest' | EmptyString => false end
    else quotes_paired rest
  end.

Lemma double_quotes_paired s : quotes_paired (double_quotes s) = true.
Proof.
  induction s as [|c s IH]; [done|]. cbn [double_quotes].
  destruct (Ascii.eqb_spec c dquote) as [->|Hne]; simpl; [done|]. by destruct (Ascii.eqb_spec c dquote).
Qed.

Lemma double_quotes_inj a b : double_quotes a = double_quotes b -> a = b.
Proof.
  revert b. induction a as [|c a IH]; intros [|d b]; cbn [double_quotes]; [done|by destruct (Ascii.eqb d dquote)|by destruct (Ascii.eqb c dquote)|].
  destruct (Ascii.eqb_spec c dquote) as [->|Hc], (Ascii.eqb_spec d dquote) as [->|Hd]; intros [=]; simplify_eq; f_equal; auto.
Qed.

Lemma set_search_path_inj a b : set_search_path a = set_search_path b -> a = b.
Proof.
  unfold set_search_path. cbn. intros E. repeat (injection E as E).
  apply (f_equal (strip_suffix (String dquote ""))) in E. rewrite !strip_suffix_app in E.
  apply double_quotes_inj. by injection E.
Qed.

(** ** Queries *)

Section execute.
Context {D Path Row Json : Type}.
Variable float_text : spec_float -> string.
Variable int_as_float : Z -> spec_float.
Variable debug_text : SqlPrimitive -> string.
Variable has_explicit_cast : string -> nat -> bool.
(** What Postgres makes of a SET LOCAL statement: the search path of the rest
    of the transaction. *)
Variable set_local : string -> D -> result Path string.
(** What Postgres does with a statement under a search path: its one row, or
    the rows affected. *)
Variable fetch_one : Path -> string -> list PgValue -> D -> result (Row * D) string.
Variable execute : Path -> string -> list PgValue -> D -> result (Z * D) string.
(** [Row::try_get] of the column of the result, and [serde_json::to_string]. *)
Variable try_get : Row -> result Json string.
Variable to_string : Json -> result string string.

Local Abbreviation bound := (bind_all float_text int_as_float debug_text has_explicit_cast).

Definition rows_affected (n : Z) : string :=
  "{" +:+ String dquote ("rowsAffected" +:+ String dquote (":" +:+ show_Z n +:+ "}")).

(** In a pool or in a transaction alike. *)
Definition execute_json_query (path : Path) (wrapped sql : string) (params : list SqlParam) : SE (Db D) string string :=
  row ← with_error (fun e => "Query execution failed: " +:+ e) (Postgres.query (fetch_one path wrapped (bound sql params)));
  result ← lift (result_map_err (fun e => "Failed to get result: " +:+ e) (try_get row));
  lift (result_map_err (fun e => "Failed to serialize result: " +:+ e) (to_string result)).

Definition execute_mutation (path : Path) (sql : string) (params : list SqlParam) : SE (Db D) string string :=
  affected ← with_error (fun e => "Query execution failed: " +:+ e) (Postgres.query (execute path sql (bound sql params)));
  mret (rows_affected affected).

Definition execute_query (path : Path) (sql : string) (params : list SqlParam) (mode : QueryMode) : SE (Db D) string string :=
  match wrap_query_as_json sql mode with
  | Some wrapped => execute_json_query path wrapped sql params
  | None => execute_mutation path sql params
  end.

Definition execute_with_schema (schema_name sql : string) (params : list SqlParam) (mode : QueryMode) :
  SE (Db D) string string := fun s =>
  match with_error (fun e => "Failed to start transaction: " +:+ e) (Postgres.query (fun d => Ok (tt, d))) s with
  | (Err e, s1) => (Err e, s1)
  | (Ok _, s1) =>
    let body : SE (Db D) string string :=
      path ← with_error (fun e => "Failed to set search_path: " +:+ e)
        (Postgres.query (fun d => path <-? set_local (set_search_path schema_name) d; Ok (path, d)));
      execute_query path sql params mode in
    match body s1 with
    | (Err e, s2) => (Err e, mkDb (Postgres.data s1) (Postgres.faults s2))
    | (Ok r, s2) =>
      match with_error (fun e => "Failed to commit transaction: " +:+ e)
        (Postgres.query (fun _ => Ok (tt, Postgres.data s2))) (mkDb (Postgres.data s1) (Postgres.faults s2)) with
      | (Err e, s3) => (Err e, s3)
      | (Ok _, s3) => (Ok r, s3)
      end
    end
  end.

(** ** What a query means *)

(** The answer of a query and the tables after it, with nothing failing on the
    way. *)
Definition query_result (path : Path) (sql : string) (params : list SqlParam) (mode : QueryMode) (d : D) :
  result (string * D) string :=
  match wrap_query_as_json sql mode with
  | Some wrapped =>
    row <-? fetch_one path wrapped (bound sql params) d;
    json <-? try_get row.1;
    text <-? to_string json;
    Ok (text, row.2)
  | None => affected <-? execute path sql (bound sql params) d; Ok (rows_affected affected.1, affected.2)
  end.

Lemma query_Ok {A} (f : string -> string) (run : D -> result (A * D) string) s a s' :
  with_error f (Postgres.query run) s = (Ok a, s') -> run (Postgres.data s) = Ok (a, Postgres.data s').
Proof.
  intros (r & E & Hr)%with_error_inv. destruct r as [a'|]; simplify_eq/=.
  apply query_inv in E as [[_ ?]|(a & d & E & <- & [Ha|?])]; [done| |done]. by simplify_eq.
Qed.

Lemma execute_query_Ok path sql params mode s t s' : execute_query path sql params mode s = (Ok t, s') ->
  query_result path sql params mode (Postgres.data s) = Ok (t, Postgres.data s').
Proof.
  unfold execute_query, query_result. destruct (wrap_query_as_json sql mode) as [w|].
  - intros [(row & s1 & E1 & E2)|(e & _ & ?)]%SE_bind_inv; [|done]. rewrite (query_Ok _ _ _ _ _ E1). simpl.
    apply SE_bind_inv in E2 as [(j & s2 & [= E2 <-] & E3)|(e & _ & ?)]; [|done].
    destruct (try_get row) as [j'|]; simplify_eq/=. unfold lift in E3. destruct (to_string j) as [t'|]; by simplify_eq/=.
  - intros [(n & s1 & E1 & [= <- <-])|(e & _ & ?)]%SE_bind_inv; [|done]. by rewrite (query_Ok _ _ _ _ _ E1).
Qed.

(** C40. A query on the platform is all or nothing, and runs under the search
    path of its tenant's statement: whatever fails on the way, reading the row
    or writing its text included, the tables are as they were and the query
    fails, or they are what the query makes of them under the path that
    Postgres set for the statement with that schema's name, and its answer is
    given unless the commit's was lost. In that statement the name stands
    between quotes with each of its own doubled, and the names of two schemas
    never give one statement. *)
Theorem platform_query_atomic schema_name sql params mode s r s' :
  execute_with_schema schema_name sql params mode s = (r, s') ->
  ((Postgres.data s' = Postgres.data s /\ is_ok r = false) \/
   exists path text d, set_local (set_search_path schema_name) (Postgres.data s) = Ok path /\
     query_result path sql params mode (Postgres.data s) = Ok (text, d) /\ Postgres.data s' = d /\
     (r = Ok text \/ exists e, r = Err ("Failed to commit transaction: " +:+ e))) /\
  quotes_paired (double_quotes schema_name) = true /\
  (forall other, set_search_path other = set_search_path schema_name -> other = schema_name).
Proof.
  intros Hrun. split; [|split; [apply double_quotes_paired|intros other; apply set_search_path_inj]]. revert Hrun.
  unfold execute_with_schema.
  destruct (with_error _ (Postgres.query (fun d => Ok (tt, d))) s) as [r1 s1] eqn:E1.
  assert (H1 : Postgres.data s1 = Postgres.data s).
  { apply with_error_inv in E1 as (r0 & E1 & ->). apply query_inv in E1. naive_solver. }
  destruct r1 as [[]|e0]; [|intros [= <- <-]; by left].
  cbv zeta. match goal with |- context [match ?b s1 with (_, _) => _ end] => destruct (b s1) as [r2 s2] eqn:E2 end.
  destruct r2 as [text|e2]; [|intros [= <- <-]; by left].
  apply SE_bind_inv in E2 as [(path & s3 & E3 & E2)|(e & _ & ?)]; [|done].
  apply query_Ok in E3. apply execute_query_Ok in E2.
  destruct (set_local _ (Postgres.data s1)) as [path'|] eqn:El; [|done]. injection E3 as -> E3.
  rewrite <- E3 in E2. rewrite H1 in El, E2.
  destruct (with_error _ _ (mkDb _ _)) as [r5 s5] eqn:E5. apply with_error_inv in E5 as (r6 & E5 & ->).
  apply query_inv in E5 as [[H5 Hr]|(a3 & d3 & E7 & H5 & Hr)].
  - destruct r6; [done|]. cbn. intros [= <- <-]. left. split; [|done]. by rewrite H5.
  - injection E7 as <- <-.
    destruct r6 as [|e6]; cbn; intros [= <- <-]; right; exists path, text, (Postgres.data s2); split_and!; try done;
      [by left|right; by exists e6].
Qed.
End execute.

(** ** Pools of guest databases *)

Definition MAX_GUEST_POOLS : nat := 256.

(** [PgConnectOptions]: the socket, the host and the port. *)
Record Options := mkOptions { po_socket : option string; po_host : string; po_port : Z }.

Section pools.
Context {C : Type} `{!Lru string nat C}.
Variable ip_to_string : IpAddr -> string.
Variable env : string -> option string.
Variable parse_options : string -> result Options string.
(** What the resolver answers, from one moment to the next. *)
Variable resolver : nat -> string -> Z -> result (list IpAddr) string.

(** A query that asks for its pool: before, past the first look with the check
    of the host to do, past the check with the moment it was made at, and with
    its pool. *)
Inductive caller : Type :=
| CIdle (cs : string)
| CChecks (cs : string) (o : Options)
| CChecked (cs : string) (o : Options) (at_ : nat)
| CHas (cs : string) (r : result nat string).

(** The moment; the cache; each pool ever made, by its number, with its
    connection string and the moment its host was checked at; the pools whose
    task is to close them, and those that are closed; the callers. *)
Record pools := mkPools {
  moment : nat; cache : C; made : list (string * nat); closing : list nat; closed : list nat; callers : list caller }.

Definition set_caller (i : nat) (c : C) (x : caller) (s : pools) : pools :=
  mkPools (moment s) c (made s) (closing s) (closed s) (<[i := x]> (callers s)).

(** Up to the check of the host. *)
Definition guest_pool_look (i : nat) (cs : string) (s : pools) : pools :=
  match lru_get cs (cache s) with
  | (Some pool, c) => set_caller i c (CHas cs (Ok pool)) s
  | (None, c) =>
    match parse_options cs with
    | Err e => set_caller i c (CHas cs (Err ("Invalid connection string: " +:+ e))) s
    | Ok o =>
      match po_socket o with
      | Some _ => set_caller i c (CHas cs (Err "Database connection failed: a Unix socket is not allowed")) s
      | None => set_caller i c (CChecks cs o) s
      end
    end
  end.

(** The answer of the resolver. *)
Definition guest_pool_check (i : nat) (cs : string) (o : Options) (s : pools) : pools :=
  match guard_tcp_host ip_to_string (resolver (moment s)) env (po_host o) (po_port o) with
  | Err e => set_caller i (cache s) (CHas cs (Err ("Database connection failed: " +:+ e))) s
  | Ok _ => set_caller i (cache s) (CChecked cs o (moment s)) s
  end.

(** Under the lock. The pool that leaves the cache gets a task that closes
    it. *)
Definition guest_pool_make (i : nat) (cs : string) (at_ : nat) (s : pools) : pools :=
  match lru_get cs (cache s) with
  | (Some pool, c) => set_caller i c (CHas cs (Ok pool)) s
  | (None, c) =>
    let pool := length (made s) in
    let '(evicted, c) := lru_push cs pool c in
    mkPools (moment s) c (made s ++ [(cs, at_)]) (match evicted with Some (_, p) => closing s ++ [p] | None => closing s end)
      (closed s) (<[i := CHas cs (Ok pool)]> (callers s))
  end.

Inductive pool_step : pools -> pools -> Prop :=
| PAsk cs s : pool_step s (mkPools (moment s) (cache s) (made s) (closing s) (closed s) (callers s ++ [CIdle cs]))
| PLook i cs s : callers s !! i = Some (CIdle cs) -> pool_step s (guest_pool_look i cs s)
| PCheck i cs o s : callers s !! i = Some (CChecks cs o) -> pool_step s (guest_pool_check i cs o s)
| PMake i cs o at_ s : callers s !! i = Some (CChecked cs o at_) -> pool_step s (guest_pool_make i cs at_ s)
| PClose p s : p ∈ closing s ->
    pool_step s (mkPools (moment s) (cache s) (made s) (closing s) (p :: closed s) (callers s))
| PTime s : pool_step s (mkPools (S (moment s)) (cache s) (made s) (closing s) (closed s) (callers s)).

Definition pools_new : pools := mkPools 0 (lru_new MAX_GUEST_POOLS) [] [] [] [].

(** What the resolver answered for the host at the moment [at_] were public
    addresses only, unless the guard is off. *)
Definition public_at (o : Options) (at_ : nat) : Prop :=
  ALLOW_PRIVATE_NETWORK env = true \/
  exists addrs, resolver at_ (po_host o) (po_port o) = Ok addrs /\ Forall (fun a => ip_is_public a = true) addrs.

(** The connection string names no Unix socket, and its host was public. *)
Definition checked (pool : string * nat) : Prop :=
  exists o, parse_options pool.1 = Ok o /\ po_socket o = None /\ public_at o pool.2.

Lemma guard_public o n : guard_tcp_host ip_to_string (resolver n) env (po_host o) (po_port o) = Ok tt -> public_at o n.
Proof.
  unfold guard_tcp_host, public_at. destruct (ALLOW_PRIVATE_NETWORK env); [by left|]. right.
  destruct (resolver n _ _) as [addrs|e]; simpl in *; [|done]. exists addrs. split; [done|]. by eapply check_addrs_Ok.
Qed.

Definition caller_ok (s : pools) (x : caller) : Prop :=
  match x with
  | CIdle _ => True
  | CChecks cs o => parse_options cs = Ok o /\ po_socket o = None
  | CChecked cs o n => parse_options cs = Ok o /\ po_socket o = None /\ public_at o n /\ (n <= moment s)%nat
  | CHas cs (Ok p) => exists n, made s !! p = Some (cs, n)
  | CHas _ (Err _) => True
  end.

Definition pool_ok (s : pools) (pool : string * nat) : Prop := checked pool /\ (pool.2 <= moment s)%nat.

Record pools_inv (s : pools) : Prop := mkPoolsInv {
  pi_lru : lru_ok (cache s);
  pi_cap : lru_cap (cache s) = MAX_GUEST_POOLS;
  pi_made : Forall (pool_ok s) (made s);
  pi_entries : Forall (fun kp => (exists n, made s !! kp.2 = Some (kp.1, n)) /\ kp.2 ∉ closing s) (lru_entries (cache s));
  pi_closing : Forall (fun p => (p < length (made s))%nat) (closing s);
  pi_closed : Forall (fun p => p ∈ closing s) (closed s);
  pi_rest : forall p, (p < length (made s))%nat -> p ∈ closing s \/ p ∈ (lru_entries (cache s)).*2;
  pi_callers : Forall (caller_ok s) (callers s) }.

Lemma inv_set_caller i cs v c x s : pools_inv s -> lru_get cs (cache s) = (v, c) -> caller_ok s x ->
  pools_inv (set_caller i c x s) /\ v = assoc cs (lru_entries (cache s)).
Proof.
  intros [H1 H2 H3 H4 H5 H5' H6 H7] E Hx. destruct (lru_get_spec _ _ _ _ H1 E) as (Hok & Hcap & -> & He).
  destruct (lru_ok_wf _ H1) as (Hnd & _ & _). pose proof (touch_perm cs _ Hnd) as Hp. rewrite <- He in Hp.
  split; [|done]. split; simpl; try done; [congruence|by rewrite Hp| |by apply Forall_insert].
  intros p Hlt. rewrite Hp. by apply H6.
Qed.

Lemma inv_same_cache i x s : pools_inv s -> caller_ok s x -> pools_inv (set_caller i (cache s) x s).
Proof. intros [H1 H2 H3 H4 H5 H5' H6 H7] Hx. split; simpl; try done. by apply Forall_insert. Qed.

Lemma found_ok cs pool s : pools_inv s -> assoc cs (lru_entries (cache s)) = Some pool -> exists n, made s !! pool = Some (cs, n).
Proof. intros Hi E%assoc_In. pose proof (pi_entries _ Hi) as Hf. rewrite Forall_forall in Hf. apply (Hf _ E). Qed.

Lemma inv_look i cs s : pools_inv s -> pools_inv (guest_pool_look i cs s).
Proof.
  intros Hi. unfold guest_pool_look. destruct (lru_get cs (cache s)) as [[pool|] c] eqn:E.
  - destruct (inv_set_caller i cs _ _ (CHas cs (Err "")) s Hi E I) as [_ Ha]. symmetry in Ha.
    eapply inv_set_caller; [done|exact E|]. by apply found_ok.
  - destruct (parse_options cs) as [o|e] eqn:Ep; [|by eapply inv_set_caller].
    destruct (po_socket o) eqn:Es; by eapply inv_set_caller.
Qed.

Lemma inv_check i cs o s : pools_inv s -> callers s !! i = Some (CChecks cs o) -> pools_inv (guest_pool_check i cs o s).
Proof.
  intros Hi Hc. unfold guest_pool_check. destruct (guard_tcp_host _ _ _ _ _) as [[]|e] eqn:Eg; apply inv_same_cache; try done.
  destruct (Forall_lookup_1 _ _ _ _ (pi_callers _ Hi) Hc) as [Hp Hs]. split_and!; [done..|by apply guard_public|done].
Qed.

(** The pool [cs] is added to a cache without it. *)
Lemma inv_pool_added i cs n s c' evicted : pools_inv s -> assoc cs (lru_entries (cache s)) = None -> pool_ok s (cs, n) ->
  lru_push cs (length (made s)) (cache s) = (evicted, c') ->
  pools_inv (mkPools (moment s) c' (made s ++ [(cs, n)])
    (match evicted with Some (_, p) => closing s ++ [p] | None => closing s end) (closed s)
    (<[i := CHas cs (Ok (length (made s)))]> (callers s))).
Proof.
  intros [H1 H2 H3 H4 H5 H5' H6 H7] Ha Hck Ep. set (m := made s) in *.
  assert (Hnew : (m ++ [(cs, n)]) !! length m = Some (cs, n)) by (rewrite lookup_app_r, Nat.sub_diag; done).
  assert (Hkeep : forall p v, m !! p = Some v -> (m ++ [(cs, n)]) !! p = Some v) by (intros; by apply lookup_app_l_Some).
  assert (Hfresh : length m ∉ closing s) by (rewrite Forall_forall in H5; intros ?%H5; lia).
  assert (Hlt : forall p, (p < length (m ++ [(cs, n)]))%nat -> p = length m \/ (p < length m)%nat)
    by (intros p; rewrite length_app; simpl; lia).
  assert (Hgrow : forall l, Forall (fun p => (p < length m)%nat) l -> Forall (fun p => (p < length (m ++ [(cs, n)]))%nat) l).
  { intros l Hl. eapply Forall_impl; [exact Hl|]. intros p. rewrite length_app. simpl. lia. }
  assert (Hmade : Forall (pool_ok s) (m ++ [(cs, n)])) by (apply Forall_app; split; [done|by constructor]).
  assert (Hcallers : forall s', moment s' = moment s -> made s' = m ++ [(cs, n)] ->
    Forall (caller_ok s') (<[i := CHas cs (Ok (length m))]> (callers s))).
  { intros s' Em Es. apply Forall_insert; [|simpl; rewrite Es; by exists n]. eapply Forall_impl; [exact H7|].
    intros x. destruct x as [| | |? []]; simpl; rewrite ?Em, ?Es; try done. intros [k Hk]. exists k. by apply Hkeep. }
  assert (Hnd : NoDup (lru_entries (cache s)).*1) by (by apply lru_ok_wf).
  destruct (lru_push_spec _ _ _ _ _ H1 Ep) as (Hok & Hcap & Hs). rewrite Ha in Hs. destruct (_ <? _)%nat.
  - destruct Hs as [-> Hs]. split; simpl; rewrite ?Hs; try done; [congruence| |by apply Hgrow| |by apply Hcallers].
    + constructor; [split; [by exists n|done]|]. eapply Forall_impl; [exact H4|]. intros kp [[k Hk] Hn]. split; [exists k; by apply Hkeep|done].
    + intros p [->|Hp]%Hlt; [right; rewrite fmap_cons; left|]. destruct (H6 p Hp); [by left|right; rewrite fmap_cons; by right].
  - destruct Hs as (front & [k p0] & Hf & -> & Hs). rewrite Hf in *.
    apply Forall_app in H4 as [Hfront [[[n0 Hk] Hkn] _]%Forall_cons]. simpl in Hk, Hkn.
    split; simpl; rewrite ?Hs; try done; [congruence| | | | |by apply Hcallers].
    + constructor.
      { simpl. split; [by exists n|]. rewrite elem_of_app, list_elem_of_singleton. intros [?|E]; [done|].
        apply lookup_lt_Some in Hk. lia. }
      rewrite Forall_forall in Hfront |- *. intros [k' p'] Hin. destruct (Hfront _ Hin) as [[n' Hm] Hn]. simpl in *.
      split; [exists n'; by apply Hkeep|]. rewrite elem_of_app, list_elem_of_singleton. intros [?| ->]; [done|].
      rewrite Hm in Hk. simplify_eq. rewrite fmap_app in Hnd. apply NoDup_app in Hnd as (_ & Hnd & _).
      apply (Hnd k); [apply list_elem_of_fmap; by exists (k, p0)|by left].
    + apply Hgrow, Forall_app. split; [done|]. constructor; [by eapply lookup_lt_Some|done].
    + eapply Forall_impl; [exact H5'|]. intros p Hp. apply elem_of_app. by left.
    + intros p [->|Hp]%Hlt; [right; rewrite fmap_cons; left|]. destruct (H6 p Hp) as [|Hin]; [left; set_solver|].
      rewrite fmap_app in Hin. apply elem_of_app in Hin as [Hin|Hin]; [right; rewrite fmap_cons; by right|].
      left. apply elem_of_app. right. exact Hin.
Qed.

Lemma inv_make i cs o n s : pools_inv s -> callers s !! i = Some (CChecked cs o n) -> pools_inv (guest_pool_make i cs n s).
Proof.
  intros Hi Hc. unfold guest_pool_make.
  destruct (Forall_lookup_1 _ _ _ _ (pi_callers _ Hi) Hc) as (Hp & Hs & Hpub & Hn).
  destruct (lru_get cs (cache s)) as [v c] eqn:E.
  destruct (inv_set_caller i cs _ _ (CHas cs (Err "")) s Hi E I) as [Hi' Ha]. symmetry in Ha. destruct v as [pool|].
  { eapply inv_set_caller; [done|exact E|]. by apply found_ok. }
  destruct (lru_get_spec _ _ _ _ (pi_lru _ Hi) E) as (_ & _ & _ & He). unfold touch in He. rewrite Ha in He.
  destruct (lru_push cs (length (made s)) c) as [evicted c'] eqn:Ep.
  assert (Hi2 : pools_inv (mkPools (moment s) c (made s) (closing s) (closed s) (callers s))).
  { destruct Hi'. split; try done. apply (pi_callers _ Hi). }
  apply (inv_pool_added i cs n _ c' evicted Hi2); [by rewrite <- He in Ha| |done]. split; [|done]. by exists o.
Qed.

Lemma inv_pool_step s s' : pool_step s s' -> pools_inv s -> pools_inv s'.
Proof.
  destruct 1 as [cs s|i cs s Hc|i cs o s Hc|i cs o n s Hc|p s Hp|s]; intros Hi.
  - destruct Hi. split; try done. simpl. apply Forall_app. split; [done|by constructor].
  - by apply inv_look.
  - by apply inv_check.
  - by eapply inv_make.
  - destruct Hi. split; try done. simpl. by constructor.
  - destruct Hi. split; try done; simpl; (eapply Forall_impl; [eassumption|]).
    + intros x [? ?]. split; [done|]. simpl in *. lia.
    + intros x. destruct x as [| | |? []]; simpl; try done. intros (? & ? & ? & ?). split_and!; [done..|lia].
Qed.

Lemma pools_inv_reachable s : rtc pool_step pools_new s -> pools_inv s.
Proof.
  apply (rtc_invariant pool_step pools_inv); [by intros; eapply inv_pool_step|].
  destruct (lru_new_ok (C := C) MAX_GUEST_POOLS) as (H1 & H2 & H3); [unfold MAX_GUEST_POOLS; lia|].
  split; simpl; rewrite ?H2; try done. intros p Hp. simpl in Hp. lia.
Qed.

(** C37. A query with its own connection string runs on a pool made for that
    very string. Before the pool was made, the string was read and names no
    Unix socket, and the resolver's answer for its host at that moment held
    public addresses only, unless the guard is off; this however many queries
    ask at once, and whatever the resolver answers later. At most
    [MAX_GUEST_POOLS] pools are in the cache; a pool that left it, and no
    other, is closed or has a task that will close it. *)
Theorem guest_pools_guarded s : rtc pool_step pools_new s ->
  (forall i cs pool, callers s !! i = Some (CHas cs (Ok pool)) ->
     exists at_ o, made s !! pool = Some (cs, at_) /\ (at_ <= moment s)%nat /\ parse_options cs = Ok o /\ po_socket o = None /\
       (ALLOW_PRIVATE_NETWORK env = false -> exists addrs, resolver at_ (po_host o) (po_port o) = Ok addrs /\
          Forall (fun a => ip_is_public a = true) addrs)) /\
  (length (lru_entries (cache s)) <= MAX_GUEST_POOLS)%nat /\
  (forall p, (p < length (made s))%nat -> p ∈ closing s <-> p ∉ (lru_entries (cache s)).*2) /\
  (forall p, p ∈ closed s -> p ∈ closing s).
Proof.
  intros [H1 H2 H3 H4 H5 H5' H6 H7]%pools_inv_reachable. split_and!.
  - intros i cs pool Hc. destruct (Forall_lookup_1 _ _ _ _ H7 Hc) as [n Hn].
    destruct (Forall_lookup_1 _ _ _ _ H3 Hn) as [(o & Hp & Hs & Hpub) Hle]. exists n, o. split_and!; try done.
    intros Hg. destruct Hpub as [?|?]; [congruence|done].
  - rewrite <- H2. by apply lru_ok_wf.
  - intros p Hp. split.
    + intros Hc ([k q] & -> & Hin)%list_elem_of_fmap. rewrite Forall_forall in H4. by apply (H4 _ Hin).
    + intros Hn. by destruct (H6 p Hp).
  - intros p Hp. rewrite Forall_forall in H5'. by apply H5'.
Qed.
End pools.

(** ** Examples *)

Lemma array_kept_witness :
  bound_nulls (bind_sql_param (fun _ => "") (fun _ => S754_nan) (fun _ => "") (fun _ _ => false) (SqlArray [PNull; PInt 1; PInt 2]) "" 1) = 1%nat.
Proof.
  refine (proj1 (array_kept (fun _ => "") (fun _ => S754_nan) (fun _ => "") (fun _ _ => false)
    [PNull; PInt 1; PInt 2] "" 1 AInt eq_refl _)).
  constructor; [by left|]. repeat (constructor; [by right; left|]). constructor.
Defined.

(** Tables whose search path is the statement that set it; a query writes its
    text under its path. *)
Definition ex_fetch (path sql : string) (values : list PgValue) (d : gmap string string) :
  result (string * gmap string string) string := Ok ("[]", <[path := sql]> d).

Definition ex_run : result string string * Db (gmap string string) :=
  execute_with_schema (fun _ => "") (fun _ => S754_nan) (fun _ => "") (fun _ _ => false) (fun stmt _ => Ok stmt) ex_fetch
    (fun _ _ _ d => Ok (0, d)) Ok Ok "tenant" "SELECT 1" [] Select (mkDb ∅ []).

Lemma platform_query_atomic_witness :
  exists text, ex_run.1 = Ok text /\ dom (Postgres.data ex_run.2) = {[ set_search_path "tenant" ]}.
Proof.
  destruct (platform_query_atomic (fun _ => "") (fun _ => S754_nan) (fun _ => "") (fun _ _ => false) (fun stmt _ => Ok stmt)
    ex_fetch (fun _ _ _ d => Ok (0, d)) Ok Ok "tenant" "SELECT 1" [] Select (mkDb ∅ []) ex_run.1 ex_run.2 (surjective_pairing ex_run))
    as [[[_ H]|(path & text & d & Ep & E & Hd & [Hr|[e He]])] _].
  - vm_compute in H. discriminate.
  - exists text. split; [exact Hr|]. rewrite Hd. injection Ep as <-. injection E as <- <-. unfold Postgres.data. set_solver.
  - vm_compute in He. discriminate.
Defined.

Definition ex_options (cs : string) : result Options string := Ok (mkOptions None "db.example" 5432).
(** A name that is public at first, and private later. *)
Definition ex_resolver (n : nat) (host : string) (port : Z) : result (list IpAddr) string :=
  Ok [V4 (match n with O => 134744072 | _ => 2130706433 end)].

Definition ex_pools : pools (C := list_lru string nat) :=
  guest_pool_make 0 "a" 0 (guest_pool_check (fun _ => "") (fun _ => None) ex_resolver 0 "a" (mkOptions None "db.example" 5432)
    (guest_pool_look ex_options 0 "a" (mkPools 0 (lru_new MAX_GUEST_POOLS) [] [] [] [CIdle "a"]))).

Lemma ex_pools_reachable : rtc (pool_step (fun _ => "") (fun _ => None) ex_options ex_resolver) pools_new ex_pools.
Proof.
  eapply rtc_l; [apply (PAsk _ _ _ _ "a")|]. eapply rtc_l; [by apply (PLook _ _ _ _ 0 "a")|].
  eapply rtc_l; [by apply (PCheck _ _ _ _ 0 "a" (mkOptions None "db.example" 5432))|].
  eapply rtc_once. by apply (PMake _ _ _ _ 0 "a" (mkOptions None "db.example" 5432) 0).
Qed.

Lemma guest_pools_guarded_witness : callers ex_pools !! 0%nat = Some (CHas "a" (Ok 0%nat)) /\
  exists at_ o addrs, made ex_pools !! 0%nat = Some ("a", at_) /\ ex_resolver at_ (po_host o) (po_port o) = Ok addrs /\
    Forall (fun a => ip_is_public a = true) addrs.
Proof.
  assert (Hc : callers ex_pools !! 0%nat = Some (CHas "a" (Ok 0%nat))) by by vm_compute.
  split; [exact Hc|].
  destruct (proj1 (guest_pools_guarded (fun _ => "") (fun _ => None) ex_options ex_resolver ex_pools ex_pools_reachable)
    0%nat "a" 0%nat Hc) as (n & o & Hm & _ & _ & _ & Hpub).
  destruct (Hpub eq_refl) as (addrs & Ha & Hf). by exists n, o, addrs.
Defined.

(** The check is made once. A name that was public when the pool was made and
    is private now still gives its pool to a query. *)
Theorem pool_outlives_check :
  exists s, rtc (pool_step (C := list_lru string nat) (fun _ => "") (fun _ => None) ex_options ex_resolver) pools_new s /\
    callers s !! 1%nat = Some (CHas "a" (Ok 0%nat)) /\ ~ public_at (fun _ => None) ex_resolver (mkOptions None "db.example" 5432) (moment s).
Proof.
  eexists. split; [|split].
  - etrans; [exact ex_pools_reachable|]. eapply rtc_l; [apply PTime|]. eapply rtc_l; [apply (PAsk _ _ _ _ "a")|].
    eapply rtc_once. by apply (PLook _ _ _ _ 1 "a").
  - by vm_compute.
  - intros [?|(addrs & [= <-] & [Hp _]%Forall_cons)]; [done|]. vm_compute in Hp. done.
Qed.
