(* ===== verification/Ops.v ===== *)
(** * The operations of a worker (src/src/ops.rs)

    The engine calls the runner for each operation of a script: a fetch, a
    binding, the storage of a Durable Object, a socket, a log line. One handle
    serves the requests of a warm isolate; each request swaps the state that
    is its own. An operation is a program whose actions are the points where
    operations of one handle meet: the limiters, the state of the request, the
    statistics, and the call of a service. The step relation interleaves any
    number of operations, with cancellations and new requests. *)

From S2P Require Import Prelude RustStr Extern Limiter NetGuard Url Store DurableRegistry DurableId ObjectStorage Storage Fetch WebSocket DurableSockets Database.

(** ** Bindings by name *)

Record BindingConfigs := mkConfigs {
  bc_assets : gmap string StorageConfig;
  bc_storage : gmap string StorageConfig;
  bc_kv : gmap string KvConfig;
  bc_database : gmap string DatabaseConfig;
  bc_d1 : gmap string string;
  bc_worker : gmap string WorkerBindingConfig;
  bc_durable_object : gmap string NamespaceConfig }.

Definition no_bindings : BindingConfigs := mkConfigs ∅ ∅ ∅ ∅ ∅ ∅ ∅.

Definition add_binding (c : BindingConfigs) (b : Binding) : BindingConfigs :=
  let 'mkConfigs assets storage kv database d1 worker object := c in
  match b with
  | BAssets key config => mkConfigs (<[key := config]> assets) storage kv database d1 worker object
  | BStorage key config => mkConfigs assets (<[key := config]> storage) kv database d1 worker object
  | BKv key config => mkConfigs assets storage (<[key := config]> kv) database d1 worker object
  | BDatabase key config => mkConfigs assets storage kv (<[key := config]> database) d1 worker object
  | BD1 key database_id => mkConfigs assets storage kv database (<[key := database_id]> d1) worker object
  | BWorker key config => mkConfigs assets storage kv database d1 (<[key := config]> worker) object
  | BDurableObject key namespace => mkConfigs assets storage kv database d1 worker (<[key := namespace]> object)
  | BVar _ _ | BSecret _ _ => c
  end.

Definition from_bindings (bindings : list Binding) : BindingConfigs := foldl add_binding no_bindings bindings.

(** Each config is one of the list. *)
Record found_in (bindings : list Binding) (c : BindingConfigs) : Prop := mkFound {
  found_assets k v : bc_assets c !! k = Some v -> BAssets k v ∈ bindings;
  found_storage k v : bc_storage c !! k = Some v -> BStorage k v ∈ bindings;
  found_kv k v : bc_kv c !! k = Some v -> BKv k v ∈ bindings;
  found_database k v : bc_database c !! k = Some v -> BDatabase k v ∈ bindings;
  found_d1 k v : bc_d1 c !! k = Some v -> BD1 k v ∈ bindings;
  found_worker k v : bc_worker c !! k = Some v -> BWorker k v ∈ bindings;
  found_object k v : bc_durable_object c !! k = Some v -> BDurableObject k v ∈ bindings }.

Lemma from_bindings_found bindings : found_in bindings (from_bindings bindings).
Proof.
  unfold from_bindings. induction bindings as [|b l IH] using rev_ind; [by split|]. rewrite foldl_app. simpl.
  destruct (foldl add_binding no_bindings l) as [assets storage kv database d1 worker object].
  destruct IH as [Ha Hs Hk Hd Hq Hw Ho].
  assert (Hold : forall b', b' ∈ l -> b' ∈ l ++ [b]) by (intros; apply elem_of_app; by left).
  assert (Hnew : b ∈ l ++ [b]) by (apply elem_of_app; right; by apply list_elem_of_singleton).
  destruct b; split; cbn in *; intros k v H; try (by apply Hold; auto);
    (apply lookup_insert_Some in H as [[<- <-]|[_ H]]; [done|by apply Hold; auto]).
Qed.

(** ** Programs *)

Inductive which : Type := WFetch | WKv | WDatabase | WStorage.
#[export] Instance which_eq_dec : EqDecision which.
Proof. solve_decision. Defined.

(** [ObjectIdSource], and the operations of the services that the handlers
    only pass on. *)
Inductive ObjectIdSource : Type := IdName (name : string) | IdText (text : string) | IdUnique.

Inductive KvOp (V : Type) : Type :=
| KvGet (key : string) | KvPut (key : string) (value : V) (expires_in : option Z)
| KvDelete (key : string) | KvList (prefix : option string) (limit : option Z).
Arguments KvGet {V} key. Arguments KvPut {V} key value expires_in.
Arguments KvDelete {V} key. Arguments KvList {V} prefix limit.

Inductive ObjectSocketOp : Type :=
| SoAccept (socket : Z) (tags : list string) (hibernatable : bool)
| SoAttach (socket : Z)
| SoSend (socket : Z) (message : WebSocketOutgoing)
| SoAttachment (socket : Z) (value : option string).

(** What the server answers to the upgrade of a guest's socket: its status,
    its accept key, and the connection. *)
Record WsResponse := mkWsResponse { ws_status : Z; ws_accept : option string; ws_upgrade : result unit string }.

Section ops.
Context {U Sv Sem : Type} {url : UrlLib U} {client : S3Client U Sv} {pct : Percent}
  {hmac : Hmac} {hex : Hex} {sem : Semaphore Sem} {hs : Handshake}.
(** The values, calls and answers of services that pass through. *)
Context {V KvRes D1Op D1Res ObjRes : Type}.

(** The calls of services. *)
Inductive Call : Type :=
| CFetch (request : HttpRequest) (extra : option (gmap string string)) (ctx : option FetchContext) (policy : EgressPolicy)
| CS3 (config : StorageConfig) (op : StorageOp)
| CKv (namespace_id : string) (op : KvOp V)
| CConnection (connection_string sql : string) (params : list SqlParam) (mode : QueryMode)
| CSchema (schema_name sql : string) (params : list SqlParam) (mode : QueryMode)
| CD1 (database_id : string) (op : D1Op)
| CObject (namespace : NamespaceConfig) (id : string) (depth : Z) (request : HttpRequest)
| CObjectStorage (namespace_id object_id : string) (op : ObjectStorageOp)
| CSetAlarm (namespace_id object_id : string) (at_ : option Z)
| CSocket (namespace_id object_id : string) (op : ObjectSocketOp)
| CUpgrade (http_url key : string) (headers : gmap string string).

Definition answer_of (c : Call) : Type :=
  match c with
  | CFetch _ _ _ _ => result Answer string
  | CS3 _ _ => StorageResult
  | CKv _ _ => KvRes
  | CConnection _ _ _ _ | CSchema _ _ _ _ => result string string
  | CD1 _ _ => D1Res
  | CObject _ _ _ _ => result ObjRes string
  | CObjectStorage _ _ _ | CSetAlarm _ _ _ => ObjectStorageResult
  | CSocket _ _ (SoAccept _ _ _) => result unit string
  | CSocket _ _ (SoAttach _) => bool
  | CSocket _ _ _ => unit
  | CUpgrade _ _ _ => result WsResponse string
  end.

(** [PAcquire w over k]: [self.limiters().w.acquire().await], with the guard by
    the number of its limiters; [PDrop]: the guard goes. *)
Inductive prog (A : Type) : Type :=
| Ret (x : A)
| PAcquire (w : which) (over : LimitError -> prog A) (k : nat -> prog A)
| PDrop (a : nat) (w : which) (k : prog A)
| PNextDepth (k : Z -> prog A)
| PRandom (k : string -> prog A)
| PCountFetch (k : prog A)
| PLog (message : string) (k : prog A)
| PCall (c : Call) (k : answer_of c -> prog A).
Arguments Ret {A}. Arguments PAcquire {A}. Arguments PDrop {A}. Arguments PNextDepth {A}.
Arguments PRandom {A}. Arguments PCountFetch {A}. Arguments PLog {A}. Arguments PCall {A}.

Fixpoint bind {A B} (p : prog A) (f : A -> prog B) : prog B :=
  match p with
  | Ret x => f x
  | PAcquire w over k => PAcquire w (fun e => bind (over e) f) (fun a => bind (k a) f)
  | PDrop a w k => PDrop a w (bind k f)
  | PNextDepth k => PNextDepth (fun d => bind (k d) f)
  | PRandom k => PRandom (fun x => bind (k x) f)
  | PCountFetch k => PCountFetch (bind k f)
  | PLog m k => PLog m (bind k f)
  | PCall c k => PCall c (fun x => bind (k x) f)
  end.

#[local] Instance prog_ret : MRet prog := fun _ => Ret.
#[local] Instance prog_bind : MBind prog := fun _ _ f p => bind p f.

Definition call (c : Call) : prog (answer_of c) := PCall c Ret.

(** The body runs with the guard, which goes on every way out of it. *)
Definition limited {A} (w : which) (failed : string -> A) (body : prog A) : prog A :=
  PAcquire w (fun e => Ret (failed (LimitError_fmt e))) (fun a => x ← body; PDrop a w (Ret x)).

(** ** Handlers *)

(** [depths] of a served object is shared with its events: it is read with
    the other state. *)
Record ServedObject := mkServed { so_namespace : NamespaceConfig; so_id : string; so_reload : bool }.

Variables (domains : list string) (port : option Z) (guard : string -> result unit string)
  (to_lowercase : string -> string) (parse_and_validate : string -> result ParsedQuery string) (d1_on : bool).

(** The fields of [RunnerOperations] that do not change. *)
Record Handle := mkHandle {
  h_user_id : option string; h_worker_id : option string; h_bindings : BindingConfigs;
  h_db_pool : bool; h_object : option ServedObject }.

Section handlers.
Variable self : Handle.

Definition ctx : FetchContext := mkFetchContext (h_worker_id self) (h_user_id self).

Definition do_binding_fetch (config : StorageConfig) (request : HttpRequest) : prog (result Answer string) :=
  limited WFetch Err (PCountFetch (
    match build_s3_url config (rq_url request) with
    | Err e => Ret (Err e)
    | Ok u =>
      let headers := delete "Host" (delete "host" (rq_headers request)) in
      let auth_request := mkHttpRequest (rq_method request) u headers (rq_body request) in
      match sign_s3_request auth_request (sc_access_key_id config) (sc_secret_access_key config) with
      | Err e => Ret (Err e)
      | Ok signed_headers => call (CFetch auth_request (Some signed_headers) (Some ctx) Unrestricted)
      end
    end)).

Definition handle_fetch (request : HttpRequest) : prog (result Answer string) :=
  limited WFetch Err (PCountFetch (PNextDepth (fun depth => PRandom (fun uuid =>
    match try_internal_worker_route port uuid domains request depth with
    | Some internal_request => call (CFetch internal_request None (Some ctx) Unrestricted)
    | None => call (CFetch request None (Some ctx) PublicOnly)
    end)))).

Definition handle_binding_fetch (binding : string) (request : HttpRequest) : prog (result Answer string) :=
  match bc_assets (h_bindings self) !! binding with
  | Some config => do_binding_fetch config request
  | None =>
    match bc_kv (h_bindings self) !! binding with
    | Some _ => Ret (Err ("KV binding '" +:+ binding +:+ "' does not support fetch - use kv.get/put/delete"))
    | None => Ret (Err ("Binding '" +:+ binding +:+ "' not configured"))
    end
  end.

(** A fetch of an object streams its body. *)
Inductive StorageAnswer : Type := Streamed (a : Answer) | Stored (r : StorageResult).

Definition handle_binding_storage (binding : string) (op : StorageOp) : prog StorageAnswer :=
  match bc_storage (h_bindings self) !! binding with
  | None => Ret (Stored (SError ("Storage binding '" +:+ binding +:+ "' not configured")))
  | Some config =>
    limited WStorage (fun e => Stored (SError e))
      match op with
      | SFetch key =>
        r ← do_binding_fetch config (mkHttpRequest MGet key ∅ BNone);
        match r with Ok response => mret (Streamed response) | Err e => mret (Stored (SError e)) end
      | other => r ← call (CS3 config other); mret (Stored r)
      end
  end.

(** An error with kind [Unavailable], or what the service answers. *)
Definition handle_binding_d1 (binding : string) (op : D1Op) : prog (result D1Res string) :=
  match bc_d1 (h_bindings self) !! binding with
  | None => Ret (Err ("D1 binding '" +:+ binding +:+ "' not configured"))
  | Some database_id =>
    if d1_on then r ← call (CD1 database_id op); mret (Ok r)
    else Ret (Err ("D1 binding '" +:+ binding +:+ "' has no database: D1 is not enabled on this runner"))
  end.

Definition handle_binding_kv (binding : string) (op : KvOp V) : prog (result KvRes string) :=
  match bc_kv (h_bindings self) !! binding with
  | None => Ret (Err ("KV binding '" +:+ binding +:+ "' not configured"))
  | Some config =>
    if h_db_pool self then limited WKv Err (r ← call (CKv (kc_id config) op); mret (Ok r))
    else Ret (Err "KV operations require database connection")
  end.

Definition handle_binding_database (binding sql : string) (params : list SqlParam) : prog (result string string) :=
  match bc_database (h_bindings self) !! binding with
  | None => Ret (Err ("Database binding '" +:+ binding +:+ "' not configured"))
  | Some config =>
    limited WDatabase Err
      match parse_and_validate sql with
      | Err e => Ret (Err ("SQL validation failed: " +:+ e))
      | Ok parsed =>
        let mode := from_parsed parsed in
        match dc_connection_string config, dc_schema_name config with
        | Some conn_str, _ => call (CConnection conn_str sql params mode)
        | None, Some schema_name =>
          if h_db_pool self then call (CSchema schema_name sql params mode)
          else Ret (Err "Shared database pool not configured")
        | None, None => Ret (Err "Database config has neither connection_string nor schema_name")
        end
      end
  end.

Definition durable_object_id (binding : string) (source : ObjectIdSource) (uuid : string) : result string string :=
  match bc_durable_object (h_bindings self) !! binding with
  | None => Err ("Durable Object binding '" +:+ binding +:+ "' not configured")
  | Some namespace =>
    match source with
    | IdName name => Ok (from_name (ns_key namespace) name)
    | IdText text =>
      match parse (ns_key namespace) text with Some id => Ok id | None => Err "Invalid Durable Object ID" end
    | IdUnique => Ok (unique (ns_key namespace) uuid)
    end
  end.

Definition handle_durable_object_storage (op : ObjectStorageOp) : prog ObjectStorageResult :=
  match h_object self with
  | None => Ret (Error "this worker is not a Durable Object")
  | Some object =>
    if d1_on then
      match op, h_db_pool self with
      | SetAlarm at_, true => call (CSetAlarm (ns_id (so_namespace object)) (so_id object) at_)
      | SetAlarm _, false => Ret (Error "Durable Object alarms need the database")
      | op, _ => call (CObjectStorage (ns_id (so_namespace object)) (so_id object) op)
      end
    else Ret (Error "Durable Object storage is off on this runner (no D1_DATA_DIR)")
  end.

Definition handle_binding_durable_object (binding id : string) (request : HttpRequest) : prog (result ObjRes string) :=
  match bc_durable_object (h_bindings self) !! binding with
  | None => Ret (Err ("Durable Object binding '" +:+ binding +:+ "' not configured"))
  | Some namespace =>
    match parse (ns_key namespace) id with
    | None => Ret (Err "Invalid Durable Object ID")
    | Some id => PNextDepth (fun depth =>
      if MAX_CALL_DEPTH <? depth then Ret (Err "Too many nested Durable Object calls") else
      limited WFetch Err (call (CObject namespace id depth request)))
    end
  end.

Definition handle_binding_worker (binding : string) (request : HttpRequest) : prog (result Answer string) :=
  match bc_worker (h_bindings self) !! binding with
  | None => Ret (Err ("Worker binding '" +:+ binding +:+ "' not configured"))
  | Some config =>
    limited WFetch Err (PNextDepth (fun depth => PRandom (fun uuid =>
      call (CFetch (binding_request port uuid (wc_id config) request depth) None None Unrestricted))))
  end.

Definition ws_http_url (u : string) : string :=
  match strip_prefix "ws://" u with
  | Some rest => "http://" +:+ rest
  | None => match strip_prefix "wss://" u with Some rest => "https://" +:+ rest | None => u end
  end.

Definition HANDSHAKE_HEADERS : list string :=
  ["upgrade"; "connection"; "sec-websocket-key"; "sec-websocket-version"; "host"].

Definition handle_websocket_connect (u : string) (headers : gmap string string) : prog (result unit string) :=
  let http_url := ws_http_url u in
  match guard http_url with
  | Err e => Ret (Err e)
  | Ok _ => PRandom (fun key =>
    r ← call (CUpgrade http_url key (filter (fun kv => negb (existsb (String.eqb (to_lowercase kv.1)) HANDSHAKE_HEADERS)) headers));
    match r with
    | Err e => mret (Err ("WebSocket connect error: " +:+ e))
    | Ok response =>
      if negb (ws_status response =? 101)
      then mret (Err ("WebSocket upgrade rejected: status " +:+ show_Z (ws_status response)))
      else if negb (bool_decide (ws_accept response = Some (derive_accept_key key)))
      then mret (Err "WebSocket handshake failed: invalid Sec-WebSocket-Accept")
      else match ws_upgrade response with
      | Err e => mret (Err ("WebSocket upgrade failed: " +:+ e))
      | Ok _ => mret (Ok tt)
      end
    end)
  end.

(** An error of the table of sockets is a line of the log. *)
Definition handle_durable_object_socket (op : ObjectSocketOp) : prog unit :=
  match h_object self with
  | None => Ret tt
  | Some object =>
    let ns := ns_id (so_namespace object) in
    let id := so_id object in
    match op with
    | SoAccept socket tags hibernatable =>
      if so_reload object then
        r ← call (CSocket ns id (SoAccept socket tags hibernatable));
        match r with Ok _ => mret tt | Err error => PLog error (mret tt) end
      else PLog "this Durable Object cannot keep WebSockets" (mret tt)
    | SoAttach socket =>
      r ← call (CSocket ns id (SoAttach socket));
      if (r : bool) then mret tt
      else PLog "a 101 response of a Durable Object must carry a WebSocket it accepted" (mret tt)
    | SoSend socket message => call (CSocket ns id (SoSend socket message))
    | SoAttachment socket value => call (CSocket ns id (SoAttachment socket value))
    end
  end.

Definition handle_log (message : string) : prog unit := PLog message (Ret tt).

Inductive GuestOp : Type :=
| OFetch (request : HttpRequest)
| OBindingFetch (binding : string) (request : HttpRequest)
| OStorage (binding : string) (op : StorageOp)
| OD1 (binding : string) (op : D1Op)
| OKv (binding : string) (op : KvOp V)
| ODatabase (binding sql : string) (params : list SqlParam)
| OObjectStorage (op : ObjectStorageOp)
| OObjectSocket (op : ObjectSocketOp)
| OObject (binding id : string) (request : HttpRequest)
| OWorker (binding : string) (request : HttpRequest)
| OWebSocket (u : string) (headers : gmap string string)
| OLog (message : string).

(** What the engine does with the answer is not here. *)
Definition ignore {A} (p : prog A) : prog unit := bind p (fun _ => Ret tt).

Definition handler (op : GuestOp) : prog unit :=
  match op with
  | OFetch request => ignore (handle_fetch request)
  | OBindingFetch binding request => ignore (handle_binding_fetch binding request)
  | OStorage binding op => ignore (handle_binding_storage binding op)
  | OD1 binding op => ignore (handle_binding_d1 binding op)
  | OKv binding op => ignore (handle_binding_kv binding op)
  | ODatabase binding sql params => ignore (handle_binding_database binding sql params)
  | OObjectStorage op => ignore (handle_durable_object_storage op)
  | OObjectSocket op => handle_durable_object_socket op
  | OObject binding id request => ignore (handle_binding_durable_object binding id request)
  | OWorker binding request => ignore (handle_binding_worker binding request)
  | OWebSocket u headers => ignore (handle_websocket_connect u headers)
  | OLog message => handle_log message
  end.
End handlers.

(** ** The handle at run time *)

(** [rs_limiters]: an [Arc] of limiters, by its number. *)
Record RequestState := mkRequest { rs_log_tx : option string; rs_limiters : nat; rs_depth : Z }.

Inductive entry : Type :=
| Passed (a : nat) (w : which)
| Called (owner : nat) (held : list (nat * which)) (c : Call)
| Logged (log_tx : string) (message : string).

Inductive calling : Type := Fresh | Calling | Spent.
#[local] Instance calling_eq_dec : EqDecision calling.
Proof. solve_decision. Defined.

(** [t_acq]: the acquire under way, with its limiters; [t_held]: the guards;
    [t_owner]: the request that made the operation. *)
Record task := mkTask {
  t_owner : nat; t_prog : prog unit; t_acq : option (nat * Limiter.caller);
  t_held : list (nat * which * LimiterGuard); t_call : calling }.

Record state := mkState {
  st_request : RequestState; st_arcs : nat -> which -> BindingLimiter Sem; st_next : nat;
  st_stats : OperationsStats; st_depths : list Z; st_requests : nat; st_tasks : list task; st_trace : list entry }.

Definition set_lim (a : nat) (w : which) (l : BindingLimiter Sem) (arcs : nat -> which -> BindingLimiter Sem) :
  nat -> which -> BindingLimiter Sem :=
  fun a' w' => if bool_decide ((a', w') = (a, w)) then l else arcs a' w'.

Definition of_limiters (l : BindingLimiters (Sem := Sem)) (w : which) : BindingLimiter Sem :=
  match w with WFetch => l_fetch l | WKv => l_kv l | WDatabase => l_database l | WStorage => l_storage l end.

Variable limits : RuntimeLimits.

Definition update_request (log_tx : string) (depth : Z) (s : state) : state :=
  mkState (mkRequest (Some log_tx) (st_next s) depth)
    (fun a w => if bool_decide (a = st_next s) then of_limiters (limiters_new limits) w else st_arcs s a w)
    (S (st_next s)) (st_stats s) (st_depths s) (S (st_requests s)) (st_tasks s) (st_trace s).

Definition next_depth (self : Handle) (s : state) : Z :=
  match h_object self with Some _ => deepest (st_depths s) | None => rs_depth (st_request s) end + 1.

Definition set_arcs (arcs : nat -> which -> BindingLimiter Sem) (s : state) : state :=
  mkState (st_request s) arcs (st_next s) (st_stats s) (st_depths s) (st_requests s) (st_tasks s) (st_trace s).
Definition set_stats (x : OperationsStats) (s : state) : state :=
  mkState (st_request s) (st_arcs s) (st_next s) x (st_depths s) (st_requests s) (st_tasks s) (st_trace s).
Definition set_tasks (l : list task) (s : state) : state :=
  mkState (st_request s) (st_arcs s) (st_next s) (st_stats s) (st_depths s) (st_requests s) l (st_trace s).
Definition add_entry (e : entry) (s : state) : state :=
  mkState (st_request s) (st_arcs s) (st_next s) (st_stats s) (st_depths s) (st_requests s) (st_tasks s) (st_trace s ++ [e]).
Definition with_prog (p : prog unit) (t : task) : task := mkTask (t_owner t) p (t_acq t) (t_held t) (t_call t).
Definition with_acq (c : option (nat * Limiter.caller)) (t : task) : task := mkTask (t_owner t) (t_prog t) c (t_held t) (t_call t).
Definition with_held (h : list (nat * which * LimiterGuard)) (t : task) : task :=
  mkTask (t_owner t) (t_prog t) (t_acq t) h (t_call t).

Definition log_line (message : string) (s : state) : state :=
  let x := st_stats s in
  let s := set_stats (mkStats (fetch_count x) (fetch_bytes_in x) (fetch_bytes_out x) (wrap_u64 (log_count x + 1))) s in
  match rs_log_tx (st_request s) with Some tx => add_entry (Logged tx message) s | None => s end.

(** One step of an acquire: the limiters of the request are read, the call is
    counted, undone, or waits for its permit. [None]: it waits. *)
Definition acquire_one (w : which) (over : LimitError -> prog unit) (k : nat -> prog unit) (t : task) (s : state) :
  option (state * task) :=
  match t_acq t with
  | None => Some (s, with_acq (Some (rs_limiters (st_request s), Limiter.Idle)) t)
  | Some (a, c) =>
    match c with
    | Limiter.Idle =>
      let '(l, exceeded) := acquire_count (st_arcs s a w) in
      let s := set_arcs (set_lim a w l (st_arcs s)) s in
      Some match exceeded with
      | Some current => (s, with_acq (Some (a, Limiter.Undoing current)) t)
      | None => (add_entry (Passed a w) s, with_acq (Some (a, Limiter.Waiting)) t)
      end
    | Limiter.Undoing current =>
      let '(l, e) := acquire_undo current (st_arcs s a w) in
      Some (set_arcs (set_lim a w l (st_arcs s)) s, with_acq None (with_prog (over e) t))
    | Limiter.Waiting =>
      '(l, g) ← acquire_permit (st_arcs s a w);
      Some (set_arcs (set_lim a w l (st_arcs s)) s,
            with_acq None (with_held ((a, w, g) :: t_held t) (with_prog (k a) t)))
    | Limiter.Holding _ => None
    end
  end.

(** A guard goes: the last one taken. *)
Definition drop_one (a : nat) (w : which) (k : prog unit) (t : task) (s : state) : option (state * task) :=
  match t_held t with
  | (a', w', g) :: held =>
    if bool_decide ((a', w') = (a, w))
    then Some (set_arcs (set_lim a w (Limiter.drop_guard g (st_arcs s a w)) (st_arcs s)) s, with_held held (with_prog k t))
    else None
  | [] => None
  end.

(** What a task does by itself. *)
Definition advance (self : Handle) (t : task) (s : state) : option (state * task) :=
  match t_prog t with
  | PAcquire w over k => acquire_one w over k t s
  | PDrop a w k => drop_one a w k t s
  | PNextDepth k => Some (s, with_prog (k (next_depth self s)) t)
  | PCountFetch k =>
    let x := st_stats s in
    Some (set_stats (mkStats (wrap_u64 (fetch_count x + 1)) (fetch_bytes_in x) (fetch_bytes_out x) (log_count x)) s, with_prog k t)
  | PLog message k => Some (log_line message s, with_prog k t)
  | _ => None
  end.

Definition drop_guards (held : list (nat * which * LimiterGuard)) (arcs : nat -> which -> BindingLimiter Sem) :
  nat -> which -> BindingLimiter Sem :=
  foldl (fun arcs h => set_lim h.1.1 h.1.2 (Limiter.drop_guard h.2 (arcs h.1.1 h.1.2)) arcs) arcs held.

(** The points where the engine can drop an operation: it awaits a permit or
    a service. *)
Definition awaits (t : task) : bool :=
  match t_acq t with Some (_, Limiter.Waiting) => true | _ => bool_decide (t_call t = Calling) end.

(** ** Interleavings *)

Inductive step (self : Handle) : state -> state -> Prop :=
| step_op op s :
    step self s (set_tasks (st_tasks s ++ [mkTask (st_requests s) (handler self op) None [] Fresh]) s)
| step_advance i t t' s s' : st_tasks s !! i = Some t -> advance self t s = Some (s', t') ->
    step self s (set_tasks (<[i := t']> (st_tasks s)) s')
| step_random i t k x s : st_tasks s !! i = Some t -> t_prog t = PRandom k ->
    step self s (set_tasks (<[i := with_prog (k x) t]> (st_tasks s)) s)
| step_call i t c k s : st_tasks s !! i = Some t -> t_prog t = PCall c k -> t_call t = Fresh ->
    step self s (set_tasks (<[i := mkTask (t_owner t) (t_prog t) (t_acq t) (t_held t) Calling]> (st_tasks s))
      (add_entry (Called (t_owner t) (t_held t).*1 c) s))
| step_answer i t c k x s : st_tasks s !! i = Some t -> t_prog t = PCall c k -> t_call t = Calling ->
    step self s (set_tasks (<[i := mkTask (t_owner t) (k x) (t_acq t) (t_held t) Spent]> (st_tasks s)) s)
| step_cancel i t s : st_tasks s !! i = Some t -> awaits t = true ->
    step self s (set_tasks (<[i := mkTask (t_owner t) (Ret tt) None [] Spent]> (st_tasks s))
      (set_arcs (drop_guards (t_held t) (st_arcs s)) s))
| step_update log_tx depth s : 0 <= depth <= MAX_CALL_DEPTH -> step self s (update_request log_tx depth s)
| step_depths ds s : Forall (fun d => 0 <= d <= MAX_CALL_DEPTH) ds ->
    step self s (mkState (st_request s) (st_arcs s) (st_next s) (st_stats s) ds (st_requests s) (st_tasks s) (st_trace s)).

(** [first]: the limiters the handle was made with, those of a request or
    those of an object. *)
Definition start (first : which -> BindingLimit) (name : which -> string) (depth : Z) : state :=
  mkState (mkRequest None 0 depth) (fun _ w => limiter_new (first w) (name w)) 1 (mkStats 0 0 0 0) [] 0 [] [].

(** ** What a handle may reach *)

Section confined.
Variables (self : Handle) (bindings : list Binding).

Definition under (w : which) (held : list (nat * which)) : Prop := w ∈ held.*2.

(** The calls that the bindings of a worker allow it, each under the guard of
    its limiter. The network is reached through the guarded client; the
    other one only for a bucket that is bound, with the URL its prefix gives,
    and for the runner itself, in a request that carries the mark and a
    depth. *)
Inductive allowed : list (nat * which) -> Call -> Prop :=
| allow_network held request : under WFetch held ->
    allowed held (CFetch request None (Some (ctx self)) PublicOnly)
| allow_routed held request uuid r depth : under WFetch held -> 1 <= depth <= MAX_CALL_DEPTH + 1 ->
    try_internal_worker_route port uuid domains r depth = Some request ->
    allowed held (CFetch request None (Some (ctx self)) Unrestricted)
| allow_worker held key config uuid r depth : under WFetch held -> 1 <= depth <= MAX_CALL_DEPTH + 1 ->
    BWorker key config ∈ bindings ->
    allowed held (CFetch (binding_request port uuid (wc_id config) r depth) None None Unrestricted)
| allow_bucket held key config path request signed : under WFetch held ->
    BAssets key config ∈ bindings \/ BStorage key config ∈ bindings /\ under WStorage held ->
    build_s3_url config path = Ok (rq_url request) ->
    sign_s3_request request (sc_access_key_id config) (sc_secret_access_key config) = Ok signed ->
    allowed held (CFetch request (Some signed) (Some (ctx self)) Unrestricted)
| allow_storage held key config op : under WStorage held -> BStorage key config ∈ bindings ->
    allowed held (CS3 config op)
| allow_kv held key config op : under WKv held -> BKv key config ∈ bindings -> allowed held (CKv (kc_id config) op)
| allow_connection held key config conn sql params mode : under WDatabase held -> BDatabase key config ∈ bindings ->
    dc_connection_string config = Some conn -> allowed held (CConnection conn sql params mode)
| allow_schema held key config schema sql params mode : under WDatabase held -> BDatabase key config ∈ bindings ->
    dc_schema_name config = Some schema -> allowed held (CSchema schema sql params mode)
| allow_d1 held key id op : BD1 key id ∈ bindings -> allowed held (CD1 id op)
| allow_object held key namespace id text depth request : under WFetch held -> BDurableObject key namespace ∈ bindings ->
    parse (ns_key namespace) text = Some id -> 1 <= depth <= MAX_CALL_DEPTH ->
    allowed held (CObject namespace id depth request)
| allow_own_storage held object op : h_object self = Some object ->
    allowed held (CObjectStorage (ns_id (so_namespace object)) (so_id object) op)
| allow_own_alarm held object at_ : h_object self = Some object ->
    allowed held (CSetAlarm (ns_id (so_namespace object)) (so_id object) at_)
| allow_own_socket held object op : h_object self = Some object ->
    allowed held (CSocket (ns_id (so_namespace object)) (so_id object) op)
| allow_upgrade held u key headers : guard u = Ok tt ->
    (forall name, is_Some (headers !! name) -> to_lowercase name ∉ HANDSHAKE_HEADERS) ->
    allowed held (CUpgrade u key headers).

(** A program that takes each limiter once, gives the guards back in order,
    and makes one allowed call at most. *)
Fixpoint valid {A} (Q : bool -> list (nat * which) -> A -> Prop) (may : bool) (held : list (nat * which)) (p : prog A) : Prop :=
  match p with
  | Ret x => Q may held x
  | PAcquire w over k => w ∉ held.*2 /\ (forall e, valid Q may held (over e)) /\ (forall a, valid Q may ((a, w) :: held) (k a))
  | PDrop a w k => match held with h :: held => h = (a, w) /\ valid Q may held k | [] => False end
  | PNextDepth k => forall d, 1 <= d <= MAX_CALL_DEPTH + 1 -> valid Q may held (k d)
  | PRandom k => forall x, valid Q may held (k x)
  | PCountFetch k => valid Q may held k
  | PLog _ k => valid Q may held k
  | PCall c k => may = true /\ allowed held c /\ (forall x, valid Q false held (k x))
  end.

Lemma valid_bind {A B} (p : prog A) (f : A -> prog B) Q may held :
  valid (fun may held x => valid Q may held (f x)) may held p -> valid Q may held (bind p f).
Proof.
  revert may held. induction p; intros may held; simpl; try naive_solver.
  destruct held as [|h held]; [done|]. naive_solver.
Qed.

Lemma valid_weaken {A} (Q R : bool -> list (nat * which) -> A -> Prop) may held p :
  (forall m h x, Q m h x -> R m h x) -> valid Q may held p -> valid R may held p.
Proof.
  intros HQ. revert may held. induction p; intros may held; simpl; try naive_solver.
  destruct held as [|h held]; [done|]. naive_solver.
Qed.

(** The body runs with the guard and leaves the guards as it found them. *)
Lemma valid_limited {A} w (failed : string -> A) body held :
  w ∉ held.*2 -> (forall a, valid (fun _ h _ => h = (a, w) :: held) true ((a, w) :: held) body) ->
  valid (fun _ h _ => h = held) true held (limited w failed body).
Proof.
  intros Hw Hb. split; [done|]. split; [done|]. intros a. apply valid_bind. eapply valid_weaken; [|apply Hb].
  intros m h x ->. done.
Qed.

Lemma valid_ignore {A} (p : prog A) : valid (fun _ h _ => h = []) true [] p -> valid (fun _ h _ => h = []) true [] (ignore p).
Proof. intros Hp. apply valid_bind. exact Hp. Qed.

Lemma valid_call {A} c (f : answer_of c -> A) held :
  allowed held c -> valid (fun _ h _ => h = held) true held (bind (call c) (fun x => Ret (f x))).
Proof. done. Qed.

Lemma valid_binding_fetch config request key held :
  under WStorage held /\ BStorage key config ∈ bindings \/ BAssets key config ∈ bindings ->
  WFetch ∉ held.*2 -> valid (fun _ h _ => h = held) true held (do_binding_fetch self config request).
Proof.
  intros Hb Hw. apply valid_limited; [done|]. intros a. simpl.
  destruct (build_s3_url config (rq_url request)) as [u|e] eqn:Eu; [|done].
  destruct (sign_s3_request _ _ _) as [signed|e] eqn:Es; [|done].
  split; [done|]. split; [|done]. eapply (allow_bucket _ key config (rq_url request)); [left| |done|done].
  destruct Hb as [[? ?]|?]; [right; split; [done|]; by right|by left].
Qed.

Hypothesis self_bound : found_in bindings (h_bindings self).

Lemma handler_valid op : valid (fun _ h _ => h = []) true [] (handler self op).
Proof.
  destruct op as [request|binding request|binding op|binding op|binding op|binding sql params|op|op|binding id request
    |binding request|u headers|message]; cbn [handler];
    lazymatch goal with |- valid _ _ _ (ignore _) => apply valid_ignore | _ => idtac end.
  - apply valid_limited; [set_solver|]. intros a. simpl. intros d Hd uuid.
    destruct (try_internal_worker_route _ _ _ _ _) eqn:E; (split; [done|]; split; [|done]).
    + eapply allow_routed; [left|done|done].
    + apply allow_network. left.
  - unfold handle_binding_fetch. destruct (bc_assets _ !! binding) as [config|] eqn:E; [|by destruct (bc_kv _ !! _)].
    eapply valid_binding_fetch; [right; by eapply found_assets|set_solver].
  - unfold handle_binding_storage. destruct (bc_storage _ !! binding) as [config|] eqn:E; [|done].
    pose proof (found_storage _ _ self_bound _ _ E) as Hin. apply valid_limited; [set_solver|]. intros a.
    destruct op; try (apply valid_call; eapply allow_storage; [left|done]).
    apply valid_bind. eapply valid_weaken; [|eapply valid_binding_fetch; [left; split; [left|done]|]].
    + intros m h [r|e] ->; done.
    + simpl. set_solver.
  - unfold handle_binding_d1. destruct (bc_d1 _ !! binding) as [id|] eqn:E; [|done]. destruct d1_on; [|done].
    apply valid_call. eapply allow_d1. by eapply found_d1.
  - unfold handle_binding_kv. destruct (bc_kv _ !! binding) as [config|] eqn:E; [|done]. destruct (h_db_pool self); [|done].
    apply valid_limited; [set_solver|]. intros a. apply valid_call. eapply allow_kv; [left|by eapply found_kv].
  - unfold handle_binding_database. destruct (bc_database _ !! binding) as [config|] eqn:E; [|done].
    pose proof (found_database _ _ self_bound _ _ E) as Hin. apply valid_limited; [set_solver|]. intros a.
    destruct (parse_and_validate sql); [|done]. destruct (dc_connection_string config) as [conn|] eqn:Ec.
    + split; [done|]. split; [|done]. eapply allow_connection; [left|done|done].
    + destruct (dc_schema_name config) as [schema|] eqn:Es; [|done]. destruct (h_db_pool self); [|done].
      split; [done|]. split; [|done]. eapply allow_schema; [left|done|done].
  - unfold handle_durable_object_storage. destruct (h_object self) as [object|] eqn:E; [|done]. destruct d1_on; [|done].
    destruct op; try (split; [done|]; split; [by apply allow_own_storage|done]).
    destruct (h_db_pool self); [|done]. split; [done|]. split; [by apply allow_own_alarm|done].
  - unfold handle_durable_object_socket. destruct (h_object self) as [object|] eqn:E; [|done].
    destruct op; [destruct (so_reload object); [|done]|..]; (split; [done|]; split; [by apply allow_own_socket|]); simpl; intros x;
      by destruct x.
  - unfold handle_binding_durable_object. destruct (bc_durable_object _ !! binding) as [ns|] eqn:E; [|done].
    destruct (parse (ns_key ns) id) as [id'|] eqn:Ei; [|done]. simpl. intros d Hd.
    destruct (MAX_CALL_DEPTH <? d) eqn:Ed; [done|]. reflect_bools. apply valid_limited; [set_solver|]. intros a.
    split; [done|]. split; [|done]. eapply allow_object; [left|by eapply found_object|done|lia].
  - unfold handle_binding_worker. destruct (bc_worker _ !! binding) as [config|] eqn:E; [|done].
    apply valid_limited; [set_solver|]. intros a. simpl. intros d Hd uuid. split; [done|]. split; [|done].
    eapply allow_worker; [left|done|by eapply found_worker].
  - unfold handle_websocket_connect. destruct (guard (ws_http_url u)) as [[]|e] eqn:E; [|done]. simpl. intros key.
    split; [done|]. split.
    + apply allow_upgrade; [done|]. intros name [v [_ Hn]%map_lookup_filter_Some] Hin. cbn [fst] in Hn.
      apply negb_prop_elim in Hn. apply Hn.
      change (Is_true (existsb (String.eqb (to_lowercase name)) HANDSHAKE_HEADERS)). apply Is_true_true, existsb_exists. exists (to_lowercase name).
      split; [by apply list_elem_of_In|by apply String.eqb_refl].
    + intros [r|e]; [|done]. destruct (negb _); [done|]. destruct (negb _); [done|]. by destruct (ws_upgrade r).
  - done.
Qed.

(** ** One limiter

    What a task is for one limiter: a caller of it. *)
Fixpoint held_at (a : nat) (w : which) (held : list (nat * which * LimiterGuard)) : option LimiterGuard :=
  match held with
  | [] => None
  | h :: held => if bool_decide (h.1 = (a, w)) then Some h.2 else held_at a w held
  end.

Definition held_phase (a : nat) (w : which) (t : task) : Limiter.caller :=
  match held_at a w (t_held t) with Some g => Limiter.Holding g | None => Limiter.Idle end.

Definition phase (a : nat) (w : which) (t : task) : Limiter.caller :=
  match t_acq t, t_prog t with
  | Some (a', c), PAcquire w' _ _ => if bool_decide ((a', w') = (a, w)) then c else held_phase a w t
  | _, _ => held_phase a w t
  end.

Definition is_pass (a : nat) (w : which) (e : entry) : bool :=
  match e with Passed a' w' => bool_decide ((a', w') = (a, w)) | _ => false end.
Definition is_call (a : nat) (w : which) (e : entry) : bool :=
  match e with Called _ held _ => bool_decide ((a, w) ∈ held) | _ => false end.

Definition cell (s : state) (a : nat) (w : which) : sys Sem :=
  mkSys (st_arcs s a w) (map (phase a w) (st_tasks s)) (countb (is_pass a w) (st_trace s)).

Definition busy (c : Limiter.caller) : bool := match c with Limiter.Waiting | Limiter.Holding _ => true | _ => false end.
Definition pending (a : nat) (w : which) (t : task) : bool := bool_decide (t_call t = Fresh) && busy (phase a w t).
Definition in_flight (a : nat) (w : which) (t : task) : bool :=
  bool_decide (t_call t = Calling) && bool_decide ((a, w) ∈ (t_held t).*1).

(** One move of one caller, with the count of the calls that passed. *)
Inductive cell_move : BindingLimiter Sem -> Limiter.caller -> Z -> BindingLimiter Sem -> Limiter.caller -> Z -> Prop :=
| move_same l c p : cell_move l c p l c p
| move_pass l l' p : acquire_count l = (l', None) -> cell_move l Limiter.Idle p l' Limiter.Waiting (p + 1)
| move_exceed l l' current p : acquire_count l = (l', Some current) -> cell_move l Limiter.Idle p l' (Limiter.Undoing current) p
| move_undo l l' current e p : acquire_undo current l = (l', e) -> cell_move l (Limiter.Undoing current) p l' Limiter.Idle p
| move_permit l l' g p : acquire_permit l = Some (l', g) -> cell_move l Limiter.Waiting p l' (Limiter.Holding g) p
| move_cancel l p : cell_move l Limiter.Waiting p l Limiter.Idle p
| move_drop l g p : cell_move l (Limiter.Holding g) p (Limiter.drop_guard g l) Limiter.Idle p.

Lemma cell_move_inv limit l c p l' c' p' callers i :
  cell_move l c p l' c' p' -> callers !! i = Some c -> bl_max_total limit + Z.of_nat (length callers) < 2 ^ 32 ->
  Limiter.inv limit (mkSys l callers p) -> Limiter.inv limit (mkSys l' (<[i := c']> callers) p').
Proof.
  intros Hm Hi Hsmall Hinv. destruct Hm; [by rewrite list_insert_id|..];
    (eapply Limiter.inv_step; [|exact Hinv|]; [done|]).
  - by eapply (Limiter.step_pass (mkSys l callers p)).
  - by eapply (Limiter.step_exceed (mkSys l callers p)).
  - by eapply (Limiter.step_undo (mkSys l callers p)).
  - by eapply (Limiter.step_permit (mkSys l callers p)).
  - by eapply (Limiter.step_cancel (mkSys l callers p)).
  - by eapply (Limiter.step_drop (mkSys l callers p)).
Qed.

Lemma cell_move_busy l c p l' c' p' : cell_move l c p l' c' p' ->
  (if busy c' then 1 else 0) - (if busy c then 1 else 0) <= p' - p /\ p <= p'.
Proof. destruct 1; simpl; lia. Qed.

(** ** Invariant *)

Variables (first : which -> BindingLimit) (name : which -> string).

Definition runtime_limit (w : which) : BindingLimit :=
  match w with WFetch => fetch_limit limits | WKv => kv_limit limits | WDatabase => database_limit limits
  | WStorage => storage_limit limits end.
Definition limit_of (a : nat) (w : which) : BindingLimit :=
  if bool_decide (a = 0%nat) then first w else runtime_limit w.

Record task_ok (next : nat) (t : task) : Prop := mkTaskOk {
  ok_valid : valid (fun _ h _ => h = []) (bool_decide (t_call t <> Spent)) (t_held t).*1 (t_prog t);
  ok_held : NoDup (t_held t).*1.*2;
  ok_arcs : Forall (fun h => (h.1.1 < next)%nat) (t_held t);
  ok_acq a c : t_acq t = Some (a, c) -> (a < next)%nat /\ (forall g, c <> Limiter.Holding g) /\
    exists w over k, t_prog t = PAcquire w over k;
  ok_calling : t_call t = Calling -> exists c k, t_prog t = PCall c k }.

Record inv (s : state) : Prop := mkInv {
  inv_cells a w : (a < st_next s)%nat -> Limiter.inv (limit_of a w) (cell s a w);
  inv_ok : Forall (task_ok (st_next s)) (st_tasks s);
  inv_next : (0 < st_next s)%nat /\ (rs_limiters (st_request s) < st_next s)%nat;
  inv_depth : 0 <= rs_depth (st_request s) <= MAX_CALL_DEPTH /\ Forall (fun d => 0 <= d <= MAX_CALL_DEPTH) (st_depths s);
  inv_calls a w : countb (is_call a w) (st_trace s) + countb (pending a w) (st_tasks s) <= countb (is_pass a w) (st_trace s);
  inv_old a w : (st_next s <= a)%nat -> countb (is_pass a w) (st_trace s) = 0;
  inv_allowed owner held c : Called owner held c ∈ st_trace s -> allowed held c }.

Definition small (s : state) : Prop :=
  forall a w, bl_max_total (limit_of a w) + Z.of_nat (length (st_tasks s)) < 2 ^ 32.

(** A task moves, and with it at most the limiters it is at. *)
Lemma ops_inv_move i t t' s s' :
  inv s -> small s -> st_tasks s !! i = Some t ->
  st_next s' = st_next s -> st_request s' = st_request s -> st_depths s' = st_depths s ->
  (forall a w, cell_move (st_arcs s a w) (phase a w t) (countb (is_pass a w) (st_trace s))
                 (st_arcs s' a w) (phase a w t') (countb (is_pass a w) (st_trace s'))) ->
  task_ok (st_next s) t' -> (t_call t' = Fresh -> t_call t = Fresh) ->
  (forall a w, (st_next s <= a)%nat -> countb (is_pass a w) (st_trace s') = 0) ->
  (forall a w, countb (is_call a w) (st_trace s') = countb (is_call a w) (st_trace s)) ->
  (forall owner held c, Called owner held c ∈ st_trace s' -> Called owner held c ∈ st_trace s) ->
  inv (set_tasks (<[i := t']> (st_tasks s)) s').
Proof.
  intros [Hc Ho Hn Hd Hcalls Hold Hall] Hsmall Hi En Er Ed Hmove Hok Hfresh Hnew Hsame Hsub.
  split; cbn [st_next st_request st_depths st_tasks st_trace set_tasks]; rewrite ?En, ?Er, ?Ed; try done.
  - intros a w Ha. unfold cell. cbn [st_arcs st_tasks st_trace set_tasks].
    rewrite (list_fmap_insert (phase a w) (st_tasks s) i t' : map _ _ = _).
    eapply cell_move_inv; [apply Hmove| | |by apply Hc].
    + rewrite list_lookup_fmap, Hi. done.
    + rewrite length_fmap. apply Hsmall.
  - by apply Forall_insert.
  - intros a w. rewrite Hsame, (countb_insert _ _ _ _ _ Hi). specialize (Hcalls a w).
    pose proof (cell_move_busy _ _ _ _ _ _ (Hmove a w)) as [Hb Hp].
    assert (Hq : (if pending a w t' then 1 else 0) - (if pending a w t then 1 else 0) <=
      countb (is_pass a w) (st_trace s') - countb (is_pass a w) (st_trace s)); [|lia].
    unfold pending. destruct (t_call t') eqn:E.
    + rewrite (Hfresh eq_refl). done.
    + simpl. destruct (_ && _); lia.
    + simpl. destruct (_ && _); lia.
  - intros owner held c Hin. by eapply Hall, Hsub.
Qed.

Lemma held_at_None a w held : w ∉ held.*1.*2 -> held_at a w held = None.
Proof.
  induction held as [|[[a' w'] g] held IH]; simpl; [done|]. intros [Hn Hr]%not_elem_of_cons.
  rewrite bool_decide_false by (cbn; congruence). by apply IH.
Qed.

Lemma held_at_Some a w held : is_Some (held_at a w held) <-> (a, w) ∈ held.*1.
Proof.
  induction held as [|[[a' w'] g] held IH]; simpl; [split; [by intros []|by intros ?%not_elem_of_nil]|].
  rewrite elem_of_cons. case_bool_decide as E.
  - split; [intros _; by left|done].
  - rewrite IH. split; [by right|]. intros [[= -> ->]|?]; done.
Qed.

Lemma set_lim_at a w l arcs a' w' :
  set_lim a w l arcs a' w' = if bool_decide ((a', w') = (a, w)) then l else arcs a' w'.
Proof. done. Qed.

(** A program that is not at an acquire: the guards say what the task is. *)
Lemma no_acq next t : task_ok next t -> (forall w over k, t_prog t <> PAcquire w over k) -> t_acq t = None.
Proof.
  intros Hok Hp. destruct (t_acq t) as [[a c]|] eqn:E; [|done].
  destruct (ok_acq _ _ Hok a c E) as (_ & _ & w & over & k & Ep). by destruct (Hp w over k).
Qed.

Lemma phase_held t a w : t_acq t = None -> phase a w t = held_phase a w t.
Proof. unfold phase. by intros ->. Qed.

Lemma not_calling next t : task_ok next t -> (forall c k, t_prog t <> PCall c k) -> t_call t <> Calling.
Proof. intros Hok Hp E. destruct (ok_calling _ _ Hok E) as (c & k & Ep). by destruct (Hp c k). Qed.

(** The program goes on; the limiters and the guards stay. *)
Lemma ok_goes_on next t p : task_ok next t -> t_acq t = None -> t_call t <> Calling ->
  valid (fun _ h _ => h = []) (bool_decide (t_call t <> Spent)) (t_held t).*1 p -> task_ok next (with_prog p t).
Proof. intros [Hv Hh Ha _ Hc] Hn Hnc Hp. split; try done; cbn; by rewrite ?Hn. Qed.

Lemma acquire_one_ok w over k i t t' s s' :
  inv s -> small s -> st_tasks s !! i = Some t -> t_prog t = PAcquire w over k -> acquire_one w over k t s = Some (s', t') ->
  inv (set_tasks (<[i := t']> (st_tasks s)) s').
Proof.
  intros Hinv Hsmall Hi Ep H. pose proof (Forall_lookup_1 _ _ _ _ (inv_ok _ Hinv) Hi) as Hok.
  pose proof (ok_valid _ _ Hok) as Hv. rewrite Ep in Hv. destruct Hv as (Hw & Hover & Hk).
  pose proof (not_calling _ _ Hok ltac:(intros ? ?; by rewrite Ep)) as Hnc.
  assert (Hfree : forall a, held_phase a w t = Limiter.Idle) by (intros a; unfold held_phase; by rewrite held_at_None).
  destruct Hok as [Hv Hh Harcs Hacq Hcall]. unfold acquire_one in H.
  destruct (t_acq t) as [[a c]|] eqn:Ea.
  - destruct (Hacq a c eq_refl) as (Halt & Hnh & _).
    assert (Hphase : forall a' w', phase a' w' t = if bool_decide ((a, w) = (a', w')) then c else held_phase a' w' t)
      by (intros; unfold phase; by rewrite Ea, Ep).
    destruct c as [|current| |g]; [..|by destruct (Hnh g)].
    + destruct (acquire_count (st_arcs s a w)) as [l [current|]] eqn:El; simplify_eq/=.
      * apply (ops_inv_move i t _ s); try done.
        -- intros a' w'. cbn [set_arcs st_arcs st_trace]. rewrite set_lim_at, Hphase. unfold phase, with_acq. cbn. rewrite Ep.
           destruct (decide ((a', w') = (a, w))) as [[= -> ->]|Hne].
           ++ rewrite !bool_decide_true by done. by apply move_exceed.
           ++ rewrite !bool_decide_false by congruence. apply move_same.
        -- split; try done. intros ? ? [= <- <-]. split_and!; [done|done|]. cbn. rewrite Ep. by do 3 eexists.
        -- apply (inv_old _ Hinv).
      * apply (ops_inv_move i t _ s); try done.
        -- intros a' w'. cbn [set_arcs add_entry st_arcs st_trace]. rewrite set_lim_at, Hphase, countb_app.
           unfold phase, with_acq. cbn. rewrite Ep.
           destruct (decide ((a', w') = (a, w))) as [[= -> ->]|Hne].
           ++ rewrite !bool_decide_true by done. by apply move_pass.
           ++ rewrite !bool_decide_false by congruence. rewrite Z.add_0_r. apply move_same.
        -- split; try done. intros ? ? [= <- <-]. split_and!; [done|done|]. cbn. rewrite Ep. by do 3 eexists.
        -- intros a' w' Hge. cbn [set_arcs add_entry st_arcs st_trace]. rewrite countb_app, (inv_old _ Hinv) by done. cbn.
           rewrite bool_decide_false; [done|]. intros [= -> ->]. lia.
        -- intros a' w'. cbn [set_arcs add_entry st_trace]. rewrite countb_app. cbn. lia.
        -- intros owner held c. cbn [set_arcs add_entry st_trace]. rewrite elem_of_app, list_elem_of_singleton.
           by intros [?|?].
    + destruct (acquire_undo current (st_arcs s a w)) as [l e] eqn:El. simplify_eq/=.
      apply (ops_inv_move i t _ s); try done.
      * intros a' w'. cbn [set_arcs st_arcs st_trace]. rewrite set_lim_at, Hphase.
        change (phase a' w' (with_acq None (with_prog (over e) t))) with (held_phase a' w' t).
        destruct (decide ((a', w') = (a, w))) as [[= -> ->]|Hne].
        -- rewrite !bool_decide_true, Hfree by done. by eapply move_undo.
        -- rewrite !bool_decide_false by congruence. apply move_same.
      * apply (ok_goes_on (st_next s) (with_acq None t)); [by split|done|done|apply Hover].
      * apply (inv_old _ Hinv).
    + destruct (acquire_permit (st_arcs s a w)) as [[l g]|] eqn:El; [|done]. simplify_eq/=.
      apply (ops_inv_move i t _ s); try done.
      * intros a' w'. cbn [set_arcs st_arcs st_trace]. rewrite set_lim_at, Hphase. unfold phase, held_phase. cbn.
        destruct (decide ((a', w') = (a, w))) as [[= -> ->]|Hne].
        -- rewrite !bool_decide_true by done. by apply move_permit.
        -- rewrite !bool_decide_false by congruence. apply move_same.
      * split; cbn; try done; [by constructor|by constructor].
      * apply (inv_old _ Hinv).
  - simplify_eq/=. apply (ops_inv_move i t _ s'); try done.
    + intros a' w'. replace (phase a' w' (with_acq _ t)) with (phase a' w' t); [apply move_same|].
      unfold phase, with_acq. cbn. rewrite Ea, Ep.
      destruct (bool_decide ((_, w) = (a', w'))) eqn:E; [apply bool_decide_eq_true in E|done]. injection E as <- <-. apply Hfree.
    + split; try done. intros ? ? [= <- <-]. split_and!; [apply Hinv|done|]. cbn. rewrite Ep. by do 3 eexists.
    + apply (inv_old _ Hinv).
Qed.

Lemma drop_one_ok a w k i t t' s s' :
  inv s -> small s -> st_tasks s !! i = Some t -> t_prog t = PDrop a w k -> drop_one a w k t s = Some (s', t') ->
  inv (set_tasks (<[i := t']> (st_tasks s)) s').
Proof.
  intros Hinv Hsmall Hi Ep H. pose proof (Forall_lookup_1 _ _ _ _ (inv_ok _ Hinv) Hi) as Hok.
  pose proof (no_acq _ _ Hok ltac:(intros ? ? ?; by rewrite Ep)) as Hna.
  pose proof (not_calling _ _ Hok ltac:(intros ? ?; by rewrite Ep)) as Hnc.
  destruct Hok as [Hv Hh Harcs Hacq Hcall]. rewrite Ep in Hv. unfold drop_one in H.
  destruct (t_held t) as [|[[a0 w0] g] held] eqn:Eh; [done|]. destruct Hv as [[= -> ->] Hv].
  rewrite bool_decide_true in H by done. simplify_eq/=. apply NoDup_cons in Hh as [Hw Hh].
  apply (ops_inv_move i t _ s); try done.
  - intros a' w'. cbn [set_arcs st_arcs st_trace]. rewrite set_lim_at, phase_held by done.
    rewrite (phase_held (with_held held (with_prog k t))) by done. unfold held_phase. cbn. rewrite Eh. cbn.
    destruct (decide ((a', w') = (a, w))) as [[= -> ->]|Hne].
    + rewrite !bool_decide_true, held_at_None by done. apply move_drop.
    + rewrite !bool_decide_false by congruence. apply move_same.
  - split; cbn; try done; [by inversion Harcs|by rewrite Hna].
  - apply (inv_old _ Hinv).
Qed.

Lemma inv_goes_on i t p s s' :
  inv s -> small s -> st_tasks s !! i = Some t ->
  (forall w over k, t_prog t <> PAcquire w over k) -> (forall c k, t_prog t <> PCall c k) ->
  valid (fun _ h _ => h = []) (bool_decide (t_call t <> Spent)) (t_held t).*1 p ->
  st_next s' = st_next s -> st_request s' = st_request s -> st_depths s' = st_depths s -> st_arcs s' = st_arcs s ->
  (st_trace s' = st_trace s \/ exists tx m, st_trace s' = st_trace s ++ [Logged tx m]) ->
  inv (set_tasks (<[i := with_prog p t]> (st_tasks s)) s').
Proof.
  intros Hinv Hsmall Hi Hp Hc Hv En Er Ed Ea Et. pose proof (Forall_lookup_1 _ _ _ _ (inv_ok _ Hinv) Hi) as Hok.
  pose proof (no_acq _ _ Hok Hp) as Hna. pose proof (not_calling _ _ Hok Hc) as Hnc.
  assert (Hcount : forall a w, countb (is_pass a w) (st_trace s') = countb (is_pass a w) (st_trace s) /\
    countb (is_call a w) (st_trace s') = countb (is_call a w) (st_trace s)).
  { intros a w. destruct Et as [->|(tx & m & ->)]; [done|]. rewrite !countb_app. cbn. lia. }
  apply (ops_inv_move i t _ s); try done.
  - intros a w. rewrite Ea, (proj1 (Hcount a w)), !phase_held by done. apply move_same.
  - by apply ok_goes_on.
  - intros a w Hge. rewrite (proj1 (Hcount a w)). by apply (inv_old _ Hinv).
  - intros a w. apply Hcount.
  - intros owner held c. destruct Et as [->|(tx & m & ->)]; [done|]. rewrite elem_of_app, list_elem_of_singleton. by intros [?|?].
Qed.

Lemma advance_ok i t t' s s' :
  inv s -> small s -> st_tasks s !! i = Some t -> advance self t s = Some (s', t') ->
  inv (set_tasks (<[i := t']> (st_tasks s)) s').
Proof.
  intros Hinv Hsmall Hi H. pose proof (ok_valid _ _ (Forall_lookup_1 _ _ _ _ (inv_ok _ Hinv) Hi)) as Hv.
  unfold advance in H. destruct (t_prog t) as [x|w over k|a w k|k|k|k|m k|c k] eqn:Ep; try done.
  - by eapply acquire_one_ok.
  - by eapply drop_one_ok.
  - simplify_eq/=. eapply inv_goes_on; try done; try (intros; by rewrite Ep); [|by left].
    apply Hv. unfold next_depth. destruct (inv_depth _ Hinv) as [Hd Hds]. destruct (h_object self); [|lia].
    assert (0 <= deepest (st_depths s') <= MAX_CALL_DEPTH); [|lia]. clear -Hds.
    induction Hds as [|d l Hd _ IH]; simpl; unfold MAX_CALL_DEPTH in *; lia.
  - simplify_eq/=. eapply inv_goes_on; try done; try (intros; by rewrite Ep); by left.
  - simplify_eq/=. eapply inv_goes_on; try done; try (intros; by rewrite Ep); unfold log_line; cbn;
      destruct (rs_log_tx (st_request s)); try done; [right; by do 2 eexists|by left].
Qed.

Lemma drop_guards_at held arcs a w : NoDup held.*1.*2 ->
  drop_guards held arcs a w =
  match held_at a w held with Some g => Limiter.drop_guard g (arcs a w) | None => arcs a w end.
Proof.
  revert arcs. induction held as [|[[a0 w0] g] held IH]; intros arcs Hd; [done|]. apply NoDup_cons in Hd as [Hw Hd].
  unfold drop_guards in *. cbn [foldl]. rewrite IH by done. cbn. rewrite set_lim_at.
  destruct (decide ((a, w) = (a0, w0))) as [[= -> ->]|Hne].
  - rewrite !bool_decide_true, held_at_None by done. done.
  - rewrite !bool_decide_false by congruence. done.
Qed.

Lemma cancel_ok i t s :
  inv s -> small s -> st_tasks s !! i = Some t -> awaits t = true ->
  inv (set_tasks (<[i := mkTask (t_owner t) (Ret tt) None [] Spent]> (st_tasks s))
    (set_arcs (drop_guards (t_held t) (st_arcs s)) s)).
Proof.
  intros Hinv Hsmall Hi Ha. pose proof (Forall_lookup_1 _ _ _ _ (inv_ok _ Hinv) Hi) as Hok.
  apply (ops_inv_move i t _ s _ Hinv Hsmall Hi); try done.
  - intros a w. cbn [set_arcs st_arcs st_trace]. rewrite drop_guards_at by apply Hok.
    change (phase a w (mkTask (t_owner t) (Ret tt) None [] Spent)) with Limiter.Idle.
    assert (Hheld : cell_move (st_arcs s a w) (held_phase a w t) (countb (is_pass a w) (st_trace s))
      (match held_at a w (t_held t) with Some g => Limiter.drop_guard g (st_arcs s a w) | None => st_arcs s a w end)
      Limiter.Idle (countb (is_pass a w) (st_trace s))).
    { unfold held_phase. destruct (held_at a w (t_held t)); [apply move_drop|apply move_same]. }
    unfold phase. destruct (t_acq t) as [[a' c]|] eqn:Eq; [|done].
    pose proof (ok_acq _ _ Hok a' c Eq) as (_ & Hnh & w' & over & k & Ep). rewrite Ep.
    destruct (bool_decide ((a', w') = (a, w))) eqn:E; [|done]. apply bool_decide_eq_true in E. injection E as -> ->.
    pose proof (ok_valid _ _ Hok) as Hv. rewrite Ep in Hv. destruct Hv as [Hw _]. rewrite held_at_None by done.
    unfold awaits in Ha. rewrite Eq in Ha. destruct c as [|current| |g]; [| |apply move_cancel|by destruct (Hnh g)];
      apply bool_decide_eq_true in Ha; by destruct (not_calling _ _ Hok ltac:(intros ? ?; by rewrite Ep)).
  - split; cbn; try done; constructor.
  - apply (inv_old _ Hinv).
Qed.

Lemma held_busy t a w : busy (held_phase a w t) = bool_decide ((a, w) ∈ (t_held t).*1).
Proof.
  unfold held_phase. pose proof (held_at_Some a w (t_held t)) as H. destruct (held_at a w (t_held t)) as [g|]; symmetry.
  - apply bool_decide_eq_true, H. by eexists.
  - apply bool_decide_eq_false. intros [? ?]%H. done.
Qed.

Lemma call_ok i t c k s :
  inv s -> st_tasks s !! i = Some t -> t_prog t = PCall c k -> t_call t = Fresh ->
  inv (set_tasks (<[i := mkTask (t_owner t) (t_prog t) (t_acq t) (t_held t) Calling]> (st_tasks s))
    (add_entry (Called (t_owner t) (t_held t).*1 c) s)).
Proof.
  intros Hinv Hi Ep Ef. pose proof (Forall_lookup_1 _ _ _ _ (inv_ok _ Hinv) Hi) as Hok.
  pose proof (no_acq _ _ Hok ltac:(intros ? ? ?; by rewrite Ep)) as Hna.
  destruct Hok as [Hv Hh Harcs Hacq Hcall]. rewrite Ef, Ep in Hv. pose proof Hv as (_ & Hal & Hk).
  set (t' := mkTask _ _ _ _ Calling). destruct Hinv as [Hc Ho Hn Hd Hcalls Hold Hall].
  assert (Hph : forall a w, phase a w t' = phase a w t) by done.
  split; cbn [st_next st_request st_depths st_tasks st_trace set_tasks add_entry]; try done.
  - intros a w Ha. specialize (Hc a w Ha). unfold cell in *. cbn [st_arcs st_tasks st_trace set_tasks add_entry].
    rewrite countb_app, (list_fmap_insert (phase a w) (st_tasks s) i t' : map _ _ = _), Hph, list_insert_id
      by (by rewrite list_lookup_fmap, Hi). cbn. by rewrite Z.add_0_r.
  - apply Forall_insert; [done|]. split; try done; cbn; [by rewrite Ep|]. intros _. rewrite Ep. by do 2 eexists.
  - intros a w. rewrite !countb_app, (countb_insert _ _ _ _ _ Hi). specialize (Hcalls a w). cbn [countb is_call is_pass].
    assert (pending a w t = bool_decide ((a, w) ∈ (t_held t).*1)) as ->
      by (unfold pending; by rewrite Ef, (phase_held t), held_busy by done).
    change (if pending a w t' then 1 else 0) with 0. destruct (bool_decide (_ ∈ _)); lia.
  - intros a w Ha. rewrite countb_app, Hold by done. done.
  - intros owner held c'. rewrite elem_of_app, list_elem_of_singleton. intros [?|[= -> -> ->]]; [by eapply Hall|done].
Qed.

Lemma answer_ok i t c k x s :
  inv s -> small s -> st_tasks s !! i = Some t -> t_prog t = PCall c k -> t_call t = Calling ->
  inv (set_tasks (<[i := mkTask (t_owner t) (k x) (t_acq t) (t_held t) Spent]> (st_tasks s)) s).
Proof.
  intros Hinv Hsmall Hi Ep Ec. pose proof (Forall_lookup_1 _ _ _ _ (inv_ok _ Hinv) Hi) as Hok.
  pose proof (no_acq _ _ Hok ltac:(intros ? ? ?; by rewrite Ep)) as Hna.
  destruct Hok as [Hv Hh Harcs Hacq Hcall]. rewrite Ep in Hv. destruct Hv as (_ & _ & Hk).
  apply (ops_inv_move i t _ s); try done.
  - intros a w. rewrite !phase_held by done. apply move_same.
  - split; try done; cbn; [apply Hk|by rewrite Hna].
  - apply (inv_old _ Hinv).
Qed.

Lemma inv_idle_caller limit l callers p :
  Limiter.inv limit (mkSys l callers p) -> Limiter.inv limit (mkSys (Sem := Sem) l (callers ++ [Limiter.Idle]) p).
Proof.
  intros (H1 & H2 & H3). split; [done|]. split.
  - cbn [Limiter.callers] in *. rewrite countb_app. cbn. rewrite Z.add_0_r. done.
  - cbn [Limiter.callers Limiter.sys_lim] in *. destruct (0 <? _); [|done]. destruct H3 as (x & ? & ? & ?). exists x.
    rewrite countb_app. cbn. rewrite Z.add_0_r. split_and!; try done. apply Forall_app. by repeat constructor.
Qed.

Lemma op_ok op s : inv s -> inv (set_tasks (st_tasks s ++ [mkTask (st_requests s) (handler self op) None [] Fresh]) s).
Proof.
  intros [Hc Ho Hn Hd Hcalls Hold Hall]. set (t := mkTask _ _ _ _ _).
  split; cbn [st_next st_request st_depths st_tasks st_trace set_tasks]; try done.
  - intros a w Ha. unfold cell. cbn [st_arcs st_tasks st_trace set_tasks]. rewrite map_app. by apply inv_idle_caller, Hc.
  - apply Forall_app. split; [done|]. constructor; [|done]. split; cbn; try done; [apply handler_valid|constructor].
  - intros a w. rewrite countb_app. specialize (Hcalls a w). cbn [countb]. change (if pending a w t then 1 else 0) with 0. lia.
Qed.

(** Between two requests, no task is at the limiters of the next one. *)
Lemma phase_above next t a w : task_ok next t -> (next <= a)%nat -> phase a w t = Limiter.Idle.
Proof.
  intros [_ _ Harcs Hacq _] Ha.
  assert (Hh : held_phase a w t = Limiter.Idle).
  { unfold held_phase. destruct (held_at a w (t_held t)) as [g|] eqn:E; [exfalso|done].
    assert (Hin : (a, w) ∈ (t_held t).*1) by (apply held_at_Some; by eexists).
    apply list_elem_of_fmap in Hin as ([h g'] & Eh & Hin). cbn in Eh. subst h. rewrite Forall_forall in Harcs. specialize (Harcs _ Hin). cbn in Harcs. lia. }
  unfold phase. destruct (t_acq t) as [[a' c]|] eqn:E; [|done]. destruct (Hacq a' c eq_refl) as (Hlt & _).
  destruct (t_prog t); try done. rewrite bool_decide_false; [done|]. intros [= -> ->]. lia.
Qed.

Hypothesis limits_ok : forall w, 0 <= bl_max_total (runtime_limit w).

Lemma update_ok log_tx depth s : 0 <= depth <= MAX_CALL_DEPTH -> inv s -> inv (update_request log_tx depth s).
Proof.
  intros Hdep [Hc Ho Hn Hd Hcalls Hold Hall].
  split; cbn [st_next st_request st_depths st_tasks st_trace update_request rs_limiters rs_depth]; try done.
  - intros a w Ha. unfold cell. cbn [st_arcs st_tasks st_trace update_request]. destruct (decide (a = st_next s)) as [->|Hne].
    + rewrite bool_decide_true, Hold by done. unfold limit_of. rewrite bool_decide_false by lia.
      replace (map (phase (st_next s) w) (st_tasks s)) with (replicate (length (st_tasks s)) Limiter.Idle).
      * replace (of_limiters (limiters_new limits) w) with (limiter_new (Sem := Sem) (runtime_limit w)
          (match w with WFetch => "fetch" | WKv => "kv" | WDatabase => "database" | WStorage => "storage" end)) by by destruct w.
        apply (Limiter.inv_init (runtime_limit w)). apply limits_ok.
      * clear -Ho. induction Ho as [|t l Ht _ IH]; simpl; [done|]. by rewrite (phase_above _ _ _ _ Ht), IH by lia.
    + rewrite bool_decide_false by done. apply Hc. lia.
  - eapply Forall_impl; [exact Ho|]. intros t [Hv Hh Ha Hq Hcall]. split; try done.
    + eapply Forall_impl; [exact Ha|]. cbn. lia.
    + intros a c Heq. destruct (Hq a c Heq) as (? & ? & ?). split_and!; [lia|done|done].
  - lia.
  - split; [done|apply Hd].
  - intros a w Ha. apply Hold. lia.
Qed.

Lemma ops_inv_step s s' : step self s s' -> small s' -> inv s -> inv s'.
Proof.
  intros Hstep Hsmall Hinv.
  assert (Hs : small s).
  { intros a w. specialize (Hsmall a w). destruct Hstep; cbn in Hsmall; rewrite ?length_app, ?length_insert in Hsmall; simpl in Hsmall; lia. }
  destruct Hstep as [op s|i t t' s s' Hi Ha|i t k x s Hi Ep|i t c k s Hi Ep Ef|i t c k x s Hi Ep Ef|i t s Hi Ha|tx d s Hd|ds s Hd].
  - by apply op_ok.
  - by eapply advance_ok.
  - pose proof (ok_valid _ _ (Forall_lookup_1 _ _ _ _ (inv_ok _ Hinv) Hi)) as Hv. rewrite Ep in Hv.
    apply inv_goes_on; try done; try (intros; by rewrite Ep); try apply Hv; by left.
  - by eapply call_ok.
  - by eapply answer_ok.
  - by apply cancel_ok.
  - by apply update_ok.
  - destruct Hinv as [Hc Ho Hn Hdep Hcalls Hold Hall]. split; try done. split; [apply Hdep|done].
Qed.

Hypothesis first_ok : forall w, 0 <= bl_max_total (first w).

Lemma start_inv depth : 0 <= depth <= MAX_CALL_DEPTH -> inv (start first name depth).
Proof.
  intros Hd. split; cbn; try done; [|lia|by intros ? ? ? ?%not_elem_of_nil].
  intros a w Ha. assert (a = 0%nat) as -> by lia. apply (Limiter.inv_init (first w) (name w) 0). apply first_ok.
Qed.

Lemma ops_inv_reachable depth s :
  0 <= depth <= MAX_CALL_DEPTH -> rtc (step self) (start first name depth) s -> small s -> inv s.
Proof.
  intros Hd Hr. revert s Hr. apply (rtc_ind_r (fun s => small s -> inv s)); [intros _; by apply start_inv|].
  intros s s' Hr Hstep IH Hsmall. apply (ops_inv_step s s' Hstep Hsmall). apply IH.
  intros a w. specialize (Hsmall a w). destruct Hstep; cbn in Hsmall; rewrite ?length_app, ?length_insert in Hsmall; simpl in Hsmall; lia.
Qed.

(** ** Properties *)

(** A task that awaits a service under a limiter holds a permit of it. *)
Lemma in_flight_holds next limit l p a w tasks :
  Forall (task_ok next) tasks -> 0 < bl_max_concurrent limit ->
  Limiter.inv limit (mkSys (Sem := Sem) l (map (phase a w) tasks) p) ->
  countb (in_flight a w) tasks <= countb holding (map (phase a w) tasks).
Proof.
  intros Hok Hpos (_ & _ & Hc). rewrite (proj2 (Z.ltb_lt _ _)) in Hc by lia. destruct Hc as (x & _ & _ & Hall).
  cbn [Limiter.callers] in Hall. induction Hok as [|t tasks Ht _ IH]; simpl; [done|].
  inversion Hall as [|c k Hg Hall' E]. subst. specialize (IH Hall').
  assert ((if in_flight a w t then 1 else 0) <= (if holding (phase a w t) then 1 else 0)); [|lia].
  destruct (in_flight a w t) eqn:Ef; [|by destruct (holding _)].
  unfold in_flight in Ef. apply andb_true_iff in Ef as [Ec%bool_decide_eq_true Ein%bool_decide_eq_true].
  destruct (ok_calling _ _ Ht Ec) as (c & k & Ep). pose proof (no_acq _ _ Ht ltac:(intros ? ? ?; by rewrite Ep)) as Hna.
  rewrite phase_held in * by done. unfold held_phase in *. apply held_at_Some in Ein as [g Eg]. rewrite Eg in *.
  cbn in *. by rewrite Hg.
Qed.

(** C32. Each limiter of a handle bounds the calls made under it. Whatever
    operations a worker starts on a handle, in any interleaving with their
    cancellations and with the requests that reuse the handle, the calls made
    under one limiter are at most its total, and at most its concurrent limit
    of them are under way at once. It is a bound on the limiter a call took,
    the one the handle had at that moment: after the handle has passed to
    another request, that is the limiter of that request
    ([reused_handle_forgets_depth]). *)
Theorem ops_limited (depth : Z) (s : state) (a : nat) (w : which) :
  0 <= depth <= MAX_CALL_DEPTH -> rtc (step self) (start first name depth) s -> small s -> (a < st_next s)%nat ->
  (0 < bl_max_total (limit_of a w) -> countb (is_call a w) (st_trace s) <= bl_max_total (limit_of a w)) /\
  (0 < bl_max_concurrent (limit_of a w) -> countb (in_flight a w) (st_tasks s) <= bl_max_concurrent (limit_of a w)).
Proof.
  intros Hd Hr Hsmall Ha. pose proof (ops_inv_reachable depth s Hd Hr Hsmall) as Hinv.
  pose proof (inv_cells _ Hinv a w Ha) as Hc. split; intros Hpos.
  - destruct Hc as (_ & Ht & _). destruct (Ht Hpos) as [_ Hp]. cbn in Hp. pose proof (inv_calls _ Hinv a w).
    pose proof (countb_nonneg (pending a w) (st_tasks s)). lia.
  - pose proof (in_flight_holds _ _ _ _ _ _ _ (inv_ok _ Hinv) Hpos Hc) as Hf. destruct Hc as (_ & _ & Hc).
    rewrite (proj2 (Z.ltb_lt _ _)) in Hc by lia. destruct Hc as (x & _ & Hav & _). cbn in Hav.
    pose proof (available_nonneg x). lia.
Qed.

(** C4. A worker reaches only what it is bound to. Each call that any of its
    operations makes, in any interleaving, is one its bindings allow, under
    the guard of its limiter: the network through the guarded client, a bucket
    with the URL its prefix gives, the runner itself with a mark and a depth,
    the namespace, schema, database or object that a binding of the worker
    names. A database or an object so reached belongs to the owner of the
    worker. *)
Theorem ops_confined (db : Store.Db) (identifier : WorkerIdentifier) (m : WorkerMeta) (depth : Z) (s : state)
    (owner : nat) (held : list (nat * which)) (c : Call) :
  get_worker_meta db identifier = Some m -> bindings = wm_bindings m ->
  0 <= depth <= MAX_CALL_DEPTH -> rtc (step self) (start first name depth) s -> small s ->
  Called owner held c ∈ st_trace s ->
  allowed held c /\
  match c with
  | CD1 id _ => exists key, owned db (wm_user_id m) (BD1 key id)
  | CObject namespace _ _ _ => exists key, owned db (wm_user_id m) (BDurableObject key namespace)
  | _ => True
  end.
Proof.
  intros Hm Hb Hd Hr Hsmall Hin. pose proof (inv_allowed _ (ops_inv_reachable depth s Hd Hr Hsmall) _ _ _ Hin) as Hal.
  split; [done|]. apply get_worker_meta_inv in Hm as (rows & Hrows & _).
  pose proof (convert_rows_owned db (wm_user_id m) rows) as Hown. rewrite <- Hrows, <- Hb in Hown.
  rewrite Forall_forall in Hown. destruct Hal; try done; eexists; by apply Hown.
Qed.
End confined.

(** The handle of a task of a worker (src/src/task_executor.rs), and of a
    Durable Object (src/src/durable/mod.rs). *)
Definition task_handle (data : WorkerWithBindings) : Handle :=
  mkHandle None (Some (wb_id data)) (from_bindings (wb_bindings data)) true None.
Definition object_handle (data : WorkerWithBindings) (namespace : NamespaceConfig) (object_id : string) : Handle :=
  mkHandle (Some (wb_user_id data)) (Some (wb_id data)) (from_bindings (wb_bindings data)) true
    (Some (mkServed namespace object_id true)).
Definition task_depth (headers : option (gmap string string)) : Z :=
  match headers with Some h => call_depth h | None => 0 end.

(** ** Runs *)

(** A task runs until it waits or calls a service. *)
Fixpoint run (self : Handle) (n : nat) (i : nat) (s : state) : state :=
  match n, st_tasks s !! i with
  | S n, Some t =>
    match t_prog t with
    | PRandom k => run self n i (set_tasks (<[i := with_prog (k "0123456789abcdef0123456789abcdef") t]> (st_tasks s)) s)
    | PCall c _ =>
      if bool_decide (t_call t = Fresh)
      then set_tasks (<[i := mkTask (t_owner t) (t_prog t) (t_acq t) (t_held t) Calling]> (st_tasks s))
             (add_entry (Called (t_owner t) (t_held t).*1 c) s)
      else s
    | _ =>
      match advance self t s with
      | Some (s', t') => run self n i (set_tasks (<[i := t']> (st_tasks s)) s')
      | None => s
      end
    end
  | _, _ => s
  end.

Lemma run_reachable self n i s s0 : rtc (step self) s0 s -> rtc (step self) s0 (run self n i s).
Proof.
  revert s. induction n as [|n IH]; intros s Hs; simpl; [done|]. destruct (st_tasks s !! i) as [t|] eqn:Ei; [|done].
  assert (Hadv : rtc (step self) s0 match advance self t s with
    | Some (s', t') => run self n i (set_tasks (<[i := t']> (st_tasks s)) s') | None => s end).
  { destruct (advance self t s) as [[s' t']|] eqn:Ea; [|done]. apply IH. eapply rtc_r; [exact Hs|]. by eapply step_advance. }
  destruct (t_prog t) as [x|w over k|a w k|k|k|k|m k|c k] eqn:Ep; try exact Hadv.
  - apply IH. eapply rtc_r; [exact Hs|]. by apply step_random.
  - case_bool_decide; [|done]. eapply rtc_r; [exact Hs|]. rewrite <- Ep. by eapply step_call.
Qed.

Definition started (self : Handle) (op : GuestOp) (s : state) : state :=
  set_tasks (st_tasks s ++ [mkTask (st_requests s) (handler self op) None [] Fresh]) s.
End ops.

Arguments Ret {V KvRes D1Op D1Res ObjRes A}.
Arguments PAcquire {V KvRes D1Op D1Res ObjRes A}.
Arguments PDrop {V KvRes D1Op D1Res ObjRes A}.
Arguments PNextDepth {V KvRes D1Op D1Res ObjRes A}.
Arguments PRandom {V KvRes D1Op D1Res ObjRes A}.
Arguments PCountFetch {V KvRes D1Op D1Res ObjRes A}.
Arguments PLog {V KvRes D1Op D1Res ObjRes A}.
Arguments PCall {V KvRes D1Op D1Res ObjRes A}.

(** ** Witnesses *)

Definition ex_limits : RuntimeLimits := mkLimits (mkLimit 50 6) (mkLimit 1000 10) (mkLimit 100 5) (mkLimit 100 5).
Definition ex_meta_handle : Handle := mkHandle None (Some "w1") (from_bindings (wm_bindings test_meta)) true None.
Definition ex_worker_handle : Handle :=
  mkHandle None (Some "w1") (from_bindings [BWorker "SVC" (mkWorkerBindingConfig "w2" None)]) true None.
Definition ex_request : HttpRequest := mkHttpRequest MGet "http://svc/next" ∅ BNone.
Definition ex_first (w : which) : BindingLimit := runtime_limit ex_limits w.
Definition ex_name (_ : which) : string := "limiter".
Definition ex_pass (_ : string) : result unit string := Ok tt.
Definition ex_sql (_ : string) : result ParsedQuery string := Err "no SQL".

#[local] Instance ex_Handshake : Handshake := {| base64_decode s := Some s; derive_accept_key s := s |}.

(** The services answer with texts; nothing here depends on it. *)
Definition ex_state : Type := state (Sem := N) (V := string) (KvRes := string) (D1Op := string) (D1Res := string) (ObjRes := string).
Definition ex_step (self : Handle) : ex_state -> ex_state -> Prop :=
  step (U := web_url) (Sv := bucket_store) [] None ex_pass to_ascii_lowercase ex_sql true ex_limits self.
Definition ex_op (self : Handle) (op : GuestOp) (s : ex_state) : ex_state :=
  started (U := web_url) (Sv := bucket_store) [] None ex_pass to_ascii_lowercase ex_sql true self op s.
Definition ex_start : Z -> ex_state := start ex_first ex_name.

Lemma ex_op_step self op s : ex_step self s (ex_op self op s).
Proof. apply step_op. Qed.

(** A worker reads its database. *)
Definition ex_d1 : ex_state := run ex_meta_handle 10 0 (ex_op ex_meta_handle (OD1 "DB" "select 1") (ex_start 0)).

Lemma ex_d1_reachable : rtc (ex_step ex_meta_handle) (ex_start 0) ex_d1.
Proof. apply run_reachable. eapply rtc_r; [apply rtc_refl|apply ex_op_step]. Qed.

Lemma ops_confined_witness :
  st_trace ex_d1 = [Called 0 [] (CD1 "d-alice" "select 1")] /\ owned test_db "alice" (BD1 "DB" "d-alice").
Proof.
  assert (E : st_trace ex_d1 = [Called 0 [] (CD1 "d-alice" "select 1")]) by (vm_compute; reflexivity). split; [exact E|].
  destruct (ops_confined (U := web_url) (Sv := bucket_store) [] None ex_pass to_ascii_lowercase ex_sql true ex_limits
    ex_meta_handle (wm_bindings test_meta) (from_bindings_found _) ex_first ex_name
    ltac:(by intros []) ltac:(by intros []) test_db (Name "hello") test_meta 0 ex_d1 0 []
    (CD1 "d-alice" "select 1")) as [_ [key Hown]].
  - vm_compute. reflexivity.
  - reflexivity.
  - unfold MAX_CALL_DEPTH. lia.
  - exact ex_d1_reachable.
  - intros a w. unfold limit_of. destruct (bool_decide _); by destruct w.
  - rewrite E. left.
  - exact Hown.
Defined.

(** Two calls of a service binding, one of them under way. *)
Definition ex_calls : ex_state :=
  run ex_worker_handle 20 1 (ex_op ex_worker_handle (OWorker "SVC" ex_request)
    (run ex_worker_handle 20 0 (ex_op ex_worker_handle (OWorker "SVC" ex_request) (ex_start 3)))).

Lemma ex_calls_reachable : rtc (ex_step ex_worker_handle) (ex_start 3) ex_calls.
Proof.
  apply run_reachable. eapply rtc_r; [|apply ex_op_step]. apply run_reachable. eapply rtc_r; [apply rtc_refl|apply ex_op_step].
Qed.

Lemma ops_limited_witness :
  countb (is_call 0 WFetch) (st_trace ex_calls) = 2 /\ countb (in_flight 0 WFetch) (st_tasks ex_calls) <= 6.
Proof.
  split; [vm_compute; reflexivity|].
  apply (ops_limited (U := web_url) (Sv := bucket_store) [] None ex_pass to_ascii_lowercase ex_sql true ex_limits
    ex_worker_handle [BWorker "SVC" (mkWorkerBindingConfig "w2" None)] (from_bindings_found _) ex_first ex_name
    ltac:(by intros []) ltac:(by intros []) 3 ex_calls 0 WFetch).
  - unfold MAX_CALL_DEPTH. lia.
  - exact ex_calls_reachable.
  - intros a w. unfold limit_of. destruct (bool_decide _); by destruct w.
  - vm_compute. lia.
  - reflexivity.
Defined.

(** A request that reuses a handle takes the operations of the one before
    with it. A run in which a request at the deepest level that is served
    starts a call to another worker, the next request swaps the state of the
    handle, and the call goes out at depth 1, counted on the limiters of the
    next request: neither the depth nor the limits of the first one bind
    it. *)
Theorem reused_handle_forgets_depth :
  exists s, rtc (ex_step ex_worker_handle) (ex_start MAX_CALL_DEPTH) s /\
  exists request, Called 0 [(1%nat, WFetch)] (CFetch request None None Unrestricted) ∈ st_trace s /\
    rq_headers request !! CALL_DEPTH_HEADER = Some "1".
Proof.
  exists (run ex_worker_handle 20 0 (update_request ex_limits "log" 0
    (ex_op ex_worker_handle (OWorker "SVC" ex_request) (ex_start MAX_CALL_DEPTH)))).
  split.
  - apply run_reachable. eapply rtc_r; [|apply step_update; unfold MAX_CALL_DEPTH; lia].
    eapply rtc_r; [apply rtc_refl|apply ex_op_step].
  - eexists. split; [vm_compute; right; left|]. vm_compute. reflexivity.
Qed.
