(* ===== verification/CallChain.v ===== *)
(** * Chains of calls between workers (src/src/ops.rs, src/bin/main.rs)

    A worker that calls another one sends a request to the runner itself, with
    the depth its handle gives. Here the two sides meet: the handle that reads
    the depth ([Ops]), the wire ([Fetch]) and the server that counts and
    refuses ([Server]). *)

From S2P Require Import Prelude RustStr Extern Limiter NetGuard Addr Url Store DurableRegistry DurableId ObjectStorage Storage Ingress Fetch WebSocket DurableSockets Database Server Ops.

Section depths.
Context {U Sv Sem : Type} {url : UrlLib U} {client : S3Client U Sv} {pct : Percent}
  {hmac : Hmac} {hex : Hex} {sem : Semaphore Sem} {hs : Handshake}.
Context {V KvRes D1Op D1Res ObjRes : Type}.
Variables (domains : list string) (port : option Z) (guard : string -> result unit string)
  (to_lowercase : string -> string) (parse_and_validate : string -> result ParsedQuery string) (d1_on : bool)
  (limits : RuntimeLimits) (self : Handle).

Local Abbreviation state := (Ops.state (Sem := Sem) (V := V) (KvRes := KvRes) (D1Op := D1Op) (D1Res := D1Res) (ObjRes := ObjRes)).
Local Abbreviation Call := (Ops.Call (V := V) (D1Op := D1Op)).
Local Abbreviation prog := (Ops.prog (V := V) (KvRes := KvRes) (D1Op := D1Op) (D1Res := D1Res) (ObjRes := ObjRes)).
Local Abbreviation step := (Ops.step domains port guard to_lowercase parse_and_validate d1_on limits self).
Local Abbreviation handler := (Ops.handler domains port guard to_lowercase parse_and_validate d1_on self).

(** ** The depth a request's calls carry *)

(** The runner is called with a request that it routed at depth [d]. *)
Definition routed_at (d : Z) (c : Call) : Prop :=
  match c with
  | CFetch routed None _ Unrestricted => exists uuid request, routed_for port uuid domains d request routed
  | _ => True
  end.

(** A program that reads the depth [d] routes its calls at it. *)
Fixpoint at_depth {A} (d : Z) (p : prog A) : Prop :=
  match p with
  | Ret _ => True
  | PAcquire _ over k => (forall e, at_depth d (over e)) /\ (forall a, at_depth d (k a))
  | PDrop _ _ k | PCountFetch k | PLog _ k => at_depth d k
  | PNextDepth k => at_depth d (k d)
  | PRandom k => forall x, at_depth d (k x)
  | PCall c k => routed_at d c /\ forall x, at_depth d (k x)
  end.

Lemma at_depth_bind {A B} d (p : prog A) (f : A -> prog B) :
  at_depth d p -> (forall x, at_depth d (f x)) -> at_depth d (Ops.bind p f).
Proof. intros Hp Hf. induction p; simpl in *; naive_solver. Qed.

Lemma at_depth_limited {A} d w (failed : string -> A) (body : prog A) :
  at_depth d body -> at_depth d (limited w failed body).
Proof. intros Hb. split; [done|]. intros a. by apply at_depth_bind. Qed.

Lemma at_depth_binding_fetch d config request : at_depth d (do_binding_fetch self config request : prog _).
Proof.
  apply at_depth_limited. simpl. destruct (build_s3_url _ _); [|done]. by destruct (sign_s3_request _ _ _).
Qed.

Lemma handler_at_depth d op : at_depth d (handler op : prog _).
Proof.
  destruct op as [request|binding request|binding op|binding op|binding op|binding sql params|op|op|binding id request
    |binding request|u headers|message]; cbn [Ops.handler];
    lazymatch goal with |- at_depth _ (ignore _) => apply at_depth_bind; [|done] | _ => idtac end.
  - apply at_depth_limited. simpl. intros uuid. destruct (try_internal_worker_route _ _ _ _ _) eqn:E; simpl; [|done].
    split; [|done]. exists uuid, request. by left.
  - unfold handle_binding_fetch. destruct (_ !! binding); [apply at_depth_binding_fetch|by destruct (bc_kv _ !! _)].
  - unfold handle_binding_storage. destruct (_ !! binding); [|done]. apply at_depth_limited.
    destruct op; try done. apply at_depth_bind; [apply at_depth_binding_fetch|by intros []].
  - unfold handle_binding_d1. destruct (_ !! binding); [|done]. by destruct d1_on.
  - unfold handle_binding_kv. destruct (_ !! binding); [|done]. by destruct (h_db_pool self).
  - unfold handle_binding_database. destruct (_ !! binding) as [config|]; [|done]. apply at_depth_limited.
    destruct (parse_and_validate sql); [|done]. destruct (dc_connection_string config); [done|].
    destruct (dc_schema_name config); [|done]. by destruct (h_db_pool self).
  - unfold handle_durable_object_storage. destruct (h_object self); [|done]. destruct d1_on; [|done].
    destruct op; try done. by destruct (h_db_pool self).
  - unfold handle_durable_object_socket. destruct (h_object self) as [object|]; [|done].
    destruct op; [destruct (so_reload object); [|done]|..]; (split; [done|]; simpl; intros x; by destruct x).
  - unfold handle_binding_durable_object. destruct (_ !! binding) as [ns|]; [|done].
    destruct (parse _ id); [|done]. simpl. by destruct (MAX_CALL_DEPTH <? d).
  - unfold handle_binding_worker. destruct (_ !! binding) as [config|]; [|done]. apply at_depth_limited. simpl.
    intros uuid. split; [|done]. exists uuid, request. right. by eexists.
  - unfold handle_websocket_connect. destruct (guard _); [|done]. simpl. intros key. split; [done|].
    intros [r|e]; [|done]. destruct (negb _); [done|]. destruct (negb _); [done|]. by destruct (ws_upgrade r).
  - done.
Qed.

(** ** The states in which a handle serves one request *)

Variables (first : which -> BindingLimit) (name : which -> string).

(** A step that leaves the request of the handle in place. *)
Definition kept (s s' : state) : Prop := step s s' /\ st_requests s' = st_requests s.

(** The handle serves the request number [q], at depth [d]: the one it was made
    for, or one that took it over from another, whatever went before. *)
Inductive serving (d : Z) : nat -> state -> Prop :=
| serving_first s : rtc kept (start first name d) s -> serving d 0 s
| serving_next d0 log_tx s0 s : rtc step (start first name d0) s0 ->
    rtc kept (update_request limits log_tx d s0) s -> serving d (S (st_requests s0)) s.

(** Operations and calls belong to requests the handle has served. *)
Definition numbered (s : state) : Prop :=
  Forall (fun t => (t_owner t <= st_requests s)%nat) (st_tasks s) /\
  forall q held c, Called q held c ∈ st_trace s -> (q <= st_requests s)%nat.

Record serves (d : Z) (q : nat) (s : state) : Prop := mkServes {
  serves_depth : rs_depth (st_request s) = d;
  serves_number : st_requests s = q;
  serves_tasks : Forall (fun t => t_owner t = q -> at_depth (d + 1) (t_prog t)) (st_tasks s);
  serves_calls : forall held c, Called q held c ∈ st_trace s -> routed_at (d + 1) c }.

Lemma advance_shape t t' s s' : advance self t s = Some (s', t') ->
  t_owner t' = t_owner t /\ st_request s' = st_request s /\ st_requests s' = st_requests s /\
  (forall q held c, Called q held c ∈ st_trace s' -> Called q held c ∈ st_trace s) /\
  (at_depth (next_depth self s) (t_prog t) -> at_depth (next_depth self s) (t_prog t')).
Proof.
  assert (Hadd : forall e (l : list (Ops.entry (V := V) (D1Op := D1Op))) q held c, (forall q held c, e <> Called q held c) ->
    Called q held c ∈ l ++ [e] -> Called q held c ∈ l).
  { intros e l q held c He [?|E%list_elem_of_singleton]%elem_of_app; [done|]. by edestruct He. }
  unfold advance. destruct (t_prog t) as [x|w over k|a w k|k|k|k|m k|c k] eqn:Ep; try done.
  - unfold acquire_one. destruct (t_acq t) as [[a c]|]; [|by intros [= <- <-]; simpl; rewrite Ep].
    destruct c; try done.
    + destruct (acquire_count _) as [l [current|]]; intros [= <- <-]; simpl; rewrite Ep; split_and!; try done.
      intros q held c. by apply Hadd.
    + destruct (acquire_undo _ _) as [l e]. intros [= <- <-]. simpl. split_and!; try done. by intros [Ho _].
    + destruct (acquire_permit _) as [[l g]|]; [|done]. intros [= <- <-]. simpl. split_and!; try done. by intros [_ Hk].
  - unfold drop_one. destruct (t_held t) as [|[[a' w'] g] held]; [done|]. case_bool_decide; [|done].
    by intros [= <- <-].
  - by intros [= <- <-].
  - by intros [= <- <-].
  - intros [= <- <-]. simpl. unfold log_line. cbn [st_request set_stats]. destruct (rs_log_tx _); simpl; split_and!; try done.
    intros q held c. by apply Hadd.
Qed.

Lemma numbered_step s s' : step s s' -> numbered s -> numbered s'.
Proof.
  intros Hs [Ht Hc]. destruct Hs as [op s|i t t' s s' Hi Ha|i t k x s Hi Hp|i t c k s Hi Hp Hf|i t c k x s Hi Hp Hf
    |i t s Hi Hw|log_tx depth s Hd|ds s Hd]; try pose proof (Forall_lookup_1 _ _ _ _ Ht Hi) as Hle; simpl in *.
  - split; [|done]. apply Forall_app. split; [done|]. by apply Forall_singleton.
  - destruct (advance_shape _ _ _ _ Ha) as (Ho & _ & En & Htr & _). split; simpl; rewrite En.
    + apply Forall_insert; [done|]. by rewrite Ho.
    + intros q held c Hin. by eapply Hc, Htr.
  - split; [|done]. by apply Forall_insert.
  - split; simpl; [by apply Forall_insert|]. intros q held c' [?|E%list_elem_of_singleton]%elem_of_app; [by eapply Hc|].
    by injection E as -> _ _.
  - split; [|done]. by apply Forall_insert.
  - split; [|done]. by apply Forall_insert.
  - split; simpl; [eapply Forall_impl; [exact Ht|]; simpl; lia|]. intros q held c Hin%Hc. lia.
  - done.
Qed.

Lemma numbered_reachable d0 s : rtc step (start first name d0) s -> numbered s.
Proof.
  apply (rtc_invariant step numbered); [by intros; eapply numbered_step|].
  split; [by apply Forall_nil_2|]. by intros q held c ?%elem_of_nil.
Qed.

(** A run that ends with the request it began with kept it throughout. *)
Lemma requests_step (s s' : state) : step s s' -> (st_requests s <= st_requests s')%nat.
Proof.
  intros Hs. destruct Hs as [| i t t' s s' Hi Ha| | | | | |]; simpl; try lia.
  destruct (advance_shape _ _ _ _ Ha) as (_ & _ & En & _). lia.
Qed.

Lemma requests_run (s s' : state) : rtc step s s' -> (st_requests s <= st_requests s')%nat.
Proof. induction 1 as [|x y z Hs _ IH]; [done|]. apply requests_step in Hs. lia. Qed.

Lemma kept_run (s s' : state) : rtc step s s' -> st_requests s' = st_requests s -> rtc kept s s'.
Proof.
  induction 1 as [|x y z Hs Hr IH]; intros E; [apply rtc_refl|].
  pose proof (requests_step _ _ Hs). pose proof (requests_run _ _ Hr).
  eapply rtc_l; [split; [exact Hs|]|apply IH]; lia.
Qed.

Hypothesis no_object : h_object self = None.

Lemma serves_kept d q s s' : kept s s' -> serves d q s -> serves d q s'.
Proof.
  intros [Hs En] [Hd Hq Ht Hc]. destruct Hs as [op s|i t t' s s' Hi Ha|i t k x s Hi Hp|i t c k s Hi Hp Hf|i t c k x s Hi Hp Hf
    |i t s Hi Hw|log_tx depth s Hdep|ds s Hds]; try pose proof (Forall_lookup_1 _ _ _ _ Ht Hi) as Hat; simpl in *.
  - split; try done. simpl. apply Forall_app. split; [done|]. apply Forall_singleton. intros _. apply handler_at_depth.
  - destruct (advance_shape _ _ _ _ Ha) as (Ho & Er & Eq & Htr & Hk).
    unfold next_depth in Hk. rewrite no_object, Hd in Hk. split; simpl; rewrite ?Er, ?Eq; try done.
    + apply Forall_insert; [done|]. rewrite Ho. auto.
    + intros held c Hin. by eapply Hc, Htr.
  - split; try done. simpl. apply Forall_insert; [done|]. intros Ho. specialize (Hat Ho). rewrite Hp in Hat. apply Hat.
  - split; try done; simpl; [by apply Forall_insert|]. intros held c' [?|E%list_elem_of_singleton]%elem_of_app; [by eapply Hc|].
    injection E as Eo _ ->. symmetry in Eo. specialize (Hat Eo). rewrite Hp in Hat. apply Hat.
  - split; try done. simpl. apply Forall_insert; [done|]. intros Ho. specialize (Hat Ho). rewrite Hp in Hat. apply Hat.
  - split; try done. simpl. by apply Forall_insert.
  - lia.
  - by split.
Qed.

Lemma serving_serves d q s : serving d q s -> serves d q s.
Proof.
  assert (Hk : forall q s1 s2, rtc kept s1 s2 -> serves d q s1 -> serves d q s2).
  { intros q' s1 s2 Hr H1. apply (rtc_invariant kept (serves d q') s1 s2); try done. intros. by eapply serves_kept. }
  intros Hs. destruct Hs as [s' Hr|d0 log_tx s0 s' Hr0 Hr]; apply (Hk _ _ _ Hr).
  - split; try done. by intros held c ?%elem_of_nil.
  - destruct (numbered_reachable _ _ Hr0) as [Ht Hc]. split; try done; simpl.
    + eapply Forall_impl; [exact Ht|]. simpl. intros t Hle E. lia.
    + intros held c Hin%Hc. lia.
Qed.
End depths.

(** ** Chains *)

Section chain.
Context {U Sv Sem H N T : Type} {url : UrlLib U} {client : S3Client U Sv} {pct : Percent}
  {hmac : Hmac} {hex : Hex} {sem : Semaphore Sem} {hs : Handshake}
  {hm : HeaderMap H} {hv : HeaderValue} {names : HeaderNames} {hp : HyperParts H} 
  {ipnet : IpNet N} {libs : IngressLibs} {text : TerminationText}.
Context {V KvRes D1Op D1Res ObjRes : Type}.

(** Workers that run one for another: the first for a public request, each next
    one for a request that an operation of the worker before made, while the
    handle of that worker served the request at the depth it ran at. The names
    of the headers are in lower case, as the guest's [Headers] has them. *)
Inductive call_chain : nat -> Z -> Prop :=
| chain_public env runner config request_id peer tls req r tr worker_id d :
    serve_request env runner (config : @Config N T) request_id Public peer tls req [] = (r, tr) ->
    Ran worker_id d ∈ tr -> call_chain 0 d
| chain_call n d domains port guard to_lowercase parse_and_validate d1_on limits self first name q
    (s : Ops.state (Sem := Sem) (V := V) (KvRes := KvRes) (D1Op := D1Op) (D1Res := D1Res) (ObjRes := ObjRes))
    held routed ctx order env runner config request_id peer tls req r tr worker_id d' :
    call_chain n d -> h_object self = None ->
    serving domains port guard to_lowercase parse_and_validate d1_on limits self first name d q s ->
    Called q held (CFetch routed None ctx Unrestricted) ∈ st_trace s -> lower_names (Fetch.rq_headers routed) ->
    order ≡ₚ map_to_list (Fetch.rq_headers routed) ->
    wire_headers order [] ctx = Some (Ingress.rq_headers (r_request req)) ->
    serve_request env runner (config : @Config N T) request_id Internal peer tls req [] = (r, tr) ->
    Ran worker_id d' ∈ tr -> call_chain (S n) d'.

Lemma public_depth env runner config request_id peer tls (req : @Req H) r tr worker_id d :
  serve_request env runner (config : @Config N T) request_id Public peer tls req [] = (r, tr) ->
  Ran worker_id d ∈ tr -> d = 0.
Proof.
  intros E Hin. destruct (proj1 (serve_request_effects _ _ _ _ _ _ _ _ _ _ E) eq_refl) as [->|(q & Hq & Hf)].
  { by apply elem_of_nil in Hin. }
  rewrite Forall_forall in Hf. destruct (Hf _ Hin) as [-> Hle].
  unfold depth_of. simpl. unfold call_depth. rewrite hyper_headers_none; [done|].
  rewrite (prepare_values _ _ _ _ _ _ _ _ Hq) by (left; unfold NEVER_SET; set_solver). done.
Qed.

(** A request routed at depth [d] runs at depth [d], within the limit. *)
Lemma routed_runs_at port uuid domains d request routed order ctx env runner config request_id peer tls (req : @Req H)
  r tr worker_id d' :
  routed_for port uuid domains d request routed -> lower_names (Fetch.rq_headers routed) -> 0 <= d <= U32_MAX ->
  order ≡ₚ map_to_list (Fetch.rq_headers routed) -> wire_headers order [] ctx = Some (Ingress.rq_headers (r_request req)) ->
  serve_request env runner (config : @Config N T) request_id Internal peer tls req [] = (r, tr) ->
  Ran worker_id d' ∈ tr -> d' = d /\ d' <= MAX_CALL_DEPTH.
Proof.
  intros Hr Hl Hd Ho Hw E Hin.
  pose proof (routed_depth _ _ _ _ _ _ _ _ _ Hr Hl Ho Hw Hd) as Hdep.
  destruct (routed_values _ _ _ _ _ _ _ _ _ Hr Hl Ho Hw) as [Hmark Hdepth].
  assert (Ha : admin_allowed Internal peer (Ingress.rq_headers (r_request (with_request_id request_id req))) = false).
  { unfold admin_allowed, contains_key. rewrite with_request_id_values by done. rewrite Hmark. by rewrite andb_false_r. }
  assert (Hf := proj2 (serve_request_effects _ _ _ _ _ _ _ _ _ _ E) eq_refl Ha).
  rewrite Forall_forall in Hf. destruct (Hf _ Hin) as [-> Hle']. split; [|done].
  eapply call_depth_values; [exact Hdep|eauto|eauto|by apply with_request_id_values..].
Qed.

(** C2. A chain of calls between workers is as long as its depth says, and no
    longer than the limit, as long as each call goes out before the handle of
    the worker that makes it passes to another request, and the names of its
    headers are in lower case: the first worker runs at depth 0 whatever its
    client sends, each next one, called by an operation in any interleaving
    with the others of the handle, runs one deeper, and past [MAX_CALL_DEPTH]
    none runs. Without the first condition the bound is lost:
    [Ops.reused_handle_forgets_depth]. *)
Theorem call_chain_bounded n d : call_chain n d -> d = Z.of_nat n /\ d <= MAX_CALL_DEPTH.
Proof.
  induction 1 as [env runner config request_id peer tls req r tr worker_id d E Hin|
    n d domains port guard to_lowercase parse_and_validate d1_on limits self first name q s held routed ctx order
    env runner config request_id peer tls req r tr worker_id d' _ [Hd Hle] Hobj Hs Hcall Hl Ho Hw E Hin].
  - rewrite (public_depth _ _ _ _ _ _ _ _ _ _ _ E Hin). done.
  - pose proof (serving_serves _ _ _ _ _ _ _ _ _ _ Hobj _ _ _ Hs) as Hv.
    destruct (serves_calls _ _ _ _ _ Hv _ _ Hcall) as (uuid & request & Hr).
    destruct (routed_runs_at _ _ _ _ _ _ _ _ _ _ _ _ _ _ _ _ _ _ _ Hr Hl
      ltac:(unfold MAX_CALL_DEPTH, U32_MAX in *; lia) Ho Hw E Hin) as [-> ?]. split; [lia|done].
Qed.
End chain.

(** ** Witness

    A public request runs a worker, which calls another through its binding. *)

Definition chain_handle : Handle :=
  mkHandle None (Some "w1") (from_bindings [BWorker "SVC" (mkWorkerBindingConfig "w" None)]) true None.
Definition chain_called : ex_state :=
  Ops.run chain_handle 20 0 (ex_op chain_handle (OWorker "SVC" guest_request) (ex_start 0)).
Definition chain_request : HttpRequest :=
  binding_request (url := web_UrlLib) None "0123456789abcdef0123456789abcdef" "w" guest_request 1.

Lemma chain_called_reachable : rtc (ex_step chain_handle) (ex_start 0) chain_called.
Proof. apply run_reachable. eapply rtc_r; [apply rtc_refl|apply ex_op_step]. Qed.

Lemma chain_serving :
  serving (U := web_url) (Sv := bucket_store) [] None ex_pass to_ascii_lowercase ex_sql true ex_limits chain_handle
    ex_first ex_name 0 0 chain_called.
Proof. apply serving_first, kept_run; [exact chain_called_reachable|]. vm_compute. reflexivity. Qed.

Definition ex_chain : nat -> Z -> Prop :=
  call_chain (U := web_url) (Sv := bucket_store) (Sem := N) (H := gmap string (list string)) (N := IpAddr) (T := unit)
    (V := string) (KvRes := string) (D1Op := string) (D1Res := string) (ObjRes := string).

Lemma chain_first : ex_chain 0 0.
Proof.
  eapply (chain_public ok_env test_runner test_config "00000000-0000-0000-0000-000000000001"
    (PeerTcp (mkSocketAddr LOCALHOST 5555)) false public_req _ _ "w" 0); [apply surjective_pairing|].
  apply (bool_decide_unpack _). vm_compute. exact I.
Qed.

Lemma chain_second : ex_chain 1 1.
Proof.
  eapply (chain_call 0 0 [] None ex_pass to_ascii_lowercase ex_sql true ex_limits chain_handle ex_first ex_name 0
    chain_called [(0%nat, WFetch)] chain_request None (map_to_list (Fetch.rq_headers chain_request))
    ok_env test_runner test_config "00000000-0000-0000-0000-000000000001" (PeerTcp (mkSocketAddr LOCALHOST 5555)) false
    inner_req _ _ "w" 1);
    [exact chain_first|reflexivity|exact chain_serving|vm_compute; right; left| |apply Permutation_refl
    |vm_compute; reflexivity|apply surjective_pairing|].
  - apply map_Forall_to_list. vm_compute. repeat constructor.
  - apply (bool_decide_unpack _). vm_compute. exact I.
Qed.

Lemma call_chain_bounded_witness : ex_chain 1 1 /\ 1 <= MAX_CALL_DEPTH.
Proof. split; [exact chain_second|]. exact (proj2 (call_chain_bounded 1 1 chain_second)). Defined.
