(* ===== verification/Workers.v ===== *)
(** * Workers and the engines that run them (src/src/worker.rs,
    src/src/runtime.rs, src/src/wasm_cache.rs)

    A build carries at most one JavaScript engine and, besides it, the
    WebAssembly one; the type of a worker's code selects the engine. A worker
    is prepared (its code parsed, its bindings checked against what the
    engine serves, what was compiled before taken from the caches) and then
    built. The engines are crates of their own: their operations are the
    class [Engines], what the runner relies on the class [EngineLaws].

    The last part runs the loads, the preparations, the builds and the stores
    into the code cache of a process in any order, and shows that each worker
    runs the code that was deployed for it. *)

From S2P Require Import Prelude RustStr Extern Metrics CodeCache Store.

(** ** The build (src/src/runtime.rs) *)

Inductive JsEngine : Type := V8 | Jsc | Quickjs | Boa | Nova.

#[export] Instance JsEngine_eq_dec : EqDecision JsEngine.
Proof. solve_decision. Defined.
#[export] Instance BindingKind_eq_dec : EqDecision BindingKind.
Proof. solve_decision. Defined.

(** The cargo features of a build, and the lists the nova and boa crates
    publish. *)
Record Build := mkBuild {
  js_engine : option JsEngine; has_wasm : bool;
  nova_bindings : list BindingKind; boa_bindings : list BindingKind }.

(** [compile_error!] refuses a build without any backend. *)
Definition builds (b : Build) : bool :=
  match js_engine b with Some _ => true | None => has_wasm b end.

Definition RUNS_JAVASCRIPT (b : Build) : bool :=
  match js_engine b with Some _ => true | None => false end.
Definition RUNS_WASM (b : Build) : bool := has_wasm b.

Definition JS_NAME (b : Build) : string :=
  match js_engine b with
  | Some V8 => "v8" | Some Jsc => "jsc" | Some Quickjs => "quickjs"
  | Some Boa => "boa" | Some Nova => "nova" | None => "javascript"
  end.

Definition JS_BINDINGS (b : Build) : list BindingKind :=
  match js_engine b with
  | Some V8 => [KAssets; KStorage; KKv; KDatabase; KD1; KWorker; KDurableObject]
  | Some Nova => nova_bindings b
  | Some Boa => boa_bindings b
  | _ => []
  end.

Inductive Backend : Type := Js | BWasm.

#[export] Instance Backend_eq_dec : EqDecision Backend.
Proof. solve_decision. Defined.

Definition backend_name (b : Build) (k : Backend) : string :=
  match k with Js => JS_NAME b | BWasm => "wasm" end.

Definition supported_bindings (b : Build) (k : Backend) : list BindingKind :=
  match k with Js => JS_BINDINGS b | BWasm => [KKv; KDatabase; KStorage] end.

Definition supports_binding (b : Build) (k : Backend) (t : BindingKind) : bool :=
  bool_decide (t ∈ supported_bindings b k).

Definition supports_env (b : Build) (k : Backend) : bool :=
  match k with
  | Js => match js_engine b with Some V8 | Some Jsc | Some Nova | Some Boa => true | _ => false end
  | BWasm => true
  end.

Definition binding_type_name (t : BindingKind) : string :=
  match t with
  | KAssets => "assets" | KStorage => "storage" | KKv => "kv" | KDatabase => "database"
  | KD1 => "d1" | KWorker => "worker" | KImages => "images" | KDurableObject => "durable_object"
  end.

Definition backend_capabilities (b : Build) (k : Backend) : string :=
  let bindings := binding_type_name <$> supported_bindings b k in
  backend_name b k +:+ " (env=" +:+ (if supports_env b k then "true" else "false") +:+ ", bindings="
    +:+ (match bindings with [] => "none" | _ => str_join "/" bindings end) +:+ ")".

Definition capabilities (b : Build) : string :=
  let backends := (if RUNS_JAVASCRIPT b then [backend_capabilities b Js] else [])
                  ++ (if RUNS_WASM b then [backend_capabilities b BWasm] else []) in
  "runtime backends: " +:+ str_join ", " backends.

(** The version of Cargo.toml. *)
Definition CARGO_PKG_VERSION : string := "1.18.7".

Definition server_header (b : Build) : string :=
  let backends := (if RUNS_JAVASCRIPT b then [backend_name b Js] else [])
                  ++ (if RUNS_WASM b then [backend_name b BWasm] else []) in
  "openworkers/" +:+ str_join "," backends +:+ "/v" +:+ CARGO_PKG_VERSION.

(** Whether it is strict; the v8 engine is set to the same. *)
Definition configure_strict (value : option string) : bool :=
  match trim <$> value with
  | Some v => String.eqb v "1" || String.eqb v "true"
  | None => false
  end.

(** ** Scripts and engines *)

(** [openworkers_core::WorkerCode]. *)
Inductive WorkerCode : Type :=
| CJavaScript (source : string)
| CSnapshot (blob : string)
| CWebAssembly (bytes : string).

Definition is_wasm (c : WorkerCode) : bool :=
  match c with CWebAssembly _ => true | _ => false end.
Definition as_js (c : WorkerCode) : option string :=
  match c with CJavaScript s => Some s | _ => None end.

(** [openworkers_core::Script]. *)
Record Script := mkScript {
  code : WorkerCode; env : option (gmap string string); bindings : list BindingInfo }.

Inductive CodeLanguage : Type := JavaScript | TypeScript.

(** The engine crates. [L] are the limits of a run, [O] the operations handle
    a worker is given. *)
Class Engines (L O : Type) := {
  JsWorker : Type;
  WasmWorker : Type;
  Component : Type;
  (** openworkers_transform: type stripping and bundling. *)
  parse_worker_code : string -> CodeLanguage -> result string string;
  js_new : Script -> L -> O -> result JsWorker TerminationReason;
  wasm_new : Script -> L -> O -> result WasmWorker TerminationReason;
  compatibility_key : L -> result string TerminationReason;
  wasm_prepare : string -> L -> result Component TerminationReason;
  prepare_precompiled : string -> L -> result Component TerminationReason;
  serialize : Component -> result string string;
  from_prepared : Component -> Script -> L -> O -> result WasmWorker TerminationReason;
  (** The text of a [FromUtf8Error]. *)
  utf8_error : string -> string;
  create_code_cache : string -> result string string;
  pack_code_cache : string -> string -> string;
}.

(** What the runner relies on. [js_runs] and [wasm_runs] give the program a
    worker runs, [guest] and [component_key] the bytes a component was
    compiled from and the engine it was compiled for. *)
Class EngineLaws (L O : Type) `{!Engines L O} := {
  snapshot_source : string -> string;
  js_runs : JsWorker -> string;
  wasm_runs : WasmWorker -> string;
  guest : Component -> string;
  component_key : Component -> string;
  pack_source js cache : snapshot_source (pack_code_cache js cache) = js;
  js_new_runs script l o w : js_new script l o = Ok w ->
    match code script with
    | CJavaScript s => js_runs w = s
    | CSnapshot b => js_runs w = snapshot_source b
    | CWebAssembly _ => True
    end;
  prepare_guest bytes l c : wasm_prepare bytes l = Ok c ->
    guest c = bytes /\ compatibility_key l = Ok (component_key c);
  precompiled_guest c0 a l c : serialize c0 = Ok a -> compatibility_key l = Ok (component_key c0) ->
    prepare_precompiled a l = Ok c -> guest c = guest c0 /\ component_key c = component_key c0;
  from_prepared_runs c script l o w : compatibility_key l = Ok (component_key c) ->
    from_prepared c script l o = Ok w -> wasm_runs w = guest c;
}.

Section operations.
Context {L O : Type} `{!Engines L O}.
Context {C P : Type} `{!Lru (string * Z) string C} `{!Lru (string * Z * string) Component P}.
Context (b : Build).

(** The statics of the process: the code cache, the live components and the
    count of builds that reused one. *)
Record Caches := mkCaches { code_cache : CodeCache C; PREPARED : P; HITS : Z }.

Definition PREPARED_CAP : nat := 256.

Definition caches_new (c : CodeCache C) : Caches := mkCaches c (lru_new PREPARED_CAP) 0.

Local Abbreviation M := (SE Caches TerminationReason).

Definition with_code_cache {A} (f : CodeCache C -> A * CodeCache C) : M A := fun s =>
  let '(a, c) := f (code_cache s) in (Ok a, mkCaches c (PREPARED s) (HITS s)).

Definition get_prepared (key : string * Z * string) : M (option Component) := fun s =>
  let '(o, p) := lru_get key (PREPARED s) in (Ok o, mkCaches (code_cache s) p (HITS s)).

Definition put_prepared (key : string * Z * string) (component : Component) : M unit := fun s =>
  (Ok tt, mkCaches (code_cache s) (lru_put key component (PREPARED s)) (HITS s)).

Definition count_hit : M unit := fun s =>
  (Ok tt, mkCaches (code_cache s) (PREPARED s) (wrap_u64 (HITS s + 1))).

(** ** Preparation (src/src/worker.rs) *)

Definition refuse {A} (message : string) : M A := throw (InitializationError message).

Definition is_v8 : bool := match js_engine b with Some V8 => true | _ => false end.

(** The JavaScript arm of [parse_code], once the source is known. *)
Definition transpile (data : WorkerWithBindings) (source : string) (language : CodeLanguage) :
  M (Backend * WorkerCode) :=
  match parse_worker_code source language with
  | Err e => refuse ("Failed to parse worker code: " +:+ e)
  | Ok transpiled =>
    _ ← (if is_v8 then mret tt
         else with_code_cache (fun c => (tt, CodeCache.put (wb_id data) (wb_version data) transpiled c)) : M unit);
    mret (Js, CJavaScript transpiled)
  end.

Definition parse_js (data : WorkerWithBindings) (language : CodeLanguage) : M (Backend * WorkerCode) :=
  if RUNS_JAVASCRIPT b then
    match wb_code data with
    | SCached blob =>
      if is_v8 then mret (Js, CSnapshot blob)
      else if utf8 0 blob then mret (Js, CJavaScript blob)
      else refuse ("cached lowered code is not UTF-8: " +:+ utf8_error blob)
    | SBytes source => transpile data source language
    end
  else refuse "this build cannot run JavaScript workers".

Definition parse_code (data : WorkerWithBindings) : M (Backend * WorkerCode) :=
  match wb_code_type data with
  | Javascript => parse_js data JavaScript
  | Typescript => parse_js data TypeScript
  | Wasm =>
    if has_wasm b then mret (BWasm, CWebAssembly (source_bytes (wb_code data)))
    else refuse "this build cannot run WebAssembly workers"
  | Snapshot =>
    if is_v8 then mret (Js, CSnapshot (source_bytes (wb_code data)))
    else refuse "this build cannot run snapshot workers"
  end.

(** One entry per type, in the order of the first binding of the type. *)
Definition distinct_types (unsupported : list BindingInfo) : list string :=
  foldl (fun types i =>
           let name := binding_type_name (bi_kind i) in
           if bool_decide (name ∈ types) then types else types ++ [name]) [] unsupported.

Definition check_bindings (k : Backend) (infos : list BindingInfo) : result unit TerminationReason :=
  let unsupported := List.filter (fun i => negb (supports_binding b k (bi_kind i))) infos in
  match unsupported with
  | [] => Ok tt
  | _ => Err (InitializationError
      ("the " +:+ backend_name b k +:+ " backend does not implement "
       +:+ str_join "/" (distinct_types unsupported) +:+ " bindings, declared as "
       +:+ str_join ", " (bi_name <$> unsupported)))
  end.

Definition script_with_code (data : WorkerWithBindings) (k : Backend) (c : WorkerCode) :
  result Script TerminationReason :=
  let infos := bindings_to_infos (wb_bindings data) in
  _ <-? check_bindings k infos;
  Ok (mkScript c (if decide (wb_env data = ∅) then None else Some (wb_env data)) infos).

Definition prepare_script (data : WorkerWithBindings) : M Script :=
  '(k, c) ← parse_code data;
  lift (script_with_code data k c).

Definition script_without_code (data : WorkerWithBindings) : result Script TerminationReason :=
  script_with_code data BWasm (CWebAssembly "").

Record PreparedWorker := mkPreparedWorker { script : Script; prepared : option Component }.

(** ** The cache of components (src/src/wasm_cache.rs) *)

Definition wasm_cache_prepare (data : WorkerWithBindings) (limits : L) : M PreparedWorker :=
  engine_key ← lift (compatibility_key limits);
  let key := (wb_id data, wb_version data, engine_key) in
  found ← get_prepared key;
  match found with
  | Some component =>
    s ← lift (script_without_code data);
    mret (mkPreparedWorker s (Some component))
  | None =>
    artifact ← with_code_cache (CodeCache.get_wasm (wb_id data) (wb_version data) engine_key);
    match artifact with
    | Some artifact =>
      component ← lift (prepare_precompiled artifact limits);
      _ ← put_prepared key component;
      s ← lift (script_without_code data);
      mret (mkPreparedWorker s (Some component))
    | None =>
      s ← prepare_script data;
      mret (mkPreparedWorker s None)
    end
  end.

Inductive Worker : Type := WorkerJs (w : JsWorker) | WorkerWasm (w : WasmWorker).

Definition wasm_cache_create_worker (p : PreparedWorker) (limits : L) (ops : O)
  (worker_id : string) (version : Z) : M Worker :=
  match prepared p with
  | Some component =>
    _ ← count_hit;
    w ← lift (from_prepared component (script p) limits ops);
    mret (WorkerWasm w)
  | None =>
    engine_key ← lift (compatibility_key limits);
    match code (script p) with
    | CWebAssembly wasm =>
      component ← lift (wasm_prepare wasm limits);
      _ ← (match serialize component with
           | Ok artifact =>
             with_code_cache (fun c => (tt, CodeCache.put_wasm worker_id version engine_key artifact c))
           | Err _ => mret tt
           end : M unit);
      _ ← put_prepared (worker_id, version, engine_key) component;
      w ← lift (from_prepared component (script p) limits ops);
      mret (WorkerWasm w)
    | _ => refuse "wasm worker carries non-wasm code"
    end
  end.

Definition prepare_worker (data : WorkerWithBindings) (limits : L) : M PreparedWorker :=
  match wb_code_type data, has_wasm b with
  | Wasm, true => wasm_cache_prepare data limits
  | _, _ => s ← prepare_script data; mret (mkPreparedWorker s None)
  end.

Definition create_worker (s : Script) (limits : L) (ops : O) : result Worker TerminationReason :=
  if has_wasm b && is_wasm (code s) then
    w <-? wasm_new s limits ops; Ok (WorkerWasm w)
  else if RUNS_JAVASCRIPT b then
    w <-? js_new s limits ops; Ok (WorkerJs w)
  else Err (InitializationError "this build cannot run JavaScript workers").

Definition create_cached_worker (p : PreparedWorker) (limits : L) (ops : O)
  (worker_id : string) (version : Z) : M Worker :=
  if has_wasm b && is_wasm (code (script p))
  then wasm_cache_create_worker p limits ops worker_id version
  else lift (create_worker (script p) limits ops).

(** The code cache entry a successful run makes in the background
    (src/src/task_executor.rs). *)
Definition cache_code (worker_id : string) (version : Z) (js_code : string) : M unit :=
  match create_code_cache js_code with
  | Ok cache => with_code_cache (fun c =>
      (tt, CodeCache.put worker_id version (pack_code_cache js_code cache) c))
  | Err _ => mret tt
  end.

End operations.

Arguments Caches C P : clear implicits.
Arguments mkCaches {C P}.

(** ** Lemmas on the preparation *)

Section fits.
Context {L O : Type} `{!Engines L O}.
Context {C P : Type} `{!Lru (string * Z) string C} `{!Lru (string * Z * string) Component P}.
Context (b : Build).

(** The backends of a build. *)
Definition carried (k : Backend) : bool :=
  match k with Js => RUNS_JAVASCRIPT b | BWasm => RUNS_WASM b end.

(** The backend the type of a worker's code names. *)
Definition backend_for (t : CodeType) : Backend :=
  match t with Wasm => BWasm | _ => Js end.

(** The code an engine can be given: snapshots are v8's. *)
Definition code_fits (k : Backend) (c : WorkerCode) : bool :=
  match k, c with
  | Js, CJavaScript _ => true
  | Js, CSnapshot _ => is_v8 b
  | BWasm, CWebAssembly _ => true
  | _, _ => false
  end.

Definition worker_backend (w : Worker) : Backend :=
  match w with WorkerJs _ => Js | WorkerWasm _ => BWasm end.

Definition script_fits (k : Backend) (s : Script) : Prop :=
  code_fits k (code s) = true /\ Forall (fun i => bi_kind i ∈ supported_bindings b k) (bindings s).

Lemma check_bindings_ok k infos :
  check_bindings b k infos = Ok tt <-> Forall (fun i => bi_kind i ∈ supported_bindings b k) infos.
Proof.
  unfold check_bindings, supports_binding. induction infos as [|i infos IH]; simpl; [done|].
  case_bool_decide as Hi; simpl.
  - rewrite IH. split; [by constructor|by intros [_ ?]%Forall_cons].
  - split; [done|intros [? _]%Forall_cons; done].
Qed.

Lemma script_with_code_ok data k c s :
  script_with_code b data k c = Ok s ->
  code s = c /\ bindings s = bindings_to_infos (wb_bindings data) /\
  Forall (fun i => bi_kind i ∈ supported_bindings b k) (bindings s).
Proof.
  unfold script_with_code, result_bind. destruct (check_bindings _ _ _) as [[]|] eqn:E; intros; simplify_eq/=.
  split_and!; [done..|by apply check_bindings_ok].
Qed.

Lemma is_v8_runs : is_v8 b = true -> RUNS_JAVASCRIPT b = true.
Proof. unfold is_v8, RUNS_JAVASCRIPT. by destruct (js_engine b). Qed.

Lemma parse_js_fits data lang (s : Caches C P) k c s' :
  parse_js b data lang s = (Ok (k, c), s') ->
  RUNS_JAVASCRIPT b = true /\ k = Js /\ code_fits Js c = true.
Proof.
  unfold parse_js, transpile, refuse, throw.
  destruct (RUNS_JAVASCRIPT b); [|done]. destruct (wb_code data).
  - destruct (parse_worker_code _ _); [|done].
    intros [(? & ? & _ & H)|(? & _ & H)]%SE_bind_inv; [|done]. by injection H as <- <- <-.
  - destruct (is_v8 b) eqn:E; [intros [= <- <- <-]; simpl; by rewrite E|].
    destruct (utf8 0 b0); [by intros [= <- <- <-]|done].
Qed.

Lemma parse_code_fits data (s : Caches C P) k c s' :
  parse_code b data s = (Ok (k, c), s') ->
  k = backend_for (wb_code_type data) /\ carried k = true /\ code_fits k c = true.
Proof.
  unfold parse_code, refuse, throw. destruct (wb_code_type data); simpl.
  1-2: intros (? & -> & ?)%parse_js_fits; done.
  - destruct (has_wasm b) eqn:E; [|done]. intros [= <- <- <-]. simpl. done.
  - destruct (is_v8 b) eqn:E; [|done]. intros [= <- <- <-]. simpl. rewrite E. auto using is_v8_runs.
Qed.

Lemma prepare_script_fits data (s : Caches C P) sc s' :
  prepare_script b data s = (Ok sc, s') ->
  let k := backend_for (wb_code_type data) in
  carried k = true /\ script_fits k sc /\ bindings sc = bindings_to_infos (wb_bindings data).
Proof.
  intros [([k c] & s1 & E1 & E2)|(? & _ & ?)]%SE_bind_inv; [|done].
  injection E2 as E2 <-. apply parse_code_fits in E1 as (-> & Hc & Hf). apply script_with_code_ok in E2 as (<- & Hb & Ha).
  by split_and!.
Qed.

Lemma without_code_fits data sc :
  script_without_code b data = Ok sc -> script_fits BWasm sc /\ bindings sc = bindings_to_infos (wb_bindings data).
Proof. intros (Hc & Hb & Ha)%script_with_code_ok. split; [|done]. split; [by rewrite Hc|done]. Qed.

(** A component comes only with a script of the WebAssembly engine. *)
Lemma wasm_prepare_fits data limits (s : Caches C P) p s' :
  wb_code_type data = Wasm -> has_wasm b = true ->
  wasm_cache_prepare b data limits s = (Ok p, s') ->
  script_fits BWasm (script p) /\ bindings (script p) = bindings_to_infos (wb_bindings data).
Proof.
  intros Ht Hw [(key & s1 & _ & E)|(? & _ & ?)]%SE_bind_inv; [|done].
  apply SE_bind_inv in E as [([c|] & s2 & _ & E)|(? & _ & ?)]; [| |done].
  - apply SE_bind_inv in E as [(sc & s3 & E1 & E)|(? & _ & ?)]; [|done]. injection E as <- <-.
    injection E1 as E1 <-. by apply without_code_fits.
  - apply SE_bind_inv in E as [([a|] & s3 & _ & E)|(? & _ & ?)]; [| |done].
    + apply SE_bind_inv in E as [(c & s4 & _ & E)|(? & _ & ?)]; [|done].
      apply SE_bind_inv in E as [(? & s5 & _ & E)|(? & _ & ?)]; [|done].
      apply SE_bind_inv in E as [(sc & s6 & E1 & E)|(? & _ & ?)]; [|done].
      injection E as <- <-. injection E1 as E1 <-. by apply without_code_fits.
    + apply SE_bind_inv in E as [(sc & s4 & E1 & E)|(? & _ & ?)]; [|done]. injection E as <- <-.
      apply prepare_script_fits in E1. rewrite Ht in E1. naive_solver.
Qed.

Lemma prepare_worker_fits data limits (s : Caches C P) p s' :
  prepare_worker b data limits s = (Ok p, s') ->
  let k := backend_for (wb_code_type data) in
  carried k = true /\ script_fits k (script p) /\ bindings (script p) = bindings_to_infos (wb_bindings data).
Proof.
  assert (Hs : (sc ← prepare_script b data; mret (mkPreparedWorker sc None)) s = (Ok p, s') ->
    let k := backend_for (wb_code_type data) in
    carried k = true /\ script_fits k (script p) /\ bindings (script p) = bindings_to_infos (wb_bindings data)).
  { intros [(sc & s1 & E & H)|(? & _ & ?)]%SE_bind_inv; [|done]. injection H as <- <-.
    by eapply prepare_script_fits. }
  unfold prepare_worker. destruct (wb_code_type data) eqn:Ht; try exact Hs.
  destruct (has_wasm b) eqn:Hw; [|exact Hs]. intros E. split; [done|]. by eapply wasm_prepare_fits.
Qed.

(** What a script of a backend becomes is a worker of that backend. *)
Lemma create_worker_backend k p limits o id v (s : Caches C P) w s' :
  carried k = true -> script_fits k (script p) ->
  create_cached_worker b p limits o id v s = (Ok w, s') -> worker_backend w = k.
Proof.
  intros Hk [Hc _]. unfold create_cached_worker, create_worker, lift.
  destruct k, (code (script p)) eqn:Ec; try done; simpl in *; rewrite ?andb_false_r; rewrite ?Hk; simpl.
  1-2: destruct (js_new _ _ _); simpl; intros [=]; by subst.
  unfold RUNS_WASM in Hk. rewrite Hk. simpl.
  unfold wasm_cache_create_worker. rewrite Ec. destruct (prepared p) as [c|].
  - intros [(? & ? & _ & [(? & ? & _ & E)|(? & _ & ?)]%SE_bind_inv)|(? & _ & ?)]%SE_bind_inv; try done.
    by injection E as <- <-.
  - intros [(? & ? & _ & E)|(? & _ & ?)]%SE_bind_inv; [|done].
    repeat (apply SE_bind_inv in E as [(? & ? & _ & E)|(? & _ & ?)]; [|done]).
    by injection E as <- <-.
Qed.

End fits.

(** ** A process: loads, preparations, builds and cache fills in any order *)

Section process.
Context {L O : Type} `{!Engines L O} `{!EngineLaws L O}.
Context {C P : Type} `{!Lru (string * Z) string C} `{!Lru (string * Z * string) Component P}.
Context (b : Build).

(** The type and the bytes of each version of each worker: a deployment is a
    row that is written once. *)
Context (deployed : string -> Z -> CodeType * string).

(** The tables at a load: the deployments, and worker ids without a colon
    (they are UUIDs). *)
Definition db_holds (db : Db) : Prop :=
  (forall d, d ∈ worker_deployments db -> deployed (d_worker_id d) (d_version d) = (d_code_type d, d_code d)) /\
  (forall w, w ∈ workers db -> contains_char ":" (w_id w) = false).

Record Proc := mkProc {
  caches : Caches C P;
  loaded : list WorkerWithBindings;
  pending : list (WorkerWithBindings * L * PreparedWorker);
  built : list (WorkerWithBindings * Worker);
  (** Every component compiled from a guest's bytes. *)
  compiled : list Component;
}.

Definition proc_new (var : string -> option string) : Proc :=
  mkProc (caches_new (CODE_CACHE var)) [] [] [] [].

Definition set_code_cache (c : CodeCache C) (s : Caches C P) : Caches C P := mkCaches c (PREPARED s) (HITS s).

(** The component a build compiles, when it has none. *)
Definition compiles (p : PreparedWorker) (limits : L) : list Component :=
  match prepared p, code (script p) with
  | None, CWebAssembly wasm =>
    match compatibility_key limits, wasm_prepare wasm limits with Ok _, Ok c => [c] | _, _ => [] end
  | _, _ => []
  end.

Inductive step : Proc -> Proc -> Prop :=
| step_load s db identifier r c :
  db_holds db ->
  get_worker_with_bindings db identifier (code_cache (caches s)) = (r, c) ->
  step s (mkProc (set_code_cache c (caches s))
            (match r with Some data => data :: loaded s | None => loaded s end) (pending s) (built s) (compiled s))
| step_prepare s data limits r s' :
  data ∈ loaded s -> prepare_worker b data limits (caches s) = (r, s') ->
  step s (mkProc s' (loaded s)
            (match r with Ok p => (data, limits, p) :: pending s | Err _ => pending s end) (built s) (compiled s))
| step_create s data limits p ops r s' :
  (data, limits, p) ∈ pending s ->
  create_cached_worker b p limits ops (wb_id data) (wb_version data) (caches s) = (r, s') ->
  step s (mkProc s' (loaded s) (pending s)
            (match r with Ok w => (data, w) :: built s | Err _ => built s end)
            (compiles p limits ++ compiled s))
| step_cache s data limits p js r s' :
  is_v8 b = true -> (data, limits, p) ∈ pending s -> as_js (code (script p)) = Some js ->
  cache_code (wb_id data) (wb_version data) js (caches s) = (r, s') ->
  step s (mkProc s' (loaded s) (pending s) (built s) (compiled s)).

(** The source a JavaScript deployment is lowered to. *)
Definition language (t : CodeType) : option CodeLanguage :=
  match t with Javascript => Some JavaScript | Typescript => Some TypeScript | _ => None end.

Definition lowers (id : string) (v : Z) (lowered : string) : Prop :=
  exists lang, language (deployed id v).1 = Some lang /\ parse_worker_code (deployed id v).2 lang = Ok lowered.

(** The program a version of a worker is: what its bytes are lowered to, the
    source its snapshot holds, or its component. *)
Definition is_program (id : string) (v : Z) (program : string) : Prop :=
  match (deployed id v).1 with
  | Javascript | Typescript => lowers id v program
  | Wasm => program = (deployed id v).2
  | Snapshot => program = snapshot_source (deployed id v).2
  end.

Definition code_source (c : WorkerCode) : string :=
  match c with CJavaScript s => s | CSnapshot blob => snapshot_source blob | CWebAssembly bytes => bytes end.

Definition runs (w : Worker) : string :=
  match w with WorkerJs w => js_runs w | WorkerWasm w => wasm_runs w end.

(** The invariant of the caches. *)
Definition js_entry (id : string) (v : Z) (blob : string) : Prop :=
  lowers id v (if is_v8 b then snapshot_source blob else blob).

Definition component_of (id : string) (v : Z) (k : string) (c : Component) : Prop :=
  component_key c = k /\ deployed id v = (Wasm, guest c).

Definition entry_ok (h : list Component) (key : CacheKey) (blob : string) : Prop :=
  (contains_char ":" key.1 = false /\ js_entry key.1 key.2 blob) \/
  (exists id k c, contains_char ":" id = false /\ key.1 = wasm_id id k /\ c ∈ h /\
                  serialize c = Ok blob /\ component_of id key.2 k c).

Definition caches_ok (h : list Component) (s : Caches C P) : Prop :=
  cache_inv (code_cache s) /\ lru_ok (PREPARED s) /\
  (forall key blob, assoc key (lru_entries (entries (code_cache s))) = Some blob -> entry_ok h key blob) /\
  (forall id v k c, ((id, v, k), c) ∈ lru_entries (PREPARED s) -> component_of id v k c).

(** ... of what was loaded, *)
Definition data_ok (data : WorkerWithBindings) : Prop :=
  let id := wb_id data in let v := wb_version data in
  contains_char ":" id = false /\ (deployed id v).1 = wb_code_type data /\
  match wb_code data with
  | SBytes bytes => bytes = (deployed id v).2
  | SCached blob => js_entry id v blob
  end.

(** ... of what was prepared *)
Definition prepared_ok (id : string) (v : Z) (limits : L) (p : PreparedWorker) : Prop :=
  match prepared p with
  | Some c => is_wasm (code (script p)) = true /\ exists k, compatibility_key limits = Ok k /\ component_of id v k c
  | None => is_program id v (code_source (code (script p))) /\
            (is_wasm (code (script p)) = true -> (deployed id v).1 = Wasm) /\
            (forall js, as_js (code (script p)) = Some js -> lowers id v js)
  end.

Definition proc_ok (s : Proc) : Prop :=
  caches_ok (compiled s) (caches s) /\
  (forall data, data ∈ loaded s -> data_ok data) /\
  (forall data limits p, (data, limits, p) ∈ pending s ->
     data_ok data /\ carried b (backend_for (wb_code_type data)) = true /\
     script_fits b (backend_for (wb_code_type data)) (script p) /\
     prepared_ok (wb_id data) (wb_version data) limits p) /\
  (forall data w, (data, w) ∈ built s -> is_program (wb_id data) (wb_version data) (runs w)).

(** [m] keeps the invariant of the caches and answers within [Q]. *)
Definition keeps {E A} (h : list Component) (m : SE (Caches C P) E A) (Q : A -> Prop) : Prop :=
  forall s r s', caches_ok h s -> m s = (r, s') -> caches_ok h s' /\ forall a, r = Ok a -> Q a.

Lemma keeps_bind {E A B} h (m : SE (Caches C P) E A) (f : A -> SE (Caches C P) E B) R Q :
  keeps h m R -> (forall a, R a -> keeps h (f a) Q) -> keeps h (m ≫= f) Q.
Proof.
  intros Hm Hf s r s' Hs [(a & s1 & E1 & E2)|(e & E1 & ->)]%SE_bind_inv.
  - destruct (Hm _ _ _ Hs E1) as [H1 HR]. by apply (Hf a (HR _ eq_refl) s1).
  - destruct (Hm _ _ _ Hs E1) as [H1 _]. done.
Qed.

Lemma keeps_ret {E A} h (a : A) (Q : A -> Prop) : Q a -> keeps (E := E) h (mret a) Q.
Proof. intros HQ s r s' Hs [= <- <-]. split; [done|]. by intros ? [= <-]. Qed.

Lemma keeps_lift {E A} h (r : result A E) (Q : A -> Prop) : (forall a, r = Ok a -> Q a) -> keeps h (lift r) Q.
Proof. intros HQ s r' s' Hs [= <- <-]. done. Qed.

Lemma keeps_throw {E A} h (e : E) (Q : A -> Prop) : keeps h (throw e) Q.
Proof. by intros s r s' Hs [= <- <-]. Qed.

Lemma keeps_weaken {E A} h (m : SE (Caches C P) E A) (Q R : A -> Prop) :
  keeps h m Q -> (forall a, Q a -> R a) -> keeps h m R.
Proof. intros Hm HQ s r s' Hs E1. destruct (Hm _ _ _ Hs E1). split; [done|]. auto. Qed.

Lemma cc_put_ok h key blob (s : Caches C P) :
  caches_ok h s -> entry_ok h key blob -> caches_ok h (set_code_cache (cc_put key blob (code_cache s)) s).
Proof.
  intros (Hinv & Hp & He & Hc) Hb. destruct (decide (max_bytes (code_cache s) < str_len blob)) as [Hm|Hm].
  { rewrite put_over_budget by done. by split_and!. }
  destruct (put_entries key blob _ Hinv ltac:(lia)) as (Hinv' & _ & _ & rest & Hr & Hold).
  split_and!; [done..| |done]. simpl. rewrite Hr. intros k' b'. simpl.
  destruct (decide (k' = key)) as [->|Hne]; [by intros [= <-]|]. intros Ha. by apply He, Hold.
Qed.

Lemma keeps_cc_put h key blob :
  entry_ok h key blob ->
  keeps (E := TerminationReason) h (with_code_cache (fun c => (tt, cc_put key blob c))) (fun _ => True).
Proof. intros Hb s r s' Hs [= <- <-]. split; [by apply cc_put_ok|done]. Qed.

Lemma cc_get_ok h key (s : Caches C P) o c :
  caches_ok h s -> cc_get key (code_cache s) = (o, c) ->
  caches_ok h (set_code_cache c s) /\ forall blob, o = Some blob -> entry_ok h key blob.
Proof.
  intros (Hinv & Hp & He & Hc) Hg.
  destruct (get_entries _ _ _ _ Hinv Hg) as (Hinv' & _ & _ & -> & Ha). split; [|by apply He].
  split_and!; [done..| |done]. simpl. intros k' b'. rewrite Ha. apply He.
Qed.

Lemma keeps_cc_get h key :
  keeps (E := TerminationReason) h (with_code_cache (cc_get key))
    (fun o => forall blob, o = Some blob -> entry_ok h key blob).
Proof.
  intros s r s' Hs E. unfold with_code_cache in E.
  destruct (cc_get key (code_cache s)) as [o c] eqn:Hg. injection E as <- <-.
  destruct (cc_get_ok _ _ _ _ _ Hs Hg) as [H1 H2]. split; [done|]. by intros ? [= <-].
Qed.

Lemma keeps_get_prepared h id v k :
  keeps (E := TerminationReason) h (get_prepared (id, v, k)) (fun o => forall c, o = Some c -> component_of id v k c).
Proof.
  intros s r s' (Hinv & Hp & He & Hc) E. unfold get_prepared in E.
  destruct (lru_get _ (PREPARED s)) as [o p] eqn:Hg. injection E as <- <-.
  destruct (lru_get_incl _ _ _ _ Hp Hg) as (Hp' & -> & Hin). split.
  - split_and!; [done..|]. simpl. intros ???? Hi. apply Hc. by apply Hin.
  - intros o [= <-] c Ha%assoc_In. by apply Hc.
Qed.

Lemma keeps_put_prepared h id v k c :
  component_of id v k c -> keeps (E := TerminationReason) h (put_prepared (id, v, k) c) (fun _ => True).
Proof.
  intros Hk s r s' (Hinv & Hp & He & Hc) [= <- <-]. split; [|done].
  destruct (lru_put_incl (id, v, k) c _ Hp) as [Hp' Hin]. split_and!; [done..|]. simpl.
  intros id' v' k' c' Hi. destruct (Hin _ Hi) as [[= -> -> -> ->]|Hi']; [done|by apply Hc].
Qed.

Lemma keeps_count_hit h : keeps (E := TerminationReason) h count_hit (fun _ => True).
Proof. intros s r s' Hs [= <- <-]. done. Qed.

(** The two kinds of key do not meet. *)
Lemma entry_ok_js h id v blob : contains_char ":" id = false -> entry_ok h (id, v) blob -> js_entry id v blob.
Proof.
  intros Hid [[_ ?]|(id' & k & c & Hid' & Hk & _)]; [done|]. simpl in Hk.
  by destruct (proj2 (wasm_id_injective id id' "" k Hid Hid')).
Qed.

Lemma entry_ok_wasm h id v k blob : contains_char ":" id = false -> entry_ok h (wasm_id id k, v) blob ->
  exists c, c ∈ h /\ serialize c = Ok blob /\ component_of id v k c.
Proof.
  intros Hid [[Hc _]|(id' & k' & c & Hid' & Hk & ? & ? & ?)]; simpl in *.
  - by destruct (proj2 (wasm_id_injective (wasm_id id k) id "" k Hc Hid)).
  - destruct (proj1 (wasm_id_injective id id' k k' Hid Hid') Hk) as [-> ->]. eauto.
Qed.

(** ** Each operation keeps the invariant *)

Lemma js_entry_program id v blob : js_entry id v blob -> is_v8 b = true -> is_program id v (snapshot_source blob).
Proof.
  unfold js_entry, is_program. intros Hl Hv. rewrite Hv in Hl. destruct Hl as (lang & Hlang & Hp).
  destruct (deployed id v).1 eqn:E; try done; exists lang; by rewrite E.
Qed.

Lemma lowers_program id v js : lowers id v js -> is_program id v js.
Proof.
  intros (lang & Hlang & Hp). unfold is_program. destruct (deployed id v).1 eqn:E; try done; exists lang; by rewrite E.
Qed.

(** What [parse_code] makes of a loaded worker. *)
Definition parsed_ok (id : string) (v : Z) (c : WorkerCode) : Prop :=
  is_program id v (code_source c) /\ (is_wasm c = true -> (deployed id v).1 = Wasm) /\
  (forall js, as_js c = Some js -> lowers id v js).

Lemma keeps_parse_js h data lang :
  data_ok data -> language (wb_code_type data) = Some lang ->
  keeps h (parse_js b data lang) (fun kc => parsed_ok (wb_id data) (wb_version data) kc.2).
Proof.
  intros (Hid & Ht & Hc) Hlang. unfold parse_js, transpile, refuse.
  destruct (RUNS_JAVASCRIPT b); [|apply keeps_throw].
  destruct (wb_code data) as [bytes|blob].
  - destruct (parse_worker_code bytes lang) as [js|] eqn:Hp; [|apply keeps_throw].
    assert (Hl : lowers (wb_id data) (wb_version data) js) by (exists lang; by rewrite Ht, <- Hc).
    apply (keeps_bind _ _ _ (fun _ => True)).
    + destruct (is_v8 b) eqn:Ev; [by apply keeps_ret|]. apply keeps_cc_put. left. split; [done|].
      unfold js_entry. by rewrite Ev.
    + intros _ _. apply keeps_ret. split_and!; simpl; [by apply lowers_program|done|]. by intros ? [= <-].
  - destruct (is_v8 b) eqn:Ev; [apply keeps_ret; split_and!; simpl; [by apply js_entry_program|done|done]|].
    unfold js_entry in Hc. rewrite Ev in Hc.
    destruct (utf8 0 blob); [|apply keeps_throw]. apply keeps_ret.
    split_and!; simpl; [by apply lowers_program|done|]. by intros ? [= <-].
Qed.

(** Only a JavaScript worker comes with an entry of the cache. *)
Lemma data_ok_bytes data : data_ok data -> language (wb_code_type data) = None ->
  source_bytes (wb_code data) = (deployed (wb_id data) (wb_version data)).2.
Proof.
  intros (_ & Ht & Hc) Hn. destruct (wb_code data); simpl; [done|].
  destruct Hc as (lang & Hlang & _). rewrite Ht, Hn in Hlang. done.
Qed.

Lemma keeps_parse_code h data :
  data_ok data -> keeps h (parse_code b data) (fun kc => parsed_ok (wb_id data) (wb_version data) kc.2).
Proof.
  intros Hd. pose proof Hd as (_ & Ht & _). unfold parse_code, refuse.
  destruct (wb_code_type data) eqn:E.
  1-2: apply keeps_parse_js; [done|by rewrite E].
  - destruct (has_wasm b); [|apply keeps_throw]. apply keeps_ret.
    split_and!; simpl; [|done|done]. unfold is_program. rewrite Ht. apply data_ok_bytes; [done|by rewrite E].
  - destruct (is_v8 b); [|apply keeps_throw]. apply keeps_ret.
    split_and!; simpl; [|done|done]. unfold is_program. rewrite Ht.
    rewrite data_ok_bytes; [done..|by rewrite E].
Qed.

Lemma keeps_prepare_script h data limits :
  data_ok data ->
  keeps h (s ← prepare_script b data; mret (mkPreparedWorker s None))
    (prepared_ok (wb_id data) (wb_version data) limits).
Proof.
  intros Hd. apply (keeps_bind _ _ _ (fun s => parsed_ok (wb_id data) (wb_version data) (code s))).
  - eapply keeps_bind; [by apply keeps_parse_code|]. intros [k c] Hp. apply keeps_lift.
    intros s (-> & _)%script_with_code_ok. done.
  - intros s Hs. by apply keeps_ret.
Qed.

Lemma without_code_wasm data s : script_without_code b data = Ok s -> is_wasm (code s) = true.
Proof. intros (-> & _)%script_with_code_ok. done. Qed.

Lemma keeps_without_code h data limits k c :
  compatibility_key limits = Ok k -> component_of (wb_id data) (wb_version data) k c ->
  keeps h (s ← lift (script_without_code b data); mret (mkPreparedWorker s (Some c)))
    (prepared_ok (wb_id data) (wb_version data) limits).
Proof.
  intros Hk Hc. apply (keeps_bind _ _ _ (fun s => is_wasm (code s) = true)).
  - apply keeps_lift. apply without_code_wasm.
  - intros s Hs. apply keeps_ret. split; [done|]. eauto.
Qed.

Lemma keeps_wasm_prepare h data limits :
  data_ok data ->
  keeps h (wasm_cache_prepare b data limits) (prepared_ok (wb_id data) (wb_version data) limits).
Proof.
  intros Hd. pose proof Hd as (Hid & _).
  apply (keeps_bind _ _ _ (fun k => compatibility_key limits = Ok k)); [by apply keeps_lift|].
  intros k Hk. eapply keeps_bind; [apply keeps_get_prepared|].
  intros [c|] Hc; [apply keeps_without_code with k; auto|].
  eapply keeps_bind; [apply keeps_cc_get|]. intros [a|] Ha; [|by apply keeps_prepare_script].
  destruct (entry_ok_wasm _ _ _ _ _ Hid (Ha _ eq_refl)) as (c0 & _ & Hser & Hkey & Hdep).
  apply (keeps_bind _ _ _ (fun c => component_of (wb_id data) (wb_version data) k c)).
  - apply keeps_lift. intros c Hpre.
    destruct (precompiled_guest c0 a limits c Hser ltac:(by rewrite Hkey) Hpre) as [Hg Hk']. split; congruence.
  - intros c Hcomp. eapply keeps_bind; [by apply keeps_put_prepared|]. intros _ _.
    by apply keeps_without_code with k.
Qed.

Lemma keeps_prepare_worker h data limits :
  data_ok data -> keeps h (prepare_worker b data limits) (prepared_ok (wb_id data) (wb_version data) limits).
Proof.
  intros Hd. unfold prepare_worker.
  destruct (wb_code_type data); try by apply keeps_prepare_script.
  destruct (has_wasm b); [by apply keeps_wasm_prepare|by apply keeps_prepare_script].
Qed.

Lemma from_prepared_ok id v k limits c sc ops w :
  compatibility_key limits = Ok k -> component_of id v k c ->
  from_prepared c sc limits ops = Ok w -> is_program id v (runs (WorkerWasm w)).
Proof.
  intros Hk [Hkey Hdep] Hw. unfold is_program. rewrite Hdep. simpl.
  apply (from_prepared_runs c sc limits ops); [by rewrite Hkey|done].
Qed.

Lemma keeps_from_prepared h id v k limits c sc ops :
  compatibility_key limits = Ok k -> component_of id v k c ->
  keeps h (w ← lift (from_prepared c sc limits ops); mret (WorkerWasm w)) (fun w => is_program id v (runs w)).
Proof.
  intros Hk Hc. apply (keeps_bind _ _ _ (fun w => is_program id v (runs (WorkerWasm w)))).
  - apply keeps_lift. intros w. by apply from_prepared_ok with k.
  - intros w Hw. by apply keeps_ret.
Qed.

Lemma keeps_wasm_create h id v limits ops p :
  contains_char ":" id = false -> prepared_ok id v limits p -> (forall c, c ∈ compiles p limits -> c ∈ h) ->
  keeps h (wasm_cache_create_worker p limits ops id v) (fun w => is_program id v (runs w)).
Proof.
  intros Hid Hp Hh. unfold wasm_cache_create_worker, prepared_ok, compiles, refuse in *.
  destruct (prepared p) as [c|].
  - destruct Hp as (_ & k & Hk & Hc). eapply keeps_bind; [apply keeps_count_hit|]. intros _ _.
    by apply keeps_from_prepared with k.
  - destruct Hp as (Hprog & Hw & _).
    apply (keeps_bind _ _ _ (fun k => compatibility_key limits = Ok k)); [by apply keeps_lift|]. intros k Hk.
    rewrite Hk in Hh. destruct (code (script p)) as [| |wasm]; [apply keeps_throw..|]. simpl in *.
    specialize (Hw eq_refl).
    apply (keeps_bind _ _ _ (fun c => wasm_prepare wasm limits = Ok c)); [by apply keeps_lift|]. intros c Hcomp.
    assert (Hc : component_of id v k c).
    { destruct (prepare_guest _ _ _ Hcomp) as [Hg Hkey]. split; [congruence|].
      unfold is_program in Hprog. rewrite Hw in Hprog. rewrite (surjective_pairing (deployed id v)). congruence. }
    rewrite Hcomp in Hh. apply (keeps_bind _ _ _ (fun _ => True)).
    + destruct (serialize c) as [a|] eqn:Hser; [|by apply keeps_ret]. apply keeps_cc_put. right.
      exists id, k, c. split_and!; [done..|set_solver|done|done].
    + intros _ _. eapply keeps_bind; [by apply keeps_put_prepared|]. intros _ _.
      by apply keeps_from_prepared with k.
Qed.

Lemma js_new_program id v sc limits ops w :
  is_wasm (code sc) = false -> is_program id v (code_source (code sc)) ->
  js_new sc limits ops = Ok w -> is_program id v (js_runs w).
Proof.
  intros Hw Hp Hn. pose proof (js_new_runs sc limits ops w Hn) as Hr.
  destruct (code sc); simpl in *; by rewrite ?Hr.
Qed.

Lemma keeps_create h data limits ops p :
  data_ok data -> script_fits b (backend_for (wb_code_type data)) (script p) ->
  (wb_code_type data = Wasm -> has_wasm b = true) ->
  prepared_ok (wb_id data) (wb_version data) limits p -> (forall c, c ∈ compiles p limits -> c ∈ h) ->
  keeps h (create_cached_worker b p limits ops (wb_id data) (wb_version data))
    (fun w => is_program (wb_id data) (wb_version data) (runs w)).
Proof.
  intros (Hid & Ht & _) [Hf _] Hb Hp Hh. unfold create_cached_worker, create_worker.
  destruct (is_wasm (code (script p))) eqn:Ew.
  - assert (Hbw : has_wasm b = true).
    { destruct (wb_code_type data), (code (script p)); simpl in *; auto; done. }
    rewrite Hbw. by apply keeps_wasm_create.
  - rewrite !andb_false_r. apply keeps_lift. intros w. unfold prepared_ok in Hp.
    destruct (prepared p) as [c|]; [destruct Hp as [Hp _]; congruence|]. destruct Hp as (Hp & _ & _).
    destruct (RUNS_JAVASCRIPT b); [|done]. destruct (js_new _ _ _) as [j|] eqn:Ej; simpl; intros [= <-].
    by eapply js_new_program.
Qed.

Lemma caches_ok_mono h h' s : (forall c, c ∈ h -> c ∈ h') -> caches_ok h s -> caches_ok h' s.
Proof.
  intros Hh (Hinv & Hp & He & Hc). split_and!; [done..| |done].
  intros key blob [?|(id & k & c & ? & ? & ? & ? & ?)]%He; [by left|]. right. exists id, k, c. auto 10.
Qed.

(** The rows a worker is read from. *)
Lemma meta_rows db identifier w d :
  fetch_one (query db "workers" (basic_rows db identifier)) = Some (w, d) ->
  w ∈ workers db /\ d ∈ worker_deployments db /\ d_worker_id d = w_id w.
Proof.
  unfold query. destruct (broken db "workers"); [done|]. simpl.
  destruct (basic_rows db identifier) as [|x l] eqn:Hrows; [done|]. intros [= ->].
  assert (Hin : (w, d) ∈ basic_rows db identifier) by (rewrite Hrows; left).
  unfold basic_rows, selectb in Hin. apply list_elem_of_bind in Hin as (w' & Hin & Hw).
  apply list_elem_of_bind in Hin as (d' & Hin & Hd). apply list_elem_of_singleton in Hin as [= <- <-].
  apply list_elem_of_In, filter_In in Hd as [Hd He]. apply list_elem_of_In, filter_In in Hw as [Hw _].
  apply andb_true_iff in He as [He%String.eqb_eq _]. by rewrite !list_elem_of_In.
Qed.

Lemma deployment_code db id v code :
  (forall d, d ∈ worker_deployments db -> deployed (d_worker_id d) (d_version d) = (d_code_type d, d_code d)) ->
  fetch_deployment_code db id v = Some code -> code = (deployed id v).2.
Proof.
  intros Hdep. unfold fetch_deployment_code, query. destruct (broken _ _); [done|]. simpl.
  destruct (selectb _ _) as [|x l] eqn:Hr; [done|]. intros [= <-].
  assert (Hin : In x (selectb (fun d => String.eqb (d_worker_id d) id && (d_version d =? v))%bool
    (worker_deployments db))) by (rewrite Hr; by left).
  apply filter_In in Hin as [Hx [He%String.eqb_eq Hv%Z.eqb_eq]%andb_true_iff].
  apply list_elem_of_In, Hdep in Hx. by rewrite He, Hv in Hx; rewrite Hx.
Qed.

(** A worker read from the tables and the cache. *)
Lemma load_ok h db identifier s r c :
  db_holds db -> caches_ok h s -> get_worker_with_bindings db identifier (code_cache s) = (r, c) ->
  caches_ok h (set_code_cache c s) /\ forall data, r = Some data -> data_ok data.
Proof.
  intros (Hdep & Hids) Hs. assert (Hs' : caches_ok h (set_code_cache (code_cache s) s)) by by destruct s.
  unfold get_worker_with_bindings. destruct (get_worker_meta db identifier) as [m|] eqn:Hm; [|by intros [= <- <-]].
  apply option_Some_bind in Hm as ([w d] & Hf & Hm). injection Hm as <-.
  destruct (meta_rows _ _ _ _ Hf) as (Hw & Hd & Hid). pose proof (Hdep d Hd) as HD. rewrite Hid in HD.
  pose proof (Hids w Hw) as Hcol.
  pose proof (fun code => deployment_code db (w_id w) (d_version d) code Hdep) as Hcode.
  unfold with_code, meta_cached_code, cached_code. simpl.
  destruct (d_code_type d) eqn:Hty; simpl.
  1-2: destruct (CodeCache.get (w_id w) (d_version d) (code_cache s)) as [o c'] eqn:Hg;
    destruct (cc_get_ok _ _ _ _ _ Hs Hg) as [Hc' He]; destruct o as [blob|]; simpl; intros [= <- <-]; (split; [done|]);
    [intros data [= <-]; split_and!; simpl; [done|by rewrite HD|by eapply entry_ok_js, He]
    |intros data (code & Hcd & [= <-])%option_Some_bind; split_and!; simpl; [done|by rewrite HD|by apply Hcode]].
  all: intros [= <- <-]; split; [done|];
    intros data (code & Hcd & [= <-])%option_Some_bind; split_and!; simpl; [done|by rewrite HD|by apply Hcode].
Qed.

Lemma cache_code_ok h id v js :
  contains_char ":" id = false -> is_v8 b = true -> lowers id v js ->
  keeps h (cache_code id v js) (fun _ => True).
Proof.
  intros Hid Hv Hl. unfold cache_code. destruct (create_code_cache js); [|by apply keeps_ret].
  apply keeps_cc_put. left. split; [done|]. unfold js_entry. rewrite Hv. simpl. by rewrite pack_source.
Qed.

Lemma parse_env_nonneg var n z : parse_env var n = Some z -> 0 <= z.
Proof. unfold parse_env. intros (x & _ & [? _]%parse_uint_bounds)%option_Some_bind. done. Qed.

Lemma read_env_nonneg var n f : read_env var n f = None \/ exists z, read_env var n f = Some z /\ 0 <= z.
Proof.
  unfold read_env. destruct (parse_env var n) eqn:E; [eauto using parse_env_nonneg|].
  destruct (parse_env var f) eqn:E'; eauto using parse_env_nonneg.
Qed.

Lemma proc_new_ok var : proc_ok (proc_new var).
Proof.
  assert (Hn : (0 < PREPARED_CAP)%nat) by (unfold PREPARED_CAP; lia).
  destruct (lru_new_ok (C := P) PREPARED_CAP Hn) as (Hok & He & _).
  pose proof (read_env_nonneg var) as Hr.
  set (n := match read_env var "CODE_CACHE_MAX" "SNAPSHOT_CACHE_MAX" with
            | Some n => if n =? 0 then DEFAULT_MAX_ENTRIES else n | None => DEFAULT_MAX_ENTRIES end).
  set (m := default DEFAULT_MAX_BYTES (read_env var "CODE_CACHE_MAX_BYTES" "SNAPSHOT_CACHE_MAX_BYTES")).
  assert (Hpos : 0 < n).
  { unfold n. destruct (Hr "CODE_CACHE_MAX" "SNAPSHOT_CACHE_MAX") as [->|(z & -> & Hz)]; [done|].
    destruct (z =? 0) eqn:E; reflect_bools; [done|lia]. }
  assert (Hmax : 0 <= m).
  { unfold m. by destruct (Hr "CODE_CACHE_MAX_BYTES" "SNAPSHOT_CACHE_MAX_BYTES") as [->|(z & -> & Hz)]. }
  destruct (new_refines (C := C) (Z.to_nat n) m ltac:(lia) Hmax) as [Hinv Ha].
  split_and!; simpl; [|set_solver..]. split_and!; simpl; [exact Hinv|done| |rewrite He; set_solver].
  intros key blob Hk. by apply Ha in Hk.
Qed.

Lemma step_ok s t : proc_ok s -> step s t -> proc_ok t.
Proof.
  intros (Hc & Hl & Hp & Hb) Hstep. destruct Hstep as
    [s db identifier r c Hdb E|s data limits r s' Hin E|s data limits p ops r s' Hin E
    |s data limits p js r s' Hv Hin Hjs E].
  - destruct (load_ok _ _ _ _ _ _ Hdb Hc E) as [Hc' Hd].
    split_and!; simpl; [done| |done|done]. intros data. destruct r; [|auto].
    intros [->|?]%elem_of_cons; auto.
  - destruct (keeps_prepare_worker _ _ limits (Hl _ Hin) _ _ _ Hc E) as [Hc' Hq].
    split_and!; simpl; [done|done| |done]. intros data' limits' p'. destruct r as [p|]; [|auto].
    intros [[= -> -> ->]|?]%elem_of_cons; [|auto].
    apply prepare_worker_fits in E as (? & ? & _). auto.
  - destruct (Hp _ _ _ Hin) as (Hd & Hk & Hf & Hok).
    assert (Hc1 : caches_ok (compiles p limits ++ compiled s) (caches s)) by (eapply caches_ok_mono; [|done]; set_solver).
    assert (Hbw : wb_code_type data = Wasm -> has_wasm b = true) by (intros Hw; by rewrite Hw in Hk).
    destruct (keeps_create (compiles p limits ++ compiled s) data limits ops p Hd Hf Hbw Hok ltac:(set_solver)
      _ _ _ Hc1 E) as [Hc' Hq].
    split_and!; simpl; [done|done|done|]. intros data' w. destruct r as [w'|]; [|auto].
    intros [[= -> ->]|?]%elem_of_cons; auto.
  - destruct (Hp _ _ _ Hin) as ((Hid & _) & _ & _ & Hok). unfold prepared_ok in Hok.
    destruct (prepared p); [by destruct (code (script p)); destruct Hok|].
    destruct Hok as (_ & _ & Hlow).
    destruct (cache_code_ok _ _ _ _ Hid Hv (Hlow _ Hjs) _ _ _ Hc E) as [Hc' _]. done.
Qed.

Lemma reachable_ok var s : rtc step (proc_new var) s -> proc_ok s.
Proof. apply rtc_invariant; [apply step_ok|apply proc_new_ok]. Qed.

End process.

(** ** Properties *)

Section properties.
Context {L O : Type} `{!Engines L O}.
Context {C P : Type} `{!Lru (string * Z) string C} `{!Lru (string * Z * string) Component P}.

(** C20. A prepared worker is well typed for the build: the type of its code
    names a backend the build carries, the script holds code of that
    backend (a snapshot only on v8) and all the bindings of the worker, each
    of a type the backend serves; whatever the caches hold when it is built,
    what is built is a worker of that backend. *)
Theorem prepared_fits (b : Build) (data : WorkerWithBindings) (limits : L) (s : Caches C P) p s' :
  prepare_worker b data limits s = (Ok p, s') ->
  let k := backend_for (wb_code_type data) in
  carried b k = true /\ code_fits b k (code (script p)) = true /\
  bindings (script p) = bindings_to_infos (wb_bindings data) /\
  Forall (fun i => supports_binding b k (bi_kind i) = true) (bindings (script p)) /\
  forall ops id v (s1 : Caches C P) w s2,
    create_cached_worker b p limits ops id v s1 = (Ok w, s2) -> worker_backend w = k.
Proof.
  intros H k. apply prepare_worker_fits in H as (Hc & Hs & Hb). split_and!; [done|apply Hs|done| |].
  - eapply Forall_impl; [apply Hs|]. intros i Hi. by apply bool_decide_eq_true.
  - intros ops id v s1 w s2. by apply create_worker_backend.
Qed.

Context `{!EngineLaws L O}.

(** C8. Every worker runs its own deployment. After any interleaving of
    loads from the platform, preparations, builds and background fills of
    the code cache, with entries evicted at any time, each worker built runs
    the program of the version it was loaded as: the source its deployment
    is lowered to, the source of its snapshot or its component. A JavaScript
    script prepared for the isolate pool holds that program too. *)
Theorem worker_runs_deployment (b : Build) (deployed : string -> Z -> CodeType * string)
  (var : string -> option string) (s : Proc (C := C) (P := P)) :
  rtc (step b deployed) (proc_new var) s ->
  (forall data w, (data, w) ∈ built s -> is_program deployed (wb_id data) (wb_version data) (runs w)) /\
  (forall data limits p, (data, limits, p) ∈ pending s -> is_wasm (code (script p)) = false ->
     is_program deployed (wb_id data) (wb_version data) (code_source (code (script p)))).
Proof.
  intros (_ & _ & Hp & Hb)%reachable_ok. split; [exact Hb|].
  intros data limits p Hin Hw. destruct (Hp _ _ _ Hin) as (_ & _ & _ & Hok). unfold prepared_ok in Hok.
  destruct (prepared p); [|by destruct Hok]. destruct Hok as [? _]. congruence.
Qed.

(** C13. Machine code is only loaded from bytes this process serialized: in
    every reachable state, what the cache gives for a worker, a version and
    an engine key is the serialization of a component the process compiled
    from the bytes of that version for that engine, although JavaScript
    sources and bytecode share the cache and its keys are strings. *)
Theorem trusted_bytes_serialized (b : Build) (deployed : string -> Z -> CodeType * string)
  (var : string -> option string) (s : Proc (C := C) (P := P)) (id : string) (v : Z) (k a : string) c :
  rtc (step b deployed) (proc_new var) s -> contains_char ":" id = false ->
  get_wasm id v k (code_cache (caches s)) = (Some a, c) ->
  exists component, component ∈ compiled s /\ serialize component = Ok a /\
    component_key component = k /\ deployed id v = (Wasm, guest component).
Proof.
  intros (Hc & _)%reachable_ok Hid Hg.
  destruct (cc_get_ok _ _ _ _ _ _ _ Hc Hg) as [_ He].
  destruct (entry_ok_wasm _ _ _ _ _ _ _ Hid (He _ eq_refl)) as (comp & ? & ? & ? & ?). eauto.
Qed.

End properties.

(** The Server header of every build is a header value. *)
Theorem server_header_valid `{HeaderValue} (b : Build) : hv_ok (server_header b) = true.
Proof.
  apply hv_ok_visible. unfold server_header, backend_name, JS_NAME, RUNS_JAVASCRIPT, RUNS_WASM.
  destruct (js_engine b) as [[]|], (has_wasm b); vm_compute; reflexivity.
Qed.

(** ** Witnesses *)

(** Engines whose workers are the programs they run. *)
Definition test_engines : Engines string unit := {|
  JsWorker := string; WasmWorker := string; Component := (string * string)%type;
  parse_worker_code source lang :=
    if String.eqb source "export default {" then Err "unexpected end"
    else Ok (match lang with JavaScript => source | TypeScript => "lowered " +:+ source end);
  js_new s _ _ := match code s with
                  | CJavaScript js | CSnapshot js => Ok js
                  | CWebAssembly _ => Err (Other "not JavaScript")
                  end;
  wasm_new s _ _ := Err (Other "no component");
  compatibility_key l := Ok l;
  wasm_prepare bytes l := Ok (l, bytes);
  prepare_precompiled a l := Ok (l, a);
  serialize c := Ok c.2;
  from_prepared c _ _ _ := Ok c.2;
  utf8_error _ := "invalid utf-8 sequence";
  create_code_cache js := Ok "";
  pack_code_cache js cache := js;
|}.

#[local] Existing Instance test_engines.

#[local, refine] Instance test_laws : EngineLaws string unit := {|
  snapshot_source blob := blob; js_runs w := w; wasm_runs w := w;
  guest c := c.2; component_key c := c.1 |}.
Proof.
  - done.
  - simpl. intros s l o w. destruct (code s); [by intros [= <-]..|done].
  - simpl. by intros bytes l c [= <-].
  - simpl. intros [k0 g0] a l c [= <-] [= <-] [= <-]. done.
  - simpl. by intros c s l o w _ [= <-].
Defined.

#[local] Abbreviation TC := (list_lru (string * Z) string).
#[local] Abbreviation TP := (list_lru (string * Z * string) (string * string)).

Definition test_build : Build := mkBuild (Some V8) true [] [].

Definition test_deployed (id : string) (v : Z) : CodeType * string :=
  if String.eqb id "js" then (Typescript, "source") else (Wasm, "component").

Definition test_db : Db := mkDb
  [mkWorkerRow "js" None "owner" (Some 1) (Some "env") None; mkWorkerRow "wasm" None "owner" (Some 1) (Some "env") None]
  [mkDeploymentRow "js" 1 Typescript "source"; mkDeploymentRow "wasm" 1 Wasm "component"]
  [] [mkValueRow "env" "owner" "KV" (Some "kv") TKv None] [] [mkKvConfig "kv" "store"] [] [] [] [] [] (fun _ => false).

Lemma test_db_holds : db_holds test_deployed test_db.
Proof. split; intros x Hx; repeat (apply elem_of_cons in Hx as [->|Hx]; [reflexivity|]); by apply not_elem_of_nil in Hx. Qed.

Definition test_env (name : string) : option string := None.
Definition test_new : Proc (C := TC) (P := TP) := proc_new test_env.

(** A run: both workers are loaded, prepared and built, the bytecode of the
    first is cached, and both are loaded, prepared and built again. *)
Definition test_data (s : Proc (C := TC) (P := TP)) (id : string) : WorkerWithBindings :=
  match (get_worker_with_bindings test_db (Id id) (code_cache (caches s))).1 with
  | Some data => data
  | None => mkWorkerWithBindings "" None "" (SBytes "") Javascript 0 ∅ [] None
  end.

Definition test_load (id : string) (s : Proc (C := TC) (P := TP)) : Proc :=
  let '(r, c) := get_worker_with_bindings test_db (Id id) (code_cache (caches s)) in
  mkProc (set_code_cache c (caches s)) (match r with Some data => data :: loaded s | None => loaded s end)
    (pending s) (built s) (compiled s).

Definition test_prepare (data : WorkerWithBindings) (s : Proc (C := TC) (P := TP)) : Proc :=
  let '(r, s') := prepare_worker test_build data "engine" (caches s) in
  mkProc s' (loaded s) (match r with Ok p => (data, "engine", p) :: pending s | Err _ => pending s end)
    (built s) (compiled s).

Definition test_create (x : WorkerWithBindings * string * PreparedWorker) (s : Proc (C := TC) (P := TP)) : Proc :=
  let '(data, limits, p) := x in
  let '(r, s') := create_cached_worker test_build p limits tt (wb_id data) (wb_version data) (caches s) in
  mkProc s' (loaded s) (pending s) (match r with Ok w => (data, w) :: built s | Err _ => built s end)
    (compiles p limits ++ compiled s).

#[local] Abbreviation test_step := (step test_build test_deployed).

Lemma test_load_step id s : test_step s (test_load id s).
Proof.
  unfold test_load. destruct (get_worker_with_bindings _ _ _) as [r c] eqn:E.
  by eapply step_load; [apply test_db_holds|].
Qed.

Lemma test_prepare_step data s : data ∈ loaded s -> test_step s (test_prepare data s).
Proof. intros Hd. unfold test_prepare. destruct (prepare_worker _ _ _ _) as [r s'] eqn:E. by eapply step_prepare. Qed.

Lemma test_create_step x s : x ∈ pending s -> test_step s (test_create x s).
Proof.
  destruct x as [[data limits] p]. intros Hx. unfold test_create.
  destruct (create_cached_worker _ _ _ _ _ _ _) as [r s'] eqn:E. by eapply step_create.
Qed.

Definition test_round (id : string) (s : Proc (C := TC) (P := TP)) : Proc :=
  let s1 := test_load id s in
  let s2 := match loaded s1 with data :: _ => test_prepare data s1 | [] => s1 end in
  match pending s2 with x :: _ => test_create x s2 | [] => s2 end.

Lemma test_round_steps id s : rtc test_step s (test_round id s).
Proof.
  unfold test_round. eapply rtc_l; [apply test_load_step|].
  destruct (loaded (test_load id s)) as [|data l] eqn:El.
  - destruct (pending (test_load id s)) as [|x q] eqn:Eq; [done|].
    apply rtc_once, test_create_step. rewrite Eq. left.
  - eapply rtc_l; [apply (test_prepare_step data); rewrite El; left|].
    destruct (pending (test_prepare data _)) as [|x q] eqn:Eq; [done|].
    apply rtc_once, test_create_step. rewrite Eq. left.
Qed.

Definition test_run : Proc (C := TC) (P := TP) := test_round "wasm" (test_round "js" (test_round "wasm" test_new)).

Lemma test_run_steps : rtc test_step test_new test_run.
Proof. unfold test_run. do 2 (etransitivity; [|apply test_round_steps]). apply test_round_steps. Qed.

Example test_run_ex :
  (runs ∘ snd) <$> built test_run = ["component"; "lowered source"; "component"] /\
  HITS (caches test_run) = 1.
Proof. vm_compute. split; reflexivity. Qed.

Lemma worker_runs_deployment_witness :
  Forall (fun x => is_program test_deployed (wb_id x.1) (wb_version x.1) (runs x.2)) (built test_run) /\
  length (built test_run) = 3%nat.
Proof.
  split; [|vm_compute; reflexivity]. apply Forall_forall. intros [data w].
  apply (proj1 (worker_runs_deployment test_build test_deployed test_env test_run test_run_steps)).
Defined.

Lemma trusted_bytes_serialized_witness : exists component,
  component ∈ compiled test_run /\ serialize component = Ok "component" /\
  component_key component = "engine" /\ test_deployed "wasm" 1 = (Wasm, guest component).
Proof.
  apply (trusted_bytes_serialized test_build test_deployed test_env test_run "wasm" 1 "engine" "component"
    (get_wasm "wasm" 1 "engine" (code_cache (caches test_run))).2 test_run_steps eq_refl).
  vm_compute. reflexivity.
Defined.

Definition prepared_of (data : WorkerWithBindings) : PreparedWorker :=
  match (prepare_worker test_build data "engine" (caches test_new)).1 with
  | Ok p => p
  | Err _ => mkPreparedWorker (mkScript (CJavaScript "") None []) None
  end.

Lemma prepared_fits_witness : bindings (script (prepared_of (test_data test_new "wasm"))) = [mkBindingInfo "KV" KKv] /\
  carried test_build BWasm = true /\
  code_fits test_build BWasm (code (script (prepared_of (test_data test_new "wasm")))) = true.
Proof.
  split; [vm_compute; reflexivity|].
  pose proof (prepared_fits test_build (test_data test_new "wasm") "engine" (caches test_new)
    (prepared_of (test_data test_new "wasm"))
    (prepare_worker test_build (test_data test_new "wasm") "engine" (caches test_new)).2) as H.
  split; apply H; vm_compute; reflexivity.
Defined.

(** A binding the engine does not serve is refused with its names. *)
Example refused_ex :
  check_bindings test_build BWasm
    [mkBindingInfo "A" KAssets; mkBindingInfo "K" KKv; mkBindingInfo "B" KAssets; mkBindingInfo "D" KD1]
  = Err (InitializationError
      "the wasm backend does not implement assets/d1 bindings, declared as A, B, D").
Proof. vm_compute. reflexivity. Qed.

Example server_header_ex : server_header test_build = "openworkers/v8,wasm/v1.18.7".
Proof. reflexivity. Qed.
