(* ===== verification/TaskRun.v ===== *)
(** * Running a task (src/src/task_executor.rs, src/src/event_fetch.rs)

    A fetch is prepared, sent to a thread of the worker pool and awaited. Two
    sides run from then on: the side that awaits it, which can time out, and
    the task in the pool, which holds the slot. On v8 a JavaScript worker
    runs in the isolate pool (or in a fresh isolate under a guard of its
    thread) and outlives a timeout; every other worker is built for the task
    and is dropped at the timeout. The two sides are a step relation, over
    the slots of [WorkerPool], the threads of [WorkerPool.Pool] and the
    caches of [Workers]. What a guest does is the result its run ends with. *)

From S2P Require Import Prelude RustStr Extern Metrics CodeCache Store WorkerPool Workers.

(** ** Settings *)

Inductive V8ExecuteMode : Type := Pinned | Oneshot.

#[export] Instance V8ExecuteMode_eq_dec : EqDecision V8ExecuteMode.
Proof. solve_decision. Defined.

(** [to_uppercase], on the characters whose upper case is a letter from A to
    Z: the lower case ones, the dotless i and the long s. *)
Fixpoint to_uppercase (s : string) : string :=
  match s with
  | EmptyString => EmptyString
  | String c r =>
    match r with
    | String d r' =>
      if (byte_of c =? 196) && (byte_of d =? 177) then String "I" (to_uppercase r')
      else if (byte_of c =? 197) && (byte_of d =? 191) then String "S" (to_uppercase r')
      else String (if (97 <=? byte_of c) && (byte_of c <=? 122) then ascii_of_N (Z.to_N (byte_of c - 32)) else c)
             (to_uppercase r)
    | EmptyString =>
      String (if (97 <=? byte_of c) && (byte_of c <=? 122) then ascii_of_N (Z.to_N (byte_of c - 32)) else c) EmptyString
    end
  end.

Definition mode_get (env : string -> option string) : V8ExecuteMode :=
  match to_uppercase <$> env "V8_EXECUTE" with
  | Some m => if String.eqb m "PINNED" then Pinned else if String.eqb m "ONESHOT" then Oneshot else Pinned
  | None => Pinned
  end.

Definition DEFAULT_CPU_TIME_MS : Z := 100.
Definition DEFAULT_WALL_CLOCK_TIME_MS : Z := 60000.

(** ** Late calls of respondWith *)

(** The marks of an event, the count per worker and state, and the workers
    already warned about. *)
Record ListenerMarks := mkMarks { late : bool; after_settle : bool }.

Record LateState := mkLate { late_counts : gmap (string * bool) Z; LATE_RESPOND_WITH_WARNED : gset string }.

(** Whether it logged. *)
Definition report_late_respond_with (worker_id : string) (marks : ListenerMarks) (s : LateState) : bool * LateState :=
  let k := (worker_id, after_settle marks) in
  let counts := <[k := default 0 (late_counts s !! k) + 1]> (late_counts s) in
  (bool_decide (worker_id ∉ LATE_RESPOND_WITH_WARNED s),
   mkLate counts ({[worker_id]} ∪ LATE_RESPOND_WITH_WARNED s)).

(** The marks of the events of a process, in order, and what was logged. *)
Fixpoint report_all (events : list (string * ListenerMarks)) (s : LateState) : list bool * LateState :=
  match events with
  | [] => ([], s)
  | (w, m) :: events =>
    let '(logged, s) := report_late_respond_with w m s in
    let '(l, s) := report_all events s in (logged :: l, s)
  end.

(** ** The two sides of a task *)

Section tasks.
Context {L O : Type} `{!Engines L O} `{!EngineLaws L O}.
Context {C P Sem : Type} `{!Lru (string * Z) string C} `{!Lru (string * Z * string) Component P} `{!Semaphore Sem}.
Context (b : Build) (deployed : string -> Z -> CodeType * string) (mode : V8ExecuteMode).

(** [RuntimeLimits] with the two fields set and the others as by default; the
    operations handle of a task; the text of a reason. *)
Context (limits_of : Z -> Z -> L) (ops_of : WorkerWithBindings -> O) (debug : TerminationReason -> string).

Definition default_limits : L := limits_of DEFAULT_CPU_TIME_MS DEFAULT_WALL_CLOCK_TIME_MS.

(** Which way a task runs. *)
Inductive path : Type := InPool (m : V8ExecuteMode) | OwnWorker.

Definition path_of (data : WorkerWithBindings) : path :=
  if is_v8 b then match wb_code_type data with Wasm => OwnWorker | _ => InPool mode end else OwnWorker.

(** The task in the pool. The slot was moved into it; [Ended None] is a task
    whose thread panicked. *)
Inductive pooled : Type :=
| Queued | Guarded | Running | Ended (r : option (result unit TerminationReason)).

Record Exec := mkExec {
  x_data : WorkerWithBindings; x_upgrade : bool; x_limits : L; x_prepared : PreparedWorker; x_path : path;
  x_timeout : option Z; x_slot : nat; x_thread : Z;
  x_pooled : pooled;
  (** The background fill of the code cache is due. *)
  x_fill : bool;
  (** What was sent on [termination_tx]. *)
  x_sent : option (result unit TerminationReason);
  (** The token of the request was cancelled by the timeout. *)
  x_cancelled : bool;
}.

Definition ended (x : Exec) : bool := match x_pooled x with Ended _ => true | _ => false end.

Definition set_pooled (p : pooled) (x : Exec) : Exec :=
  mkExec (x_data x) (x_upgrade x) (x_limits x) (x_prepared x) (x_path x) (x_timeout x) (x_slot x) (x_thread x) p
    (x_fill x) (x_sent x) (x_cancelled x).
Definition set_fill (f : bool) (x : Exec) : Exec :=
  mkExec (x_data x) (x_upgrade x) (x_limits x) (x_prepared x) (x_path x) (x_timeout x) (x_slot x) (x_thread x) (x_pooled x)
    f (x_sent x) (x_cancelled x).
Definition send (r : result unit TerminationReason) (cancel : bool) (x : Exec) : Exec :=
  mkExec (x_data x) (x_upgrade x) (x_limits x) (x_prepared x) (x_path x) (x_timeout x) (x_slot x) (x_thread x) (x_pooled x)
    (x_fill x) (Some r) (x_cancelled x || cancel).

(** What a fetch that is not run answers: the status, the body and the
    termination. *)
Record Refused := mkRefused { rf_status : Z; rf_body : string; rf_sent : result unit TerminationReason }.

Record State := mkState {
  proc : Proc (C := C) (P := P);
  slots : Slots.state (Sem := Sem);
  pool : Pool.SequentialWorkerPool nat;
  (** The threads whose guard of fresh isolates is taken. *)
  guards : gset Z;
  execs : list Exec;
  refused : list Refused;
  (** Calls of [notify_task_completed]. *)
  notified : Z;
}.

(** ** Preparing a fetch (src/src/event_fetch.rs) *)

Definition external_timeout_ms (upgrade : bool) (wall_clock_timeout_ms : Z) : option Z :=
  if upgrade then None else Some wall_clock_timeout_ms.

Definition set_caches (c : Caches C P) (p : Proc (C := C) (P := P)) : Proc :=
  mkProc c (loaded p) (pending p) (built p) (compiled p).

Definition add_pending (data : WorkerWithBindings) (limits : L) (pw : PreparedWorker)
  (p : Proc (C := C) (P := P)) : Proc :=
  mkProc (caches p) (loaded p) ((data, limits, pw) :: pending p) (built p) (compiled p).

(** [run_fetch], with the slot its caller took: the answer of a script that
    cannot be prepared (its slot drops, and nobody is notified), or the task
    sent to the next thread of the pool. [None]: a pool without threads. *)
Definition run_fetch (data : WorkerWithBindings) (upgrade : bool) (wall_clock_timeout_ms : Z)
  (slot : nat) (s : State) : option State :=
  let limits := default_limits in
  match prepare_worker b data limits (caches (proc s)) with
  | (Err err, c) =>
    sl ← Slots.drop_task slot (slots s);
    Some (mkState (set_caches c (proc s)) sl (pool s) (guards s) (execs s)
            (mkRefused 500 ("Failed to prepare script: " +:+ debug err) (Err err) :: refused s) (notified s))
  | (Ok prepared, c) =>
    pl ← Pool.spawn (length (execs s)) (pool s);
    let thread := Pool.next_thread (pool s) mod Pool.pool_len (pool s) in
    Some (mkState (add_pending data limits prepared (set_caches c (proc s))) (slots s) pl (guards s)
            (execs s ++ [mkExec data upgrade limits prepared (path_of data)
                           (external_timeout_ms upgrade wall_clock_timeout_ms) slot thread Queued false None false])
            (refused s) (notified s))
  end.

(** ** The task in the pool (src/src/task_executor.rs) *)

Definition set_exec (i : nat) (x : Exec) (s : State) : State :=
  mkState (proc s) (slots s) (pool s) (guards s) (<[i := x]> (execs s)) (refused s) (notified s).

Definition set_proc (p : Proc (C := C) (P := P)) (s : State) : State :=
  mkState p (slots s) (pool s) (guards s) (execs s) (refused s) (notified s).

Definition is_oneshot (x : Exec) : bool := match x_path x with InPool Oneshot => true | _ => false end.

(** A run that went well on v8 leaves its source for the code cache. *)
Definition leaves_code (x : Exec) (r : option (result unit TerminationReason)) : bool :=
  match x_path x, r, as_js (code (script (x_prepared x))) with
  | InPool _, Some (Ok _), Some _ => true
  | _, _, _ => false
  end.

(** The task ends: its [TaskPermit] drops, which gives the slot back and
    notifies the drain monitor, and its result goes to the channel. *)
Definition finish (i : nat) (x : Exec) (r : option (result unit TerminationReason)) (g : gset Z) (s : State) :
  option State :=
  sl ← Slots.drop_task (x_slot x) (slots s);
  Some (mkState (proc s) sl (pool s) g (<[i := set_fill (leaves_code x r) (set_pooled (Ended r) x)]> (execs s))
          (refused s) (notified s + 1)).

(** The process after a build: the worker, and what was compiled for it. *)
Definition add_built (x : Exec) (c : Caches C P) (w : result Worker TerminationReason) (p : Proc (C := C) (P := P)) : Proc :=
  mkProc c (loaded p) (pending p) (match w with Ok w => (x_data x, w) :: built p | Err _ => built p end)
    (compiles (x_prepared x) (x_limits x) ++ compiled p).

(** The thread takes the task. *)
Definition start (i : nat) (s : State) : option State :=
  x ← execs s !! i;
  match x_pooled x, x_path x with
  | Queued, InPool Pinned => Some (set_exec i (set_pooled Running x) s)
  | Queued, InPool Oneshot => Some (set_exec i (set_pooled Guarded x) s)
  | Queued, OwnWorker =>
    let '(w, c) := create_cached_worker b (x_prepared x) (x_limits x) (ops_of (x_data x))
                     (wb_id (x_data x)) (wb_version (x_data x)) (caches (proc s)) in
    let s := set_proc (add_built x c w (proc s)) s in
    match w with
    | Ok _ => Some (set_exec i (set_pooled Running x) s)
    | Err e => finish i x (Some (Err e)) (guards s) s
    end
  | _, _ => None
  end.

(** A fresh isolate is created under the guard of its thread. *)
Definition acquire_guard (i : nat) (s : State) : option State :=
  x ← execs s !! i;
  match x_pooled x with
  | Guarded =>
    if decide (x_thread x ∈ guards s) then None else
    let w := create_worker b (script (x_prepared x)) (x_limits x) (ops_of (x_data x)) in
    let s := set_proc (add_built x (caches (proc s)) w (proc s)) s in
    match w with
    | Ok _ => Some (mkState (proc s) (slots s) (pool s) ({[x_thread x]} ∪ guards s)
                      (<[i := set_pooled Running x]> (execs s)) (refused s) (notified s))
    | Err e => finish i x (Some (Err e)) (guards s) s
    end
  | _ => None
  end.

(** The guest ends with [r], or its thread panics; a fresh isolate is dropped
    before its guard. *)
Definition end_run (i : nat) (r : option (result unit TerminationReason)) (s : State) : option State :=
  x ← execs s !! i;
  match x_pooled x with
  | Running => finish i x r (if is_oneshot x then guards s ∖ {[x_thread x]} else guards s) s
  | _ => None
  end.

(** [run_task_with_timeout_worker]: the timeout drops the run of a worker of
    its own. *)
Definition own_timeout (i : nat) (s : State) : option State :=
  x ← execs s !! i;
  match x_path x, x_timeout x with
  | OwnWorker, Some _ => end_run i (Some (Err WallClockTimeout)) s
  | _, _ => None
  end.

Definition fill_cache (i : nat) (s : State) : option State :=
  x ← execs s !! i;
  js ← as_js (code (script (x_prepared x)));
  if x_fill x then
    let '(_, c) := cache_code (wb_id (x_data x)) (wb_version (x_data x)) js (caches (proc s)) in
    Some (set_exec i (set_fill false x) (set_proc (set_caches c (proc s)) s))
  else None.

(** ** The side that awaits *)

Definition joined (r : option (result unit TerminationReason)) : result unit TerminationReason :=
  match r with Some r => r | None => Err (Other "Worker pool channel closed") end.

Definition join (i : nat) (s : State) : option State :=
  x ← execs s !! i;
  match x_sent x, x_pooled x with
  | None, Ended r => Some (set_exec i (send (joined r) false x) s)
  | _, _ => None
  end.

(** The timeout of a task in the isolate pool: the task runs on, and its
    token is cancelled. *)
Definition timeout (i : nat) (s : State) : option State :=
  x ← execs s !! i;
  match x_sent x, x_path x, x_timeout x with
  | None, InPool _, Some _ => Some (set_exec i (send (Err WallClockTimeout) true x) s)
  | _, _, _ => None
  end.

(** ** All of them at once *)

Definition set_slots (sl : Slots.state (Sem := Sem)) (s : State) : State :=
  mkState (proc s) sl (pool s) (guards s) (execs s) (refused s) (notified s).

Definition fetch (data : WorkerWithBindings) (upgrade : bool) (wall : Z) (s : State) : option State :=
  sl ← Slots.slot_new (slots s);
  run_fetch data upgrade wall (length (Slots.slots (slots s))) (set_slots sl s).

(** The steps of the tasks themselves. *)
Inductive task_step : State -> State -> Prop :=
| t_start i s s' : start i s = Some s' -> task_step s s'
| t_guard i s s' : acquire_guard i s = Some s' -> task_step s s'
| t_end i r s s' : end_run i r s = Some s' -> task_step s s'
| t_own_timeout i s s' : own_timeout i s = Some s' -> task_step s s'
| t_fill i s s' : fill_cache i s = Some s' -> task_step s s'
| t_join i s s' : join i s = Some s' -> task_step s s'
| t_timeout i s s' : timeout i s = Some s' -> task_step s s'.

Inductive step : State -> State -> Prop :=
| s_load s db identifier r c :
  db_holds deployed db ->
  get_worker_with_bindings db identifier (code_cache (caches (proc s))) = (r, c) ->
  step s (set_proc (mkProc (set_code_cache c (caches (proc s)))
           (match r with Some data => data :: loaded (proc s) | None => loaded (proc s) end)
           (pending (proc s)) (built (proc s)) (compiled (proc s))) s)
| s_fetch s data upgrade wall s' :
  data ∈ loaded (proc s) -> fetch data upgrade wall s = Some s' -> step s s'
| s_take s sl : Slots.take_socket (slots s) = Some sl -> step s (set_slots sl s)
| s_trade s j sl : Slots.trade j (slots s) = Some sl -> step s (set_slots sl s)
| s_drop_socket s sl : Slots.drop_socket (slots s) = Some sl -> step s (set_slots sl s)
| s_task s s' : task_step s s' -> step s s'.

Definition init (var : string -> option string) (max_queued max_ws : Z) (threads : nat) : State :=
  mkState (proc_new var) (Slots.init max_queued max_ws) (Pool.pool_new threads) ∅ [] [] 0.

(** ** What a step does to a task *)

Definition finished (x : Exec) (r : option (result unit TerminationReason)) : Exec :=
  set_fill (leaves_code x r) (set_pooled (Ended r) x).

(** From a task and the guards to the same after a step; [true] if the task
    ends. *)
Inductive move : Exec -> gset Z -> Exec -> gset Z -> bool -> Prop :=
| m_run x g : x_pooled x = Queued -> is_oneshot x = false -> move x g (set_pooled Running x) g false
| m_wait x g : x_pooled x = Queued -> is_oneshot x = true -> move x g (set_pooled Guarded x) g false
| m_isolate x g : x_pooled x = Guarded -> x_thread x ∉ g ->
  move x g (set_pooled Running x) ({[x_thread x]} ∪ g) false
| m_fail x g e : x_pooled x = Queued \/ x_pooled x = Guarded ->
  move x g (finished x (Some (Err e))) g true
| m_end x g r : x_pooled x = Running ->
  move x g (finished x r) (if is_oneshot x then g ∖ {[x_thread x]} else g) true
| m_fill x g : x_fill x = true -> move x g (set_fill false x) g false
| m_join x g r : x_sent x = None -> x_pooled x = Ended r -> move x g (send (joined r) false x) g false
| m_timeout x g m ms : x_sent x = None -> x_path x = InPool m -> x_timeout x = Some ms ->
  move x g (send (Err WallClockTimeout) true x) g false.

Definition moved (s s' : State) : Prop := exists i x x' e,
  execs s !! i = Some x /\ move x (guards s) x' (guards s') e /\ execs s' = <[i := x']> (execs s) /\
  refused s' = refused s /\ pool s' = pool s /\
  (if e : bool then Slots.drop_task (x_slot x) (slots s) = Some (slots s') /\ notified s' = notified s + 1
   else slots s' = slots s /\ notified s' = notified s).

Lemma finish_inv i x r g s s' : finish i x r g s = Some s' ->
  execs s' = <[i := finished x r]> (execs s) /\ guards s' = g /\ refused s' = refused s /\ pool s' = pool s /\
  proc s' = proc s /\ Slots.drop_task (x_slot x) (slots s) = Some (slots s') /\ notified s' = notified s + 1.
Proof. intros (sl & E & [= <-])%option_Some_bind. done. Qed.

Lemma start_moved i s s' : start i s = Some s' -> moved s s'.
Proof.
  intros (x & Hx & E)%option_Some_bind.
  destruct (x_pooled x) eqn:Ep; try done. destruct (x_path x) as [[]|] eqn:Et.
  - injection E as <-. exists i, x, (set_pooled Running x), false. split_and!; try done.
    apply m_run; [done|]. unfold is_oneshot. by rewrite Et.
  - injection E as <-. exists i, x, (set_pooled Guarded x), false. split_and!; try done.
    apply m_wait; [done|]. unfold is_oneshot. by rewrite Et.
  - destruct (create_cached_worker _ _ _ _ _ _ _) as [[w|e] c].
    + injection E as <-. exists i, x, (set_pooled Running x), false. split_and!; try done.
      apply m_run; [done|]. unfold is_oneshot. by rewrite Et.
    + apply finish_inv in E as (Ex & Eg & Er & Epl & _ & Es & En).
      exists i, x, (finished x (Some (Err e))), true. rewrite Eg. split_and!; try done. apply m_fail. by left.
Qed.

Lemma guard_moved i s s' : acquire_guard i s = Some s' -> moved s s'.
Proof.
  intros (x & Hx & E)%option_Some_bind. destruct (x_pooled x) eqn:Ep; try done.
  destruct (decide (x_thread x ∈ guards s)) as [|Hg]; [done|].
  destruct (create_worker _ _ _ _) as [w|e].
  - injection E as <-. exists i, x, (set_pooled Running x), false. split_and!; try done. by apply m_isolate.
  - apply finish_inv in E as (Ex & Eg & Er & Epl & _ & Es & En).
    exists i, x, (finished x (Some (Err e))), true. rewrite Eg. split_and!; try done. apply m_fail. by right.
Qed.

Lemma end_moved i r s s' : end_run i r s = Some s' -> moved s s'.
Proof.
  intros (x & Hx & E)%option_Some_bind. destruct (x_pooled x) eqn:Ep; try done.
  apply finish_inv in E as (Ex & Eg & Er & Epl & _ & Es & En).
  exists i, x, (finished x r), true. rewrite Eg. split_and!; try done. by apply m_end.
Qed.

Lemma fill_moved i s s' : fill_cache i s = Some s' -> moved s s'.
Proof.
  intros (x & Hx & (js & _ & E)%option_Some_bind)%option_Some_bind. destruct (x_fill x) eqn:Ef; [|done].
  destruct (cache_code _ _ _ _) as [r c]. injection E as <-.
  exists i, x, (set_fill false x), false. split_and!; try done. by apply m_fill.
Qed.

Lemma join_moved i s s' : join i s = Some s' -> moved s s'.
Proof.
  intros (x & Hx & E)%option_Some_bind.
  destruct (x_sent x) eqn:Es; [done|]. destruct (x_pooled x) eqn:Ep; try done. injection E as <-.
  eexists i, x, _, false. split_and!; try done. by apply m_join.
Qed.

Lemma timeout_moved i s s' : timeout i s = Some s' -> moved s s'.
Proof.
  intros (x & Hx & E)%option_Some_bind.
  destruct (x_sent x) eqn:Es; [done|]. destruct (x_path x) eqn:Et; [|done].
  destruct (x_timeout x) eqn:Em; [|done]. injection E as <-.
  eexists i, x, _, false. split_and!; try done. by eapply m_timeout.
Qed.

Lemma task_step_moved s s' : task_step s s' -> moved s s'.
Proof.
  destruct 1 as [i s s' E|i s s' E|i r s s' E|i s s' E|i s s' E|i s s' E|i s s' E];
    eauto using start_moved, guard_moved, end_moved, fill_moved, join_moved, timeout_moved.
  apply option_Some_bind in E as (x & _ & E). destruct (x_path x); [done|]. destruct (x_timeout x); [|done].
  by eapply end_moved.
Qed.

(** What a task keeps. *)
Lemma move_keeps x g x' g' e : move x g x' g' e ->
  x_data x' = x_data x /\ x_upgrade x' = x_upgrade x /\ x_limits x' = x_limits x /\ x_prepared x' = x_prepared x /\
  x_path x' = x_path x /\ x_timeout x' = x_timeout x /\ x_slot x' = x_slot x /\ x_thread x' = x_thread x.
Proof. by destruct 1. Qed.

Lemma move_ended x g x' g' e : move x g x' g' e -> if e then ended x = false /\ ended x' = true else ended x' = ended x.
Proof. unfold ended. destruct 1; simpl; try (destruct H as [H|H]); rewrite ?H; done. Qed.

(** ** The slots *)

Definition live (x : Exec) : bool := negb (ended x).

Section slot_inv.
Context (max_queued max_ws : Z).

Record slots_ok (s : State) : Prop := mkSlotsOk {
  so_reach : rtc Slots.step (Slots.init max_queued max_ws) (slots s);
  so_count : countb Slots.taken (Slots.slots (slots s)) = countb live (execs s);
  so_held i x : execs s !! i = Some x ->
    exists o, Slots.slots (slots s) !! x_slot x = Some o /\ Slots.taken o = live x;
  so_nodup : NoDup (x_slot <$> execs s);
}.

Lemma slot_new_inv (sl sl' : Slots.state (Sem := Sem)) :
  Slots.slot_new sl = Some sl' -> Slots.slots sl' = Slots.slots sl ++ [Some Slots.PWorker].
Proof. unfold Slots.slot_new. by intros (sem & _ & [= <-])%option_Some_bind. Qed.

Lemma drop_task_inv j (sl sl' : Slots.state (Sem := Sem)) o :
  Slots.slots sl !! j = Some o -> Slots.drop_task j sl = Some sl' -> Slots.slots sl' = <[j := None]> (Slots.slots sl).
Proof.
  unfold Slots.drop_task. intros Hj. rewrite Hj. simpl. intros [= <-]. destruct o as [[]|]; simpl; [done|done|].
  by rewrite list_insert_id.
Qed.

Lemma trade_inv j (sl sl' : Slots.state (Sem := Sem)) :
  Slots.trade j sl = Some sl' -> exists o o', Slots.slots sl !! j = Some o /\
    Slots.slots sl' = <[j := o']> (Slots.slots sl) /\ Slots.taken o' = Slots.taken o.
Proof.
  unfold Slots.trade. destruct (Slots.hand sl); [done|]. destruct (Slots.slots sl !! j) as [o|] eqn:Ej; [|done].
  intros [= <-]. destruct o as [[]|]; simpl; [by eexists _, (Some Slots.PSocket)..|].
  eexists None, None. split; [done|]. by rewrite list_insert_id.
Qed.

(** A fetch: refused, or one more task on a new slot. *)
Lemma fetch_inv data upgrade wall s s' : fetch data upgrade wall s = Some s' ->
  guards s' = guards s /\ notified s' = notified s /\
  (rtc Slots.step (slots s) (slots s')) /\
  let slot := length (Slots.slots (slots s)) in
  (execs s' = execs s /\ Slots.slots (slots s') = Slots.slots (slots s) ++ [None] /\
   exists err c, prepare_worker b data default_limits (caches (proc s)) = (Err err, c) /\ proc s' = set_caches c (proc s) /\
     refused s' = mkRefused 500 ("Failed to prepare script: " +:+ debug err) (Err err) :: refused s) \/
  (exists pw c th, prepare_worker b data default_limits (caches (proc s)) = (Ok pw, c) /\
     proc s' = add_pending data default_limits pw (set_caches c (proc s)) /\ refused s' = refused s /\
     Slots.slots (slots s') = Slots.slots (slots s) ++ [Some Slots.PWorker] /\
     execs s' = execs s ++ [mkExec data upgrade default_limits pw (path_of data)
       (external_timeout_ms upgrade wall) slot th Queued false None false]).
Proof.
  intros (sl & Hn & E)%option_Some_bind. pose proof (slot_new_inv _ _ Hn) as Hsl.
  unfold run_fetch in E. simpl in E. destruct (prepare_worker b data default_limits _) as [[pw|err] c].
  - apply option_Some_bind in E as (pl & _ & [= <-]). simpl.
    split_and!; [done|done|by apply rtc_once, Slots.s_new|]. right. eexists pw, c, _. done.
  - apply option_Some_bind in E as (sl' & Hd & [= <-]). simpl.
    assert (Hl : Slots.slots sl !! length (Slots.slots (slots s)) = Some (Some Slots.PWorker)).
    { rewrite Hsl, lookup_app_r by lia. by rewrite Nat.sub_diag. }
    split_and!; [done|done| |].
    + eapply rtc_l; [by apply Slots.s_new|]. by eapply rtc_once, Slots.s_drop_task.
    + left. split_and!; [done| |by eexists err, c].
      rewrite (drop_task_inv _ _ _ _ Hl Hd), Hsl.
      rewrite insert_app_r_alt by lia. by rewrite Nat.sub_diag.
Qed.

Lemma slots_ok_append s (sl : Slots.state (Sem := Sem)) o l : slots_ok s ->
  Slots.slots sl = Slots.slots (slots s) ++ [o] ->
  (l = [] /\ o = None \/ exists x, l = [x] /\ x_slot x = length (Slots.slots (slots s)) /\ Slots.taken o = live x) ->
  countb Slots.taken (Slots.slots sl) = countb live (execs s ++ l) /\
  (forall i x, (execs s ++ l) !! i = Some x -> exists o, Slots.slots sl !! x_slot x = Some o /\ Slots.taken o = live x) /\
  NoDup (x_slot <$> execs s ++ l).
Proof.
  intros [_ Hc Hh Hnd] Hsl Hl. rewrite Hsl, !countb_app, Hc, fmap_app. split_and!.
  - destruct Hl as [[-> ->]|(x & -> & _ & Ht)]; simpl; [lia|]. rewrite Ht. lia.
  - intros i x [Hi|[_ Hi]]%lookup_app_Some.
    + destruct (Hh _ _ Hi) as (o' & Ho & ?). exists o'. split; [|done]. by apply lookup_app_l_Some.
    + destruct Hl as [[-> _]|(y & -> & Hs & Ht)]; [by rewrite lookup_nil in Hi|].
      apply list_lookup_singleton_Some in Hi as [_ <-]. exists o. split; [|done].
      rewrite Hs, lookup_app_r by lia. by rewrite Nat.sub_diag.
  - destruct Hl as [[-> _]|(y & -> & Hs & _)]; [by rewrite app_nil_r|]. simpl.
    apply NoDup_app. split_and!; [done| |apply NoDup_singleton].
    intros j Hj Hy. apply list_elem_of_singleton in Hy. apply list_elem_of_fmap in Hj as (x & -> & Hx).
    apply list_elem_of_lookup in Hx as (i & Hi). destruct (Hh _ _ Hi) as (o' & Ho & _).
    apply lookup_lt_Some in Ho. lia.
Qed.

(** A task that ends empties its own slot and no other. *)
Lemma slots_ok_moved s s' : slots_ok s -> moved s s' -> slots_ok s'.
Proof.
  intros [Hr Hc Hh Hnd] (i & x & x' & e & Hi & Hm & Ex & _ & _ & He).
  pose proof (move_keeps _ _ _ _ _ Hm) as (_ & _ & _ & _ & _ & _ & Hslot & _).
  pose proof (move_ended _ _ _ _ _ Hm) as Hen.
  assert (Hnd' : NoDup (x_slot <$> execs s')).
  { rewrite Ex, list_fmap_insert, Hslot, list_insert_id; [done|]. by rewrite list_lookup_fmap, Hi. }
  assert (Hcount : countb live (execs s') = countb live (execs s) - (if live x then 1 else 0) + (if live x' then 1 else 0)).
  { rewrite Ex. by apply countb_insert. }
  destruct (Hh _ _ Hi) as (o & Ho & Hto). destruct e.
  - destruct He as [Hd _], Hen as [Hx%negb_true_iff Hx'%negb_false_iff].
    change (live x = true) in Hx. change (live x' = false) in Hx'. rewrite Hx in Hto. rewrite Hx, Hx' in Hcount.
    pose proof (drop_task_inv _ _ _ _ Ho Hd) as Hsl. split; [| | |done].
    + eapply rtc_r; [done|]. by eapply Slots.s_drop_task.
    + rewrite Hsl, (countb_insert _ _ _ _ _ Ho), Hc, Hto, Hcount. simpl. lia.
    + rewrite Ex. intros j y Hj. rewrite Hsl. destruct (decide (i = j)) as [->|Hne].
      * rewrite list_lookup_insert_eq in Hj by (by eapply lookup_lt_Some). injection Hj as <-. rewrite Hslot.
        exists None. rewrite list_lookup_insert_eq by (by eapply lookup_lt_Some). by rewrite Hx'.
      * rewrite list_lookup_insert_ne in Hj by done. destruct (Hh _ _ Hj) as (o' & Ho' & ?). exists o'.
        rewrite list_lookup_insert_ne; [done|]. intros Heq. apply Hne.
        eapply (NoDup_lookup _ i j (x_slot x)); [exact Hnd|by rewrite list_lookup_fmap, Hi|].
        rewrite list_lookup_fmap, Hj. simpl. by rewrite Heq.
  - destruct He as [Hsl _]. assert (Hl : live x' = live x) by (unfold live; by rewrite Hen).
    rewrite Hl in Hcount. split; rewrite ?Hsl; [done| | |done].
    + rewrite Hc, Hcount. lia.
    + rewrite Ex. intros j y Hj. destruct (decide (i = j)) as [->|Hne].
      * rewrite list_lookup_insert_eq in Hj by (by eapply lookup_lt_Some). injection Hj as <-. rewrite Hslot, Hl. eauto.
      * rewrite list_lookup_insert_ne in Hj by done. by eapply Hh.
Qed.

Lemma slots_ok_step s s' : slots_ok s -> step s s' -> slots_ok s'.
Proof.
  intros Hs Hstep. destruct Hstep as [s db ident r c _ _|s data upg wall s' _ E|s sl E|s j sl E|s sl E|s s' E].
  - by destruct Hs.
  - pose proof (so_reach _ Hs) as Hr.
    apply fetch_inv in E as (_ & _ & Hst & [(Ex & Hsl & _)|(pw & c & th & _ & _ & _ & Hsl & Ex)]).
    + destruct (slots_ok_append s (slots s') None [] Hs Hsl) as (H1 & H2 & H3); [by left|].
      rewrite app_nil_r in H1, H2, H3. split; rewrite ?Ex; auto. by etransitivity.
    + match type of Ex with _ = _ ++ [?y] =>
        destruct (slots_ok_append s (slots s') _ [y] Hs Hsl) as (H1 & H2 & H3); [right; by exists y|] end.
      split; rewrite ?Ex; auto. by etransitivity.
  - destruct Hs as [Hr Hc Hh Hnd]. assert (Hsl : Slots.slots sl = Slots.slots (slots s)).
    { unfold Slots.take_socket in E. by apply option_Some_bind in E as (? & _ & [= <-]). }
    split; simpl; rewrite ?Hsl; auto. eapply rtc_r; [done|by apply Slots.s_take].
  - destruct Hs as [Hr Hc Hh Hnd]. destruct (trade_inv _ _ _ E) as (o & o' & Ho & Hsl & Ht).
    split; simpl; auto; [eapply rtc_r; [done|by eapply Slots.s_trade]|..].
    + rewrite Hsl, (countb_insert _ _ _ _ _ Ho), Ht. rewrite <- Hc. lia.
    + intros i x Hi. destruct (Hh _ _ Hi) as (o1 & Ho1 & Ht1). rewrite Hsl.
      destruct (decide (j = x_slot x)) as [->|Hne]; [|by rewrite list_lookup_insert_ne by done; eauto].
      rewrite list_lookup_insert_eq by (by eapply lookup_lt_Some). exists o'. split; [done|]. congruence.
  - destruct Hs as [Hr Hc Hh Hnd]. assert (Hsl : Slots.slots sl = Slots.slots (slots s)).
    { unfold Slots.drop_socket in E. destruct (Slots.hand (slots s)); [done|]. by injection E as <-. }
    split; simpl; rewrite ?Hsl; auto. eapply rtc_r; [done|by apply Slots.s_drop_socket].
  - by eapply slots_ok_moved, task_step_moved.
Qed.

Lemma slots_ok_init var threads : slots_ok (init var max_queued max_ws threads).
Proof. split; simpl; [done|done|done|apply NoDup_nil_2]. Qed.
End slot_inv.

(** ** Each task *)

(** What was sent: the result of the run, or a timeout of the side that
    awaits, which cancelled the request. *)
Definition answer_ok (x : Exec) : Prop :=
  match x_sent x with
  | None => x_cancelled x = false
  | Some r =>
    (exists p, x_pooled x = Ended p /\ r = joined p /\ x_cancelled x = false) \/
    (r = Err WallClockTimeout /\ x_cancelled x = true /\ x_upgrade x = false /\ exists m, x_path x = InPool m)
  end.

Record exec_ok (x : Exec) : Prop := mkExecOk {
  eo_path : x_path x = path_of (x_data x);
  eo_upgrade : x_upgrade x = true -> x_timeout x = None;
  eo_guarded : x_pooled x = Guarded -> is_oneshot x = true;
  eo_fill : x_fill x = true -> is_v8 b = true /\ ended x = true /\ exists js, as_js (code (script (x_prepared x))) = Some js;
  eo_answer : answer_ok x;
}.

Lemma in_pool_v8 data m : path_of data = InPool m -> is_v8 b = true /\ wb_code_type data <> Wasm.
Proof. unfold path_of. destruct (is_v8 b); [|done]. by destruct (wb_code_type data). Qed.

Lemma leaves_code_ok x r : leaves_code x r = true ->
  (exists m, x_path x = InPool m) /\ exists js, as_js (code (script (x_prepared x))) = Some js.
Proof.
  unfold leaves_code. destruct (x_path x); [|done]. destruct r as [[]|]; [|done..].
  destruct (as_js _); [eauto|done].
Qed.

Lemma finished_ok x r : exec_ok x -> ended x = false -> exec_ok (finished x r).
Proof.
  intros [Hp Hu Hg Hf Ha] He. split; simpl; [done|done|done| |].
  - intros ([m Hm] & Hjs)%leaves_code_ok. split_and!; [|done|done]. rewrite Hm in Hp. by eapply proj1, in_pool_v8.
  - unfold answer_ok in *. simpl. destruct (x_sent x); [|done].
    destruct Ha as [(p & Hp' & _)|?]; [|by right]. unfold ended in He. by rewrite Hp' in He.
Qed.

Lemma set_pooled_ok x p : exec_ok x -> ended x = false -> p = Running \/ p = Guarded /\ is_oneshot x = true ->
  exec_ok (set_pooled p x).
Proof.
  intros [Hp Hu Hg Hf Ha] He Hc. split; simpl; [done|done| | |].
  - destruct Hc as [->|[_ ?]]; [done|]. intros _. done.
  - intros (_ & Hx & _)%Hf. congruence.
  - unfold answer_ok in *. simpl. destruct (x_sent x); [|done].
    destruct Ha as [(q & Hq & _)|?]; [|by right]. unfold ended in He. by rewrite Hq in He.
Qed.

Lemma exec_ok_move x g x' g' e : exec_ok x -> move x g x' g' e -> exec_ok x'.
Proof.
  intros Hx Hm. destruct Hm as [x g Hq Ho|x g Hq Ho|x g Hq Hn|x g e Hq|x g r Hq|x g Hf|x g r Hs Hq|x g m ms Hs Hp Ht].
  - apply set_pooled_ok; [done|unfold ended; by rewrite Hq|by left].
  - apply set_pooled_ok; [done|unfold ended; by rewrite Hq|by right].
  - apply set_pooled_ok; [done|unfold ended; by rewrite Hq|by left].
  - apply finished_ok; [done|]. unfold ended. by destruct Hq as [-> | ->].
  - apply finished_ok; [done|]. unfold ended. by rewrite Hq.
  - destruct Hx as [Hp Hu Hg _ Ha]. by split.
  - destruct Hx as [Hp Hu Hg Hf Ha]. split; try done. unfold answer_ok in *. rewrite Hs in Ha. simpl.
    left. exists r. by rewrite Ha.
  - destruct Hx as [Hp' Hu Hg Hf Ha]. split; try done. right. simpl. split_and!; [done| |eauto..].
    + by rewrite orb_true_r.
    + destruct (x_upgrade x); [|done]. rewrite Hu in Ht; done.
Qed.

(** ** The guards of fresh isolates *)

(** A fresh isolate of the thread is alive. *)
Definition isolate_on (t : Z) (x : Exec) : bool :=
  match x_pooled x with Running => is_oneshot x && (x_thread x =? t) | _ => false end.

Definition guards_ok (s : State) : Prop :=
  forall t, countb (isolate_on t) (execs s) = if decide (t ∈ guards s) then 1 else 0.

Lemma guards_move x g x' g' e t : exec_ok x -> move x g x' g' e ->
  (if isolate_on t x then 1 else 0) <= (if decide (t ∈ g) then 1 else 0) ->
  (if decide (t ∈ g') then 1 else 0) =
  (if decide (t ∈ g) then 1 else 0) - (if isolate_on t x then 1 else 0) + (if isolate_on t x' then 1 else 0).
Proof.
  clear limits_of ops_of debug deployed.
  intros Hx Hm. destruct Hm as [x g Hq Ho|x g Hq Ho|x g Hq Hn|x g e Hq|x g r Hq|x g Hf|x g r Hs Hq|x g m ms Hs Hp Ht];
    unfold isolate_on; simpl.
  - rewrite Hq. change (is_oneshot (set_pooled Running x)) with (is_oneshot x). rewrite Ho. simpl. lia.
  - rewrite Hq. lia.
  - rewrite Hq. change (is_oneshot (set_pooled Running x)) with (is_oneshot x). rewrite (eo_guarded _ Hx Hq). simpl.
    destruct (Z.eqb_spec (x_thread x) t) as [<-|Hne]; [rewrite (decide_False (P := _ ∈ g)) by done; rewrite decide_True by set_solver; lia|].
    destruct (decide (t ∈ g)); [rewrite decide_True by set_solver|rewrite decide_False by set_solver]; lia.
  - destruct Hq as [-> | ->]; lia.
  - rewrite Hq. destruct (is_oneshot x); simpl; [|lia].
    destruct (Z.eqb_spec (x_thread x) t) as [<-|Hne].
    + rewrite (decide_False (P := _ ∈ g ∖ _)) by set_solver. destruct (decide (x_thread x ∈ g)); lia.
    + destruct (decide (t ∈ g)); [rewrite decide_True by set_solver|rewrite decide_False by set_solver]; lia.
  - change (is_oneshot (set_fill false x)) with (is_oneshot x). lia.
  - rewrite Hq. lia.
  - change (is_oneshot (send _ _ x)) with (is_oneshot x). lia.
Qed.

Record tasks_ok (s : State) : Prop := mkTasksOk {
  to_execs i x : execs s !! i = Some x -> exec_ok x;
  to_guards : guards_ok s;
}.

Lemma tasks_ok_moved s s' : tasks_ok s -> moved s s' -> tasks_ok s'.
Proof.
  intros [Hx Hg] (i & x & x' & e & Hi & Hm & Ex & _). split.
  - intros j y. rewrite Ex. intros [(-> & <- & _)|[_ Hj]]%list_lookup_insert_Some; [|by eapply Hx].
    eapply exec_ok_move; [by eapply Hx|done].
  - intros t. rewrite Ex, (countb_insert _ _ _ _ _ Hi), Hg. symmetry. apply (guards_move x _ _ _ e); [by eapply Hx|done|].
    rewrite <- Hg. destruct (isolate_on t x) eqn:E; [|apply countb_nonneg].
    eapply countb_pos; [by eapply list_elem_of_lookup_2|done].
Qed.

Lemma tasks_ok_step s s' : tasks_ok s -> step s s' -> tasks_ok s'.
Proof.
  intros Hs Hstep. destruct Hstep as [s db ident r c _ _|s data upg wall s' _ E|s sl E|s j sl E|s sl E|s s' E];
    [by destruct Hs| |by destruct Hs..|by eapply tasks_ok_moved, task_step_moved].
  destruct Hs as [Hx Hg].
  apply fetch_inv in E as (Eg & _ & _ & [(Ex & _)|(pw & c & th & _ & _ & _ & _ & Ex)]).
  - split; [by rewrite Ex|]. intros t. rewrite Ex, Eg. apply Hg.
  - split.
    + rewrite Ex. intros i x [Hi|[_ Hi]]%lookup_app_Some; [by eapply Hx|].
      apply list_lookup_singleton_Some in Hi as [_ <-]. split; try done. simpl. by intros ->.
    + intros t. rewrite Ex, Eg, countb_app, Hg. simpl. lia.
Qed.

Lemma tasks_ok_init var mq mw threads : tasks_ok (init var mq mw threads).
Proof. split; [done|]. intros t. simpl. by rewrite decide_False by set_solver. Qed.

(** ** The process below

    The loads, preparations, builds and cache fills of the tasks are those of
    [Workers]. *)
Record below (var : string -> option string) (s : State) : Prop := mkBelow {
  be_reach : rtc (Workers.step b deployed) (proc_new var) (proc s);
  be_pending i x : execs s !! i = Some x -> (x_data x, x_limits x, x_prepared x) ∈ pending (proc s);
}.

Lemma below_exec var s s' i x x' :
  below var s -> execs s !! i = Some x -> execs s' = <[i := x']> (execs s) ->
  x_data x' = x_data x -> x_limits x' = x_limits x -> x_prepared x' = x_prepared x ->
  pending (proc s') = pending (proc s) -> rtc (Workers.step b deployed) (proc s) (proc s') -> below var s'.
Proof.
  intros [Hr Hp] Hi Ex Hd Hl Hpr Hpe Hst. split; [by etransitivity|].
  intros j y. rewrite Ex, Hpe. intros [(-> & <- & _)|[_ Hj]]%list_lookup_insert_Some; [|by eapply Hp].
  rewrite Hd, Hl, Hpr. by eapply Hp.
Qed.

Lemma start_below var s s' i : below var s -> start i s = Some s' -> below var s'.
Proof.
  intros Hb (x & Hx & E)%option_Some_bind. destruct (x_pooled x); try done. destruct (x_path x) as [[]|].
  1-2: injection E as <-; by eapply below_exec.
  destruct (create_cached_worker _ _ _ _ _ _ _) as [w c] eqn:Ec.
  assert (Hst : Workers.step b deployed (proc s) (add_built x c w (proc s)))
    by (eapply step_create; [by eapply be_pending|done]).
  destruct w as [w|e].
  - injection E as <-. eapply below_exec; [done|done|done|done..|]. by apply rtc_once.
  - apply finish_inv in E as (Ex & _ & _ & _ & Ep & _). eapply below_exec; [done|done|exact Ex|done..| |]; rewrite Ep; [done|].
    by apply rtc_once.
Qed.

(** A script of the isolate pool is not WebAssembly, so building it reads no
    component. *)
Lemma pooled_not_wasm var s i x m : below var s -> execs s !! i = Some x -> path_of (x_data x) = InPool m ->
  is_wasm (code (script (x_prepared x))) = false.
Proof.
  intros [Hr Hp] Hi [Hv Ht]%in_pool_v8. apply Hp in Hi. apply reachable_ok in Hr as (_ & _ & Hpend & _).
  destruct (Hpend _ _ _ Hi) as (_ & _ & [Hf _] & _).
  destruct (wb_code_type (x_data x)); try done; simpl in Hf; by destruct (code (script (x_prepared x))).
Qed.

Lemma guard_below var s s' i : tasks_ok s -> below var s -> acquire_guard i s = Some s' -> below var s'.
Proof.
  intros [Hok _] Hb (x & Hx & E)%option_Some_bind. destruct (x_pooled x) eqn:Eq; try done.
  destruct (decide _); [done|].
  assert (Hm : exists m, path_of (x_data x) = InPool m).
  { pose proof (eo_guarded _ (Hok _ _ Hx) Eq) as Ho. rewrite <- (eo_path _ (Hok _ _ Hx)).
    unfold is_oneshot in Ho. destruct (x_path x); [eauto|done]. }
  destruct Hm as [m Hm]. pose proof (pooled_not_wasm _ _ _ _ _ Hb Hx Hm) as Hw.
  destruct (create_worker _ _ _ _) as [w|e] eqn:Ec;
    (assert (Hst : Workers.step b deployed (proc s) (add_built x (caches (proc s)) (create_worker b (script (x_prepared x)) (x_limits x) (ops_of (x_data x))) (proc s)));
     [eapply step_create; [by eapply be_pending|]; unfold create_cached_worker; rewrite Hw, andb_false_r; reflexivity|]);
    rewrite Ec in Hst.
  - injection E as <-. eapply below_exec; [done|done|done|done..|]. by apply rtc_once.
  - apply finish_inv in E as (Ex & _ & _ & _ & Ep & _). eapply below_exec; [done|done|exact Ex|done..| |]; rewrite Ep; [done|].
    by apply rtc_once.
Qed.

Lemma end_below var s s' i r : below var s -> end_run i r s = Some s' -> below var s'.
Proof.
  intros Hb (x & Hx & E)%option_Some_bind. destruct (x_pooled x); try done.
  apply finish_inv in E as (Ex & _ & _ & _ & Ep & _). eapply below_exec; [done|done|exact Ex|done..| |]; by rewrite Ep.
Qed.

Lemma fill_below var s s' i : tasks_ok s -> below var s -> fill_cache i s = Some s' -> below var s'.
Proof.
  intros [Hok _] Hb (x & Hx & (js & Hjs & E)%option_Some_bind)%option_Some_bind.
  destruct (x_fill x) eqn:Ef; [|done]. destruct (cache_code _ _ _ _) as [r c] eqn:Ec. injection E as <-.
  eapply below_exec; [done|done|done|done..|]. apply rtc_once. simpl.
  eapply step_cache; [by destruct (eo_fill _ (Hok _ _ Hx) Ef)|by eapply be_pending|done|done].
Qed.

Lemma below_task_step var s s' : tasks_ok s -> below var s -> task_step s s' -> below var s'.
Proof.
  intros Hok Hb Hst. destruct Hst as [i s s' E|i s s' E|i r s s' E|i s s' E|i s s' E|i s s' E|i s s' E];
    eauto using start_below, guard_below, end_below, fill_below.
  - apply option_Some_bind in E as (x & _ & E). destruct (x_path x); [done|]. destruct (x_timeout x); [|done].
    by eapply end_below.
  - apply option_Some_bind in E as (x & Hx & E). destruct (x_sent x), (x_pooled x); try done. injection E as <-.
    by eapply below_exec.
  - apply option_Some_bind in E as (x & Hx & E). destruct (x_sent x), (x_path x), (x_timeout x); try done. injection E as <-.
    by eapply below_exec.
Qed.

Lemma below_step var s s' : tasks_ok s -> below var s -> step s s' -> below var s'.
Proof.
  intros Hok Hb Hstep. destruct Hstep as [s db ident r c Hdb E|s data upg wall s' Hin E|s sl E|s j sl E|s sl E|s s' E];
    [| |by destruct Hb..|by eapply below_task_step].
  - destruct Hb as [Hr Hp]. split; [|done]. eapply rtc_r; [done|]. by eapply step_load.
  - destruct Hb as [Hr Hp].
    apply fetch_inv in E as (_ & _ & _ & [(Ex & _ & err & c & Epr & Ep & _)|(pw & c & th & Epr & Ep & _ & _ & Ex)]).
    + split; rewrite ?Ex, Ep; [|done]. eapply rtc_r; [done|]. exact (step_prepare _ _ (proc s) data default_limits (Err err) c Hin Epr).
    + split; rewrite ?Ex, Ep.
      * eapply rtc_r; [done|]. exact (step_prepare _ _ (proc s) data default_limits (Ok pw) c Hin Epr).
      * intros i x [Hi|[_ Hi]]%lookup_app_Some; simpl; [right; by eapply Hp|].
        apply list_lookup_singleton_Some in Hi as [_ <-]. left.
Qed.

Lemma tasks_reachable var mq mw threads s : rtc step (init var mq mw threads) s ->
  slots_ok mq mw s /\ tasks_ok s /\ below var s.
Proof.
  apply (rtc_invariant step (fun s => slots_ok mq mw s /\ tasks_ok s /\ below var s));
    [|split_and!; [apply slots_ok_init|apply tasks_ok_init|by split]].
  intros s1 s2 (H1 & H2 & H3) Hst.
  split_and!; [by eapply slots_ok_step|by eapply tasks_ok_step|by eapply below_step].
Qed.

(** ** The tasks come to an end *)

(** What a task can still do. *)
Definition stage (p : pooled) : Z := match p with Queued => 3 | Guarded => 2 | Running => 1 | Ended _ => 0 end.
Definition to_do (x : Exec) : Z :=
  2 * stage (x_pooled x) + (if x_fill x then 1 else 0) + match x_sent x with Some _ => 0 | None => 1 end.

Lemma to_do_bounds x : 0 <= to_do x <= 8.
Proof. unfold to_do. destruct (x_pooled x), (x_fill x), (x_sent x); simpl; lia. Qed.

Lemma to_do_move x g x' g' e : exec_ok x -> move x g x' g' e -> to_do x' + 1 <= to_do x.
Proof.
  intros Hx Hm. unfold to_do.
  destruct Hm as [x g Hq Ho|x g Hq Ho|x g Hq Hn|x g e Hq|x g r Hq|x g Hf|x g r Hs Hq|x g m ms Hs Hp Ht]; simpl.
  - rewrite Hq. simpl. lia.
  - rewrite Hq. simpl. lia.
  - rewrite Hq. simpl. lia.
  - destruct Hq as [-> | ->]; simpl; destruct (leaves_code _ _), (x_fill x); lia.
  - rewrite Hq. simpl. destruct (leaves_code _ _), (x_fill x); lia.
  - rewrite Hf. lia.
  - rewrite Hs. lia.
  - rewrite Hs. lia.
Qed.

Lemma sumz_insert {A} (f : A -> Z) l i x y : l !! i = Some x -> sumz f (<[i := y]> l) = sumz f l - f x + f y.
Proof.
  revert i; induction l as [|z l IH]; intros [|i] Hi; simplify_eq/=; [lia|]. rewrite (IH _ Hi). lia.
Qed.

Lemma task_step_to_do s s' : tasks_ok s -> task_step s s' ->
  length (execs s') = length (execs s) /\ sumz to_do (execs s') + 1 <= sumz to_do (execs s).
Proof.
  intros [Hok _] (i & x & x' & e & Hi & Hm & -> & _)%task_step_moved.
  rewrite length_insert, (sumz_insert _ _ _ _ _ Hi).
  pose proof (to_do_move _ _ _ _ _ (Hok _ _ Hi) Hm). lia.
Qed.

Lemma to_do_total l : 0 <= sumz to_do l <= 8 * Z.of_nat (length l).
Proof. induction l as [|x l IH]; simpl; [lia|]. pose proof (to_do_bounds x). lia. Qed.

Lemma nsteps_to_do n s s' : tasks_ok s -> nsteps task_step n s s' -> Z.of_nat n + sumz to_do (execs s') <= sumz to_do (execs s).
Proof.
  intros Hok Hn. revert Hok. induction Hn as [s|n s1 s2 s3 Hst Hn IH]; intros Hok; [lia|].
  destruct (task_step_to_do _ _ Hok Hst) as [_ H1]. specialize (IH ltac:(eapply tasks_ok_moved; [done|by apply task_step_moved])). lia.
Qed.

(** While a task is not done, some task can move. *)
Lemma drop_task_total mq mw s i x : slots_ok mq mw s -> execs s !! i = Some x ->
  exists sl, Slots.drop_task (x_slot x) (slots s) = Some sl.
Proof. intros [_ _ Hh _] Hi. destruct (Hh _ _ Hi) as (o & Ho & _). unfold Slots.drop_task. rewrite Ho. simpl. eauto. Qed.

Lemma finish_total mq mw s s1 i x r g : slots_ok mq mw s -> execs s !! i = Some x -> slots s1 = slots s ->
  exists s', finish i x r g s1 = Some s'.
Proof.
  intros Hs Hi Hsl. unfold finish. rewrite Hsl. destruct (drop_task_total _ _ _ _ _ Hs Hi) as (sl & ->). simpl. eauto.
Qed.

Lemma running_steps mq mw s i x : slots_ok mq mw s -> execs s !! i = Some x -> x_pooled x = Running ->
  exists s', task_step s s'.
Proof.
  intros Hs Hi Hr.
  destruct (finish_total mq mw s s i x None (if is_oneshot x then guards s ∖ {[x_thread x]} else guards s) Hs Hi eq_refl)
    as [s' E].
  exists s'. apply (t_end i None). unfold end_run. rewrite Hi. simpl. by rewrite Hr.
Qed.

Lemma queued_steps mq mw s i x : slots_ok mq mw s -> execs s !! i = Some x -> x_pooled x = Queued ->
  exists s', task_step s s'.
Proof.
  intros Hs Hi Hq. destruct (start i s) as [s'|] eqn:E; [exists s'; by eapply t_start|]. exfalso.
  unfold start in E. rewrite Hi in E. simpl in E. rewrite Hq in E. destruct (x_path x) as [[]|]; [done..|].
  destruct (create_cached_worker _ _ _ _ _ _ _) as [[w|e] c]; [done|].
  destruct (finish_total mq mw s (set_proc (add_built x c (Err e) (proc s)) s) i x (Some (Err e)) (guards s) Hs Hi eq_refl) as [s' Hf].
  simpl in E. congruence.
Qed.

Lemma guarded_steps mq mw s i x : slots_ok mq mw s -> tasks_ok s -> execs s !! i = Some x -> x_pooled x = Guarded ->
  exists s', task_step s s'.
Proof.
  intros Hs Hok Hi Hq. destruct (decide (x_thread x ∈ guards s)) as [Hin|Hout].
  - pose proof (to_guards _ Hok (x_thread x)) as Hc. rewrite decide_True in Hc by done.
    assert (He : exists y, y ∈ execs s /\ isolate_on (x_thread x) y = true).
    { clear -Hc. induction (execs s) as [|y l IH]; simpl in Hc; [lia|].
      destruct (isolate_on (x_thread x) y) eqn:E; [exists y; split; [left|done]|].
      destruct IH as (z & ? & ?); [lia|]. exists z. split; [by right|done]. }
    destruct He as (y & (j & Hj)%list_elem_of_lookup & Hy). eapply running_steps; [done|exact Hj|].
    unfold isolate_on in Hy. by destruct (x_pooled y).
  - destruct (acquire_guard i s) as [s'|] eqn:E; [exists s'; by eapply t_guard|]. exfalso.
    unfold acquire_guard in E. rewrite Hi in E. simpl in E. rewrite Hq in E. rewrite decide_False in E by done.
    destruct (create_worker _ _ _ _) as [w|e]; [done|].
    destruct (finish_total mq mw s (set_proc (add_built x (caches (proc s)) (Err e) (proc s)) s) i x (Some (Err e)) (guards s) Hs Hi eq_refl) as [s' Hf].
    simpl in E. congruence.
Qed.

Definition settled (x : Exec) : Prop := ended x = true /\ x_fill x = false /\ x_sent x <> None.

Lemma unsettled_steps mq mw s i x : slots_ok mq mw s -> tasks_ok s -> execs s !! i = Some x ->
  (forall s', ~ task_step s s') -> settled x.
Proof.
  intros Hs Hok Hi Hno. destruct (x_pooled x) eqn:Eq.
  - by destruct (queued_steps _ _ _ _ _ Hs Hi Eq) as [s' ?%Hno].
  - by destruct (guarded_steps _ _ _ _ _ Hs Hok Hi Eq) as [s' ?%Hno].
  - by destruct (running_steps _ _ _ _ _ Hs Hi Eq) as [s' ?%Hno].
  - split_and!; [unfold ended; by rewrite Eq| |].
    + destruct (x_fill x) eqn:Ef; [|done]. exfalso.
      destruct (eo_fill _ (to_execs _ Hok _ _ Hi) Ef) as (_ & _ & js & Hjs).
      destruct (fill_cache i s) as [s'|] eqn:E; [by apply (Hno s'), (t_fill i)|].
      unfold fill_cache in E. rewrite Hi in E. simpl in E. rewrite Hjs in E. simpl in E. rewrite Ef in E.
      by destruct (cache_code _ _ _ _).
    + intros Hn. destruct (join i s) as [s'|] eqn:E; [by apply (Hno s'), (t_join i)|].
      unfold join in E. rewrite Hi in E. simpl in E. by rewrite Hn, Eq in E.
Qed.
(** What the drain monitor counts. *)
Lemma active_tasks_live mq mw s : 0 <= mq -> 0 <= mw -> slots_ok mq mw s ->
  Slots.get_active_tasks mq mw (slots s) = Some (countb live (execs s) + Z.of_nat (Slots.hand (slots s))) /\
  countb live (execs s) + Z.of_nat (Slots.hand (slots s)) <= mq + mw.
Proof.
  intros Hq Hw [Hreach Hc _ _]. destruct (Slots.slots_inv_reachable mq mw _ Hq Hw Hreach) as [Hav Hav'].
  pose proof (available_nonneg (Slots.worker_sem (slots s))). pose proof (available_nonneg (Slots.ws_sem (slots s))).
  pose proof (countb_nonneg Slots.is_worker (Slots.slots (slots s))).
  pose proof (countb_nonneg Slots.is_socket (Slots.slots (slots s))).
  rewrite Slots.taken_split in Hc. split; [|lia]. unfold Slots.get_active_tasks.
  destruct (Z.ltb_spec (mq - available_permits (Slots.worker_sem (slots s))) 0); [lia|].
  destruct (Z.ltb_spec (mw - available_permits (Slots.ws_sem (slots s))) 0); [lia|]. simpl. f_equal. lia.
Qed.
End tasks.

(** ** Properties *)

Section properties.
Context {L O : Type} `{!Engines L O} `{!EngineLaws L O}.
Context {C P Sem : Type} `{!Lru (string * Z) string C} `{!Lru (string * Z * string) Component P} `{!Semaphore Sem}.
Context (b : Build) (deployed : string -> Z -> CodeType * string) (mode : V8ExecuteMode).
Context (limits_of : Z -> Z -> L) (ops_of : WorkerWithBindings -> O) (debug : TerminationReason -> string).
#[local] Abbreviation St := (State (O := O) (C := C) (P := P) (Sem := Sem)).
#[local] Abbreviation stp := (step (C := C) (P := P) (Sem := Sem) b deployed mode limits_of ops_of debug).
#[local] Abbreviation tstp := (task_step (C := C) (P := P) (Sem := Sem) b ops_of).

(** C9. A slot is taken exactly until the guest's code ends: after any
    interleaving of fetches, timeouts, runs, panics and trades of slots for
    sockets, the active tasks the drain monitor counts are the tasks whose
    code did not end, those included whose client already got a timeout, and
    the socket permits out of a slot; never more than the two limits
    together. A task that was not sent to the pool holds nothing. *)
Theorem slot_until_guest_ends (var : string -> option string) (mq mw : Z) (threads : nat) (s : St) :
  0 <= mq -> 0 <= mw -> rtc stp (init var mq mw threads) s ->
  Slots.get_active_tasks mq mw (slots s) = Some (countb live (execs s) + Z.of_nat (Slots.hand (slots s))) /\
  countb live (execs s) + Z.of_nat (Slots.hand (slots s)) <= mq + mw /\
  forall x, x ∈ execs s -> x_sent x = Some (Err WallClockTimeout) -> ended x = false ->
    x_cancelled x = true /\ exists p, Slots.slots (slots s) !! x_slot x = Some (Some p).
Proof.
  intros Hq Hw Hr. apply tasks_reachable in Hr as (Hs & Hok & _).
  destruct (active_tasks_live _ _ _ Hq Hw Hs) as [Ha Hle]. split_and!; [done|done|].
  intros x (i & Hi)%list_elem_of_lookup Hsent He. split.
  - pose proof (eo_answer _ _ _ (to_execs _ _ _ Hok _ _ Hi)) as Hans. unfold answer_ok in Hans. rewrite Hsent in Hans.
    destruct Hans as [(p & Hp & _)|(_ & ? & _)]; [|done]. unfold ended in He. by rewrite Hp in He.
  - destruct (so_held _ _ _ Hs _ _ Hi) as (o & Ho & Ht). unfold live in Ht. rewrite He in Ht. destruct o as [p|]; [eauto|done].
Qed.

(** C12. The tasks come to an end and each is answered: from any reachable
    state, the steps of the tasks are at most eight for each task, and when
    no task can take a step, every task ended, the result it was answered
    with is that of its run or a timeout that cancelled the request of a
    fetch in the isolate pool that is no upgrade, the code caches are
    filled, every guard is free and only the sockets count as active. *)
Theorem tasks_settle (var : string -> option string) (mq mw : Z) (threads : nat) (s : St) :
  0 <= mq -> 0 <= mw -> rtc stp (init var mq mw threads) s ->
  (forall n s', nsteps tstp n s s' -> Z.of_nat n <= 8 * Z.of_nat (length (execs s))) /\
  ((forall s', ~ tstp s s') ->
   (forall x, x ∈ execs s -> exists p r, x_pooled x = Ended p /\ x_fill x = false /\ x_sent x = Some r /\
      (r = joined p \/
       r = Err WallClockTimeout /\ x_cancelled x = true /\ x_upgrade x = false /\ exists m, x_path x = InPool m)) /\
   guards s = ∅ /\ Slots.get_active_tasks mq mw (slots s) = Some (Z.of_nat (Slots.hand (slots s)))).
Proof.
  intros Hq Hw Hr. pose proof Hr as Hr'. apply tasks_reachable in Hr as (Hs & Hok & _). split.
  - intros n s' Hn. eapply nsteps_to_do in Hn; [|exact Hok]. pose proof (to_do_total (execs s)).
    pose proof (to_do_total (execs s')). lia.
  - intros Hno.
    assert (Hset : forall i x, execs s !! i = Some x -> settled x)
      by (intros i x Hi; by eapply (unsettled_steps b mode ops_of mq mw s i x)).
    split_and!.
    + intros x (i & Hi)%list_elem_of_lookup. destruct (Hset _ _ Hi) as (He & Hf & Hn).
      pose proof (eo_answer _ _ _ (to_execs _ _ _ Hok _ _ Hi)) as Ha. unfold answer_ok in Ha.
      unfold ended in He. destruct (x_pooled x) as [| | |p] eqn:Ep; try done.
      destruct (x_sent x) as [r|]; [|done]. exists p, r. split_and!; [done..|].
      destruct Ha as [(p' & [= <-] & -> & _)|?]; [by left|by right].
    + apply set_eq. intros t. split; [|set_solver]. intros Ht. exfalso.
      pose proof (to_guards _ _ _ Hok t) as Hg. rewrite decide_True in Hg by done.
      rewrite (countb_ext _ (fun _ => false)) in Hg.
      * clear -Hg. induction (execs s); simpl in Hg; [lia|auto].
      * intros x (i & Hi)%list_elem_of_lookup. destruct (Hset _ _ Hi) as (He & _ & _).
        unfold ended in He. unfold isolate_on. by destruct (x_pooled x).
    + assert (Hz : countb live (execs s) = 0).
      { rewrite (countb_ext _ (fun _ => false)); [clear; induction (execs s); simpl; [done|lia]|].
        intros x (i & Hi)%list_elem_of_lookup. destruct (Hset _ _ Hi) as (He & _). unfold live. by rewrite He. }
      rewrite (proj1 (active_tasks_live _ _ _ Hq Hw Hs)), Hz. done.
Qed.

(** At most one fresh isolate is alive on a thread, so the isolates of a
    thread are dropped in the reverse order of their creation. *)
Theorem one_isolate_per_thread (var : string -> option string) (mq mw : Z) (threads : nat) (s : St) (t : Z) :
  rtc stp (init var mq mw threads) s -> countb (isolate_on t) (execs s) <= 1.
Proof.
  intros Hr. apply tasks_reachable in Hr as (_ & Hok & _). rewrite (to_guards _ _ _ Hok t). by destruct (decide _).
Qed.

(** What the tasks run is what was deployed: the source handed to the
    isolate pool, and the program of every worker built. *)
Theorem tasks_run_deployment (var : string -> option string) (mq mw : Z) (threads : nat) (s : St) :
  rtc stp (init var mq mw threads) s ->
  (forall data w, (data, w) ∈ built (proc s) -> is_program deployed (wb_id data) (wb_version data) (runs w)) /\
  (forall i x m, execs s !! i = Some x -> x_path x = InPool m ->
     is_program deployed (wb_id (x_data x)) (wb_version (x_data x)) (code_source (code (script (x_prepared x))))).
Proof.
  intros Hr. apply tasks_reachable in Hr as (_ & Hok & Hb). pose proof Hb as [Hreach Hpend].
  apply reachable_ok in Hreach as (_ & _ & Hp & Hbuilt). split; [exact Hbuilt|].
  intros i x m Hi Hm. rewrite (eo_path _ _ _ (to_execs _ _ _ Hok _ _ Hi)) in Hm.
  pose proof (pooled_not_wasm _ _ _ _ _ _ _ _ Hb Hi Hm) as Hw.
  destruct (Hp _ _ _ (Hpend _ _ Hi)) as (_ & _ & _ & Hpr). unfold prepared_ok in Hpr.
  destruct (prepared (x_prepared x)); [destruct Hpr; congruence|by destruct Hpr].
Qed.
End properties.

Lemma report_counts events s w settled :
  default 0 (late_counts (report_all events s).2 !! (w, settled)) = default 0 (late_counts s !! (w, settled)) +
    countb (fun e => String.eqb e.1 w && Bool.eqb (after_settle e.2) settled)%bool events.
Proof.
  revert s. induction events as [|[v m] events IH]; intros s; simpl; [lia|].
  pose proof (IH (report_late_respond_with v m s).2) as H. simpl in H.
  destruct (report_all events _) as [l s'] eqn:E. simpl in *. rewrite H.
  destruct (String.eqb_spec v w) as [->|Hv]; simpl; [|rewrite lookup_insert_ne by congruence; lia].
  destruct (Bool.eqb (after_settle m) settled) eqn:Em.
  - apply eqb_prop in Em as ->. rewrite lookup_insert_eq. simpl. lia.
  - rewrite lookup_insert_ne; [lia|]. intros [= H']. by rewrite H', eqb_reflx in Em.
Qed.

Lemma report_logged events s w :
  countb (fun lw => lw.1 && String.eqb lw.2.1 w)%bool (zip (report_all events s).1 events) =
  if decide (w ∈ LATE_RESPOND_WITH_WARNED s) then 0 else if decide (w ∈ events.*1) then 1 else 0.
Proof.
  revert s. induction events as [|[v m] events IH]; intros s; simpl.
  { by destruct (decide (w ∈ LATE_RESPOND_WITH_WARNED s)). }
  pose proof (IH (report_late_respond_with v m s).2) as H. simpl in H.
  destruct (report_all events _) as [l s'] eqn:E. simpl in *. rewrite H.
  destruct (String.eqb_spec v w) as [->|Hv].
  - rewrite (decide_True (P := w ∈ {[w]} ∪ _)) by set_solver. rewrite (decide_True (P := w ∈ w :: _)) by left.
    destruct (decide (w ∈ LATE_RESPOND_WITH_WARNED s)) as [Hin|Hin];
      [rewrite bool_decide_eq_false_2 by set_solver|rewrite bool_decide_eq_true_2 by done]; done.
  - rewrite andb_false_r. simpl.
    destruct (decide (w ∈ LATE_RESPOND_WITH_WARNED s)); [by rewrite decide_True by set_solver|].
    rewrite (decide_False (P := w ∈ {[v]} ∪ _)) by set_solver.
    destruct (decide (w ∈ events.*1)); [by rewrite decide_True by (by right)|].
    by rewrite decide_False by (by intros [?|?]%elem_of_cons).
Qed.

(** A worker that was not warned about is logged on its first late event
    only, and every one of its events is counted under its state. *)
Theorem late_logged_once (events : list (string * ListenerMarks)) (s : LateState) (w : string) (settled : bool) :
  w ∉ LATE_RESPOND_WITH_WARNED s ->
  countb (fun lw => lw.1 && String.eqb lw.2.1 w)%bool (zip (report_all events s).1 events)
    = (if decide (w ∈ events.*1) then 1 else 0) /\
  default 0 (late_counts (report_all events s).2 !! (w, settled)) = default 0 (late_counts s !! (w, settled)) +
    countb (fun e => String.eqb e.1 w && Bool.eqb (after_settle e.2) settled)%bool events.
Proof. intros Hs. split; [|apply report_counts]. rewrite report_logged. by rewrite decide_False. Qed.

(** ** Witnesses *)

#[local] Existing Instance test_engines.
#[local] Existing Instance test_laws.
#[local] Abbreviation TC := (list_lru (string * Z) string).
#[local] Abbreviation TP := (list_lru (string * Z * string) (string * string)).

Definition test_state : Type := State (O := unit) (C := TC) (P := TP) (Sem := N).

Definition test_limits (cpu wall : Z) : string := "engine".
Definition test_ops (data : WorkerWithBindings) : unit := tt.
Definition test_debug (r : TerminationReason) : string := "reason".

#[local] Abbreviation test_stp := (step (C := TC) (P := TP) (Sem := N) test_build test_deployed Oneshot test_limits test_ops test_debug).
#[local] Abbreviation test_tstp := (task_step (C := TC) (P := TP) (Sem := N) test_build test_ops).

Definition test_init : test_state := init test_env 2 1 2.

Definition load_js (s : test_state) : test_state := set_proc (test_load "js" (proc s)) s.

Definition first_data (s : test_state) : WorkerWithBindings :=
  match loaded (proc s) with data :: _ => data | [] => test_data test_new "js" end.

Definition go (f : test_state -> option test_state) (s : test_state) : test_state :=
  match f s with Some s' => s' | None => s end.

Definition test_fetch (s : test_state) : test_state :=
  go (fetch (C := TC) (P := TP) (Sem := N) test_build Oneshot test_limits test_debug (first_data s) false 1000) s.

(** A fetch runs in a fresh isolate and its client times out. *)
Definition timed_out : test_state :=
  go (timeout 0) (go (acquire_guard test_build test_ops 0) (go (start test_build test_ops 0) (test_fetch (load_js test_init)))).

(** Then its script ends well. *)
Definition at_rest : test_state := go (fill_cache 0) (go (end_run 0 (Some (Ok tt))) timed_out).

Lemma load_js_step s : test_stp s (load_js s).
Proof.
  unfold load_js, test_load. destruct (get_worker_with_bindings _ _ _) as [r c] eqn:E.
  eapply (s_load test_build test_deployed Oneshot test_limits test_ops test_debug s test_db); [apply test_db_holds|exact E].
Qed.

Lemma timed_out_reachable : rtc test_stp test_init timed_out.
Proof.
  eapply rtc_l; [apply load_js_step|].
  eapply rtc_l. { eapply (s_fetch test_build test_deployed Oneshot test_limits test_ops test_debug _
      (first_data (load_js test_init)) false 1000 (test_fetch (load_js test_init)));
    [vm_compute; left|vm_compute; reflexivity]. }
  eapply rtc_l; [apply s_task, (t_start _ _ 0 _ (go (start test_build test_ops 0) (test_fetch (load_js test_init)))); vm_compute; reflexivity|].
  eapply rtc_l; [apply s_task, (t_guard _ _ 0 _ (go (acquire_guard test_build test_ops 0) (go (start test_build test_ops 0) (test_fetch (load_js test_init))))); vm_compute; reflexivity|].
  eapply rtc_l; [apply s_task, (t_timeout _ _ 0 _ timed_out); vm_compute; reflexivity|]. apply rtc_refl.
Qed.

Lemma at_rest_reachable : rtc test_stp test_init at_rest.
Proof.
  eapply rtc_r; [eapply rtc_r; [apply timed_out_reachable|]|].
  - apply s_task, (t_end _ _ 0 (Some (Ok tt)) _ (go (end_run 0 (Some (Ok tt))) timed_out)). vm_compute. reflexivity.
  - apply s_task, (t_fill _ _ 0 _ at_rest). vm_compute. reflexivity.
Qed.

Lemma slot_until_guest_ends_witness :
  Slots.get_active_tasks 2 1 (slots timed_out) = Some 1 /\
  exists x, x ∈ execs timed_out /\ x_cancelled x = true /\ exists p, Slots.slots (slots timed_out) !! x_slot x = Some (Some p).
Proof.
  destruct (slot_until_guest_ends test_build test_deployed Oneshot test_limits test_ops test_debug test_env 2 1 2 timed_out
    ltac:(lia) ltac:(lia) timed_out_reachable) as (Ha & _ & Hx).
  split; [rewrite Ha; vm_compute; reflexivity|].
  destruct (execs timed_out) as [|x l] eqn:E; [vm_compute in E; discriminate|]. exists x. split; [left|].
  apply Hx; [left|..]; (apply (f_equal head) in E; vm_compute in E; injection E as <-; reflexivity).
Defined.

Lemma tasks_settle_witness :
  Slots.get_active_tasks 2 1 (slots at_rest) = Some 0 /\ guards at_rest = ∅ /\
  (exists x, x ∈ execs at_rest /\ x_sent x = Some (Err WallClockTimeout)) /\
  (code_cache (caches (proc at_rest))).(cc_bytes) = 14.
Proof.
  destruct (tasks_settle test_build test_deployed Oneshot test_limits test_ops test_debug test_env 2 1 2 at_rest
    ltac:(lia) ltac:(lia) at_rest_reachable) as (_ & Hs).
  destruct Hs as (_ & Hg & Ha).
  - intros s' Hst. pose proof (tasks_reachable _ _ _ _ _ _ _ _ _ _ _ at_rest_reachable) as (_ & Hok & _).
    destruct (task_step_to_do _ _ _ _ _ Hok Hst) as [_ Hle]. pose proof (to_do_total (execs s')) as Ht.
    assert (Hz : sumz to_do (execs at_rest) = 0) by (vm_compute; reflexivity). lia.
  - split_and!; [rewrite Ha; vm_compute; reflexivity|done| |vm_compute; reflexivity].
    destruct (execs at_rest) as [|x l] eqn:E; [vm_compute in E; discriminate|]. exists x. split; [left|].
    apply (f_equal head) in E. vm_compute in E. injection E as <-. reflexivity.
Defined.

Example mode_ex : mode_get (fun _ => Some "oneShot") = Oneshot /\ mode_get (fun _ => Some "other") = Pinned.
Proof. split; reflexivity. Qed.
