(* ===== verification/Singleton.v ===== *)
(** * One runner per database (src/src/singleton.rs)

    A runner holds an advisory lock of the platform database on a connection
    of its own and checks every second that the session of the lock is alive.
    The database gives the lock to one session at a time and frees it when
    the session ends, which it can do at any moment without the runner's
    knowledge. The model has a clock in milliseconds: a timer fires when it
    is due, so the clock does not pass a due timer. *)

From S2P Require Import Prelude RustStr.

(** "open" in ASCII, and the runner. *)
Definition LOCK_KEYS : Z * Z := (1869636974, 1).

Definition CHECK_INTERVAL : Z := 1000.
Definition CHECK_TIMEOUT : Z := 3000.

(** Where the loop of [hold] is: asleep, or in a check, which the database
    has executed ([answered]) or not. *)
Inductive phase : Type := Sleeping (since : Z) | Checking (since : Z) (answered : bool).

(** A process: before [acquire]; refused the lock; with the lock, before the
    answer of [acquire]; in [hold], since the moment [began]; stopped by [hold]
    or for a reason of its own. [lost]: the moment its session was lost, if it
    was. *)
Inductive runner : Type :=
| Starting | Refused | Granted (lost : option Z) | Holds (p : phase) (lost : option Z) (began : Z) | Stopped.

Record state := mkState { now : Z; lock : option nat; runners : list runner }.

Definition set_runner (i : nat) (r : runner) (s : state) : state := mkState (now s) (lock s) (<[i := r]> (runners s)).

(** [acquire]: the database executes [pg_try_advisory_lock] on a new
    session. *)
Definition acquire (i : nat) (s : state) : option state :=
  r ← runners s !! i;
  match r with
  | Starting =>
    match lock s with
    | None => Some (mkState (now s) (Some i) (<[i := Granted None]> (runners s)))
    | Some _ => Some (set_runner i Refused s)
    end
  | _ => None
  end.

(** Its answer arrives, after any time: [acquire] has no timeout. *)
Definition acquired (i : nat) (s : state) : option state :=
  r ← runners s !! i;
  match r with
  | Granted lost => Some (set_runner i (Holds (Sleeping (now s)) lost (now s)) s)
  | _ => None
  end.

(** The database ends the session that holds the lock. *)
Definition lose (i : nat) (s : state) : option state :=
  r ← runners s !! i;
  if decide (lock s = Some i) then
    Some (mkState (now s) None
      (match r with
       | Granted None => <[i := Granted (Some (now s))]> (runners s)
       | Holds p None began => <[i := Holds p (Some (now s)) began]> (runners s)
       | _ => runners s
       end))
  else None.

(** The sleep ends and a check is sent. *)
Definition wake (i : nat) (s : state) : option state :=
  r ← runners s !! i;
  match r with
  | Holds (Sleeping since) lost began =>
    if since + CHECK_INTERVAL <=? now s then Some (set_runner i (Holds (Checking (now s) false) lost began) s) else None
  | _ => None
  end.

(** The database executes the check, on a live session only. *)
Definition execute (i : nat) (s : state) : option state :=
  r ← runners s !! i;
  match r with
  | Holds (Checking since false) None began => Some (set_runner i (Holds (Checking since true) None began) s)
  | _ => None
  end.

(** Its answer arrives. *)
Definition pass (i : nat) (s : state) : option state :=
  r ← runners s !! i;
  match r with
  | Holds (Checking _ true) lost began => Some (set_runner i (Holds (Sleeping (now s)) lost began) s)
  | _ => None
  end.

(** The check fails, and the process exits. *)
Definition fail (i : nat) (s : state) : option state :=
  r ← runners s !! i;
  match r with
  | Holds (Checking _ _) _ _ => Some (set_runner i Stopped s)
  | _ => None
  end.

(** The check takes too long, and the process exits. *)
Definition expire (i : nat) (s : state) : option state :=
  r ← runners s !! i;
  match r with
  | Holds (Checking since _) _ _ => if since + CHECK_TIMEOUT <=? now s then Some (set_runner i Stopped s) else None
  | _ => None
  end.

(** The runner stops for a reason of its own, an error of [acquire] too. *)
Definition quit (i : nat) (s : state) : option state :=
  r ← runners s !! i;
  match r with Granted _ | Holds _ _ _ => Some (set_runner i Stopped s) | _ => None end.

(** No timer is due. *)
Definition in_time (t : Z) (r : runner) : bool :=
  match r with
  | Holds (Sleeping since) _ _ => t <? since + CHECK_INTERVAL
  | Holds (Checking since _) _ _ => t <? since + CHECK_TIMEOUT
  | _ => true
  end.

Definition tick (s : state) : option state :=
  if forallb (in_time (now s)) (runners s) then Some (mkState (now s + 1) (lock s) (runners s)) else None.

Inductive event : Type :=
| EAcquire (i : nat) | EAcquired (i : nat) | ELose (i : nat) | EWake (i : nat) | EExecute (i : nat) | EPass (i : nat)
| EFail (i : nat) | EExpire (i : nat) | EQuit (i : nat) | ETick.

Definition run_event (e : event) : state -> option state :=
  match e with
  | EAcquire i => acquire i | EAcquired i => acquired i | ELose i => lose i | EWake i => wake i | EExecute i => execute i | EPass i => pass i
  | EFail i => fail i | EExpire i => expire i | EQuit i => quit i | ETick => tick
  end.

Definition step (s s' : state) : Prop := exists e, run_event e s = Some s'.

Definition init (n : nat) : state := mkState 0 None (replicate n Starting).

(** ** Invariant *)

(** With a session that holds the lock. *)
Definition alive (r : runner) : bool :=
  match r with Granted None | Holds _ None _ => true | _ => false end.

Definition runner_ok (t : Z) (r : runner) : Prop :=
  match r with
  | Granted lost => forall t0, lost = Some t0 -> t0 <= t
  | Holds (Sleeping since) lost began =>
    began <= since <= t /\ t <= since + CHECK_INTERVAL /\
    (forall t0, lost = Some t0 -> t0 <= t /\ since <= Z.max t0 began + CHECK_TIMEOUT)
  | Holds (Checking since answered) lost began =>
    began <= since <= t /\ t <= since + CHECK_TIMEOUT /\
    (forall t0, lost = Some t0 -> t0 <= t /\
       since <= Z.max t0 began + (if answered then 0 else CHECK_TIMEOUT + CHECK_INTERVAL))
  | _ => True
  end.

Record inv (s : state) : Prop := mkInv {
  i_time i r : runners s !! i = Some r -> runner_ok (now s) r;
  i_lock i r : runners s !! i = Some r -> alive r = true -> lock s = Some i;
}.

Lemma runner_inv_set i r s : inv s -> runner_ok (now s) r ->
  (alive r = true -> lock s = Some i) -> inv (set_runner i r s).
Proof.
  intros [Ht Hl] Hr Hp. split; simpl.
  - intros j r' [(-> & <- & _)|[_ Hj]]%list_lookup_insert_Some; [done|by eapply Ht].
  - intros j r' [(-> & <- & _)|[_ Hj]]%list_lookup_insert_Some; [done|by eapply Hl].
Qed.

Lemma runner_inv_acquire i s : inv s -> lock s = None -> inv (mkState (now s) (Some i) (<[i := Granted None]> (runners s))).
Proof.
  intros [Ht Hl] Ek. split; simpl.
  - intros j r [(-> & <- & _)|[_ Hj]]%list_lookup_insert_Some; [done|by eapply Ht].
  - intros j r [(-> & _ & _)|[_ Hj]]%list_lookup_insert_Some; [done|]. intros Ha. pose proof (Hl _ _ Hj Ha). congruence.
Qed.

(** The session of [i] ends; its runner, if it was alive, knows it lost it. *)
Lemma runner_inv_lose i r r' s : inv s -> runners s !! i = Some r -> lock s = Some i -> runner_ok (now s) r' ->
  alive r' = false -> inv (mkState (now s) None (<[i := r']> (runners s))).
Proof.
  intros [Ht Hl] Hi Ek Hr Ha. split; simpl.
  - intros j x [(-> & <- & _)|[_ Hj]]%list_lookup_insert_Some; [done|by eapply Ht].
  - intros j x [(-> & <- & _)|[Hne Hj]]%list_lookup_insert_Some; [by rewrite Ha|].
    intros Hx. pose proof (Hl _ _ Hj Hx). congruence.
Qed.

Ltac timed :=
  unfold CHECK_TIMEOUT, CHECK_INTERVAL in *; split_and!; try lia; intros ? Et0;
  first [match goal with H : forall t0, ?l = Some t0 -> _ |- _ => specialize (H _ Et0) end | injection Et0 as <-]; lia.

Lemma runner_inv_step s s' : inv s -> step s s' -> inv s'.
Proof.
  intros Hinv [e He]. pose proof Hinv as [Ht Hl].
  destruct e as [i|i|i|i|i|i|i|i|i|];
    [apply option_Some_bind in He as (r & Hi & He); pose proof (Ht _ _ Hi) as Hr; pose proof (Hl _ _ Hi) as Hlk..|].
  - destruct r; try done. destruct (lock s) as [j|] eqn:Ek; injection He as <-; [by apply runner_inv_set|by apply runner_inv_acquire].
  - destruct r as [| |lost| |]; try done. injection He as <-. apply runner_inv_set; [done| |by destruct lost].
    simpl in *. unfold CHECK_TIMEOUT, CHECK_INTERVAL. split_and!; try lia. intros t0 ->. specialize (Hr _ eq_refl). lia.
  - destruct (decide (lock s = Some i)) as [Ek|]; [|done]. injection He as <-.
    assert (Hsame : alive r = false -> inv (mkState (now s) None (runners s))).
    { intros Ha. rewrite <- (list_insert_id (runners s) i r Hi). by eapply runner_inv_lose. }
    destruct r as [| |[t0|]|p [t0|] began|]; try (by apply Hsame).
    + eapply runner_inv_lose; [done..| |done]. simpl. intros t0 [= <-]. lia.
    + eapply runner_inv_lose; [done..| |done]. destruct p as [since|since []]; simpl in *; destruct Hr as (? & ? & _); timed.
  - destruct r as [| | |[since|] lost began|]; try done. destruct (_ <=? _) eqn:Ec; [|done]. injection He as <-.
    reflect_bools. apply runner_inv_set; [done| |by destruct lost]. simpl in *. destruct Hr as (? & ? & Hlost). timed.
  - destruct r as [| | |[|since []] [|] began|]; try done. injection He as <-.
    apply runner_inv_set; [done| |done]. simpl in *. destruct Hr as (? & ? & _). split_and!; try done; lia.
  - destruct r as [| | |[|since []] lost began|]; try done. injection He as <-.
    apply runner_inv_set; [done| |by destruct lost]. simpl in *. destruct Hr as (? & ? & Hlost). timed.
  - destruct r as [| | |[|since a] lost began|]; try done. injection He as <-. by apply runner_inv_set.
  - destruct r as [| | |[|since a] lost began|]; try done. destruct (_ <=? _); [|done]. injection He as <-. by apply runner_inv_set.
  - destruct r; try done; injection He as <-; by apply runner_inv_set.
  - simpl in He. unfold tick in He. destruct (forallb _ _) eqn:Ef; [|done]. injection He as <-. split; simpl; [|done].
    intros i r Hi. pose proof (Ht _ _ Hi) as Hr. rewrite forallb_forall in Ef.
    specialize (Ef r (proj1 (list_elem_of_In _ _) (list_elem_of_lookup_2 _ _ _ Hi))).
    destruct r as [| |lost|[since|since a] lost began|]; simpl in *; try done;
      [intros t0 H0; specialize (Hr t0 H0); lia|..]; apply Z.ltb_lt in Ef; destruct Hr as (? & ? & Hlost); timed.
Qed.

Lemma runner_inv_reachable n s : rtc step (init n) s -> inv s.
Proof.
  apply rtc_invariant; [apply runner_inv_step|]. split; simpl.
  - intros i r [-> _]%lookup_replicate. done.
  - intros i r [-> _]%lookup_replicate. done.
Qed.

(** ** Time passes

    A due timer can fire, so the clock is never stuck. *)
Lemma due_fires s i r : runners s !! i = Some r -> in_time (now s) r = false ->
  exists s' r', step s s' /\ now s' = now s /\ runners s' = <[i := r']> (runners s) /\ in_time (now s) r' = true.
Proof.
  intros Hi Hd. destruct r as [| | |[since|since a] lost began|]; simpl in Hd; try done; apply Z.ltb_ge, Z.leb_le in Hd.
  - exists (set_runner i (Holds (Checking (now s) false) lost began) s), (Holds (Checking (now s) false) lost began).
    split_and!; [|done..|]; [exists (EWake i); simpl; unfold wake; rewrite Hi; simpl; by rewrite Hd|].
    simpl. unfold CHECK_TIMEOUT. apply Z.ltb_lt. lia.
  - exists (set_runner i Stopped s), Stopped. split_and!; [|done..].
    exists (EExpire i). simpl. unfold expire. rewrite Hi. simpl. by rewrite Hd.
Qed.

Lemma time_passes s : exists s', rtc step s s' /\ now s' = now s + 1.
Proof.
  remember (countb (fun r => negb (in_time (now s) r)) (runners s)) as n eqn:Hn.
  assert (Hpos : 0 <= n) by (subst; apply countb_nonneg).
  revert s Hn. pattern n. apply Z_lt_induction; [|done]. clear n Hpos. intros n IH s Hn.
  destruct (forallb (in_time (now s)) (runners s)) eqn:Ef.
  - exists (mkState (now s + 1) (lock s) (runners s)). split; [|done]. apply rtc_once. exists ETick. simpl.
    unfold tick. by rewrite Ef.
  - assert (Hex : exists i r, runners s !! i = Some r /\ in_time (now s) r = false).
    { clear -Ef. induction (runners s) as [|r l IHl]; [done|]. simpl in Ef. destruct (in_time (now s) r) eqn:E.
      - destruct (IHl Ef) as (i & r' & ? & ?). by exists (S i), r'.
      - by exists 0%nat, r. }
    destruct Hex as (i & r & Hi & Hd). destruct (due_fires _ _ _ Hi Hd) as (s1 & r' & Hst & Hnow & Hrs & Hok).
    pose proof (countb_insert (fun r => negb (in_time (now s) r)) (runners s) i r r' Hi) as Hc.
    simpl in Hc. rewrite Hd, Hok in Hc. simpl in Hc.
    pose proof (countb_nonneg (fun r => negb (in_time (now s) r)) (<[i := r']> (runners s))).
    destruct (IH (n - 1) ltac:(lia) s1) as (s' & Hr & Hn'); [rewrite Hnow, Hrs; lia|].
    exists s'. split; [by eapply rtc_l|congruence].
Qed.

(** ** Properties *)

(** The longest a runner can go on after its session was lost: a check that
    was executed before, whose answer comes at the end of its timeout, a
    sleep and a check that times out. *)
Definition OVERLAP : Z := CHECK_TIMEOUT + CHECK_INTERVAL + CHECK_TIMEOUT.

(** C19. Two runners overlap for seven seconds at most: of any two runners of
    a database that run at the same moment, one has lost the session of its
    lock, and each runner that lost it did so at most seven seconds ago,
    whenever sessions end and however long the checks take; one that lost it
    before it began to run, while the answer of the database was on its way,
    began at most seven seconds ago. At most one runner has a live session, and
    the clock always goes on. *)
Theorem overlap_bounded (n : nat) (s : state) : rtc step (init n) s ->
  (forall i p t0 began, runners s !! i = Some (Holds p (Some t0) began) ->
     t0 <= now s /\ began <= now s <= Z.max t0 began + OVERLAP) /\
  (forall i j p q lost lost' b b', runners s !! i = Some (Holds p lost b) -> runners s !! j = Some (Holds q lost' b') -> i <> j ->
     lost <> None \/ lost' <> None) /\
  (forall i j r r', runners s !! i = Some r -> runners s !! j = Some r' -> alive r = true -> alive r' = true -> i = j) /\
  exists s', rtc step s s' /\ now s' = now s + 1.
Proof.
  intros [Ht Hl]%runner_inv_reachable. split_and!; [| | |apply time_passes].
  - intros i p t0 began Hi. apply Ht in Hi. unfold OVERLAP.
    destruct p as [since|since []]; simpl in Hi; destruct Hi as (? & ? & Hi); specialize (Hi _ eq_refl);
      unfold CHECK_TIMEOUT, CHECK_INTERVAL in *; lia.
  - intros i j p q [t|] [t'|] b b' Hi Hj Hne; [by left..|by right|].
    pose proof (Hl _ _ Hi eq_refl). pose proof (Hl _ _ Hj eq_refl). congruence.
  - intros i j r r' Hi Hj Ha Ha'. pose proof (Hl _ _ Hi Ha). pose proof (Hl _ _ Hj Ha'). congruence.
Qed.

(** The bound is reached: the check of the first runner is executed, its
    session is lost and the second runner takes the lock; the answer comes
    after three seconds, and the next check times out. *)
Fixpoint run_all (events : list event) (s : state) : option state :=
  match events with
  | [] => Some s
  | e :: events => s ← run_event e s; run_all events s
  end.

(** The second runner's checks are answered at once. *)
Definition second_checks (k : nat) : list event :=
  concat (replicate k (replicate 1000 ETick ++ [EWake 1; EExecute 1; EPass 1])).

Definition overlap_events : list event :=
  [EAcquire 0; EAcquired 0] ++ replicate 1000 ETick ++ [EWake 0; EExecute 0; ELose 0; EAcquire 1; EAcquired 1] ++
  second_checks 3 ++ [EPass 0] ++ second_checks 1 ++ [EWake 0] ++ second_checks 3.

Lemma run_all_rtc events s s' : run_all events s = Some s' -> rtc step s s'.
Proof.
  revert s. induction events as [|e events IH]; simpl; intros s; [by intros [= ->]|].
  intros (s1 & E & H)%option_Some_bind. eapply rtc_l; [by exists e|by apply IH].
Qed.

Definition overlap_state : state := default (init 2) (run_all overlap_events (init 2)).

Lemma overlap_bounded_witness :
  1000 <= now overlap_state <= 1000 + OVERLAP /\ now overlap_state = 1000 + OVERLAP /\
  runners overlap_state !! 1%nat = Some (Holds (Sleeping 8000) None 1000).
Proof.
  assert (Hr : rtc step (init 2) overlap_state)
    by (apply (run_all_rtc overlap_events); vm_compute; reflexivity).
  split; [|split; vm_compute; reflexivity].
  destruct (proj1 (overlap_bounded 2 overlap_state Hr) 0%nat (Checking 5000 false) 1000 0) as [H1 H2];
    [vm_compute; reflexivity|]. change (Z.max 1000 0) with 1000 in H2. split; [exact H1|exact (proj2 H2)].
Defined.
