(* ===== verification/AlarmLoop.v ===== *)
(** * The loop and the locks of the alarms (src/src/durable/alarms.rs)

    [Locks]: the lock of each object, made when the first task needs it and
    dropped from the map when the last one leaves. [Loop]: the loop that
    takes the due alarms, with a clock that does not pass a due timer. *)

From stdpp Require Import sorting.
From S2P Require Import Prelude RustStr DurableAlarms.

Module Locks.

(** A task around [locked]: it cloned the lock of its key from the map; holds
    it; released it and has not looked at the map yet; has, and still has
    its clone. Locks are numbered in the order they were made. *)
Inductive task : Type :=
| Idle | Waits (key : ObjectRef) (lock : nat) | Works (key : ObjectRef) (lock : nat)
| Released (key : ObjectRef) (lock : nat) | Leaves (lock : nat).

(** The map, how many locks were made, the ones that are held, the tasks. *)
Record state := mkState { LOCKS : gmap ObjectRef nat; made : nat; held : gset nat; tasks : list task }.

Definition has_clone (lock : nat) (t : task) : bool :=
  match t with
  | Waits _ l | Works _ l | Released _ l | Leaves l => (l =? lock)%nat
  | Idle => false
  end.

(** The references to a lock: the one of the map and the clones. *)
Definition strong_count (key : ObjectRef) (lock : nat) (s : state) : Z :=
  (if bool_decide (LOCKS s !! key = Some lock) then 1 else 0) + countb (has_clone lock) (tasks s).

Definition set_task (i : nat) (t : task) (s : state) : state := mkState (LOCKS s) (made s) (held s) (<[i := t]> (tasks s)).

(** [LOCKS.lock().entry(key).or_default()], cloned. *)
Definition enter (i : nat) (key : ObjectRef) (s : state) : option state :=
  match tasks s !! i with
  | Some Idle =>
    match LOCKS s !! key with
    | Some lock => Some (set_task i (Waits key lock) s)
    | None => Some (mkState (<[key := made s]> (LOCKS s)) (S (made s)) (held s) (<[i := Waits key (made s)]> (tasks s)))
    end
  | _ => None
  end.

Definition lock (i : nat) (s : state) : option state :=
  match tasks s !! i with
  | Some (Waits key l) =>
    if decide (l ∈ held s) then None
    else Some (mkState (LOCKS s) (made s) ({[l]} ∪ held s) (<[i := Works key l]> (tasks s)))
  | _ => None
  end.

(** The work ends and the guard drops. *)
Definition release (i : nat) (s : state) : option state :=
  match tasks s !! i with
  | Some (Works key l) => Some (mkState (LOCKS s) (made s) (held s ∖ {[l]}) (<[i := Released key l]> (tasks s)))
  | _ => None
  end.

(** Under the lock of the map: the map and this task are all there is. *)
Definition tidy (i : nat) (s : state) : option state :=
  match tasks s !! i with
  | Some (Released key l) =>
    Some (mkState (if strong_count key l s =? 2 then delete key (LOCKS s) else LOCKS s) (made s) (held s)
            (<[i := Leaves l]> (tasks s)))
  | _ => None
  end.

(** The clone drops at the end of the function. *)
Definition leave (i : nat) (s : state) : option state :=
  match tasks s !! i with Some (Leaves _) => Some (set_task i Idle s) | _ => None end.

(** The task is dropped while it waits or works. *)
Definition cancel (i : nat) (s : state) : option state :=
  match tasks s !! i with
  | Some (Waits _ _) => Some (set_task i Idle s)
  | Some (Works _ l) => Some (mkState (LOCKS s) (made s) (held s ∖ {[l]}) (<[i := Idle]> (tasks s)))
  | _ => None
  end.

Inductive step : state -> state -> Prop :=
| s_enter i key s s' : enter i key s = Some s' -> step s s'
| s_lock i s s' : lock i s = Some s' -> step s s'
| s_release i s s' : release i s = Some s' -> step s s'
| s_tidy i s s' : tidy i s = Some s' -> step s s'
| s_leave i s s' : leave i s = Some s' -> step s s'
| s_cancel i s s' : cancel i s = Some s' -> step s s'.

Definition init (n : nat) : state := mkState ∅ 0 ∅ (replicate n Idle).

(** ** Invariant *)

Definition works_on (l : nat) (t : task) : bool := match t with Works _ k => (k =? l)%nat | _ => false end.
Definition works_for (key : ObjectRef) (t : task) : bool :=
  match t with Works k _ => bool_decide (k = key) | _ => false end.

(** The key and the lock of a task the map must still serve. *)
Definition needs (t : task) : option (ObjectRef * nat) :=
  match t with Waits k l | Works k l | Released k l => Some (k, l) | _ => None end.

Record inv (s : state) : Prop := mkInv {
  i_map i t k l : tasks s !! i = Some t -> needs t = Some (k, l) -> LOCKS s !! k = Some l;
  i_made k l : LOCKS s !! k = Some l -> (l < made s)%nat;
  i_inj k j l : LOCKS s !! k = Some l -> LOCKS s !! j = Some l -> k = j;
  i_held l : countb (works_on l) (tasks s) = if decide (l ∈ held s) then 1 else 0;
}.

(** A step of one task that keeps the map and needs what it needed. *)
Lemma lock_inv_move s i t t' h : inv s -> tasks s !! i = Some t ->
  (forall k l, needs t' = Some (k, l) -> LOCKS s !! k = Some l) ->
  (forall l, (if decide (l ∈ h) then 1 else 0) =
             (if decide (l ∈ held s) then 1 else 0) - (if works_on l t then 1 else 0) + (if works_on l t' then 1 else 0)) ->
  inv (mkState (LOCKS s) (made s) h (<[i := t']> (tasks s))).
Proof.
  intros [Hm Hmade Hinj Hh] Hi Hn Hl. split; simpl; [|done|done|].
  - intros j u k l [(-> & <- & _)|[_ Hj]]%list_lookup_insert_Some Hu; [by apply Hn|by eapply Hm].
  - intros l. rewrite (countb_insert _ _ _ _ _ Hi), Hh. by rewrite Hl.
Qed.

(** The one who works holds the lock. *)
Lemma works_held s i k l : inv s -> tasks s !! i = Some (Works k l) -> l ∈ held s.
Proof.
  intros [_ _ _ Hh] Hi. specialize (Hh l). destruct (decide (l ∈ held s)); [done|].
  assert (1 <= countb (works_on l) (tasks s)); [|lia].
  eapply countb_pos; [by eapply list_elem_of_lookup_2|]. simpl. by rewrite Nat.eqb_refl.
Qed.

Lemma held_drop s l m :
  (l ∈ held s) -> (if decide (m ∈ held s ∖ {[l]}) then 1 else 0) =
  (if decide (m ∈ held s) then 1 else 0) - (if (l =? m)%nat then 1 else 0).
Proof.
  intros Hl. destruct (Nat.eqb_spec l m) as [<-|Hne].
  - rewrite decide_False by set_solver. by rewrite decide_True.
  - destruct (decide (m ∈ held s)); [rewrite decide_True by set_solver|rewrite decide_False by set_solver]; lia.
Qed.

(** With two references, no other task needs the lock. *)
Lemma alone s i k l : inv s -> tasks s !! i = Some (Released k l) -> strong_count k l s = 2 ->
  forall j t k' l', j <> i -> tasks s !! j = Some t -> needs t = Some (k', l') -> k' <> k.
Proof.
  intros Hinv Hi Hc j t k' l' Hji Hj Hn ->. unfold strong_count in Hc.
  assert (l' = l) as -> by (pose proof (i_map _ Hinv _ _ _ _ Hj Hn); pose proof (i_map _ Hinv _ _ _ _ Hi eq_refl); congruence).
  assert (2 <= countb (has_clone l) (tasks s)); [|case_bool_decide; [lia|]].
  - eapply (countb_two _ _ j i); eauto; [|simpl; by rewrite Nat.eqb_refl].
    destruct t; simpl in *; simplify_eq; by rewrite Nat.eqb_refl.
  - pose proof (i_map _ Hinv _ _ _ _ Hi eq_refl). congruence.
Qed.

Lemma lock_inv_tidy s i k l : inv s -> tasks s !! i = Some (Released k l) ->
  inv (mkState (if strong_count k l s =? 2 then delete k (LOCKS s) else LOCKS s) (made s) (held s)
         (<[i := Leaves l]> (tasks s))).
Proof.
  intros Hinv Hi. pose proof Hinv as [Hm Hmade Hinj Hh].
  destruct (strong_count k l s =? 2) eqn:E; [|apply (lock_inv_move s i (Released k l)); try done; intros m; simpl; lia].
  apply Z.eqb_eq in E. split; simpl.
  - intros j t k' l' [(-> & <- & _)|[Hne Hj]]%list_lookup_insert_Some Hn; [done|].
    rewrite lookup_delete_ne; [by eapply Hm|]. intros ->. by eapply (alone s i k' l).
  - intros k' l' [_ ?]%lookup_delete_Some. by eapply Hmade.
  - intros k1 k2 l' [_ ?]%lookup_delete_Some [_ ?]%lookup_delete_Some. by eapply Hinj.
  - intros m. rewrite (countb_insert _ _ _ _ _ Hi), Hh. simpl. lia.
Qed.

Lemma lock_inv_enter s i key : inv s -> tasks s !! i = Some Idle -> LOCKS s !! key = None ->
  inv (mkState (<[key := made s]> (LOCKS s)) (S (made s)) (held s) (<[i := Waits key (made s)]> (tasks s))).
Proof.
  intros [Hm Hmade Hinj Hh] Hi Hk. split; simpl.
  - intros j t k' l' [(-> & <- & _)|[Hne Hj]]%list_lookup_insert_Some Hn.
    + simpl in Hn. simplify_eq. by rewrite lookup_insert_eq.
    + pose proof (Hm _ _ _ _ Hj Hn). rewrite lookup_insert_ne; [done|]. congruence.
  - intros k' l' [[-> <-]|[_ H]]%lookup_insert_Some; [lia|]. apply Hmade in H. lia.
  - intros k1 k2 l' [[-> <-]|[_ H1]]%lookup_insert_Some [[-> E]|[_ H2]]%lookup_insert_Some; [done| | |by eapply Hinj].
    + apply Hmade in H2. lia.
    + apply Hmade in H1. lia.
  - intros m. rewrite (countb_insert _ _ _ _ _ Hi), Hh. simpl. lia.
Qed.

Lemma lock_inv_step s s' : inv s -> step s s' -> inv s'.
Proof.
  intros Hinv Hstep. pose proof Hinv as [Hm _ _ _].
  destruct Hstep as [i key s s' E|i s s' E|i s s' E|i s s' E|i s s' E|i s s' E];
    [unfold enter in E|unfold lock in E|unfold release in E|unfold tidy in E|unfold leave in E|unfold cancel in E];
    destruct (tasks s !! i) as [[|k l|k l|k l|l]|] eqn:Ei; try done.
  - destruct (LOCKS s !! key) as [l|] eqn:Ek; injection E as <-; [|by apply lock_inv_enter].
    apply (lock_inv_move s i Idle); try done; [by intros k l' [= <- <-]|]. intros m. simpl. lia.
  - destruct (decide (l ∈ held s)) as [|Hl]; [done|]. injection E as <-.
    apply (lock_inv_move s i (Waits k l)); try done; [intros k' l' [= <- <-]; by eapply Hm|].
    intros m. simpl. destruct (Nat.eqb_spec l m) as [<-|Hne].
    + rewrite (decide_False (P := l ∈ held s)) by done. by rewrite decide_True by set_solver.
    + destruct (decide (m ∈ held s)); [rewrite decide_True by set_solver|rewrite decide_False by set_solver]; lia.
  - injection E as <-. apply (lock_inv_move s i (Works k l)); try done; [intros k' l' [= <- <-]; by eapply Hm|].
    intros m. rewrite held_drop by (by eapply works_held). simpl. lia.
  - injection E as <-. by apply lock_inv_tidy.
  - injection E as <-. apply (lock_inv_move s i (Leaves l)); try done. intros m. simpl. lia.
  - injection E as <-. apply (lock_inv_move s i (Waits k l)); try done. intros m. simpl. lia.
  - injection E as <-. apply (lock_inv_move s i (Works k l)); try done.
    intros m. rewrite held_drop by (by eapply works_held). simpl. lia.
Qed.

Lemma lock_inv_reachable n s : rtc step (init n) s -> inv s.
Proof.
  apply rtc_invariant; [apply lock_inv_step|]. split; simpl; [|done..|].
  - intros i t k l [-> _]%lookup_replicate. done.
  - intros l. rewrite decide_False by set_solver. induction n; simpl; lia.
Qed.

(** C39. One task at a time works on the alarm of an object: after any
    interleaving of tasks that enter, wait, work, end and are dropped, with
    the locks leaving the map as it is tidied, no two tasks work for the
    same object, and every task that waits or works has the lock the map
    gives to the next one. *)
Theorem alarm_lock_exclusive (n : nat) (s : state) : rtc step (init n) s ->
  (forall key, countb (works_for key) (tasks s) <= 1) /\
  (forall i t key l, tasks s !! i = Some t -> needs t = Some (key, l) -> LOCKS s !! key = Some l).
Proof.
  intros Hinv%lock_inv_reachable. split; [|apply Hinv]. intros key.
  destruct (LOCKS s !! key) as [l|] eqn:Ek.
  - rewrite (countb_ext _ (works_on l)).
    + rewrite (i_held _ Hinv). by destruct (decide _).
    + intros t (i & Hi)%list_elem_of_lookup. destruct t; simpl; try done.
      pose proof (i_map _ Hinv _ _ _ _ Hi eq_refl) as Hk.
      case_bool_decide as Hd; symmetry; [apply Nat.eqb_eq; congruence|apply Nat.eqb_neq].
      intros ->. apply Hd. by eapply (i_inj _ Hinv).
  - rewrite (countb_ext _ (fun _ => false)); [clear; induction (tasks s); simpl; lia|].
    intros t (i & Hi)%list_elem_of_lookup. destruct t; simpl; try done.
    pose proof (i_map _ Hinv _ _ _ _ Hi eq_refl) as Hk. apply bool_decide_eq_false. intros ->. congruence.
Qed.

(** ** Executions *)

Inductive event : Type :=
| Enter (i : nat) (key : ObjectRef) | Lock (i : nat) | Release (i : nat) | Tidy (i : nat) | Leave (i : nat).

Definition run_event (e : event) : state -> option state :=
  match e with
  | Enter i key => enter i key | Lock i => lock i | Release i => release i | Tidy i => tidy i | Leave i => leave i
  end.

Fixpoint run_all (events : list event) (s : state) : option state :=
  match events with [] => Some s | e :: events => s ← run_event e s; run_all events s end.

Lemma run_all_steps events s s' : run_all events s = Some s' -> rtc step s s'.
Proof.
  revert s. induction events as [|e events IH]; simpl; intros s; [by intros [= ->]|].
  intros (s1 & E & H)%option_Some_bind. eapply rtc_l; [|by apply IH].
  destruct e; simpl in E; [by eapply s_enter|by eapply s_lock|by eapply s_release|by eapply s_tidy|by eapply s_leave].
Qed.

(** Two tasks of one object; the second works when the first one left. *)
Definition two_tasks : list event :=
  [Enter 0 ("n", "o"); Lock 0; Enter 1 ("n", "o"); Release 0; Tidy 0; Lock 1].

Definition second_works : state := default (init 2) (run_all two_tasks (init 2)).

Lemma alarm_lock_exclusive_witness :
  countb (works_for ("n", "o")) (tasks second_works) = 1 /\ LOCKS second_works !! ("n", "o") = Some 0%nat.
Proof.
  assert (Hr : rtc step (init 2) second_works) by (apply (run_all_steps two_tasks); vm_compute; reflexivity).
  split; [vm_compute; reflexivity|].
  apply (proj2 (alarm_lock_exclusive 2 second_works Hr) 1%nat (Works ("n", "o") 0)); vm_compute; reflexivity.
Defined.

(** An entry can stay in the map: the second task looks at the references
    while the first one, which found the second waiting, still has its clone. *)
Theorem lock_stays_in_map : exists s, rtc step (init 2) s /\ tasks s = [Idle; Idle] /\ LOCKS s !! ("n", "o") = Some 0%nat.
Proof.
  exists (default (init 2) (run_all (two_tasks ++ [Release 1; Tidy 1; Leave 0; Leave 1]) (init 2))).
  split; [|split; vm_compute; reflexivity].
  apply (run_all_steps (two_tasks ++ [Release 1; Tidy 1; Leave 0; Leave 1])). vm_compute. reflexivity.
Qed.
End Locks.

Module Loop.

Definition BATCH : nat := 100.
Definition MAX_WAIT : Z := 60000.

(** A runner that stopped during a run left it marked. *)
Definition reset (table : gmap ObjectRef row) : gmap ObjectRef row :=
  (fun r => mkRow (scheduled_at r) (retry_count r) false) <$> table.

(** [min(scheduled_at)] of the rows that are not under way. *)
Definition earliest (a : option Z) (r : row) : option Z :=
  if delivering r then a else Some (match a with Some m => Z.min m (scheduled_at r) | None => scheduled_at r end).

Definition next_due (table : gmap ObjectRef row) : option Z := foldl earliest None (map_to_list table).*2.

(** How long the loop sleeps: a moment that passed is no wait. *)
Definition wait (next : option Z) (now_ms : Z) : Z :=
  Z.min (match next with Some at_ => Z.max 0 (at_ - now_ms) | None => MAX_WAIT end) MAX_WAIT.

Inductive phase : Type := Claiming | Asking | Sleeping (until : Z) | Over.

(** [written]: when a row was last written, and whether [CHANGED] was
    notified of it. *)
Record state := mkState {
  now : Z; table : gmap ObjectRef row; written : gmap ObjectRef (Z * bool); ph : phase;
  changed : bool; taken : list (ObjectRef * Z) }.

(** The queries fail only if [faults]. *)
Section loop.
Context (faults : bool).

Definition run_claim (ok : bool) (s : state) : option state :=
  match ph s with
  | Claiming =>
    if ok then
      let '(claimed, t) := claim (now s) BATCH (table s) in
      Some (mkState (now s) t (written s) Asking (changed s) (taken s ++ claimed))
    else if faults then Some (mkState (now s) (table s) (written s) Asking (changed s) (taken s)) else None
  | _ => None
  end.

Definition ask (ok : bool) (s : state) : option state :=
  match ph s with
  | Asking =>
    if ok then Some (mkState (now s) (table s) (written s) (Sleeping (now s + wait (next_due (table s)) (now s)))
                       (changed s) (taken s))
    else if faults then Some (mkState (now s) (table s) (written s) (Sleeping (now s + wait None (now s))) (changed s) (taken s))
    else None
  | _ => None
  end.

(** A notification or the end of the sleep. *)
Definition wake (s : state) : option state :=
  match ph s with
  | Sleeping until =>
    if changed s then Some (mkState (now s) (table s) (written s) Claiming false (taken s))
    else if until <=? now s then Some (mkState (now s) (table s) (written s) Claiming (changed s) (taken s))
    else None
  | _ => None
  end.

(** [stop], or a drain seen before a claim. *)
Definition halt (s : state) : option state :=
  match ph s with
  | Claiming | Sleeping _ => Some (mkState (now s) (table s) (written s) Over (changed s) (taken s))
  | _ => None
  end.

(** A row is written by [lower] or [follow]; [notify] if the write wakes the
    loop. *)
Definition write (k : ObjectRef) (r : option row) (notify : bool) (s : state) : state :=
  mkState (now s) (match r with Some r => <[k := r]> (table s) | None => delete k (table s) end)
    (<[k := (now s, notify)]> (written s)) (ph s) (changed s || notify) (taken s).

(** The clock goes on while the loop sleeps, or after it. *)
Definition tick (s : state) : option state :=
  let s' := mkState (now s + 1) (table s) (written s) (ph s) (changed s) (taken s) in
  match ph s with
  | Sleeping until => if negb (changed s) && (now s <? until) then Some s' else None
  | Over => Some s'
  | _ => None
  end.

Inductive step : state -> state -> Prop :=
| l_claim ok s s' : run_claim ok s = Some s' -> step s s'
| l_ask ok s s' : ask ok s = Some s' -> step s s'
| l_wake s s' : wake s = Some s' -> step s s'
| l_halt s s' : halt s = Some s' -> step s s'
| l_write k r notify s : step s (write k r notify s)
| l_tick s s' : tick s = Some s' -> step s s'.

(** The loop starts on what the index holds. *)
Definition start (now_ms : Z) (index : gmap ObjectRef row) : state :=
  mkState now_ms (reset index) ∅ Claiming false [].

(** ** Invariant *)

(** When the row could first be taken, and whether the loop was told. *)
Definition ready_at (t0 : Z) (s : state) (k : ObjectRef) (r : row) : Z :=
  Z.max (scheduled_at r) (match written s !! k with Some (t, _) => t | None => t0 end).
Definition told (s : state) (k : ObjectRef) : bool := match written s !! k with Some (_, n) => n | None => true end.
Definition slack (s : state) (k : ObjectRef) : Z := if told s k then 0 else MAX_WAIT.

Record inv (t0 : Z) (s : state) : Prop := mkInv {
  i_late k r : ph s <> Over -> table s !! k = Some r -> delivering r = false -> now s <= ready_at t0 s k r + slack s k;
  i_sleep until k r : ph s = Sleeping until -> table s !! k = Some r -> delivering r = false ->
    changed s = true \/ until <= now s \/ until <= ready_at t0 s k r + slack s k;
  i_until until : ph s = Sleeping until -> now s <= until <= now s + MAX_WAIT;
}.

(** What a claim leaves. *)
Lemma claim_leaves (t : Z) (n : nat) (m : gmap ObjectRef row) k r :
  (claim t n m).2 !! k = Some r -> delivering r = false -> m !! k = Some r /\ (k, r) ∉ due_rows t n m.
Proof.
  unfold claim. simpl. rewrite mark_all by apply due_rows_keys.
  destruct (list_find (fun kr : ObjectRef * row => kr.1 = k) (due_rows t n m)) as [[i kr]|] eqn:E.
  - intros [= <-]. done.
  - intros Hk _. split; [done|]. intros Hin. apply list_find_None in E. rewrite Forall_forall in E. by specialize (E _ Hin).
Qed.

Lemma earliest_some l a m : foldl earliest (Some a) l = Some m -> m <= a.
Proof.
  revert a. induction l as [|r l IH]; simpl; intros a; [by intros [= ->]|]. unfold earliest at 2.
  destruct (delivering r); [apply IH|]. intros H%IH. lia.
Qed.

Lemma earliest_is_some l a : is_Some (foldl earliest (Some a) l).
Proof.
  revert a. induction l as [|r l IH]; simpl; intros a; [eauto|]. unfold earliest at 2. by destruct (delivering r).
Qed.

Lemma earliest_le l a r : r ∈ l -> delivering r = false -> exists m, foldl earliest a l = Some m /\ m <= scheduled_at r.
Proof.
  revert a. induction l as [|q l IH]; intros a Hr Hd; [by apply not_elem_of_nil in Hr|]. simpl.
  apply elem_of_cons in Hr as [->|Hr]; [|by apply IH]. unfold earliest at 2. rewrite Hd.
  destruct (earliest_is_some l (match a with Some m => Z.min m (scheduled_at q) | None => scheduled_at q end)) as [m Hm].
  exists m. split; [done|]. apply earliest_some in Hm. destruct a; lia.
Qed.

(** The sleep ends when a row falls due, or before. *)
Lemma wait_in_time (m : gmap ObjectRef row) t k r : m !! k = Some r -> delivering r = false ->
  t + wait (next_due m) t <= Z.max t (scheduled_at r).
Proof.
  intros Hk Hd. destruct (earliest_le (map_to_list m).*2 None r) as (n & Hn & Hle); [|done|].
  - apply list_elem_of_fmap. exists (k, r). split; [done|]. by apply elem_of_map_to_list.
  - unfold next_due, wait. rewrite Hn. lia.
Qed.

Lemma wait_bounds next t : 0 <= wait next t <= MAX_WAIT.
Proof. unfold wait, MAX_WAIT. destruct next; lia. Qed.

Lemma write_late t0 k r notify s : inv t0 s -> inv t0 (write k r notify s).
Proof.
  intros [Hl Hs Hu].
  assert (Hold : forall j q, j <> k -> ready_at t0 (write k r notify s) j q = ready_at t0 s j q /\
    slack (write k r notify s) j = slack s j).
  { intros j q Hj. unfold ready_at, slack, told. simpl. by rewrite lookup_insert_ne. }
  assert (Hnew : forall q, now s <= ready_at t0 (write k r notify s) k q + slack (write k r notify s) k).
  { intros q. unfold ready_at, slack, told. simpl. rewrite lookup_insert_eq. unfold MAX_WAIT. destruct notify; lia. }
  assert (Htab : forall j q, j <> k -> table (write k r notify s) !! j = Some q -> table s !! j = Some q).
  { intros j q Hj. simpl. destruct r; [by rewrite lookup_insert_ne|by rewrite lookup_delete_ne]. }
  split; [| |exact Hu].
  - intros j q Hph Hq Hd. destruct (decide (j = k)) as [->|Hj]; [apply Hnew|].
    destruct (Hold j q Hj) as [-> ->]. apply Hl; [done|by apply Htab|done].
  - intros u j q Hph Hq Hd. destruct (decide (j = k)) as [->|Hj].
    + destruct notify; [left; apply orb_true_r|]. do 2 right.
      unfold ready_at, slack, told. simpl. rewrite lookup_insert_eq. specialize (Hu u Hph). lia.
    + destruct (Hold j q Hj) as [-> ->]. destruct (Hs u j q Hph (Htab _ _ Hj Hq) Hd) as [Hc|?]; [|by right].
      left. simpl. by rewrite Hc.
Qed.

Lemma loop_inv_step t0 s s' : faults = false -> inv t0 s -> step s s' -> inv t0 s'.
Proof.
  intros Hf Hinv Hstep. pose proof Hinv as [Hl Hs Hu].
  destruct Hstep as [ok s s' E|ok s s' E|s s' E|s s' E|k r notify s|s s' E]; [| | | |by apply write_late|].
  - unfold run_claim in E. destruct (ph s) eqn:Ep; try done. destruct ok; [|by rewrite Hf in E].
    destruct (claim (now s) BATCH (table s)) as [cl t] eqn:Ec. injection E as <-. split; simpl; [|done..].
    intros k r _ Hk Hd. pose proof (claim_leaves (now s) BATCH (table s) k r) as Hc. rewrite Ec in Hc.
    destruct (Hc Hk Hd) as [Hk' _]. by apply Hl.
  - unfold ask in E. destruct (ph s) eqn:Ep; try done. destruct ok; [|by rewrite Hf in E]. injection E as <-.
    pose proof (wait_bounds (next_due (table s)) (now s)). split; simpl.
    + intros k r _ Hk Hd. by apply Hl.
    + intros u k r [= <-] Hk Hd. pose proof (wait_in_time (table s) (now s) k r Hk Hd) as Hw.
      specialize (Hl k r ltac:(done) Hk Hd). right.
      assert (scheduled_at r <= ready_at t0 s k r + slack s k).
      { unfold ready_at, slack, MAX_WAIT. destruct (written s !! k) as [[]|], (told s k); lia. }
      unfold ready_at, slack, told in *. simpl. lia.
    + intros u [= <-]. lia.
  - unfold wake in E. destruct (ph s) eqn:Ep; try done. destruct (changed s); [|destruct (_ <=? _); [|done]];
      injection E as <-; (split; simpl; [|done..]); intros k r _ Hk Hd; by apply Hl.
  - unfold halt in E. destruct (ph s); try done; injection E as <-; by split.
  - unfold tick in E. destruct (ph s) eqn:Ep; try done; [|injection E as <-; by split].
    destruct (changed s) eqn:Ec; [done|]. destruct (now s <? until) eqn:Et; [|done]. injection E as <-. apply Z.ltb_lt in Et.
    split; simpl.
    + intros k r _ Hk Hd. destruct (Hs until k r eq_refl Hk Hd) as [|[|Hr]]; [done|lia|].
      unfold ready_at, slack, told in *. simpl. lia.
    + intros u k r [= <-] Hk Hd. destruct (Hs until k r eq_refl Hk Hd) as [|[|Hr]]; [done|lia|]. do 2 right. exact Hr.
    + intros u [= <-]. specialize (Hu until eq_refl). lia.
Qed.

Lemma loop_inv_start t0 index : inv t0 (start t0 index).
Proof.
  split; simpl; [|done..]. intros k r _ _ _. unfold ready_at, slack, told. simpl. rewrite lookup_empty. lia.
Qed.

(** ** The clock goes on *)

Definition due_table (s : state) : gmap ObjectRef row := filter (fun kr : ObjectRef * row => is_due (now s) kr.2 = true) (table s).

(** A claim takes a due row if there is one. *)
Lemma claim_shrinks s k r : table s !! k = Some r -> is_due (now s) r = true ->
  (size (filter (fun kr : ObjectRef * row => is_due (now s) kr.2 = true) (claim (now s) BATCH (table s)).2) <
   size (due_table s))%nat.
Proof.
  intros Hk Hd. apply map_subset_size.
  assert (Hin : exists j q, (j, q) ∈ due_rows (now s) BATCH (table s)).
  { destruct (due_rows (now s) BATCH (table s)) as [|[j q] l] eqn:E; [|exists j, q; left].
    destruct (left_out (now s) BATCH (table s) k r Hk Hd) as [Hlen _]; rewrite E in *; [set_solver|done]. }
  destruct Hin as (j & q & Hj). destruct (due_rows_elem _ _ _ _ _ Hj) as [Hjt Hjd].
  assert (Hsub : filter (fun kr : ObjectRef * row => is_due (now s) kr.2 = true) (claim (now s) BATCH (table s)).2 ⊆ due_table s).
  { apply map_subseteq_spec. intros i x [Hi Hx]%map_lookup_filter_Some. apply map_lookup_filter_Some. split; [|done].
    eapply claim_leaves; [done|]. simpl in Hx. unfold is_due in Hx. by destruct (delivering x). }
  apply map_subset_alt. split; [done|]. exists j. split.
  - apply map_lookup_filter_None. right. intros x Hx Hdx. simpl in Hdx.
    destruct (claim_leaves _ _ _ _ _ Hx) as [Hx' Hout]; [unfold is_due in Hdx; by destruct (delivering x)|].
    apply Hout. by rewrite Hjt in Hx'; simplify_eq.
  - exists q. by apply map_lookup_filter_Some.
Qed.

Lemma wait_zero (m : gmap ObjectRef row) t : wait (next_due m) t <= 0 -> exists k r, m !! k = Some r /\ is_due t r = true.
Proof.
  assert (Hmin : forall l a n, foldl earliest a l = Some n ->
    a = Some n \/ exists r, r ∈ l /\ delivering r = false /\ scheduled_at r = n).
  { induction l as [|r l IH]; intros a n; simpl; [by left|]. intros [Ha|(q & ? & ? & ?)]%IH; [|right; exists q; set_solver].
    unfold earliest in Ha. destruct (delivering r) eqn:Ed; [by left|]. injection Ha as Ha.
    destruct a as [m0|]; [|right; exists r; set_solver]. destruct (Z.min_spec m0 (scheduled_at r)) as [[_ E]|[_ E]]; rewrite E in Ha.
    - left. congruence.
    - right. exists r. set_solver. }
  unfold wait, MAX_WAIT. destruct (next_due m) as [n|] eqn:E; [|lia]. intros Hw.
  destruct (Hmin _ _ _ E) as [|(r & Hr & Hd & <-)]; [done|].
  apply list_elem_of_fmap in Hr as ([k q] & -> & Hk). apply elem_of_map_to_list in Hk. exists k, q. split; [done|].
  simpl in *. unfold is_due. rewrite Hd. simpl. apply Z.leb_le. lia.
Qed.

Lemma loop_rounds n s : ph s = Claiming -> (size (due_table s) < n)%nat ->
  exists s' u, rtc step s s' /\ now s' = now s /\ ph s' = Sleeping u /\ now s < u /\
    (changed s = false -> changed s' = false).
Proof.
  revert s. induction n as [|n IH]; intros s Hp Hn; [lia|].
  set (t := (claim (now s) BATCH (table s)).2).
  set (s1 := mkState (now s) t (written s) Asking (changed s) (taken s ++ (claim (now s) BATCH (table s)).1)).
  assert (H1 : step s s1).
  { apply (l_claim true). unfold run_claim. rewrite Hp. unfold s1, t. by destruct (claim _ _ _). }
  set (u := now s + wait (next_due t) (now s)).
  set (s2 := mkState (now s) t (written s) (Sleeping u) (changed s) (taken s1)).
  assert (H2 : step s1 s2) by (apply (l_ask true); done).
  destruct (decide (now s < u)) as [Hu|Hu].
  { exists s2, u. split_and!; try done. eapply rtc_l; [done|]. by apply rtc_once. }
  destruct (wait_zero t (now s)) as (k & r & Hk & Hd); [unfold u in Hu; lia|].
  assert (Hr : table s !! k = Some r).
  { eapply claim_leaves; [done|]. unfold is_due in Hd. by destruct (delivering r). }
  pose proof (claim_shrinks s k r Hr Hd) as Hlt.
  set (s3 := mkState (now s) t (written s) Claiming (if changed s then false else changed s) (taken s1)).
  assert (H3 : step s2 s3).
  { apply l_wake. unfold wake, s3. simpl. destruct (changed s); [done|]. by rewrite (proj2 (Z.leb_le u (now s))) by lia. }
  destruct (IH s3) as (s' & u' & Hrt & Hn' & Hp' & Hu' & Hc'); [done|unfold due_table; simpl; fold t in Hlt; lia|].
  exists s', u'. split_and!; try done.
  - eapply rtc_l; [exact H1|]. eapply rtc_l; [exact H2|]. by eapply rtc_l.
  - intros Hc. apply Hc'. simpl. by rewrite Hc.
Qed.

Lemma claiming_goes_on s : ph s = Claiming -> changed s = false -> exists s', rtc step s s' /\ now s' = now s + 1.
Proof.
  intros Hp Hc. destruct (loop_rounds _ s Hp (Nat.lt_succ_diag_r _)) as (s1 & u & Hr & Hn & Hp1 & Hu & Hc1).
  exists (mkState (now s1 + 1) (table s1) (written s1) (ph s1) (changed s1) (taken s1)). split; [|simpl; lia].
  eapply rtc_r; [done|]. apply l_tick. unfold tick. rewrite Hp1, (Hc1 Hc). simpl.
  by rewrite (proj2 (Z.ltb_lt _ _)) by lia.
Qed.

Lemma sleeping_goes_on s u : ph s = Sleeping u -> exists s', rtc step s s' /\ now s' = now s + 1.
Proof.
  intros Hp. destruct (decide (changed s = false /\ now s < u)) as [[Hc Hu]|Hno].
  - exists (mkState (now s + 1) (table s) (written s) (ph s) (changed s) (taken s)). split; [|done]. apply rtc_once, l_tick.
    unfold tick. rewrite Hp, Hc. simpl. by rewrite (proj2 (Z.ltb_lt _ _)).
  - set (s1 := mkState (now s) (table s) (written s) Claiming false (taken s)).
    assert (H1 : step s s1).
    { apply l_wake. unfold wake, s1. rewrite Hp. destruct (changed s); [done|].
      by rewrite (proj2 (Z.leb_le u (now s))) by (destruct (Z.le_gt_cases u (now s)); [done|exfalso; auto with lia]). }
    destruct (claiming_goes_on s1) as (s' & Hr & Hn); [done|done|]. exists s'. split; [by eapply rtc_l|done].
Qed.

Lemma clock_goes_on s : exists s', rtc step s s' /\ now s' = now s + 1.
Proof.
  destruct (ph s) as [| |u|] eqn:Ep.
  - destruct (loop_rounds _ s Ep (Nat.lt_succ_diag_r _)) as (s1 & u & Hr & Hn & Hp1 & _ & _).
    destruct (sleeping_goes_on s1 u Hp1) as (s' & Hr' & Hn'). exists s'. split; [by etransitivity|congruence].
  - set (s1 := mkState (now s) (table s) (written s) (Sleeping (now s + wait (next_due (table s)) (now s))) (changed s) (taken s)).
    assert (H1 : step s s1) by (apply (l_ask true); unfold ask; by rewrite Ep).
    destruct (sleeping_goes_on s1 _ eq_refl) as (s' & Hr & Hn). exists s'. split; [by eapply rtc_l|done].
  - by eapply sleeping_goes_on.
  - exists (mkState (now s + 1) (table s) (written s) (ph s) (changed s) (taken s)). split; [|done].
    apply rtc_once, l_tick. unfold tick. by rewrite Ep.
Qed.
End loop.

(** C21. No alarm waits for the loop: while the loop runs and the database
    answers, a row of the index that is not under way is at most due at this
    moment if the loop was told of it, and at most [MAX_WAIT] past due if
    another process or a write without a notification put it there, whatever
    number of rows fall due together; and the clock always goes on. *)
Theorem alarms_prompt (now_ms : Z) (index : gmap ObjectRef row) (s : state) :
  rtc (step false) (start now_ms index) s -> ph s <> Over ->
  (forall k r, table s !! k = Some r -> delivering r = false ->
     now s <= ready_at now_ms s k r + (if told s k then 0 else MAX_WAIT)) /\
  exists s', rtc (step false) s s' /\ now s' = now s + 1.
Proof.
  intros Hr Hp. assert (Hinv : inv now_ms s).
  { revert Hr. apply rtc_invariant; [|apply loop_inv_start]. intros a b. by apply loop_inv_step. }
  split; [|apply clock_goes_on]. intros k r Hk Hd. by apply (i_late _ _ Hinv).
Qed.

Definition test_index : gmap ObjectRef row := {[("n", "a") := mkRow 5 0 true; ("n", "b") := mkRow 7 2 false]}.

(** The first alarm was left under way by a runner that stopped, and is taken
    at once; the second one when it falls due. *)
Definition round (s : state) : state := default s (run_claim false true s ≫= ask false true).

Lemma round_steps s : ph s = Claiming -> rtc (step false) s (round s).
Proof.
  intros Hp. unfold round.
  destruct (run_claim false true s) as [s1|] eqn:E1; simpl; [|done].
  destruct (ask false true s1) as [s2|] eqn:E2; simpl; [|done].
  eapply rtc_l; [by eapply l_claim|]. apply rtc_once. by eapply l_ask.
Qed.

Lemma alarms_prompt_witness :
  taken (round (start 6 test_index)) = [(("n", "a"), 0)] /\ ph (round (start 6 test_index)) = Sleeping 7 /\
  now (round (start 6 test_index)) <= ready_at 6 (round (start 6 test_index)) ("n", "b") (mkRow 7 2 false) + 0.
Proof.
  split; [vm_compute; reflexivity|]. split; [vm_compute; reflexivity|].
  pose proof (alarms_prompt 6 test_index (round (start 6 test_index))) as H.
  apply H; [by apply round_steps|vm_compute; discriminate|vm_compute; reflexivity..].
Defined.

(** A claim that fails is not followed by a pause: while a row is due and the
    other queries answer, the loop comes back to it in the same moment. *)
Theorem failed_claim_spins (s : state) (k : ObjectRef) (r : row) :
  ph s = Claiming -> changed s = false -> table s !! k = Some r -> is_due (now s) r = true ->
  exists s1 s2, run_claim true false s = Some s1 /\ ask true true s1 = Some s2 /\ wake s2 = Some s.
Proof.
  intros Hp Hc Hk Hd. unfold run_claim. rewrite Hp. eexists _, _. split; [done|]. split; [done|].
  unfold wake. simpl. rewrite Hc.
  assert (Hw : wait (next_due (table s)) (now s) = 0).
  { pose proof (wait_bounds (next_due (table s)) (now s)). unfold is_due in Hd. destruct (delivering r) eqn:Ed; [done|].
    apply Z.leb_le in Hd. pose proof (wait_in_time (table s) (now s) k r Hk Ed). lia. }
  rewrite Hw. rewrite (proj2 (Z.leb_le _ _)) by lia. destruct s; simpl in *; subst. done.
Qed.

Lemma failed_claim_spins_witness : exists s1 s2,
  run_claim true false (start 6 test_index) = Some s1 /\ ask true true s1 = Some s2 /\ wake s2 = Some (start 6 test_index).
Proof.
  apply (failed_claim_spins (start 6 test_index) ("n", "a") (mkRow 5 0 false)); vm_compute; reflexivity.
Defined.
End Loop.
