(* ===== verification/DurableVersions.v ===== *)
(** * New deployments and running objects (src/src/durable/mod.rs)

    [watch_versions] stops the objects that run an old deployment of their
    worker: it reads what the registry runs, asks the table of workers, and
    retires what is outdated. Deployments, objects that start and end, and
    the loop interleave; the clock, in milliseconds, does not pass a due
    timer or a notification. *)

From S2P Require Import Prelude RustStr Extern CodeCache Store DurableRegistry.

Definition VERSION_CHECK : Z := 60000.

(** Where the loop is: in its [select]; about to read the registry; about to
    ask the table for what it read; with the pairs left to retire. *)
Inductive watch : Type :=
| WWaits (until : Z) | WReads | WAsks (running : list (string * Z)) | WRetires (old : list (string * Z)).

(** [current]: the versions of the table of workers. [noted]: when the object
    of a key noted its version. [deployed]: when the version of a worker last
    changed, and whether [workers_changed] was called for it. *)
Record state := mkState {
  now : Z; current : gmap string (option Z); reg : Registry; ph : watch; changed : bool;
  noted : gmap ObjectKey Z; deployed : gmap string (Z * bool) }.

Definition set_watch (p : watch) (s : state) : state :=
  mkState (now s) (current s) (reg s) p (changed s) (noted s) (deployed s).
Definition set_reg (r : Registry) (s : state) : state :=
  mkState (now s) (current s) r (ph s) (changed s) (noted s) (deployed s).

(** The [select]: a notification or the end of the sleep. *)
Definition wake (s : state) : option state :=
  match ph s with
  | WWaits until =>
    if changed s then Some (mkState (now s) (current s) (reg s) WReads false (noted s) (deployed s))
    else if until <=? now s then Some (set_watch WReads s) else None
  | _ => None
  end.

Definition read (s : state) : option state :=
  match ph s with
  | WReads =>
    match elements (running_versions (reg s)) with
    | [] => Some (set_watch (WWaits (now s + VERSION_CHECK)) s)
    | running => Some (set_watch (WAsks running) s)
    end
  | _ => None
  end.

Definition ask (ok : bool) (s : state) : option state :=
  match ph s with
  | WAsks running =>
    Some (set_watch (if ok then WRetires (outdated (current s) running) else WWaits (now s + VERSION_CHECK)) s)
  | _ => None
  end.

Definition retire_one (s : state) : option state :=
  match ph s with
  | WRetires ((worker, version) :: old) => Some (set_watch (WRetires old) (set_reg (retire worker version (reg s)) s))
  | WRetires [] => Some (set_watch (WWaits (now s + VERSION_CHECK)) s)
  | _ => None
  end.

(** A deployment, or the deletion of a worker. *)
Definition deploy (worker : string) (version : option Z) (told : bool) (s : state) : state :=
  mkState (now s) (<[worker := version]> (current s)) (reg s) (ph s) (changed s || told) (noted s)
    (<[worker := (now s, told)]> (deployed s)).

(** An object that loaded its worker notes the version. *)
Definition note (key : ObjectKey) (generation : nat) (version : Z) (s : state) : state :=
  mkState (now s) (current s) (set_version key generation version (reg s)) (ph s) (changed s)
    (<[key := now s]> (noted s)) (deployed s).

(** Whatever else happens in the registry notes no version. *)
Definition no_new_version (r r' : Registry) : Prop :=
  forall k e, objects r' !! k = Some e -> e_version e = None \/ objects r !! k = Some e.

Definition tick (s : state) : option state :=
  match ph s with
  | WWaits until =>
    if negb (changed s) && (now s <? until)
    then Some (mkState (now s + 1) (current s) (reg s) (ph s) (changed s) (noted s) (deployed s)) else None
  | _ => None
  end.

(** The queries of the loop are answered. *)
Inductive step : state -> state -> Prop :=
| v_wake s s' : wake s = Some s' -> step s s'
| v_read s s' : read s = Some s' -> step s s'
| v_ask s s' : ask true s = Some s' -> step s s'
| v_retire s s' : retire_one s = Some s' -> step s s'
| v_deploy s worker version told : step s (deploy worker version told s)
| v_note s key g version : step s (note key g version s)
| v_other s r : no_new_version (reg s) r -> step s (set_reg r s)
| v_tick s s' : tick s = Some s' -> step s s'.

Definition init (t0 : Z) (table : gmap string (option Z)) : state :=
  mkState t0 table registry_default (WWaits (t0 + VERSION_CHECK)) false ∅ ∅.

(** ** What is stale *)

Definition version_of (table : gmap string (option Z)) (worker : string) : option Z :=
  match table !! worker with Some v => v | None => None end.

(** The object of [key] runs [version], which is not its worker's. *)
Definition stale (s : state) (key : ObjectKey) (worker : string) (version : Z) : Prop :=
  exists e, objects (reg s) !! key = Some e /\ runs_version worker version e /\
            version_of (current s) worker <> Some version.

Section bound.
Context (t0 : Z).

Definition noted_at (s : state) (key : ObjectKey) : Z := default t0 (noted s !! key).
Definition deployed_at (s : state) (worker : string) : Z := match deployed s !! worker with Some (t, _) => t | None => t0 end.
Definition told_of (s : state) (worker : string) : bool := match deployed s !! worker with Some (_, b) => b | None => true end.

(** Since when, and how long at most: not at all when the loop was told of a
    deployment that came after the object. *)
Definition stale_at (s : state) (key : ObjectKey) (worker : string) : Z := Z.max (noted_at s key) (deployed_at s worker).
Definition slack (s : state) (key : ObjectKey) (worker : string) : Z :=
  if told_of s worker && (noted_at s key <? deployed_at s worker) then 0 else VERSION_CHECK.

(** Stale since this moment, in a way the loop will see. *)
Definition fresh (s : state) (key : ObjectKey) (worker : string) : Prop :=
  stale_at s key worker = now s /\ (changed s = true \/ slack s key worker = VERSION_CHECK).

Definition seen (s : state) (key : ObjectKey) (worker : string) (version : Z) : Prop :=
  match ph s with
  | WWaits until => changed s = true \/ until <= now s \/ until <= stale_at s key worker + slack s key worker
  | WReads => True
  | WAsks running => (worker, version) ∈ running \/ fresh s key worker
  | WRetires old => (worker, version) ∈ old \/ fresh s key worker
  end.

Record inv (s : state) : Prop := mkInv {
  i_late k w v : stale s k w v -> now s <= stale_at s k w + slack s k w;
  i_seen k w v : stale s k w v -> seen s k w v;
  i_until until : ph s = WWaits until -> until <= now s + VERSION_CHECK;
  i_past k w : noted_at s k <= now s /\ deployed_at s w <= now s;
}.

Lemma running_versions_elem r k e w v : objects r !! k = Some e -> runs_version w v e -> (w, v) ∈ elements (running_versions r).
Proof.
  intros Hk [Hw Hv]. apply elem_of_elements, elem_of_list_to_set, list_elem_of_omap.
  exists (k, e). split; [by apply elem_of_map_to_list|]. simpl. by rewrite Hv, Hw.
Qed.

Lemma outdated_elem table running w v : (w, v) ∈ running -> version_of table w <> Some v -> (w, v) ∈ outdated table running.
Proof.
  intros Hin Hv. apply list_elem_of_In, filter_In. split; [by apply list_elem_of_In|]. apply negb_true_iff, bool_decide_eq_false.
  simpl. exact Hv.
Qed.

Lemma slack_bounds s k w : 0 <= slack s k w <= VERSION_CHECK.
Proof. unfold slack, VERSION_CHECK. case_match; lia. Qed.

(** A step of the loop that keeps the objects and the times. *)
Lemma versions_inv_loop s p c : inv s ->
  (forall k w v, stale s k w v -> seen (mkState (now s) (current s) (reg s) p c (noted s) (deployed s)) k w v) ->
  (forall until, p = WWaits until -> until <= now s + VERSION_CHECK) ->
  inv (mkState (now s) (current s) (reg s) p c (noted s) (deployed s)).
Proof. intros [Hl Hs Hu Hp] Hseen Huntil. by split. Qed.

Lemma versions_inv_wake s s' : inv s -> wake s = Some s' -> inv s'.
Proof.
  intros Hi E. unfold wake in E. destruct (ph s); try done.
  destruct (changed s) eqn:Ec; [|destruct (_ <=? _); [|done]]; injection E as <-; by apply versions_inv_loop.
Qed.

Lemma versions_inv_read s s' : inv s -> read s = Some s' -> inv s'.
Proof.
  intros Hi E. unfold read in E. destruct (ph s); try done.
  destruct (elements (running_versions (reg s))) as [|p l] eqn:El; injection E as <-; apply versions_inv_loop; try done.
  - intros k w v (e & He & Hr & _). exfalso. pose proof (running_versions_elem _ _ _ _ _ He Hr) as Hin.
    rewrite El in Hin. by apply not_elem_of_nil in Hin.
  - intros u [= <-]. lia.
  - intros k w v (e & He & Hr & _). left. rewrite <- El. by eapply running_versions_elem.
Qed.

Lemma versions_inv_ask s s' : inv s -> ask true s = Some s' -> inv s'.
Proof.
  intros Hi E. unfold ask in E. destruct (ph s) eqn:Ep; try done. injection E as <-. apply versions_inv_loop; try done.
  intros k w v Hst. pose proof (i_seen _ Hi k w v Hst) as Hs. unfold seen in Hs. rewrite Ep in Hs.
  destruct Hs as [Hin|Hf]; [left|by right]. destruct Hst as (e & _ & _ & Hv). by apply outdated_elem.
Qed.

Lemma stale_retire s w0 v0 k w v p :
  stale (set_watch p (set_reg (retire w0 v0 (reg s)) s)) k w v -> stale s k w v /\ (w, v) <> (w0, v0).
Proof.
  intros (e & He & Hr & Hv). simpl in He. apply map_lookup_filter_Some in He as [He Hn]. simpl in Hn.
  split; [by exists e|]. intros [= -> ->]. done.
Qed.

Lemma versions_inv_retire_one s s' : inv s -> retire_one s = Some s' -> inv s'.
Proof.
  intros Hi E. pose proof Hi as [Hl Hs Hu Hp]. unfold retire_one in E.
  destruct (ph s) as [| | |[|[w0 v0] old]] eqn:Ep; try done; injection E as <-.
  - apply versions_inv_loop; [done| |intros u [= <-]; lia]. intros k w v Hst. pose proof (Hs k w v Hst) as Hseen.
    unfold seen in Hseen. rewrite Ep in Hseen. destruct Hseen as [[]%not_elem_of_nil|[Heq [Hc|Hsl]]]; [by left|].
    do 2 right. unfold stale_at, slack, noted_at, deployed_at, told_of in *. simpl. rewrite Heq, Hsl. lia.
  - split; simpl; [| |done|done].
    + intros k w v [Hst _]%stale_retire. by eapply Hl.
    + intros k w v [Hst Hne]%stale_retire. pose proof (Hs k w v Hst) as Hseen. unfold seen in *. rewrite Ep in Hseen.
      simpl. destruct Hseen as [Hin|Hf]; [|right; exact Hf]. left. by apply elem_of_cons in Hin as [?|?].
Qed.

(** A deployment makes its objects stale at this moment, if they are. *)
Lemma versions_inv_deploy s w0 v0 told : inv s -> inv (deploy w0 v0 told s).
Proof.
  intros [Hl Hs Hu Hp].
  assert (Hsame : forall k w, w <> w0 -> stale_at (deploy w0 v0 told s) k w = stale_at s k w /\
    slack (deploy w0 v0 told s) k w = slack s k w).
  { intros k w Hw. unfold stale_at, slack, noted_at, deployed_at, told_of. simpl. by rewrite lookup_insert_ne by congruence. }
  assert (Hnow : forall k, stale_at (deploy w0 v0 told s) k w0 = now s).
  { intros k. unfold stale_at, deployed_at. simpl. rewrite lookup_insert_eq.
    destruct (Hp k w0) as [Hn _]. unfold noted_at in *. simpl. lia. }
  assert (Hfresh : forall k, fresh (deploy w0 v0 told s) k w0).
  { intros k. split; [apply Hnow|]. simpl. destruct told; [left; apply orb_true_r|right].
    unfold slack, told_of. simpl. by rewrite lookup_insert_eq. }
  assert (Hold : forall k w v, w <> w0 -> stale (deploy w0 v0 told s) k w v -> stale s k w v).
  { intros k w v Hw (e & He & Hr & Hv). exists e. split_and!; [done..|]. simpl in Hv.
    unfold version_of in *. by rewrite lookup_insert_ne in Hv by congruence. }
  split; [| |done|].
  - intros k w v Hst. destruct (decide (w = w0)) as [->|Hw].
    + rewrite Hnow. pose proof (slack_bounds (deploy w0 v0 told s) k w0). simpl. lia.
    + destruct (Hsame k w Hw) as [-> ->]. by eapply Hl, Hold.
  - intros k w v Hst. destruct (decide (w = w0)) as [->|Hw].
    + destruct (Hfresh k) as [Hf1 Hf2]. unfold seen. simpl. destruct (ph s) as [u| | |] eqn:Ep; [|done|right; by split..].
      simpl in Hf2. destruct Hf2 as [?|Hsl]; [by left|]. do 2 right. rewrite Hf1, Hsl. by apply Hu.
    + pose proof (Hs k w v (Hold k w v Hw Hst)) as Hseen. unfold seen, fresh in *. simpl.
      destruct (Hsame k w Hw) as [-> ->].
      destruct (ph s); [destruct Hseen as [Hc|?]; [left; by rewrite Hc|by right]|done|..];
        (destruct Hseen as [?|[? [Hc|?]]]; [by left|right; split; [done|left; by rewrite Hc]|right; auto]).
  - intros k w. destruct (Hp k w). unfold noted_at, deployed_at in *. simpl. split; [done|].
    destruct (decide (w = w0)) as [->|Hw]; [by rewrite lookup_insert_eq|by rewrite lookup_insert_ne by congruence].
Qed.

(** An object that notes an old version is stale from this moment. *)
Lemma versions_inv_note s k0 g v0 : inv s -> inv (note k0 g v0 s).
Proof.
  intros [Hl Hs Hu Hp].
  assert (Hsame : forall k w, k <> k0 -> stale_at (note k0 g v0 s) k w = stale_at s k w /\
    slack (note k0 g v0 s) k w = slack s k w).
  { intros k w Hk. unfold stale_at, slack, noted_at, deployed_at, told_of. simpl. by rewrite lookup_insert_ne by congruence. }
  assert (Hnew : forall w, stale_at (note k0 g v0 s) k0 w = now s /\ slack (note k0 g v0 s) k0 w = VERSION_CHECK).
  { intros w. destruct (Hp k0 w) as [_ Hd]. unfold stale_at, slack, noted_at, deployed_at, told_of in *. simpl.
    rewrite lookup_insert_eq. simpl. split; [lia|].
    rewrite (proj2 (Z.ltb_ge (now s) _)) by lia. by rewrite andb_false_r. }
  assert (Hold : forall k w v, k <> k0 -> stale (note k0 g v0 s) k w v -> stale s k w v).
  { intros k w v Hk (e & He & Hr & Hv). exists e. split_and!; [|done..]. simpl in He. unfold set_version in He.
    destruct (objects (reg s) !! k0); [|done]. destruct (_ =? _)%nat; [|done]. simpl in He.
    by rewrite lookup_insert_ne in He by congruence. }
  split; [| |done|].
  - intros k w v Hst. destruct (decide (k = k0)) as [->|Hk].
    + destruct (Hnew w) as [-> ->]. simpl. unfold VERSION_CHECK. lia.
    + destruct (Hsame k w Hk) as [-> ->]. by eapply Hl, Hold.
  - intros k w v Hst. destruct (decide (k = k0)) as [->|Hk].
    + destruct (Hnew w) as [Hn1 Hn2]. unfold seen, fresh. simpl.
      destruct (ph s) as [u| | |] eqn:Ep; [|done|right; by split; [|right]..]. do 2 right. rewrite Hn1, Hn2. by apply Hu.
    + pose proof (Hs k w v (Hold k w v Hk Hst)) as Hseen. unfold seen, fresh in *. simpl. by destruct (Hsame k w Hk) as [-> ->].
  - intros k w. destruct (Hp k w). unfold noted_at, deployed_at in *. simpl. split; [|done].
    destruct (decide (k = k0)) as [->|Hk]; [by rewrite lookup_insert_eq|by rewrite lookup_insert_ne by congruence].
Qed.

Lemma versions_inv_other s r : inv s -> no_new_version (reg s) r -> inv (set_reg r s).
Proof.
  intros [Hl Hs Hu Hp] Hno.
  assert (Hold : forall k w v, stale (set_reg r s) k w v -> stale s k w v).
  { intros k w v (e & He & [Hw Hr] & Hv). exists e. split_and!; [|done..]. destruct (Hno k e He); [congruence|done]. }
  split; [| |done|done]; intros k w v Hst; [by eapply Hl, Hold|exact (Hs k w v (Hold k w v Hst))].
Qed.

Lemma versions_inv_tick s s' : inv s -> tick s = Some s' -> inv s'.
Proof.
  intros [Hl Hs Hu Hp] E. unfold tick in E. destruct (ph s) as [u| | |] eqn:Ep; try done.
  destruct (changed s) eqn:Ec; [done|]. destruct (now s <? u) eqn:Et; [|done]. injection E as <-. apply Z.ltb_lt in Et.
  assert (Hseen : forall k w v, stale s k w v -> u <= stale_at s k w + slack s k w).
  { intros k w v Hst. pose proof (Hs k w v Hst) as H. unfold seen in H. rewrite Ep, Ec in H. destruct H as [|[|]]; [done|lia|done]. }
  split; simpl.
  - intros k w v Hst. specialize (Hseen k w v Hst). unfold stale_at, slack, noted_at, deployed_at, told_of in *. simpl. lia.
  - intros k w v Hst. unfold seen. simpl. do 2 right. exact (Hseen k w v Hst).
  - intros u' [= <-]. specialize (Hu u eq_refl). lia.
  - intros k w. destruct (Hp k w). unfold noted_at, deployed_at in *. simpl. lia.
Qed.

Lemma versions_inv_init table : inv (init t0 table).
Proof.
  split; simpl.
  - intros k w v (e & He & _). simpl in He. by rewrite lookup_empty in He.
  - intros k w v (e & He & _). simpl in He. by rewrite lookup_empty in He.
  - intros u [= <-]. lia.
  - intros k w. unfold noted_at, deployed_at. simpl. rewrite !lookup_empty. simpl. lia.
Qed.

Lemma versions_reachable table s : rtc step (init t0 table) s -> inv s.
Proof.
  apply rtc_invariant; [|apply versions_inv_init]. intros a b Hi Hst.
  destruct Hst; eauto using versions_inv_wake, versions_inv_read, versions_inv_ask, versions_inv_retire_one, versions_inv_deploy, versions_inv_note, versions_inv_other, versions_inv_tick.
Qed.
End bound.

(** ** The clock goes on *)

Lemma retires_end old s : ph s = WRetires old ->
  exists s' u, rtc step s s' /\ now s' = now s /\ changed s' = changed s /\ ph s' = WWaits u /\ now s < u.
Proof.
  revert s. induction old as [|[w v] old IH]; intros s Hp.
  - exists (set_watch (WWaits (now s + VERSION_CHECK)) s), (now s + VERSION_CHECK). split_and!; try done.
    + apply rtc_once, v_retire. unfold retire_one. by rewrite Hp.
    + unfold VERSION_CHECK. lia.
  - destruct (IH (set_watch (WRetires old) (set_reg (retire w v (reg s)) s)) eq_refl) as (s' & u & Hr & H).
    exists s', u. split; [|exact H]. eapply rtc_l; [|exact Hr]. apply v_retire. unfold retire_one. by rewrite Hp.
Qed.

Lemma reads_end s : ph s = WReads ->
  exists s' u, rtc step s s' /\ now s' = now s /\ changed s' = changed s /\ ph s' = WWaits u /\ now s < u.
Proof.
  intros Hp. destruct (elements (running_versions (reg s))) as [|p l] eqn:E.
  - exists (set_watch (WWaits (now s + VERSION_CHECK)) s), (now s + VERSION_CHECK). split_and!; try done.
    + apply rtc_once, v_read. unfold read. by rewrite Hp, E.
    + unfold VERSION_CHECK. lia.
  - set (s1 := set_watch (WAsks (p :: l)) s). set (s2 := set_watch (WRetires (outdated (current s) (p :: l))) s).
    destruct (retires_end _ s2 eq_refl) as (s' & u & Hr & H). exists s', u. split; [|exact H].
    eapply rtc_l; [apply (v_read s s1); unfold read; by rewrite Hp, E|].
    eapply rtc_l; [by apply (v_ask s1 s2)|exact Hr].
Qed.

Lemma waits_goes_on s u : ph s = WWaits u -> exists s', rtc step s s' /\ now s' = now s + 1.
Proof.
  intros Hp. assert (Hgo : forall s u, ph s = WWaits u -> changed s = false -> now s < u -> exists s', step s s' /\ now s' = now s + 1).
  { clear. intros s u Hp Hc Hu. exists (mkState (now s + 1) (current s) (reg s) (ph s) (changed s) (noted s) (deployed s)).
    split; [|done]. apply v_tick. unfold tick. rewrite Hp, Hc. simpl. by rewrite (proj2 (Z.ltb_lt _ _)). }
  destruct (decide (changed s = false /\ now s < u)) as [[Hc Hu]|Hno].
  { destruct (Hgo s u Hp Hc Hu) as (s' & Hst & Hn). exists s'. split; [by apply rtc_once|done]. }
  set (s1 := mkState (now s) (current s) (reg s) WReads false (noted s) (deployed s)).
  assert (H1 : step s s1).
  { apply v_wake. unfold wake, s1. rewrite Hp. destruct (changed s) eqn:Ec; [done|].
    rewrite (proj2 (Z.leb_le u (now s))) by (destruct (Z.le_gt_cases u (now s)); [done|exfalso; auto with lia]).
    unfold set_watch. by rewrite Ec. }
  destruct (reads_end s1 eq_refl) as (s2 & u2 & Hr & Hn & Hc & Hp2 & Hu2). simpl in Hn, Hc, Hu2.
  destruct (Hgo s2 u2 Hp2 Hc ltac:(lia)) as (s' & Hst & Hn'). exists s'. split; [|lia].
  eapply rtc_l; [exact H1|]. by eapply rtc_r.
Qed.

Lemma versions_clock s : exists s', rtc step s s' /\ now s' = now s + 1.
Proof.
  assert (Hw : forall s1 u, rtc step s s1 -> now s1 = now s -> ph s1 = WWaits u -> exists s', rtc step s s' /\ now s' = now s + 1).
  { intros s1 u Hr Hn Hp. destruct (waits_goes_on s1 u Hp) as (s' & Hr' & Hn'). exists s'. split; [by etransitivity|lia]. }
  destruct (ph s) as [u| |running|old] eqn:Ep.
  - by apply (Hw s u).
  - destruct (reads_end s Ep) as (s1 & u & Hr & Hn & _ & Hp & _). by apply (Hw s1 u).
  - set (s1 := set_watch (WRetires (outdated (current s) running)) s).
    destruct (retires_end _ s1 eq_refl) as (s2 & u & Hr & Hn & _ & Hp & _). apply (Hw s2 u); [|done|done].
    eapply rtc_l; [|exact Hr]. apply v_ask. unfold ask. by rewrite Ep.
  - destruct (retires_end _ s Ep) as (s1 & u & Hr & Hn & _ & Hp & _). by apply (Hw s1 u).
Qed.

(** ** Properties *)

(** C38. A deployment reaches the objects that run: while the table of workers
    answers, an object that takes requests on a version that is not its
    worker's is at most [VERSION_CHECK] behind the moment when it noted its
    version or the version changed, and not behind at all when the runner
    was notified of a deployment that came after the object; and the clock
    always goes on. *)
Theorem versions_converge (t0 : Z) (table : gmap string (option Z)) (s : state) :
  rtc step (init t0 table) s ->
  (forall key e worker version, objects (reg s) !! key = Some e -> runs_version worker version e ->
     version_of (current s) worker <> Some version ->
     now s <= Z.max (noted_at t0 s key) (deployed_at t0 s worker)
       + (if told_of s worker && (noted_at t0 s key <? deployed_at t0 s worker) then 0 else VERSION_CHECK)) /\
  exists s', rtc step s s' /\ now s' = now s + 1.
Proof.
  intros Hr%versions_reachable. split; [|apply versions_clock]. intros key e worker version He Hv Hc.
  apply (i_late _ _ Hr key worker version). by exists e.
Qed.

(** An object notes version 1 and its worker moves to version 2; the loop was
    not told, wakes after its sleep and retires the object. *)
Definition test_registry : Registry := mkRegistry {[("n", "o") := mkEntry 0 "w" None]} ∅ ∅ ∅ ∅.

Fixpoint ticks (n : nat) (s : state) : state :=
  match n with O => s | S n => ticks n (default s (tick s)) end.

Lemma ticks_steps n s : rtc step s (ticks n s).
Proof.
  revert s. induction n as [|n IH]; intros s; simpl; [done|]. destruct (tick s) as [s1|] eqn:E; simpl; [|apply IH].
  eapply rtc_l; [by apply v_tick|apply IH].
Qed.

Definition behind : state :=
  ticks 300 (deploy "w" (Some 2) false (note ("n", "o") 0 1 (set_reg test_registry (init 0 {["w" := Some 1]})))).

Lemma behind_steps : rtc step (init 0 {["w" := Some 1]}) behind.
Proof.
  eapply rtc_l; [apply (v_other _ test_registry)|].
  { intros k e. simpl. intros [<- <-]%lookup_singleton_Some. by left. }
  eapply rtc_l; [apply (v_note _ ("n", "o") 0 1)|]. eapply rtc_l; [apply (v_deploy _ "w" (Some 2) false)|]. apply ticks_steps.
Qed.

Lemma versions_converge_witness :
  now behind = 300 /\ objects (reg behind) !! ("n", "o") = Some (mkEntry 0 "w" (Some 1)) /\
  now behind <= Z.max (noted_at 0 behind ("n", "o")) (deployed_at 0 behind "w")
    + (if told_of behind "w" && (noted_at 0 behind ("n", "o") <? deployed_at 0 behind "w") then 0 else VERSION_CHECK).
Proof.
  split; [vm_compute; reflexivity|]. split; [vm_compute; reflexivity|].
  apply (proj1 (versions_converge 0 {["w" := Some 1]} behind behind_steps) ("n", "o") (mkEntry 0 "w" (Some 1)) "w" 1).
  - vm_compute. reflexivity.
  - by split.
  - vm_compute. discriminate.
Defined.
