(* ===== verification/Listeners.v ===== *)
(** * Sockets and certificates (src/src/ingress.rs)

    The sockets the runner binds, and what it loads for TLS. The kernel, the
    file system and rustls are parameters. *)

From S2P Require Import Prelude RustStr Extern NetGuard Addr.

(** ** TCP *)

Section tcp.
Context {K : Type}.
(** A new socket with SO_REUSEADDR and SO_REUSEPORT is bound to an address and
    listens; the answer is its local address. *)
Context (listen_on : SocketAddr -> SE K string SocketAddr).

(** The rest of the loop: [count] more listeners. *)
Fixpoint bind (addr : SocketAddr) (count : nat) : SE K string (list SocketAddr) :=
  match count with
  | O => mret []
  | S count =>
    local ← listen_on addr;
    rest ← bind local count;
    mret (local :: rest)
  end.

(** The kernel binds to the address it is given, and chooses a port for 0. *)
Hypothesis listen_local : forall addr k a k', listen_on addr k = (Ok a, k') ->
  sa_ip a = sa_ip addr /\ sa_port a <> 0 /\ (sa_port addr <> 0 -> a = addr).

Lemma bind_same addr count k l k' :
  sa_port addr <> 0 -> bind addr count k = (Ok l, k') -> l = replicate count addr.
Proof.
  intros Hp. revert k l k'. induction count as [|count IH]; intros k l k'; simpl; [by intros [= <- _]|].
  intros [(a & k1 & E1 & [(rest & k2 & E2 & E3)|(e & _ & [=])]%SE_bind_inv)|(e & _ & [=])]%SE_bind_inv.
  injection E3 as <- <-. destruct (listen_local _ _ _ _ E1) as (_ & _ & Ha). rewrite (Ha Hp) in *.
  f_equal. by eapply IH.
Qed.

(** All the listeners of a bind share one address: the one asked for, or one
    with a port the kernel chose when the port asked for is 0. *)
Theorem bind_one_address (addr : SocketAddr) (count : nat) k l k' :
  bind addr count k = (Ok l, k') ->
  exists a, l = replicate count a /\ sa_ip a = sa_ip addr /\ (sa_port addr <> 0 -> a = addr).
Proof.
  destruct count as [|count]; simpl; [intros [= <- _]; by exists addr|].
  intros [(a & k1 & E1 & [(rest & k2 & E2 & E3)|(e & _ & [=])]%SE_bind_inv)|(e & _ & [=])]%SE_bind_inv.
  injection E3 as <- <-. destruct (listen_local _ _ _ _ E1) as (Hip & Hport & Ha).
  exists a. split; [|done]. simpl. f_equal. by eapply bind_same.
Qed.
End tcp.

(** ** Unix sockets *)

Inductive file : Type := FSocket | FOther.

Inductive IoError : Type := NotFound | AlreadyExists (message : string) | IoOther (message : string).

(** The files by their path. Each call can also fail for a reason of its own: a
    right, a full disk, a path that is too long. *)
Record Files := mkFiles {
  files : gmap string file;
  metadata_fails : string -> option string;
  remove_fails : string -> option string;
  bind_fails : string -> option string }.

Definition set_files (m : gmap string file) (f : Files) : Files :=
  mkFiles m (metadata_fails f) (remove_fails f) (bind_fails f).

Definition symlink_metadata (path : string) : SE Files IoError file := fun f =>
  match metadata_fails f path with
  | Some e => (Err (IoOther e), f)
  | None => (match files f !! path with Some x => Ok x | None => Err NotFound end, f)
  end.

Definition remove_file (path : string) : SE Files IoError unit := fun f =>
  match remove_fails f path with
  | Some e => (Err (IoOther e), f)
  | None => (Ok tt, set_files (delete path (files f)) f)
  end.

(** A path that is taken stops the bind. *)
Definition listener_bind (path : string) : SE Files IoError unit := fun f =>
  match bind_fails f path, files f !! path with
  | None, None => (Ok tt, set_files (<[path := FSocket]> (files f)) f)
  | Some e, _ => (Err (IoOther e), f)
  | None, Some _ => (Err (IoOther "address already in use"), f)
  end.

Definition bind_unix (path : string) : SE Files IoError unit := fun f =>
  match symlink_metadata path f with
  | (Ok FSocket, f) => (_ ← remove_file path; listener_bind path) f
  | (Ok FOther, f) => (Err (AlreadyExists (path +:+ " is not a socket")), f)
  | (Err NotFound, f) => listener_bind path f
  | (Err e, f) => (Err e, f)
  end.

Lemma listener_bind_free path f r f' : files f !! path = None -> listener_bind path f = (r, f') ->
  files f' = files f /\ (exists e, r = Err e) \/ files f' = <[path := FSocket]> (files f) /\ r = Ok tt.
Proof.
  intros E. unfold listener_bind. rewrite E. destruct (bind_fails f path); intros [= <- <-]; simpl; eauto.
Qed.

(** A bind never takes the place of a file that is not a socket: it ends with
    the runner's socket at its path, where there was nothing or a socket that
    was left, or it fails, and then the only file that can be gone is a socket
    at its path; the other paths never change. *)
Theorem bind_unix_keeps_files (path : string) (f : Files) r f' :
  bind_unix path f = (r, f') ->
  (forall p, p <> path -> files f' !! p = files f !! p) /\
  (files f !! path = Some FOther -> f' = f) /\
  match r with
  | Ok _ => files f' !! path = Some FSocket /\ files f !! path <> Some FOther
  | Err _ => files f' !! path = files f !! path \/ files f !! path = Some FSocket /\ files f' !! path = None
  end.
Proof.
  unfold bind_unix, symlink_metadata. destruct (metadata_fails f path); [intros [= <- <-]; by eauto|].
  destruct (files f !! path) as [[]|] eqn:E.
  - unfold mbind, SE_bind, remove_file. destruct (remove_fails f path); [intros [= <- <-]; by eauto|].
    intros [[Hf [e ->]]|[Hf ->]]%listener_bind_free; [..|cbn [files set_files]; by rewrite lookup_delete_eq].
    all: rewrite Hf; cbn [files set_files]; rewrite ?lookup_insert_eq, ?lookup_delete_eq; split_and!; try done; try (by right).
    all: intros p Hp; by rewrite ?lookup_insert_ne, lookup_delete_ne by done.
  - intros [= <- <-]; by eauto.
  - intros [[Hf [e ->]]|[Hf ->]]%listener_bind_free; [..|done]; rewrite Hf, ?lookup_insert_eq; split_and!; try done; try (by left).
    intros p Hp. by rewrite lookup_insert_ne.
Qed.

(** [accept_unix]: what the listener gives, in order; an error is logged and
    followed by a pause. The connections served and the pauses made. *)
Fixpoint accept_unix {S : Type} (accepted : list (result S string)) : list S * Z :=
  match accepted with
  | [] => ([], 0)
  | Ok stream :: rest => let '(l, n) := accept_unix rest in (stream :: l, n)
  | Err _ :: rest => let '(l, n) := accept_unix rest in (l, n + 1)
  end.

(** ** TLS *)

Section tls.
Context {Cert Key : Type}.
(** The readers of PEM files, and the checks of rustls. *)
Context (pem_file_iter : string -> result (list Cert) string) (from_pem_file : string -> result Key string).
Context (root_add : Cert -> result unit string).
Context (build_verifier : list Cert -> result unit string) (single_cert : list Cert -> Key -> result unit string).

Record ServerConfig := mkServerConfig {
  chain : list Cert; key : Key;
  (** The roots of client certificates; a client without one is let in. *)
  client_roots : option (list Cert);
  alpn_protocols : list string }.

Fixpoint add_roots (roots certificates : list Cert) : result (list Cert) string :=
  match certificates with
  | [] => Ok roots
  | c :: certificates => _ <-? root_add c; add_roots (roots ++ [c]) certificates
  end.

Definition client_verifier (path : string) : result (list Cert) string :=
  certificates <-? result_map_err (fun e => "HTTPS_CLIENT_CA_FILE " +:+ path +:+ ": " +:+ e) (pem_file_iter path);
  roots <-? add_roots [] certificates;
  match roots with
  | [] => Err ("HTTPS_CLIENT_CA_FILE " +:+ path +:+ ": no certificate")
  | _ => _ <-? build_verifier roots; Ok roots
  end.

Definition tls_config (certificate key_file : string) (client_ca : option string) : result ServerConfig string :=
  chain <-? result_map_err (fun e => "HTTP_TLS_CERTIFICATE " +:+ certificate +:+ ": " +:+ e) (pem_file_iter certificate);
  key <-? result_map_err (fun e => "HTTP_TLS_KEY " +:+ key_file +:+ ": " +:+ e) (from_pem_file key_file);
  roots <-? match client_ca with
            | None => Ok None
            | Some path => roots <-? client_verifier path; Ok (Some roots)
            end;
  _ <-? single_cert chain key;
  Ok (mkServerConfig chain key roots ["h2"; "http/1.1"]).

Lemma add_roots_all roots certificates r : add_roots roots certificates = Ok r -> r = roots ++ certificates.
Proof.
  revert roots. induction certificates as [|c certificates IH]; simpl; intros roots; [intros [= <-]; by rewrite app_nil_r|].
  destruct (root_add c); [|done]. simpl. intros ->%IH. by rewrite <- app_assoc.
Qed.

(** A configuration that asks for client certificates trusts exactly the
    certificates of its file, at least one; it never falls back to asking for
    none. *)
Theorem tls_client_roots (certificate key_file : string) (client_ca : option string) (c : ServerConfig) :
  tls_config certificate key_file client_ca = Ok c ->
  match client_ca with
  | None => client_roots c = None
  | Some path => exists certs, pem_file_iter path = Ok certs /\ certs <> [] /\ client_roots c = Some certs
  end.
Proof.
  unfold tls_config. destruct (pem_file_iter certificate) as [ch|]; [|done]. simpl.
  destruct (from_pem_file key_file) as [k|]; [|done]. simpl. destruct client_ca as [path|]; simpl.
  - unfold client_verifier. destruct (pem_file_iter path) as [certs|]; [|done]. simpl.
    destruct (add_roots [] certs) as [roots|] eqn:E; [|done]. apply add_roots_all in E. simpl in *. subst roots.
    destruct certs as [|x certs]; [done|]. destruct (build_verifier _); [|done]. simpl.
    destruct (single_cert ch k); [|done]. simpl. intros [= <-]. eauto.
  - destruct (single_cert ch k); [|done]. simpl. by intros [= <-].
Qed.
End tls.

(** ** Witnesses *)

Definition test_listen (addr : SocketAddr) : SE Z string SocketAddr := fun k =>
  (Ok (mkSocketAddr (sa_ip addr) (if sa_port addr =? 0 then 40000 else sa_port addr)), k + 1).

Lemma bind_one_address_witness : exists a, replicate 3 (mkSocketAddr (V4 2130706433) 40000) = replicate 3 a /\
  sa_ip a = V4 2130706433 /\ (0 <> 0 -> a = mkSocketAddr (V4 2130706433) 0).
Proof.
  apply (bind_one_address test_listen) with (addr := mkSocketAddr (V4 2130706433) 0) (k := 0) (k' := 3).
  - intros [ip port] k a k'. unfold test_listen. intros [= <- _]. simpl. destruct (Z.eqb_spec port 0); split_and!; try done.
  - vm_compute. reflexivity.
Defined.

Definition test_files : Files := mkFiles {["run.sock" := FSocket; "notes.txt" := FOther]} (fun _ => None) (fun _ => None) (fun _ => None).

Lemma bind_unix_keeps_files_witness :
  files (bind_unix "run.sock" test_files).2 !! "notes.txt" = Some FOther /\
  (bind_unix "notes.txt" test_files).1 = Err (AlreadyExists "notes.txt is not a socket").
Proof.
  split; [|vm_compute; reflexivity].
  rewrite (proj1 (bind_unix_keeps_files "run.sock" test_files (bind_unix "run.sock" test_files).1
    (bind_unix "run.sock" test_files).2 ltac:(vm_compute; reflexivity)) "notes.txt"); [vm_compute; reflexivity|discriminate].
Defined.
