(* ===== verification/Instruments.v ===== *)
(** * What is measured, and where it goes (src/src/metrics.rs, src/src/telemetry.rs)

    The timers of requests and tasks, the points they record, and the choice
    of where logs, spans and points go. OpenTelemetry, tracing and the clock
    are parameters. Durations are in nanoseconds. *)

From S2P Require Import Prelude RustStr Metrics.

(** ** Instruments *)

Inductive instrument : Type :=
| HttpRequestsTotal | HttpRequestDuration | HttpRequestQueueTime | HttpRequestExecutionTime
| ScheduledTasksTotal | ScheduledTaskDuration | ScheduledTaskQueueTime | ScheduledTaskExecutionTime
| ErrorsTotal | LateRespondWithTotal | IsolateHeapUsed
| D1QueueTime | D1ExecutionTime | D1SnapshotsTotal | D1SnapshotDuration | D1RestoreDuration.

#[export] Instance instrument_eq_dec : EqDecision instrument.
Proof. solve_decision. Defined.

Definition instrument_name (i : instrument) : string :=
  match i with
  | HttpRequestsTotal => "http.requests.total"
  | HttpRequestDuration => "http.request.duration"
  | HttpRequestQueueTime => "http.request.queue_time"
  | HttpRequestExecutionTime => "http.request.execution_time"
  | ScheduledTasksTotal => "scheduled.tasks.total"
  | ScheduledTaskDuration => "scheduled.task.duration"
  | ScheduledTaskQueueTime => "scheduled.task.queue_time"
  | ScheduledTaskExecutionTime => "scheduled.task.execution_time"
  | ErrorsTotal => "errors.total"
  | LateRespondWithTotal => "listener.late_respond_with.total"
  | IsolateHeapUsed => "isolate.heap.used"
  | D1QueueTime => "d1.queue_time"
  | D1ExecutionTime => "d1.execution_time"
  | D1SnapshotsTotal => "d1.snapshots.total"
  | D1SnapshotDuration => "d1.snapshot.duration"
  | D1RestoreDuration => "d1.restore.duration"
  end.

Inductive unit_of : Type := NoUnit | Seconds | Bytes.

Definition instrument_unit (i : instrument) : unit_of :=
  match i with
  | HttpRequestsTotal | ScheduledTasksTotal | ErrorsTotal | LateRespondWithTotal | D1SnapshotsTotal => NoUnit
  | IsolateHeapUsed => Bytes
  | _ => Seconds
  end.

(** The boundaries of the heap's buckets, in bytes. *)
Definition heap_boundaries : list Z :=
  map (fun mib => mib * 1024 * 1024) [16; 32; 64; 96; 128; 192; 256; 384; 512].

(** ** Points *)

Inductive label_value : Type := LStr (s : string) | LBool (b : bool).

#[export] Instance label_value_eq_dec : EqDecision label_value.
Proof. solve_decision. Defined.

Definition KeyValue : Type := string * label_value.

Record point := mkPoint { p_instrument : instrument; p_value : Z; p_labels : list KeyValue }.

(** [reads] is how many times the clock was read; [ready] is whether
    [METRICS] is set; the points, oldest first. *)
Record World := mkWorld { reads : nat; ready : bool; points : list point }.

Definition emit (i : instrument) (value : Z) (labels : list KeyValue) (w : World) : World :=
  mkWorld (reads w) (ready w) (points w ++ [mkPoint i value labels]).

Record MetricsTimer := mkTimer { start : Z; worker_spawned : option Z; labels : list KeyValue }.

(** [Outcome::status] *)
Definition status (o : Outcome) : string := match o with Success => "success" | Failed _ => "error" end.

(** [Instant::duration_since] never goes below zero. *)
Definition duration_since (later earlier : Z) : Z := Z.max 0 (later - earlier).

Definition with_labels (l : list KeyValue) (t : MetricsTimer) : MetricsTimer := mkTimer (start t) (worker_spawned t) l.

Definition record_error (l : list KeyValue) (o : Outcome) (w : World) : World :=
  match o with
  | Success => w
  | Failed reason => emit ErrorsTotal 1 (l ++ [("reason", LStr reason)]) w
  end.

Section clock.
(** Whether the feature [telemetry] is on, and what the clock shows at each
    read. *)
Context (telemetry : bool) (clock : nat -> Z).

Definition instant_now (w : World) : Z * World :=
  (clock (reads w), mkWorld (S (reads w)) (ready w) (points w)).

Definition timer_new (w : World) : MetricsTimer * World :=
  let '(now, w) := instant_now w in (mkTimer now None [], w).

Definition mark_worker_spawned (t : MetricsTimer) (w : World) : MetricsTimer * World :=
  if telemetry then let '(now, w) := instant_now w in (mkTimer (start t) (Some now) (labels t), w) else (t, w).

(** What [record_http_request] and [record_scheduled_task] do, on their own
    instruments. *)
Definition record_timer (total duration queue execution : instrument) (t : MetricsTimer) (o : Outcome) (w : World) : World :=
  if negb (telemetry && ready w) then w else
  let '(now, w) := instant_now w in
  let total_duration := duration_since now (start t) in
  let l := labels t ++ [("status", LStr (status o))] in
  let w := emit total 1 l w in
  let w := emit duration total_duration l w in
  let w := match worker_spawned t with
           | Some spawned =>
             let queue_time := duration_since spawned (start t) in
             let '(now, w) := instant_now w in
             emit execution (duration_since now spawned) l (emit queue queue_time l w)
           | None => w
           end in
  record_error l o w.

Definition record_http_request : MetricsTimer -> Outcome -> World -> World :=
  record_timer HttpRequestsTotal HttpRequestDuration HttpRequestQueueTime HttpRequestExecutionTime.

Definition record_scheduled_task : MetricsTimer -> Outcome -> World -> World :=
  record_timer ScheduledTasksTotal ScheduledTaskDuration ScheduledTaskQueueTime ScheduledTaskExecutionTime.

(** A recorder does nothing without the feature or before [METRICS] is set. *)
Definition when_ready (f : World -> World) (w : World) : World := if telemetry && ready w then f w else w.

Definition record_late_respond_with (worker_id : string) (after_settle : bool) : World -> World :=
  when_ready (emit LateRespondWithTotal 1 [("worker_id", LStr worker_id); ("after_settle", LBool after_settle)]).

Definition record_d1_call (queue execution : Z) (outcome : string) : World -> World :=
  when_ready (fun w => emit D1ExecutionTime execution [("outcome", LStr outcome)]
                         (emit D1QueueTime queue [("outcome", LStr outcome)] w)).

Definition record_d1_snapshot (duration : Z) (ok : bool) : World -> World :=
  when_ready (fun w =>
    let w := emit D1SnapshotsTotal 1 [("status", LStr (if ok then "success" else "error"))] w in
    if ok then emit D1SnapshotDuration duration [] w else w).

Definition record_d1_restore (duration : Z) : World -> World := when_ready (emit D1RestoreDuration duration []).

Definition record_isolate_heap (worker_id : string) (used_bytes : Z) : World -> World :=
  when_ready (emit IsolateHeapUsed used_bytes [("worker_id", LStr worker_id)]).

(** [init_metrics]: the cell is set once. *)
Definition init_metrics (w : World) : World := mkWorld (reads w) true (points w).

(** ** Gauges *)

(** What a collection reads of the pools: [unsaved] is the age of the oldest
    unsaved commit of D1, in nanoseconds, [stats] the requests and the hits of
    the isolate pool. *)
Definition observe_pools (v8 : bool) (unsaved : option Z) (active_tasks available_permits : Z) (stats : Z * Z) :
  list (string * Z) :=
  match unsaved with Some age => [("d1.unsaved_age", age / 10 ^ 9)] | None => [] end ++
  [("worker.pool.active_tasks", active_tasks); ("worker.pool.available_permits", available_permits)] ++
  (if v8 then [("isolate.pool.requests", stats.1); ("isolate.pool.hits", stats.2)] else []).

(** ** The timers of the runner *)

(** The labels of [handle_request] and of [handle_scheduled]. *)
Definition http_labels (method worker_id user_id : string) : list KeyValue :=
  [("method", LStr method); ("worker_id", LStr worker_id); ("user_id", LStr user_id)].
Definition task_labels (worker_id user_id cron : string) : list KeyValue :=
  [("worker_id", LStr worker_id); ("user_id", LStr user_id); ("cron", LStr cron)].

Inductive kind : Type := KHttp | KTask.

(** [timers]: the requests and tasks that run; [begun] counts all of them. *)
Record state := mkState { world : World; timers : gmap Z (kind * MetricsTimer); begun : Z }.

Definition record_kind (k : kind) : MetricsTimer -> Outcome -> World -> World :=
  match k with KHttp => record_http_request | KTask => record_scheduled_task end.

Inductive other : Type :=
| OLate (worker_id : string) (after_settle : bool) | OD1Call (queue execution : Z) (outcome : string)
| OSnapshot (duration : Z) (ok : bool) | ORestore (duration : Z) | OHeap (worker_id : string) (used_bytes : Z)
| OClock.

Definition record_other (o : other) : World -> World :=
  match o with
  | OLate w a => record_late_respond_with w a
  | OD1Call q e o => record_d1_call q e o
  | OSnapshot d ok => record_d1_snapshot d ok
  | ORestore d => record_d1_restore d
  | OHeap w n => record_isolate_heap w n
  | OClock => fun w => (instant_now w).2
  end.

Inductive step : state -> state -> Prop :=
| i_new s id k : timers s !! id = None ->
  step s (mkState (timer_new (world s)).2 (<[id := (k, (timer_new (world s)).1)]> (timers s)) (begun s + 1))
| i_http_labels s id t method worker user : timers s !! id = Some (KHttp, t) ->
  step s (mkState (world s) (<[id := (KHttp, with_labels (http_labels method worker user) t)]> (timers s)) (begun s))
| i_task_labels s id t worker user cron : timers s !! id = Some (KTask, t) ->
  step s (mkState (world s) (<[id := (KTask, with_labels (task_labels worker user cron) t)]> (timers s)) (begun s))
| i_mark s id k t : timers s !! id = Some (k, t) ->
  step s (mkState (mark_worker_spawned t (world s)).2 (<[id := (k, (mark_worker_spawned t (world s)).1)]> (timers s)) (begun s))
| i_record s id k t o : timers s !! id = Some (k, t) ->
  step s (mkState (record_kind k t o (world s)) (delete id (timers s)) (begun s))
| i_other s o : step s (mkState (record_other o (world s)) (timers s) (begun s)).

(** ** What the points say *)

Definition count_of (i : instrument) (l : list point) : Z := countb (fun p => bool_decide (p_instrument p = i)) l.

(** The requests and the tasks that are counted as errors. *)
Definition failed_points (l : list point) : Z :=
  countb (fun p => bool_decide (p_instrument p = HttpRequestsTotal \/ p_instrument p = ScheduledTasksTotal) &&
                   bool_decide (("status", LStr "error") ∈ p_labels p)) l.

Definition plain_labels (l : list KeyValue) : Prop := Forall (fun kv => kv.1 <> "reason" /\ kv.1 <> "status") l.

(** The points of one record. *)
Definition timer_points (total duration queue execution : instrument) (t : MetricsTimer) (o : Outcome) (n : nat) : list point :=
  let l := labels t ++ [("status", LStr (status o))] in
  [mkPoint total 1 l; mkPoint duration (duration_since (clock n) (start t)) l] ++
  match worker_spawned t with
  | Some sp => [mkPoint queue (duration_since sp (start t)) l; mkPoint execution (duration_since (clock (S n)) sp) l]
  | None => []
  end ++
  match o with Success => [] | Failed reason => [mkPoint ErrorsTotal 1 (l ++ [("reason", LStr reason)])] end.

Lemma record_timer_points total duration queue execution t o w : telemetry && ready w = true ->
  points (record_timer total duration queue execution t o w) =
    points w ++ timer_points total duration queue execution t o (reads w).
Proof.
  intros E. unfold record_timer, timer_points. rewrite E. simpl.
  destruct (worker_spawned t), o; simpl; rewrite <- ?app_assoc; done.
Qed.

Lemma record_timer_ready total duration queue execution t o w :
  ready (record_timer total duration queue execution t o w) = ready w.
Proof. unfold record_timer. destruct (negb _), (worker_spawned t), o; done. Qed.

Lemma record_timer_reads total duration queue execution t o w :
  (reads w <= reads (record_timer total duration queue execution t o w))%nat.
Proof. unfold record_timer. destruct (negb _), (worker_spawned t), o; simpl; lia. Qed.

Lemma status_error l o : plain_labels l -> ("status", LStr "error") ∈ l ++ [("status", LStr (status o))] <-> o <> Success.
Proof.
  intros Hl. rewrite elem_of_app, list_elem_of_singleton. destruct o; simpl; split; try done; [|by right].
  intros [Hin|[=]]. by destruct (proj1 (Forall_forall _ _) Hl _ Hin) as [_ []].
Qed.

(** What the other recorders write to. *)
Definition other_instruments : list instrument :=
  [LateRespondWithTotal; IsolateHeapUsed; D1QueueTime; D1ExecutionTime; D1SnapshotsTotal; D1SnapshotDuration; D1RestoreDuration].

Lemma other_points o w : exists l, points (record_other o w) = points w ++ l /\ ready (record_other o w) = ready w /\
  (reads w <= reads (record_other o w))%nat /\
  Forall (fun p => p_instrument p ∈ other_instruments /\ "reason" ∉ (p_labels p).*1) l.
Proof.
  assert (Hnil : forall l : list point, l = l ++ []) by (intros; by rewrite app_nil_r).
  destruct o; simpl; unfold record_late_respond_with, record_d1_call, record_d1_snapshot, record_d1_restore,
    record_isolate_heap, when_ready; try destruct ok; try destruct (telemetry && ready w);
    eexists; simpl; rewrite <- ?app_assoc; (split_and!; [first [reflexivity|apply Hnil]|done|lia|]).
  all: repeat apply Forall_cons_2; [..|apply Forall_nil_2]; split; apply (bool_decide_eq_true_1 _); reflexivity.
Qed.
End clock.

(** ** A runner that exports *)

Section exported.
Context (clock : nat -> Z) (clock_mono : forall m n, (m <= n)%nat -> clock m <= clock n).

(** [w] is [w0] and more points, all later. *)
Definition timer_fits (w : World) (t : MetricsTimer) : Prop :=
  plain_labels (labels t) /\ start t <= clock (reads w) /\
  match worker_spawned t with Some sp => start t <= sp <= clock (reads w) | None => True end.

Record counted (l : list point) : Prop := mkCounted {
  c_errors : count_of ErrorsTotal l = failed_points l;
  c_http : count_of HttpRequestDuration l = count_of HttpRequestsTotal l;
  c_tasks : count_of ScheduledTaskDuration l = count_of ScheduledTasksTotal l;
  c_reason : forall p, p ∈ l -> "reason" ∈ (p_labels p).*1 -> p_instrument p = ErrorsTotal;
}.

Record inv (s : state) : Prop := mkInv {
  i_ready : ready (world s) = true;
  i_counted : counted (points (world s));
  i_begun : begun s = count_of HttpRequestsTotal (points (world s)) + count_of ScheduledTasksTotal (points (world s))
                      + Z.of_nat (size (timers s));
  i_fits id k t : timers s !! id = Some (k, t) -> timer_fits (world s) t;
}.

Lemma counted_app l l' : counted l -> counted l' -> counted (l ++ l').
Proof.
  unfold count_of, failed_points. intros [H1 H2 H3 H4] [H1' H2' H3' H4']. unfold count_of, failed_points in *.
  split; unfold count_of, failed_points; rewrite ?countb_app; [congruence..|].
  intros p [?|?]%elem_of_app; eauto.
Qed.

Lemma timer_fits_later w w' t : (reads w <= reads w')%nat -> timer_fits w t -> timer_fits w' t.
Proof.
  intros Hr (Hp & Hs & Hw). pose proof (clock_mono _ _ Hr). unfold timer_fits. split_and!; [done|lia|].
  destruct (worker_spawned t); [lia|done].
Qed.

Definition kind_points (k : kind) (t : MetricsTimer) (o : Outcome) (n : nat) : list point :=
  match k with
  | KHttp => timer_points clock HttpRequestsTotal HttpRequestDuration HttpRequestQueueTime HttpRequestExecutionTime t o n
  | KTask => timer_points clock ScheduledTasksTotal ScheduledTaskDuration ScheduledTaskQueueTime ScheduledTaskExecutionTime t o n
  end.

Lemma plain_no_reason l o : plain_labels l -> "reason" ∉ (l ++ [("status", LStr (status o))]).*1.
Proof.
  intros Hl [[k v] [Hk Hin]]%list_elem_of_fmap. simpl in Hk. subst k.
  apply elem_of_app in Hin as [Hin|[=]%list_elem_of_singleton].
  by destruct (proj1 (Forall_forall _ _) Hl _ Hin) as [[] _].
Qed.

Lemma kind_points_counted k t o n : plain_labels (labels t) ->
  counted (kind_points k t o n) /\
  count_of HttpRequestsTotal (kind_points k t o n) + count_of ScheduledTasksTotal (kind_points k t o n) = 1.
Proof.
  intros Hl. pose proof (status_error (labels t) o Hl) as Hst. pose proof (plain_no_reason (labels t) o Hl) as Hno.
  unfold kind_points, timer_points. set (ls := labels t ++ _) in *.
  split; [split|].
  - assert (Hb : bool_decide (("status", LStr "error") ∈ ls) = match o with Success => false | Failed _ => true end).
    { destruct o; [apply bool_decide_eq_false_2; tauto|by apply bool_decide_eq_true_2, Hst]. }
    unfold count_of, failed_points. destruct k, (worker_spawned t), o; cbn [app countb p_instrument p_labels]; rewrite !Hb; done.
  - unfold count_of. destruct k, (worker_spawned t), o; done.
  - unfold count_of. destruct k, (worker_spawned t), o; done.
  - intros p Hp Hr. destruct k, (worker_spawned t), o; simpl in Hp;
      repeat (apply elem_of_cons in Hp as [->|Hp]; [simpl in Hr; first [done|by destruct (Hno Hr)]|]);
      by apply not_elem_of_nil in Hp.
  - unfold count_of. destruct k, (worker_spawned t), o; done.
Qed.

Lemma record_kind_points k t o w : ready w = true ->
  points (record_kind true clock k t o w) = points w ++ kind_points k t o (reads w) /\
  ready (record_kind true clock k t o w) = true /\ (reads w <= reads (record_kind true clock k t o w))%nat.
Proof.
  intros E. destruct k; simpl; unfold record_http_request, record_scheduled_task;
    (split_and!; [by apply record_timer_points|by rewrite record_timer_ready|apply record_timer_reads]).
Qed.

Lemma others_counted l :
  Forall (fun p => p_instrument p ∈ other_instruments /\ "reason" ∉ (p_labels p).*1) l ->
  counted l /\ count_of HttpRequestsTotal l = 0 /\ count_of ScheduledTasksTotal l = 0.
Proof.
  intros Hl.
  assert (Hz : forall i, i ∉ other_instruments -> count_of i l = 0).
  { intros i Hi. unfold count_of. rewrite (countb_ext _ (fun _ => false)); [by clear; induction l|].
    intros p [Hp _]%(proj1 (Forall_forall _ _) Hl). apply bool_decide_eq_false_2. by intros <-. }
  assert (Hf : failed_points l = 0).
  { unfold failed_points. rewrite (countb_ext _ (fun _ => false)); [by clear; induction l|].
    intros p [Hp _]%(proj1 (Forall_forall _ _) Hl). rewrite (bool_decide_eq_false_2 (_ \/ _)); [done|].
    intros [Hi|Hi]; rewrite Hi in Hp; by apply (bool_decide_eq_true_2 _) in Hp. }
  split_and!; [split|..]; rewrite ?Hf, ?Hz by (apply (bool_decide_eq_true_1 _); reflexivity); try done.
  intros p Hp Hr. by destruct (proj1 (Forall_forall _ _) Hl p Hp) as [_ []].
Qed.

Lemma timer_points_size m id k t : m !! id = Some (k, t) ->
  Z.of_nat (size (delete id m : gmap Z (kind * MetricsTimer))) = Z.of_nat (size m) - 1.
Proof.
  intros E. clear clock_mono. rewrite (map_size_delete_Some id m) by eauto.
  assert (size m <> 0%nat); [|lia]. apply map_size_non_empty_iff. intros ->. by rewrite lookup_empty in E.
Qed.

(** A step that keeps the points and replaces or adds one timer. *)
Lemma points_inv_timer s w id k t n : inv s -> (reads (world s) <= reads w)%nat -> ready w = true -> points w = points (world s) ->
  timer_fits w t ->
  n = begun s + (if decide (is_Some (timers s !! id)) then 0 else 1) -> inv (mkState w (<[id := (k, t)]> (timers s)) n).
Proof.
  intros [Hr Hc Hb Hf] Hle Hw Hp Ht ->. split; simpl; [done|by rewrite Hp| |].
  - rewrite Hp, map_size_insert. case_decide as Hd.
    + destruct Hd as [x ->]. simpl. lia.
    + destruct (timers s !! id); [by destruct Hd|]. simpl. lia.
  - intros id' k' t'. destruct (decide (id' = id)) as [->|Hne].
    + rewrite lookup_insert_eq. by intros [= <- <-].
    + rewrite lookup_insert_ne by done. intros Hl. eapply timer_fits_later; eauto.
Qed.

Lemma timer_new_fits w : timer_fits (timer_new clock w).2 (timer_new clock w).1.
Proof. split_and!; simpl; [constructor|apply clock_mono; lia|done]. Qed.

Lemma points_inv_step s s' : inv s -> step true clock s s' -> inv s'.
Proof.
  intros Hi Hst. pose proof Hi as [Hr Hc Hb Hf]. destruct Hst as [s id k E|s id t ? ? ? E|s id t ? ? ? E|s id k t E|s id k t o E|s o].
  - apply points_inv_timer; [done|simpl; lia|done..|apply timer_new_fits|]. rewrite decide_False by (rewrite E; by intros [? [=]]). lia.
  - apply points_inv_timer; [done|lia|done..| |rewrite decide_True by (rewrite E; eauto); lia].
    destruct (Hf _ _ _ E) as (_ & H). split; [|exact H]. repeat constructor; done.
  - apply points_inv_timer; [done|lia|done..| |rewrite decide_True by (rewrite E; eauto); lia].
    destruct (Hf _ _ _ E) as (_ & H). split; [|exact H]. repeat constructor; done.
  - apply points_inv_timer; [done|simpl; lia|done..| |rewrite decide_True by (rewrite E; eauto); lia].
    destruct (Hf _ _ _ E) as (Hl & Hs & _). pose proof (clock_mono (reads (world s)) (S (reads (world s))) ltac:(lia)).
    split_and!; simpl; [done|lia..].
  - destruct (record_kind_points k t o (world s) Hr) as (Hp & Hr' & Hle).
    destruct (kind_points_counted k t o (reads (world s)) (proj1 (Hf _ _ _ E))) as [Hk H1].
    split; simpl; [done|rewrite Hp; by apply counted_app| |].
    + rewrite Hp, (timer_points_size _ _ _ _ E). unfold count_of in *. rewrite !countb_app. lia.
    + intros id' k' t' [_ Hl]%lookup_delete_Some. eapply timer_fits_later; eauto.
  - destruct (other_points true clock o (world s)) as (l & Hp & Hr' & Hle & Hl).
    destruct (others_counted l Hl) as (Hk & H1 & H2).
    split; simpl; [by rewrite Hr'|rewrite Hp; by apply counted_app| |].
    + rewrite Hp. unfold count_of in *. rewrite !countb_app. lia.
    + intros id' k' t' E. eapply timer_fits_later; eauto.
Qed.

Definition init : state := mkState (init_metrics (mkWorld 0 false [])) ∅ 0.

Lemma points_inv_reachable s : rtc (step true clock) init s -> inv s.
Proof.
  apply rtc_invariant; [apply points_inv_step|]. split; try done. split; try done. intros p Hp. by apply not_elem_of_nil in Hp.
Qed.

(** The points agree with each other at any moment, whatever runs at the same
    time: every request and task that began is counted once, in its total and
    with one duration, or still runs; the errors are exactly the requests and
    tasks whose status is an error; and the reason of an error is a label of
    no other instrument. *)
Theorem metrics_agree (s : state) : rtc (step true clock) init s ->
  begun s = count_of HttpRequestsTotal (points (world s)) + count_of ScheduledTasksTotal (points (world s))
            + Z.of_nat (size (timers s)) /\
  count_of HttpRequestDuration (points (world s)) = count_of HttpRequestsTotal (points (world s)) /\
  count_of ScheduledTaskDuration (points (world s)) = count_of ScheduledTasksTotal (points (world s)) /\
  count_of ErrorsTotal (points (world s)) = failed_points (points (world s)) /\
  forall p, p ∈ points (world s) -> "reason" ∈ (p_labels p).*1 -> p_instrument p = ErrorsTotal.
Proof. intros [_ [H1 H2 H3 H4] Hb _]%points_inv_reachable. done. Qed.

(** The record of a request that reached a worker: its wait and its run cover
    the duration it reports, for the clock does not go back. *)
Theorem phases_cover (s : state) (id : Z) (t : MetricsTimer) (spawned : Z) (o : Outcome) :
  rtc (step true clock) init s -> timers s !! id = Some (KHttp, t) -> worker_spawned t = Some spawned ->
  exists l total queue execution rest,
    points (record_http_request true clock t o (world s)) = points (world s) ++
      [mkPoint HttpRequestsTotal 1 l; mkPoint HttpRequestDuration total l;
       mkPoint HttpRequestQueueTime queue l; mkPoint HttpRequestExecutionTime execution l] ++ rest /\
    0 <= queue <= total /\ total <= queue + execution.
Proof.
  intros Hi%points_inv_reachable E Hs. destruct (i_fits _ Hi _ _ _ E) as (_ & H1 & H2). rewrite Hs in H2.
  pose proof (clock_mono (reads (world s)) (S (reads (world s))) ltac:(lia)).
  unfold record_http_request. rewrite record_timer_points by (by rewrite (i_ready _ Hi)). unfold timer_points. rewrite Hs.
  do 5 eexists. split; [reflexivity|]. unfold duration_since. lia.
Qed.
End exported.

(** No two instruments share a name. *)
Lemma instrument_name_inj i j : instrument_name i = instrument_name j -> i = j.
Proof. by destruct i, j. Qed.
