(* ===== verification/Telemetry.v ===== *)
(** * Where logs, spans and metrics go (src/src/telemetry.rs)

    What [telemetry::init] reads from the environment and installs. The
    exporters, the metadata types of gRPC and the filters of log lines are
    parameters. *)

From S2P Require Import Prelude RustStr.

Inductive layer : Type := EnvLogger | Filter (directives : string) | Fmt | Spans | Logs.

Record ExporterConfig := mkExporter { endpoint : string; metadata : gmap string string; tls : bool }.

Record Resource := mkResource { service_name : string; service_version : string; instance_id : string }.

(** What is global to the process: the two providers, each with its exporter,
    the cell of the metrics, and the subscribers that were installed. *)
Record Setup := mkSetup {
  tracer : option (Resource * ExporterConfig); meter : option (Resource * ExporterConfig);
  metrics_ready : bool; subscribers : list (list layer) }.

Definition set_tracer_provider (r : Resource) (c : ExporterConfig) (s : Setup) : Setup :=
  mkSetup (Some (r, c)) (meter s) (metrics_ready s) (subscribers s).
Definition set_meter_provider (r : Resource) (c : ExporterConfig) (s : Setup) : Setup :=
  mkSetup (tracer s) (Some (r, c)) (metrics_ready s) (subscribers s).
Definition set_metrics_ready (s : Setup) : Setup := mkSetup (tracer s) (meter s) true (subscribers s).
Definition install (l : list layer) (s : Setup) : Setup :=
  mkSetup (tracer s) (meter s) (metrics_ready s) (subscribers s ++ [l]).

Section telemetry.
(** The keys and values that gRPC metadata takes, with the form of a key. *)
Context (metadata_key : string -> option string) (metadata_value : string -> bool).
(** The exporters, which can fail to build. *)
Context (span_exporter log_exporter metric_exporter : ExporterConfig -> result unit string).
Context (valid_filter : string -> bool).
Context (telemetry : bool) (env : string -> option string) (uuid version : string).

(** One header of [OTLP_HEADERS]. *)
Definition parse_header (header : string) : option (string * string) :=
  match split_once "=" (trim header) with
  | Some (key, value) =>
    let key := trim key in
    let value := trim value in
    match metadata_key key with
    | Some k => if metadata_value value then Some (k, value) else None
    | None => None
    end
  | None => None
  end.

Definition insert_header (m : gmap string string) (header : string) : gmap string string :=
  match parse_header header with Some (k, v) => <[k := v]> m | None => m end.

Definition parse_headers (headers : option string) : gmap string string :=
  match headers with
  | Some s => foldl insert_header ∅ (split "," s)
  | None => ∅
  end.

Definition env_filter : layer :=
  match env "RUST_LOG" with
  | Some directives => if valid_filter directives then Filter directives else Filter "info"
  | None => Filter "info"
  end.

Definition init_console : Setup -> Setup := install [env_filter; Fmt].

Definition otel_resource : Resource :=
  mkResource (default "openworkers-runner" (env "OTLP_SERVICE_NAME")) version (String.substring 0 8 uuid).

Definition otel_config (otlp_endpoint : string) : ExporterConfig :=
  mkExporter otlp_endpoint (parse_headers (env "OTLP_HEADERS")) (starts_with "https://" otlp_endpoint).

Definition init_otel : SE Setup string unit := fun s =>
  match env "OTLP_ENDPOINT" with
  | None => (Err "environment variable not found", s)
  | Some otlp_endpoint =>
    let config := otel_config otlp_endpoint in
    match span_exporter config with
    | Err e => (Err e, s)
    | Ok _ =>
      let s := set_tracer_provider otel_resource config s in
      match log_exporter config with
      | Err e => (Err e, s)
      | Ok _ =>
        match metric_exporter config with
        | Err e => (Err e, s)
        | Ok _ =>
          let s := set_meter_provider otel_resource config s in
          let s := set_metrics_ready s in
          (Ok tt, install [env_filter; Fmt; Spans; Logs] s)
        end
      end
    end
  end.

Definition init (s : Setup) : Setup :=
  if negb telemetry then install [EnvLogger] s
  else if bool_decide (is_Some (env "OTLP_ENDPOINT"))
       then match init_otel s with
            | (Ok _, s) => s
            | (Err _, s) => init_console s
            end
       else init_console s.

(** ** Properties *)

Definition fresh_process : Setup := mkSetup None None false [].

(** The exporters of an endpoint all build. *)
Definition exports (e : string) : Prop :=
  is_ok (span_exporter (otel_config e)) && is_ok (log_exporter (otel_config e)) && is_ok (metric_exporter (otel_config e)) = true.

(** The process always ends with exactly one subscriber, which writes to the
    console; it exports spans and logs, and the metrics are counted, if and
    only if an endpoint is set and its three exporters build, and then all of
    them have that endpoint, the headers of the environment, and TLS exactly
    for [https]. *)
Theorem init_installs_one :
  exists l, subscribers (init fresh_process) = [l] /\ (Fmt ∈ l \/ l = [EnvLogger]) /\
    (Spans ∈ l <-> metrics_ready (init fresh_process) = true) /\ (Logs ∈ l <-> metrics_ready (init fresh_process) = true) /\
    (metrics_ready (init fresh_process) = true <-> telemetry = true /\ exists e, env "OTLP_ENDPOINT" = Some e /\ exports e) /\
    (metrics_ready (init fresh_process) = true ->
     exists e, env "OTLP_ENDPOINT" = Some e /\
       meter (init fresh_process) = Some (otel_resource, otel_config e) /\
       tracer (init fresh_process) = Some (otel_resource, otel_config e) /\
       tls (otel_config e) = starts_with "https://" e).
Proof.
  assert (Hf : exists d, env_filter = Filter d).
  { unfold env_filter. destruct (env "RUST_LOG"); [case_match|]; eauto. }
  destruct Hf as [d Hf]. unfold init, init_otel, init_console, exports. rewrite Hf. clear Hf.
  destruct telemetry; simpl; [|eexists; split; [reflexivity|]; set_solver].
  destruct (env "OTLP_ENDPOINT") as [e|]; simpl; [|eexists; split; [reflexivity|]; set_solver].
  destruct (span_exporter (otel_config e)) eqn:E1; simpl.
  2: { eexists; split; [reflexivity|]. split_and!; [set_solver..| |done]. split; [done|]. intros (_ & e' & [= <-] & H). by rewrite E1 in H. }
  destruct (log_exporter (otel_config e)) eqn:E2; simpl.
  2: { eexists; split; [reflexivity|]. split_and!; [set_solver..| |done]. split; [done|]. intros (_ & e' & [= <-] & H). by rewrite E1, E2 in H. }
  destruct (metric_exporter (otel_config e)) eqn:E3; simpl.
  2: { eexists; split; [reflexivity|]. split_and!; [set_solver..| |done]. split; [done|]. intros (_ & e' & [= <-] & H). by rewrite E1, E2, E3 in H. }
  eexists; split; [reflexivity|]. split_and!; [set_solver..| |eauto]. split; [|done]. intros _. split; [done|]. exists e. by rewrite E1, E2, E3.
Qed.

(** A header that [OTLP_HEADERS] can carry. *)
Definition plain_header (kv : string * string) : Prop :=
  metadata_key kv.1 = Some kv.1 /\ metadata_value kv.2 = true /\ contains_char "=" kv.1 = false /\
  contains_char "," (kv.1 +:+ "=" +:+ kv.2) = false /\
  trim kv.1 = kv.1 /\ trim kv.2 = kv.2 /\ trim (kv.1 +:+ "=" +:+ kv.2) = kv.1 +:+ "=" +:+ kv.2.

Definition show_header (kv : string * string) : string := kv.1 +:+ "=" +:+ kv.2.

Lemma split_once_sep c a b : contains_char c a = false -> split_once c (a +:+ String c b) = Some (a, b).
Proof.
  intros Ha. apply split_once_Some. done.
Qed.

Lemma parse_show kv : plain_header kv -> parse_header (show_header kv) = Some kv.
Proof.
  destruct kv as [k v]. intros (H1 & H2 & H3 & _ & H5 & H6 & H7). unfold parse_header, show_header. cbn [fst snd] in *.
  rewrite H7. change ("=" +:+ v) with (String "=" v). rewrite split_once_sep by done. cbv zeta. rewrite H5, H6, H1, H2. done.
Qed.

Lemma split_headers l : Forall plain_header l -> l <> [] -> split "," (str_join "," (map show_header l)) = map show_header l.
Proof.
  induction l as [|kv l IH]; [done|]. intros [(_ & _ & _ & Hc & _) Hl]%Forall_cons _.
  destruct l as [|kv' l]; [simpl; by apply split_none|].
  change (map show_header (kv :: kv' :: l)) with (show_header kv :: map show_header (kv' :: l)).
  rewrite str_join_cons by done. change ("," +:+ ?x) with (String "," x). rewrite split_app by done. f_equal. by apply IH.
Qed.

Lemma insert_headers l m : Forall plain_header l ->
  foldl insert_header m (map show_header l) = foldl (fun m kv => <[kv.1 := kv.2]> m) m l.
Proof.
  revert m. induction l as [|kv l IH]; intros m; [done|]. intros [Hk Hl]%Forall_cons. simpl.
  unfold insert_header at 2. rewrite (parse_show kv Hk). destruct kv. by apply IH.
Qed.

(** The headers an operator writes are the headers of every export: the
    parser gives back the pairs that were joined, the last one of a key that
    is given twice. *)
Theorem headers_roundtrip (l : list (string * string)) : Forall plain_header l ->
  parse_headers (Some (str_join "," (map show_header l))) = foldl (fun m kv => <[kv.1 := kv.2]> m) ∅ l.
Proof.
  intros Hl. unfold parse_headers. destruct l as [|kv l].
  - vm_compute. reflexivity.
  - rewrite split_headers by done. by apply insert_headers.
Qed.
End telemetry.

(** ** Witnesses *)

Lemma headers_roundtrip_witness :
  parse_headers Some (fun _ => true) (Some "api-key=s3cr3t==,env=prod") = {["api-key" := "s3cr3t=="; "env" := "prod"]}.
Proof.
  etransitivity; [exact (headers_roundtrip Some (fun _ => true) [("api-key", "s3cr3t=="); ("env", "prod")]
    ltac:(repeat constructor))|vm_compute; reflexivity].
Defined.
