(* ===== verification/DurableCalls.v ===== *)
(** * Calls of Durable Objects (src/src/durable/mod.rs)

    [send], [alarm] and [socket_event] put an event in the mailbox of an
    object and wait for its answer, while the registry, the objects and other
    callers go on. An event is taken by its object, which answers it or drops
    it; a mailbox that is dropped drops its events. A caller can be cancelled
    at any moment. *)

From S2P Require Import Prelude RustStr Extern CodeCache Store DurableRegistry.

(** An event, with the call whose answer it carries. *)
Inductive ObjectEvent : Type :=
| Fetch (call : nat) | Alarm (call : nat) (retry_count : Z) | Socket (event : string).

Definition call_of (e : ObjectEvent) : option nat :=
  match e with Fetch c | Alarm c _ => Some c | Socket _ => None end.

Inductive AlarmError : Type := ARefused (message : string) | AFailed (message : string).

(** What a caller gets: a response with its status and whether it carries a
    socket, or the end of an alarm. *)
Inductive outcome : Type := OSend (r : result (Z * bool) string) | OAlarm (r : result unit AlarmError).

(** What an object answers. *)
Inductive answer : Type := Response (status : Z) | AlarmDone (r : result unit string).

Inductive call_kind : Type := CSend (upgrades : bool) | CAlarm.

(** A caller that waits: the guard of its depth is in the object [c_generation]. *)
Record Caller := mkCaller { c_kind : call_kind; c_generation : nat; c_depth : Z }.

(** [depths]: the [CallDepths] of each generation. [taken]: the events that
    objects have. [settled]: the calls that were answered ([Some]) or whose
    event was dropped. [returned]: what the callers got. *)
Record state := mkState {
  registry : @DurableRegistry.state ObjectEvent; depths : gmap nat (list Z); next : nat;
  callers : gmap nat Caller; taken : gset nat; settled : gmap nat (option answer); returned : gmap nat outcome }.

Definition depths_of (s : state) (g : nat) : list Z := default [] (depths s !! g).

Definition set_registry r (s : state) : state :=
  mkState r (depths s) (next s) (callers s) (taken s) (settled s) (returned s).
Definition set_depths d (s : state) : state :=
  mkState (registry s) d (next s) (callers s) (taken s) (settled s) (returned s).
Definition set_callers m (s : state) : state :=
  mkState (registry s) (depths s) (next s) m (taken s) (settled s) (returned s).
Definition set_settled m (s : state) : state :=
  mkState (registry s) (depths s) (next s) (callers s) (taken s) m (returned s).
Definition set_taken x (s : state) : state :=
  mkState (registry s) (depths s) (next s) (callers s) x (settled s) (returned s).
Definition new_call (s : state) : state :=
  mkState (registry s) (depths s) (S (next s)) (callers s) (taken s) (settled s) (returned s).
Definition return_ (c : nat) (o : outcome) (s : state) : state :=
  mkState (registry s) (depths s) (next s) (delete c (callers s)) (taken s) (settled s) (<[c := o]> (returned s)).

(** [admit]: the event in a mailbox, and the guard of its depth. *)
Definition admit_call (ns : NamespaceConfig) (id : string) (depth : Z) (event : ObjectEvent) (s : state) :
  result (nat * Z) string * state :=
  match admit_event ns id event (registry s) with
  | (Err e, r) => (Err e, set_registry r s)
  | (Ok g, r) => (Ok (g, depth), set_depths (<[g := enter depth (depths_of s g)]> (depths s)) (set_registry r s))
  end.

(** The drop of a guard; [None] is its panic. *)
Definition drop_entered (guard : nat * Z) (s : state) : option state :=
  l ← drop_guard guard.2 (depths_of s guard.1);
  Some (set_depths (<[guard.1 := l]> (depths s)) s).

Definition upgrades (headers : list (string * string)) : bool :=
  existsb (fun '(name, value) => eq_ignore_ascii_case name "upgrade" && eq_ignore_ascii_case value "websocket") headers.

(** [send] and [alarm] up to their wait. *)
Definition send_start (ns : NamespaceConfig) (id : string) (depth : Z) (headers : list (string * string)) (s : state) : state :=
  let c := next s in
  match admit_call ns id depth (Fetch c) (new_call s) with
  | (Err e, s) => return_ c (OSend (Err e)) s
  | (Ok (g, d), s) => set_callers (<[c := mkCaller (CSend (upgrades headers)) g d]> (callers s)) s
  end.

Definition alarm_start (ns : NamespaceConfig) (id : string) (retry_count : Z) (s : state) : state :=
  let c := next s in
  match admit_call ns id 0 (Alarm c retry_count) (new_call s) with
  | (Err e, s) => return_ c (OAlarm (Err (ARefused e))) s
  | (Ok (g, d), s) => set_callers (<[c := mkCaller CAlarm g d]> (callers s)) s
  end.

Definition socket_event (ns : NamespaceConfig) (id event : string) (s : state) : option (result unit string * state) :=
  match admit_call ns id 0 (Socket event) s with
  | (Err e, s) => Some (Err e, s)
  | (Ok guard, s) => s ← drop_entered guard s; Some (Ok tt, s)
  end.

(** What a caller makes of the end of its channel. *)
Definition outcome_of (k : call_kind) (a : option answer) : outcome :=
  match k, a with
  | CSend u, Some (Response status) => OSend (Ok (status, u && (status =? 101)))
  | CSend _, _ => OSend (Err "the Durable Object stopped")
  | CAlarm, Some (AlarmDone (Ok tt)) => OAlarm (Ok tt)
  | CAlarm, Some (AlarmDone (Err e)) => OAlarm (Err (AFailed e))
  | CAlarm, _ => OAlarm (Err (AFailed "the Durable Object stopped"))
  end.

(** The end of [send] and of [alarm]. *)
Definition finish (c : nat) (s : state) : option state :=
  caller ← callers s !! c;
  a ← settled s !! c;
  s' ← drop_entered (c_generation caller, c_depth caller) s;
  Some (return_ c (outcome_of (c_kind caller) a) s').

(** The future of a caller is dropped. *)
Definition cancel (c : nat) (s : state) : option state :=
  caller ← callers s !! c;
  s' ← drop_entered (c_generation caller, c_depth caller) s;
  Some (set_callers (delete c (callers s')) s').

(** An object takes the first event of its mailbox. *)
Definition take (g : nat) (s : state) : option state :=
  t ← tasks (registry s) !! g;
  match t_phase t, t_mail t with
  | Serving, event :: m =>
    Some (set_taken (match call_of event with Some c => {[c]} | None => ∅ end ∪ taken s)
            (set_registry (with_task g (set_mail m t) (registry s)) s))
  | _, _ => None
  end.

Definition settle (c : nat) (a : option answer) (s : state) : state :=
  set_taken (taken s ∖ {[c]}) (set_settled (<[c := a]> (settled s)) s).

(** The answer of an object fits the event it took. *)
Definition answers (k : call_kind) (a : answer) : bool :=
  match k, a with CSend _, Response _ | CAlarm, AlarmDone _ => true | _, _ => false end.

(** A call whose event is in the mailbox of [g]. *)
Definition mail_has (r : @DurableRegistry.state ObjectEvent) (g c : nat) : Prop :=
  exists t e, tasks r !! g = Some t /\ e ∈ t_mail t /\ call_of e = Some c.

(** The mailbox of [g] was dropped. *)
Definition mail_lost (r : @DurableRegistry.state ObjectEvent) (g : nat) : Prop :=
  exists t, tasks r !! g = Some t /\ t_open t = false.

Definition same_mail (r r' : @DurableRegistry.state ObjectEvent) : Prop :=
  forall g, t_mail <$> tasks r' !! g = t_mail <$> tasks r !! g.

Inductive step : state -> state -> Prop :=
| c_send s ns id depth headers : step s (send_start ns id depth headers s)
| c_alarm s ns id retry : step s (alarm_start ns id retry s)
| c_socket s ns id event a s' : socket_event ns id event s = Some (a, s') -> step s s'
| c_registry s r : DurableRegistry.step (registry s) r -> same_mail (registry s) r -> step s (set_registry r s)
| c_take s g s' : take g s = Some s' -> step s s'
| c_answer s c a : c ∈ taken s -> (forall x, callers s !! c = Some x -> answers (c_kind x) a = true) -> step s (settle c (Some a) s)
| c_dropped s c : c ∈ taken s -> step s (settle c None s)
| c_lost s g c : mail_has (registry s) g c -> mail_lost (registry s) g -> step s (set_settled (<[c := None]> (settled s)) s)
| c_finish s c s' : finish c s = Some s' -> step s s'
| c_cancel s c s' : cancel c s = Some s' -> step s s'.

Definition init : state := mkState DurableRegistry.init ∅ 0 ∅ ∅ ∅ ∅.

(** ** Mailboxes *)

Lemma admit_event_mail ns id event r a r' : admit_event ns id event r = (a, r') ->
  match a with
  | Ok g => forall g' c, mail_has r' g' c <-> mail_has r g' c \/ g' = g /\ call_of event = Some c
  | Err _ => r' = r
  end.
Proof.
  unfold admit_event. case_bool_decide; [by intros [= <- <-]|].
  match goal with |- context [match ?o with Some _ => _ | None => _ end] => destruct o as [[g t]|] eqn:Eo end.
  - intros [= <- <-]. apply option_Some_bind in Eo as (e & _ & Eo). apply option_Some_bind in Eo as (t' & Et & Eo).
    destruct (t_open t'); [|done]. injection Eo as <- <-. intros g' c. unfold mail_has. simpl.
    destruct (decide (g' = e_generation e)) as [->|Hne].
    + rewrite list_lookup_insert_eq by (by eapply lookup_lt_Some). split.
      * intros (t & ev & [= <-] & Hin & Hc). simpl in Hin. apply elem_of_app in Hin as [Hin| ->%list_elem_of_singleton]; [left; eauto|by right].
      * intros [(t & ev & Ht & Hin & Hc)|[_ Hc]]; (eexists _, _; split; [reflexivity|]); simpl.
        -- assert (t = t') as -> by congruence. split; [apply elem_of_app; by left|done].
        -- split; [apply elem_of_app; right; by apply list_elem_of_singleton|done].
    + rewrite list_lookup_insert_ne by done. split; [by left|]. by intros [?|[-> _]].
  - destruct (_ <=? _); intros [= <- <-]; [done|]. intros g' c. unfold mail_has. simpl. split.
    + intros (t & ev & Ht & Hin & Hc). apply lookup_snoc_Some in Ht as [[_ Ht]|[-> <-]]; [left; eauto|right].
      simpl in Hin. apply list_elem_of_singleton in Hin as ->. done.
    + intros [(t & ev & Ht & Hin & Hc)|[-> Hc]].
      * exists t, ev. split_and!; [|done..]. apply lookup_app_l_Some. done.
      * eexists _, event. split; [apply lookup_snoc_Some; right; by split|]. split; [by apply list_elem_of_singleton|done].
Qed.

Lemma admit_inv ns id d event s a s' : admit_call ns id d event s = (a, s') ->
  match a with
  | Ok guard => exists r, guard.2 = d /\ s' = set_depths (<[guard.1 := enter d (depths_of s guard.1)]> (depths s)) (set_registry r s) /\
      forall g' c, mail_has r g' c <-> mail_has (registry s) g' c \/ g' = guard.1 /\ call_of event = Some c
  | Err _ => s' = s
  end.
Proof.
  unfold admit_call. destruct (admit_event ns id event (registry s)) as [[g|e] r] eqn:E; apply admit_event_mail in E; intros [= <- <-].
  - exists r. split_and!; [done..|exact E].
  - rewrite E. by destruct s.
Qed.

Lemma same_mail_has r r' g c : same_mail r r' -> mail_has r' g c <-> mail_has r g c.
Proof.
  intros H. specialize (H g). unfold mail_has. destruct (tasks r !! g), (tasks r' !! g); simpl in H; try done.
  - injection H as H. split; intros (t1 & ev & [= <-] & Hin & Hc); (eexists _, ev; split_and!; [reflexivity|congruence|done]).
Qed.

Lemma take_mail s g s' : take g s = Some s' ->
  exists r event, s' = set_taken (match call_of event with Some c => {[c]} | None => ∅ end ∪ taken s) (set_registry r s) /\
    (forall g' c, mail_has r g' c -> mail_has (registry s) g' c) /\
    (forall c, call_of event = Some c -> mail_has (registry s) g c) /\
    (forall g' c, mail_has (registry s) g' c -> mail_has r g' c \/ call_of event = Some c).
Proof.
  unfold take. intros (t & Et & H)%option_Some_bind. destruct (t_phase t); try done. destruct (t_mail t) as [|event m] eqn:Em; [done|].
  injection H as <-. eexists _, event. split; [reflexivity|]. apply lookup_lt_Some in Et as Hlt.
  split_and!.
  - intros g' c (t1 & ev & Ht & Hin & Hc). simpl in Ht. destruct (decide (g' = g)) as [->|Hne].
    + rewrite list_lookup_insert_eq in Ht by done. injection Ht as <-. exists t, ev. split_and!; [done| |done].
      rewrite Em. simpl in Hin. by apply list_elem_of_further.
    + rewrite list_lookup_insert_ne in Ht by done. by exists t1, ev.
  - intros c Hc. exists t, event. split_and!; [done|rewrite Em; apply list_elem_of_here|done].
  - intros g' c (t1 & ev & Ht & Hin & Hc). destruct (decide (g' = g)) as [->|Hne].
    + assert (t1 = t) as -> by congruence. rewrite Em in Hin. apply elem_of_cons in Hin as [->|Hin]; [by right|left].
      eexists _, ev. split; [apply list_lookup_insert_eq; done|done].
    + left. exists t1, ev. split; [|done]. simpl. by rewrite list_lookup_insert_ne.
Qed.

(** ** Invariant *)

(** The depths of the callers that wait in the generation [g]. *)
Definition caller_depths (g : nat) (m : gmap nat Caller) : list Z :=
  omap (fun kv : nat * Caller => if decide (c_generation kv.2 = g) then Some (c_depth kv.2) else None) (map_to_list m).

Lemma caller_depths_insert g c x m : m !! c = None ->
  caller_depths g (<[c := x]> m) ≡ₚ (if decide (c_generation x = g) then [c_depth x] else []) ++ caller_depths g m.
Proof.
  intros Hc. unfold caller_depths. rewrite (map_to_list_insert _ _ _ Hc). simpl. by case_decide.
Qed.

Lemma caller_depths_delete g c x m : m !! c = Some x ->
  caller_depths g m ≡ₚ (if decide (c_generation x = g) then [c_depth x] else []) ++ caller_depths g (delete c m).
Proof.
  intros Hc. rewrite <- (insert_delete_id m c x Hc) at 1. apply caller_depths_insert, lookup_delete_eq.
Qed.

(** Nothing of the call [c] exists outside of its caller. *)
Definition untouched (s : state) (c : nat) : Prop :=
  callers s !! c = None /\ settled s !! c = None /\ c ∉ taken s /\ forall g, ~ mail_has (registry s) g c.

Definition located (s : state) (c : nat) (x : Caller) : Prop :=
  is_Some (settled s !! c) \/ c ∈ taken s \/ mail_has (registry s) (c_generation x) c.

Record inv (s : state) : Prop := mkInv {
  i_depths g : depths_of s g ≡ₚ caller_depths g (callers s);
  i_fresh c : (next s <= c)%nat -> untouched s c /\ returned s !! c = None;
  i_located c x : callers s !! c = Some x -> located s c x;
  i_fits c x a : callers s !! c = Some x -> settled s !! c = Some (Some a) -> answers (c_kind x) a = true;
  i_refused c e : returned s !! c = Some (OAlarm (Err (ARefused e))) -> untouched s c;
}.

Lemma depths_of_insert s g l g' : depths_of (set_depths (<[g := l]> (depths s)) s) g' = if decide (g' = g) then l else depths_of s g'.
Proof.
  unfold depths_of. simpl. case_decide as E; [subst; by rewrite lookup_insert_eq|by rewrite lookup_insert_ne].
Qed.

Lemma drop_guard_perm d l l' : drop_guard d l = Some l' -> l ≡ₚ d :: l'.
Proof.
  unfold drop_guard. destruct (position d l) as [i|] eqn:E; intros H; simplify_eq/=.
  apply position_Some, swap_remove_perm in E. by rewrite E.
Qed.

Lemma drop_guard_some d l : d ∈ l -> is_Some (drop_guard d l).
Proof. intros [i Hi]%position_elem. unfold drop_guard. rewrite Hi. by eexists. Qed.

Lemma drop_entered_inv guard s s' : drop_entered guard s = Some s' ->
  exists l, s' = set_depths (<[guard.1 := l]> (depths s)) s /\ depths_of s guard.1 ≡ₚ guard.2 :: l.
Proof. unfold drop_entered. intros (l & Hl & [= <-])%option_Some_bind. exists l. split; [done|by apply drop_guard_perm]. Qed.

(** A caller of this invariant can always give its guard back. *)
Lemma caller_guard s c x : inv s -> callers s !! c = Some x -> is_Some (drop_entered (c_generation x, c_depth x) s).
Proof.
  intros Hi Hc. assert (Hin : c_depth x ∈ depths_of s (c_generation x)).
  { rewrite (i_depths _ Hi), (caller_depths_delete _ _ _ _ Hc), decide_True by done. by left. }
  destruct (drop_guard_some _ _ Hin) as [l Hl]. unfold drop_entered. simpl. rewrite Hl. by eexists.
Qed.

(** A caller that leaves, with the guard of its depth. *)
Lemma calls_inv_leave s c x s' m : inv s -> callers s !! c = Some x -> drop_entered (c_generation x, c_depth x) s = Some s' ->
  (forall e, m !! c <> Some (OAlarm (Err (ARefused e)))) ->
  (forall c', c' <> c -> m !! c' = returned s !! c') ->
  inv (mkState (registry s') (depths s') (next s') (delete c (callers s')) (taken s') (settled s') m).
Proof.
  intros [Hd Hf Hl Ha Hr] Hc (l & -> & Hp)%drop_entered_inv Hm Hm'. simpl in *.
  assert (Hlt : (c < next s)%nat).
  { destruct (decide (next s <= c)%nat) as [Hn|]; [|lia]. destruct (Hf c Hn) as [[? _] _]. congruence. }
  assert (Hu : forall c', untouched s c' -> untouched (mkState (registry s) (<[c_generation x := l]> (depths s)) (next s) (delete c (callers s))
    (taken s) (settled s) m) c').
  { intros c' (H1 & H2 & H3 & H4). split; [|done]. simpl. apply lookup_delete_None. by right. }
  split; simpl.
  - intros g. unfold depths_of in *. simpl. pose proof (Hd g) as Hg. rewrite (caller_depths_delete g _ _ _ Hc) in Hg.
    destruct (decide (g = c_generation x)) as [->|Hne].
    + rewrite lookup_insert_eq. simpl. rewrite decide_True in Hg by done. rewrite Hp in Hg. by apply Permutation_cons_inv in Hg.
    + rewrite lookup_insert_ne by done. by rewrite decide_False in Hg by done.
  - intros c' Hn. destruct (Hf c' Hn) as [H1 H2]. split; [by apply Hu|]. rewrite Hm' by lia. done.
  - intros c' x' [_ H]%lookup_delete_Some. by apply Hl.
  - intros c' x' a [_ H]%lookup_delete_Some. by apply Ha.
  - intros c' e H. destruct (decide (c' = c)) as [->|Hne]; [by destruct (Hm e)|]. rewrite Hm' in H by done. eapply Hu, Hr, H.
Qed.

(** What a step keeps of a call that it is not about. *)
Lemma untouched_mail s c (r : DurableRegistry.state) : untouched s c -> (forall g, mail_has r g c -> mail_has (registry s) g c) ->
  forall g, ~ mail_has r g c.
Proof. intros (_ & _ & _ & H) Hr g Hg. by apply (H g), Hr. Qed.

Lemma calls_inv_refuse s o : inv s -> inv (return_ (next s) o (new_call s)).
Proof.
  intros [Hd Hf Hl Ha Hr]. destruct (Hf (next s) ltac:(lia)) as [Hn Hn']. pose proof Hn as (Hc & _).
  assert (Hu : forall c, untouched s c -> untouched (return_ (next s) o (new_call s)) c).
  { intros c (H1 & H). split; [|exact H]. simpl. apply lookup_delete_None. by right. }
  assert (E : callers (return_ (next s) o (new_call s)) = callers s) by (apply delete_id, Hc).
  split.
  - intros g. rewrite E. exact (Hd g).
  - simpl. intros c Hlt. destruct (Hf c ltac:(lia)) as [H1 H2]. split; [by apply Hu|]. by rewrite lookup_insert_ne by lia.
  - intros c x. rewrite E. apply Hl.
  - intros c x a. rewrite E. apply Ha.
  - simpl. intros c e. destruct (decide (c = next s)) as [->|Hne]; [intros _; by apply Hu|].
    rewrite lookup_insert_ne by done. intros H. eapply Hu, Hr, H.
Qed.

(** A registry whose mailboxes have one event more, of the call [next s]. *)
Lemma calls_inv_wait s r g d k : inv s ->
  (forall g' c, mail_has r g' c <-> mail_has (registry s) g' c \/ g' = g /\ Some (next s) = Some c) ->
  inv (mkState r (<[g := enter d (depths_of s g)]> (depths s)) (S (next s)) (<[next s := mkCaller k g d]> (callers s))
         (taken s) (settled s) (returned s)).
Proof.
  intros [Hd Hf Hl Ha Hr] Hm. destruct (Hf (next s) ltac:(lia)) as [(Hc & Hs & _ & _) Hn].
  assert (Hu : forall c, c <> next s -> untouched s c -> untouched (mkState r (<[g := enter d (depths_of s g)]> (depths s)) (S (next s))
    (<[next s := mkCaller k g d]> (callers s)) (taken s) (settled s) (returned s)) c).
  { intros c Hne (H1 & H2 & H3 & H4). split_and!; simpl; [by rewrite lookup_insert_ne by done|done..|].
    intros g' [Hg|[_ [= <-]]]%Hm; [by apply (H4 g')|done]. }
  split; simpl.
  - intros g'. rewrite (caller_depths_insert _ _ _ _ Hc). simpl. unfold depths_of in *. simpl.
    destruct (decide (g' = g)) as [->|Hne].
    + rewrite lookup_insert_eq, decide_True by done. simpl. unfold enter. rewrite (Hd g). by rewrite <- Permutation_cons_append.
    + rewrite lookup_insert_ne, decide_False by congruence. apply Hd.
  - intros c Hlt. destruct (Hf c ltac:(lia)) as [H1 H2]. split; [apply Hu; [lia|done]|done].
  - intros c x. destruct (decide (c = next s)) as [->|Hne].
    + rewrite lookup_insert_eq. intros [= <-]. do 2 right. simpl. apply Hm. by right.
    + rewrite lookup_insert_ne by done. intros [?|[?|?]]%Hl; [by left|by right; left|]. do 2 right. apply Hm. by left.
  - intros c x a. destruct (decide (c = next s)) as [->|Hne]; [intros _; by rewrite Hs|].
    rewrite lookup_insert_ne by done. apply Ha.
  - intros c e H. apply Hu; [congruence|by eapply Hr].
Qed.

Lemma calls_inv_send s ns id d headers : inv s -> inv (send_start ns id d headers s).
Proof.
  intros Hi. unfold send_start. destruct (admit_call _ _ _ _ _) as [[[g d']|e] s'] eqn:E; apply admit_inv in E.
  - destruct E as (r & Hd & -> & Hm). simpl in Hd. subst d'. exact (calls_inv_wait s r g _ _ Hi Hm).
  - subst s'. by apply calls_inv_refuse.
Qed.

Lemma calls_inv_alarm s ns id retry : inv s -> inv (alarm_start ns id retry s).
Proof.
  intros Hi. unfold alarm_start. destruct (admit_call _ _ _ _ _) as [[[g d']|e] s'] eqn:E; apply admit_inv in E.
  - destruct E as (r & Hd & -> & Hm). simpl in Hd. subst d'. exact (calls_inv_wait s r g _ _ Hi Hm).
  - subst s'. by apply calls_inv_refuse.
Qed.

(** A change of the mailboxes that loses no event of a caller but to [taken]. *)
Lemma calls_inv_mail s r x : inv s -> (forall g c, mail_has r g c -> mail_has (registry s) g c) ->
  (forall g c, mail_has (registry s) g c -> mail_has r g c \/ c ∈ x) ->
  (forall c, c ∈ x -> exists g, mail_has (registry s) g c) ->
  inv (set_taken (x ∪ taken s) (set_registry r s)).
Proof.
  intros [Hd Hf Hl Ha Hr] Hm1 Hm2 Hx.
  assert (Hu : forall c, untouched s c -> untouched (set_taken (x ∪ taken s) (set_registry r s)) c).
  { intros c H. pose proof H as (H1 & H2 & H3 & H4). split_and!; [done..| |].
    - simpl. intros [[g Hg]%Hx|?]%elem_of_union; [by apply (H4 g)|done].
    - eapply untouched_mail; eauto. }
  split; try done.
  - simpl. intros c Hn. destruct (Hf c Hn). split; [by apply Hu|done].
  - simpl. intros c y H. destruct (Hl c y H) as [?|[?|Hg]]; [by left|right; left; simpl; set_solver|].
    destruct (Hm2 _ _ Hg); [by do 2 right|right; left; simpl; set_solver].
  - simpl. intros c e H. by eapply Hu, Hr.
Qed.

Lemma calls_inv_socket s ns id event a s' : inv s -> socket_event ns id event s = Some (a, s') -> inv s'.
Proof.
  intros Hi. unfold socket_event. destruct (admit_call _ _ _ _ _) as [[guard|e] s1] eqn:E; apply admit_inv in E.
  - destruct E as (r & Hg & -> & Hm). intros (s2 & (l & -> & Hl)%drop_entered_inv & [= <- <-])%option_Some_bind.
    assert (Hi' : inv (set_taken (∅ ∪ taken s) (set_registry r s))).
    { apply calls_inv_mail; [done|..].
      - intros g c [?|[_ [=]]]%Hm. done.
      - intros g c H. left. apply Hm. by left.
      - intros c H. set_solver. }
    destruct Hi' as [Hd Hf Hlo Ha Hr]. rewrite (union_empty_l_L (taken s)) in *.
    assert (Hu : forall c, untouched (set_taken (taken s) (set_registry r s)) c ->
      untouched (set_depths (<[guard.1 := l]> (<[guard.1 := enter 0 (depths_of s guard.1)]> (depths s))) (set_registry r s)) c) by done.
    split; try done.
    intros g. specialize (Hd g). unfold depths_of in *. simpl in *. destruct (decide (g = guard.1)) as [->|Hne].
    + rewrite lookup_insert_eq in *. simpl in *. rewrite <- Hd. symmetry. rewrite Hg in Hl. unfold enter in Hl.
      apply (Permutation_cons_inv (a := 0)). by rewrite <- Hl, <- Permutation_cons_append.
    + by rewrite !lookup_insert_ne by done.
  - intros [= <- <-]. by subst.
Qed.

Lemma calls_inv_settle s c a : inv s -> (c ∈ taken s \/ exists g, mail_has (registry s) g c) ->
  (forall x b, callers s !! c = Some x -> a = Some b -> answers (c_kind x) b = true) ->
  inv (settle c a s) /\ inv (set_settled (<[c := a]> (settled s)) s).
Proof.
  intros [Hd Hf Hl Ha Hr] Hc Hfit.
  assert (Hu : forall x c', untouched s c' -> x ⊆ taken s -> untouched (set_taken x (set_settled (<[c := a]> (settled s)) s)) c').
  { intros x c' (H1 & H2 & H3 & H4) Hx. assert (c' <> c) by (intros ->; destruct Hc as [?|[g ?]]; [done|by apply (H4 g)]).
    split_and!; simpl; [done|by rewrite lookup_insert_ne|set_solver|done]. }
  assert (Hgen : forall x, x ⊆ taken s -> (forall c', c' ∈ taken s -> c' <> c -> c' ∈ x) ->
    inv (set_taken x (set_settled (<[c := a]> (settled s)) s))).
  { intros x Hx Hx'. split; simpl; try done.
    - intros c' Hn. destruct (Hf c' Hn). split; [by apply Hu|done].
    - intros c' y H. unfold located. simpl. destruct (decide (c' = c)) as [->|Hne].
      + left. rewrite lookup_insert_eq. by eexists.
      + rewrite lookup_insert_ne by done. destruct (Hl c' y H) as [?|[?|?]]; auto.
    - intros c' y b H. destruct (decide (c' = c)) as [->|Hne].
      + rewrite lookup_insert_eq. intros [= ->]. by eapply Hfit.
      + rewrite lookup_insert_ne by done. by apply Ha.
    - intros c' e H. eapply Hu; [by eapply Hr|done]. }
  split; [apply Hgen; set_solver|]. specialize (Hgen (taken s) ltac:(done) ltac:(done)). destruct s. exact Hgen.
Qed.

Lemma outcome_not_refused k a e : outcome_of k a <> OAlarm (Err (ARefused e)).
Proof. by destruct k, a as [[|[[]|]]|]. Qed.

Lemma calls_inv_finish s c s' : inv s -> finish c s = Some s' -> inv s'.
Proof.
  intros Hi. unfold finish. intros (x & Hc & (a & _ & (s1 & Hd & [= <-])%option_Some_bind)%option_Some_bind)%option_Some_bind.
  assert (Hret : returned s1 = returned s) by (apply drop_entered_inv in Hd as (l & -> & _); done).
  apply (calls_inv_leave s c x); [done..| |].
  - intros e. rewrite lookup_insert_eq. intros [= H]. by apply outcome_not_refused in H.
  - intros c' Hne. by rewrite lookup_insert_ne, Hret.
Qed.

Lemma calls_inv_cancel s c s' : inv s -> cancel c s = Some s' -> inv s'.
Proof.
  intros Hi. unfold cancel. intros (x & Hc & (s1 & Hd & [= <-])%option_Some_bind)%option_Some_bind.
  assert (Hret : returned s1 = returned s) by (apply drop_entered_inv in Hd as (l & -> & _); done).
  apply (calls_inv_leave s c x); [done..| |by rewrite Hret].
  intros e He. rewrite Hret in He. destruct (i_refused _ Hi c e He) as [? _]. congruence.
Qed.

Lemma calls_inv_step s s' : inv s -> step s s' -> inv s'.
Proof.
  intros Hi Hst. destruct Hst as [s ns id d h|s ns id n|s ns id ev a s' E|s r _ Hm|s g s' E|s c a Hc Ha|s c Hc|s g c Hg _|s c s' E|s c s' E].
  - by apply calls_inv_send.
  - by apply calls_inv_alarm.
  - by eapply calls_inv_socket.
  - assert (H : inv (set_taken (∅ ∪ taken s) (set_registry r s))); [|by rewrite (union_empty_l_L (taken s)) in H].
    apply calls_inv_mail; [done|..]; intros; rewrite ?(same_mail_has _ _ _ _ Hm) in *; auto. set_solver.
  - apply take_mail in E as (r & ev & -> & H1 & H2 & H3). apply calls_inv_mail; [done|done|..].
    + intros g' c [?|Hc]%H3; [by left|right]. rewrite Hc. set_solver.
    + intros c Hc. exists g. apply H2. destruct (call_of ev); set_solver.
  - apply calls_inv_settle; [done|by left|]. intros x b Hx [= <-]. by apply Ha.
  - apply calls_inv_settle; [done|by left|done].
  - apply calls_inv_settle; [done|right; by exists g|done].
  - by eapply calls_inv_finish.
  - by eapply calls_inv_cancel.
Qed.

Lemma calls_inv_reachable s : rtc step init s -> inv s.
Proof.
  apply rtc_invariant; [apply calls_inv_step|]. split; try done. intros c _. split; [|done]. split_and!; try done.
  intros g (t & e & Ht & _). done.
Qed.

(** ** Properties *)

(** What the caller itself does once its channel is settled: it returns. *)
Definition returns (c : nat) (o : outcome) (s : state) : Prop :=
  exists s', finish c s = Some s' /\ callers s' !! c = None /\ returned s' !! c = Some o.

Lemma finish_returns s c x a s1 : inv s -> callers s !! c = Some x ->
  callers s1 = callers s -> depths s1 = depths s -> settled s1 !! c = Some a -> returns c (outcome_of (c_kind x) a) s1.
Proof.
  intros Hi Hc Ec Ed Ha. destruct (caller_guard _ _ _ Hi Hc) as [s2 Hd].
  assert (exists s3, drop_entered (c_generation x, c_depth x) s1 = Some s3) as [s3 H3].
  { unfold drop_entered, depths_of in *. rewrite Ed. by destruct (drop_guard _ _); [eexists|]. }
  exists (return_ c (outcome_of (c_kind x) a) s3). split_and!.
  - unfold finish. rewrite Ec, Hc. simpl. rewrite Ha. simpl. by rewrite H3.
  - apply lookup_delete_eq.
  - apply lookup_insert_eq.
Qed.

(** C18. No caller of a Durable Object is forgotten, whatever the registry, the
    objects and the other callers do. A caller that waits has its event in the
    open mailbox of the object that admitted it; or in a mailbox that was
    dropped, which closes its channel, and its own next step after that
    returns that the object stopped; or
    taken by the object, and then its own next step after the object answers
    or drops it returns that; or its channel is settled, and its own next step
    returns what it was settled with. The depths of an object are exactly
    those of the callers that wait for it, so that no guard ever panics; and an
    alarm that is reported as refused never reached an object. *)
Theorem calls_answered (s : state) : rtc step init s ->
  (forall c x, callers s !! c = Some x ->
     (exists t e, tasks (registry s) !! c_generation x = Some t /\ t_open t = true /\ e ∈ t_mail t /\ call_of e = Some c) \/
     (mail_has (registry s) (c_generation x) c /\ mail_lost (registry s) (c_generation x) /\
      returns c (outcome_of (c_kind x) None) (set_settled (<[c := None]> (settled s)) s)) \/
     (c ∈ taken s /\ forall a, returns c (outcome_of (c_kind x) a) (settle c a s)) \/
     (exists a, settled s !! c = Some a /\ returns c (outcome_of (c_kind x) a) s)) /\
  (forall g, depths_of s g ≡ₚ caller_depths g (callers s)) /\
  (forall c x, callers s !! c = Some x -> is_Some (cancel c s)) /\
  (forall c e, returned s !! c = Some (OAlarm (Err (ARefused e))) ->
     settled s !! c = None /\ c ∉ taken s /\ forall g, ~ mail_has (registry s) g c).
Proof.
  intros Hi%calls_inv_reachable. split_and!.
  - intros c x Hc. destruct (i_located _ Hi c x Hc) as [[a Ha]|[Ht|(t & e & Ht & He & Hcall)]].
    + right; right; right. exists a. split; [done|]. by eapply finish_returns.
    + right; right; left. split; [done|]. intros a. eapply finish_returns; try done. apply lookup_insert_eq.
    + destruct (t_open t) eqn:Eo; [left; by exists t, e|right; left]. split; [by exists t, e|]. split; [by exists t|].
      eapply finish_returns; try done. apply lookup_insert_eq.
  - apply (i_depths _ Hi).
  - intros c x Hc. destruct (caller_guard _ _ _ Hi Hc) as [s1 Hd]. unfold cancel. rewrite Hc. simpl. rewrite Hd. by eexists.
  - intros c e Hc. destruct (i_refused _ Hi c e Hc) as (_ & H). done.
Qed.

(** A fetch that asks for a socket, at depth 3, and an alarm wait in the
    mailbox of one object. *)
Definition test_ns : NamespaceConfig := mkNamespaceConfig "n" "u" "w" "C" "k".
Definition two_calls : state :=
  alarm_start test_ns "a" 1 (send_start test_ns "a" 3 [("Upgrade", "WebSocket")] init).

Lemma calls_answered_witness :
  depths_of two_calls 0 = [3; 0] /\ callers two_calls !! 0%nat = Some (mkCaller (CSend true) 0 3) /\
  is_Some (cancel 0 two_calls).
Proof.
  split; [vm_compute; reflexivity|]. split; [vm_compute; reflexivity|].
  refine (proj1 (proj2 (proj2 (calls_answered two_calls _))) 0%nat (mkCaller (CSend true) 0 3) _).
  - eapply rtc_l; [apply c_send|]. eapply rtc_l; [apply c_alarm|]. apply rtc_refl.
  - vm_compute. reflexivity.
Defined.
