(* ===== verification/Startup.v ===== *)
(** * Start and stop of the process (src/bin/main.rs)

    [main] as the order of what it does: each effect on the process, the
    database, the disk and the network is an event of a trace. The
    configuration is read by the components that own it; the system, the
    database and the time at which the shutdown comes are parameters. *)

From S2P Require Import Prelude RustStr Extern NetGuard Addr RequestBody Ingress Workers TaskRun Server.

(** What [init_pinned_pool] gets. *)
Record PinnedPoolConfig := mkPinnedPoolConfig {
  max_per_thread : Z; max_concurrent_per_isolate : Z; max_cached_contexts : Z; overcommit : bool;
  max_context_reuses : Z; heap_initial_mb : Z; heap_max_mb : Z; max_cpu_time_ms : Z; max_wall_clock_time_ms : Z }.

Inductive event : Type :=
| CryptoProvider | TelemetryInit | Strict (strict : bool)
| PoolReady (label : string) (max_connections : Z) (test_before_acquire : bool)
| LockTaken | LockHeld
| D1Ready | D1RequestsListen | InternalPort (port : Z)
| LogStore | ResolveListen | WatchVersions | IsolatePool (c : PinnedPoolConfig)
| SchedulerRuns | AlarmsRun | SignalsWatched | DrainWatched
| Serving (sockets : nat)
| ShutdownReceived | StopCancelled | ListenersAborted | SchedulerEnded | D1RequestsEnded
| D1Shutdown | LogStoreEnded (in_time : bool) | LockReleased.

(** How the process ends before its time. *)
Inductive exit : Type := Panic (message : string) | Error (message : string).

Definition Main (A : Type) : Type := SE (list event) exit A.

Definition emit (e : event) : Main unit := fun tr => (Ok tt, tr ++ [e]).
Definition when (b : bool) (m : Main unit) : Main unit := if b then m else mret tt.
Definition or_panic {A} (message : string) (o : option A) : Main A :=
  match o with Some a => mret a | None => throw (Panic message) end.
Definition or_error {A} (r : result A string) : Main A := lift (result_map_err Error r).

Section main.
Context {N T : Type} {ipnet : IpNet N} {libs : IngressLibs} `{HeaderValue}.

(** The build, the environment, and how each call to the outside ends. *)
Record Boot := mkBoot {
  b_build : Build; b_env : string -> option string;
  (** No provider was installed before. *)
  b_crypto : bool;
  b_attempts : string -> nat -> Attempt;
  b_lock : result unit string;
  (** Whether there is a D1 service. *)
  b_d1 : result bool string;
  b_read_file : string -> result string string;
  b_tls_config : string -> string -> option string -> result T string;
  b_parallelism : option Z;
  b_bind_tcp : SocketAddr -> result unit string; b_bind_unix : string -> result unit string;
  (** Whether the log store ends in its five seconds. *)
  b_logs_in_time : bool }.

Definition is_v8 (b : Build) : bool := match js_engine b with Some V8 => true | _ => false end.

Definition env_number (env : string -> option string) (max : Z) (name : string) (dflt : Z) : Z :=
  default dflt (s ← env name; parse_uint max s).

Definition pool_config (env : string -> option string) : PinnedPoolConfig :=
  mkPinnedPoolConfig (env_number env U64_MAX "ISOLATE_POOL_SIZE" 1000) (env_number env U64_MAX "ISOLATE_MAX_CONCURRENT" 1) 10 true
    (env_number env U32_MAX "CONTEXT_MAX_REUSES" 1000) (env_number env U64_MAX "ISOLATE_HEAP_INITIAL_MB" 10)
    (env_number env U64_MAX "ISOLATE_HEAP_MAX_MB" 50) (env_number env U64_MAX "CPU_TIME_LIMIT_MS" 100)
    (Server.wall_clock_timeout_ms env).

Definition process_setup (b : Boot) : Main unit :=
  _ ← or_panic "no other crypto provider is installed before main" (if b_crypto b then Some tt else None);
  _ ← emit CryptoProvider;
  _ ← emit TelemetryInit;
  emit (Strict (configure_strict (b_env b "STRICT_SPEC"))).

(** A pool, or a panic after the retries. *)
Definition pool (b : Boot) (label : string) (max_connections : Z) : Main unit :=
  match create_pool 6 (b_attempts b label) 0 0 0 with
  | Some (true, _, _) => emit (PoolReady label max_connections (test_before_acquire (b_env b)))
  | _ => throw (Panic ("Failed to connect to database (" +:+ label +:+ ")"))
  end.

(** The first part of the URL that is not set. *)
Definition missing_part (env : string -> option string) : string :=
  default "POSTGRES_DB" (find_map (fun name => match env name with None => Some name | Some _ => None end)
    ["POSTGRES_HOST"; "POSTGRES_PORT"; "POSTGRES_USER"; "POSTGRES_PASSWORD"; "POSTGRES_DB"]).

Definition database (b : Boot) : Main unit :=
  _ ← or_panic (missing_part (b_env b) +:+ " must be set") (db_url (b_env b));
  _ ← pool b "internal" (internal_pool_size (b_env b));
  pool b "worker" (worker_pool_size (b_env b)).

(** The two locks, of the database and of the data directory. Answers whether
    D1 is on. *)
Definition locks (b : Boot) : Main bool :=
  _ ← or_error (b_lock b);
  _ ← emit LockTaken;
  _ ← emit LockHeld;
  d1 ← or_error (b_d1 b);
  _ ← emit D1Ready;
  _ ← when d1 (emit D1RequestsListen);
  mret d1.

Definition configure (b : Boot) : Main (@Config N T) :=
  config ← or_error (from_env (b_read_file b) (b_tls_config b) (b_parallelism b) (b_env b));
  _ ← emit (InternalPort (internal_port config));
  _ ← or_error (limit_from (b_env b "MAX_REQUEST_BODY_BYTES"));
  mret config.

Definition isolate_pool (b : Boot) : Main unit :=
  match mode_get (b_env b) with
  | Pinned => emit (IsolatePool (pool_config (b_env b)))
  | Oneshot => mret tt
  end.

Definition start_tasks (b : Boot) : Main unit :=
  let v8 := is_v8 (b_build b) in
  _ ← emit LogStore;
  _ ← emit ResolveListen;
  _ ← when v8 (emit WatchVersions);
  _ ← when v8 (isolate_pool b);
  _ ← emit SchedulerRuns;
  when v8 (emit AlarmsRun).

Definition open_doors (b : Boot) (config : @Config N T) : Main unit :=
  _ ← or_panic "the backend names and the version are header-safe"
        (if hv_ok (Workers.server_header (b_build b)) then Some tt else None);
  _ ← emit SignalsWatched;
  _ ← emit DrainWatched;
  sockets ← or_error (serve (b_bind_tcp b) (b_bind_unix b) config);
  emit (Serving (length sockets)).

Definition shut_down (b : Boot) (d1 : bool) : Main unit :=
  _ ← emit ShutdownReceived;
  _ ← emit StopCancelled;
  _ ← emit ListenersAborted;
  _ ← emit SchedulerEnded;
  _ ← when d1 (emit D1RequestsEnded);
  _ ← emit D1Shutdown;
  _ ← emit (LogStoreEnded (b_logs_in_time b));
  emit LockReleased.

Definition main (b : Boot) : Main unit :=
  _ ← process_setup b;
  _ ← database b;
  d1 ← locks b;
  config ← configure b;
  _ ← start_tasks b;
  _ ← open_doors b config;
  shut_down b d1.

(** ** The order of a trace *)

(** What only the runner that has the lock may do: open the data directory,
    run crons, alarms and requests, and change the tables. *)
Definition needs_lock (e : event) : bool :=
  match e with
  | CryptoProvider | TelemetryInit | Strict _ | PoolReady _ _ _ | LockTaken => false
  | _ => true
  end.

(** Each event is allowed by those before it. *)
Fixpoint goes (ok : list event -> event -> bool) (past tr : list event) : bool :=
  match tr with
  | [] => true
  | e :: tr => ok past e && goes ok (past ++ [e]) tr
  end.

Lemma goes_app ok past l l' : goes ok past (l ++ l') = goes ok past l && goes ok (past ++ l) l'.
Proof.
  revert past. induction l as [|e l IH]; intros past; simpl; [by rewrite app_nil_r|].
  by rewrite IH, <- app_assoc, andb_assoc.
Qed.

Lemma goes_spec ok tr l e l' : goes ok [] tr = true -> tr = l ++ e :: l' -> ok l e = true.
Proof. intros Hg ->. rewrite goes_app in Hg. simpl in Hg. by repeat (apply andb_true_iff in Hg as [? Hg]). Qed.

(** The order that the code wants. *)
Definition in_order (past : list event) (e : event) : bool :=
  let seen p := existsb p past in
  let locked := seen (fun e => match e with LockTaken => true | _ => false end) in
  let released := seen (fun e => match e with LockReleased => true | _ => false end) in
  let d1_ready := seen (fun e => match e with D1Ready => true | _ => false end) in
  let d1_closed := seen (fun e => match e with D1Shutdown => true | _ => false end) in
  let stopped := seen (fun e => match e with StopCancelled => true | _ => false end) in
  let crypto := seen (fun e => match e with CryptoProvider => true | _ => false end) in
  implb (needs_lock e) (locked && negb released) &&
  match e with
  | CryptoProvider => true
  | PoolReady _ _ _ => crypto
  | D1RequestsListen | SchedulerRuns | AlarmsRun => d1_ready && negb stopped
  | Serving _ => d1_ready && negb stopped &&
      seen (fun e => match e with SignalsWatched => true | _ => false end) &&
      seen (fun e => match e with DrainWatched => true | _ => false end)
  | SchedulerEnded | D1RequestsEnded | ListenersAborted => stopped && negb d1_closed
  | D1Shutdown => stopped && seen (fun e => match e with SchedulerEnded => true | _ => false end) &&
      seen (fun e => match e with ListenersAborted => true | _ => false end) &&
      implb (seen (fun e => match e with D1RequestsListen => true | _ => false end))
            (seen (fun e => match e with D1RequestsEnded => true | _ => false end))
  | LogStoreEnded _ | LockReleased => d1_closed
  | _ => true
  end.

Lemma missing_part_message env : missing_part env +:+ " must be set" <> "the backend names and the version are header-safe".
Proof. unfold missing_part. simpl. repeat (destruct (env _); simpl); done. Qed.

(** What a run of [main] gives, whatever its calls answer. *)
Lemma main_runs b r tr : main b [] = (r, tr) ->
  goes in_order [] tr = true /\
  (existsb (fun e => match e with Serving _ => true | _ => false end) tr = true ->
     is_ok (from_env (b_read_file b) (b_tls_config b) (b_parallelism b) (b_env b)) = true /\
     is_ok (limit_from (b_env b "MAX_REQUEST_BODY_BYTES")) = true) /\
  (existsb (fun e => match e with LockTaken => true | _ => false end) tr = true -> b_lock b = Ok tt) /\
  (r = Ok tt -> drop (length tr - 3) tr = [D1Shutdown; LogStoreEnded (b_logs_in_time b); LockReleased]) /\
  r <> Err (Panic "the backend names and the version are header-safe").
Proof.
  unfold main, process_setup, database, pool, locks, configure, start_tasks, isolate_pool, open_doors, shut_down, or_panic, or_error,
    when, lift, throw, emit, mret, mbind, SE_bind, SE_ret.
  pose proof (missing_part_message (b_env b)) as Hm. revert Hm. generalize (missing_part (b_env b) +:+ " must be set"). intros message Hm.
  rewrite server_header_valid.
  destruct (create_pool 6 (b_attempts b "internal") 0 0 0) as [[[[] n] w]|], (create_pool 6 (b_attempts b "worker") 0 0 0) as [[[[] n'] w']|];
    (destruct (b_crypto b); simpl; [|by intros [= <- <-]]); (destruct (db_url (b_env b)); simpl; [|intros [= <- <-]; split_and!; try done; congruence]);
    try by intros [= <- <-].
  destruct (b_lock b) as [[]|]; simpl; [|by intros [= <- <-]].
  destruct (b_d1 b) as [d1|]; simpl; [|by intros [= <- <-]].
  destruct (from_env _ _ _ _) as [config|]; simpl; [|destruct d1; by intros [= <- <-]].
  destruct (limit_from _) as [limit|]; simpl; [|destruct d1; by intros [= <- <-]].
  destruct (serve _ _ config) as [sockets|], d1, (is_v8 (b_build b)), (mode_get (b_env b)); simpl; by intros [= <- <-].
Qed.

(** The process starts and stops in an order that keeps its promises,
    whatever the environment holds and the system answers. Nothing that
    another runner could do at the same time happens before the lock of the
    database is taken or after it is given back: the lock is the last thing a
    process that ends well gives back, after the last snapshots and log
    lines. Nothing is served before the data directory is open, the
    configuration is valid and a signal would be seen, and the snapshots of
    the end come after the listeners are closed and the scheduler and the
    management requests have ended. *)
Theorem start_and_stop_in_order (b : Boot) r tr : main b [] = (r, tr) ->
  (forall l e l', tr = l ++ e :: l' -> in_order l e = true) /\
  (forall l e l', tr = l ++ e :: l' -> needs_lock e = true -> LockTaken ∈ l /\ LockReleased ∉ l /\ b_lock b = Ok tt) /\
  (forall n, Serving n ∈ tr -> exists config limit,
     from_env (b_read_file b) (b_tls_config b) (b_parallelism b) (b_env b) = Ok config /\
     limit_from (b_env b "MAX_REQUEST_BODY_BYTES") = Ok limit) /\
  (r = Ok tt -> exists l, tr = l ++ [D1Shutdown; LogStoreEnded (b_logs_in_time b); LockReleased]) /\
  r <> Err (Panic "the backend names and the version are header-safe").
Proof.
  intros E. destruct (main_runs b r tr E) as (Hg & Hs & Hl & Hr & Hp). split_and!; [..|done].
  - intros l e l' Et. by eapply goes_spec.
  - intros l e l' Et He. pose proof (goes_spec _ _ _ _ _ Hg Et) as Ho. unfold in_order in Ho. rewrite He in Ho.
    apply andb_true_iff in Ho as [Ho _]. simpl in Ho. apply andb_true_iff in Ho as [H1 H2].
    apply existsb_exists in H1 as (x & Hx & Hx'). destruct x; try done. apply list_elem_of_In in Hx. split_and!; [done| |].
    + intros Hin%list_elem_of_In. apply negb_true_iff in H2. apply not_true_iff_false in H2. apply H2, existsb_exists. by exists LockReleased.
    + apply Hl, existsb_exists. exists LockTaken. split; [|done]. apply list_elem_of_In. rewrite Et. apply elem_of_app. by left.
  - intros n Hn. destruct Hs as [H1 H2].
    { apply existsb_exists. exists (Serving n). by split; [apply list_elem_of_In|]. }
    destruct (from_env _ _ _ _) as [c|]; [|done]. destruct (limit_from _) as [limit|]; [|done]. by exists c, limit.
  - intros Hok. exists (take (length tr - 3) tr). rewrite <- (Hr Hok). by rewrite take_drop.
Qed.
End main.
