(* ===== verification/D1Limits.v ===== *)
(** * How a D1 file is opened and measured (src/src/d1/sqlite.rs)

    The settings of a new connection, and the sizes read from it. SQLite is a
    parameter: what each call and each pragma answers. *)

From S2P Require Import Prelude RustStr.

Record Limits := mkLimits {
  sql_length : Z; parameters : Z; columns : Z; value_length : Z; database_bytes : Z; result_bytes : Z }.

(** [Limits::default] *)
Definition limits_default : Limits := mkLimits 100000 100 100 2000000 (500 * 1024 * 1024) (16 * 1024 * 1024).

(** What is set on a connection, in order. *)
Inductive setting : Type :=
| Defensive (on : bool) | TrustedSchema (on : bool) | JournalMode (m : string) | Synchronous (m : string) | ForeignKeys (on : bool)
| MaxPageCount (n : Z) | SqlLength (n : Z) | VariableNumber (n : Z) | Columns (n : Z) | Length (n : Z) | Attached (n : Z)
| Authorizer | CommitHook.

Record Database := mkDatabase { settings : list setting; guest : bool; page_size : Z; d_result_bytes : Z }.

Section sqlite.
(** Whether a setting is taken, and what a pragma answers. *)
Context (takes : setting -> result unit string).
Context (pragma : string -> result Z string).

Fixpoint set_all (l : list setting) : result unit string :=
  match l with
  | [] => Ok tt
  | s :: l => _ <-? takes s; set_all l
  end.

Definition before_pages : list setting :=
  [Defensive true; TrustedSchema false; JournalMode "WAL"; Synchronous "FULL"; ForeignKeys true].

(** The [i64] of the pragma is read as a [u64]; the count of pages is an [i64]
    again. *)
Definition after_pages (limits : Limits) (page_size : Z) : list setting :=
  [MaxPageCount (as_i64 (database_bytes limits / page_size)); SqlLength (sql_length limits);
   VariableNumber (parameters limits); Columns (columns limits); Length (value_length limits); Attached 0;
   Authorizer; CommitHook].

Definition open (limits : Limits) : result Database string :=
  _ <-? set_all before_pages;
  page_size <-? pragma "page_size";
  let page_size := wrap_u64 page_size in
  _ <-? set_all (after_pages limits page_size);
  Ok (mkDatabase (before_pages ++ after_pages limits page_size) true page_size (result_bytes limits)).

(** [unwrap_or(0) as u64]. The authorizer sees the flag of the guest, which is
    off while the runner asks. *)
Definition pages (name : string) : Z := wrap_u64 (match pragma name with Ok n => n | Err _ => 0 end).

Definition used_bytes (d : Database) : Z * Database :=
  let asked := mkDatabase (settings d) false (page_size d) (d_result_bytes d) in
  let used := Z.max 0 (pages "page_count" - pages "freelist_count") in
  (used * page_size d, mkDatabase (settings asked) true (page_size asked) (d_result_bytes asked)).

Definition size (d : Database) : Z * Database :=
  let asked := mkDatabase (settings d) false (page_size d) (d_result_bytes d) in
  (pages "page_count" * page_size d, mkDatabase (settings asked) true (page_size asked) (d_result_bytes asked)).

(** A file that opens is bounded: SQLite takes the page count of the limits,
    which times the page size is within them, and loses less than a page; no
    other file can be attached and the schema is not trusted, with the
    authorizer of the guest in place. What it uses is never above its size,
    and asking leaves the guest's authorizer on. *)
Theorem open_bounded (limits : Limits) (d : Database) :
  open limits = Ok d -> (exists n, pragma "page_size" = Ok n /\ 512 <= n <= 65536) ->
  0 <= database_bytes limits <= I64_MAX ->
  (exists n, MaxPageCount n ∈ settings d /\ takes (MaxPageCount n) = Ok tt /\
     n * page_size d <= database_bytes limits < n * page_size d + page_size d) /\
  Attached 0 ∈ settings d /\ Defensive true ∈ settings d /\ TrustedSchema false ∈ settings d /\ Authorizer ∈ settings d /\ guest d = true /\
  (used_bytes d).1 <= (size d).1 /\ guest (used_bytes d).2 = true /\ guest (size d).2 = true.
Proof.
  unfold open. intros E (n & Hn & Hb) Hl. destruct (set_all before_pages); [|done]. cbn [result_bind] in E.
  rewrite Hn in E. cbn [result_bind] in E.
  assert (Hw : wrap_u64 n = n) by (unfold wrap_u64; rewrite Z.mod_small; lia). rewrite Hw in E.
  assert (Hq : 0 <= database_bytes limits / n <= database_bytes limits).
  { split; [apply Z.div_pos; lia|]. apply Z.div_le_upper_bound; [lia|]. nia. }
  assert (Hi : as_i64 (database_bytes limits / n) = database_bytes limits / n).
  { unfold as_i64, I64_MAX in *. cbv zeta. rewrite Z.mod_small by lia. by rewrite (proj2 (Z.ltb_lt _ _)) by lia. }
  pose proof (Z.mod_pos_bound (database_bytes limits) n ltac:(lia)). pose proof (Z_div_mod_eq_full (database_bytes limits) n).
  cbv zeta in E. destruct (set_all (after_pages limits n)) eqn:Ea; cbn [result_bind] in E; [|discriminate E]. injection E as <-. cbn [settings guest page_size].
  assert (Ht : takes (MaxPageCount (as_i64 (database_bytes limits / n))) = Ok tt).
  { unfold after_pages in Ea. simpl in Ea. destruct (takes (MaxPageCount (as_i64 (database_bytes limits / n)))) as [[]|]; [done|discriminate]. }
  split_and!; try done; try (unfold after_pages, before_pages; simpl; set_solver).
  - exists (as_i64 (database_bytes limits / n)). split_and!; [unfold after_pages; simpl; set_solver|done|rewrite Hi; nia..].
  - unfold used_bytes, size. simpl. apply Z.mul_le_mono_nonneg_r; [lia|].
    assert (0 <= pages "page_count") by (unfold pages, wrap_u64; apply Z.mod_pos_bound; lia).
    assert (0 <= pages "freelist_count") by (unfold pages, wrap_u64; apply Z.mod_pos_bound; lia). lia.
Qed.
End sqlite.

Lemma open_bounded_witness : exists d,
  open (fun _ => Ok tt) (fun p => if String.eqb p "page_size" then Ok 4096 else Ok 7) limits_default = Ok d /\ guest d = true.
Proof.
  eexists. split; [reflexivity|].
  refine (proj1 (proj2 (proj2 (proj2 (proj2 (proj2 (open_bounded (fun _ => Ok tt)
    (fun p => if String.eqb p "page_size" then Ok 4096 else Ok 7) limits_default _ eq_refl _ _))))))).
  - exists 4096. split; [reflexivity|lia].
  - vm_compute. split; discriminate.
Defined.
